(* ===== verification/_CoqProject ===== *)
-Q . S2P
Prelude.v
Digits.v
IntBits.v
IntArith.v
IntDiv.v
IntLib.v
FpLib.v
FpSpec.v
FpAdd.v
FpMul.v
FpCompare.v
FpConv.v
FpInt.v
TaseRuntime.v
Springboard.v
ContextLayout.v
BigNum.v
Cksum.v
Blocks.v
Sine.v
Md5.v
Sha256.v
CpuModel.v
Emutls.v
Personality.v
AtomicOps.v
FpMath.v
ComplexMul.v
FpDiv.v
Powi.v
ComplexDiv.v
X87.v
ItemTree.v
ReadTokens.v
Tsort.v
FpMode.v
Platform.v
OsVersion.v
FpExact.v
HardFloat.v
Mingw.v
DoubleDouble.v
DdAdd.v
DdWide.v
DdMul.v
DdDiv.v
