(* ===== verification/Prelude.v ===== *)
(** * A verification library for the TASE release

    TASE runs a program natively inside hardware transactions and hands it to
    a symbolic executor when a transaction aborts.  This library models the
    parts of the release that carry its own logic and proves what makes them
    correct:

    - the soft-float and integer runtime ([src/compiler-rt_soft_float]): the
      routines the compiler calls for arithmetic that the instrumented code
      may not do in hardware, and the support code linked with them;
    - the transaction runtime ([src/test/tase]): the target context, the C
      side of injection and ejection, and the assembly springboard;
    - the workloads that are checked against a standard or a closed form
      ([src/test/microbenchmarks]): cksum, md5sum, sha256, bigNum, tsort.

    ** Conventions

    A [w]-bit C integer is a [Z] with its conversions written out ([uint],
    [sint] and the wrapping operators of this file); a float is its bit
    pattern; a routine that may abort or trap returns an [option]; code with
    shared state is a step relation.  Definitions keep the names of the
    source and are executable; a helper that has no name there is described
    where it is defined.  A routine that the source instantiates for several
    types by a macro or an include file is one definition over a type class
    ([FpFormat], [FpOps], [FpWideMul], [FpRecip], [FpMath], [Udiv128]) with an
    instance per type, and its theorems are proved once against the class;
    [FpEnv] is the same for the floating-point environments of the processors.

    ** The files

    - [Prelude]: machine integers, the [option] notation, congruence modulo
      2^w with its [Proper] instances, tactics and hints.
    - [Digits]: numbers as lists of digits (bytes, words), little-endian.
    - [IntBits]: shifts of double words, bit counts, parity, byte swap,
      comparisons ([ashldi3.c] ... [ucmpti2.c], [clzdi2.c], [popcountdi2.c]).
    - [IntArith]: trapping and overflow-reporting arithmetic, multiplication
      by halves ([absvdi2.c], [addvsi3.c], [mulodi4.c], [mulvti3.c],
      [multi3.c]).
    - [IntDiv]: all integer divisions, Algorithm D and [divq] included
      ([udivmoddi4.c], [udivmodti4.c], [int_div_impl.inc], [divti3.c]).
    - [IntLib]: the builtins that [int_lib.h] writes out for a compiler
      without them, over its bit-scan intrinsics as parameters.
    - [FpLib], [FpSpec]: [fp_lib.h], and what a bit pattern is worth and what
      correct rounding is.
    - [FpAdd], [FpMul], [FpCompare], [FpConv], [FpInt]: the arithmetic,
      comparison and conversion routines and the include files behind them.
    - [FpMath]: [logb], [scalbn] and [fmax] of [fp_lib.h].
    - [FpDiv]: [fp_div_impl.inc], with the error of its Newton iteration.
    - [ComplexMul], [ComplexDiv]: [mulsc3.c], [muldc3.c], [divsc3.c],
      [divdc3.c].
    - [Powi]: [powisf2.c], [powidf2.c].
    - [X87]: the conversions between integers and the 80-bit format.
    - [FpMode]: [fp_mode.c] of ARM, AArch64 and i386, the dynamic rounding
      mode and the inexact flag, and addition run in such an environment.
    - [Platform]: [clear_cache.c], [enable_execute_stack.c] and
      [trampoline_setup.c], with the caches and the instructions they act on.
    - [OsVersion]: [os_version_check.c], the Darwin and Android checks.
    - [FpExact]: when a floating-point operation is exact, what rounding does
      to a sum otherwise, and the exactness of the fast two-term sum.
    - [HardFloat]: the bodies of [floatdidf.c], [fixdfdi.c] and the like for
      hardware floating point.
    - [Mingw]: [mingw_fixfloat.c], the conversions under other names, and the
      way of an integer through a floating-point format and back.
    - [DoubleDouble], [DdAdd], [DdWide], [DdMul], [DdDiv]: the PowerPC long double of
      [ppc/], a pair of doubles: conversions with 64-bit integers, addition,
      conversions to 128-bit integers, multiplication, the conversion from
      128-bit integers, and division.
    - [CpuModel]: [cpu_model.c], processor and feature detection.
    - [Emutls]: [emutls.c], thread-local storage for several threads.
    - [AtomicOps]: [atomic.c], atomic operations for several threads.
    - [Personality]: [gcc_personality_v0.c], the exception-table reader.
    - [TaseRuntime]: [common.c], [harness.c], [log.c] and [tase_interp.h].
    - [Springboard]: [springboard.S] as a transition system with the
      hardware's aborts nondeterministic, and the histories of sessions.
    - [ContextLayout]: the target context as bytes in memory, where the
      assembly's accesses by offset meet the C structure.
    - [BigNum], [Cksum], [Blocks], [Md5], [Sha256]: the workloads, with the
      standards they implement written as specifications; [Sine] computes
      the sines that define the constants of MD5.
    - [ItemTree], [ReadTokens], [Tsort]: tsort, with its balanced tree as
      pointers in a heap, its token reader and the sort itself.

    ** What the theorems show

    - Integers: every routine computes the mathematical result at its width,
      traps exactly where it must, and the optimised forms equal plain
      reference definitions.
    - Floats: addition, multiplication, division, narrowing, integer
      conversion and scaling round the exact result to nearest even, through
      subnormals and overflow, in every format (quad multiplication excepted,
      see the theorem on its lost carry); widening is exact; the special
      values are those of IEEE 754 and, for complex products and quotients,
      of C99 Annex G.
    - Composition: the conversions written with floating-point operations
      agree with the ones written with shifts, through the division, product,
      difference and conversions they call; a sum of two PowerPC long doubles
      of one sign is within one part in 2^104, their conversions with integers
      are exact, and two theorems state where they are not.
    - Rounding modes: in an environment with a dynamic mode addition rounds
      the exact sum as the mode says and raises inexact exactly when it is not
      representable; two theorems state where the mode is not obeyed.
    - Platform: after clearing the cache the instructions executed from the
      range are those stored there, however late the machine performs what no
      barrier waits for; a trampoline enters its function with the
      static chain loaded; a version check is the lexicographic comparison,
      or the system's own answer for the packed version.
    - Concurrency: emulated TLS returns one address per thread and variable
      in every interleaving; the atomic operations are linearizable and a
      call returns by a bounded number of turns of its own thread, after at most
      one other thread has left its section.
    - Readers and detectors: exception tables and base64 are read back as
      they were written; the CPU features are those the processor reports and
      the system supports, but for three whose registers the code does not
      check.
    - TASE: in every run of the springboard no transaction that read poison
      commits, and an abort hands the interpreter the state of the injection;
      over any history of sessions the abort counters count, and the classes
      they count partition the ejections; the assembly's stores and loads
      through its offsets are the updates of the C structure.  Four
      theorems state behaviour that contradicts the comments next to it.
    - Workloads: cksum is the POSIX CRC, md5sum is RFC 1321 in the base64 of
      RFC 4648, both written from the standards, sha256
      is FIPS 180-4 for any chunking, the adder adds; the pointer tree of
      tsort refines a balanced search tree, and tsort prints a topological
      order of every input without loops, and of the part of any other input
      that no loop reaches.

    ** Bounds and fuel

    Loops that are not structural take fuel.  Division loops run once per
    bit, so the width is enough, and the theorems use exactly that; so does
    the loop of [powi], which ends for every [int].  A LEB128
    number below 2^31 has five groups ([Personality]); the tables there and
    the read loops of [Cksum] and [Md5] take any fuel beyond the length of
    the data.  In [ItemTree] and [Tsort] the next free address bounds the
    length of every path and list in the heap.  The cache loops of [Platform]
    run once per line of the range.  The theorems conclude that a result is
    returned, never only that a returned one is right.

    ** Not modelled

    Arithmetic of the 80-bit format (the complex and [powi] routines of long
    double), quad division, which this platform does not build, the
    complex arithmetic of PowerPC long double ([divtc3.c], [multc3.c]), the
    accuracy of its products and quotients by anything but a power of two and of
    its sums of opposite signs, the ARM assembly, the builds of
    [clear_cache.c] that are one system call, the symbol aliases of
    [apple_versioning.c], the message printed by [eprintf.c], the printing in
    [log.c], the empty modeled functions and traps that the
    executor replaces, [detect_loop] of tsort, which its exiting [error] makes
    unreachable, the coreutils workload factor, and the Python generator
    [src/parseltongue86]. *)

From Stdlib Require Export ZArith Lia List Bool Morphisms RelationClasses Setoid.
Export ListNotations.
#[global] Open Scope Z_scope.
#[global] Open Scope bool_scope.

(** ** Machine integers

    A [w]-bit unsigned C integer is a [Z] in [[0, 2^w)], a [w]-bit signed one
    a [Z] in [[-2^(w-1), 2^(w-1))] (two's complement).  [uint w] and [sint w]
    are the conversions to those types. *)

Definition uint (w x : Z) : Z := x mod 2 ^ w.

Definition sint (w x : Z) : Z := (x + 2 ^ (w - 1)) mod 2 ^ w - 2 ^ (w - 1).

Definition is_uint (w x : Z) : Prop := 0 <= x < 2 ^ w.

Definition is_sint (w x : Z) : Prop := - 2 ^ (w - 1) <= x < 2 ^ (w - 1).

(** Unsigned operators wrap.  Signed [+], [-], [*], unary [-] and [<<] are
    modelled as two's complement wrap-around: where the C operation would
    overflow it is undefined behaviour, and wrap-around is what the code
    relies on.  A shift count is reduced modulo the width, as the x86-64
    shift instructions do, so that no statement about this model can rest on
    an out-of-range count producing zero. *)

Definition uadd (w x y : Z) : Z := uint w (x + y).
Definition usub (w x y : Z) : Z := uint w (x - y).
Definition umul (w x y : Z) : Z := uint w (x * y).
Definition uopp (w x : Z) : Z := uint w (- x).
Definition unot (w x : Z) : Z := uint w (Z.lnot x).
Definition ushl (w x n : Z) : Z := uint w (Z.shiftl x (n mod w)).
Definition sadd (w x y : Z) : Z := sint w (x + y).
Definition ssub (w x y : Z) : Z := sint w (x - y).
Definition smul (w x y : Z) : Z := sint w (x * y).
Definition sopp (w x : Z) : Z := sint w (- x).
Definition sshl (w x n : Z) : Z := sint w (Z.shiftl x (n mod w)).
(** [>>] on a value of either signedness (arithmetic on a negative one). *)
Definition shr (w x n : Z) : Z := Z.shiftr x (n mod w).

Declare Scope c_scope.
Delimit Scope c_scope with C.
Notation "x +[ w ] y" := (uadd w x y) (at level 50, left associativity) : c_scope.
Notation "x -[ w ] y" := (usub w x y) (at level 50, left associativity) : c_scope.
Notation "x *[ w ] y" := (umul w x y) (at level 40, left associativity) : c_scope.
Notation "x <<[ w ] n" := (ushl w x n) (at level 51, left associativity) : c_scope.
Notation "x >>[ w ] n" := (shr w x n) (at level 51, left associativity) : c_scope.
Notation "x .& y" := (Z.land x y) (at level 52, left associativity) : c_scope.
Notation "x .^ y" := (Z.lxor x y) (at level 53, left associativity) : c_scope.
Notation "x .| y" := (Z.lor x y) (at level 54, left associativity) : c_scope.
#[global] Open Scope c_scope.

(** A C condition [if (x)] on an integer, and a C comparison used as an int. *)
Definition nonzero (x : Z) : bool := negb (x =? 0).
Definition b2z (b : bool) : Z := if b then 1 else 0.

(** Compiler builtins: count of leading and trailing zeros of a [w]-bit
    value; both are undefined at 0. *)
Definition clz (w x : Z) : Z := w - 1 - Z.log2 x.
Definition ctz (x : Z) : Z := Z.log2 (Z.land x (- x)).

(** A computation that may stop the program: [None] is the abort or trap. *)
Definition obind {A B} (o : option A) (f : A -> option B) : option B :=
  match o with Some x => f x | None => None end.
Notation "'let?' p := o 'in' k" := (obind o (fun p => k))
  (at level 200, p pattern, o at level 100, k at level 200) : c_scope.

(** Unsigned [/] and [%] by an operand that may be 0: the instruction traps. *)
Definition c_udiv (x y : Z) : option Z := if y =? 0 then None else Some (x / y).
Definition c_umod (x y : Z) : option Z := if y =? 0 then None else Some (x mod y).

(** [array[i] = v] inside the array. *)
Fixpoint store (l : list Z) (i : nat) (v : Z) : list Z :=
  match l, i with
  | [], _ => []
  | _ :: l, O => v :: l
  | x :: l, S i => x :: store l i v
  end.

(** ** Congruence modulo [2^w]

    [eqm w] is the equality of two integers as [w]-bit patterns; it is a
    congruence for [+], [-], [*] and unary [-]. *)

Definition eqm (w x y : Z) : Prop := x mod 2 ^ w = y mod 2 ^ w.

#[global] Instance eqm_equiv w : Equivalence (eqm w).
Proof. split; unfold eqm; red; intros; congruence. Qed.

#[global] Instance eqm_add w : Proper (eqm w ==> eqm w ==> eqm w) Z.add.
Proof.
  unfold eqm; intros a a' Ha b b' Hb.
  rewrite (Zplus_mod a b), (Zplus_mod a' b'); congruence.
Qed.

#[global] Instance eqm_sub w : Proper (eqm w ==> eqm w ==> eqm w) Z.sub.
Proof.
  unfold eqm; intros a a' Ha b b' Hb.
  rewrite (Zminus_mod a b), (Zminus_mod a' b'); congruence.
Qed.

#[global] Instance eqm_mul w : Proper (eqm w ==> eqm w ==> eqm w) Z.mul.
Proof.
  unfold eqm; intros a a' Ha b b' Hb.
  rewrite (Zmult_mod a b), (Zmult_mod a' b'); congruence.
Qed.

#[global] Instance eqm_opp w : Proper (eqm w ==> eqm w) Z.opp.
Proof.
  intros a a' Ha. rewrite <- !Z.sub_0_l. now rewrite Ha.
Qed.

Lemma pow2_pos w : 0 <= w -> 0 < 2 ^ w.
Proof. intros; apply Z.pow_pos_nonneg; lia. Qed.

Lemma pow2_S w : 0 < w -> 2 ^ w = 2 * 2 ^ (w - 1).
Proof. intros. replace w with (1 + (w - 1)) at 1 by lia. rewrite Z.pow_add_r; lia. Qed.

Lemma pow2_split a b : 0 <= a -> 0 <= b -> 2 ^ (a + b) = 2 ^ a * 2 ^ b.
Proof. intros; now apply Z.pow_add_r. Qed.

(** A number from its quotient and remainder. *)
Lemma div_mod_pair hi lo P : 0 <= lo < P -> (hi * P + lo) / P = hi /\ (hi * P + lo) mod P = lo.
Proof.
  intros Hl. split.
  - rewrite Z.div_add_l, Z.div_small by lia. lia.
  - rewrite Z.add_comm, Z_mod_plus_full. now apply Z.mod_small.
Qed.

Lemma uint_eqm w x : eqm w (uint w x) x.
Proof. unfold eqm, uint. now rewrite Zmod_mod. Qed.

Lemma sint_eqm w x : eqm w (sint w x) x.
Proof.
  unfold eqm, sint. rewrite Zminus_mod_idemp_l. f_equal; lia.
Qed.

Lemma uint_range w x : 0 <= w -> is_uint w (uint w x).
Proof. intros. apply Z.mod_pos_bound, pow2_pos; lia. Qed.

Lemma sint_range w x : 0 < w -> is_sint w (sint w x).
Proof.
  intros. unfold is_sint, sint. pose proof (pow2_pos w ltac:(lia)).
  pose proof (Z.mod_pos_bound (x + 2 ^ (w - 1)) (2 ^ w) ltac:(lia)).
  rewrite (pow2_S w) in * by lia. lia.
Qed.

Lemma uint_small w x : is_uint w x -> uint w x = x.
Proof. intros; now apply Z.mod_small. Qed.

Lemma sint_small w x : 0 < w -> is_sint w x -> sint w x = x.
Proof.
  intros Hw H. unfold is_sint, sint in *. rewrite Z.mod_small; [lia|].
  rewrite (pow2_S w) by lia. lia.
Qed.

Lemma eqm_uint w x y : eqm w x y -> uint w x = uint w y.
Proof. trivial. Qed.

Lemma eqm_sint w x y : eqm w x y -> sint w x = sint w y.
Proof.
  intros H. unfold sint. f_equal. change (eqm w (x + 2 ^ (w - 1)) (y + 2 ^ (w - 1))).
  now rewrite H.
Qed.

(** Two in-range integers with the same pattern are equal. *)
Lemma eqm_uint_eq w x y : is_uint w x -> is_uint w y -> eqm w x y -> x = y.
Proof. intros Hx Hy H. rewrite <- (uint_small w x), <- (uint_small w y); auto. Qed.

Lemma eqm_sint_eq w x y : 0 < w -> is_sint w x -> is_sint w y -> eqm w x y -> x = y.
Proof. intros Hw Hx Hy H. rewrite <- (sint_small w x), <- (sint_small w y); auto using eqm_sint. Qed.

Lemma uint_of_eqm w x y : is_uint w y -> eqm w x y -> uint w x = y.
Proof. intros Hy H. rewrite (eqm_uint _ _ _ H). now apply uint_small. Qed.

Lemma sint_of_eqm w x y : 0 < w -> is_sint w y -> eqm w x y -> sint w x = y.
Proof. intros Hw Hy H. rewrite (eqm_sint _ _ _ H). now apply sint_small. Qed.

Lemma sint_uint w x : sint w (uint w x) = sint w x.
Proof. apply eqm_sint, uint_eqm. Qed.

Lemma uint_sint w x : uint w (sint w x) = uint w x.
Proof. apply eqm_uint, sint_eqm. Qed.

Lemma eqm_pow w : eqm w (2 ^ w) 0.
Proof.
  unfold eqm. destruct (Z.ltb_spec w 0).
  - now rewrite Z.pow_neg_r.
  - rewrite Z_mod_same_full. now rewrite Z.mod_0_l by (apply Z.pow_nonzero; lia).
Qed.

Lemma eqm_mul_pow w k : eqm w (k * 2 ^ w) 0.
Proof. rewrite eqm_pow. now rewrite Z.mul_0_r. Qed.

(** A pattern is a multiple of [2^w] away from any of its representatives. *)
Lemma eqm_exists w x y : 0 <= w -> eqm w x y -> exists k, x = y + k * 2 ^ w.
Proof.
  intros Hw H. exists (x / 2 ^ w - y / 2 ^ w). unfold eqm in H.
  pose proof (pow2_pos w Hw).
  pose proof (Z.div_mod x (2 ^ w) ltac:(lia)). pose proof (Z.div_mod y (2 ^ w) ltac:(lia)). nia.
Qed.

Lemma eqm_lower w v x y : 0 <= v <= w -> eqm w x y -> eqm v x y.
Proof.
  intros Hv H. destruct (eqm_exists w x y ltac:(lia) H) as [k ->].
  replace w with ((w - v) + v) by lia. rewrite pow2_split by lia.
  rewrite Z.mul_assoc, eqm_mul_pow. now rewrite Z.add_0_r.
Qed.

(** The signed reading of an unsigned pattern, by cases on the top bit. *)
Lemma sint_cases w x : 0 < w -> is_uint w x ->
  sint w x = if x <? 2 ^ (w - 1) then x else x - 2 ^ w.
Proof.
  intros Hw Hx. unfold is_uint in Hx. pose proof (pow2_S w Hw).
  pose proof (pow2_pos (w - 1) ltac:(lia)).
  destruct (Z.ltb_spec x (2 ^ (w - 1))).
  - apply sint_small; unfold is_sint; lia.
  - apply sint_of_eqm; [lia|unfold is_sint; lia|].
    rewrite eqm_pow. now rewrite Z.sub_0_r.
Qed.

Lemma uint_cases w x : 0 < w -> is_sint w x -> uint w x = if x <? 0 then x + 2 ^ w else x.
Proof.
  intros Hw Hx. unfold is_sint in Hx. pose proof (pow2_S w Hw).
  destruct (Z.ltb_spec x 0); apply uint_of_eqm; unfold is_uint; try lia; try reflexivity.
  rewrite eqm_pow. now rewrite Z.add_0_r.
Qed.

Lemma uint_nonzero w x : 0 < w -> is_sint w x -> x <> 0 -> uint w x <> 0.
Proof.
  intros Hw Hx N. rewrite uint_cases by assumption. unfold is_sint in Hx.
  pose proof (pow2_S w Hw). destruct (Z.ltb_spec x 0); lia.
Qed.

(** ** Bit operations *)

Lemma land_ones_mod x n : 0 <= n -> Z.land x (2 ^ n - 1) = x mod 2 ^ n.
Proof. intros. rewrite <- Z.land_ones, Z.ones_equiv by lia. f_equal; lia. Qed.

(** [|] of bit patterns that do not overlap is [+]. *)
Lemma lor_add_disjoint hi lo k : 0 <= k -> 0 <= lo < 2 ^ k ->
  Z.lor (hi * 2 ^ k) lo = hi * 2 ^ k + lo.
Proof.
  intros Hk Hlo. rewrite <- Z.lxor_lor, <- Z.add_nocarry_lxor; [lia| |];
  apply Z.bits_inj'; intros i Hi; rewrite Z.land_spec, Z.bits_0;
  (destruct (Z.ltb_spec i k);
   [rewrite Z.mul_pow2_bits_low by lia; reflexivity
   |rewrite <- (Z.mod_small lo (2 ^ k)), Z.mod_pow2_bits_high by lia; apply andb_false_r]).
Qed.

Lemma lor_lt_pow2 x y n : 0 <= n -> 0 <= x < 2 ^ n -> 0 <= y < 2 ^ n -> 0 <= Z.lor x y < 2 ^ n.
Proof.
  intros Hn Hx Hy. split; [apply Z.lor_nonneg; lia|].
  destruct (Z.eq_dec (Z.lor x y) 0) as [->|Hnz]; [now apply pow2_pos|].
  assert (0 < n) by (destruct (Z.eq_dec n 0) as [->|];
    [exfalso; apply Hnz; replace x with 0 by lia; replace y with 0 by lia; reflexivity | lia]).
  apply Z.log2_lt_pow2; [pose proof (proj2 (Z.lor_nonneg x y)); lia|].
  rewrite Z.log2_lor by lia.
  apply Z.max_lub_lt; (destruct (Z.eq_dec x 0); destruct (Z.eq_dec y 0); subst;
    rewrite ?Z.log2_nonpos by lia; try apply Z.log2_lt_pow2; lia).
Qed.

Lemma land_nonneg_le x y : 0 <= y -> 0 <= Z.land x y <= y.
Proof.
  intros Hy. split; [apply Z.land_nonneg; lia|].
  assert (0 <= Z.ldiff y x) by (apply Z.ldiff_nonneg; lia).
  enough (Z.land x y + Z.ldiff y x = y) by lia.
  assert (E : Z.land (Z.land x y) (Z.ldiff y x) = 0)
    by (apply Z.bits_inj'; intros i _; rewrite !Z.land_spec, Z.ldiff_spec, Z.bits_0;
        destruct (Z.testbit y i), (Z.testbit x i); reflexivity).
  rewrite Z.add_nocarry_lxor by exact E.
  apply Z.bits_inj'; intros i _. rewrite Z.lxor_spec, Z.land_spec, Z.ldiff_spec.
  destruct (Z.testbit y i), (Z.testbit x i); reflexivity.
Qed.

Lemma ushl_spec w x n : 0 <= n < w -> ushl w x n = uint w (x * 2 ^ n).
Proof. intros. unfold ushl. now rewrite Z.mod_small, Z.shiftl_mul_pow2 by lia. Qed.

Lemma sshl_spec w x n : 0 <= n < w -> sshl w x n = sint w (x * 2 ^ n).
Proof. intros. unfold sshl. now rewrite Z.mod_small, Z.shiftl_mul_pow2 by lia. Qed.

Lemma shr_spec w x n : 0 <= n < w -> shr w x n = x / 2 ^ n.
Proof. intros. unfold shr. now rewrite Z.mod_small, Z.shiftr_div_pow2 by lia. Qed.

Lemma lxor_m1 x : Z.lxor x (-1) = - x - 1.
Proof. rewrite Z.lxor_m1_r. unfold Z.lnot. lia. Qed.

Lemma eqm_bits w x y : 0 <= w -> eqm w x y <-> (forall i, 0 <= i < w -> Z.testbit x i = Z.testbit y i).
Proof.
  intros Hw. unfold eqm. split.
  - intros E i Hi. rewrite <- (Z.mod_pow2_bits_low x w i), <- (Z.mod_pow2_bits_low y w i) by lia. now rewrite E.
  - intros E. apply Z.bits_inj'. intros i Hi. destruct (Z.ltb_spec i w).
    + rewrite !Z.mod_pow2_bits_low by lia. apply E. lia.
    + now rewrite !Z.mod_pow2_bits_high by lia.
Qed.

#[global] Instance eqm_lxor w : Proper (eqm w ==> eqm w ==> eqm w) Z.lxor.
Proof.
  intros a a' Ha b b' Hb. destruct (Z.ltb_spec w 0).
  - unfold eqm in *. rewrite Z.pow_neg_r, !Zmod_0_r in * by lia. congruence.
  - rewrite eqm_bits in * by lia. intros i Hi. rewrite !Z.lxor_spec, Ha, Hb by lia. reflexivity.
Qed.

(** [t = a >> (N-1)] is all ones for a negative [a] and 0 otherwise. *)
Lemma shr_sign w a : 0 < w -> is_sint w a -> shr w a (w - 1) = if a <? 0 then -1 else 0.
Proof.
  intros Hw Ha. rewrite shr_spec by lia. unfold is_sint in Ha.
  destruct (Z.ltb_spec a 0).
  - symmetry. apply Z.div_unique with (a + 2 ^ (w - 1)); lia.
  - apply Z.div_small; lia.
Qed.

(** [(a ^ t) - t] negates when [t] is all ones. *)
Lemma cond_negate a (b : bool) :
  Z.lxor a (if b then -1 else 0) - (if b then -1 else 0) = if b then - a else a.
Proof. destruct b; [rewrite lxor_m1|rewrite Z.lxor_0_r]; lia. Qed.

Lemma log2_bounds x : 0 < x -> 2 ^ Z.log2 x <= x < 2 * 2 ^ Z.log2 x.
Proof.
  intros Hx. pose proof (Z.log2_spec x Hx) as [? ?].
  rewrite Z.pow_succ_r in * by apply Z.log2_nonneg. lia.
Qed.

Lemma log2_lt_width w x : 0 < x < 2 ^ w -> 0 <= Z.log2 x < w.
Proof. intros. split; [apply Z.log2_nonneg|]. apply Z.log2_lt_pow2; lia. Qed.

(** A mask of [m] ones at bit [j] selects a field. *)
Lemma land_field x j m : 0 <= j -> 0 <= m ->
  Z.land x ((2 ^ m - 1) * 2 ^ j) = x / 2 ^ j mod 2 ^ m * 2 ^ j.
Proof.
  intros Hj Hm. apply Z.bits_inj'; intros i Hi.
  rewrite Z.land_spec, <- !Z.shiftl_mul_pow2, !Z.shiftl_spec by lia.
  rewrite <- land_ones_mod, <- Z.shiftr_div_pow2, Z.land_spec by lia.
  destruct (Z.ltb_spec (i - j) 0).
  - rewrite !(Z.testbit_neg_r _ (i - j)) by lia. now rewrite andb_false_r.
  - rewrite Z.shiftr_spec by lia. now replace (i - j + j) with i by lia.
Qed.

(** A field test selects the two halves of a value. *)
Lemma land_high_zero x k j : 0 <= k -> 0 <= j -> 0 <= x < 2 ^ (k + j) ->
  (Z.land x ((2 ^ j - 1) * 2 ^ k) =? 0) = (x <? 2 ^ k).
Proof.
  intros Hk Hj Hx. rewrite land_field by lia. rewrite pow2_split in Hx by lia.
  pose proof (pow2_pos k Hk). pose proof (pow2_pos j Hj).
  rewrite (Z.mod_small (x / 2 ^ k))
    by (split; [apply Z.div_pos; lia|apply Z.div_lt_upper_bound; lia]).
  destruct (Z.ltb_spec x (2 ^ k)) as [Hlt|Hge].
  - now rewrite (Z.div_small x) by lia.
  - apply Z.eqb_neq. assert (1 <= x / 2 ^ k) by (apply Z.div_le_lower_bound; lia). nia.
Qed.

Lemma land_split k a m : 0 <= k ->
  Z.land a m = Z.land (a mod 2 ^ k) (m mod 2 ^ k) + 2 ^ k * Z.land (a / 2 ^ k) (m / 2 ^ k).
Proof.
  intros Hk. rewrite (Z.add_comm (Z.land _ _)), (Z.mul_comm (2 ^ k)).
  pose proof (pow2_pos k Hk) as Hp. pose proof (Z.mod_pos_bound m (2 ^ k) Hp).
  pose proof (land_nonneg_le (a mod 2 ^ k) (m mod 2 ^ k) ltac:(lia)).
  rewrite <- lor_add_disjoint by lia.
  apply Z.bits_inj'; intros i Hi.
  rewrite Z.lor_spec, <- Z.shiftl_mul_pow2, Z.shiftl_spec, !Z.land_spec by lia.
  destruct (Z.ltb_spec i k).
  - rewrite (Z.testbit_neg_r _ (i - k)), !Z.mod_pow2_bits_low by lia. reflexivity.
  - rewrite !Z.mod_pow2_bits_high, !Z.div_pow2_bits by lia.
    replace (i - k + k) with i by lia. now rewrite !orb_false_r.
Qed.

(** [ctz] of an odd number scaled by [2^n]. *)
Lemma land_opp_odd q : Z.land (2 * q + 1) (- (2 * q + 1)) = 1.
Proof.
  replace (- (2 * q + 1)) with (2 * Z.lnot q + 1) by (unfold Z.lnot; lia).
  apply Z.bits_inj'; intros i Hi. rewrite Z.land_spec.
  destruct (Z.eq_dec i 0) as [->|Hi0]; [now rewrite !Z.testbit_odd_0|].
  replace i with (Z.succ (i - 1)) by lia.
  rewrite !Z.testbit_odd_succ, Z.lnot_spec by lia.
  rewrite andb_negb_r. change 1 with (2 * 0 + 1) at 1.
  now rewrite Z.testbit_odd_succ, Z.bits_0 by lia.
Qed.

Lemma ctz_unique n q : 0 <= n -> ctz (2 ^ n * (2 * q + 1)) = n.
Proof.
  intros Hn. unfold ctz.
  replace (- (2 ^ n * (2 * q + 1))) with (2 ^ n * - (2 * q + 1)) by ring.
  rewrite !(Z.mul_comm (2 ^ n)), <- !Z.shiftl_mul_pow2, <- Z.shiftl_land by lia.
  rewrite land_opp_odd, Z.shiftl_1_l by lia. now apply Z.log2_pow2.
Qed.

Lemma ctz_exists x : x <> 0 -> exists n q, 0 <= n /\ x = 2 ^ n * (2 * q + 1) /\ ctz x = n.
Proof.
  enough (forall m : nat, forall x, x <> 0 -> Z.abs x < Z.of_nat m ->
            exists n q, 0 <= n /\ x = 2 ^ n * (2 * q + 1)) as G.
  { intros Hx. destruct (G (S (Z.to_nat (Z.abs x))) x Hx ltac:(lia)) as (n & q & Hn & ->).
    exists n, q. auto using ctz_unique. }
  induction m as [|m IH]; intros y Hy Hm; [lia|].
  pose proof (Z.div_mod y 2 ltac:(lia)). pose proof (Z.mod_pos_bound y 2 ltac:(lia)).
  destruct (Z.eq_dec (y mod 2) 0) as [E|E].
  - destruct (IH (y / 2) ltac:(lia) ltac:(lia)) as (n & q & Hn & Eq).
    exists (n + 1), q. split; [lia|]. rewrite Z.pow_add_r, <- Z.mul_assoc by lia.
    rewrite (Z.mul_comm (2 ^ 1)), Z.mul_assoc, <- Eq. lia.
  - exists 0, (y / 2). split; [lia|]. rewrite Z.pow_0_r. lia.
Qed.

Lemma ctz_pow2_mul n x : 0 <= n -> x <> 0 -> ctz (2 ^ n * x) = n + ctz x.
Proof.
  intros Hn Hx. destruct (ctz_exists x Hx) as (m & q & Hm & E & ->).
  rewrite E, Z.mul_assoc, <- Z.pow_add_r by lia. apply ctz_unique; lia.
Qed.

(** The count only depends on the low bits as soon as one of them is set. *)
Lemma ctz_mod x k : 0 <= k -> x mod 2 ^ k <> 0 -> ctz (x mod 2 ^ k) = ctz x /\ 0 <= ctz x < k.
Proof.
  intros Hk Hx. pose proof (pow2_pos k Hk) as Hp.
  assert (Hx0 : x <> 0) by (intros ->; rewrite Z.mod_0_l in Hx; lia).
  destruct (ctz_exists x Hx0) as (n & q & Hn & E & C). rewrite C.
  assert (n < k).
  { destruct (Z.lt_ge_cases n k) as [|Hge]; [assumption|]. exfalso. apply Hx. rewrite E.
    replace n with (k + (n - k)) by lia. rewrite pow2_split by lia.
    rewrite <- Z.mul_assoc, Z.mul_comm. apply Z_mod_mult. }
  split; [|lia]. pose proof (Z.div_mod x (2 ^ k) ltac:(lia)) as D.
  set (c := x / 2 ^ k) in *. replace k with (n + (1 + (k - n - 1))) in D at 1 by lia.
  rewrite !pow2_split in D by lia.
  replace (x mod 2 ^ k) with (2 ^ n * (2 * (q - 2 ^ (k - n - 1) * c) + 1)) by nia.
  now apply ctz_unique.
Qed.

(** [x & (x - 1)] is 0 for the powers of two only. *)
Lemma pow2_test x : 0 < x -> Z.land x (x - 1) = 0 -> x = 2 ^ ctz x.
Proof.
  intros Hx H. pose proof (log2_bounds x Hx) as B. pose proof (Z.log2_nonneg x) as L. set (k := Z.log2 x) in *.
  assert (x = 2 ^ k) as E.
  { destruct (Z.eq_dec x (2 ^ k)) as [|N]; [assumption|exfalso].
    assert (K : Z.log2 (x - 1) = k) by (apply Z.log2_unique; rewrite ?Z.pow_succ_r; lia).
    assert (T : Z.testbit (Z.land x (x - 1)) k = true)
      by (rewrite Z.land_spec; unfold k at 1; rewrite <- K, !Z.bit_log2 by (pose proof (pow2_pos k L); lia); reflexivity).
    rewrite H, Z.bits_0 in T. discriminate. }
  rewrite E at 1. f_equal. rewrite E. replace (2 ^ k) with (2 ^ k * (2 * 0 + 1)) by lia.
  symmetry. now apply ctz_unique.
Qed.

(** ** Automation *)

Create HintDb cint discriminated.
#[export] Hint Resolve uint_range sint_range pow2_pos : cint.
#[export] Hint Extern 2 (_ < _) => lia : cint.
#[export] Hint Extern 2 (_ <= _) => lia : cint.
#[export] Hint Extern 2 (_ <= _ < _) => lia : cint.

(** Name the powers of two of a goal as positive quantities. *)
Ltac pose_pow2 :=
  repeat match goal with
  | |- context [2 ^ ?e] =>
      lazymatch goal with H : 0 < 2 ^ e |- _ => fail | _ => pose proof (pow2_pos e ltac:(lia)) end
  | _ : context [2 ^ ?e] |- _ =>
      lazymatch goal with H : 0 < 2 ^ e |- _ => fail | _ => pose proof (pow2_pos e ltac:(lia)) end
  end.

(** Split on every boolean comparison of integers the goal branches on. *)
Ltac case_cmp :=
  match goal with
  | |- context [if ?a <? ?b then _ else _] => destruct (Z.ltb_spec a b)
  | |- context [if ?a <=? ?b then _ else _] => destruct (Z.leb_spec a b)
  | |- context [if ?a =? ?b then _ else _] => destruct (Z.eqb_spec a b)
  | |- context [if ?a >? ?b then _ else _] => rewrite (Z.gtb_ltb a b); destruct (Z.ltb_spec b a)
  | |- context [if ?a >=? ?b then _ else _] => rewrite (Z.geb_leb a b); destruct (Z.leb_spec b a)
  end.

(** Equality of two boolean comparisons. *)
Ltac same_test := apply eq_true_iff_eq; rewrite ?Z.ltb_lt, ?Z.eqb_eq, ?Z.leb_le; split; intros; nia.
