(* ===== verification/Digits.v ===== *)
(** * Little-endian digit lists

    The value of a list of [k]-bit digits, least significant first, and how
    shifts, masks and regrouping act on the digits.  The bit-parallel counters
    of the integer runtime and the byte-array adder of the [bigNum] benchmark
    are proved against it. *)

From S2P Require Import Prelude.

Fixpoint eval (k : Z) (l : list Z) : Z :=
  match l with
  | [] => 0
  | d :: l => d + 2 ^ k * eval k l
  end.

(** Every digit fits in [k] bits. *)
Definition digits_ok (k : Z) (l : list Z) : Prop := Forall (fun d => 0 <= d < 2 ^ k) l.

Fixpoint sum (l : list Z) : Z :=
  match l with
  | [] => 0
  | d :: l => d + sum l
  end.

Lemma sum_bound B l : Forall (fun d => 0 <= d <= B) l -> 0 <= sum l <= B * Z.of_nat (length l).
Proof. induction 1; cbn [sum length]; lia. Qed.

(** The [n] lowest [k]-bit digits of [x]. *)
Fixpoint digits (k : Z) (n : nat) (x : Z) : list Z :=
  match n with
  | O => []
  | S n => x mod 2 ^ k :: digits k n (x / 2 ^ k)
  end.

Section Digits.
Context (k : Z) (Hk : 0 < k).

Lemma eval_app l1 l2 : eval k (l1 ++ l2) = eval k l1 + 2 ^ (k * Z.of_nat (length l1)) * eval k l2.
Proof.
  induction l1 as [|d l1 IH]; cbn [app eval length].
  - rewrite Z.mul_0_r. lia.
  - rewrite IH, Nat2Z.inj_succ, Z.mul_succ_r, Z.add_comm, (Z.pow_add_r 2 _ k) by lia. ring.
Qed.

Lemma eval_bound l : digits_ok k l -> 0 <= eval k l < 2 ^ (k * Z.of_nat (length l)).
Proof.
  induction 1 as [|d l Hd _ IH]; cbn [eval length]; [rewrite Z.mul_0_r; lia|].
  rewrite Nat2Z.inj_succ, Z.mul_succ_r, Z.pow_add_r by lia. nia.
Qed.

Lemma digits_length n x : length (digits k n x) = n.
Proof. revert x; induction n; intros; cbn; auto. Qed.

Lemma digits_digits_ok n x : digits_ok k (digits k n x).
Proof.
  revert x; induction n; intros; cbn; constructor; auto.
  - apply Z.mod_pos_bound, pow2_pos; lia.
  - apply IHn.
Qed.

Lemma eval_digits n x : eval k (digits k n x) = x mod 2 ^ (k * Z.of_nat n).
Proof.
  revert x; induction n as [|n IH]; intros; cbn [digits eval].
  - rewrite Z.mul_0_r, Z.mod_1_r. reflexivity.
  - rewrite IH, Nat2Z.inj_succ, Z.mul_succ_r, Z.add_comm, Z.pow_add_r, (Z.mul_comm (2 ^ (k * _))) by lia.
    pose proof (pow2_pos k ltac:(lia)). pose proof (pow2_pos (k * Z.of_nat n) ltac:(lia)).
    rewrite Z.rem_mul_r by lia. lia.
Qed.

Lemma eval_cons_div d l : 0 <= d < 2 ^ k -> eval k (d :: l) / 2 ^ k = eval k l.
Proof.
  intros Hd. cbn [eval]. rewrite Z.add_comm, Z.mul_comm, Z.div_add_l, Z.div_small by lia. lia.
Qed.

Lemma eval_cons_mod d l : 0 <= d < 2 ^ k -> eval k (d :: l) mod 2 ^ k = d.
Proof.
  intros Hd. cbn [eval]. rewrite Z.mul_comm, Z_mod_plus_full. now apply Z.mod_small.
Qed.

Lemma digits_eval l : digits_ok k l -> digits k (length l) (eval k l) = l.
Proof.
  induction 1 as [|d l Hd _ IH]; [reflexivity|]. cbn [length digits].
  rewrite eval_cons_mod, eval_cons_div by assumption. now rewrite IH.
Qed.

Lemma digits_eqm n x y : eqm (k * Z.of_nat n) x y -> digits k n x = digits k n y.
Proof.
  intros E. rewrite <- (digits_eval (digits k n x)), <- (digits_eval (digits k n y)) by apply digits_digits_ok.
  rewrite !digits_length, !eval_digits. now rewrite E.
Qed.

Lemma digits_app n m x : digits k (n + m) x = digits k n x ++ digits k m (x / 2 ^ (k * Z.of_nat n)).
Proof.
  revert x. induction n as [|n IH]; intros x; cbn [Nat.add digits app].
  - now rewrite Z.mul_0_r, Z.div_1_r.
  - rewrite IH, Nat2Z.inj_succ, Z.mul_succ_r, (Z.add_comm (k * Z.of_nat n)), Z.pow_add_r by lia.
    pose proof (pow2_pos k ltac:(lia)). pose proof (pow2_pos (k * Z.of_nat n) ltac:(lia)). now rewrite Z.div_div by lia.
Qed.

(** [(x >> j) & 00..1100..11]: the same field of every digit. *)
Lemma eval_shr_mask j m l : 0 <= j -> 0 <= m -> j + m <= k -> digits_ok k l ->
  Z.land (eval k l / 2 ^ j) (eval k (repeat (2 ^ m - 1) (length l)))
  = eval k (map (fun d => d / 2 ^ j mod 2 ^ m) l).
Proof.
  intros Hj Hm Hjm. pose proof (pow2_pos k ltac:(lia)). pose proof (pow2_pos j Hj).
  pose proof (pow2_pos m Hm).
  assert (2 ^ m <= 2 ^ k) by (apply Z.pow_le_mono_r; lia).
  induction 1 as [|d l Hd Hl IH]; [apply Z.land_0_r|].
  cbn [length repeat map]. rewrite (land_split k) by lia.
  rewrite eval_cons_div, eval_cons_mod by lia.
  rewrite (land_ones_mod _ m) by lia. cbn [eval]. f_equal.
  - transitivity ((d + 2 ^ k * eval k l) / 2 ^ j mod 2 ^ m);
      [apply (eqm_lower k m); [lia|apply uint_eqm]|].
    replace (2 ^ k) with (2 ^ (k - m - j) * 2 ^ m * 2 ^ j)
      by (rewrite <- !Z.pow_add_r by lia; f_equal; lia).
    replace (d + 2 ^ (k - m - j) * 2 ^ m * 2 ^ j * eval k l)
      with (d + (2 ^ (k - m - j) * eval k l * 2 ^ m) * 2 ^ j) by ring.
    rewrite Z.div_add, Z_mod_plus_full by lia. reflexivity.
  - f_equal. rewrite <- IH. f_equal. rewrite Z.div_div, (Z.mul_comm (2 ^ j)), <- Z.div_div by lia.
    change (d + 2 ^ k * eval k l) with (eval k (d :: l)). now rewrite eval_cons_div by lia.
Qed.

Lemma eval_map_add (f g : Z -> Z) l :
  eval k (map f l) + eval k (map g l) = eval k (map (fun d => f d + g d) l).
Proof. induction l as [|d l IH]; cbn [map eval]; [reflexivity|rewrite <- IH; ring]. Qed.

Lemma eval_map_sub (f g : Z -> Z) l :
  eval k (map f l) - eval k (map g l) = eval k (map (fun d => f d - g d) l).
Proof. induction l as [|d l IH]; cbn [map eval]; [reflexivity|rewrite <- IH; ring]. Qed.

(** Adding two digit strings of the same length, digit by digit. *)
Definition zip_add (l1 l2 : list Z) : list Z := map (fun p => fst p + snd p) (combine l1 l2).

Lemma eval_zip_add l1 l2 : length l1 = length l2 -> eval k (zip_add l1 l2) = eval k l1 + eval k l2.
Proof.
  unfold zip_add. revert l2. induction l1 as [|d l1 IH]; intros [|e l2] E; try discriminate; [reflexivity|].
  cbn [combine map eval fst snd]. rewrite IH by (cbn in E; lia). ring.
Qed.

Lemma sum_zip_add l1 l2 : length l1 = length l2 -> sum (zip_add l1 l2) = sum l1 + sum l2.
Proof.
  unfold zip_add. revert l2. induction l1 as [|d l1 IH]; intros [|e l2] E; try discriminate; [reflexivity|].
  cbn [combine map sum fst snd]. rewrite IH by (cbn in E; lia). ring.
Qed.
End Digits.

(** Two [k]-bit digits read as one [2*k]-bit digit. *)
Fixpoint pairs (k : Z) (l : list Z) : list Z :=
  match l with
  | d0 :: d1 :: l => (d0 + 2 ^ k * d1) :: pairs k l
  | _ => []
  end.

Lemma list_pair_ind (P : list Z -> Prop) :
  P [] -> (forall d0 d1 l, P l -> P (d0 :: d1 :: l)) ->
  forall n l, length l = (2 * n)%nat -> P l.
Proof.
  intros H0 H2. induction n as [|n IH]; intros [|d0 [|d1 l]] E; cbn in E; try lia; auto.
  apply H2, IH. lia.
Qed.

Lemma eval_pairs k n l : 0 < k -> length l = (2 * n)%nat -> eval (2 * k) (pairs k l) = eval k l.
Proof.
  intros Hk. revert l. apply (list_pair_ind (fun l => eval (2 * k) (pairs k l) = eval k l)); [reflexivity|].
  intros d0 d1 l IH. cbn [pairs eval]. rewrite IH.
  replace (2 * k) with (k + k) by lia. rewrite Z.pow_add_r by lia. ring.
Qed.

Lemma length_pairs k n l : length l = (2 * n)%nat -> length (pairs k l) = n.
Proof.
  revert l; induction n as [|n IH]; intros [|d0 [|d1 l]] E; cbn in E |- *; try lia.
  rewrite IH; lia.
Qed.
