(* ===== verification/IntBits.v ===== *)
(** * Integer runtime: double words, shifts, bit counting, comparison

    Models the bit-level integer helpers of [compiler-rt_soft_float]: the
    [dwords]/[twords] unions of [int_types.h], the double-word shifts
    ([ashldi3.c], [ashrdi3.c], [lshrdi3.c] and the 128-bit versions), the
    count-leading/trailing-zeros family, [ffs], [popcount], [parity],
    [bswap] and the three-way comparisons.  The 64-bit and 128-bit files
    have the same text at two widths; each such pair is one definition with
    the width [h] of a half word as a parameter, and its two instances. *)

From S2P Require Import Prelude Digits.

(** ** The [dwords], [udwords], [twords], [utwords] unions

    The struct [s] of the union, and the conversions between its two halves
    of [h] bits and the member [all] of [2*h] bits.  [_s] has a signed [high]
    ([dwords], [twords]), [_u] an unsigned one ([udwords], [utwords]). *)

Record words := mkwords { high : Z; low : Z }.

Definition words_of_all_s (h x : Z) : words := mkwords (sint h (Z.shiftr x h)) (uint h x).
Definition words_of_all_u (h x : Z) : words := mkwords (uint h (Z.shiftr x h)) (uint h x).
Definition all_s (h : Z) (r : words) : Z := sint (2 * h) (Z.shiftl (high r) h + low r).
Definition all_u (h : Z) (r : words) : Z := uint (2 * h) (Z.shiftl (high r) h + low r).

Definition dwords (x : Z) : words := words_of_all_s 32 x.
Definition udwords (x : Z) : words := words_of_all_u 32 x.
Definition twords (x : Z) : words := words_of_all_s 64 x.
Definition utwords (x : Z) : words := words_of_all_u 64 x.

(** [make_ti] and [make_tu] of [int_types.h]. *)
Definition make_ti (h l : Z) : Z := all_s 64 (mkwords h (uint 64 l)).
Definition make_tu (h l : Z) : Z := all_u 64 (mkwords h l).

(** A half width is a power of two: the shifts test [b & bits_in_word]. *)
Class HalfWidth (h : Z) : Prop := half_pow2 : exists k, 0 <= k /\ h = 2 ^ k.

#[export] Instance half32 : HalfWidth 32.
Proof. now exists 5. Qed.
#[export] Instance half64 : HalfWidth 64.
Proof. now exists 6. Qed.

(** ** Shifts *)

Definition ashlXi3 (h a b : Z) : Z :=
  let input := words_of_all_s h a in
  if nonzero (b .& h) then
    all_s h (mkwords (sint h (low input <<[h] (b - h))) 0)
  else if b =? 0 then a
  else
    all_s h (mkwords
      (sint h (uint h (sshl h (high input) b) .| (low input >>[h] (h - b))))
      (low input <<[h] b)).

Definition ashrXi3 (h a b : Z) : Z :=
  let input := words_of_all_s h a in
  if nonzero (b .& h) then
    all_s h (mkwords (high input >>[h] (h - 1)) (uint h (high input >>[h] (b - h))))
  else if b =? 0 then a
  else
    all_s h (mkwords (high input >>[h] b)
      (uint h (sshl h (high input) (h - b)) .| (low input >>[h] b))).

Definition lshrXi3 (h a b : Z) : Z :=
  let input := words_of_all_u h a in
  if nonzero (b .& h) then
    sint (2 * h) (all_u h (mkwords 0 (high input >>[h] (b - h))))
  else if b =? 0 then a
  else
    sint (2 * h) (all_u h (mkwords (high input >>[h] b)
      ((high input <<[h] (h - b)) .| (low input >>[h] b)))).

Definition __ashldi3 (a b : Z) : Z := ashlXi3 32 a b.
Definition __ashlti3 (a b : Z) : Z := ashlXi3 64 a b.
Definition __ashrdi3 (a b : Z) : Z := ashrXi3 32 a b.
Definition __ashrti3 (a b : Z) : Z := ashrXi3 64 a b.
Definition __lshrdi3 (a b : Z) : Z := lshrXi3 32 a b.
Definition __lshrti3 (a b : Z) : Z := lshrXi3 64 a b.

(** ** Leading and trailing zeros *)

Definition __clzsi2 (a : Z) : Z :=
  let x := uint 32 a in
  let t := sshl 32 (b2z ((x .& 0xFFFF0000) =? 0)) 4 in
  let x := x >>[32] (16 - t) in
  let r := t in
  let t := sshl 32 (b2z ((x .& 0xFF00) =? 0)) 3 in
  let x := x >>[32] (8 - t) in
  let r := r +[32] t in
  let t := sshl 32 (b2z ((x .& 0xF0) =? 0)) 2 in
  let x := x >>[32] (4 - t) in
  let r := r +[32] t in
  let t := sshl 32 (b2z ((x .& 0xC) =? 0)) 1 in
  let x := x >>[32] (2 - t) in
  let r := r +[32] t in
  sint 32 (r +[32] ((2 -[32] x) .& uint 32 (- b2z ((x .& 2) =? 0)))).

Definition __ctzsi2 (a : Z) : Z :=
  let x := uint 32 a in
  let t := sshl 32 (b2z ((x .& 0x0000FFFF) =? 0)) 4 in
  let x := x >>[32] t in
  let r := t in
  let t := sshl 32 (b2z ((x .& 0x00FF) =? 0)) 3 in
  let x := x >>[32] t in
  let r := r +[32] t in
  let t := sshl 32 (b2z ((x .& 0x0F) =? 0)) 2 in
  let x := x >>[32] t in
  let r := r +[32] t in
  let t := sshl 32 (b2z ((x .& 0x3) =? 0)) 1 in
  let x := x >>[32] t in
  let x := x .& 3 in
  let r := r +[32] t in
  sint 32 (r +[32] ((2 -[32] (x >>[32] 1)) .& uint 32 (- b2z ((x .& 1) =? 0)))).

(** [clzdi2.c] with half width 32 ([clzsi] on the selected half) and
    [clzti2.c] with half width 64 ([__builtin_clzll]). *)
Definition clzXi2 (h a : Z) : Z :=
  let x := words_of_all_s h a in
  let f := - b2z (high x =? 0) in
  sadd 32 (clz h (uint h (high x .& Z.lnot f) .| (low x .& uint h f))) (f .& h).

Definition ctzXi2 (h a : Z) : Z :=
  let x := words_of_all_s h a in
  let f := - b2z (low x =? 0) in
  sadd 32 (ctz (uint h (high x .& f) .| (low x .& uint h (Z.lnot f)))) (f .& h).

Definition __clzdi2 (a : Z) : Z := clzXi2 32 a.
Definition __clzti2 (a : Z) : Z := clzXi2 64 a.
Definition __ctzdi2 (a : Z) : Z := ctzXi2 32 a.
Definition __ctzti2 (a : Z) : Z := ctzXi2 64 a.

Definition __ffssi2 (a : Z) : Z :=
  if a =? 0 then 0 else sadd 32 (ctz (uint 32 a)) 1.

(** [ctzsi(x.s.high) + (1 + sizeof(si_int) * CHAR_BIT)] is computed as a
    [size_t] and converted to [int]. *)
Definition ffsXi2 (h a : Z) : Z :=
  let x := words_of_all_s h a in
  if low x =? 0 then
    if high x =? 0 then 0
    else sint 32 (ctz (uint h (high x)) +[64] (1 + h))
  else sadd 32 (ctz (low x)) 1.

Definition __ffsdi2 (a : Z) : Z := ffsXi2 32 a.
Definition __ffsti2 (a : Z) : Z := ffsXi2 64 a.

(** ** Population count and parity *)

Definition __popcountsi2 (a : Z) : Z :=
  let x := uint 32 a in
  let x := x -[32] ((x >>[32] 1) .& 0x55555555) in
  let x := ((x >>[32] 2) .& 0x33333333) +[32] (x .& 0x33333333) in
  let x := (x +[32] (x >>[32] 4)) .& 0x0F0F0F0F in
  let x := x +[32] (x >>[32] 16) in
  sint 32 ((x +[32] (x >>[32] 8)) .& 0x0000003F).

Definition __popcountdi2 (a : Z) : Z :=
  let x2 := uint 64 a in
  let x2 := x2 -[64] ((x2 >>[64] 1) .& 0x5555555555555555) in
  let x2 := ((x2 >>[64] 2) .& 0x3333333333333333) +[64] (x2 .& 0x3333333333333333) in
  let x2 := (x2 +[64] (x2 >>[64] 4)) .& 0x0F0F0F0F0F0F0F0F in
  let x := uint 32 (x2 +[64] (x2 >>[64] 32)) in
  let x := x +[32] (x >>[32] 16) in
  sint 32 ((x +[32] (x >>[32] 8)) .& 0x0000007F).

Definition __popcountti2 (a : Z) : Z :=
  let x3 := uint 128 a in
  let x3 := x3 -[128] ((x3 >>[128] 1) .& ((0x5555555555555555 <<[128] 64) .| 0x5555555555555555)) in
  let x3 := ((x3 >>[128] 2) .& ((0x3333333333333333 <<[128] 64) .| 0x3333333333333333))
            +[128] (x3 .& ((0x3333333333333333 <<[128] 64) .| 0x3333333333333333)) in
  let x3 := (x3 +[128] (x3 >>[128] 4))
            .& ((0x0F0F0F0F0F0F0F0F <<[128] 64) .| 0x0F0F0F0F0F0F0F0F) in
  let x2 := uint 64 (x3 +[128] (x3 >>[128] 64)) in
  let x := uint 32 (x2 +[64] (x2 >>[64] 32)) in
  let x := x +[32] (x >>[32] 16) in
  sint 32 ((x +[32] (x >>[32] 8)) .& 0xFF).

(** The tail [x ^= x>>16; x ^= x>>8; x ^= x>>4; (0x6996 >> (x & 0xF)) & 1]
    is in all three parity files. *)
Definition parity_fold (x : Z) : Z :=
  let x := x .^ (x >>[32] 16) in
  let x := x .^ (x >>[32] 8) in
  let x := x .^ (x >>[32] 4) in
  (0x6996 >>[32] (x .& 0xF)) .& 1.

Definition __paritysi2 (a : Z) : Z := parity_fold (uint 32 a).

Definition __paritydi2 (a : Z) : Z :=
  let x := dwords a in
  parity_fold (uint 32 (high x) .^ low x).

Definition __parityti2 (a : Z) : Z :=
  let x := twords a in
  let x2 := dwords (sint 64 (uint 64 (high x) .^ low x)) in
  parity_fold (uint 32 (high x2) .^ low x2).

(** ** Byte swap *)

Definition __bswapsi2 (u : Z) : Z :=
  (((u .& 0xff000000) >>[32] 24)
   .| ((u .& 0x00ff0000) >>[32] 8)
   .| ((u .& 0x0000ff00) <<[32] 8)
   .| ((u .& 0x000000ff) <<[32] 24)).

Definition __bswapdi2 (u : Z) : Z :=
  (((u .& 0xff00000000000000) >>[64] 56)
   .| ((u .& 0x00ff000000000000) >>[64] 40)
   .| ((u .& 0x0000ff0000000000) >>[64] 24)
   .| ((u .& 0x000000ff00000000) >>[64] 8)
   .| ((u .& 0x00000000ff000000) <<[64] 8)
   .| ((u .& 0x0000000000ff0000) <<[64] 24)
   .| ((u .& 0x000000000000ff00) <<[64] 40)
   .| ((u .& 0x00000000000000ff) <<[64] 56)).

(** ** Three-way comparison *)

Definition cmp_words (x y : words) : Z :=
  if high x <? high y then 0
  else if high x >? high y then 2
  else if low x <? low y then 0
  else if low x >? low y then 2
  else 1.

Definition __cmpdi2 (a b : Z) : Z := cmp_words (dwords a) (dwords b).
Definition __cmpti2 (a b : Z) : Z := cmp_words (twords a) (twords b).
Definition __ucmpdi2 (a b : Z) : Z := cmp_words (udwords a) (udwords b).
Definition __ucmpti2 (a b : Z) : Z := cmp_words (utwords a) (utwords b).

(** The ARM EABI wrappers: [__ulcmp] converts its signed arguments to
    [du_int] at the call. *)
Definition __aeabi_lcmp (a b : Z) : Z := __cmpdi2 a b - 1.
Definition __aeabi_ulcmp (a b : Z) : Z := __ucmpdi2 (uint 64 a) (uint 64 b) - 1.

(** ** Lemmas on double words *)

Section DoubleWords.
Context (h : Z) (Hh : 0 < h).

Lemma pow2_double : 2 ^ (2 * h) = 2 ^ h * 2 ^ h.
Proof. replace (2 * h) with (h + h) by lia. apply pow2_split; lia. Qed.

Lemma pow2_double_m1 : 2 ^ (2 * h - 1) = 2 ^ (h - 1) * 2 ^ h.
Proof. replace (2 * h - 1) with (h - 1 + h) by lia. apply pow2_split; lia. Qed.

Lemma low_of_all_s a : low (words_of_all_s h a) = a mod 2 ^ h.
Proof. reflexivity. Qed.

Lemma high_of_all_s a : is_sint (2 * h) a ->
  high (words_of_all_s h a) = a / 2 ^ h /\ is_sint h (a / 2 ^ h).
Proof.
  unfold is_sint. rewrite pow2_double_m1. intros Ha. pose proof (pow2_pos h ltac:(lia)).
  assert (- 2 ^ (h - 1) <= a / 2 ^ h < 2 ^ (h - 1)).
  { split; [apply Z.div_le_lower_bound|apply Z.div_lt_upper_bound]; lia. }
  split; [|assumption]. cbn. rewrite Z.shiftr_div_pow2 by lia. now apply sint_small.
Qed.

Lemma high_of_all_u a : is_uint (2 * h) a ->
  high (words_of_all_u h a) = a / 2 ^ h /\ is_uint h (a / 2 ^ h).
Proof.
  unfold is_uint. rewrite pow2_double. intros Ha. pose proof (pow2_pos h ltac:(lia)).
  assert (0 <= a / 2 ^ h < 2 ^ h).
  { split; [apply Z.div_pos|apply Z.div_lt_upper_bound]; lia. }
  split; [|assumption]. cbn. rewrite Z.shiftr_div_pow2 by lia. now apply uint_small.
Qed.

Lemma all_s_spec r : all_s h r = sint (2 * h) (high r * 2 ^ h + low r).
Proof. unfold all_s. now rewrite Z.shiftl_mul_pow2 by lia. Qed.

Lemma all_u_spec r : all_u h r = uint (2 * h) (high r * 2 ^ h + low r).
Proof. unfold all_u. now rewrite Z.shiftl_mul_pow2 by lia. Qed.

Lemma eqm_scale x y : eqm h x y -> eqm (2 * h) (x * 2 ^ h) (y * 2 ^ h).
Proof.
  intros E. destruct (eqm_exists h x y ltac:(lia) E) as [k ->].
  rewrite Z.mul_add_distr_r, <- Z.mul_assoc, <- pow2_double, (eqm_mul_pow (2 * h)).
  now rewrite Z.add_0_r.
Qed.

(** [(x << b) | (y >> (h - b))] joins the two halves without overlap. *)
Lemma lor_shl_shr x y b : 0 < b < h -> is_uint h y ->
  Z.lor (uint h (x * 2 ^ b)) (y / 2 ^ (h - b)) = uint h (x * 2 ^ b) + y / 2 ^ (h - b).
Proof.
  intros Hb Hy. unfold uint, is_uint in *.
  replace (2 ^ h) with (2 ^ (h - b) * 2 ^ b) in * by (rewrite <- pow2_split by lia; f_equal; lia).
  pose proof (pow2_pos (h - b) ltac:(lia)). pose proof (pow2_pos b ltac:(lia)).
  rewrite Zmult_mod_distr_r by lia. apply lor_add_disjoint; [lia|].
  split; [apply Z.div_pos; lia|apply Z.div_lt_upper_bound; lia].
Qed.

(** What [x << b] loses off the top is [x >> (h - b)]. *)
Lemma uint_shl x b : 0 <= b <= h -> uint h (x * 2 ^ b) = x * 2 ^ b - 2 ^ h * (x / 2 ^ (h - b)).
Proof.
  intros Hb. pose proof (pow2_pos b ltac:(lia)). pose proof (pow2_pos (h - b) ltac:(lia)).
  assert (E : 2 ^ h = 2 ^ (h - b) * 2 ^ b) by (rewrite <- pow2_split by lia; f_equal; lia).
  unfold uint. rewrite Z.mod_eq, E, Z.div_mul_cancel_r by lia. reflexivity.
Qed.

(** Shifting a double word right, half by half. *)
Lemma div_double a b : 0 <= b <= h ->
  a / 2 ^ b = a / 2 ^ h / 2 ^ b * 2 ^ h + (uint h (a / 2 ^ h * 2 ^ (h - b)) + a mod 2 ^ h / 2 ^ b).
Proof.
  intros Hb. rewrite uint_shl by lia. replace (h - (h - b)) with b by lia.
  pose proof (pow2_pos b ltac:(lia)). pose proof (pow2_pos h ltac:(lia)).
  rewrite (Z.div_mod a (2 ^ h)) at 1 by lia.
  replace (2 ^ h) with (2 ^ (h - b) * 2 ^ b) at 1 by (rewrite <- pow2_split by lia; f_equal; lia).
  rewrite <- Z.mul_assoc, (Z.mul_comm (2 ^ b)), Z.mul_assoc, Z.div_add_l by lia. ring.
Qed.

Lemma all_s_sign v : is_sint h v ->
  all_s h (mkwords (if v <? 0 then -1 else 0) (uint h v)) = v.
Proof.
  intros Hv. rewrite all_s_spec. cbn [high low]. rewrite uint_cases by (lia || assumption).
  unfold is_sint in Hv. pose proof pow2_double_m1. pose_pow2.
  apply sint_of_eqm; [lia|unfold is_sint; nia|]. destruct (v <? 0);
  match goal with |- eqm _ ?l _ => replace l with v by lia end; reflexivity.
Qed.

Lemma shift_high_test `{HalfWidth h} b : 0 <= b < 2 * h -> nonzero (Z.land b h) = (h <=? b).
Proof.
  destruct (half_pow2 (h := h)) as (k & Hk & E). intros Hb. unfold nonzero.
  replace (Z.land b h) with (Z.land b ((2 ^ 1 - 1) * 2 ^ k)) by (f_equal; lia).
  rewrite land_high_zero by (rewrite ?Z.pow_add_r; lia).
  rewrite <- E, Z.leb_antisym. reflexivity.
Qed.
End DoubleWords.

Section Shifts.
Context (h : Z) `{HalfWidth h} (Hh : 0 < h).

Lemma ashlXi3_spec a b : is_sint (2 * h) a -> 0 <= b < 2 * h ->
  ashlXi3 h a b = sint (2 * h) (Z.shiftl a b).
Proof.
  intros Ha Hb. rewrite Z.shiftl_mul_pow2 by lia. unfold ashlXi3.
  rewrite shift_high_test by assumption. rewrite !all_s_spec by lia. cbn [low].
  destruct (high_of_all_s h Hh a Ha) as [-> Hhi]. pose proof (pow2_pos h ltac:(lia)) as Hp.
  pose proof (Z.div_mod a (2 ^ h) ltac:(lia)) as D. rewrite low_of_all_s.
  pose proof (Z.mod_pos_bound a (2 ^ h) Hp) as Hlow.
  destruct (Z.leb_spec h b); [|case_cmp].
  - apply eqm_sint. rewrite Z.add_0_r, ushl_spec by lia. cbn [high].
    replace (2 ^ b) with (2 ^ (b - h) * 2 ^ h) by (rewrite <- pow2_split by lia; f_equal; lia).
    rewrite Z.mul_assoc. apply eqm_scale; [lia|]. rewrite sint_eqm, uint_eqm.
    change (a mod 2 ^ h) with (uint h a). now rewrite uint_eqm.
  - subst. rewrite Z.mul_1_r. now rewrite sint_small by lia || assumption.
  - apply eqm_sint. cbn [high]. rewrite sshl_spec, shr_spec, uint_sint, ushl_spec by lia.
    rewrite lor_shl_shr by (unfold is_uint; lia).
    rewrite (eqm_scale h Hh _ ((a / 2 ^ h) * 2 ^ b + a mod 2 ^ h / 2 ^ (h - b)))
      by (rewrite sint_eqm, uint_eqm; reflexivity).
    rewrite uint_shl by lia. match goal with |- eqm _ ?l _ => replace l with (a * 2 ^ b) end; [reflexivity|].
    revert D. generalize (a / 2 ^ h) (a mod 2 ^ h). intros q r D. rewrite D. ring.
Qed.

Lemma ashrXi3_spec a b : is_sint (2 * h) a -> 0 <= b < 2 * h -> ashrXi3 h a b = Z.shiftr a b.
Proof.
  intros Ha Hb. rewrite Z.shiftr_div_pow2 by lia. unfold ashrXi3.
  rewrite shift_high_test by assumption.
  destruct (high_of_all_s h Hh a Ha) as [-> Hhi]. pose proof (pow2_pos h ltac:(lia)) as Hp.
  pose proof (Z.div_mod a (2 ^ h) ltac:(lia)) as D. rewrite low_of_all_s.
  pose proof (Z.mod_pos_bound a (2 ^ h) Hp) as Hlow.
  destruct (Z.leb_spec h b); [|case_cmp].
  - rewrite shr_sign, shr_spec by (lia || assumption).
    set (q := a / 2 ^ h) in *. pose proof (pow2_pos (b - h) ltac:(lia)).
    replace (q <? 0) with (q / 2 ^ (b - h) <? 0).
    2:{ apply eq_true_iff_eq. rewrite !Z.ltb_lt. split; intros.
        - destruct (Z.lt_ge_cases q 0); [assumption|].
          pose proof (Z.div_pos q (2 ^ (b - h)) ltac:(lia) ltac:(lia)); lia.
        - apply Z.div_lt_upper_bound; lia. }
    rewrite all_s_sign; subst q; [|lia|].
    + rewrite Z.div_div, <- pow2_split by lia. do 2 f_equal. lia.
    + unfold is_sint in *. pose_pow2.
      split; [apply Z.div_le_lower_bound|apply Z.div_lt_upper_bound]; nia.
  - subst. now rewrite Z.div_1_r.
  - rewrite all_s_spec by lia. cbn [high low].
    rewrite sshl_spec, !shr_spec, uint_sint by lia.
    replace (2 ^ b) with (2 ^ (h - (h - b))) at 2 by (f_equal; lia).
    rewrite lor_shl_shr by (unfold is_uint; lia).
    replace (h - (h - b)) with b by lia.
    rewrite <- div_double by lia. apply sint_small; [lia|]. unfold is_sint in *. pose_pow2.
    split; [apply Z.div_le_lower_bound|apply Z.div_lt_upper_bound]; nia.
Qed.

Lemma lshrXi3_spec a b : is_sint (2 * h) a -> 0 <= b < 2 * h ->
  lshrXi3 h a b = sint (2 * h) (Z.shiftr (uint (2 * h) a) b).
Proof.
  intros Ha Hb. rewrite Z.shiftr_div_pow2 by lia. unfold lshrXi3.
  rewrite shift_high_test by assumption.
  assert (W : words_of_all_u h a = words_of_all_u h (uint (2 * h) a)).
  { unfold words_of_all_u. rewrite !Z.shiftr_div_pow2 by lia. f_equal.
    - unfold uint. rewrite pow2_double by lia. pose proof (pow2_pos h ltac:(lia)).
      pose proof (Z.mod_pos_bound a (2 ^ h) ltac:(lia)).
      rewrite Z.rem_mul_r, Z.add_comm, Z.mul_comm, Z.div_add_l by lia.
      now rewrite (Z.div_small (a mod 2 ^ h)), Z.add_0_r, Zmod_mod by lia.
    - apply eqm_uint. symmetry. apply eqm_lower with (2 * h); [lia|apply uint_eqm]. }
  rewrite W. set (u := uint (2 * h) a) in *.
  assert (Hu : is_uint (2 * h) u) by (apply uint_range; lia).
  destruct (high_of_all_u h Hh u Hu) as [-> Hhi]. pose proof (pow2_pos h ltac:(lia)) as Hp.
  pose proof (Z.div_mod u (2 ^ h) ltac:(lia)) as D.
  change (low (words_of_all_u h u)) with (u mod 2 ^ h).
  pose proof (Z.mod_pos_bound u (2 ^ h) Hp) as Hlow.
  destruct (Z.leb_spec h b); [|case_cmp].
  - f_equal. rewrite all_u_spec, shr_spec by lia. cbn [high low].
    rewrite Z.mul_0_l, Z.add_0_l, Z.div_div, <- pow2_split by (lia || apply Z.pow_pos_nonneg; lia).
    replace (h + (b - h)) with b by lia. apply uint_small. unfold is_uint in *. pose_pow2.
    split; [apply Z.div_pos|apply Z.div_lt_upper_bound]; nia.
  - subst b. rewrite Z.div_1_r. subst u. rewrite sint_uint. now rewrite sint_small by lia || assumption.
  - f_equal. rewrite all_u_spec by lia. cbn [high low]. rewrite ushl_spec, !shr_spec by lia.
    replace (2 ^ b) with (2 ^ (h - (h - b))) at 2 by (f_equal; lia).
    rewrite lor_shl_shr by (unfold is_uint; lia).
    replace (h - (h - b)) with b by lia. rewrite <- div_double by lia. apply uint_small.
    unfold is_uint in *. pose_pow2. split; [apply Z.div_pos|apply Z.div_lt_upper_bound]; nia.
Qed.
End Shifts.

(** ** Leading and trailing zeros *)

Lemma sshl_b2z (c : bool) n : 0 <= n < 31 -> sshl 32 (b2z c) n = if c then 2 ^ n else 0.
Proof.
  intros Hn. rewrite sshl_spec by lia. pose proof (pow2_pos n ltac:(lia)).
  pose proof (Z.pow_lt_mono_r 2 n 31 ltac:(lia) ltac:(lia) ltac:(lia)).
  rewrite sint_small by (unfold is_sint; destruct c; cbn [b2z]; lia). destruct c; cbn [b2z]; lia.
Qed.

(** One bisection step of [__clzsi2]: when the upper [k] of [2*k] bits are
    clear, count [k]; keep the half that holds the leading one. *)
Lemma clz_step k x : 0 < k <= 16 -> 0 < x < 2 ^ (2 * k) ->
  let t := if Z.land x ((2 ^ k - 1) * 2 ^ k) =? 0 then k else 0 in
  let x' := shr 32 x (k - t) in
  0 < x' < 2 ^ k /\ clz (2 * k) x = t + clz k x'.
Proof.
  intros Hk Hx. cbv zeta. replace (2 * k) with (k + k) in * by lia.
  rewrite land_high_zero by lia. pose proof (pow2_pos k ltac:(lia)) as Hp.
  rewrite pow2_split in Hx by lia. unfold clz. destruct (Z.ltb_spec x (2 ^ k)).
  - rewrite shr_spec, Z.sub_diag, Z.pow_0_r, Z.div_1_r by lia. lia.
  - rewrite shr_spec, Z.sub_0_r, <- Z.shiftr_div_pow2, Z.log2_shiftr by lia.
    rewrite Z.shiftr_div_pow2 by lia.
    assert (1 <= x / 2 ^ k) by (apply Z.div_le_lower_bound; lia).
    assert (x / 2 ^ k < 2 ^ k) by (apply Z.div_lt_upper_bound; lia).
    assert (k <= Z.log2 x) by (apply Z.log2_le_pow2; lia). lia.
Qed.

Lemma clzsi2_spec a : is_sint 32 a -> a <> 0 -> __clzsi2 a = clz 32 (uint 32 a).
Proof.
  intros Ha Hnz. unfold __clzsi2. set (x := uint 32 a).
  assert (Hx : 0 < x < 2 ^ (2 * 16)).
  { subst x. rewrite uint_cases by (lia || assumption). unfold is_sint in Ha. case_cmp; lia. }
  change 0xFFFF0000 with ((2 ^ 16 - 1) * 2 ^ 16). change 0xFF00 with ((2 ^ 8 - 1) * 2 ^ 8).
  change 0xF0 with ((2 ^ 4 - 1) * 2 ^ 4). change 0xC with ((2 ^ 2 - 1) * 2 ^ 2).
  clearbody x. rewrite !sshl_b2z by lia.
  pose proof (clz_step 16 x ltac:(lia) Hx) as [H1 E1].
  set (t1 := if Z.land x _ =? 0 then _ else _) in *. set (x1 := shr 32 x (16 - t1)) in *.
  pose proof (clz_step 8 x1 ltac:(lia) H1) as [H2 E2].
  set (t2 := if Z.land x1 _ =? 0 then _ else _) in *. set (x2 := shr 32 x1 (8 - t2)) in *.
  pose proof (clz_step 4 x2 ltac:(lia) H2) as [H3 E3].
  set (t3 := if Z.land x2 _ =? 0 then _ else _) in *. set (x3 := shr 32 x2 (4 - t3)) in *.
  pose proof (clz_step 2 x3 ltac:(lia) H3) as [H4 E4].
  set (t4 := if Z.land x3 _ =? 0 then _ else _) in *. set (x4 := shr 32 x3 (2 - t4)) in *.
  change (2 * 16) with 32 in E1. change (2 * 8) with 16 in E2. change (2 * 4) with 8 in E3.
  change (2 * 2) with 4 in E4. rewrite E1, E2, E3, E4.
  assert (0 <= t1 <= 16 /\ 0 <= t2 <= 8 /\ 0 <= t3 <= 4 /\ 0 <= t4 <= 2)
    by (subst t1 t2 t3 t4; repeat split; case_cmp; lia).
  change (2 ^ 4) with 16 in *. change (2 ^ 3) with 8 in *. change (2 ^ 2) with 4 in *.
  change (2 ^ 1) with 2 in *. clearbody t1 t2 t3 t4 x4.
  assert (E : (2 -[32] x4) .& uint 32 (- b2z ((x4 .& 2) =? 0)) = clz 2 x4 /\ 0 <= clz 2 x4 <= 1)
    by (assert (x4 = 1 \/ x4 = 2 \/ x4 = 3) as [-> | [-> | ->]] by lia; vm_compute; intuition congruence).
  destruct E as [-> ?]. unfold uadd.
  apply sint_of_eqm; [lia|unfold is_sint; lia|]. rewrite !uint_eqm, <- !Z.add_assoc. reflexivity.
Qed.

(** One bisection step of [__ctzsi2]: the low [2*k] bits are not all clear. *)
Lemma ctz_step k x : 0 < k <= 16 -> 0 <= x -> x mod 2 ^ (2 * k) <> 0 ->
  let t := if Z.land x (2 ^ k - 1) =? 0 then k else 0 in
  let x' := shr 32 x t in
  0 <= x' /\ x' mod 2 ^ k <> 0 /\ ctz x = t + ctz x'.
Proof.
  intros Hk Hx Hm. cbv zeta. rewrite land_ones_mod by lia.
  replace (2 * k) with (k + k) in Hm by lia. rewrite pow2_split in Hm by lia.
  pose proof (pow2_pos k ltac:(lia)) as Hp. rewrite Z.rem_mul_r in Hm by lia.
  destruct (Z.eqb_spec (x mod 2 ^ k) 0) as [E|E].
  - rewrite E in Hm. rewrite shr_spec by lia.
    assert (x = 2 ^ k * (x / 2 ^ k)) by (rewrite (Z.div_mod x (2 ^ k)) at 1; lia).
    split; [apply Z.div_pos; lia|]. split; [nia|].
    rewrite <- ctz_pow2_mul by (lia || (intros Z0; rewrite Z0, Z.mod_0_l in Hm; lia)). congruence.
  - rewrite shr_spec, Z.pow_0_r, Z.div_1_r by lia. auto.
Qed.

Lemma ctzsi2_spec a : is_sint 32 a -> a <> 0 -> __ctzsi2 a = ctz (uint 32 a).
Proof.
  intros Ha Hnz. unfold __ctzsi2. set (x := uint 32 a).
  assert (Hx : 0 < x < 2 ^ 32).
  { subst x. rewrite uint_cases by (lia || assumption). unfold is_sint in Ha. case_cmp; lia. }
  change 0x0000FFFF with (2 ^ 16 - 1). change 0x00FF with (2 ^ 8 - 1).
  change 0x0F with (2 ^ 4 - 1). change 0x3 with (2 ^ 2 - 1).
  clearbody x. rewrite !sshl_b2z by lia.
  pose proof (ctz_step 16 x ltac:(lia) ltac:(lia) ltac:(rewrite Z.mod_small; lia)) as (H1 & G1 & E1).
  set (t1 := if Z.land x _ =? 0 then _ else _) in *. set (x1 := shr 32 x t1) in *.
  pose proof (ctz_step 8 x1 ltac:(lia) H1 G1) as (H2 & G2 & E2).
  set (t2 := if Z.land x1 _ =? 0 then _ else _) in *. set (x2 := shr 32 x1 t2) in *.
  pose proof (ctz_step 4 x2 ltac:(lia) H2 G2) as (H3 & G3 & E3).
  set (t3 := if Z.land x2 _ =? 0 then _ else _) in *. set (x3 := shr 32 x2 t3) in *.
  pose proof (ctz_step 2 x3 ltac:(lia) H3 G3) as (H4 & G4 & E4).
  set (t4 := if Z.land x3 _ =? 0 then _ else _) in *. set (x4 := shr 32 x3 t4) in *.
  change (2 ^ 4) with 16 in *. change (2 ^ 3) with 8 in *. change (2 ^ 1) with 2 in *.
  rewrite E1, E2, E3, E4.
  assert (0 <= t1 <= 16 /\ 0 <= t2 <= 8 /\ 0 <= t3 <= 4 /\ 0 <= t4 <= 2)
    by (subst t1 t2 t3 t4; repeat split; case_cmp; lia).
  rewrite land_ones_mod by lia. pose proof (Z.mod_pos_bound x4 (2 ^ 2) ltac:(lia)).
  destruct (ctz_mod x4 2 ltac:(lia) G4) as [<- ?]. set (y := x4 mod 2 ^ 2) in *.
  clearbody t1 t2 t3 t4 y.
  assert (E : (2 -[32] (y >>[32] 1)) .& uint 32 (- b2z ((y .& 1) =? 0)) = ctz y /\ 0 <= ctz y <= 1)
    by (assert (y = 1 \/ y = 2 \/ y = 3) as [-> | [-> | ->]] by lia; vm_compute; intuition congruence).
  destruct E as [-> ?]. unfold uadd.
  apply sint_of_eqm; [lia|unfold is_sint; lia|]. rewrite !uint_eqm, <- !Z.add_assoc. reflexivity.
Qed.

Section CountDouble.
Context (h : Z) (Hh : 0 < h <= 2 ^ 20).

Lemma uint_double a : uint (2 * h) a = uint h (a / 2 ^ h) * 2 ^ h + a mod 2 ^ h.
Proof.
  unfold uint. rewrite pow2_double by lia. pose proof (pow2_pos h ltac:(lia)).
  rewrite Z.rem_mul_r by lia. lia.
Qed.

Lemma log2_double H L : 0 < H -> is_uint h L -> Z.log2 (H * 2 ^ h + L) = h + Z.log2 H.
Proof.
  intros HH HL. unfold is_uint in HL. pose proof (pow2_pos h ltac:(lia)).
  assert (E : H = Z.shiftr (H * 2 ^ h + L) h).
  { rewrite Z.shiftr_div_pow2, Z.div_add_l, (Z.div_small L) by lia. lia. }
  assert (h <= Z.log2 (H * 2 ^ h + L)) by (apply Z.log2_le_pow2; nia).
  apply (f_equal Z.log2) in E. rewrite Z.log2_shiftr in E by nia. lia.
Qed.

Lemma high_zero a : is_sint (2 * h) a -> (high (words_of_all_s h a) =? 0) = (uint h (a / 2 ^ h) =? 0).
Proof.
  intros Ha. destruct (high_of_all_s h ltac:(lia) a Ha) as [-> R].
  rewrite uint_cases by (lia || assumption). unfold is_sint in R. pose_pow2.
  pose proof (pow2_S h ltac:(lia)). destruct (Z.ltb_spec (a / 2 ^ h) 0); [|reflexivity].
  transitivity false; [|symmetry]; apply Z.eqb_neq; lia.
Qed.

Lemma uint_high a : is_sint (2 * h) a -> uint h (high (words_of_all_s h a)) = uint h (a / 2 ^ h).
Proof. intros Ha. now destruct (high_of_all_s h ltac:(lia) a Ha) as [-> R]. Qed.

Lemma land_uint_m1 x : is_uint h x -> Z.land x (uint h (-1)) = x.
Proof.
  intros Hx. unfold uint. rewrite <- Z.land_ones, Z.land_assoc, Z.land_m1_r, Z.land_ones by lia.
  now apply Z.mod_small.
Qed.

Lemma clzXi2_spec a : is_sint (2 * h) a -> a <> 0 -> clzXi2 h a = clz (2 * h) (uint (2 * h) a).
Proof.
  intros Ha Hnz. unfold clzXi2. rewrite high_zero, uint_double, low_of_all_s by assumption.
  pose proof (uint_range h (a / 2 ^ h) ltac:(lia)) as HH. set (H := uint h (a / 2 ^ h)) in *.
  pose proof (uint_range h a ltac:(lia)) as HL. change (a mod 2 ^ h) with (uint h a).
  set (L := uint h a) in *. unfold is_uint in HH, HL.
  assert (N : H <> 0 \/ L <> 0).
  { destruct (Z.eq_dec H 0); [right|now left]. intros E. apply Hnz.
    apply eqm_sint_eq with (2 * h); [lia|assumption|unfold is_sint; pose_pow2; lia|].
    rewrite <- (uint_eqm (2 * h) a), uint_double. fold H.
    change (a mod 2 ^ h) with L. rewrite e, E. reflexivity. }
  destruct (Z.eqb_spec H 0) as [E|E]; cbn [b2z].
  - change (Z.lnot (- (1))) with 0. rewrite Z.land_0_r. change (uint h 0) with (0 mod 2 ^ h).
    rewrite Zmod_0_l, Z.lor_0_l. change (- (1)) with (-1). rewrite land_uint_m1, Z.land_m1_l by assumption.
    rewrite E, Z.mul_0_l, Z.add_0_l. pose proof (log2_lt_width h L ltac:(lia)).
    unfold sadd, clz. rewrite sint_small by (unfold is_sint; lia). lia.
  - change (Z.lnot (- 0)) with (-1). rewrite Z.land_m1_r, uint_high by assumption. fold H.
    change (uint h (- 0)) with (0 mod 2 ^ h). rewrite Zmod_0_l, Z.land_0_r, Z.lor_0_r, Z.land_0_l.
    unfold sadd, clz. rewrite log2_double by (unfold is_uint; lia).
    pose proof (log2_lt_width h H ltac:(lia)). rewrite sint_small by (unfold is_sint; lia). lia.
Qed.

(** The low half decides the count as soon as it is not zero. *)
Lemma ctz_double a : is_sint (2 * h) a -> a <> 0 ->
  let H := uint h (a / 2 ^ h) in let L := uint h a in
  if L =? 0 then H <> 0 /\ ctz (uint (2 * h) a) = h + ctz H /\ 0 <= ctz H < h
  else ctz (uint (2 * h) a) = ctz L /\ 0 <= ctz L < h.
Proof.
  intros Ha Hnz H L. pose proof (uint_range h (a / 2 ^ h) ltac:(lia)) as HH. fold H in HH.
  unfold is_uint in HH. pose proof (uint_double a) as D. change (a mod 2 ^ h) with L in D. fold H in D.
  pose proof (pow2_pos h ltac:(lia)). destruct (Z.eqb_spec L 0) as [E|E].
  - assert (H <> 0).
    { intros E2. apply Hnz. apply eqm_sint_eq with (2 * h);
        [lia|assumption|unfold is_sint; pose_pow2; lia|].
      rewrite <- (uint_eqm (2 * h) a), D, E, E2. reflexivity. }
    split; [assumption|]. rewrite D, E, Z.add_0_r, Z.mul_comm, ctz_pow2_mul by lia.
    split; [reflexivity|]. apply ctz_mod; [lia|]. rewrite Z.mod_small; lia.
  - assert (M : uint (2 * h) a mod 2 ^ h = L).
    { rewrite D, Z.add_comm, Z_mod_plus_full. unfold L, uint. apply Zmod_mod. }
    destruct (ctz_mod (uint (2 * h) a) h ltac:(lia) ltac:(now rewrite M)) as [C ?].
    rewrite M in C. now rewrite C.
Qed.

Lemma ctzXi2_spec a : is_sint (2 * h) a -> a <> 0 -> ctzXi2 h a = ctz (uint (2 * h) a).
Proof.
  intros Ha Hnz. unfold ctzXi2. rewrite low_of_all_s. change (a mod 2 ^ h) with (uint h a).
  pose proof (ctz_double a Ha Hnz) as C. cbv zeta in C.
  pose proof (uint_range h a ltac:(lia)) as HL.
  destruct (uint h a =? 0); cbn [b2z].
  - destruct C as (_ & -> & ?). change (- (1)) with (-1). change (Z.lnot (-1)) with 0.
    change (uint h 0) with (0 mod 2 ^ h). rewrite Z.land_m1_r, Z.land_m1_l, Zmod_0_l, Z.land_0_r, Z.lor_0_r.
    rewrite uint_high by assumption. unfold sadd. rewrite sint_small by (unfold is_sint; lia). lia.
  - destruct C as (-> & ?). change (- (0)) with 0. change (Z.lnot 0) with (-1).
    rewrite Z.land_0_r, Z.land_0_l. change (uint h 0) with (0 mod 2 ^ h).
    rewrite Zmod_0_l, Z.lor_0_l, land_uint_m1 by assumption.
    unfold sadd. rewrite sint_small by (unfold is_sint; lia). lia.
Qed.

Lemma ffsXi2_spec a : is_sint (2 * h) a ->
  ffsXi2 h a = if a =? 0 then 0 else ctz (uint (2 * h) a) + 1.
Proof.
  intros Ha. unfold ffsXi2. rewrite low_of_all_s, high_zero by assumption.
  change (a mod 2 ^ h) with (uint h a).
  destruct (Z.eqb_spec a 0) as [->|Hnz].
  { unfold uint. rewrite Z.div_0_l, Zmod_0_l by (apply Z.pow_nonzero; lia). reflexivity. }
  pose proof (ctz_double a Ha Hnz) as C. cbv zeta in C. destruct (uint h a =? 0).
  - destruct C as (N & -> & ?). apply Z.eqb_neq in N. rewrite N, uint_high by assumption.
    unfold uadd. rewrite (uint_small 64) by (unfold is_uint; lia).
    rewrite sint_small by (unfold is_sint; lia). lia.
  - destruct C as (-> & ?). unfold sadd. rewrite sint_small by (unfold is_sint; lia). lia.
Qed.
End CountDouble.

(** ** Population count

    The reference: the sum of the [n] lowest bits, one at a time. *)

Fixpoint popcount (n : nat) (x : Z) : Z :=
  match n with
  | O => 0
  | S n => x mod 2 + popcount n (x / 2)
  end.

(** Each stage of the bit-parallel counters, on the digits of the word. *)
Section Popcount.

(** Bits summed in pairs. *)
Lemma popcount_pairs l : digits_ok 2 l -> popcount (2 * length l) (eval 2 l) = sum (map (fun d => d - d / 2) l).
Proof.
  induction 1 as [|d l Hd Hl IH]; [reflexivity|].
  replace (2 * length (d :: l))%nat with (S (S (2 * length l))) by (cbn; lia).
  cbn [popcount map sum]. rewrite Z.div_div by lia. change (2 * 2) with (2 ^ 2).
  rewrite eval_cons_div, IH by lia. cbn [eval]. change (2 ^ 2) with 4 in *.
  assert ((d + 4 * eval 2 l) mod 2 + (d + 4 * eval 2 l) / 2 mod 2 = d - d / 2)
    by (set (e := eval 2 l); clearbody e; Z.div_mod_to_equations; lia).
  lia.
Qed.

Lemma stage1 l : digits_ok 2 l ->
  eval 2 l - Z.land (eval 2 l / 2 ^ 1) (eval 2 (repeat 1 (length l)))
  = eval 2 (map (fun d => d - d / 2) l).
Proof.
  intros Hl. change 1 with (2 ^ 1 - 1) at 2. rewrite eval_shr_mask by (lia || assumption).
  rewrite <- (map_id l) at 1. rewrite eval_map_sub. f_equal. apply map_ext_in. intros d Hd.
  unfold digits_ok in Hl. rewrite Forall_forall in Hl. specialize (Hl d Hd).
  change (2 ^ 1) with 2. change (2 ^ 2) with 4 in Hl. rewrite (Z.mod_small (d / 2)) by (Z.div_mod_to_equations; lia). reflexivity.
Qed.

(** Two adjacent fields of [k] bits added in place. *)
Lemma stage_add k l : 0 < k -> digits_ok (2 * k) l ->
  Z.land (eval (2 * k) l / 2 ^ k) (eval (2 * k) (repeat (2 ^ k - 1) (length l)))
  + Z.land (eval (2 * k) l) (eval (2 * k) (repeat (2 ^ k - 1) (length l)))
  = eval (2 * k) (map (fun d => d / 2 ^ k + d mod 2 ^ k) l).
Proof.
  intros Hk Hl. pose proof (eval_shr_mask (2 * k) ltac:(lia) 0 k l ltac:(lia) ltac:(lia) ltac:(lia) Hl) as E0.
  rewrite Z.pow_0_r, Z.div_1_r in E0. rewrite E0, eval_shr_mask, eval_map_add by (lia || assumption).
  f_equal. apply map_ext_in. intros d Hd. unfold digits_ok in Hl. rewrite Forall_forall in Hl.
  specialize (Hl d Hd). replace (2 * k) with (k + k) in Hl by lia. rewrite Z.pow_add_r in Hl by lia.
  pose proof (pow2_pos k ltac:(lia)). rewrite Z.div_1_r, (Z.mod_small (d / 2 ^ k)); [reflexivity|].
  split; [apply Z.div_pos|apply Z.div_lt_upper_bound]; lia.
Qed.

(** [x + (x >> 4)]: each byte holds the sum of its nibbles in the low one. *)
Lemma stage3_sum l : Forall (fun d => 0 <= d /\ d / 16 <= 4 /\ d mod 16 <= 4) l ->
  exists l', eval 8 l + eval 8 l / 16 = eval 8 l' /\ digits_ok 8 l' /\ length l' = length l /\
    map (fun d => d mod 16) l' = map (fun d => d / 16 + d mod 16) l.
Proof.
  induction 1 as [|d l Hd Hl (l' & E & Ok & Len & M)]; [exists []; repeat split; auto; constructor|].
  set (c := eval 8 l mod 16).
  assert (Hc : 0 <= c <= 4).
  { subst c. destruct l as [|e l]; [cbn; lia|]. inversion Hl as [|? ? He _]; subst.
    cbn [eval]. change (2 ^ 8) with (16 * 16).
    replace (e + 16 * 16 * eval 8 l) with (e + (16 * eval 8 l) * 16) by ring.
    rewrite Z_mod_plus_full. pose proof (Z.mod_pos_bound e 16 ltac:(lia)). lia. }
  exists ((d + d / 16 + 16 * c) :: l'). cbn [eval length map]. rewrite <- E, Len. repeat split.
  - subst c. change (2 ^ 8) with 256. set (e := eval 8 l). clearbody e. Z.div_mod_to_equations. lia.
  - constructor; [|assumption]. change (2 ^ 8) with 256. Z.div_mod_to_equations. lia.
  - rewrite M. f_equal. replace (d + d / 16 + 16 * c) with (d + d / 16 + c * 16) by ring.
    rewrite Z_mod_plus_full. Z.div_mod_to_equations. lia.
Qed.

Lemma sum_pairs k m l : 0 < k -> length l = (2 * m)%nat -> digits_ok k l ->
  sum (map (fun d => d / 2 ^ k + d mod 2 ^ k) (pairs k l)) = sum l.
Proof.
  intros Hk. revert l. apply (list_pair_ind (fun l => digits_ok k l -> _)); [reflexivity|].
  intros d0 d1 l IH Hl. inversion_clear Hl as [|? ? H0 Hl']. inversion_clear Hl' as [|? ? H1 Hl].
  cbn [pairs map sum]. rewrite IH by assumption.
  replace (d0 + 2 ^ k * d1) with (d1 * 2 ^ k + d0) by ring.
  rewrite Z.div_add_l, Z.div_small, Z.add_comm, Z.add_0_r by lia.
  rewrite (Z.add_comm (d1 * 2 ^ k)), Z_mod_plus_full, Z.mod_small by lia. lia.
Qed.

Lemma Forall_pairs (P Q : Z -> Prop) k m l : length l = (2 * m)%nat ->
  (forall d0 d1, P d0 -> P d1 -> Q (d0 + 2 ^ k * d1)) -> Forall P l -> Forall Q (pairs k l).
Proof.
  intros Hl HQ. revert l Hl. apply (list_pair_ind (fun l => Forall P l -> Forall Q (pairs k l))); [constructor|].
  intros d0 d1 l IH Hl. inversion_clear Hl as [|? ? H0 Hl']. inversion_clear Hl' as [|? ? H1 Hl].
  cbn [pairs]. constructor; auto.
Qed.

(** The three masking stages on an [8 * N]-bit word leave the bit count of
    every byte in that byte. *)
Definition swar_bytes (w M5 M3 M0F x : Z) : Z :=
  let x := x -[w] ((x >>[w] 1) .& M5) in
  let x := ((x >>[w] 2) .& M3) +[w] (x .& M3) in
  (x +[w] (x >>[w] 4)) .& M0F.

Lemma swar_bytes_spec (N : nat) (w x : Z) : (0 < N)%nat -> w = 8 * Z.of_nat N -> is_uint w x ->
  exists bs,
    swar_bytes w (eval 2 (repeat 1 (4 * N))) (eval 4 (repeat 3 (2 * N))) (eval 8 (repeat 15 N)) x = eval 8 bs
    /\ length bs = N /\ Forall (fun b => 0 <= b <= 8) bs /\ sum bs = popcount (8 * N) x.
Proof.
  intros HN Hw Hx. unfold swar_bytes.
  set (l0 := digits 2 (4 * N) x).
  assert (L0 : length l0 = (4 * N)%nat) by apply digits_length.
  assert (K0 : digits_ok 2 l0) by (apply digits_digits_ok; lia).
  assert (E0 : eval 2 l0 = x).
  { unfold l0. rewrite eval_digits by lia. rewrite Z.mod_small; [reflexivity|].
    unfold is_uint in Hx. replace (2 * Z.of_nat (4 * N)) with w by lia. assumption. }
  set (l1 := map (fun d => d - d / 2) l0).
  assert (L1 : length l1 = (2 * (2 * N))%nat) by (unfold l1; rewrite length_map; lia).
  assert (K1 : Forall (fun d => 0 <= d <= 2) l1).
  { unfold l1. apply Forall_map. revert K0. apply Forall_impl. intros d ?. change (2 ^ 2) with 4 in *.
    Z.div_mod_to_equations. lia. }
  assert (S1 : x -[w] ((x >>[w] 1) .& eval 2 (repeat 1 (4 * N))) = uint w (eval 2 l1)).
  { rewrite shr_spec by lia. unfold usub. rewrite <- E0, <- L0. now rewrite stage1. }
  rewrite S1.
  assert (R1 : is_uint w (eval 2 l1)).
  { unfold is_uint. replace w with (2 * Z.of_nat (length l1)) by lia.
    apply eval_bound; [lia|]. revert K1. apply Forall_impl. lia. }
  rewrite (uint_small w (eval 2 l1)) by assumption.
  set (l2 := pairs 2 l1).
  assert (E2 : eval 2 l1 = eval 4 l2) by (symmetry; exact (eval_pairs 2 (2 * N) l1 ltac:(lia) L1)).
  assert (L2 : length l2 = (2 * N)%nat) by (apply length_pairs; assumption).
  assert (K2 : Forall (fun d => 0 <= d <= 10) l2).
  { apply (Forall_pairs (fun d => 0 <= d <= 2) _ 2 (2 * N)); auto. intros; change (2 ^ 2) with 4; lia. }
  rewrite E2, (shr_spec w _ 2) by lia. unfold uadd. rewrite <- L2.
  pose proof (stage_add 2 l2 ltac:(lia)) as S2. change (2 * 2) with 4 in S2. change (2 ^ 2 - 1) with 3 in S2.
  rewrite !S2 by (revert K2; apply Forall_impl; intros; change (2 ^ 4) with 16; lia).
  set (l3 := map (fun d => d / 2 ^ 2 + d mod 2 ^ 2) l2).
  assert (L3 : length l3 = (2 * N)%nat) by (unfold l3; rewrite length_map; lia).
  assert (K3 : Forall (fun d => 0 <= d <= 4) l3).
  { unfold l3. apply Forall_map. revert K2. apply Forall_impl. intros d ?. change (2 ^ 2) with 4.
    Z.div_mod_to_equations. lia. }
  assert (R3 : is_uint w (eval 4 l3)).
  { unfold is_uint. replace w with (4 * Z.of_nat (length l3)) by lia.
    apply eval_bound; [lia|]. revert K3. apply Forall_impl. intros; change (2 ^ 4) with 16; lia. }
  rewrite !(uint_small w (eval 4 l3)) by assumption.
  set (l4 := pairs 4 l3).
  assert (E4 : eval 4 l3 = eval 8 l4) by (symmetry; exact (eval_pairs 4 N l3 ltac:(lia) L3)).
  assert (L4 : length l4 = N) by (apply length_pairs; assumption).
  assert (K4 : Forall (fun d => 0 <= d /\ d / 16 <= 4 /\ d mod 16 <= 4) l4).
  { apply (Forall_pairs (fun d => 0 <= d <= 4) _ 4 N); auto. intros d0 d1 ? ?; change (2 ^ 4) with 16.
    Z.div_mod_to_equations. lia. }
  rewrite E4, shr_spec by lia. change (2 ^ 4) with 16.
  destruct (stage3_sum l4 K4) as (l5 & -> & K5 & L5 & M5).
  rewrite uint_small by (unfold is_uint; replace w with (8 * Z.of_nat (length l5)) by lia; apply eval_bound; [lia|assumption]).
  pose proof (eval_shr_mask 8 ltac:(lia) 0 4 l5 ltac:(lia) ltac:(lia) ltac:(lia) K5) as S5.
  rewrite Z.pow_0_r, Z.div_1_r, L5, L4 in S5. change (2 ^ 4 - 1) with 15 in S5. rewrite S5.
  exists (map (fun d => d / 16 + d mod 16) l4). repeat split.
  - f_equal. rewrite <- M5. apply map_ext. intros d. change (2 ^ 4) with 16. now rewrite Z.div_1_r.
  - now rewrite length_map.
  - apply Forall_map. revert K4. apply Forall_impl. intros d ?. Z.div_mod_to_equations. lia.
  - change 16 with (2 ^ 4). unfold l4. rewrite (sum_pairs 4 N) by
      (lia || assumption || (revert K3; apply Forall_impl; intros; change (2 ^ 4) with 16; lia)).
    unfold l3, l2. rewrite (sum_pairs 2 (2 * N)) by
      (lia || assumption || (revert K1; apply Forall_impl; intros; change (2 ^ 2) with 4; lia)).
    unfold l1. rewrite <- popcount_pairs by assumption. rewrite E0, L0. f_equal. lia.
Qed.

(** [(word)(x + (x >> k))]: the upper half of the bytes added to the lower. *)
Lemma fold_half (n : nat) B l : (0 < n)%nat -> length l = (2 * n)%nat -> 0 <= B <= 127 ->
  Forall (fun b => 0 <= b <= B) l ->
  let k := 8 * Z.of_nat n in
  exists l', uint k (eval 8 l +[2 * k] (eval 8 l >>[2 * k] k)) = eval 8 l' /\
    length l' = n /\ Forall (fun b => 0 <= b <= 2 * B) l' /\ sum l' = sum l.
Proof.
  intros Hn Hl HB Hb k.
  assert (L1 : length (firstn n l) = n) by (rewrite length_firstn; lia).
  assert (L2 : length (skipn n l) = n) by (rewrite length_skipn; lia).
  rewrite <- (firstn_skipn n l). rewrite <- (firstn_skipn n l) in Hb. set (l1 := firstn n l) in *. set (l2 := skipn n l) in *.
  clearbody l1 l2. clear Hl l.
  apply Forall_app in Hb as [B1 B2].
  assert (Z1 : Forall (fun b => 0 <= b <= 2 * B) (zip_add l1 l2)).
  { unfold zip_add. apply Forall_map, Forall_forall. intros [a b] Hab.
    pose proof (in_combine_l _ _ _ _ Hab) as I1. pose proof (in_combine_r _ _ _ _ Hab) as I2.
    rewrite Forall_forall in B1, B2. specialize (B1 _ I1). specialize (B2 _ I2). cbn [fst snd]. cbv beta in *. lia. }
  assert (L : length (zip_add l1 l2) = n) by (unfold zip_add; rewrite length_map, length_combine; lia).
  exists (zip_add l1 l2). split; [|split; [assumption|split; [assumption|]]].
  - rewrite shr_spec, eval_app, L1 by lia. fold k.
    assert (0 <= eval 8 l1 < 2 ^ k).
    { unfold k. rewrite <- L1. apply eval_bound; [lia|]. revert B1. apply Forall_impl.
      intros; change (2 ^ 8) with 256; lia. }
    rewrite (Z.mul_comm (2 ^ k)), Z.add_comm, Z.div_add_l, (Z.div_small (eval 8 l1)), Z.add_0_r by (apply Z.pow_nonzero || idtac; lia).
    apply uint_of_eqm.
    + unfold is_uint, k. rewrite <- L. apply eval_bound; [lia|]. revert Z1. apply Forall_impl.
      intros; change (2 ^ 8) with 256; lia.
    + rewrite eval_zip_add by lia. unfold uadd.
      etransitivity; [apply (eqm_lower (2 * k) k); [lia|apply uint_eqm]|].
      rewrite (Z.add_comm (_ * _)), <- Z.add_assoc, Z.add_comm, <- Z.add_assoc, eqm_mul_pow.
      now rewrite Z.add_0_l, Z.add_comm.
  - rewrite sum_zip_add by lia. clear. induction l1; cbn [sum app]; lia.
Qed.

(** The last two folds, of four bytes into the low one. *)
Lemma fold_word m l : 6 <= m <= 8 -> length l = 4%nat -> Forall (fun b => 0 <= b <= 2 ^ m / 8) l ->
  sum l < 2 ^ m ->
  let x := eval 8 l +[32] (eval 8 l >>[32] 16) in
  sint 32 ((x +[32] (x >>[32] 8)) .& (2 ^ m - 1)) = sum l.
Proof.
  intros Hm Hl Hb Hs x. destruct l as [|b0 [|b1 [|b2 [|b3 [|]]]]]; try discriminate Hl.
  repeat match goal with H : Forall _ (_ :: _) |- _ => inversion_clear H end.
  assert (2 ^ m / 8 <= 32) by (assert (m = 6 \/ m = 7 \/ m = 8) as [-> | [-> | ->]] by lia; cbv; congruence).
  cbn [eval sum] in *. change (2 ^ 8) with 256 in *.
  assert (E1 : x = (b0 + b2) + 256 * (b1 + b3) + 65536 * b2 + 16777216 * b3).
  { unfold x. rewrite shr_spec by lia. unfold uadd. rewrite uint_small; unfold is_uint;
      change (2 ^ 16) with 65536; change (2 ^ 32) with 4294967296; Z.div_mod_to_equations; lia. }
  assert (E2 : x +[32] (x >>[32] 8) = b0 + b1 + b2 + b3 + (b1 + b3 + b2 + 256 * b2 + 256 * b3 + 65536 * b3) * 256).
  { rewrite E1, shr_spec by lia. unfold uadd. rewrite uint_small; unfold is_uint;
      change (2 ^ 8) with 256; change (2 ^ 32) with 4294967296; Z.div_mod_to_equations; lia. }
  rewrite E2, land_ones_mod by lia. change 256 with (2 ^ 8). replace 8 with (8 - m + m) by lia.
  rewrite pow2_split, Z.mul_assoc, Z_mod_plus_full by lia.
  pose proof (Z.pow_le_mono_r 2 m 8 ltac:(lia) ltac:(lia)). change (2 ^ 8) with 256 in *.
  rewrite Z.mod_small, sint_small; unfold is_sint; lia.
Qed.

Lemma popcountsi2_spec a : __popcountsi2 a = popcount 32 (uint 32 a).
Proof.
  pose proof (uint_range 32 a ltac:(lia)) as R. unfold __popcountsi2.
  destruct (swar_bytes_spec 4 32 (uint 32 a) ltac:(lia) eq_refl R) as (l & E & L & B & S).
  cbn [Nat.mul Nat.add] in S.
  unfold swar_bytes in E. change (eval 2 _) with 0x55555555 in E.
  change (eval 4 _) with 0x33333333 in E. change (eval 8 (repeat 15 4)) with 0x0F0F0F0F in E.
  cbv zeta in E |- *. rewrite E, <- S. apply (fold_word 6); try assumption; [lia|].
  pose proof (sum_bound 8 l B). lia.
Qed.

Lemma popcountdi2_spec a : __popcountdi2 a = popcount 64 (uint 64 a).
Proof.
  pose proof (uint_range 64 a ltac:(lia)) as R. unfold __popcountdi2.
  destruct (swar_bytes_spec 8 64 (uint 64 a) ltac:(lia) eq_refl R) as (l & E & L & B & S).
  cbn [Nat.mul Nat.add] in S.
  unfold swar_bytes in E. change (eval 2 _) with 0x5555555555555555 in E.
  change (eval 4 _) with 0x3333333333333333 in E. change (eval 8 (repeat 15 8)) with 0x0F0F0F0F0F0F0F0F in E.
  cbv zeta in E |- *. rewrite E, <- S.
  destruct (fold_half 4 8 l ltac:(lia) L ltac:(lia) B) as (l2 & E2 & L2 & B2 & S2).
  change (8 * Z.of_nat 4) with 32 in E2. change (2 * 32) with 64 in E2. rewrite E2, <- S2.
  apply (fold_word 7); try assumption; [lia|]. pose proof (sum_bound _ l2 B2). lia.
Qed.

Lemma popcountti2_spec a : __popcountti2 a = popcount 128 (uint 128 a).
Proof.
  pose proof (uint_range 128 a ltac:(lia)) as R. unfold __popcountti2.
  destruct (swar_bytes_spec 16 128 (uint 128 a) ltac:(lia) eq_refl R) as (l & E & L & B & S).
  cbn [Nat.mul Nat.add] in S.
  unfold swar_bytes in E.
  change (eval 2 _) with ((0x5555555555555555 <<[128] 64) .| 0x5555555555555555) in E.
  change (eval 4 _) with ((0x3333333333333333 <<[128] 64) .| 0x3333333333333333) in E.
  change (eval 8 (repeat 15 16)) with ((0x0F0F0F0F0F0F0F0F <<[128] 64) .| 0x0F0F0F0F0F0F0F0F) in E.
  cbv zeta in E |- *. rewrite E, <- S.
  destruct (fold_half 8 8 l ltac:(lia) L ltac:(lia) B) as (l1 & E1 & L1 & B1 & S1).
  change (8 * Z.of_nat 8) with 64 in E1. change (2 * 64) with 128 in E1. rewrite E1, <- S1.
  destruct (fold_half 4 16 l1 ltac:(lia) L1 ltac:(lia) B1) as (l2 & E2 & L2 & B2 & S2).
  change (8 * Z.of_nat 4) with 32 in E2. change (2 * 32) with 64 in E2. rewrite E2, <- S2.
  apply (fold_word 8); try assumption; [lia|]. pose proof (sum_bound _ l2 B2). lia.
Qed.
End Popcount.

(** ** Parity *)

Section Parity.

Lemma popcount_split m n x : popcount (m + n) x = popcount m x + popcount n (x / 2 ^ Z.of_nat m).
Proof.
  revert x. induction m as [|m IH]; intros x; cbn [popcount Nat.add].
  - now rewrite Z.div_1_r.
  - rewrite IH, Nat2Z.inj_succ, Z.pow_succ_r, Z.div_div by lia. lia.
Qed.

Lemma popcount_mod n x : popcount n (x mod 2 ^ Z.of_nat n) = popcount n x.
Proof.
  revert x. induction n as [|n IH]; intros x; [reflexivity|]. cbn [popcount].
  rewrite Nat2Z.inj_succ, Z.pow_succ_r by lia. pose proof (pow2_pos (Z.of_nat n) ltac:(lia)).
  rewrite Z.rem_mul_r by lia. rewrite (Z.mul_comm 2), Z_mod_plus_full, Zmod_mod.
  rewrite Z.div_add, (Z.div_small (x mod 2)) by (try apply Z.mod_pos_bound; lia).
  now rewrite Z.add_0_l, IH.
Qed.

Lemma lxor_mod2 a b : Z.lxor a b mod 2 = (a + b) mod 2.
Proof.
  rewrite <- !Z.bit0_mod, Z.lxor_spec, Z.add_bit0. reflexivity.
Qed.

Lemma popcount_lxor n a b : eqm 1 (popcount n (Z.lxor a b)) (popcount n a + popcount n b).
Proof.
  revert a b. induction n as [|n IH]; intros a b; [reflexivity|]. cbn [popcount].
  rewrite lxor_mod2, <- !Z.div2_div. replace (Z.div2 (Z.lxor a b)) with (Z.lxor (Z.div2 a) (Z.div2 b))
    by (rewrite !Z.div2_spec; symmetry; apply Z.shiftr_lxor).
  rewrite IH. change 2 with (2 ^ 1). change (?x mod 2 ^ 1) with (uint 1 x). rewrite !uint_eqm.
  match goal with |- eqm _ ?x ?y => replace x with y by ring end. reflexivity.
Qed.

(** One folding step halves the number of bits and keeps their parity. *)
Lemma parity_step n x : eqm 1 (popcount n (Z.lxor x (x / 2 ^ Z.of_nat n))) (popcount (n + n) x).
Proof. now rewrite popcount_lxor, popcount_split. Qed.

Lemma parity_fold_spec x : parity_fold x = popcount 32 x mod 2.
Proof.
  unfold parity_fold. rewrite (shr_spec 32 x 16), (shr_spec 32 _ 8), (shr_spec 32 _ 4) by lia.
  set (x1 := Z.lxor x _). set (x2 := Z.lxor x1 _). set (x3 := Z.lxor x2 _).
  change 0xF with (2 ^ 4 - 1). rewrite land_ones_mod by lia.
  assert (E : eqm 1 (popcount 4 (x3 mod 2 ^ 4)) (popcount 32 x)).
  { rewrite (popcount_mod 4). unfold x3. rewrite (parity_step 4). unfold x2. rewrite (parity_step 8).
    unfold x1. exact (parity_step 16 x). }
  change (popcount 32 x mod 2) with (uint 1 (popcount 32 x)). rewrite <- (eqm_uint _ _ _ E).
  pose proof (Z.mod_pos_bound x3 (2 ^ 4) ltac:(lia)) as R. set (y := x3 mod 2 ^ 4) in *. clearbody y.
  change (2 ^ 4) with 16 in R.
  assert (C : forallb (fun y => (0x6996 >>[32] y) .& 1 =? uint 1 (popcount 4 y)) (map Z.of_nat (seq 0 16)) = true)
    by reflexivity.
  rewrite forallb_forall in C. apply Z.eqb_eq, C, in_map_iff. exists (Z.to_nat y).
  split; [lia|apply in_seq; lia].
Qed.

Lemma parity_halves (n : nat) h a : h = Z.of_nat n -> 0 < h -> is_sint (2 * h) a ->
  let x := words_of_all_s h a in
  eqm 1 (popcount n (Z.lxor (uint h (high x)) (low x))) (popcount (n + n) (uint (2 * h) a)).
Proof.
  intros -> Hh Ha x. rewrite popcount_lxor, popcount_split. unfold x. rewrite low_of_all_s.
  destruct (high_of_all_s (Z.of_nat n) Hh a Ha) as [-> _]. unfold uint. rewrite !popcount_mod.
  rewrite <- (popcount_mod n (a mod _)), <- (popcount_mod n (_ / _)), Z.add_comm.
  match goal with |- eqm _ ?x ?y => replace x with y; [reflexivity|] end.
  rewrite pow2_double by lia. pose proof (pow2_pos (Z.of_nat n) ltac:(lia)).
  rewrite Z.rem_mul_r by lia. f_equal.
  - now rewrite (Z.mul_comm (2 ^ _)), Z_mod_plus_full, Zmod_mod, popcount_mod.
  - rewrite (Z.mul_comm (2 ^ Z.of_nat n) (_ mod _)), Z.div_add by lia.
    rewrite (Z.div_small (a mod _)) by (apply Z.mod_pos_bound; lia).
    now rewrite Z.add_0_l, !popcount_mod.
Qed.

Lemma paritydi2_spec a : is_sint 64 a -> __paritydi2 a = popcount 64 (uint 64 a) mod 2.
Proof.
  intros Ha. unfold __paritydi2, dwords. rewrite parity_fold_spec.
  pose proof (parity_halves 32 32 a eq_refl ltac:(lia) Ha) as E. cbv zeta in E.
  change (2 * 32) with 64 in E. change (32 + 32)%nat with 64%nat in E. exact E.
Qed.

Lemma parityti2_spec a : is_sint 128 a -> __parityti2 a = popcount 128 (uint 128 a) mod 2.
Proof.
  intros Ha. set (v := Z.lxor (uint 64 (high (twords a))) (low (twords a))).
  assert (U : __parityti2 a = __paritydi2 (sint 64 v)) by (unfold __parityti2, __paritydi2; reflexivity).
  rewrite U; clear U.
  rewrite paritydi2_spec, uint_sint by (apply sint_range; lia).
  pose proof (parity_halves 64 64 a eq_refl ltac:(lia) Ha) as E. cbv zeta in E. fold (twords a) in E. fold v in E.
  change (2 * 64) with 128 in E. change (64 + 64)%nat with 128%nat in E.
  pose proof (popcount_mod 64 v) as M. change (v mod 2 ^ Z.of_nat 64) with (uint 64 v) in M.
  rewrite M. exact E.
Qed.
End Parity.

(** ** Byte swap *)

Section Bswap.

(** One masked and shifted byte of the swap: byte [j] moved to bit [i]. *)
Lemma byte_down w u m c j i : m = 255 * 2 ^ j -> c = j - i -> 0 <= i <= j -> j - i < w ->
  shr w (Z.land u m) c = u / 2 ^ j mod 2 ^ 8 * 2 ^ i.
Proof.
  intros -> -> Hi Hw. change 255 with (2 ^ 8 - 1). rewrite land_field, shr_spec by lia.
  replace (2 ^ j) with (2 ^ i * 2 ^ (j - i)) at 2 by (rewrite <- pow2_split by lia; f_equal; lia).
  rewrite Z.mul_assoc, Z.div_mul; [reflexivity|]. apply Z.pow_nonzero; lia.
Qed.

Lemma byte_up w u m c j i : m = 255 * 2 ^ j -> c = i - j -> 0 <= j <= i -> i + 8 <= w ->
  ushl w (Z.land u m) c = u / 2 ^ j mod 2 ^ 8 * 2 ^ i.
Proof.
  intros -> -> Hi Hw. change 255 with (2 ^ 8 - 1). rewrite land_field, ushl_spec by lia.
  rewrite <- Z.mul_assoc, <- pow2_split by lia. replace (j + (i - j)) with i by lia.
  pose proof (Z.mod_pos_bound (u / 2 ^ j) (2 ^ 8) ltac:(lia)). pose proof (pow2_pos i ltac:(lia)).
  apply uint_small. unfold is_uint. pose proof (Z.pow_le_mono_r 2 (i + 8) w ltac:(lia) ltac:(lia)) as P.
  rewrite pow2_split in P by lia. nia.
Qed.

Lemma lor_add_high lo hi k : 0 <= k -> 0 <= lo < 2 ^ k -> Z.lor lo (hi * 2 ^ k) = lo + hi * 2 ^ k.
Proof. intros. rewrite Z.lor_comm, lor_add_disjoint by lia. lia. Qed.

Lemma bswapsi2_spec u : __bswapsi2 u = eval 8 (rev (digits 8 4 u)).
Proof.
  unfold __bswapsi2.
  rewrite (byte_down 32 u 0xff000000 24 24 0), (byte_down 32 u 0xff0000 8 16 8), (byte_up 32 u 0xff00 8 8 16), (byte_up 32 u 0xff 24 0 24) by lia.
  cbn [digits rev app eval]. rewrite !Z.div_div by lia. rewrite Z.div_1_r.
  change (2 ^ 8 * (2 ^ 8 * 2 ^ 8)) with (2 ^ 24). change (2 ^ 8 * 2 ^ 8) with (2 ^ 16).
  pose proof (fun x => Z.mod_pos_bound x (2 ^ 8) ltac:(lia)) as B.
  pose proof (B (u / 2 ^ 24)). pose proof (B (u / 2 ^ 16)). pose proof (B (u / 2 ^ 8)). pose proof (B u).
  rewrite (lor_add_high _ _ 8), (lor_add_high _ _ 16), (lor_add_high _ _ 24) by lia. lia.
Qed.

Lemma bswapdi2_spec u : __bswapdi2 u = eval 8 (rev (digits 8 8 u)).
Proof.
  unfold __bswapdi2.
  rewrite (byte_down 64 u 0xff00000000000000 56 56 0), (byte_down 64 u 0xff000000000000 40 48 8), (byte_down 64 u 0xff0000000000 24 40 16), (byte_down 64 u 0xff00000000 8 32 24),
    (byte_up 64 u 0xff000000 8 24 32), (byte_up 64 u 0xff0000 24 16 40), (byte_up 64 u 0xff00 40 8 48), (byte_up 64 u 0xff 56 0 56) by lia.
  cbn [digits rev app eval]. rewrite !Z.div_div by lia. rewrite Z.div_1_r.
  rewrite <- !pow2_split by lia. cbn [Z.add Pos.add Pos.succ Pos.add_carry].
  pose proof (fun x => Z.mod_pos_bound x (2 ^ 8) ltac:(lia)) as B.
  pose proof (B (u / 2 ^ 56)). pose proof (B (u / 2 ^ 48)). pose proof (B (u / 2 ^ 40)). pose proof (B (u / 2 ^ 32)).
  pose proof (B (u / 2 ^ 24)). pose proof (B (u / 2 ^ 16)). pose proof (B (u / 2 ^ 8)). pose proof (B u).
  rewrite (lor_add_high _ _ 8), (lor_add_high _ _ 16), (lor_add_high _ _ 24), (lor_add_high _ _ 32),
    (lor_add_high _ _ 40), (lor_add_high _ _ 48), (lor_add_high _ _ 56) by lia. lia.
Qed.

Lemma digits_swap n u : digits 8 n (eval 8 (rev (digits 8 n u))) = rev (digits 8 n u).
Proof.
  replace n with (length (rev (digits 8 n u))) at 1 by (rewrite length_rev; now apply digits_length).
  apply digits_eval; [lia|]. apply Forall_rev, digits_digits_ok; lia.
Qed.

Lemma swap_twice n u : is_uint (8 * Z.of_nat n) u ->
  eval 8 (rev (digits 8 n (eval 8 (rev (digits 8 n u))))) = u.
Proof.
  intros Hu. rewrite digits_swap, rev_involutive, eval_digits by lia.
  now apply uint_small.
Qed.
End Bswap.

(** ** Three-way comparison *)

Section Compare.

(** The result of every comparison routine: 0, 1 or 2 for less, equal, greater. *)
Definition order_code (a b : Z) : Z := if a <? b then 0 else if a =? b then 1 else 2.

Lemma cmp_words_spec h a b ha hb la lb : 0 < h ->
  a = ha * 2 ^ h + la -> b = hb * 2 ^ h + lb -> is_uint h la -> is_uint h lb ->
  cmp_words (mkwords ha la) (mkwords hb lb) = order_code a b.
Proof.
  intros Hh -> -> Ha Hb. unfold cmp_words, order_code, is_uint in *. cbn [high low].
  repeat case_cmp; try reflexivity; nia.
Qed.

Lemma cmp_words_s h a b : 0 < h -> is_sint (2 * h) a -> is_sint (2 * h) b ->
  cmp_words (words_of_all_s h a) (words_of_all_s h b) = order_code a b.
Proof.
  intros Hh Ha Hb. destruct (high_of_all_s h Hh a Ha) as [Ea _]. destruct (high_of_all_s h Hh b Hb) as [Eb _].
  pose proof (pow2_pos h ltac:(lia)).
  apply (cmp_words_spec h); auto using uint_range with zarith; cbn [words_of_all_s high] in Ea, Eb; rewrite ?Ea, ?Eb;
  unfold uint; rewrite Z.mul_comm; now apply Z.div_mod; lia.
Qed.

Lemma cmp_words_u h a b : 0 < h -> is_uint (2 * h) a -> is_uint (2 * h) b ->
  cmp_words (words_of_all_u h a) (words_of_all_u h b) = order_code a b.
Proof.
  intros Hh Ha Hb. destruct (high_of_all_u h Hh a Ha) as [Ea _]. destruct (high_of_all_u h Hh b Hb) as [Eb _].
  pose proof (pow2_pos h ltac:(lia)).
  apply (cmp_words_spec h); auto using uint_range with zarith; cbn [words_of_all_u high] in Ea, Eb; rewrite ?Ea, ?Eb;
  unfold uint; rewrite Z.mul_comm; now apply Z.div_mod; lia.
Qed.
End Compare.

(** ** The properties of the bit-level runtime *)

(** The 64-bit and the 128-bit shift routines, which work on two half
    words, compute the shift of the whole double word for every in-range
    count: [__ashl] the product by [2^b] wrapped to the width, [__ashr] the
    floor of the signed quotient, [__lshr] the unsigned quotient of the
    pattern. *)
Theorem double_word_shifts a b a' b' :
  is_sint 64 a -> 0 <= b < 64 -> is_sint 128 a' -> 0 <= b' < 128 ->
  (__ashldi3 a b = sint 64 (Z.shiftl a b) /\ __ashrdi3 a b = Z.shiftr a b /\
   __lshrdi3 a b = sint 64 (Z.shiftr (uint 64 a) b)) /\
  (__ashlti3 a' b' = sint 128 (Z.shiftl a' b') /\ __ashrti3 a' b' = Z.shiftr a' b' /\
   __lshrti3 a' b' = sint 128 (Z.shiftr (uint 128 a') b')).
Proof.
  intros Ha Hb Ha' Hb'. repeat split.
  - now apply (ashlXi3_spec 32).
  - now apply (ashrXi3_spec 32).
  - now apply (lshrXi3_spec 32).
  - now apply (ashlXi3_spec 64).
  - now apply (ashrXi3_spec 64).
  - now apply (lshrXi3_spec 64).
Qed.

Lemma double_word_shifts_witness :
  __ashrdi3 (-81985529216486896) 37 = Z.shiftr (-81985529216486896) 37 /\
  __lshrti3 (-5) 70 = sint 128 (Z.shiftr (uint 128 (-5)) 70).
Proof.
  split; apply (double_word_shifts (-81985529216486896) 37 (-5) 70);
    unfold is_sint; lia.
Defined.

(** On every non-zero argument the leading- and trailing-zero counts of
    the 32-bit bisection ([__clzsi2], [__ctzsi2]) and of the 64- and 128-bit
    versions built on a half-word count are the positions of the highest and
    of the lowest set bit of the pattern. *)
Theorem zero_counts a b c :
  is_sint 32 a -> is_sint 64 b -> is_sint 128 c -> a <> 0 -> b <> 0 -> c <> 0 ->
  (__clzsi2 a = 31 - Z.log2 (uint 32 a) /\ __clzdi2 b = 63 - Z.log2 (uint 64 b) /\
   __clzti2 c = 127 - Z.log2 (uint 128 c)) /\
  exists q r s, uint 32 a = 2 ^ __ctzsi2 a * (2 * q + 1) /\
    uint 64 b = 2 ^ __ctzdi2 b * (2 * r + 1) /\ uint 128 c = 2 ^ __ctzti2 c * (2 * s + 1).
Proof.
  intros Ha Hb Hc Na Nb Nc. unfold __clzdi2, __clzti2, __ctzdi2, __ctzti2.
  rewrite clzsi2_spec, (clzXi2_spec 32), (clzXi2_spec 64) by (lia || assumption).
  rewrite ctzsi2_spec, (ctzXi2_spec 32), (ctzXi2_spec 64) by (lia || assumption).
  change (2 * 32) with 64. change (2 * 64) with 128. split; [unfold clz; lia|].
  destruct (ctz_exists (uint 32 a)) as (n & q & _ & E & ->); [now apply uint_nonzero|].
  destruct (ctz_exists (uint 64 b)) as (n' & r & _ & E' & ->); [now apply uint_nonzero|].
  destruct (ctz_exists (uint 128 c)) as (n'' & s & _ & E'' & ->); [now apply uint_nonzero|].
  now exists q, r, s.
Qed.

Lemma zero_counts_witness : __clzti2 (2 ^ 70) = 127 - Z.log2 (uint 128 (2 ^ 70)).
Proof. apply (zero_counts (-8) (3 * 2 ^ 40) (2 ^ 70)); unfold is_sint; lia. Defined.

(** [__ffs] is one more than the position of the lowest set bit, and 0
    exactly for 0, at all three widths. *)
Theorem find_first_set a b c : is_sint 32 a -> is_sint 64 b -> is_sint 128 c ->
  __ffssi2 a = (if a =? 0 then 0 else ctz (uint 32 a) + 1) /\
  __ffsdi2 b = (if b =? 0 then 0 else ctz (uint 64 b) + 1) /\
  __ffsti2 c = (if c =? 0 then 0 else ctz (uint 128 c) + 1).
Proof.
  intros Ha Hb Hc. split; [|split; [now apply (ffsXi2_spec 32)|now apply (ffsXi2_spec 64)]].
  unfold __ffssi2. destruct (Z.eqb_spec a 0) as [|N]; [reflexivity|].
  pose proof (uint_nonzero 32 a ltac:(lia) Ha N) as M. unfold uint in M.
  destruct (ctz_mod a 32 ltac:(lia) M) as [C ?]. unfold uint. rewrite C.
  unfold sadd. apply sint_small; unfold is_sint; lia.
Qed.

Lemma find_first_set_witness : __ffsdi2 (2 ^ 33) = 34.
Proof.
  etransitivity; [apply (find_first_set 1 (2 ^ 33) 1); unfold is_sint; lia|reflexivity].
Defined.

(** The bit-parallel population counts (masked adds in fields of 2, 4 and
    8 bits, then folded) equal the one-bit-at-a-time count, and the parity
    routines (XOR folds and a 16-entry table in a constant) its low bit. *)
Theorem popcount_parity a b c : is_sint 32 a -> is_sint 64 b -> is_sint 128 c ->
  (__popcountsi2 a = popcount 32 (uint 32 a) /\ __popcountdi2 b = popcount 64 (uint 64 b) /\
   __popcountti2 c = popcount 128 (uint 128 c)) /\
  (__paritysi2 a = __popcountsi2 a mod 2 /\ __paritydi2 b = __popcountdi2 b mod 2 /\
   __parityti2 c = __popcountti2 c mod 2).
Proof.
  intros Ha Hb Hc. rewrite popcountsi2_spec, popcountdi2_spec, popcountti2_spec.
  rewrite paritydi2_spec, parityti2_spec by assumption.
  unfold __paritysi2. rewrite parity_fold_spec. auto.
Qed.

Lemma popcount_parity_witness : __parityti2 (-1) = __popcountti2 (-1) mod 2.
Proof. apply (popcount_parity 5 6 (-1)); unfold is_sint; lia. Defined.

(** [__bswapsi2] and [__bswapdi2] reverse the bytes of the word, and
    applying one twice gives the word back. *)
Theorem bswap_reverses u v : is_uint 32 u -> is_uint 64 v ->
  digits 8 4 (__bswapsi2 u) = rev (digits 8 4 u) /\ __bswapsi2 (__bswapsi2 u) = u /\
  digits 8 8 (__bswapdi2 v) = rev (digits 8 8 v) /\ __bswapdi2 (__bswapdi2 v) = v.
Proof.
  intros Hu Hv. rewrite !bswapsi2_spec, !bswapdi2_spec. repeat split.
  - apply digits_swap.
  - now apply (swap_twice 4).
  - apply digits_swap.
  - now apply (swap_twice 8).
Qed.

Lemma bswap_reverses_witness : __bswapsi2 (__bswapsi2 0x12345678) = 0x12345678.
Proof. apply (bswap_reverses 0x12345678 0); unfold is_uint; lia. Defined.

(** The comparison routines on two half words return 0, 1 or 2 according
    to the order of the whole values, signed and unsigned, and the EABI
    wrappers -1, 0 or 1. *)
Theorem cmp_correct a b c d u v x y :
  is_sint 64 a -> is_sint 64 b -> is_sint 128 c -> is_sint 128 d ->
  is_uint 64 u -> is_uint 64 v -> is_uint 128 x -> is_uint 128 y ->
  __cmpdi2 a b = order_code a b /\ __cmpti2 c d = order_code c d /\
  __ucmpdi2 u v = order_code u v /\ __ucmpti2 x y = order_code x y /\
  __aeabi_lcmp a b = Z.sgn (a - b) /\ __aeabi_ulcmp a b = Z.sgn (uint 64 a - uint 64 b).
Proof.
  intros. assert (S : forall m n, order_code m n - 1 = Z.sgn (m - n))
    by (intros; unfold order_code; repeat case_cmp; lia).
  unfold __aeabi_lcmp, __aeabi_ulcmp. rewrite <- !S.
  unfold __cmpdi2, __cmpti2, __ucmpdi2, __ucmpti2, dwords, twords, udwords, utwords.
  rewrite !(cmp_words_s 32), !(cmp_words_s 64), !(cmp_words_u 32), !(cmp_words_u 64)
    by (lia || assumption || (apply uint_range; lia)).
  auto 10.
Qed.

Lemma cmp_correct_witness : __cmpdi2 (-1) 5 = order_code (-1) 5.
Proof. apply (cmp_correct (-1) 5 0 0 0 0 0 0); unfold is_sint, is_uint; lia. Defined.
