(* ===== verification/IntArith.v ===== *)
(** * Integer runtime: checked arithmetic and wide multiplication

    Models the trapping arithmetic of [compiler-rt_soft_float]
    ([absv*2.c], [addv*3.c], [subv*3.c], [negv*2.c], [mulv*3.c] over
    [int_mulv_impl.inc]), the overflow-reporting multiplication ([mulo*4.c]
    over [int_mulo_impl.inc]), negation and the half-word multiplications
    [muldi3.c] and [multi3.c].  A call of [compilerrt_abort] ends the program:
    a routine that may abort returns an [option], with [None] for the abort.
    Files that differ only in the integer type are one definition over the
    width [w] and its instances. *)

From S2P Require Import Prelude IntBits.

(** ** Trapping arithmetic *)

Definition absvXi2 (w a : Z) : option Z :=
  if a =? sshl w 1 (w - 1) then None
  else
    let t := a >>[w] (w - 1) in
    Some (ssub w (a .^ t) t).

Definition addvXi3 (w a b : Z) : option Z :=
  let s := sint w (uint w a +[w] uint w b) in
  if b >=? 0 then
    if s <? a then None else Some s
  else
    if s >=? a then None else Some s.

Definition subvXi3 (w a b : Z) : option Z :=
  let s := sint w (uint w a -[w] uint w b) in
  if b >=? 0 then
    if s >? a then None else Some s
  else
    if s <=? a then None else Some s.

Definition negvXi2 (w a : Z) : option Z :=
  let MIN := sshl w 1 (w - 1) in
  if a =? MIN then None else Some (sopp w a).

Definition __absvsi2 (a : Z) : option Z := absvXi2 32 a.
Definition __absvdi2 (a : Z) : option Z := absvXi2 64 a.
Definition __absvti2 (a : Z) : option Z := absvXi2 128 a.
Definition __addvsi3 (a b : Z) : option Z := addvXi3 32 a b.
Definition __addvdi3 (a b : Z) : option Z := addvXi3 64 a b.
Definition __addvti3 (a b : Z) : option Z := addvXi3 128 a b.
Definition __subvsi3 (a b : Z) : option Z := subvXi3 32 a b.
Definition __subvdi3 (a b : Z) : option Z := subvXi3 64 a b.
Definition __subvti3 (a b : Z) : option Z := subvXi3 128 a b.
Definition __negvsi2 (a : Z) : option Z := negvXi2 32 a.
Definition __negvdi2 (a : Z) : option Z := negvXi2 64 a.
Definition __negvti2 (a : Z) : option Z := negvXi2 128 a.
Definition __negdi2 (a : Z) : Z := sopp 64 a.
Definition __negti2 (a : Z) : Z := sopp 128 a.

(** ** Multiplication with overflow detection *)

(** The result and the value stored through [overflow]. *)
Definition __muloXi4 (N a b : Z) : Z * Z :=
  let MIN := sshl N 1 (N - 1) in
  let MAX := Z.lnot MIN in
  let overflow := 0 in
  let result := smul N a b in
  if a =? MIN then
    (result, if negb (b =? 0) && negb (b =? 1) then 1 else overflow)
  else if b =? MIN then
    (result, if negb (a =? 0) && negb (a =? 1) then 1 else overflow)
  else
    let sa := a >>[N] (N - 1) in
    let abs_a := ssub N (a .^ sa) sa in
    let sb := b >>[N] (N - 1) in
    let abs_b := ssub N (b .^ sb) sb in
    if (abs_a <? 2) || (abs_b <? 2) then (result, overflow)
    else if sa =? sb then
      (result, if abs_a >? Z.quot MAX abs_b then 1 else overflow)
    else
      (result, if abs_a >? Z.quot MIN (sopp N abs_b) then 1 else overflow).

Definition __mulvXi3 (N a b : Z) : option Z :=
  let MIN := sshl N 1 (N - 1) in
  let MAX := Z.lnot MIN in
  if a =? MIN then
    if (b =? 0) || (b =? 1) then Some (smul N a b) else None
  else if b =? MIN then
    if (a =? 0) || (a =? 1) then Some (smul N a b) else None
  else
    let sa := a >>[N] (N - 1) in
    let abs_a := ssub N (a .^ sa) sa in
    let sb := b >>[N] (N - 1) in
    let abs_b := ssub N (b .^ sb) sb in
    if (abs_a <? 2) || (abs_b <? 2) then Some (smul N a b)
    else if sa =? sb then
      if abs_a >? Z.quot MAX abs_b then None else Some (smul N a b)
    else
      if abs_a >? Z.quot MIN (sopp N abs_b) then None else Some (smul N a b).

Definition __mulosi4 (a b : Z) : Z * Z := __muloXi4 32 a b.
Definition __mulodi4 (a b : Z) : Z * Z := __muloXi4 64 a b.
Definition __muloti4 (a b : Z) : Z * Z := __muloXi4 128 a b.
Definition __mulvsi3 (a b : Z) : option Z := __mulvXi3 32 a b.
Definition __mulvdi3 (a b : Z) : option Z := __mulvXi3 64 a b.
Definition __mulvti3 (a b : Z) : option Z := __mulvXi3 128 a b.

(** ** Multiplication by half words *)

(** [__muldsi3] ([h = 32]) and [__mulddi3] ([h = 64]): the full product of
    two [h]-bit words from the products of their halves. *)
Definition mulwide (h a b : Z) : Z :=
  let bits_2 := h / 2 in
  let lower_mask := uint h (-1) >>[h] bits_2 in
  let r_low := (a .& lower_mask) *[h] (b .& lower_mask) in
  let t := r_low >>[h] bits_2 in
  let r_low := r_low .& lower_mask in
  let t := t +[h] ((a >>[h] bits_2) *[h] (b .& lower_mask)) in
  let r_low := r_low +[h] ((t .& lower_mask) <<[h] bits_2) in
  let r_high := sint h (t >>[h] bits_2) in
  let t := r_low >>[h] bits_2 in
  let r_low := r_low .& lower_mask in
  let t := t +[h] ((b >>[h] bits_2) *[h] (a .& lower_mask)) in
  let r_low := r_low +[h] ((t .& lower_mask) <<[h] bits_2) in
  let r_high := sint h (uint h r_high +[h] (t >>[h] bits_2)) in
  let r_high := sint h (uint h r_high +[h] ((a >>[h] bits_2) *[h] (b >>[h] bits_2))) in
  all_s h (mkwords r_high r_low).

(** [__muldi3] and [__multi3]: the mixed terms in unsigned arithmetic. *)
Definition mulXi3 (h a b : Z) : Z :=
  let x := words_of_all_s h a in
  let y := words_of_all_s h b in
  let r := words_of_all_s h (mulwide h (low x) (low y)) in
  let mixed := (uint h (high x) *[h] low y) +[h] (low x *[h] uint h (high y)) in
  all_s h (mkwords (sint h (uint h (high r) +[h] mixed)) (low r)).

Definition __muldsi3 (a b : Z) : Z := mulwide 32 a b.
Definition __mulddi3 (a b : Z) : Z := mulwide 64 a b.
Definition __muldi3 (a b : Z) : Z := mulXi3 32 a b.
Definition __multi3 (a b : Z) : Z := mulXi3 64 a b.

(** ** Lemmas *)

Section Checked.
Context (w : Z) (Hw : 1 < w).

Lemma min_int : sshl w 1 (w - 1) = - 2 ^ (w - 1).
Proof.
  rewrite sshl_spec by lia. apply sint_of_eqm; [lia|unfold is_sint; pose_pow2; lia|].
  rewrite Z.mul_1_l. pose proof (eqm_pow w) as E. rewrite (pow2_S w) in E by lia.
  replace (2 ^ (w - 1)) with (2 * 2 ^ (w - 1) - 2 ^ (w - 1)) at 1 by lia. now rewrite E.
Qed.

(** [(a ^ t) - t] with [t = a >> (w-1)] is [|a|], except at the minimum. *)
Lemma abs_trick a : is_sint w a -> a <> - 2 ^ (w - 1) ->
  ssub w (Z.lxor a (shr w a (w - 1))) (shr w a (w - 1)) = Z.abs a.
Proof.
  intros Ha N. rewrite shr_sign by (lia || assumption). unfold ssub. rewrite cond_negate.
  unfold is_sint in Ha. destruct (Z.ltb_spec a 0); rewrite sint_small by (unfold is_sint; lia); lia.
Qed.

(** An exact result, or an abort when it does not fit. *)
Definition exact_or_abort (v : Z) : option Z :=
  if (- 2 ^ (w - 1) <=? v) && (v <? 2 ^ (w - 1)) then Some v else None.

Lemma exact_some v : is_sint w v -> exact_or_abort v = Some v.
Proof.
  unfold is_sint, exact_or_abort. intros.
  destruct (Z.leb_spec (- 2 ^ (w - 1)) v), (Z.ltb_spec v (2 ^ (w - 1))); reflexivity || lia.
Qed.

Lemma exact_none v : ~ is_sint w v -> exact_or_abort v = None.
Proof.
  unfold is_sint, exact_or_abort. intros.
  destruct (Z.leb_spec (- 2 ^ (w - 1)) v), (Z.ltb_spec v (2 ^ (w - 1))); reflexivity || lia.
Qed.

(** The wrapped value of an out-of-range sum is a full [2^w] away. *)
Lemma sint_wrap v : - 2 ^ w <= v < 2 ^ w ->
  sint w v = if v <? - 2 ^ (w - 1) then v + 2 ^ w else if v <? 2 ^ (w - 1) then v else v - 2 ^ w.
Proof.
  intros Hv. pose proof (pow2_S w ltac:(lia)). pose proof (eqm_pow w) as E.
  repeat case_cmp; apply sint_of_eqm; try lia; try (unfold is_sint; lia); rewrite ?E;
    now rewrite ?Z.add_0_r, ?Z.sub_0_r.
Qed.

Lemma absv_spec a : is_sint w a -> absvXi2 w a = exact_or_abort (Z.abs a).
Proof.
  intros Ha. unfold absvXi2. rewrite min_int. case_cmp.
  - subst. rewrite exact_none; [reflexivity|]. unfold is_sint. pose_pow2. lia.
  - rewrite abs_trick by assumption. rewrite exact_some; [reflexivity|]. unfold is_sint in *. lia.
Qed.

Lemma negv_spec a : is_sint w a -> negvXi2 w a = exact_or_abort (- a).
Proof.
  intros Ha. unfold negvXi2. rewrite min_int. unfold is_sint in Ha. case_cmp.
  - subst. rewrite exact_none; [reflexivity|]. unfold is_sint. lia.
  - rewrite exact_some by (unfold is_sint; lia). unfold sopp. rewrite sint_small by (unfold is_sint; lia).
    reflexivity.
Qed.

Lemma addv_spec a b : is_sint w a -> is_sint w b -> addvXi3 w a b = exact_or_abort (a + b).
Proof.
  intros Ha Hb. unfold addvXi3, uadd.
  replace (sint w (uint w (uint w a + uint w b))) with (sint w (a + b))
    by (rewrite sint_uint; apply eqm_sint; now rewrite !uint_eqm).
  unfold is_sint in *. pose proof (pow2_S w ltac:(lia)). rewrite sint_wrap by lia. unfold exact_or_abort.
  destruct (Z.leb_spec (- 2 ^ (w - 1)) (a + b)), (Z.ltb_spec (a + b) (2 ^ (w - 1)));
    cbn [andb]; repeat case_cmp; lia || reflexivity.
Qed.

Lemma subv_spec a b : is_sint w a -> is_sint w b -> subvXi3 w a b = exact_or_abort (a - b).
Proof.
  intros Ha Hb. unfold subvXi3, usub.
  replace (sint w (uint w (uint w a - uint w b))) with (sint w (a - b))
    by (rewrite sint_uint; apply eqm_sint; now rewrite !uint_eqm).
  unfold is_sint in *. pose proof (pow2_S w ltac:(lia)). rewrite sint_wrap by lia. unfold exact_or_abort.
  destruct (Z.leb_spec (- 2 ^ (w - 1)) (a - b)), (Z.ltb_spec (a - b) (2 ^ (w - 1)));
    cbn [andb]; repeat case_cmp; lia || reflexivity.
Qed.
End Checked.

Section Mulo.
Context (N : Z) (HN : 1 < N).

(** [abs_a > LIM / abs_b] is [abs_a * abs_b > LIM]. *)
Lemma gt_div A B P : 0 < B -> (A >? P / B) = (A * B >? P).
Proof.
  intros HB. rewrite !Z.gtb_ltb.
  destruct (Z.ltb_spec (P / B) A), (Z.ltb_spec P (A * B)); try reflexivity; exfalso.
  - pose proof (Z.div_le_lower_bound P B A HB ltac:(lia)). lia.
  - pose proof (Z.mul_div_le P B HB). pose proof (Z.mul_le_mono_nonneg_l A (P / B) B). lia.
Qed.

Lemma shr_sign_eqb a b : is_sint N a -> is_sint N b ->
  (shr N a (N - 1) =? shr N b (N - 1)) = Bool.eqb (a <? 0) (b <? 0).
Proof. intros Ha Hb. rewrite !shr_sign by (lia || assumption). now destruct (a <? 0), (b <? 0). Qed.

(** The product of two magnitudes below [2^(N-1)], one of which is at most 1. *)
Lemma small_product a b P : - P < a < P -> - P < b < P -> Z.abs a < 2 \/ Z.abs b < 2 ->
  - P < a * b < P.
Proof. intros Ha Hb [H|H]; [assert (a = -1 \/ a = 0 \/ a = 1) as [-> | [-> | ->]] by lia
  |assert (b = -1 \/ b = 0 \/ b = 1) as [-> | [-> | ->]] by lia]; lia. Qed.

Definition fits (v : Z) : bool := (- 2 ^ (N - 1) <=? v) && (v <? 2 ^ (N - 1)).

Lemma fits_iff v : fits v = true <-> is_sint N v.
Proof. unfold fits, is_sint. rewrite andb_true_iff, Z.leb_le, Z.ltb_lt. tauto. Qed.

Lemma mulo_spec a b : is_sint N a -> is_sint N b ->
  __muloXi4 N a b = (sint N (a * b), if fits (a * b) then 0 else 1).
Proof.
  intros Ha Hb. unfold __muloXi4. rewrite min_int by lia. set (P := 2 ^ (N - 1)).
  assert (HP : 2 <= P).
  { unfold P. rewrite (pow2_S (N - 1)) by lia. pose proof (pow2_pos (N - 1 - 1) ltac:(lia)). lia. }
  assert (F : forall o v : Z, is_sint N v \/ ~ is_sint N v -> (is_sint N v -> o = 0) -> (~ is_sint N v -> o = 1) ->
              o = if fits v then 0 else 1).
  { intros o v _ H0 H1. pose proof (fits_iff v) as [F1 F2]. destruct (fits v); [auto|].
    apply H1. intros C. discriminate (F2 C). }
  assert (D : is_sint N (a * b) \/ ~ is_sint N (a * b)) by (unfold is_sint; lia).
  unfold smul. destruct (Z.eqb_spec a (- P)) as [Ea|Ea]; [|destruct (Z.eqb_spec b (- P)) as [Eb|Eb]].
  - f_equal. apply F; auto; unfold is_sint; fold P; intros R;
      destruct (Z.eqb_spec b 0), (Z.eqb_spec b 1); cbn; try reflexivity; nia.
  - f_equal. apply F; auto; unfold is_sint; fold P; intros R;
      destruct (Z.eqb_spec a 0), (Z.eqb_spec a 1); cbn; try reflexivity; nia.
  - rewrite !abs_trick by (lia || assumption). rewrite shr_sign_eqb by assumption.
    unfold is_sint in Ha, Hb; fold P in Ha, Hb.
    destruct (Z.ltb_spec (Z.abs a) 2) as [Sa|Sa]; [|destruct (Z.ltb_spec (Z.abs b) 2) as [Sb|Sb]]; cbn [orb].
    1,2: f_equal; apply F; auto; unfold is_sint; fold P;
      pose proof (small_product a b P ltac:(lia) ltac:(lia) ltac:(tauto)); lia.
    replace (Z.lnot (- P)) with (P - 1) by (unfold Z.lnot; lia).
    unfold sopp. rewrite (sint_small N (- Z.abs b)) by (lia || unfold is_sint; fold P; lia).
    rewrite Z.quot_opp_opp, !Z.quot_div_nonneg, !gt_div, !Z.gtb_ltb, <- Z.abs_mul by lia.
    assert (S : if Bool.eqb (a <? 0) (b <? 0) then 0 <= a * b else a * b <= 0)
      by (destruct (Z.ltb_spec a 0), (Z.ltb_spec b 0); cbn [Bool.eqb]; nia).
    unfold is_sint in D. set (v := a * b) in *. clearbody v.
    destruct (Bool.eqb (a <? 0) (b <? 0)); f_equal; apply F; auto;
      unfold is_sint; fold P; intros R; case_cmp; lia.
Qed.

Lemma mulv_mulo a b :
  __mulvXi3 N a b = let '(r, o) := __muloXi4 N a b in if o =? 0 then Some r else None.
Proof.
  unfold __mulvXi3, __muloXi4.
  destruct (a =? _), (b =? _), (b =? 0), (b =? 1), (a =? 0), (a =? 1); cbn; try reflexivity;
    repeat match goal with |- context [if ?c then _ else _] => destruct c; cbn end; reflexivity.
Qed.

Lemma mulv_spec a b : is_sint N a -> is_sint N b -> __mulvXi3 N a b = exact_or_abort N (a * b).
Proof.
  intros Ha Hb. rewrite mulv_mulo, mulo_spec by assumption. unfold exact_or_abort.
  pose proof (fits_iff (a * b)) as [R _]. unfold fits in *.
  destruct ((- 2 ^ (N - 1) <=? a * b) && (a * b <? 2 ^ (N - 1))); cbn; [|reflexivity].
  rewrite sint_small by (lia || now apply R). reflexivity.
Qed.
End Mulo.

Section Wide.
Context (h k : Z) (Hk : 0 < k) (Hh : h = 2 * k).

Lemma half_mask : shr h (uint h (-1)) (h / 2) = 2 ^ k - 1.
Proof.
  replace (h / 2) with k by (subst h; rewrite Z.mul_comm, Z.div_mul; lia).
  rewrite shr_spec by lia. replace (uint h (-1)) with ((2 ^ k - 1) * 2 ^ k + (2 ^ k - 1)).
  - pose_pow2. rewrite Z.div_add_l, (Z.div_small (2 ^ k - 1)) by lia. lia.
  - symmetry. apply uint_of_eqm; unfold is_uint; subst h; [rewrite pow2_double by lia; pose_pow2; nia|].
    replace ((2 ^ k - 1) * 2 ^ k + (2 ^ k - 1)) with (2 ^ k * 2 ^ k - 1) by ring.
    rewrite <- pow2_double by lia. rewrite eqm_pow. reflexivity.
Qed.

Lemma halves x : is_uint h x ->
  let M := 2 ^ k in exists x1 x0, x / M = x1 /\ x mod M = x0 /\ x = x1 * M + x0 /\ 0 <= x1 < M /\ 0 <= x0 < M.
Proof.
  intros Hx M. unfold is_uint in Hx. subst h. rewrite pow2_double in Hx by lia. fold M in Hx.
  assert (HM : 0 < M) by (apply pow2_pos; lia). exists (x / M), (x mod M).
  pose proof (Z.div_mod x M ltac:(lia)). pose proof (Z.mod_pos_bound x M HM).
  repeat split; try lia; [apply Z.div_pos|apply Z.div_lt_upper_bound]; lia.
Qed.

(** The carries of the schoolbook product, over the base [M]. *)
Lemma schoolbook M a1 a0 b1 b0 : 0 < M -> 0 <= a1 < M -> 0 <= a0 < M -> 0 <= b1 < M -> 0 <= b0 < M ->
  let p := a0 * b0 in
  let t := p / M + a1 * b0 in
  let l := p mod M + (t mod M) * M in
  let t' := l / M + b1 * a0 in
  let l' := l mod M + (t' mod M) * M in
  (0 <= p < M * M /\ 0 <= t < M * M /\ 0 <= l < M * M /\ 0 <= t' < M * M /\ 0 <= l' < M * M) /\
  (t / M + t' / M + a1 * b1) * (M * M) + l' = (a1 * M + a0) * (b1 * M + b0).
Proof.
  intros HM A1 A0 B1 B0 p t l t' l'.
  assert (0 <= p < M * M) by (unfold p; nia).
  pose proof (Z.div_mod p M ltac:(lia)) as Dp. pose proof (Z.mod_pos_bound p M HM) as Bp.
  assert (0 <= p / M < M) by (split; [apply Z.div_pos|apply Z.div_lt_upper_bound]; lia).
  assert (0 <= t < M * M) by (unfold t; nia).
  pose proof (Z.div_mod t M ltac:(lia)) as Dt. pose proof (Z.mod_pos_bound t M HM) as Bt.
  assert (0 <= l < M * M) by (unfold l; nia).
  assert (El : l / M = t mod M) by (unfold l; rewrite Z.div_add, Z.div_small by lia; lia).
  assert (Em : l mod M = p mod M) by (unfold l; rewrite Z_mod_plus_full; apply Zmod_mod).
  assert (0 <= t' < M * M) by (unfold t'; rewrite El; nia).
  pose proof (Z.div_mod t' M ltac:(lia)) as Dt'. pose proof (Z.mod_pos_bound t' M HM) as Bt'.
  assert (0 <= l' < M * M) by (unfold l'; rewrite Em; nia).
  split; [tauto|].
  assert (E' : l' = p mod M + (t' - M * (t' / M)) * M) by (unfold l'; rewrite Em; f_equal; f_equal; lia).
  rewrite E'. unfold t' at 2. rewrite El.
  replace (t mod M) with (t - M * (t / M)) by lia. unfold t at 2.
  replace (p mod M) with (p - M * (p / M)) by lia. unfold p at 1. ring.
Qed.

Lemma mulwide_spec a b : is_uint h a -> is_uint h b -> mulwide h a b = sint (2 * h) (a * b).
Proof.
  intros Ha Hb. unfold mulwide. rewrite half_mask.
  replace (h / 2) with k by (subst h; rewrite Z.mul_comm, Z.div_mul; lia).
  destruct (halves a Ha) as (a1 & a0 & Qa & Ra & Ea & Ba1 & Ba0).
  destruct (halves b Hb) as (b1 & b0 & Qb & Rb & Eb & Bb1 & Bb0).
  rewrite !land_ones_mod, !shr_spec, !ushl_spec by lia. rewrite Qa, Ra, Qb, Rb.
  pose proof (pow2_pos k ltac:(lia)) as HM.
  assert (E2 : 2 ^ h = 2 ^ k * 2 ^ k) by (subst h; apply pow2_double; lia).
  set (M := 2 ^ k) in *.
  destruct (schoolbook M a1 a0 b1 b0 HM Ba1 Ba0 Bb1 Bb0) as ((Rp & Rt & Rl & Rt' & Rl') & Eq).
  assert (S : forall x y, 0 <= x + y < M * M -> uint h (x + y) = x + y)
    by (intros; apply uint_small; unfold is_uint; lia).
  assert (T : forall x y, 0 <= x * y < M * M -> uint h (x * y) = x * y)
    by (intros; apply uint_small; unfold is_uint; lia).
  assert (B1 : forall x, 0 <= x mod M < M) by (intros; apply Z.mod_pos_bound; lia).
  unfold umul, uadd. rewrite (T a0 b0), (T a1 b0), (T b1 a0), (T a1 b1) by nia.
  rewrite (S (a0 * b0 / M)) by assumption.
  set (t := a0 * b0 / M + a1 * b0) in *. rewrite (T (t mod M)) by (pose proof (B1 t); nia).
  rewrite (S ((a0 * b0) mod M)) by assumption.
  set (l := (a0 * b0) mod M + t mod M * M) in *. rewrite (S (l / M)) by assumption.
  set (t' := l / M + b1 * a0) in *. rewrite (T (t' mod M)) by (pose proof (B1 t'); nia).
  rewrite (S (l mod M)) by assumption. set (l' := l mod M + t' mod M * M) in *.
  rewrite all_s_spec by lia. cbn [high low]. apply eqm_sint.
  rewrite (eqm_scale h ltac:(lia) _ (t / M + t' / M + a1 * b1))
    by (rewrite sint_eqm, !uint_eqm, sint_eqm, !uint_eqm, sint_eqm; reflexivity).
  rewrite E2, Eq, <- Ea, <- Eb. reflexivity.
Qed.

Lemma mulXi3_spec a b : is_sint (2 * h) a -> is_sint (2 * h) b -> mulXi3 h a b = sint (2 * h) (a * b).
Proof.
  intros Ha Hb. unfold mulXi3. rewrite mulwide_spec by (apply uint_range; lia).
  destruct (high_of_all_s h ltac:(lia) a Ha) as [-> _]. destruct (high_of_all_s h ltac:(lia) b Hb) as [-> _].
  rewrite !low_of_all_s. set (al := a mod 2 ^ h). set (bl := b mod 2 ^ h).
  pose proof (sint_range (2 * h) (al * bl) ltac:(lia)) as Rp.
  pose proof (sint_eqm (2 * h) (al * bl)) as Ep. set (p := sint (2 * h) (al * bl)) in *. clearbody p.
  destruct (high_of_all_s h ltac:(lia) p Rp) as [-> _].
  rewrite all_s_spec by lia. cbn [high low]. apply eqm_sint.
  unfold uadd, umul.
  rewrite (eqm_scale h ltac:(lia) _ (p / 2 ^ h + (a / 2 ^ h * bl + al * (b / 2 ^ h))))
    by (rewrite sint_eqm, !uint_eqm; reflexivity).
  pose proof (pow2_pos h ltac:(lia)).
  pose proof (Z.div_mod a (2 ^ h) ltac:(lia)) as Da. pose proof (Z.div_mod b (2 ^ h) ltac:(lia)) as Db.
  pose proof (Z.div_mod p (2 ^ h) ltac:(lia)) as Dp. fold al in Da. fold bl in Db.
  set (ah := a / 2 ^ h) in *. set (bh := b / 2 ^ h) in *.
  replace ((p / 2 ^ h + (ah * bl + al * bh)) * 2 ^ h + p mod 2 ^ h)
    with (p + (ah * bl + al * bh) * 2 ^ h) by lia.
  rewrite Ep, Da, Db.
  replace ((2 ^ h * ah + al) * (2 ^ h * bh + bl))
    with (al * bl + (ah * bl + al * bh) * 2 ^ h + ah * bh * (2 ^ h * 2 ^ h)) by ring.
  rewrite <- pow2_double, (eqm_mul_pow (2 * h)) by lia. now rewrite Z.add_0_r.
Qed.
End Wide.

(** ** The properties of checked and wide arithmetic *)

(** At each of the three widths, [__absv], [__negv], [__addv] and
    [__subv] return the exact result when it is representable and abort in
    every other case. *)
Theorem checked_arithmetic w a b : In w [32; 64; 128] -> is_sint w a -> is_sint w b ->
  absvXi2 w a = exact_or_abort w (Z.abs a) /\ negvXi2 w a = exact_or_abort w (- a) /\
  addvXi3 w a b = exact_or_abort w (a + b) /\ subvXi3 w a b = exact_or_abort w (a - b).
Proof.
  intros Hw Ha Hb. assert (1 < w) by (cbn in Hw; lia).
  rewrite absv_spec, negv_spec, addv_spec, subv_spec by assumption. auto.
Qed.

Lemma checked_arithmetic_witness :
  __addvsi3 2147483647 1 = None /\ __subvdi3 5 7 = Some (-2).
Proof.
  split.
  - etransitivity; [apply (checked_arithmetic 32 2147483647 1); [cbn; tauto| |]; unfold is_sint; lia|reflexivity].
  - etransitivity; [apply (checked_arithmetic 64 5 7); [cbn; tauto| |]; unfold is_sint; lia|reflexivity].
Defined.

(** [__mulo] always returns the product wrapped to the width and reports
    overflow exactly when the true product is not representable; [__mulv]
    returns the exact product or aborts, at each of the three widths. *)
Theorem checked_multiplication w a b : In w [32; 64; 128] -> is_sint w a -> is_sint w b ->
  __muloXi4 w a b = (sint w (a * b), b2z (negb (fits w (a * b)))) /\
  __mulvXi3 w a b = exact_or_abort w (a * b).
Proof.
  intros Hw Ha Hb. assert (1 < w) by (cbn in Hw; lia).
  rewrite mulo_spec, mulv_spec by assumption. now destruct (fits w (a * b)).
Qed.

Lemma checked_multiplication_witness :
  __mulodi4 (- 2 ^ 63) (-1) = (- 2 ^ 63, 1) /\ __mulvsi3 (-65536) 32768 = Some (-2147483648).
Proof.
  split.
  - etransitivity; [apply (checked_multiplication 64 (- 2 ^ 63) (-1)); [cbn; tauto| |]; unfold is_sint; lia|reflexivity].
  - etransitivity; [apply (checked_multiplication 32 (-65536) 32768); [cbn; tauto| |]; unfold is_sint; lia|reflexivity].
Defined.

(** The half-word multiplications compute the whole product: [__muldsi3]
    and [__mulddi3] the exact double-width product of two unsigned words,
    [__muldi3] and [__multi3] the signed product wrapped to 64 and 128 bits. *)
Theorem half_word_multiplication a b a' b' c d c' d' :
  is_uint 32 a -> is_uint 32 b -> is_uint 64 a' -> is_uint 64 b' ->
  is_sint 64 c -> is_sint 64 d -> is_sint 128 c' -> is_sint 128 d' ->
  uint 64 (__muldsi3 a b) = a * b /\ uint 128 (__mulddi3 a' b') = a' * b' /\
  __muldi3 c d = sint 64 (c * d) /\ __multi3 c' d' = sint 128 (c' * d').
Proof.
  intros Ha Hb Ha' Hb' **. unfold __muldsi3, __mulddi3, __muldi3, __multi3.
  rewrite (mulwide_spec 32 16), (mulwide_spec 64 32), (mulXi3_spec 32 16), (mulXi3_spec 64 32) by (lia || assumption).
  change (2 * 32) with 64. change (2 * 64) with 128. rewrite !uint_sint.
  unfold is_uint in Ha, Hb, Ha', Hb'. repeat split; apply uint_small; unfold is_uint; nia.
Qed.

Lemma half_word_multiplication_witness : __multi3 (-3) (2 ^ 100 + 7) = sint 128 ((-3) * (2 ^ 100 + 7)).
Proof.
  apply (half_word_multiplication 0 0 0 0 0 0 (-3) (2 ^ 100 + 7)); unfold is_uint, is_sint; lia.
Defined.
