(* ===== verification/IntDiv.v ===== *)
(** * Integer runtime: division

    Models the division routines of [compiler-rt_soft_float]: the
    shift-subtract division of [int_div_impl.inc] and the files that
    instantiate it, the double-word [__udivmoddi4] with its special cases,
    Knuth's Algorithm D of [udiv128by64to64default], the 128-bit
    [__udivmodti4] over it, and the signed quotients and remainders.
    A division by zero on a path that divides in hardware traps: those
    routines return an [option]. *)

From S2P Require Import Prelude IntBits.

(** ** Shift-subtract division ([int_div_impl.inc]) *)

(** The loop of [__udivXi3] and [__umodXi3]: [sr] iterations on the partial
    remainder [r], the dividend bits and quotient bits in [n], and [carry]. *)
Fixpoint udiv_loop (N d : Z) (sr : nat) (r n carry : Z) : Z * Z * Z :=
  match sr with
  | O => (r, n, carry)
  | S sr =>
      let r := (r <<[N] 1) .| (n >>[N] (N - 1)) in
      let n := (n <<[N] 1) .| carry in
      let s := sint N ((d -[N] r) -[N] 1) >>[N] (N - 1) in
      let carry := uint N (s .& 1) in
      let r := r -[N] (d .& uint N s) in
      udiv_loop N d sr r n carry
  end.

Definition __udivXi3 (N n d : Z) : Z :=
  let sr := (if nonzero d then clz N d else N) -[32] (if nonzero n then clz N n else N) in
  if sr >? N - 1 then 0
  else if sr =? N - 1 then n
  else
    let sr := sr +[32] 1 in
    let r := n >>[N] sr in
    let n := n <<[N] (N - sr) in
    let '(r, n, carry) := udiv_loop N d (Z.to_nat sr) r n 0 in
    (n <<[N] 1) .| carry.

Definition __umodXi3 (N n d : Z) : Z :=
  let sr := (if nonzero d then clz N d else N) -[32] (if nonzero n then clz N n else N) in
  if sr >? N - 1 then n
  else if sr =? N - 1 then 0
  else
    let sr := sr +[32] 1 in
    let r := n >>[N] sr in
    let n := n <<[N] (N - sr) in
    let '(r, n, carry) := udiv_loop N d (Z.to_nat sr) r n 0 in
    r.

Definition __udivsi3 (a b : Z) : Z := __udivXi3 32 a b.
Definition __udivdi3 (a b : Z) : Z := __udivXi3 64 a b.
Definition __umodsi3 (a b : Z) : Z := __umodXi3 32 a b.
Definition __umoddi3 (a b : Z) : Z := __umodXi3 64 a b.

(** The quotient and the value stored in [*rem]. *)
Definition __udivmodsi4 (a b : Z) : Z * Z :=
  let d := sint 32 (__udivsi3 a b) in
  (uint 32 d, a -[32] (uint 32 d *[32] b)).

(** ** [udivmoddi4.c]

    The final loop on the two words of [r] and [q]. *)
Fixpoint udivmoddi4_loop (d : Z) (sr : nat) (r q : words) (carry : Z) : words * words * Z :=
  match sr with
  | O => (r, q, carry)
  | S sr =>
      let r_high := (high r <<[32] 1) .| (low r >>[32] 31) in
      let r_low := (low r <<[32] 1) .| (high q >>[32] 31) in
      let q_high := (high q <<[32] 1) .| (low q >>[32] 31) in
      let q_low := (low q <<[32] 1) .| carry in
      let r_all := all_u 32 (mkwords r_high r_low) in
      let s := sint 64 ((d -[64] r_all) -[64] 1) >>[64] 63 in
      let carry := uint 32 (s .& 1) in
      let r := udwords (r_all -[64] (d .& uint 64 s)) in
      udivmoddi4_loop d sr r (mkwords q_high q_low) carry
  end.

Definition udivmoddi4_tail (d sr : Z) (q r : words) : Z * Z :=
  let '(r, q, carry) := udivmoddi4_loop d (Z.to_nat sr) r q 0 in
  ((all_u 32 q <<[64] 1) .| carry, all_u 32 r).

(** The quotient and the value stored in [*rem] when [rem] is not null. *)
Definition __udivmoddi4 (a b : Z) : option (Z * Z) :=
  let n := udwords a in
  let d := udwords b in
  if high n =? 0 then
    if high d =? 0 then
      let? rem := c_umod (low n) (low d) in
      let? quo := c_udiv (low n) (low d) in
      Some (quo, rem)
    else Some (0, low n)
  else if low d =? 0 then
    if high d =? 0 then
      let? rem := c_umod (high n) (low d) in
      let? quo := c_udiv (high n) (low d) in
      Some (quo, rem)
    else if low n =? 0 then
      Some (high n / high d, all_u 32 (mkwords (high n mod high d) 0))
    else if (high d .& (high d -[32] 1)) =? 0 then
      Some (high n >>[32] ctz (high d), all_u 32 (mkwords (high n .& (high d -[32] 1)) (low n)))
    else
      let sr := clz 32 (high d) -[32] clz 32 (high n) in
      if sr >? 30 then Some (0, a)
      else
        let sr := sr +[32] 1 in
        let q := mkwords (low n <<[32] (32 - sr)) 0 in
        let r := mkwords (high n >>[32] sr) ((high n <<[32] (32 - sr)) .| (low n >>[32] sr)) in
        Some (udivmoddi4_tail b sr q r)
  else if high d =? 0 then
    if (low d .& (low d -[32] 1)) =? 0 then
      let rem := low n .& (low d -[32] 1) in
      if low d =? 1 then Some (a, rem)
      else
        let sr := ctz (low d) in
        let q := mkwords (high n >>[32] sr) ((high n <<[32] (32 - sr)) .| (low n >>[32] sr)) in
        Some (all_u 32 q, rem)
    else
      let sr := ((1 +[32] 32) +[32] clz 32 (low d)) -[32] clz 32 (high n) in
      if sr =? 32 then
        Some (udivmoddi4_tail b sr (mkwords (low n) 0) (mkwords 0 (high n)))
      else if sr <? 32 then
        let q := mkwords (low n <<[32] (32 - sr)) 0 in
        let r := mkwords (high n >>[32] sr) ((high n <<[32] (32 - sr)) .| (low n >>[32] sr)) in
        Some (udivmoddi4_tail b sr q r)
      else
        let q := mkwords ((high n <<[32] (64 - sr)) .| (low n >>[32] (sr - 32))) (low n <<[32] (64 - sr)) in
        let r := mkwords 0 (high n >>[32] (sr - 32)) in
        Some (udivmoddi4_tail b sr q r)
  else
    let sr := clz 32 (high d) -[32] clz 32 (high n) in
    if sr >? 31 then Some (0, a)
    else
      let sr := sr +[32] 1 in
      if sr =? 32 then
        Some (udivmoddi4_tail b sr (mkwords (low n) 0) (mkwords 0 (high n)))
      else
        let q := mkwords (low n <<[32] (32 - sr)) 0 in
        let r := mkwords (high n >>[32] sr) ((high n <<[32] (32 - sr)) .| (low n >>[32] sr)) in
        Some (udivmoddi4_tail b sr q r).

(** ** [udivmodti4.c] *)

(** One of the two quotient-digit corrections of Algorithm D:
    [while (q >= b || q * vn0 > b * rhat + un) { q--; rhat += vn1;
    if (rhat >= b) break; }].  [fuel] bounds the iterations; [None] is a loop
    that ran longer. *)
Fixpoint correct_digit (fuel : nat) (b vn1 vn0 un q rhat : Z) : option Z :=
  match fuel with
  | O => None
  | S fuel =>
      if (q >=? b) || ((q *[64] vn0) >? ((b *[64] rhat) +[64] un)) then
        let q := q -[64] 1 in
        let rhat := rhat +[64] vn1 in
        if rhat >=? b then Some q else correct_digit fuel b vn1 vn0 un q rhat
      else Some q
  end.

(** The comments promise at most two iterations; the loop is given two. *)
Definition udiv128by64to64default (u1 u0 v : Z) : option (Z * Z) :=
  let b := 1 <<[64] (64 / 2) in
  let s := clz 64 v in
  let '(v, un64, un10) :=
    if s >? 0 then (v <<[64] s, (u1 <<[64] s) .| (u0 >>[64] (64 - s)), u0 <<[64] s)
    else (v, u1, u0) in
  let vn1 := v >>[64] (64 / 2) in
  let vn0 := v .& 0xFFFFFFFF in
  let un1 := un10 >>[64] (64 / 2) in
  let un0 := un10 .& 0xFFFFFFFF in
  let q1 := un64 / vn1 in
  let rhat := un64 -[64] (q1 *[64] vn1) in
  let? q1 := correct_digit 2 b vn1 vn0 un1 q1 rhat in
  let un21 := ((un64 *[64] b) +[64] un1) -[64] (q1 *[64] v) in
  let q0 := un21 / vn1 in
  let rhat := un21 -[64] (q0 *[64] vn1) in
  let? q0 := correct_digit 2 b vn1 vn0 un0 q0 rhat in
  Some ((q1 *[64] b) +[64] q0, (((un21 *[64] b) +[64] un0) -[64] (q0 *[64] v)) >>[64] s).

(** The x86-64 build uses the [divq] instruction instead: [u1:u0 / v], which
    faults when [v] is 0 or the quotient does not fit in 64 bits. *)
Definition divq (u1 u0 v : Z) : option (Z * Z) :=
  let u := u1 * 2 ^ 64 + u0 in
  if (v =? 0) || (u / v >=? 2 ^ 64) then None else Some (u / v, u mod v).

(** What [__udivmodti4] needs of [udiv128by64to64], whichever build it is. *)
Class Udiv128 := {
  udiv128by64to64 : Z -> Z -> Z -> option (Z * Z);
  udiv128_exact : forall u1 u0 v, is_uint 64 u0 -> is_uint 64 v -> 0 <= u1 < v ->
    udiv128by64to64 u1 u0 v = Some ((u1 * 2 ^ 64 + u0) / v, (u1 * 2 ^ 64 + u0) mod v) }.

(** [for (; shift >= 0; --shift)]: [n] is [shift + 1]. *)
Fixpoint udivmodti4_loop (n : nat) (dividend divisor quotient_low : Z) : Z * Z :=
  match n with
  | O => (quotient_low, dividend)
  | S n =>
      let quotient_low := quotient_low <<[64] 1 in
      let s := sint 128 ((divisor -[128] dividend) -[128] 1) >>[128] 127 in
      let quotient_low := uint 64 (uint 128 quotient_low .| uint 128 (s .& 1)) in
      let dividend := dividend -[128] (divisor .& uint 128 s) in
      let divisor := divisor >>[128] 1 in
      udivmodti4_loop n dividend divisor quotient_low
  end.

Definition __udivmodti4 `{Udiv128} (a b : Z) : option (Z * Z) :=
  let dividend := utwords a in
  let divisor := utwords b in
  if b >? a then Some (0, a)
  else if high divisor =? 0 then
    if high dividend <? low divisor then
      let? (q_low, r_low) := udiv128by64to64 (high dividend) (low dividend) (low divisor) in
      Some (all_u 64 (mkwords 0 q_low), all_u 64 (mkwords 0 r_low))
    else
      let? q_high := c_udiv (high dividend) (low divisor) in
      let? d_high := c_umod (high dividend) (low divisor) in
      let? (q_low, r_low) := udiv128by64to64 d_high (low dividend) (low divisor) in
      Some (all_u 64 (mkwords q_high q_low), all_u 64 (mkwords 0 r_low))
  else
    let shift := ssub 32 (clz 64 (high divisor)) (clz 64 (high dividend)) in
    let '(q_low, rem) := udivmodti4_loop (Z.to_nat (shift + 1)) a (b <<[128] shift) 0 in
    Some (all_u 64 (mkwords 0 q_low), rem).

Definition __udivti3 `{Udiv128} (a b : Z) : option Z :=
  let? (q, r) := __udivmodti4 a b in Some q.
Definition __umodti3 `{Udiv128} (a b : Z) : option Z :=
  let? (q, r) := __udivmodti4 a b in Some r.

(** ** Signed division

    [__divXi3] and [__modXi3] over the unsigned routine their file names. *)
Definition __divXi3 (w : Z) (COMPUTE_UDIV : Z -> Z -> option Z) (a b : Z) : option Z :=
  let N := w - 1 in
  let s_a := a >>[w] N in
  let s_b := b >>[w] N in
  let a_u := uint w (a .^ s_a) +[w] uint w (sopp w s_a) in
  let b_u := uint w (b .^ s_b) +[w] uint w (sopp w s_b) in
  let s_a := s_a .^ s_b in
  let? q := COMPUTE_UDIV a_u b_u in
  Some (sint w ((q .^ uint w s_a) +[w] uint w (sopp w s_a))).

Definition __modXi3 (w : Z) (UMOD : Z -> Z -> option Z) (a b : Z) : option Z :=
  let N := w - 1 in
  let s := b >>[w] N in
  let b_u := uint w (b .^ s) +[w] uint w (sopp w s) in
  let s := a >>[w] N in
  let a_u := uint w (a .^ s) +[w] uint w (sopp w s) in
  let? res := UMOD a_u b_u in
  Some (sint w ((res .^ uint w s) +[w] uint w (sopp w s))).

Definition __divsi3 (a b : Z) : option Z := __divXi3 32 c_udiv a b.
Definition __divdi3 (a b : Z) : option Z :=
  __divXi3 64 (fun a b => let? (q, r) := __udivmoddi4 a b in Some q) a b.
Definition __divti3 `{Udiv128} (a b : Z) : option Z :=
  __divXi3 128 (fun a b => let? (q, r) := __udivmodti4 a b in Some q) a b.
Definition __modsi3 (a b : Z) : option Z :=
  let? q := __divsi3 a b in Some (ssub 32 a (smul 32 q b)).
Definition __moddi3 (a b : Z) : option Z :=
  __modXi3 64 (fun a b => let? (q, r) := __udivmoddi4 a b in Some r) a b.
Definition __modti3 `{Udiv128} (a b : Z) : option Z :=
  __modXi3 128 (fun a b => let? (q, r) := __udivmodti4 a b in Some r) a b.

(** [divmodsi4.c], [divmoddi4.c] and [divmodti4.c]: the quotient and [*rem]. *)
Definition divmodXi4 (w : Z) (UDIVMOD : Z -> Z -> option (Z * Z)) (a b : Z) : option (Z * Z) :=
  let s_a := a >>[w] (w - 1) in
  let s_b := b >>[w] (w - 1) in
  let a := ssub w (a .^ s_a) s_a in
  let b := ssub w (b .^ s_b) s_b in
  let s_b := s_b .^ s_a in
  let? (q, r) := UDIVMOD (uint w a) (uint w b) in
  let q := sint w ((q .^ uint w s_b) -[w] uint w s_b) in
  Some (q, sint w ((r .^ uint w s_a) -[w] uint w s_a)).

Definition __divmodsi4 (a b : Z) : option (Z * Z) :=
  divmodXi4 32 (fun a b => Some (__udivmodsi4 a b)) a b.
Definition __divmoddi4 (a b : Z) : option (Z * Z) := divmodXi4 64 __udivmoddi4 a b.
Definition __divmodti4 `{Udiv128} (a b : Z) : option (Z * Z) := divmodXi4 128 __udivmodti4 a b.

(** ** The shift-subtract loop *)

Section SignTest.
Context (N : Z) (HN : 1 < N).

(** [(fixint_t)(d - r - 1) >> (N - 1)] is all ones exactly when [r >= d], as
    long as the difference of the two stays below half the range. *)
Lemma sign_test d r : is_uint N d -> is_uint N r -> d <= 2 ^ (N - 1) \/ 2 ^ (N - 1) <= r -> r < 2 * d ->
  shr N (sint N (usub N (usub N d r) 1)) (N - 1) = if d <=? r then -1 else 0.
Proof.
  unfold is_uint. intros Hd Hr Hh Hlt. pose proof (pow2_S N ltac:(lia)) as P.
  assert (E : sint N (usub N (usub N d r) 1) = d - r - 1).
  { unfold usub. apply sint_of_eqm; [lia|unfold is_sint; lia|]. now rewrite !uint_eqm. }
  rewrite E, shr_sign by (lia || unfold is_sint; lia).
  destruct (Z.ltb_spec (d - r - 1) 0), (Z.leb_spec d r); lia.
Qed.

Lemma masked_sub d r (c : bool) : is_uint N d -> is_uint N r -> (c = true -> d <= r) ->
  usub N r (Z.land d (uint N (if c then -1 else 0))) = r - (if c then d else 0).
Proof.
  unfold is_uint. intros Hd Hr Hc. unfold usub. destruct c.
  - unfold uint at 2. rewrite <- Z.land_ones, Z.land_m1_l, Z.land_ones, (Z.mod_small d) by lia.
    apply uint_small. unfold is_uint. lia.
  - unfold uint at 2. rewrite Zmod_0_l, Z.land_0_r, Z.sub_0_r. now apply uint_small.
Qed.

(** [(x << 1) | b] for a bit [b]. *)
Lemma shl1_or x b : 0 <= b <= 1 -> Z.lor (ushl N x 1) b = uint N (2 * x) + b.
Proof.
  intros Hb. rewrite ushl_spec by lia.
  assert (E : uint N (2 * x) = x mod 2 ^ (N - 1) * 2 ^ 1).
  { unfold uint. rewrite (pow2_S N), Z.mul_mod_distr_l by (try apply Z.pow_nonzero; lia). lia. }
  change (2 ^ 1) with 2 at 1. rewrite (Z.mul_comm x), E. apply lor_add_disjoint; lia.
Qed.
End SignTest.

Section Loop.
Context (N d : Z) (HN : 1 < N) (Hd : 0 < d < 2 ^ N).

(** One iteration brings the next dividend bit into [r] and subtracts. *)
Lemma udiv_step r n carry b m : 0 <= r < d -> 0 <= carry <= 1 -> n = b * 2 ^ (N - 1) + m ->
  0 <= b <= 1 -> 0 <= m < 2 ^ (N - 1) -> 2 * r + b < 2 ^ N -> d <= 2 ^ (N - 1) \/ 2 ^ (N - 1) <= 2 * r + b ->
  forall k, udiv_loop N d (S k) r n carry =
    let c := d <=? 2 * r + b in
    udiv_loop N d k (2 * r + b - (if c then d else 0)) (2 * m + carry) (b2z c).
Proof.
  intros Hr Hc -> Hb Hm Hlt Hs k. cbn [udiv_loop]. pose proof (pow2_S N ltac:(lia)) as P.
  assert (E1 : shr N (b * 2 ^ (N - 1) + m) (N - 1) = b)
    by (rewrite shr_spec, Z.div_add_l, Z.div_small by lia; lia).
  rewrite E1, !shl1_or by lia.
  replace (uint N (2 * r)) with (2 * r) by (symmetry; apply uint_small; unfold is_uint; lia).
  replace (uint N (2 * (b * 2 ^ (N - 1) + m))) with (2 * m).
  2:{ symmetry. apply uint_of_eqm; [unfold is_uint; lia|].
      replace (2 * (b * 2 ^ (N - 1) + m)) with (b * 2 ^ N + 2 * m) by lia. now rewrite eqm_mul_pow. }
  rewrite sign_test by (lia || unfold is_uint; lia). cbv zeta.
  rewrite masked_sub by (try (unfold is_uint; lia); rewrite Z.leb_le; lia).
  f_equal. destruct (Z.leb_spec d (2 * r + b)); [|reflexivity].
  change (uint N 1 = 1). apply uint_small. unfold is_uint. pose proof (pow2_pos (N - 1) ltac:(lia)). lia.
Qed.

(** The invariant: with [k] bits [m] of the dividend left, [n] holds them
    above the quotient bits [Q] found so far, the last of them in [carry]. *)
Lemma udiv_loop_inv k : forall r n carry m Q,
  Z.of_nat k <= N -> 0 <= r < d -> 0 <= carry <= 1 ->
  0 <= m < 2 ^ Z.of_nat k -> 0 <= Q < 2 ^ (N - Z.of_nat k) -> n = m * 2 ^ (N - Z.of_nat k) + Q ->
  r * 2 ^ Z.of_nat k + m < 2 ^ N ->
  d <= 2 ^ (N - 1) \/ k = O \/ k = 1%nat /\ 2 ^ (N - 1) <= 2 * r + m ->
  let T := r * 2 ^ Z.of_nat k + m in
  exists n' carry', udiv_loop N d k r n carry = (T mod d, n', carry') /\ 0 <= carry' <= 1 /\
    2 * n' + carry' = (2 * Q + carry) * 2 ^ Z.of_nat k + T / d.
Proof.
  induction k as [|k IH]; intros r n carry m Q Hk Hr Hc Hm HQ En HT Hs T.
  - exists n, carry. cbn [Z.of_nat] in *. change (2 ^ 0) with 1 in *. rewrite Z.sub_0_r in *.
    assert (T = r) by (unfold T; lia). rewrite H, Z.mod_small, Z.div_small by lia.
    cbn [udiv_loop]. split; [reflexivity|]. nia.
  - assert (P1 : 2 ^ Z.of_nat (S k) = 2 * 2 ^ Z.of_nat k) by (rewrite Nat2Z.inj_succ, Z.pow_succ_r; lia).
    assert (P2 : 2 ^ (N - Z.of_nat k) = 2 * 2 ^ (N - Z.of_nat (S k)))
      by (rewrite (pow2_S (N - Z.of_nat k)) by lia; do 2 f_equal; lia).
    assert (P3 : 2 ^ (N - 1) = 2 ^ Z.of_nat k * 2 ^ (N - Z.of_nat (S k)))
      by (rewrite <- pow2_split by lia; f_equal; lia).
    pose proof (pow2_pos (Z.of_nat k) ltac:(lia)) as Hp. set (p := 2 ^ Z.of_nat k) in *.
    set (w := 2 ^ (N - Z.of_nat (S k))) in *. rewrite P1 in *.
    set (b := m / p). set (m' := m mod p).
    assert (Em : m = b * p + m') by (unfold b, m'; rewrite Z.mul_comm; apply Z.div_mod; lia).
    assert (Hm' : 0 <= m' < p) by (apply Z.mod_pos_bound; lia).
    assert (Hb : 0 <= b <= 1).
    { unfold b. split; [apply Z.div_pos; lia|]. apply Z.lt_succ_r, Z.div_lt_upper_bound; lia. }
    assert (Hrb : (2 * r + b) * p + m' < 2 ^ N) by nia.
    assert (Hrb2 : 2 * r + b < 2 ^ N) by nia.
    rewrite (udiv_step r n carry b (m' * w + Q)); try lia; try nia.
    2:{ destruct Hs as [|[K|[K S]]]; [now left|lia|right]. assert (k = 0)%nat by lia. subst k. unfold p in *.
        change (2 ^ Z.of_nat 0) with 1 in *. lia. }
    cbv zeta. set (c := d <=? 2 * r + b). set (r' := 2 * r + b - (if c then d else 0)).
    assert (Hr' : 0 <= r' < d) by (unfold r', c; destruct (Z.leb_spec d (2 * r + b)); lia).
    destruct (IH r' (2 * (m' * w + Q) + carry) (b2z c) m' (2 * Q + carry)) as (n' & c' & E & Hc' & Eq);
      try lia; try (unfold b2z; destruct c; lia); try nia.
    exists n', c'. rewrite E.
    assert (ET : T = (r' * p + m') + (if c then p else 0) * d) by (unfold T, r'; rewrite P1, Em; destruct c; ring).
    rewrite ET, Z_mod_plus_full, Z.div_add, Eq by lia. repeat split; try lia.
    destruct c; cbn [b2z]; ring.
Qed.

(** [sr = clz(d) - clz(n) + 1] leaves a partial remainder below [d]. *)
Lemma start_below n sr : 0 < n -> sr = Z.log2 n - Z.log2 d + 1 -> 0 <= sr -> n / 2 ^ sr < d.
Proof.
  intros Hn Hsr H0. pose proof (log2_bounds n Hn) as Bn. pose proof (log2_bounds d ltac:(lia)) as Bd.
  pose proof (Z.log2_nonneg d). apply Z.div_lt_upper_bound; [apply pow2_pos; lia|].
  replace (2 * 2 ^ Z.log2 n) with (2 ^ sr * 2 ^ Z.log2 d) in Bn; [pose proof (pow2_pos sr H0); nia|].
  rewrite <- pow2_split, <- Z.pow_succ_r by (try apply Z.log2_nonneg; lia). f_equal. lia.
Qed.

(** From [r = n >> sr] and [n << (N - sr)] the loop divides [n] by [d]. *)
Lemma udiv_loop_correct n sr : 0 < n < 2 ^ N -> sr = Z.log2 n - Z.log2 d + 1 -> 1 <= sr <= N ->
  exists n' carry, udiv_loop N d (Z.to_nat sr) (n / 2 ^ sr) (uint N (n * 2 ^ (N - sr))) 0 = (n mod d, n', carry)
    /\ 0 <= carry <= 1 /\ 2 * n' + carry = n / d /\ 0 <= n / d < 2 ^ N.
Proof.
  intros Hn Hsr Hr. set (k := Z.to_nat sr). assert (Ek : Z.of_nat k = sr) by (unfold k; lia).
  pose proof (pow2_pos sr ltac:(lia)) as Hp. pose proof (Z.div_mod n (2 ^ sr) ltac:(lia)) as D.
  pose proof (Z.mod_pos_bound n (2 ^ sr) Hp) as M.
  assert (E : uint N (n * 2 ^ (N - sr)) = n mod 2 ^ sr * 2 ^ (N - sr)).
  { unfold uint. replace (2 ^ N) with (2 ^ sr * 2 ^ (N - sr)) by (rewrite <- pow2_split by lia; f_equal; lia).
    apply Zmult_mod_distr_r. }
  destruct (udiv_loop_inv k (n / 2 ^ sr) (uint N (n * 2 ^ (N - sr))) 0 (n mod 2 ^ sr) 0)
    as (n' & c & L & Hc & Eq); rewrite ?Ek; try lia.
  - split; [apply Z.div_pos; lia|]. apply start_below; lia.
  - destruct (Z.le_gt_cases d (2 ^ (N - 1))) as [|G]; [now left|right; right].
    assert (Ld : Z.log2 d = N - 1).
    { apply Z.log2_unique; [lia|]. replace (Z.succ (N - 1)) with N by lia. lia. }
    assert (Z.log2 n < N) by (apply Z.log2_lt_pow2; lia).
    assert (sr = 1) as S1 by lia. split; [unfold k; lia|].
    assert (Ln : Z.log2 n = N - 1) by lia. pose proof (log2_bounds n ltac:(lia)) as B. rewrite Ln in B.
    rewrite S1 in *. change (2 ^ 1) with 2 in *. lia.
  - exists n', c. rewrite Ek in Eq, L. rewrite (Z.mul_comm (n / _)), <- D in L, Eq. rewrite L. repeat split; try lia.
    + apply Z.div_pos; lia.
    + apply Z.div_lt_upper_bound; nia.
Qed.
End Loop.

Section Unsigned.
Context (N n d : Z) (HN : N = 32 \/ N = 64) (Hn : is_uint N n) (Hd : is_uint N d) (Hd0 : d <> 0).

(** The [sr] of [__udivXi3]: the difference of the bit lengths, or a value
    above [N - 1] when the dividend is shorter. *)
Lemma start_count : n <> 0 ->
  let sr := usub 32 (clz N d) (clz N n) in
  if Z.log2 n <? Z.log2 d then N - 1 < sr else sr = Z.log2 n - Z.log2 d /\ 0 <= sr < N.
Proof.
  intros N0 sr. unfold is_uint in *. pose proof (log2_lt_width N n ltac:(lia)).
  pose proof (log2_lt_width N d ltac:(lia)). subst sr. unfold usub, clz.
  replace (N - 1 - Z.log2 d - (N - 1 - Z.log2 n)) with (Z.log2 n - Z.log2 d) by lia.
  destruct (Z.ltb_spec (Z.log2 n) (Z.log2 d)).
  - rewrite uint_cases by (lia || unfold is_sint; lia).
    destruct (Z.ltb_spec (Z.log2 n - Z.log2 d) 0); lia.
  - rewrite uint_small by (unfold is_uint; lia). lia.
Qed.

Lemma udivXi3_spec : __udivXi3 N n d = n / d /\ __umodXi3 N n d = n mod d.
Proof.
  unfold __udivXi3, __umodXi3, nonzero. replace (d =? 0) with false by (symmetry; now apply Z.eqb_neq). cbn [negb].
  unfold is_uint in Hn, Hd. pose proof (log2_lt_width N d ltac:(lia)) as Ld.
  destruct (Z.eqb_spec n 0) as [E|N0]; cbn [negb].
  { subst n. rewrite Z.div_0_l, Zmod_0_l by assumption. unfold usub, clz.
    rewrite uint_cases by (lia || unfold is_sint; lia). repeat case_cmp; lia. }
  pose proof (start_count N0) as S. cbv zeta in S. set (sr := usub 32 (clz N d) (clz N n)) in *.
  destruct (Z.ltb_spec (Z.log2 n) (Z.log2 d)) as [L|L].
  { pose proof (Z.log2_lt_cancel n d L).
    rewrite Z.gtb_ltb. destruct (Z.ltb_spec (N - 1) sr); [|lia]. now rewrite Z.div_small, Z.mod_small by lia. }
  destruct S as [Es Hs]. rewrite Z.gtb_ltb. destruct (Z.ltb_spec (N - 1) sr); [lia|].
  pose proof (log2_lt_width N n ltac:(lia)). destruct (Z.eqb_spec sr (N - 1)).
  { assert (L0 : Z.log2 d = 0) by lia. pose proof (log2_bounds d ltac:(lia)) as B. rewrite L0 in B.
    change (2 ^ 0) with 1 in B. assert (d = 1) as -> by lia. now rewrite Z.div_1_r, Z.mod_1_r. }
  unfold uadd. rewrite uint_small by (unfold is_uint; lia). rewrite shr_spec, ushl_spec by lia.
  destruct (udiv_loop_correct N d ltac:(lia) ltac:(lia) n (sr + 1)) as (n' & c & -> & Hc & Eq & R); try lia.
  rewrite shl1_or by lia. split; [|reflexivity]. rewrite uint_small by (unfold is_uint; lia). exact Eq.
Qed.
End Unsigned.

(** ** [__udivmoddi4] *)

Section Udivmoddi4.

Definition words_ok (h : Z) (x : words) : Prop := is_uint h (high x) /\ is_uint h (low x).

Lemma all_u_ok h x : 0 < h -> words_ok h x ->
  all_u h x = high x * 2 ^ h + low x /\ is_uint (2 * h) (all_u h x).
Proof.
  intros Hh [H L]. rewrite all_u_spec by lia. unfold is_uint in H, L.
  assert (R : is_uint (2 * h) (high x * 2 ^ h + low x)) by (unfold is_uint; rewrite pow2_double by lia; nia).
  rewrite uint_small by assumption. auto.
Qed.

Lemma words_of_all_u_ok h x : 0 < h -> words_ok h (words_of_all_u h x).
Proof. intros. split; apply uint_range; lia. Qed.

Lemma all_u_words h x : 0 < h -> is_uint (2 * h) x -> all_u h (words_of_all_u h x) = x.
Proof.
  intros Hh Hx. rewrite (proj1 (all_u_ok h _ Hh (words_of_all_u_ok h x Hh))).
  destruct (high_of_all_u h Hh x Hx) as [-> _]. cbn [low words_of_all_u]. unfold uint.
  pose proof (pow2_pos h ltac:(lia)). rewrite Z.mul_comm, <- Z.div_mod by lia. reflexivity.
Qed.

Lemma top_bit N x : 1 < N -> is_uint N x -> 0 <= shr N x (N - 1) <= 1.
Proof.
  unfold is_uint. intros HN Hx. pose proof (pow2_S N ltac:(lia)). pose proof (pow2_pos (N - 1) ltac:(lia)).
  rewrite shr_spec by lia. split; [apply Z.div_pos; lia|]. apply Z.lt_succ_r, Z.div_lt_upper_bound; lia.
Qed.

Lemma shl1_or_range N x b : 1 < N -> 0 <= b <= 1 -> is_uint N (Z.lor (ushl N x 1) b).
Proof.
  intros HN Hb. rewrite shl1_or by lia. unfold is_uint, uint.
  rewrite (pow2_S N), Z.mul_mod_distr_l by (try apply Z.pow_nonzero; lia).
  pose proof (pow2_pos (N - 1) ltac:(lia)). pose proof (Z.mod_pos_bound x (2 ^ (N - 1)) ltac:(lia)). lia.
Qed.

(** A double word shifted left by one with a bit coming in, word by word. *)
Lemma shl1_words h x b : 1 < h -> words_ok h x -> 0 <= b <= 1 ->
  let y := mkwords (Z.lor (ushl h (high x) 1) (shr h (low x) (h - 1))) (Z.lor (ushl h (low x) 1) b) in
  words_ok h y /\ all_u h y = Z.lor (ushl (2 * h) (all_u h x) 1) b.
Proof.
  intros Hh Hx Hb y. pose proof Hx as [HH HL].
  pose proof (top_bit h (low x) ltac:(lia) HL) as Ht.
  assert (Hy : words_ok h y) by (split; apply shl1_or_range; lia).
  split; [assumption|]. destruct (all_u_ok h y ltac:(lia) Hy) as [_ Ry].
  apply eqm_uint_eq with (2 * h); [assumption|apply shl1_or_range; lia|].
  rewrite (proj1 (all_u_ok h y ltac:(lia) Hy)). unfold y. cbn [high low].
  rewrite !shl1_or, (proj1 (all_u_ok h x ltac:(lia) Hx)) by lia.
  rewrite (eqm_scale h ltac:(lia) (uint h (2 * high x) + shr h (low x) (h - 1)) (2 * high x + shr h (low x) (h - 1)))
    by (now rewrite uint_eqm).
  pose proof (uint_shl h ltac:(lia) (low x) 1 ltac:(lia)) as U. change (2 ^ 1) with 2 in U.
  rewrite (Z.mul_comm 2 (low x)), U, shr_spec by lia.
  rewrite uint_eqm. match goal with |- eqm _ ?x ?y => replace x with y by ring end. reflexivity.
Qed.

Lemma udivmoddi4_loop_eq d k : forall r q carry, words_ok 32 r -> words_ok 32 q -> 0 <= carry <= 1 ->
  let '(r', q', c') := udivmoddi4_loop d k r q carry in
  words_ok 32 r' /\ words_ok 32 q' /\
  udiv_loop 64 d k (all_u 32 r) (all_u 32 q) carry = (all_u 32 r', all_u 32 q', c').
Proof.
  induction k as [|k IH]; intros r q carry Hr Hq Hc; [cbn; auto|].
  cbn [udivmoddi4_loop udiv_loop].
  pose proof (top_bit 32 (high q) ltac:(lia) (proj1 Hq)) as Bq.
  destruct (shl1_words 32 r (shr 32 (high q) 31) ltac:(lia) Hr Bq) as [_ Er].
  destruct (shl1_words 32 q carry ltac:(lia) Hq Hc) as [Oq Eq].
  change (32 - 1) with 31 in *. change (2 * 32) with 64 in *. change (64 - 1) with 63 in *.
  assert (T : shr 64 (all_u 32 q) 63 = shr 32 (high q) 31).
  { rewrite (proj1 (all_u_ok 32 q ltac:(lia) Hq)), !shr_spec by lia. change (2 ^ 63) with (2 ^ 32 * 2 ^ 31).
    destruct Hq as [_ HL]. unfold is_uint in HL. rewrite <- Z.div_div, Z.div_add_l, (Z.div_small (low q)) by lia.
    now rewrite Z.add_0_r. }
  rewrite T, <- Er, <- Eq. set (r1 := all_u 32 (mkwords _ (_ .| shr 32 (high q) 31))).
  set (q1 := mkwords _ (_ .| carry)) in *. set (s := shr 64 (sint 64 _) 63).
  assert (C : uint 32 (Z.land s 1) = uint 64 (Z.land s 1) /\ 0 <= uint 32 (Z.land s 1) <= 1).
  { pose proof (land_nonneg_le s 1 ltac:(lia)). rewrite !uint_small by (unfold is_uint; lia). lia. }
  destruct C as [C Hc']. rewrite <- C.
  specialize (IH (udwords (r1 -[64] (d .& uint 64 s))) q1 (uint 32 (Z.land s 1))
    (words_of_all_u_ok 32 _ ltac:(lia)) Oq Hc').
  destruct (udivmoddi4_loop d k _ q1 _) as [[r' q'] c']. destruct IH as (Or & Oq' & E).
  unfold udwords in E. rewrite all_u_words in E by (lia || apply uint_range; lia). auto.
Qed.

(** The tail divides, whichever branch set up [r] and [q]. *)
Lemma udivmoddi4_tail_spec n d sr q r : 0 < n < 2 ^ 64 -> 0 < d < 2 ^ 64 ->
  sr = Z.log2 n - Z.log2 d + 1 -> 1 <= sr <= 64 -> words_ok 32 q -> words_ok 32 r ->
  all_u 32 r = n / 2 ^ sr -> all_u 32 q = uint 64 (n * 2 ^ (64 - sr)) ->
  udivmoddi4_tail d sr q r = (n / d, n mod d).
Proof.
  intros Hn Hd Hsr Hr Oq Or Er Eq. unfold udivmoddi4_tail.
  pose proof (udivmoddi4_loop_eq d (Z.to_nat sr) r q 0 Or Oq ltac:(lia)) as L.
  destruct (udivmoddi4_loop _ _ _ _ _) as [[r' q'] c']. destruct L as (Or' & Oq' & E). rewrite Er, Eq in E.
  destruct (udiv_loop_correct 64 d ltac:(lia) Hd n sr Hn Hsr Hr) as (n' & c & E' & Hc & Q & R).
  rewrite E' in E. injection E as -> -> ->. rewrite shl1_or by lia.
  rewrite uint_small by (unfold is_uint; lia). now rewrite Q.
Qed.

(** The three ways [q] and [r] are set up from the halves of [n]. *)
Section Setup.
Context (h n : Z) (Hh : 1 < h) (Hn : is_uint (2 * h) n).
Let n1 := high (words_of_all_u h n).
Let n0 := low (words_of_all_u h n).

Definition set_up (sr : Z) (q r : words) : Prop :=
  words_ok h q /\ words_ok h r /\ all_u h r = n / 2 ^ sr /\ all_u h q = uint (2 * h) (n * 2 ^ (2 * h - sr)).

Lemma halves_of_n : n = n1 * 2 ^ h + n0 /\ n1 = n / 2 ^ h /\ n0 = n mod 2 ^ h /\ is_uint h n1 /\ is_uint h n0.
Proof.
  unfold n1, n0. destruct (high_of_all_u h ltac:(lia) n Hn) as [-> R]. cbn [low words_of_all_u].
  pose proof (pow2_pos h ltac:(lia)). repeat split; try apply R; try (apply uint_range; lia).
  rewrite Z.mul_comm. unfold uint. apply Z.div_mod. lia.
Qed.

(** [r] for [0 < sr < h]; also the quotient by a power of two. *)
Lemma set_up_shr sr : 0 < sr < h ->
  let r := mkwords (shr h n1 sr) (Z.lor (ushl h n1 (h - sr)) (shr h n0 sr)) in
  words_ok h r /\ all_u h r = n / 2 ^ sr.
Proof.
  intros Hs r. destruct halves_of_n as (E & E1 & E0 & R1 & R0).
  pose proof (pow2_pos sr ltac:(lia)). pose proof R1 as R1'. pose proof R0 as R0'. unfold is_uint in R1', R0'.
  assert (D : forall x, 0 <= x < 2 ^ h -> 0 <= x / 2 ^ sr < 2 ^ h)
    by (intros; split; [apply Z.div_pos|apply Z.div_lt_upper_bound]; nia).
  assert (O : words_ok h r).
  { split; cbn [high low r]; [rewrite shr_spec by lia; apply D; lia|].
    apply lor_lt_pow2; [lia|apply uint_range; lia|rewrite shr_spec by lia; apply D; lia]. }
  split; [assumption|]. rewrite (proj1 (all_u_ok h r ltac:(lia) O)). cbn [high low r].
  rewrite !shr_spec, ushl_spec by lia.
  pose proof (lor_shl_shr h n1 n0 (h - sr) ltac:(lia) R0) as L. replace (h - (h - sr)) with sr in L by lia.
  rewrite L, E1, E0. symmetry. apply div_double; lia.
Qed.

Lemma set_up_below sr : 0 < sr < h ->
  set_up sr (mkwords (ushl h n0 (h - sr)) 0)
            (mkwords (shr h n1 sr) (Z.lor (ushl h n1 (h - sr)) (shr h n0 sr))).
Proof.
  intros Hs. destruct halves_of_n as (E & _ & _ & R1 & R0). destruct (set_up_shr sr Hs) as [Or Er].
  assert (Oq : words_ok h (mkwords (ushl h n0 (h - sr)) 0))
    by (split; [apply uint_range; lia|unfold is_uint; cbn; pose_pow2; lia]).
  split; [assumption|split; [assumption|split; [assumption|]]].
  rewrite all_u_spec by lia. cbn [high low]. apply eqm_uint. rewrite ushl_spec by lia.
  rewrite (eqm_scale h ltac:(lia) _ (n0 * 2 ^ (h - sr))) by apply uint_eqm. rewrite E.
  replace (2 * h - sr) with (h - sr + h) by lia. rewrite pow2_split by lia.
  replace ((n1 * 2 ^ h + n0) * (2 ^ (h - sr) * 2 ^ h))
    with (n1 * 2 ^ (h - sr) * (2 ^ h * 2 ^ h) + n0 * 2 ^ (h - sr) * 2 ^ h) by ring.
  rewrite <- pow2_double, (eqm_mul_pow (2 * h)) by lia. now rewrite Z.add_0_r.
Qed.

Lemma set_up_at : set_up h (mkwords n0 0) (mkwords 0 n1).
Proof.
  destruct halves_of_n as (E & E1 & _ & R1 & R0).
  assert (Z0 : is_uint h 0) by (unfold is_uint; pose_pow2; lia).
  split; [now split|split; [now split|]]. split.
  - rewrite (proj1 (all_u_ok h (mkwords 0 n1) ltac:(lia) (conj Z0 R1))). cbn [high low]. lia.
  - rewrite all_u_spec by lia. cbn [high low]. apply eqm_uint.
    replace (2 * h - h) with h by lia. replace (n * 2 ^ h) with ((n1 * 2 ^ h + n0) * 2 ^ h) by now rewrite <- E.
    rewrite Z.mul_add_distr_r, <- Z.mul_assoc, <- pow2_double by lia.
    rewrite (eqm_mul_pow (2 * h)). now rewrite Z.add_0_r.
Qed.

Lemma set_up_above sr : h < sr < 2 * h ->
  set_up sr (mkwords (Z.lor (ushl h n1 (2 * h - sr)) (shr h n0 (sr - h))) (ushl h n0 (2 * h - sr)))
            (mkwords 0 (shr h n1 (sr - h))).
Proof.
  intros Hs. destruct halves_of_n as (E & E1 & E0 & R1 & R0).
  pose proof (pow2_pos (sr - h) ltac:(lia)). pose proof R1 as R1'. pose proof R0 as R0'. unfold is_uint in R1', R0'.
  assert (Z0 : is_uint h 0) by (unfold is_uint; pose_pow2; lia).
  assert (D : forall x, is_uint h x -> is_uint h (shr h x (sr - h)))
    by (unfold is_uint; intros; rewrite shr_spec by lia; split; [apply Z.div_pos|apply Z.div_lt_upper_bound]; nia).
  assert (Oq : words_ok h (mkwords (Z.lor (ushl h n1 (2 * h - sr)) (shr h n0 (sr - h))) (ushl h n0 (2 * h - sr)))).
  { split; cbn [high low]; [|apply uint_range; lia].
    apply lor_lt_pow2; [lia|apply uint_range; lia|now apply D]. }
  assert (Or : words_ok h (mkwords 0 (shr h n1 (sr - h)))) by (split; [assumption|now apply D]).
  split; [assumption|split; [assumption|]]. split.
  - rewrite (proj1 (all_u_ok h _ ltac:(lia) Or)). cbn [high low]. rewrite shr_spec, E1 by lia.
    pose proof (pow2_pos h ltac:(lia)). rewrite Z.div_div, <- pow2_split by lia. replace (h + (sr - h)) with sr by lia. lia.
  - rewrite all_u_spec by lia. cbn [high low]. apply eqm_uint. rewrite !ushl_spec, shr_spec by lia.
    pose proof (lor_shl_shr h n1 n0 (2 * h - sr) ltac:(lia) R0) as L.
    replace (h - (2 * h - sr)) with (sr - h) in L by lia. rewrite L.
    rewrite (eqm_scale h ltac:(lia) _ (n1 * 2 ^ (2 * h - sr) + n0 / 2 ^ (sr - h))) by now rewrite uint_eqm.
    rewrite uint_shl by lia. replace (h - (2 * h - sr)) with (sr - h) by lia.
    replace (n * 2 ^ (2 * h - sr)) with ((n1 * 2 ^ h + n0) * 2 ^ (2 * h - sr)) by now rewrite <- E.
    match goal with |- eqm _ ?x ?y => replace x with y by ring end. reflexivity.
Qed.
End Setup.

(** The shift count of each branch that loops, when the divisor is not
    longer than the dividend. *)
Lemma di4_count x y : 0 < x < 2 ^ 32 -> 0 < y < 2 ^ 32 ->
  let sr := usub 32 (clz 32 y) (clz 32 x) in
  if Z.log2 x <? Z.log2 y then 31 < sr else sr = Z.log2 x - Z.log2 y /\ 0 <= sr < 32.
Proof.
  intros Hx Hy. apply (start_count 32 x y ltac:(lia)); unfold is_uint; lia.
Qed.

Lemma tail_of_set_up a b sr q r : 0 < a < 2 ^ 64 -> 0 < b < 2 ^ 64 -> sr = Z.log2 a - Z.log2 b + 1 ->
  1 <= sr <= 64 -> set_up 32 a sr q r -> Some (udivmoddi4_tail b sr q r) = Some (a / b, a mod b).
Proof.
  intros Ha Hb Hs Hr (Oq & Or & Er & Eq). f_equal. now apply udivmoddi4_tail_spec.
Qed.

Lemma pow2_mask w x d : 0 < d < 2 ^ w -> Z.land d (usub w d 1) = 0 ->
  Z.land x (usub w d 1) = x mod d /\ 0 <= ctz d < w /\ d = 2 ^ ctz d.
Proof.
  intros Hd H. unfold usub in *. rewrite uint_small in * by (unfold is_uint; lia).
  pose proof (pow2_test d ltac:(lia) H) as E. assert (0 <= ctz d) by apply Z.log2_nonneg.
  assert (ctz d < w) by (apply Z.lt_nge; intros G; pose proof (Z.pow_le_mono_r 2 w (ctz d) ltac:(lia) G); lia).
  split; [|lia]. rewrite E at 1 2. rewrite land_ones_mod by lia. reflexivity.
Qed.

(** The double word divided by a divisor whose low word is 0. *)
Lemma div_high a dh : 0 <= a -> 0 < dh ->
  a / (dh * 2 ^ 32) = a / 2 ^ 32 / dh /\
  a mod (dh * 2 ^ 32) = (a / 2 ^ 32 mod dh) * 2 ^ 32 + a mod 2 ^ 32.
Proof.
  intros Ha Hd. rewrite (Z.mul_comm dh), Z.div_div, Z.rem_mul_r by lia. split; [reflexivity|ring].
Qed.

Lemma udivmoddi4_high_zero n1 n0 d1 d0 a b :
  a = n1 * 2 ^ 32 + n0 -> b = d1 * 2 ^ 32 + d0 -> is_uint 32 n0 -> is_uint 32 d0 -> 0 <= d1 -> n1 = 0 ->
  (if d1 =? 0 then let? rem := c_umod n0 d0 in let? quo := c_udiv n0 d0 in Some (quo, rem) else Some (0, n0))
  = if b =? 0 then None else Some (a / b, a mod b).
Proof.
  unfold is_uint, c_umod, c_udiv. intros -> -> Hn Hd H1 ->. cbn [Z.mul Z.add].
  destruct (Z.eqb_spec d1 0) as [->|N1]; [rewrite Z.mul_0_l, Z.add_0_l; now destruct (d0 =? 0)|].
  replace (d1 * 2 ^ 32 + d0 =? 0) with false by (symmetry; apply Z.eqb_neq; lia).
  rewrite Z.div_small, Z.mod_small by nia. reflexivity.
Qed.

Lemma udivmoddi4_spec a b : is_uint 64 a -> is_uint 64 b ->
  __udivmoddi4 a b = if b =? 0 then None else Some (a / b, a mod b).
Proof.
  intros Ha Hb. unfold __udivmoddi4, udwords.
  destruct (halves_of_n 32 a ltac:(lia) Ha) as (Ea & A1 & A0 & Rn1 & Rn0).
  destruct (halves_of_n 32 b ltac:(lia) Hb) as (Eb & B1 & B0 & Rd1 & Rd0).
  pose proof (set_up_shr 32 a ltac:(lia) Ha) as Sq. pose proof (set_up_below 32 a ltac:(lia) Ha) as Sb.
  pose proof (set_up_at 32 a ltac:(lia) Ha) as Sa. pose proof (set_up_above 32 a ltac:(lia) Ha) as Sv.
  set (n1 := high (words_of_all_u 32 a)) in *. set (n0 := low (words_of_all_u 32 a)) in *.
  set (d1 := high (words_of_all_u 32 b)) in *. set (d0 := low (words_of_all_u 32 b)) in *.
  clearbody n1 n0 d1 d0. unfold is_uint in *. change (2 * 32) with 64 in *.
  destruct (Z.eqb_spec n1 0) as [N1|N1]; [now apply (udivmoddi4_high_zero n1 n0 d1 d0)|].
  assert (Ln : Z.log2 a = 32 + Z.log2 n1) by (rewrite Ea; apply (log2_double 32); unfold is_uint; lia).
  pose proof (log2_lt_width 32 n1 ltac:(lia)) as Bn.
  pose proof (di4_count n1 d1 ltac:(lia)) as C1. pose proof (di4_count n1 d0 ltac:(lia)) as C0.
  cbv zeta in C1, C0.
  destruct (Z.eqb_spec d0 0) as [D0|D0]; (destruct (Z.eqb_spec d1 0) as [D1|D1];
    [|assert (Ld : Z.log2 b = 32 + Z.log2 d1) by (rewrite Eb; apply (log2_double 32); unfold is_uint; lia)]).
  - unfold c_umod, c_udiv. rewrite D0. cbn. now rewrite (proj2 (Z.eqb_eq b 0)) by lia.
  - replace (b =? 0) with false by (symmetry; apply Z.eqb_neq; lia).
    rewrite D0, Z.add_0_r in Eb. rewrite Eb, (proj1 (div_high a d1 ltac:(lia) ltac:(lia))),
      (proj2 (div_high a d1 ltac:(lia) ltac:(lia))), <- A1, <- A0, <- Eb.
    pose proof (Z.mod_pos_bound n1 d1 ltac:(lia)) as M.
    assert (J : forall l, is_uint 32 l -> all_u 32 (mkwords (n1 mod d1) l) = n1 mod d1 * 2 ^ 32 + l).
    { intros l Hl. apply (all_u_ok 32); [lia|]. split; [unfold is_uint; cbn; lia|assumption]. }
    destruct (Z.eqb_spec n0 0) as [N0|N0]; [rewrite N0; now rewrite J by (unfold is_uint; lia)|].
    destruct (Z.eqb_spec (d1 .& (d1 -[32] 1)) 0) as [P|P].
    + destruct (pow2_mask 32 n1 d1 ltac:(lia) P) as (-> & Hc & Ec). rewrite J by (unfold is_uint; lia).
      rewrite shr_spec by lia. now rewrite <- Ec.
    + specialize (C1 ltac:(lia)). set (sr := usub 32 _ _) in *.
      assert (Dv : a / b = n1 / d1 /\ a mod b = n1 mod d1 * 2 ^ 32 + n0).
      { rewrite Eb, A1, A0. apply div_high; lia. }
      destruct (Z.ltb_spec (Z.log2 n1) (Z.log2 d1)) as [L|L].
      * rewrite Z.gtb_ltb. destruct (Z.ltb_spec 30 sr); [|lia]. pose proof (Z.log2_lt_cancel _ _ L).
        rewrite Z.div_small, Z.mod_small by lia. do 2 f_equal. lia.
      * destruct C1 as [Es Hs]. pose proof (Z.log2_nonneg d1).
        assert (sr <> 31).
        { intros E31. assert (L1 : Z.log2 d1 = 0) by lia. pose proof (log2_bounds d1 ltac:(lia)) as Bd.
          rewrite L1 in Bd. change (2 ^ 0) with 1 in Bd. apply P. replace d1 with 1 by lia. reflexivity. }
        rewrite Z.gtb_ltb. destruct (Z.ltb_spec 30 sr); [lia|].
        unfold uadd. rewrite uint_small by (unfold is_uint; lia). destruct Dv as [<- <-].
        apply tail_of_set_up; try lia. apply Sb. lia.
  - replace (b =? 0) with false by (symmetry; apply Z.eqb_neq; lia).
    assert (Eb0 : b = d0) by lia. rewrite Eb0 in *.
    destruct (Z.eqb_spec (d0 .& (d0 -[32] 1)) 0) as [P|P].
    + destruct (pow2_mask 32 n0 d0 ltac:(lia) P) as (-> & Hc & Ec).
      assert (M : n0 mod d0 = a mod d0).
      { rewrite Ec, A0. replace 32 with (32 - ctz d0 + ctz d0) by lia.
        change (eqm (ctz d0) (uint (32 - ctz d0 + ctz d0) a) a). apply eqm_lower with (32 - ctz d0 + ctz d0); [lia|].
        apply uint_eqm. }
      rewrite M. destruct (Z.eqb_spec d0 1) as [->|N]; [now rewrite Z.div_1_r|].
      assert (ctz d0 <> 0) by (intros Z0; rewrite Z0 in Ec; lia).
      do 2 f_equal. rewrite (proj2 (Sq (ctz d0) ltac:(lia))). now rewrite <- Ec.
    + specialize (C0 ltac:(lia)).
      pose proof (log2_lt_width 32 d0 ltac:(lia)) as Bd.
      assert (Z.log2 d0 <> 0).
      { intros L1. pose proof (log2_bounds d0 ltac:(lia)) as B. rewrite L1 in B.
        change (2 ^ 0) with 1 in B. apply P. replace d0 with 1 by lia. reflexivity. }
      assert (Es : ((1 +[32] 32) +[32] clz 32 d0) -[32] clz 32 n1 = Z.log2 a - Z.log2 d0 + 1).
      { unfold uadd, usub, clz. apply uint_of_eqm; [unfold is_uint; lia|]. rewrite !uint_eqm.
        match goal with |- eqm _ ?x ?y => replace x with y by lia end. reflexivity. }
      rewrite Es. set (sr := Z.log2 a - Z.log2 d0 + 1) in *.
      destruct (Z.eqb_spec sr 32) as [E32|N32]; [|destruct (Z.ltb_spec sr 32)];
        apply tail_of_set_up; try lia; [rewrite E32; exact Sa|apply Sb; lia|apply Sv; lia].
  - replace (b =? 0) with false by (symmetry; apply Z.eqb_neq; lia).
    specialize (C1 ltac:(lia)). set (sr := usub 32 _ _) in *.
    destruct (Z.ltb_spec (Z.log2 n1) (Z.log2 d1)) as [L|L].
    + rewrite Z.gtb_ltb. destruct (Z.ltb_spec 31 sr); [|lia]. pose proof (Z.log2_lt_cancel _ _ L).
      assert (a < b) by nia. rewrite Z.div_small, Z.mod_small by lia. reflexivity.
    + destruct C1 as [Es Hs]. rewrite Z.gtb_ltb. destruct (Z.ltb_spec 31 sr); [lia|].
      unfold uadd. rewrite uint_small by (unfold is_uint; lia).
      destruct (Z.eqb_spec (sr + 1) 32) as [E32|N32]; apply tail_of_set_up; try lia;
        [rewrite E32; exact Sa|apply Sb; lia].
Qed.
End Udivmoddi4.

(** ** Algorithm D *)

Section Knuth.
Context (b vn1 vn0 : Z) (Hb : b = 2 ^ 32) (Hv1 : b <= 2 * vn1) (Hv1' : vn1 < b) (Hv0 : 0 <= vn0 < b).
Let V := vn1 * b + vn0.

(** The trial digit is at least the true one and at most two above it. *)
Lemma trial_digit U un : 0 <= U < V -> 0 <= un < b ->
  let q := (U * b + un) / V in 0 <= q < b /\ q <= U / vn1 <= b + 1.
Proof.
  intros HU Hun q. assert (HV : 0 < V) by (unfold V; nia).
  pose proof (Z.mul_div_le (U * b + un) V HV) as B.
  assert (0 <= q < b) by (split; [apply Z.div_pos; nia|apply Z.div_lt_upper_bound; nia]).
  split; [assumption|]. split.
  - apply Z.div_le_lower_bound; [lia|]. fold q in B. unfold V in B.
    assert (q * vn1 * b < (U + 1) * b) as C by nia. apply Z.mul_lt_mono_pos_r in C; lia.
  - apply Z.lt_succ_r, Z.div_lt_upper_bound; unfold V in HU; nia.
Qed.

(** The loop test compares the trial digit with the true one. *)
Lemma digit_test U un qh : 0 <= U -> 0 <= un < b -> 0 <= qh ->
  (qh * vn0 >? b * (U - qh * vn1) + un) = (qh >? (U * b + un) / V).
Proof.
  intros HU Hun Hq. assert (HV : 0 < V) by (unfold V; nia). rewrite !Z.gtb_ltb.
  replace (b * (U - qh * vn1) + un <? qh * vn0) with (U * b + un <? qh * V)
    by (apply Bool.eq_iff_eq_true; rewrite !Z.ltb_lt; assert (qh * V = qh * vn1 * b + qh * vn0) by (unfold V; ring); lia).
  destruct (Z.ltb_spec (U * b + un) (qh * V)), (Z.ltb_spec ((U * b + un) / V) qh); try reflexivity; exfalso.
  - pose proof (Z.mul_div_le (U * b + un) V HV).
    pose proof (Z.mul_le_mono_nonneg_l qh ((U * b + un) / V) V ltac:(lia) ltac:(lia)). lia.
  - pose proof (Z.div_le_lower_bound (U * b + un) V qh HV ltac:(lia)). lia.
Qed.

(** From a trial digit at most [b + 1], with its remainder [rhat] below [b],
    each round takes one off until the digit is the true one; [n] rounds are
    enough when [n * vn1] lifts [rhat] to [b]. *)
Lemma correct_digit_spec n : forall U un qh, 0 <= U < V -> 0 <= un < b ->
  let q := (U * b + un) / V in
  let rhat := U - qh * vn1 in
  q <= qh -> qh <= b + 1 -> 0 <= rhat < b -> b <= rhat + Z.of_nat n * vn1 ->
  correct_digit n b vn1 vn0 un qh rhat = Some q.
Proof.
  induction n as [|n IH]; intros U un qh HU Hun q rhat Hq Hq' Hr Hn; [lia|].
  destruct (trial_digit U un HU Hun) as [Tq _]. fold q in Tq. cbn [correct_digit].
  assert (HB : 2 ^ 64 = b * b) by (rewrite Hb; reflexivity).
  assert (T : (qh >=? b) || ((qh *[64] vn0) >? ((b *[64] rhat) +[64] un)) = (qh >? q)).
  { rewrite Z.geb_leb. destruct (Z.leb_spec b qh); cbn [orb].
    - symmetry. rewrite Z.gtb_ltb. apply Z.ltb_lt. lia.
    - unfold q. rewrite <- (digit_test U un qh) by lia. unfold umul, uadd.
      rewrite (uint_small 64 (qh * vn0)), (uint_small 64 (b * rhat)), (uint_small 64 (_ + un));
        [reflexivity|..]; unfold is_uint; rewrite HB; nia. }
  rewrite T, Z.gtb_ltb. destruct (Z.ltb_spec q qh) as [G|G]; [|f_equal; lia].
  unfold usub, uadd. rewrite !uint_small by (unfold is_uint; rewrite HB; nia).
  replace (rhat + vn1) with (U - (qh - 1) * vn1) by (unfold rhat; ring).
  rewrite Z.geb_leb. destruct (Z.leb_spec b (U - (qh - 1) * vn1)) as [Br|Br].
  - f_equal. assert (N : (qh - 1 >? q) = false).
    { unfold q. rewrite <- (digit_test U un (qh - 1)) by lia. rewrite Z.gtb_ltb. apply Z.ltb_ge. nia. }
    rewrite Z.gtb_ltb in N. apply Z.ltb_ge in N. lia.
  - apply IH; try lia.
Qed.

(** One quotient digit of the code: trial, correction, new partial remainder. *)
Lemma digit_step U un : 0 <= U < V -> 0 <= un < b ->
  let qt := U / vn1 in
  let q := (U * b + un) / V in
  correct_digit 2 b vn1 vn0 un qt (usub 64 U (umul 64 qt vn1)) = Some q /\
  usub 64 (uadd 64 (umul 64 U b) un) (umul 64 q V) = (U * b + un) mod V /\ 0 <= (U * b + un) mod V < V.
Proof.
  intros HU Hun qt q. destruct (trial_digit U un HU Hun) as [Tq [Tl Th]]. fold q in Tq, Tl. fold qt in Tl, Th.
  assert (HV : 0 < V) by (unfold V; nia).
  assert (HVB : V < 2 ^ 64) by (change (2 ^ 64) with (2 ^ 32 * 2 ^ 32); rewrite <- Hb; unfold V; nia).
  pose proof (Z.div_mod U vn1 ltac:(lia)) as D. pose proof (Z.mod_pos_bound U vn1 ltac:(lia)) as M.
  pose proof (Z.mod_pos_bound (U * b + un) V HV) as M2. split; [|split; [|assumption]].
  - assert (E : usub 64 U (umul 64 qt vn1) = U - qt * vn1).
    { unfold usub, umul. apply uint_of_eqm; [unfold is_uint, qt in *; lia|]. now rewrite uint_eqm. }
    rewrite E. apply correct_digit_spec; try assumption; unfold qt in *; lia.
  - unfold usub, uadd, umul. apply uint_of_eqm; [unfold is_uint; lia|]. rewrite !uint_eqm.
    rewrite Z.mod_eq by lia. fold q. now rewrite (Z.mul_comm V).
Qed.
End Knuth.

Section Udiv128.

(** Dividing one digit at a time. *)
Lemma long_division x y b V : 0 < V ->
  (x * b + y) / V = x / V * b + (x mod V * b + y) / V /\ (x * b + y) mod V = (x mod V * b + y) mod V.
Proof.
  intros HV. pose proof (Z.div_mod x V ltac:(lia)) as D.
  replace (x * b + y) with (x mod V * b + y + x / V * b * V) by (rewrite D at 3; ring).
  rewrite Z.div_add, Z_mod_plus_full by lia. lia.
Qed.

Lemma normalize_divisor u1 u0 v : is_uint 64 u0 -> is_uint 64 v -> 0 <= u1 < v ->
  let s := clz 64 v in
  exists v' un64 un10,
    (if s >? 0 then (v <<[64] s, (u1 <<[64] s) .| (u0 >>[64] (64 - s)), u0 <<[64] s) else (v, u1, u0))
      = (v', un64, un10) /\
    v' = v * 2 ^ s /\ 2 ^ 63 <= v' < 2 ^ 64 /\ 0 <= un64 < v' /\ is_uint 64 un10 /\
    un64 * 2 ^ 64 + un10 = (u1 * 2 ^ 64 + u0) * 2 ^ s /\ 0 <= s < 64.
Proof.
  intros H0 Hv Hu s. unfold is_uint in *. pose proof (log2_bounds v ltac:(lia)) as B.
  pose proof (log2_lt_width 64 v ltac:(lia)) as L. assert (Es : s = 63 - Z.log2 v) by (unfold s, clz; lia).
  pose proof (pow2_pos s ltac:(lia)) as Hs.
  assert (Hv' : 2 ^ 63 <= v * 2 ^ s < 2 ^ 64).
  { assert (2 ^ Z.log2 v * 2 ^ s = 2 ^ 63) by (rewrite <- pow2_split by lia; f_equal; lia).
    change (2 ^ 64) with (2 * 2 ^ 63). nia. }
  rewrite Z.gtb_ltb. destruct (Z.ltb_spec 0 s) as [S|S].
  - exists (v * 2 ^ s), (u1 * 2 ^ s + u0 / 2 ^ (64 - s)), (uint 64 (u0 * 2 ^ s)).
    assert (Hc : 0 <= u0 / 2 ^ (64 - s) < 2 ^ s).
    { pose proof (pow2_pos (64 - s) ltac:(lia)). split; [apply Z.div_pos; lia|].
      apply Z.div_lt_upper_bound; [lia|]. rewrite <- pow2_split by lia. replace (64 - s + s) with 64 by lia. lia. }
    rewrite !ushl_spec, shr_spec, lor_shl_shr by (lia || unfold is_uint; lia).
    rewrite (uint_small 64 (v * 2 ^ s)), (uint_small 64 (u1 * 2 ^ s)) by (unfold is_uint; nia).
    repeat split; try lia; try nia; try (apply uint_range; lia).
    rewrite uint_shl by lia. ring.
  - exists v, u1, u0. assert (s = 0) as -> by lia. change (2 ^ 0) with 1 in *. repeat split; lia.
Qed.

Lemma udiv128by64to64default_spec u1 u0 v : is_uint 64 u0 -> is_uint 64 v -> 0 <= u1 < v ->
  udiv128by64to64default u1 u0 v = Some ((u1 * 2 ^ 64 + u0) / v, (u1 * 2 ^ 64 + u0) mod v).
Proof.
  intros H0 Hv Hu. unfold udiv128by64to64default.
  destruct (normalize_divisor u1 u0 v H0 Hv Hu) as (v' & un64 & un10 & E & Ev & Rv & R64 & R10 & Eu & Rs).
  set (s := clz 64 v) in *. rewrite E. change (1 <<[64] (64 / 2)) with (2 ^ 32).
  change 0xFFFFFFFF with (2 ^ 32 - 1). change (64 / 2) with 32. rewrite !land_ones_mod, !shr_spec by lia.
  unfold is_uint in R10. set (b := 2 ^ 32). assert (Hb : b = 2 ^ 32) by reflexivity.
  pose proof (Z.div_mod v' b ltac:(lia)) as Dv. pose proof (Z.mod_pos_bound v' b ltac:(lia)) as Mv.
  pose proof (Z.div_mod un10 b ltac:(lia)) as Du. pose proof (Z.mod_pos_bound un10 b ltac:(lia)) as Mu.
  set (vn1 := v' / b) in *. set (vn0 := v' mod b) in *. set (un1 := un10 / b) in *. set (un0 := un10 mod b) in *.
  assert (B64 : 2 ^ 64 = b * b) by reflexivity. assert (B63 : 2 * 2 ^ 63 = b * b) by reflexivity.
  assert (Hvn1 : b <= 2 * vn1 /\ vn1 < b) by (clearbody b; nia).
  assert (Hun1 : 0 <= un1 < b) by (unfold un1; split; [apply Z.div_pos|apply Z.div_lt_upper_bound]; lia).
  assert (EV : v' = vn1 * b + vn0) by lia. clearbody vn1 vn0 un1 un0 b.
  destruct (digit_step b vn1 vn0 Hb (proj1 Hvn1) (proj2 Hvn1) Mv un64 un1) as (C1 & S1 & R1); [lia|lia|].
  cbv zeta in C1. rewrite C1. cbn [obind]. rewrite EV, S1. rewrite EV in R64.
  set (V := vn1 * b + vn0) in *. set (un21 := (un64 * b + un1) mod V) in *.
  destruct (digit_step b vn1 vn0 Hb (proj1 Hvn1) (proj2 Hvn1) Mv un21 un0) as (C0 & S0 & R0); [assumption|assumption|].
  cbv zeta in C0, S0. fold V in C0, S0, R0, R1. rewrite C0. cbn [obind]. rewrite S0.
  destruct (long_division (un64 * b + un1) un0 b V ltac:(lia)) as [Q M].
  fold un21 in Q, M. rewrite <- M.
  replace ((un64 * b + un1) * b + un0) with ((u1 * 2 ^ 64 + u0) * 2 ^ s) in * by (rewrite <- Eu, B64, Du; ring).
  rewrite shr_spec by lia. pose proof (pow2_pos s ltac:(lia)) as Hs.
  assert (EV' : V = v * 2 ^ s) by lia. rewrite EV' in Q, M |- *.
  rewrite Z.div_mul_cancel_r in Q by lia. rewrite Zmult_mod_distr_r, Z.div_mul by lia.
  do 2 f_equal. rewrite Q. unfold uadd, umul.
  assert (0 <= (u1 * 2 ^ 64 + u0) / v < 2 ^ 64)
    by (unfold is_uint in H0; split; [apply Z.div_pos|apply Z.div_lt_upper_bound]; nia).
  apply uint_of_eqm; [unfold is_uint; lia|]. now rewrite uint_eqm.
Qed.

Lemma divq_spec u1 u0 v : is_uint 64 u0 -> is_uint 64 v -> 0 <= u1 < v ->
  divq u1 u0 v = Some ((u1 * 2 ^ 64 + u0) / v, (u1 * 2 ^ 64 + u0) mod v).
Proof.
  unfold is_uint. intros H0 Hv Hu. unfold divq. replace (v =? 0) with false by (symmetry; apply Z.eqb_neq; lia).
  cbn [orb]. rewrite Z.geb_leb, (proj2 (Z.leb_gt _ _)); [reflexivity|]. apply Z.div_lt_upper_bound; nia.
Qed.
End Udiv128.

(** The portable and the x86-64 build of [udiv128by64to64]. *)
#[export] Instance Udiv128_portable : Udiv128 :=
  {| udiv128by64to64 := udiv128by64to64default; udiv128_exact := udiv128by64to64default_spec |}.
Definition Udiv128_x86_64 : Udiv128 :=
  {| udiv128by64to64 := divq; udiv128_exact := divq_spec |}.

(** ** [__udivmodti4] *)

Section Udivmodti4.

Lemma udivmodti4_loop_inv D n : forall dividend divisor q,
  0 < D -> is_uint 128 dividend -> 0 <= q -> dividend < D * 2 ^ Z.of_nat n ->
  ((0 < n)%nat -> divisor = D * 2 ^ (Z.of_nat n - 1) /\ divisor < 2 ^ 128 /\
                  (divisor <= 2 ^ 127 \/ 2 ^ 127 <= dividend)) ->
  q * 2 ^ Z.of_nat n + dividend / D < 2 ^ 64 ->
  udivmodti4_loop n dividend divisor q = (q * 2 ^ Z.of_nat n + dividend / D, dividend mod D).
Proof.
  induction n as [|n IH]; intros dividend divisor q HD Hdd Hq Hlt Hdv Hqq.
  { cbn [udivmodti4_loop Z.of_nat] in *. change (2 ^ 0) with 1 in *. unfold is_uint in Hdd.
    rewrite Z.div_small, Z.mod_small by lia. f_equal. lia. }
  destruct (Hdv ltac:(lia)) as (Ed & Rd & Hs). clear Hdv. unfold is_uint in Hdd.
  replace (Z.of_nat (S n) - 1) with (Z.of_nat n) in Ed by lia.
  rewrite Nat2Z.inj_succ, Z.pow_succ_r in * by lia. pose proof (pow2_pos (Z.of_nat n) ltac:(lia)) as Hp.
  set (p := 2 ^ Z.of_nat n) in *.
  assert (Hdiv : 0 <= dividend / D) by (apply Z.div_pos; lia).
  cbn [udivmodti4_loop]. change 127 with (128 - 1).
  rewrite sign_test by (change (128 - 1) with 127; unfold is_uint; nia).
  set (c := divisor <=? dividend).
  rewrite masked_sub by (try (unfold is_uint; nia); unfold c; rewrite Z.leb_le; lia).
  assert (Hq2 : 2 * q + 1 < 2 ^ 64 \/ p = 1) by (destruct (Z.eq_dec p 1); [now right|left; nia]).
  assert (Edd : dividend = dividend - (if c then divisor else 0) + (if c then p else 0) * D)
    by (destruct c; rewrite ?Ed; ring).
  set (dd := dividend - (if c then divisor else 0)) in *.
  assert (Hdd' : 0 <= dd < D * p) by (unfold dd, c; destruct (Z.leb_spec divisor dividend); nia).
  assert (ED : dividend / D = dd / D + (if c then p else 0)) by (rewrite Edd at 1; apply Z.div_add; lia).
  assert (EM : dividend mod D = dd mod D) by (rewrite Edd at 1; apply Z_mod_plus_full).
  assert (Hdd0 : 0 <= dd / D) by (apply Z.div_pos; lia).
  assert (Hq3 : 2 * q + b2z c < 2 ^ 64) by (destruct c; cbn [b2z]; nia).
  assert (Eq : uint 64 (Z.lor (uint 128 (ushl 64 q 1)) (uint 128 (Z.land (if c then -1 else 0) 1))) = 2 * q + b2z c).
  { replace (uint 128 (Z.land (if c then -1 else 0) 1)) with (b2z c) by now destruct c.
    pose proof (uint_range 64 (Z.shiftl q (1 mod 64)) ltac:(lia)) as R. change (uint 64 _) with (ushl 64 q 1) in R.
    unfold is_uint in R. rewrite (uint_small 128) by (unfold is_uint; lia).
    rewrite shl1_or by (lia || destruct c; cbn; lia).
    rewrite (uint_small 64 (2 * q)) by (unfold is_uint; destruct c; cbn [b2z] in *; lia).
    apply uint_small. unfold is_uint. destruct c; cbn [b2z] in *; lia. }
  rewrite Eq, ED, EM, shr_spec by lia. rewrite ED in Hqq.
  rewrite (IH dd (divisor / 2 ^ 1) (2 * q + b2z c)); try lia.
  - f_equal. fold p. destruct c; cbn [b2z]; ring.
  - unfold is_uint. lia.
  - destruct c; cbn [b2z]; lia.
  - intros Hn. unfold p in *. rewrite (pow2_S (Z.of_nat n)) in Ed by lia.
    replace (divisor / 2 ^ 1) with (D * 2 ^ (Z.of_nat n - 1));
      [split; [reflexivity|lia]|].
    rewrite Ed. change (2 ^ 1) with 2. rewrite (Z.mul_comm 2), Z.mul_assoc, Z.div_mul; lia.
  - fold p. destruct c; cbn [b2z]; lia.
Qed.

Context `{HU : Udiv128}.

(** The divisor fits in one double word: one or two hardware-sized steps. *)
Lemma udivmodti4_short a b n1 n0 d0 : is_uint 64 n1 -> is_uint 64 n0 -> is_uint 64 d0 ->
  a = n1 * 2 ^ 64 + n0 -> b = d0 -> 0 < d0 ->
  (if n1 <? d0 then
     let? (q_low, r_low) := udiv128by64to64 n1 n0 d0 in
     Some (all_u 64 (mkwords 0 q_low), all_u 64 (mkwords 0 r_low))
   else
     let? q_high := c_udiv n1 d0 in
     let? d_high := c_umod n1 d0 in
     let? (q_low, r_low) := udiv128by64to64 d_high n0 d0 in
     Some (all_u 64 (mkwords q_high q_low), all_u 64 (mkwords 0 r_low))) = Some (a / b, a mod b).
Proof.
  intros H1 H0 Hd -> -> Hd0. pose proof H1 as H1'. pose proof H0 as H0'. pose proof Hd as Hd'.
  unfold is_uint in H1', H0', Hd'.
  assert (J : forall h l, is_uint 64 h -> is_uint 64 l -> all_u 64 (mkwords h l) = h * 2 ^ 64 + l)
    by (intros h l Hh Hl; apply (all_u_ok 64); [lia|now split]).
  assert (Z0 : is_uint 64 0) by (unfold is_uint; lia).
  assert (B : forall x, 0 <= x < d0 -> is_uint 64 ((x * 2 ^ 64 + n0) / d0) /\ is_uint 64 ((x * 2 ^ 64 + n0) mod d0)).
  { intros x Hx. pose proof (Z.mod_pos_bound (x * 2 ^ 64 + n0) d0 Hd0). unfold is_uint.
    repeat split; try lia; [apply Z.div_pos|apply Z.div_lt_upper_bound]; nia. }
  destruct (Z.ltb_spec n1 d0) as [L|L].
  - rewrite udiv128_exact by (assumption || lia). cbn [obind]. destruct (B n1 ltac:(lia)).
    rewrite !J by assumption. now rewrite Z.mul_0_l.
  - unfold c_udiv, c_umod. replace (d0 =? 0) with false by (symmetry; apply Z.eqb_neq; lia). cbn [obind].
    pose proof (Z.mod_pos_bound n1 d0 Hd0) as M. rewrite udiv128_exact by (assumption || lia). cbn [obind].
    destruct (B (n1 mod d0) ltac:(lia)).
    assert (is_uint 64 (n1 / d0)) by (unfold is_uint; split; [apply Z.div_pos|apply Z.div_lt_upper_bound]; nia).
    rewrite !J by assumption. destruct (long_division n1 n0 (2 ^ 64) d0 Hd0) as [-> ->].
    now rewrite Z.mul_0_l.
Qed.

Lemma udivmodti4_spec a b : is_uint 128 a -> is_uint 128 b -> b <> 0 ->
  __udivmodti4 a b = Some (a / b, a mod b).
Proof.
  intros Ha Hb Hb0. unfold __udivmodti4, utwords.
  destruct (halves_of_n 64 a ltac:(lia) Ha) as (Ea & A1 & A0 & Rn1 & Rn0).
  destruct (halves_of_n 64 b ltac:(lia) Hb) as (Eb & B1 & B0 & Rd1 & Rd0).
  set (n1 := high (words_of_all_u 64 a)) in *. set (n0 := low (words_of_all_u 64 a)) in *.
  set (d1 := high (words_of_all_u 64 b)) in *. set (d0 := low (words_of_all_u 64 b)) in *.
  clearbody n1 n0 d1 d0. pose proof Ha as Ha'. pose proof Hb as Hb'. unfold is_uint in Ha', Hb'.
  rewrite Z.gtb_ltb. destruct (Z.ltb_spec a b) as [L|L]; [now rewrite Z.div_small, Z.mod_small by lia|].
  destruct (Z.eqb_spec d1 0) as [D1|D1]; [apply udivmodti4_short; try assumption; lia|].
  unfold is_uint in Rn1, Rn0, Rd1, Rd0.
  assert (Ln : Z.log2 a = 64 + Z.log2 n1) by (rewrite Ea; apply (log2_double 64); unfold is_uint; nia).
  assert (Ld : Z.log2 b = 64 + Z.log2 d1) by (rewrite Eb; apply (log2_double 64); unfold is_uint; nia).
  pose proof (log2_lt_width 64 d1 ltac:(lia)) as Bd. pose proof (log2_lt_width 64 n1 ltac:(nia)) as Bn.
  pose proof (Z.log2_le_mono b a L) as Lm.
  set (shift := ssub 32 _ _). assert (Es : shift = Z.log2 a - Z.log2 b).
  { unfold shift, ssub, clz. rewrite sint_small by (unfold is_sint; lia). lia. }
  pose proof (log2_bounds a ltac:(lia)) as Ba. pose proof (log2_bounds b ltac:(lia)) as Bb.
  assert (Hsh : 2 ^ Z.log2 a = 2 ^ Z.log2 b * 2 ^ shift) by (rewrite <- pow2_split by lia; f_equal; lia).
  pose proof (pow2_pos shift ltac:(lia)) as Hp.
  assert (Hbs : b * 2 ^ shift < 2 ^ 128).
  { assert (2 * 2 ^ Z.log2 a <= 2 ^ 128); [|nia]. rewrite <- Z.pow_succ_r by lia. apply Z.pow_le_mono_r; lia. }
  rewrite ushl_spec, uint_small by (unfold is_uint; nia).
  assert (Hq : a / b < 2 ^ 64) by (apply Z.div_lt_upper_bound; nia).
  rewrite (udivmodti4_loop_inv b (Z.to_nat (shift + 1))); try assumption; try lia; rewrite ?Z2Nat.id by lia.
  - rewrite Z.mul_0_l, Z.add_0_l. do 2 f_equal.
    assert (is_uint 64 (a / b)) by (unfold is_uint; split; [apply Z.div_pos|]; lia).
    rewrite (proj1 (all_u_ok 64 (mkwords 0 (a / b)) ltac:(lia) (conj (conj (Z.le_refl 0) eq_refl) H))). cbn [high low]. lia.
  - rewrite Z.pow_add_r by lia. nia.
  - intros _. replace (shift + 1 - 1) with shift by lia. split; [reflexivity|]. split; [assumption|].
    destruct (Z.le_gt_cases (b * 2 ^ shift) (2 ^ 127)) as [|G]; [now left|right].
    assert (127 <= Z.log2 a); [|pose proof (Z.pow_le_mono_r 2 127 (Z.log2 a) ltac:(lia) ltac:(lia)); lia].
    apply Z.lt_succ_r. apply (Z.pow_lt_mono_r_iff 2); [lia| |]; rewrite ?Z.pow_succ_r; try lia; nia.
Qed.
End Udivmodti4.

(** ** Signed division *)

Section Signed.
Context (w : Z) (Hw : 1 < w).

(** The mask [x >> (w-1)] of the sign, and the negation it drives. *)
Definition sign_mask (c : bool) : Z := if c then -1 else 0.

Lemma sopp_mask c : sopp w (sign_mask c) = - sign_mask c.
Proof.
  unfold sopp. apply sint_small; [lia|]. unfold is_sint. pose proof (pow2_pos (w - 1) ltac:(lia)).
  assert (2 <= 2 ^ (w - 1)) by (rewrite (pow2_S (w - 1)) by lia; pose proof (pow2_pos (w - 1 - 1) ltac:(lia)); lia).
  destruct c; cbn; lia.
Qed.

Lemma lxor_masks c1 c2 : Z.lxor (sign_mask c1) (sign_mask c2) = sign_mask (xorb c1 c2).
Proof. now destruct c1, c2. Qed.

(** [(fixuint_t)(a ^ s) + (-s)] is the magnitude. *)
Lemma magnitude_add a : is_sint w a ->
  uadd w (uint w (Z.lxor a (shr w a (w - 1)))) (uint w (sopp w (shr w a (w - 1)))) = Z.abs a.
Proof.
  intros Ha. rewrite shr_sign by (lia || assumption). fold (sign_mask (a <? 0)). rewrite sopp_mask.
  unfold is_sint in Ha. pose proof (pow2_S w ltac:(lia)). unfold uadd.
  apply uint_of_eqm; [unfold is_uint; lia|]. rewrite !uint_eqm, Z.add_opp_r.
  unfold sign_mask. rewrite cond_negate. replace (Z.abs a) with (if a <? 0 then - a else a)
    by (destruct (Z.ltb_spec a 0); lia). reflexivity.
Qed.

Lemma magnitude_sub a : is_sint w a ->
  uint w (ssub w (Z.lxor a (shr w a (w - 1))) (shr w a (w - 1))) = Z.abs a.
Proof.
  intros Ha. rewrite shr_sign by (lia || assumption). unfold ssub. rewrite cond_negate, uint_sint.
  unfold is_sint in Ha. pose proof (pow2_S w ltac:(lia)).
  destruct (Z.ltb_spec a 0); rewrite uint_small by (unfold is_uint; lia); lia.
Qed.

(** The result negated under a mask, as an addition or a subtraction. *)
Lemma negate_add x c :
  sint w (uadd w (Z.lxor x (uint w (sign_mask c))) (uint w (sopp w (sign_mask c)))) = sint w (if c then - x else x).
Proof.
  rewrite sopp_mask. apply eqm_sint. unfold uadd. rewrite !uint_eqm, Z.add_opp_r.
  unfold sign_mask. now rewrite cond_negate.
Qed.

Lemma negate_sub x c :
  sint w (usub w (Z.lxor x (uint w (sign_mask c))) (uint w (sign_mask c))) = sint w (if c then - x else x).
Proof. apply eqm_sint. unfold usub. rewrite !uint_eqm. unfold sign_mask. now rewrite cond_negate. Qed.

Lemma quot_signs a b : b <> 0 ->
  Z.quot a b = if xorb (a <? 0) (b <? 0) then - (Z.abs a / Z.abs b) else Z.abs a / Z.abs b.
Proof.
  intros Hb. rewrite Z.quot_div by assumption.
  destruct (Z.eq_dec a 0) as [->|Ha]; [rewrite Z.div_0_l by lia; cbn; now destruct (b <? 0)|].
  destruct (Z.ltb_spec a 0), (Z.ltb_spec b 0); cbn [xorb];
    rewrite ?(Z.sgn_neg a), ?(Z.sgn_pos a), ?(Z.sgn_neg b), ?(Z.sgn_pos b) by lia; lia.
Qed.

Lemma rem_signs a b : b <> 0 ->
  Z.rem a b = if a <? 0 then - (Z.abs a mod Z.abs b) else Z.abs a mod Z.abs b.
Proof.
  intros Hb. rewrite Z.rem_mod by assumption.
  destruct (Z.eq_dec a 0) as [->|Ha]; [rewrite Zmod_0_l; reflexivity|].
  destruct (Z.ltb_spec a 0); rewrite ?(Z.sgn_neg a), ?(Z.sgn_pos a) by lia; lia.
Qed.

Lemma rem_range a b : is_sint w a -> is_sint w b -> b <> 0 -> is_sint w (Z.rem a b).
Proof. unfold is_sint. intros Ha Hb H0. pose proof (Z.rem_bound_abs a b H0). lia. Qed.

Lemma abs_range a : is_sint w a -> is_uint w (Z.abs a).
Proof. unfold is_sint, is_uint. intros Ha. pose proof (pow2_S w ltac:(lia)). lia. Qed.

Context (UDIVMOD : Z -> Z -> option (Z * Z)).
Hypothesis udivmod_exact : forall x y, is_uint w x -> is_uint w y -> y <> 0 -> UDIVMOD x y = Some (x / y, x mod y).

Lemma divXi3_spec a b : is_sint w a -> is_sint w b -> b <> 0 ->
  __divXi3 w (fun a b => let? (q, r) := UDIVMOD a b in Some q) a b = Some (sint w (Z.quot a b)).
Proof.
  intros Ha Hb H0. unfold __divXi3. rewrite !magnitude_add by assumption.
  rewrite udivmod_exact by (try (apply abs_range; assumption); lia). cbn [obind].
  rewrite !shr_sign by (lia || assumption). fold (sign_mask (a <? 0)) (sign_mask (b <? 0)).
  rewrite lxor_masks, negate_add, quot_signs by assumption. reflexivity.
Qed.

Lemma modXi3_spec a b : is_sint w a -> is_sint w b -> b <> 0 ->
  __modXi3 w (fun a b => let? (q, r) := UDIVMOD a b in Some r) a b = Some (Z.rem a b).
Proof.
  intros Ha Hb H0. unfold __modXi3. rewrite !magnitude_add by assumption.
  rewrite udivmod_exact by (try (apply abs_range; assumption); lia). cbn [obind].
  rewrite !shr_sign by (lia || assumption). fold (sign_mask (a <? 0)).
  rewrite negate_add, <- rem_signs by assumption. f_equal. apply sint_small; [lia|]. now apply rem_range.
Qed.

Lemma divmodXi4_spec a b : is_sint w a -> is_sint w b -> b <> 0 ->
  divmodXi4 w UDIVMOD a b = Some (sint w (Z.quot a b), Z.rem a b).
Proof.
  intros Ha Hb H0. unfold divmodXi4. rewrite !magnitude_sub by assumption.
  rewrite udivmod_exact by (try (apply abs_range; assumption); lia). cbn [obind].
  rewrite !shr_sign by (lia || assumption). fold (sign_mask (a <? 0)) (sign_mask (b <? 0)).
  rewrite lxor_masks, !negate_sub, <- rem_signs, xorb_comm, <- quot_signs by assumption.
  do 2 f_equal. apply sint_small; [lia|]. now apply rem_range.
Qed.
End Signed.

Lemma udivmodsi4_spec a b : is_uint 32 a -> is_uint 32 b -> b <> 0 ->
  __udivmodsi4 a b = (a / b, a mod b).
Proof.
  intros Ha Hb H0. unfold __udivmodsi4, __udivsi3.
  destruct (udivXi3_spec 32 a b ltac:(lia) Ha Hb H0) as [-> _]. unfold is_uint in *.
  assert (0 <= a / b < 2 ^ 32) by (split; [apply Z.div_pos|apply Z.div_lt_upper_bound]; nia).
  rewrite uint_sint, uint_small by (unfold is_uint; lia). f_equal.
  pose proof (Z.mod_pos_bound a b ltac:(lia)). unfold usub, umul. apply uint_of_eqm; [unfold is_uint; lia|].
  rewrite uint_eqm, Z.mod_eq, (Z.mul_comm b) by assumption. reflexivity.
Qed.

Lemma udivmodti4_zero `{Udiv128} a : is_uint 128 a -> __udivmodti4 a 0 = None.
Proof.
  intros Ha. unfold __udivmodti4, is_uint in *. rewrite Z.gtb_ltb. destruct (Z.ltb_spec a 0); [lia|].
  change (high (utwords 0) =? 0) with true. change (low (utwords 0)) with 0.
  pose proof (uint_range 64 (Z.shiftr a 64) ltac:(lia)) as R. change (high (utwords a)) with (uint 64 (Z.shiftr a 64)).
  unfold is_uint in R. destruct (Z.ltb_spec (uint 64 (Z.shiftr a 64)) 0); [lia|reflexivity].
Qed.

Lemma divsi3_udivmod a b :
  __divsi3 a b = __divXi3 32 (fun a b => let? (q, r) := (if b =? 0 then None else Some (a / b, a mod b)) in Some q) a b.
Proof. unfold __divsi3, __divXi3, c_udiv. now destruct (uadd 32 (uint 32 (Z.lxor b _)) _ =? 0). Qed.

Lemma modsi3_spec a b : is_sint 32 a -> is_sint 32 b -> b <> 0 -> __modsi3 a b = Some (Z.rem a b).
Proof.
  intros Ha Hb H0. unfold __modsi3. rewrite divsi3_udivmod, divXi3_spec; try assumption; try lia.
  2:{ intros x y Hx Hy N. now rewrite (proj2 (Z.eqb_neq y 0)). }
  cbn [obind]. f_equal. unfold ssub, smul. apply sint_of_eqm; [lia|now apply rem_range|].
  rewrite !sint_eqm. pose proof (Z.quot_rem a b H0) as E.
  replace (Z.rem a b) with (a - Z.quot a b * b) by lia. reflexivity.
Qed.

(** ** The properties of division *)

(** The shift-subtract divisions of [int_div_impl.inc] ([__udivsi3],
    [__umodsi3], [__udivmodsi4], [__udivdi3], [__umoddi3]) return the exact
    quotient and remainder for every non-zero divisor. *)
Theorem shift_subtract_division a b c d :
  is_uint 32 a -> is_uint 32 b -> b <> 0 -> is_uint 64 c -> is_uint 64 d -> d <> 0 ->
  (__udivsi3 a b = a / b /\ __umodsi3 a b = a mod b /\ __udivmodsi4 a b = (a / b, a mod b)) /\
  (__udivdi3 c d = c / d /\ __umoddi3 c d = c mod d).
Proof.
  intros Ha Hb B0 Hc Hd D0. rewrite udivmodsi4_spec by assumption.
  destruct (udivXi3_spec 32 a b ltac:(lia) Ha Hb B0), (udivXi3_spec 64 c d ltac:(lia) Hc Hd D0). auto.
Qed.

Lemma shift_subtract_division_witness :
  __udivdi3 (2 ^ 64 - 1) (2 ^ 63 + 5) = (2 ^ 64 - 1) / (2 ^ 63 + 5) /\ __umodsi3 1000 7 = 1000 mod 7.
Proof. split; apply (shift_subtract_division 1000 7 (2 ^ 64 - 1) (2 ^ 63 + 5)); unfold is_uint; lia. Defined.

(** [__udivmoddi4] traps exactly on a zero divisor and otherwise returns
    the quotient and stores the remainder, on every one of its branches
    (equal and unequal word lengths, powers of two, the general loop). *)
Theorem udivmoddi4_correct a b : is_uint 64 a -> is_uint 64 b ->
  __udivmoddi4 a b = if b =? 0 then None else Some (a / b, a mod b).
Proof. apply udivmoddi4_spec. Qed.

Lemma udivmoddi4_correct_witness : __udivmoddi4 (2 ^ 64 - 1) (3 * 2 ^ 32 + 1) = Some (1431655765, 1431655765 * 2 + 0).
Proof.
  etransitivity; [apply (udivmoddi4_correct (2 ^ 64 - 1) (3 * 2 ^ 32 + 1)); unfold is_uint; lia|reflexivity].
Defined.

(** C20: Algorithm D of the portable build is the [divq] instruction of the
    x86-64 build: on every dividend whose quotient fits in 64 bits both give
    the same quotient and remainder, and each of its two correction loops
    ends within two iterations, as their comments say. *)
Theorem algorithm_d_is_divq u1 u0 v : is_uint 64 u0 -> is_uint 64 v -> 0 <= u1 < v ->
  udiv128by64to64default u1 u0 v = divq u1 u0 v /\
  udiv128by64to64default u1 u0 v = Some ((u1 * 2 ^ 64 + u0) / v, (u1 * 2 ^ 64 + u0) mod v).
Proof. intros. rewrite udiv128by64to64default_spec, divq_spec by assumption. auto. Qed.

Lemma algorithm_d_is_divq_witness :
  udiv128by64to64default (2 ^ 63) (2 ^ 64 - 1) (2 ^ 63 + 1) = divq (2 ^ 63) (2 ^ 64 - 1) (2 ^ 63 + 1).
Proof. apply (algorithm_d_is_divq (2 ^ 63) (2 ^ 64 - 1) (2 ^ 63 + 1)); unfold is_uint; lia. Defined.

(** C19: over any [udiv128by64to64] that meets its interface (both builds do),
    the 128-bit division returns the exact quotient and remainder for every
    non-zero divisor, and divides by zero in hardware for a zero one. *)
Theorem udivmodti4_correct (U : Udiv128) a b : is_uint 128 a -> is_uint 128 b ->
  __udivmodti4 a b = (if b =? 0 then None else Some (a / b, a mod b)) /\
  __udivti3 a b = c_udiv a b /\ __umodti3 a b = c_umod a b.
Proof.
  intros Ha Hb. unfold __udivti3, __umodti3, c_udiv, c_umod. destruct (Z.eqb_spec b 0) as [->|N].
  - rewrite udivmodti4_zero by assumption. auto.
  - rewrite udivmodti4_spec by assumption. auto.
Qed.

Lemma udivmodti4_correct_witness :
  @__udivti3 Udiv128_x86_64 (2 ^ 127 + 12345) (2 ^ 70 + 1) = c_udiv (2 ^ 127 + 12345) (2 ^ 70 + 1) /\
  @__udivti3 Udiv128_portable (2 ^ 127 + 12345) 1000003 = c_udiv (2 ^ 127 + 12345) 1000003.
Proof.
  split.
  - refine (proj1 (proj2 (udivmodti4_correct Udiv128_x86_64 (2 ^ 127 + 12345) (2 ^ 70 + 1) _ _)));
      unfold is_uint; lia.
  - refine (proj1 (proj2 (udivmodti4_correct Udiv128_portable (2 ^ 127 + 12345) 1000003 _ _)));
      unfold is_uint; lia.
Defined.

(** The signed divisions truncate toward zero and the signed remainders
    take the sign of the dividend, at 32, 64 and 128 bits; the one quotient
    that does not fit, of the minimum by -1, wraps to the minimum. *)
Theorem signed_division (U : Udiv128) a b c d e f :
  is_sint 32 a -> is_sint 32 b -> b <> 0 -> is_sint 64 c -> is_sint 64 d -> d <> 0 ->
  is_sint 128 e -> is_sint 128 f -> f <> 0 ->
  (__divsi3 a b = Some (sint 32 (Z.quot a b)) /\ __modsi3 a b = Some (Z.rem a b) /\
   __divmodsi4 a b = Some (sint 32 (Z.quot a b), Z.rem a b)) /\
  (__divdi3 c d = Some (sint 64 (Z.quot c d)) /\ __moddi3 c d = Some (Z.rem c d) /\
   __divmoddi4 c d = Some (sint 64 (Z.quot c d), Z.rem c d)) /\
  (__divti3 e f = Some (sint 128 (Z.quot e f)) /\ __modti3 e f = Some (Z.rem e f) /\
   __divmodti4 e f = Some (sint 128 (Z.quot e f), Z.rem e f)).
Proof.
  intros. rewrite divsi3_udivmod, modsi3_spec by assumption.
  assert (U64 : forall x y, is_uint 64 x -> is_uint 64 y -> y <> 0 -> __udivmoddi4 x y = Some (x / y, x mod y)).
  { intros x y Hx Hy N. rewrite udivmoddi4_spec by assumption. now rewrite (proj2 (Z.eqb_neq y 0)). }
  unfold __divmodsi4, __divdi3, __moddi3, __divmoddi4, __divti3, __modti3, __divmodti4.
  repeat split.
  - apply divXi3_spec; try assumption; [lia|]. intros x y Hx Hy N. now rewrite (proj2 (Z.eqb_neq y 0)).
  - apply divmodXi4_spec; try assumption; [lia|]. intros. now rewrite udivmodsi4_spec.
  - now apply divXi3_spec.
  - now apply modXi3_spec.
  - now apply divmodXi4_spec.
  - apply divXi3_spec; try assumption; [lia|]. apply udivmodti4_spec.
  - apply modXi3_spec; try assumption; [lia|]. apply udivmodti4_spec.
  - apply divmodXi4_spec; try assumption; [lia|]. apply udivmodti4_spec.
Qed.

Lemma signed_division_witness :
  __divmodsi4 (-7) 2 = Some (-3, -1) /\ __moddi3 (-7) (-2) = Some (-1) /\ __divti3 (- 2 ^ 127) (-1) = Some (- 2 ^ 127).
Proof.
  refine (_ (signed_division Udiv128_portable (-7) 2 (-7) (-2) (- 2 ^ 127) (-1) _ _ _ _ _ _ _ _ _));
    [|unfold is_sint; lia..].
  intros ((_ & _ & S) & (_ & D & _) & (T & _)). rewrite S, D, T. repeat split.
Defined.
