(* ===== verification/IntLib.v ===== *)
(** * Replacements for compiler builtins

    [int_lib.h] defines the counting builtins and the checked addition for a
    compiler that has none, on top of the bit-scan intrinsics of that compiler.
    The intrinsics are a parameter ([BitScan]): they report whether there is a
    set bit and store its index.  Everything else of the library may then use
    the builtins as if they were the compiler's own. *)

From S2P Require Import Prelude.

(** [_BitScanForward], [_BitScanReverse] and [_BitScanReverse64]: the index of
    the lowest or the highest set bit, and a zero result when there is none. *)
Class BitScan : Type := {
  BitScanForward : Z -> option Z;
  BitScanReverse : Z -> option Z;
  BitScanReverse64 : Z -> option Z }.

Class BitScanLaws (B : BitScan) : Prop := {
  forward_law : forall v, is_uint 32 v -> BitScanForward v = if v =? 0 then None else Some (ctz v);
  reverse_law : forall v, is_uint 32 v -> BitScanReverse v = if v =? 0 then None else Some (Z.log2 v);
  reverse64_law : forall v, is_uint 64 v -> BitScanReverse64 v = if v =? 0 then None else Some (Z.log2 v) }.

Section Builtins.
Context {B : BitScan}.

Definition __builtin_ctz (value : Z) : Z :=
  match BitScanForward value with
  | Some trailing_zero => sint 32 trailing_zero
  | None => 32
  end.

Definition __builtin_clz (value : Z) : Z :=
  match BitScanReverse value with
  | Some leading_zero => sint 32 (31 - leading_zero)
  | None => 32
  end.

(** The build for 64-bit processors, and the one from two 32-bit halves. *)
Definition __builtin_clzll_64 (value : Z) : Z :=
  match BitScanReverse64 value with
  | Some leading_zero => sint 32 (63 - leading_zero)
  | None => 64
  end.

Definition __builtin_clzll_32 (value : Z) : Z :=
  if value =? 0 then 64
  else
    let msh := uint 32 (value >>[64] 32) in
    let lsh := uint 32 (value .& 0xFFFFFFFF) in
    if negb (msh =? 0) then __builtin_clz msh else sadd 32 32 (__builtin_clz lsh).

(** The result is written through a pointer, and left alone on overflow. *)
Definition __builtin_sadd_overflow (x y result : Z) : bool * Z :=
  if negb (Bool.eqb (x <? 0) (y <? 0)) then (false, sadd 32 x y)
  else
    let tmp := sint 32 (uint 32 x +[32] uint 32 y) in
    if negb (Bool.eqb (tmp <? 0) (x <? 0)) then (true, result) else (false, tmp).

Context {L : BitScanLaws B}.

Lemma log2_range w v : is_uint w v -> v <> 0 -> 0 <= Z.log2 v < w.
Proof. intros R N. unfold is_uint in R. apply log2_lt_width. lia. Qed.

Lemma builtin_clz_spec v : is_uint 32 v -> __builtin_clz v = if v =? 0 then 32 else clz 32 v.
Proof.
  intros R. unfold __builtin_clz. rewrite reverse_law by assumption. destruct (Z.eqb_spec v 0) as [|N]; [reflexivity|].
  pose proof (log2_range 32 v R N). unfold clz. rewrite sint_small by (unfold is_sint; lia). lia.
Qed.

Lemma builtin_ctz_spec v : is_uint 32 v -> __builtin_ctz v = if v =? 0 then 32 else ctz v.
Proof.
  intros R. unfold __builtin_ctz. rewrite forward_law by assumption. destruct (Z.eqb_spec v 0) as [|N]; [reflexivity|].
  apply sint_small; [lia|]. unfold ctz, is_sint, is_uint in *. pose proof (Z.log2_nonneg (Z.land v (- v))).
  pose proof (land_nonneg_le (- v) v ltac:(lia)) as A. rewrite Z.land_comm in A.
  pose proof (Z.log2_le_mono _ _ (proj2 A)). pose proof (log2_range 32 v R N). lia.
Qed.

(** Both builds of the 64-bit count agree. *)
Lemma builtin_clzll_spec v : is_uint 64 v ->
  __builtin_clzll_64 v = (if v =? 0 then 64 else clz 64 v) /\ __builtin_clzll_32 v = __builtin_clzll_64 v.
Proof.
  intros R. assert (E : __builtin_clzll_64 v = if v =? 0 then 64 else clz 64 v).
  { unfold __builtin_clzll_64. rewrite reverse64_law by assumption. destruct (Z.eqb_spec v 0) as [|N]; [reflexivity|].
    pose proof (log2_range 64 v R N). unfold clz. rewrite sint_small by (unfold is_sint; lia). lia. }
  split; [exact E|]. rewrite E. unfold __builtin_clzll_32. destruct (Z.eqb_spec v 0) as [|N]; [reflexivity|]. unfold is_uint in R.
  pose proof (Z.div_mod v (2 ^ 32) ltac:(lia)) as D. pose proof (Z.mod_pos_bound v (2 ^ 32) ltac:(lia)) as M.
  assert (Rh : is_uint 32 (v / 2 ^ 32)) by (split; [apply Z.div_pos; lia|apply Z.div_lt_upper_bound; lia]).
  rewrite shr_spec, (uint_small 32 (v / 2 ^ 32)) by (assumption || lia). change 0xFFFFFFFF with (2 ^ 32 - 1). rewrite land_ones_mod, (uint_small 32 (v mod 2 ^ 32)) by (assumption || lia).
  rewrite !builtin_clz_spec by assumption. unfold clz. destruct (Z.eqb_spec (v / 2 ^ 32) 0) as [H0|H0]; cbn [negb].
  - assert (V : v mod 2 ^ 32 = v) by lia. rewrite V, (proj2 (Z.eqb_neq v 0) N). pose proof (log2_range 32 v ltac:(unfold is_uint; lia) N).
    unfold sadd. rewrite sint_small by (unfold is_sint; lia). lia.
  - unfold is_uint in Rh. assert (Lg : Z.log2 v = Z.log2 (v / 2 ^ 32) + 32); [|lia].
    rewrite <- Z.shiftr_div_pow2, Z.log2_shiftr by lia. rewrite Z.max_r; [lia|].
    assert (32 <= Z.log2 v) by (apply Z.log2_le_pow2; [lia|]; pose proof (proj1 Rh); nia). lia.
Qed.

(** The checked addition reports overflow exactly. *)
Lemma builtin_sadd_overflow_spec x y r : is_sint 32 x -> is_sint 32 y ->
  __builtin_sadd_overflow x y r = if (- 2 ^ 31 <=? x + y) && (x + y <? 2 ^ 31) then (false, x + y) else (true, r).
Proof.
  unfold is_sint. change (2 ^ (32 - 1)) with (2 ^ 31). intros Rx Ry. unfold __builtin_sadd_overflow, sadd, uadd.
  assert (E : sint 32 (uint 32 (uint 32 x + uint 32 y)) = sint 32 (x + y)) by (apply eqm_sint; now rewrite !uint_eqm).
  rewrite E. destruct (Z.leb_spec (- 2 ^ 31) (x + y)) as [G1|G1], (Z.ltb_spec (x + y) (2 ^ 31)) as [G2|G2]; cbn [andb]; try lia.
  - rewrite sint_small by (unfold is_sint; lia). destruct (Z.ltb_spec x 0), (Z.ltb_spec y 0), (Z.ltb_spec (x + y) 0); cbn [Bool.eqb negb]; try reflexivity; lia.
  - rewrite (proj2 (Z.ltb_ge x 0)), (proj2 (Z.ltb_ge y 0)) by lia. cbn [Bool.eqb negb].
    assert (Q : sint 32 (x + y) = x + y - 2 ^ 32) by (unfold sint; rewrite <- (Z.mod_unique (x + y + 2 ^ (32 - 1)) (2 ^ 32) 1 (x + y + 2 ^ 31 - 2 ^ 32)); lia).
    rewrite Q, (proj2 (Z.ltb_lt _ 0)) by lia. reflexivity.
  - rewrite (proj2 (Z.ltb_lt x 0)), (proj2 (Z.ltb_lt y 0)) by lia. cbn [Bool.eqb negb].
    assert (Q : sint 32 (x + y) = x + y + 2 ^ 32) by (unfold sint; rewrite <- (Z.mod_unique (x + y + 2 ^ (32 - 1)) (2 ^ 32) (-1) (x + y + 2 ^ 31 + 2 ^ 32)); lia).
    rewrite Q, (proj2 (Z.ltb_ge _ 0)) by lia. reflexivity.
Qed.
End Builtins.

(** The replacements are the builtins: they count like [clz] and [ctz] of the
    model, with the width for 0, and the addition is checked exactly; the two
    builds of the 64-bit count agree. *)
Theorem builtins_replaced (B : BitScan) (L : BitScanLaws B) v x y r : is_uint 64 v -> is_sint 32 x -> is_sint 32 y ->
  (v < 2 ^ 32 -> __builtin_ctz v = (if v =? 0 then 32 else ctz v) /\ __builtin_clz v = (if v =? 0 then 32 else clz 32 v)) /\
  __builtin_clzll_64 v = (if v =? 0 then 64 else clz 64 v) /\ __builtin_clzll_32 v = __builtin_clzll_64 v /\
  __builtin_sadd_overflow x y r = if (- 2 ^ 31 <=? x + y) && (x + y <? 2 ^ 31) then (false, x + y) else (true, r).
Proof.
  intros Rv Rx Ry. destruct (builtin_clzll_spec v Rv). repeat split; auto using builtin_sadd_overflow_spec;
    unfold is_uint in Rv; [apply builtin_ctz_spec|apply builtin_clz_spec]; unfold is_uint; lia.
Qed.

(** Intrinsics that satisfy the laws. *)
Definition model_scan : BitScan := {|
  BitScanForward v := if v =? 0 then None else Some (ctz v);
  BitScanReverse v := if v =? 0 then None else Some (Z.log2 v);
  BitScanReverse64 v := if v =? 0 then None else Some (Z.log2 v) |}.

#[global] Instance model_scan_laws : BitScanLaws model_scan.
Proof. split; reflexivity. Defined.

Lemma builtins_replaced_witness : @__builtin_clzll_32 model_scan 0x100000000 = 31 /\ __builtin_sadd_overflow 0x7fffffff 1 7 = (true, 7).
Proof.
  destruct (builtins_replaced model_scan model_scan_laws 0x100000000 0x7fffffff 1 7) as (_ & E & F & G);
    [split; vm_compute; congruence|split; vm_compute; congruence|split; vm_compute; congruence|].
  split; [rewrite F, E; reflexivity|rewrite G; reflexivity].
Defined.
