(* ===== verification/FpLib.v ===== *)
(** * Soft float: the common library [fp_lib.h]

    The format parameters (the macros of [fp_lib.h] that follow from
    [typeWidth] and [significandBits]), the helpers [rep_clz],
    [wideMultiply], [normalize], [wideLeftShift] and
    [wideRightShiftWithSticky], and the facts about them that the arithmetic
    routines are proved against.  A floating-point value is handled as its
    representation, an unsigned integer of [typeWidth] bits: [toRep] and
    [fromRep] are the identity on it.  Exponents are C [int]s that stay below
    [2^17] in magnitude, so they are plain integers here. *)

From S2P Require Import Prelude IntBits.

(** The two parameters of a format; [fmt_ok] bounds them the way the four
    formats of the library do. *)
Class FpFormat := {
  typeWidth : Z;
  significandBits : Z;
  fmt_ok : 4 <= significandBits <= 112 /\ 5 <= typeWidth - significandBits - 1 <= 15 }.

Definition half_precision : FpFormat.
Proof. refine {| typeWidth := 16; significandBits := 10 |}. lia. Defined.
Definition single_precision : FpFormat.
Proof. refine {| typeWidth := 32; significandBits := 23 |}. lia. Defined.
Definition double_precision : FpFormat.
Proof. refine {| typeWidth := 64; significandBits := 52 |}. lia. Defined.
Definition quad_precision : FpFormat.
Proof. refine {| typeWidth := 128; significandBits := 112 |}. lia. Defined.

Section Constants.
Context `{FpFormat}.

Definition exponentBits : Z := typeWidth - significandBits - 1.
Definition maxExponent : Z := Z.shiftl 1 exponentBits - 1.
Definition exponentBias : Z := Z.shiftr maxExponent 1.
Definition implicitBit : Z := 1 <<[typeWidth] significandBits.
Definition significandMask : Z := implicitBit -[typeWidth] 1.
Definition signBit : Z := 1 <<[typeWidth] (significandBits + exponentBits).
Definition absMask : Z := signBit -[typeWidth] 1.
Definition exponentMask : Z := absMask .^ significandMask.
Definition oneRep : Z := exponentBias <<[typeWidth] significandBits.
Definition infRep : Z := exponentMask.
Definition quietBit : Z := implicitBit >>[typeWidth] 1.
Definition qnanRep : Z := exponentMask .| quietBit.
End Constants.

(** ** Word-size helpers

    [rep_clz] and [wideMultiply] of the three precisions. *)

Definition rep_clz_single (a : Z) : Z := clz 32 a.
Definition rep_clz_double (a : Z) : Z := clz 64 a.
Definition rep_clz_quad (a : Z) : Z :=
  let s := utwords a in
  let '(word, add) := if nonzero (high s) then (high s, 0) else (low s, 64) in
  sint 32 (clz 64 word +[64] add).

Definition wideMultiply_single (a b : Z) : Z * Z :=
  let product := a *[64] b in
  (uint 32 (product >>[64] 32), uint 32 product).

Definition wideMultiply_double (a b : Z) : Z * Z :=
  let loWord x := x .& 0xffffffff in
  let hiWord x := x >>[64] 32 in
  let plolo := loWord a *[64] loWord b in
  let plohi := loWord a *[64] hiWord b in
  let philo := hiWord a *[64] loWord b in
  let phihi := hiWord a *[64] hiWord b in
  let r0 := loWord plolo in
  let r1 := (hiWord plolo +[64] loWord plohi) +[64] loWord philo in
  let lo := r0 +[64] (r1 <<[64] 32) in
  let hi := ((hiWord plohi +[64] hiWord philo) +[64] hiWord r1) +[64] phihi in
  (hi, lo).

Definition wideMultiply_quad (a b : Z) : Z * Z :=
  let Word_LoMask := 0x00000000ffffffff in
  let Word_HiMask := 0xffffffff00000000 in
  let Word_FullMask := 0xffffffffffffffff in
  let Word_1 x := uint 64 ((x >>[128] 96) .& Word_LoMask) in
  let Word_2 x := uint 64 ((x >>[128] 64) .& Word_LoMask) in
  let Word_3 x := uint 64 ((x >>[128] 32) .& Word_LoMask) in
  let Word_4 x := uint 64 (x .& Word_LoMask) in
  let product11 := Word_1 a *[64] Word_1 b in
  let product12 := Word_1 a *[64] Word_2 b in
  let product13 := Word_1 a *[64] Word_3 b in
  let product14 := Word_1 a *[64] Word_4 b in
  let product21 := Word_2 a *[64] Word_1 b in
  let product22 := Word_2 a *[64] Word_2 b in
  let product23 := Word_2 a *[64] Word_3 b in
  let product24 := Word_2 a *[64] Word_4 b in
  let product31 := Word_3 a *[64] Word_1 b in
  let product32 := Word_3 a *[64] Word_2 b in
  let product33 := Word_3 a *[64] Word_3 b in
  let product34 := Word_3 a *[64] Word_4 b in
  let product41 := Word_4 a *[64] Word_1 b in
  let product42 := Word_4 a *[64] Word_2 b in
  let product43 := Word_4 a *[64] Word_3 b in
  let product44 := Word_4 a *[64] Word_4 b in
  let sum0 := product44 in
  let sum1 := product34 +[128] product43 in
  let sum2 := (product24 +[128] product33) +[128] product42 in
  let sum3 := ((product14 +[128] product23) +[128] product32) +[128] product41 in
  let sum4 := (product13 +[128] product22) +[128] product31 in
  let sum5 := product12 +[128] product21 in
  let sum6 := product11 in
  let r0 := (sum0 .& Word_FullMask) +[128] ((sum1 .& Word_LoMask) <<[128] 32) in
  let r1 := (((sum0 >>[128] 64) +[128] ((sum1 >>[128] 32) .& Word_FullMask))
             +[128] (sum2 .& Word_FullMask)) +[128] ((sum3 <<[128] 32) .& Word_HiMask) in
  let lo := r0 +[128] (r1 <<[128] 64) in
  let hi := ((((((r1 >>[128] 64) +[128] (sum1 >>[128] 96)) +[128] (sum2 >>[128] 64))
              +[128] (sum3 >>[128] 32)) +[128] sum4) +[128] (sum5 <<[128] 32)) +[128] (sum6 <<[128] 64) in
  (hi, lo).

(** What the arithmetic routines need of the helpers of their precision. *)
Class FpOps `{FpFormat} := {
  rep_clz : Z -> Z;
  wideMultiply : Z -> Z -> Z * Z;
  rep_clz_ok : forall a, 0 < a < 2 ^ typeWidth -> rep_clz a = clz typeWidth a }.

(** The product of two words as a pair of words. *)
Class FpWideMul `{FpOps} : Prop :=
  wideMultiply_ok : forall a b, is_uint typeWidth a -> is_uint typeWidth b ->
    let '(hi, lo) := wideMultiply a b in
    is_uint typeWidth hi /\ is_uint typeWidth lo /\ hi * 2 ^ typeWidth + lo = a * b.

Section Helpers.
Context `{FpOps}.

(** The updated [*significand] and the returned exponent. *)
Definition normalize (significand : Z) : Z * Z :=
  let shift := rep_clz significand - rep_clz implicitBit in
  (significand <<[typeWidth] shift, 1 - shift).

Definition wideLeftShift (hi lo count : Z) : Z * Z :=
  ((hi <<[typeWidth] count) .| (lo >>[typeWidth] (typeWidth - count)), lo <<[typeWidth] count).

Definition wideRightShiftWithSticky (hi lo count : Z) : Z * Z :=
  if count <? typeWidth then
    let sticky := b2z (nonzero (lo <<[typeWidth] (typeWidth - count))) in
    (hi >>[typeWidth] count,
     ((hi <<[typeWidth] (typeWidth - count)) .| (lo >>[typeWidth] count)) .| sticky)
  else if count <? 2 * typeWidth then
    let sticky := b2z (nonzero ((hi <<[typeWidth] (2 * typeWidth - count)) .| lo)) in
    (0, (hi >>[typeWidth] (count - typeWidth)) .| sticky)
  else
    let sticky := b2z (nonzero (hi .| lo)) in
    (0, sticky).
End Helpers.

(** ** The constants as powers of two *)

Section ConstantValues.
Context `{FpFormat}.

Lemma exponentBits_bounds : 5 <= exponentBits <= 15 /\ typeWidth = significandBits + exponentBits + 1 /\ 4 <= significandBits <= 112.
Proof. pose proof fmt_ok. unfold exponentBits. lia. Qed.

Lemma sig_pow_pos : 0 < 2 ^ significandBits.
Proof. pose proof exponentBits_bounds. apply pow2_pos. lia. Qed.

Lemma maxExponent_val : maxExponent = 2 ^ exponentBits - 1.
Proof. unfold maxExponent. pose proof exponentBits_bounds. rewrite Z.shiftl_mul_pow2 by lia. lia. Qed.

Lemma maxExponent_bounds : 31 <= maxExponent < 32768.
Proof.
  rewrite maxExponent_val. pose proof exponentBits_bounds as B. set (e := exponentBits) in *.
  pose proof (Z.pow_le_mono_r 2 5 e ltac:(lia) ltac:(lia)). pose proof (Z.pow_le_mono_r 2 e 15 ltac:(lia) ltac:(lia)). lia.
Qed.

Lemma exponentBias_val : exponentBias = 2 ^ (exponentBits - 1) - 1.
Proof.
  unfold exponentBias. pose proof exponentBits_bounds. rewrite maxExponent_val, Z.shiftr_div_pow2 by lia.
  rewrite (pow2_S exponentBits) by lia. change (2 ^ 1) with 2.
  symmetry. apply Z.div_unique with 1; lia.
Qed.

Lemma pow2_lt_width k : 0 <= k < typeWidth -> 0 < 2 ^ k < 2 ^ typeWidth.
Proof. intros. split; [apply pow2_pos; lia|apply Z.pow_lt_mono_r; lia]. Qed.

Lemma shl_one k : 0 <= k < typeWidth -> ushl typeWidth 1 k = 2 ^ k.
Proof.
  intros. rewrite ushl_spec by lia. rewrite Z.mul_1_l. apply uint_small.
  pose proof (pow2_lt_width k ltac:(lia)). unfold is_uint. lia.
Qed.

Lemma implicitBit_val : implicitBit = 2 ^ significandBits.
Proof. pose proof exponentBits_bounds. apply shl_one. lia. Qed.

Lemma signBit_val : signBit = 2 ^ (typeWidth - 1).
Proof.
  pose proof exponentBits_bounds. unfold signBit. rewrite shl_one by lia. f_equal. lia.
Qed.

Lemma usub_one k : 0 <= k < typeWidth -> usub typeWidth (2 ^ k) 1 = 2 ^ k - 1.
Proof.
  intros. unfold usub. apply uint_small. pose proof (pow2_lt_width k ltac:(lia)). unfold is_uint. lia.
Qed.

Lemma significandMask_val : significandMask = 2 ^ significandBits - 1.
Proof. pose proof exponentBits_bounds. unfold significandMask. rewrite implicitBit_val. apply usub_one. lia. Qed.

Lemma absMask_val : absMask = 2 ^ (typeWidth - 1) - 1.
Proof. pose proof exponentBits_bounds. unfold absMask. rewrite signBit_val. apply usub_one. lia. Qed.

Lemma infRep_val : infRep = maxExponent * 2 ^ significandBits.
Proof.
  pose proof exponentBits_bounds as B. unfold infRep, exponentMask. rewrite absMask_val, significandMask_val, maxExponent_val.
  replace (2 ^ (typeWidth - 1) - 1) with (Z.lor ((2 ^ exponentBits - 1) * 2 ^ significandBits) (2 ^ significandBits - 1)).
  - replace (2 ^ significandBits - 1) with (Z.ones significandBits) by (rewrite Z.ones_equiv; lia).
    replace (2 ^ exponentBits - 1) with (Z.ones exponentBits) by (rewrite Z.ones_equiv; lia).
    rewrite <- Z.shiftl_mul_pow2 by lia. apply Z.bits_inj'. intros i Hi.
    rewrite Z.lxor_spec, Z.lor_spec, Z.shiftl_spec by lia. destruct (Z.ltb_spec i significandBits).
    + rewrite (Z.testbit_neg_r _ (i - _)), Z.ones_spec_low by lia. reflexivity.
    + rewrite (Z.ones_spec_high significandBits), orb_false_r, xorb_false_r by lia. reflexivity.
  - pose_pow2. rewrite lor_add_disjoint by lia. replace (typeWidth - 1) with (exponentBits + significandBits) by lia.
    rewrite pow2_split by lia. ring.
Qed.

Lemma signBit_split : 2 ^ (typeWidth - 1) = 2 ^ exponentBits * 2 ^ significandBits.
Proof. pose proof exponentBits_bounds. rewrite <- pow2_split by lia. f_equal. lia. Qed.

Lemma infRep_bounds : 0 < infRep < 2 ^ (typeWidth - 1).
Proof.
  pose proof exponentBits_bounds as B. rewrite infRep_val, maxExponent_val, signBit_split.
  assert (2 <= 2 ^ exponentBits) by (rewrite pow2_S by lia; pose_pow2; lia). pose_pow2. nia.
Qed.

Lemma abs_of rep : Z.land rep absMask = rep mod 2 ^ (typeWidth - 1).
Proof. pose proof exponentBits_bounds. rewrite absMask_val. apply land_ones_mod. lia. Qed.

Lemma significand_of rep : Z.land rep significandMask = rep mod 2 ^ significandBits.
Proof. pose proof exponentBits_bounds. rewrite significandMask_val. apply land_ones_mod. lia. Qed.

(** The sign bit of a representation, and the representation from its parts. *)
Lemma sign_of rep : is_uint typeWidth rep ->
  Z.land rep signBit = (if rep <? 2 ^ (typeWidth - 1) then 0 else 2 ^ (typeWidth - 1)) /\
  rep = (if rep <? 2 ^ (typeWidth - 1) then 0 else 2 ^ (typeWidth - 1)) + rep mod 2 ^ (typeWidth - 1).
Proof.
  intros R. pose proof exponentBits_bounds as B. unfold is_uint in R. rewrite signBit_val.
  replace (2 ^ (typeWidth - 1)) with ((2 ^ 1 - 1) * 2 ^ (typeWidth - 1)) at 1 by lia.
  rewrite land_field by lia. rewrite (pow2_S typeWidth) in R by lia. pose_pow2.
  destruct (Z.ltb_spec rep (2 ^ (typeWidth - 1))) as [L|L].
  - rewrite Z.div_small, (Z.mod_small rep) by lia. rewrite Z.mod_0_l by lia. lia.
  - assert (E : rep / 2 ^ (typeWidth - 1) = 1) by (symmetry; apply Z.div_unique with (rep - 2 ^ (typeWidth - 1)); lia).
    rewrite E. split; [change (2 ^ 1) with 2; rewrite Z.mod_small by lia; lia|].
    rewrite Z.mod_eq, E by lia. lia.
Qed.
End ConstantValues.

(** ** Shifts with a sticky bit

    [jam x k] is [x >> k] with the bits shifted out ORed into the lowest one. *)

Definition jam (x k : Z) : Z := Z.lor (x / 2 ^ k) (b2z (nonzero (x mod 2 ^ k))).

(** [S] stands for the rational [N / D]: they compare alike with every
    multiple of [2^k]. *)
Definition agrees (k S N D : Z) : Prop := forall M, (2 ^ k | M) -> (N ?= M * D) = (S ?= M).

Lemma compare_scale a b c : 0 < c -> (a * c ?= b * c) = (a ?= b).
Proof.
  intros Hc. destruct (Z.compare_spec a b) as [->|L|L];
    [apply Z.compare_refl|apply Z.compare_lt_iff|apply Z.compare_gt_iff]; nia.
Qed.

Lemma agrees_exact S D : 0 < D -> agrees 0 S (S * D) D.
Proof. intros HD M _. apply compare_scale; lia. Qed.

Lemma agrees_weaken k k' S N D : 0 <= k <= k' -> agrees k S N D -> agrees k' S N D.
Proof.
  intros Hk A M [c ->]. apply A. exists (c * 2 ^ (k' - k)). rewrite <- Z.mul_assoc, <- pow2_split by lia.
  do 2 f_equal. lia.
Qed.

Lemma agrees_shl k s S N D : 0 <= k -> 0 <= s -> agrees k S N D -> agrees (k + s) (S * 2 ^ s) (N * 2 ^ s) D.
Proof.
  intros Hk Hs A M [c ->]. rewrite pow2_split by lia. pose proof (pow2_pos s Hs).
  replace (c * (2 ^ k * 2 ^ s) * D) with (c * 2 ^ k * D * 2 ^ s) by ring.
  replace (c * (2 ^ k * 2 ^ s)) with (c * 2 ^ k * 2 ^ s) by ring.
  rewrite !compare_scale by lia. apply A. now exists c.
Qed.

Lemma lor1 q : Z.lor q 1 = 2 * (q / 2) + 1.
Proof.
  pose proof (Z.div_mod q 2 ltac:(lia)) as D. pose proof (Z.mod_pos_bound q 2 ltac:(lia)) as M.
  replace (2 * (q / 2) + 1) with (Z.lor (q / 2 * 2 ^ 1) 1) by (rewrite lor_add_disjoint; lia).
  apply Z.bits_inj'. intros i Hi. rewrite !Z.lor_spec. destruct (Z.eq_dec i 0) as [->|N]; [now rewrite !orb_true_r|].
  f_equal. rewrite <- Z.shiftl_mul_pow2, Z.shiftl_spec by lia. change (q / 2) with (q / 2 ^ 1).
  rewrite Z.div_pow2_bits by lia. f_equal. lia.
Qed.

Lemma jam_agrees x k : 0 <= k -> agrees 1 (jam x k) x (2 ^ k).
Proof.
  intros Hk M [c ->]. change (2 ^ 1) with 2. unfold jam, nonzero. pose proof (pow2_pos k Hk) as Hp.
  pose proof (Z.div_mod x (2 ^ k) ltac:(lia)) as D. pose proof (Z.mod_pos_bound x (2 ^ k) Hp) as B.
  set (q := x / 2 ^ k) in *. destruct (Z.eqb_spec (x mod 2 ^ k) 0) as [E|E]; cbn [negb b2z].
  - rewrite Z.lor_0_r. replace x with (q * 2 ^ k) by lia. apply compare_scale; lia.
  - rewrite lor1. pose proof (Z.div_mod q 2 ltac:(lia)). pose proof (Z.mod_pos_bound q 2 ltac:(lia)).
    destruct (Z.le_gt_cases (c * 2) q) as [L|L].
    + transitivity Gt; [|symmetry]; apply Z.compare_gt_iff; nia.
    + transitivity Lt; [|symmetry]; apply Z.compare_lt_iff; nia.
Qed.

(** Shifting right with sticky keeps the agreement. *)
Lemma agrees_jam j k S N D : 0 <= j -> j <= k + 1 -> 0 <= k -> agrees j S N D -> agrees 1 (jam S k) N (D * 2 ^ k).
Proof.
  intros Hj Hjk Hk A M HM. rewrite <- (jam_agrees S k Hk M HM). destruct HM as [c ->].
  replace (c * 2 ^ 1 * (D * 2 ^ k)) with (c * 2 ^ 1 * 2 ^ k * D) by ring. apply A.
  exists (c * 2 ^ (k + 1 - j)). rewrite <- !Z.mul_assoc, <- !pow2_split by lia. do 2 f_equal. lia.
Qed.

(** The C idiom [x >> k | ((x << (w - k)) != 0)]. *)
Lemma sticky_shift w x k : 0 < k < w -> is_uint w x ->
  Z.lor (shr w x k) (b2z (nonzero (ushl w x (w - k)))) = jam x k.
Proof.
  intros Hk Hx. unfold jam. rewrite shr_spec, ushl_spec by lia. f_equal. unfold nonzero. do 2 f_equal.
  unfold uint. replace (2 ^ w) with (2 ^ k * 2 ^ (w - k)) by (rewrite <- pow2_split by lia; f_equal; lia).
  rewrite Zmult_mod_distr_r. pose proof (pow2_pos (w - k) ltac:(lia)).
  destruct (Z.eqb_spec (x mod 2 ^ k) 0) as [->|N]; [reflexivity|].
  apply Z.eqb_neq. pose proof (Z.mod_pos_bound x (2 ^ k) ltac:(apply pow2_pos; lia)). nia.
Qed.

Lemma jam_bounds x k : 0 <= k -> 0 <= x -> 0 <= jam x k /\ jam x k <= x / 2 ^ k + 1 /\ x / 2 ^ k <= jam x k.
Proof.
  intros Hk Hx. unfold jam. pose proof (pow2_pos k Hk). assert (0 <= x / 2 ^ k) by (apply Z.div_pos; lia).
  destruct (nonzero (x mod 2 ^ k)); cbn [b2z]; [rewrite lor1|rewrite Z.lor_0_r]; [|lia].
  pose proof (Z.div_mod (x / 2 ^ k) 2 ltac:(lia)). pose proof (Z.mod_pos_bound (x / 2 ^ k) 2 ltac:(lia)). lia.
Qed.

(** Jamming never reaches a bound that is even and not reached before. *)
Lemma jam_lt x k B : 0 <= k -> 0 <= x -> x < 2 * B * 2 ^ k -> jam x k < 2 * B.
Proof.
  intros Hk Hx HB. pose proof (jam_agrees x k Hk (2 * B) ltac:(exists B; lia)) as C.
  rewrite (proj2 (Z.compare_lt_iff x _)) in C by lia. symmetry in C. now apply Z.compare_lt_iff in C.
Qed.

(** ** The helpers *)

Section HelperSpecs.
Context `{FpOps}.

Lemma width_bounds : 10 <= typeWidth /\ 0 < significandBits < typeWidth.
Proof. pose proof exponentBits_bounds. lia. Qed.

(** A subnormal significand moves up to the implicit bit. *)
Lemma normalize_spec m : 0 < m < 2 ^ significandBits ->
  exists k, normalize m = (m * 2 ^ k, 1 - k) /\ 0 < k <= significandBits /\
    2 ^ significandBits <= m * 2 ^ k < 2 * 2 ^ significandBits.
Proof.
  intros Hm. pose proof width_bounds as W. assert (Hs : 0 < 2 ^ significandBits < 2 ^ typeWidth) by (apply pow2_lt_width; lia).
  unfold normalize. rewrite !rep_clz_ok by (rewrite ?implicitBit_val; lia).
  rewrite implicitBit_val. unfold clz. rewrite Z.log2_pow2 by lia.
  set (sb := significandBits) in *. pose proof (log2_lt_width sb m Hm) as L.
  exists (sb - Z.log2 m). replace (typeWidth - 1 - Z.log2 m - (typeWidth - 1 - sb)) with (sb - Z.log2 m) by lia.
  assert (B : 2 ^ sb <= m * 2 ^ (sb - Z.log2 m) < 2 * 2 ^ sb).
  { pose proof (log2_bounds m ltac:(lia)) as B. pose proof (pow2_pos (sb - Z.log2 m) ltac:(lia)).
    replace (2 ^ sb) with (2 ^ Z.log2 m * 2 ^ (sb - Z.log2 m)) by (rewrite <- pow2_split by lia; f_equal; lia). nia. }
  split; [|lia]. f_equal. rewrite ushl_spec by lia. apply uint_small. unfold is_uint.
  assert (2 * 2 ^ sb <= 2 ^ typeWidth) by (rewrite <- Z.pow_succ_r by lia; apply Z.pow_le_mono_r; lia). lia.
Qed.

Lemma wideRightShiftWithSticky_spec hi lo count :
  0 < count < typeWidth -> is_uint typeWidth hi -> is_uint typeWidth lo ->
  let '(h, l) := wideRightShiftWithSticky hi lo count in
  is_uint typeWidth h /\ is_uint typeWidth l /\ h * 2 ^ typeWidth + l = jam (hi * 2 ^ typeWidth + lo) count.
Proof.
  intros Hc Hh Hl. unfold wideRightShiftWithSticky. destruct (Z.ltb_spec count typeWidth); [|lia].
  set (W := typeWidth) in *. pose proof (pow2_pos W ltac:(lia)) as HW. pose proof (pow2_pos count ltac:(lia)) as HC.
  rewrite !shr_spec, (ushl_spec W hi) by lia.
  pose proof (lor_shl_shr W hi lo (W - count) ltac:(lia) Hl) as L. replace (W - (W - count)) with count in L by lia.
  rewrite L. pose proof Hh as Hh'. pose proof Hl as Hl'. unfold is_uint in Hh', Hl'.
  assert (Dh : forall x, 0 <= x < 2 ^ W -> 0 <= x / 2 ^ count < 2 ^ W)
    by (intros; split; [apply Z.div_pos|apply Z.div_lt_upper_bound]; nia).
  set (y := uint W (hi * 2 ^ (W - count)) + lo / 2 ^ count) in *.
  assert (Hy : 0 <= y < 2 ^ W) by (rewrite <- L; apply lor_lt_pow2; [lia|apply uint_range; lia|apply Dh; lia]).
  set (st := b2z (nonzero (ushl W lo (W - count)))). assert (Hst : 0 <= st <= 1) by (unfold st; destruct (nonzero _); cbn; lia).
  assert (Hor : 0 <= Z.lor y st < 2 ^ W).
  { apply lor_lt_pow2; [lia|lia|]. pose proof (Z.pow_le_mono_r 2 1 W ltac:(lia) ltac:(lia)). lia. }
  split; [apply Dh; lia|]. split; [assumption|]. unfold jam.
  assert (Q : (hi * 2 ^ W + lo) / 2 ^ count = hi / 2 ^ count * 2 ^ W + y).
  { rewrite (div_double W ltac:(lia) (hi * 2 ^ W + lo) count ltac:(lia)).
    rewrite Z.div_add_l, (Z.div_small lo), Z.add_0_r by lia.
    rewrite (Z.add_comm (hi * 2 ^ W)), Z_mod_plus_full, (Z.mod_small lo) by lia. reflexivity. }
  assert (T : b2z (nonzero ((hi * 2 ^ W + lo) mod 2 ^ count)) = st).
  { pose proof (sticky_shift W lo count ltac:(lia) Hl) as S. unfold st, nonzero, jam in *.
    replace ((hi * 2 ^ W + lo) mod 2 ^ count) with (lo mod 2 ^ count).
    - rewrite ushl_spec by lia. unfold uint.
      replace (2 ^ W) with (2 ^ count * 2 ^ (W - count)) by (rewrite <- pow2_split by lia; f_equal; lia).
      rewrite Zmult_mod_distr_r. pose proof (pow2_pos (W - count) ltac:(lia)).
      destruct (Z.eqb_spec (lo mod 2 ^ count) 0) as [->|N]; [reflexivity|].
      rewrite (proj2 (Z.eqb_neq _ 0)); [reflexivity|]. pose proof (Z.mod_pos_bound lo (2 ^ count) HC). nia.
    - replace W with (W - count + count) by lia. rewrite pow2_split, Z.mul_assoc, Z.add_comm by lia.
      now rewrite Z_mod_plus_full. }
  rewrite Q, T. rewrite <- (lor_add_disjoint _ y), <- Z.lor_assoc, lor_add_disjoint by lia. reflexivity.
Qed.

Lemma wideLeftShift_one hi lo : is_uint (typeWidth - 1) hi -> is_uint typeWidth lo ->
  let '(h, l) := wideLeftShift hi lo 1 in
  is_uint typeWidth h /\ is_uint typeWidth l /\ h * 2 ^ typeWidth + l = 2 * (hi * 2 ^ typeWidth + lo).
Proof.
  intros Hh Hl. pose proof width_bounds as B. unfold wideLeftShift. set (W := typeWidth) in *.
  pose proof (pow2_S W ltac:(lia)) as P. pose proof Hh as Hh'. pose proof Hl as Hl'. unfold is_uint in Hh', Hl'.
  pose proof (pow2_pos (W - 1) ltac:(lia)). rewrite shr_spec, !ushl_spec by lia.
  rewrite lor_shl_shr by (lia || assumption). rewrite (uint_shl W ltac:(lia) lo 1 ltac:(lia)).
  change (2 ^ 1) with 2. rewrite uint_small by (unfold is_uint; lia).
  pose proof (Z.div_mod lo (2 ^ (W - 1)) ltac:(lia)). pose proof (Z.mod_pos_bound lo (2 ^ (W - 1)) ltac:(lia)).
  assert (0 <= lo / 2 ^ (W - 1) <= 1).
  { split; [apply Z.div_pos; lia|]. apply Z.lt_succ_r, Z.div_lt_upper_bound; lia. }
  unfold is_uint. nia.
Qed.
End HelperSpecs.

(** ** The three precisions *)

Lemma rep_clz_quad_spec a : 0 < a < 2 ^ 128 -> rep_clz_quad a = clz 128 a.
Proof.
  intros Ha. unfold rep_clz_quad, utwords, nonzero.
  assert (U : is_uint (2 * 64) a) by (unfold is_uint; lia).
  destruct (high_of_all_u 64 ltac:(lia) a U) as [-> [H0 H1]].
  change (low (words_of_all_u 64 a)) with (a mod 2 ^ 64).
  pose proof (Z.div_mod a (2 ^ 64) ltac:(lia)) as D. pose proof (Z.mod_pos_bound a (2 ^ 64) ltac:(lia)) as M.
  destruct (Z.eqb_spec (a / 2 ^ 64) 0) as [E|E]; cbn [negb].
  - replace (a mod 2 ^ 64) with a by lia. pose proof (log2_lt_width 64 a ltac:(lia)).
    unfold clz, uadd. rewrite (uint_small 64) by (unfold is_uint; lia). rewrite sint_small by (unfold is_sint; lia). lia.
  - pose proof (log2_lt_width 64 (a / 2 ^ 64) ltac:(lia)).
    pose proof (log2_double 64 ltac:(lia) (a / 2 ^ 64) (a mod 2 ^ 64) ltac:(lia) M) as L.
    rewrite Z.mul_comm, <- D in L. unfold clz, uadd.
    rewrite (uint_small 64) by (unfold is_uint; lia). rewrite sint_small by (unfold is_sint; lia). lia.
Qed.

Definition single_ops : @FpOps single_precision :=
  @Build_FpOps single_precision rep_clz_single wideMultiply_single (fun a _ => eq_refl).
Definition double_ops : @FpOps double_precision :=
  @Build_FpOps double_precision rep_clz_double wideMultiply_double (fun a _ => eq_refl).
Definition quad_ops : @FpOps quad_precision :=
  @Build_FpOps quad_precision rep_clz_quad wideMultiply_quad rep_clz_quad_spec.

Lemma single_wide : @FpWideMul single_precision single_ops.
Proof.
  intros a b Ha Hb. cbn [wideMultiply single_ops typeWidth single_precision] in *. unfold wideMultiply_single, umul.
  unfold is_uint in *. rewrite (uint_small 64) by (unfold is_uint; nia). rewrite shr_spec by lia.
  assert (0 <= a * b / 2 ^ 32 < 2 ^ 32) by (split; [apply Z.div_pos|apply Z.div_lt_upper_bound]; nia).
  rewrite (uint_small 32 (_ / _)) by (unfold is_uint; lia).
  pose proof (uint_range 32 (a * b) ltac:(lia)) as R. split; [lia|]. split; [exact R|].
  unfold uint. rewrite Z.mul_comm, <- Z.div_mod by lia. reflexivity.
Qed.

Lemma double_wide : @FpWideMul double_precision double_ops.
Proof.
  intros a b Ha Hb. cbn [wideMultiply double_ops typeWidth double_precision] in *. unfold wideMultiply_double, umul, uadd.
  change 0xffffffff with (2 ^ 32 - 1). rewrite !land_ones_mod, !shr_spec, ushl_spec by lia.
  unfold is_uint in Ha, Hb. set (M := 2 ^ 32). assert (EM : 2 ^ 64 = M * M) by reflexivity.
  assert (HM : 0 < M) by (unfold M; lia). assert (HM4 : 4 <= M) by (unfold M; lia).
  assert (U : forall x, 0 <= x < M * M -> uint 64 x = x) by (intros; apply uint_small; unfold is_uint; lia).
  pose proof (Z.div_mod a M ltac:(lia)) as Da. pose proof (Z.div_mod b M ltac:(lia)) as Db.
  assert (B : forall x, 0 <= x mod M < M) by (intros; apply Z.mod_pos_bound; lia).
  assert (Q : forall x, 0 <= x < M * M -> 0 <= x / M < M)
    by (intros; split; [apply Z.div_pos|apply Z.div_lt_upper_bound]; lia).
  pose proof (B a). pose proof (B b). pose proof (Q a ltac:(lia)). pose proof (Q b ltac:(lia)).
  set (a1 := a / M) in *. set (a0 := a mod M) in *. set (b1 := b / M) in *. set (b0 := b mod M) in *.
  clearbody a1 a0 b1 b0. rewrite !(U (_ * _)) by nia.
  set (ll := a0 * b0). set (lh := a0 * b1). set (hl := a1 * b0). set (hh := a1 * b1).
  assert (0 <= ll < M * M /\ 0 <= lh < M * M /\ 0 <= hl < M * M /\ 0 <= hh) as (? & ? & ? & ?) by (unfold ll, lh, hl, hh; nia).
  assert (E : a * b = hh * (M * M) + (lh + hl) * M + ll) by (rewrite Da, Db; unfold ll, lh, hl, hh; ring).
  assert (Eb : 0 <= hh * (M * M) + (lh + hl) * M + ll < M * M * (M * M)) by (rewrite <- E; nia).
  clearbody ll lh hl hh. pose proof (B ll). pose proof (B lh). pose proof (B hl).
  pose proof (Q ll ltac:(lia)). pose proof (Q lh ltac:(lia)). pose proof (Q hl ltac:(lia)).
  pose proof (Z.div_mod ll M ltac:(lia)). pose proof (Z.div_mod lh M ltac:(lia)). pose proof (Z.div_mod hl M ltac:(lia)).
  rewrite (U (ll / M + lh mod M)) by nia. rewrite (U (ll / M + lh mod M + hl mod M)) by nia.
  set (r1 := ll / M + lh mod M + hl mod M) in *.
  pose proof (Z.div_mod r1 M ltac:(lia)). pose proof (B r1).
  assert (R : uint 64 (ll mod M + uint 64 (r1 * M)) = ll mod M + r1 mod M * M).
  { apply uint_of_eqm; [unfold is_uint; nia|]. rewrite uint_eqm.
    replace (r1 * M) with (r1 mod M * M + r1 / M * 2 ^ 64) by (rewrite EM; nia).
    rewrite (eqm_mul_pow 64). now rewrite Z.add_0_r. }
  rewrite R, E.
  assert (HH1 : 0 <= lh / M + hl / M + r1 / M + hh < M * M).
  { assert (0 <= r1 / M) by (apply Z.div_pos; lia). split; [nia|].
    apply Z.lt_nge. intros C.
    assert (hh * (M * M) + (lh + hl) * M + ll = (lh / M + hl / M + r1 / M + hh) * (M * M) + (ll mod M + r1 mod M * M))
      by (unfold r1 in *; nia). nia. }
  assert (0 <= r1 / M) by (apply Z.div_pos; lia).
  rewrite (U (lh / M + hl / M)), (U (lh / M + hl / M + r1 / M)), (U (_ + hh)) by nia.
  split; [unfold is_uint; lia|]. split; [unfold is_uint; nia|]. rewrite EM. unfold r1 in *. nia.
Qed.
