(* ===== verification/FpSpec.v ===== *)
(** * Soft float: values and correct rounding

    The meaning of a representation and the specification the arithmetic
    routines are proved against.  Values are counted in units of the least
    positive number of the format, so every finite value is an integer and a
    real result is a rational [num / den].  [rounds_to num den r] says that
    [r] is the representation of the magnitude nearest to [num / den], ties to
    even, with infinity from the midpoint beyond the largest finite number
    on: it determines [r]. *)

From S2P Require Import Prelude IntBits FpLib.

Section Values.
Context `{FpFormat}.

(** The magnitude of a representation without its sign bit.  The formula is
    also used at [infRep], where it gives the next power of two. *)
Definition fpval (x : Z) : Z :=
  let e := x / 2 ^ significandBits in
  let m := x mod 2 ^ significandBits in
  if e =? 0 then m else (m + 2 ^ significandBits) * 2 ^ (e - 1).

Definition fp_abs (rep : Z) : Z := rep mod 2 ^ (typeWidth - 1).
Definition fp_neg (rep : Z) : bool := 2 ^ (typeWidth - 1) <=? rep.
Definition is_nan (rep : Z) : bool := infRep <? fp_abs rep.
Definition is_inf (rep : Z) : bool := fp_abs rep =? infRep.
Definition is_finite (rep : Z) : bool := fp_abs rep <? infRep.
(** The signed value of a finite number, in units of the least positive one. *)
Definition fp_value (rep : Z) : Z := if fp_neg rep then - fpval (fp_abs rep) else fpval (fp_abs rep).
(** A magnitude with a sign. *)
Definition with_sign (neg : bool) (x : Z) : Z := if neg then 2 ^ (typeWidth - 1) + x else x.

(** The number 1 counted in units of the least positive number is
    [2 ^ unitExp]. *)
Definition unitExp : Z := exponentBias + significandBits - 1.

Lemma unit_pos : 0 < 2 ^ unitExp.
Proof.
  pose proof exponentBits_bounds. apply pow2_pos. unfold unitExp. rewrite exponentBias_val.
  assert (0 < 2 ^ (exponentBits - 1)) by (apply pow2_pos; lia). lia.
Qed.

Definition rounds_to (num den r : Z) : Prop :=
  0 <= r <= infRep /\
  (r = 0 \/ den * (fpval (r - 1) + fpval r) < 2 * num \/
   (den * (fpval (r - 1) + fpval r) = 2 * num /\ Z.even r = true)) /\
  (r = infRep \/ 2 * num < den * (fpval r + fpval (r + 1)) \/
   (2 * num = den * (fpval r + fpval (r + 1)) /\ Z.even r = true)).

(** Exponent [E] and a significand [q] with its leading bit in place, or
    with [E = 1] when there is none. *)
Lemma fpval_parts E q : 1 <= E -> 0 <= q <= 2 * 2 ^ significandBits -> (E = 1 \/ 2 ^ significandBits <= q) ->
  fpval ((E - 1) * 2 ^ significandBits + q) = q * 2 ^ (E - 1).
Proof.
  intros HE Hq Hn. pose proof exponentBits_bounds as B. pose proof sig_pow_pos as Hp.
  set (p := 2 ^ significandBits) in *. unfold fpval. fold p.
  rewrite (Z.div_add_l (E - 1) p q), (Z.add_comm (_ * _) q), Z_mod_plus_full by lia.
  destruct (Z.lt_ge_cases q p) as [L|L].
  - assert (E = 1) as -> by lia. rewrite Z.div_small, Z.mod_small by lia. cbn. lia.
  - destruct (Z.eq_dec q (2 * p)) as [->|N].
    + rewrite Z.div_mul, Z.mod_mul by lia. destruct (Z.eqb_spec (E - 1 + 2) 0); [lia|].
      replace (E - 1 + 2 - 1) with (1 + (E - 1)) by lia. rewrite pow2_split by lia. ring.
    + assert (D : q / p = 1) by (symmetry; apply Z.div_unique with (q - p); lia).
      rewrite D. destruct (Z.eqb_spec (E - 1 + 1) 0); [lia|]. rewrite Z.mod_eq, D by lia.
      replace (E - 1 + 1 - 1) with (E - 1) by lia. f_equal. lia.
Qed.

Lemma fpval_zero : fpval 0 = 0.
Proof. unfold fpval. rewrite Zmod_0_l, Zdiv_0_l. reflexivity. Qed.

(** Every magnitude has such parts. *)
Lemma parts_of x : 0 <= x -> exists E q, x = (E - 1) * 2 ^ significandBits + q /\ 1 <= E /\
  0 <= q < 2 * 2 ^ significandBits /\ (E = 1 \/ 2 ^ significandBits <= q).
Proof.
  intros Hx. pose proof sig_pow_pos as Hp. set (p := 2 ^ significandBits) in *.
  pose proof (Z.div_mod x p ltac:(lia)) as D. pose proof (Z.mod_pos_bound x p Hp) as M.
  assert (0 <= x / p) by (apply Z.div_pos; lia). destruct (Z.eq_dec (x / p) 0) as [E0|E0].
  - exists 1, x. rewrite E0 in D. repeat split; lia.
  - exists (x / p), (p + x mod p). repeat split; lia.
Qed.

Lemma fpval_step x : 0 <= x -> 0 <= fpval x < fpval (x + 1).
Proof.
  intros Hx. destruct (parts_of x Hx) as (E & q & -> & HE & Hq & Hn). pose proof (pow2_pos (E - 1) ltac:(lia)).
  rewrite <- Z.add_assoc, !fpval_parts by lia. nia.
Qed.

Lemma fpval_mono x y : 0 <= x -> x <= y -> fpval x <= fpval y.
Proof.
  intros Hx Hxy. replace y with (x + Z.of_nat (Z.to_nat (y - x))) by lia.
  induction (Z.to_nat (y - x)) as [|n IH]; [rewrite Z.add_0_r; lia|].
  rewrite Nat2Z.inj_succ. pose proof (fpval_step (x + Z.of_nat n) ltac:(lia)).
  replace (x + Z.succ (Z.of_nat n)) with (x + Z.of_nat n + 1) by lia. lia.
Qed.

Lemma fpval_lt x y : 0 <= x -> x < y -> fpval x < fpval y.
Proof. intros Hx Hxy. pose proof (fpval_step x Hx). pose proof (fpval_mono (x + 1) y ltac:(lia) ltac:(lia)). lia. Qed.

Lemma fpval_lt_iff x y : 0 <= x -> 0 <= y -> (fpval x < fpval y <-> x < y).
Proof.
  intros Hx Hy. split; [|now apply fpval_lt]. intros L. apply Z.lt_nge. intros G.
  pose proof (fpval_mono y x Hy G). lia.
Qed.

Lemma fpval_inj x y : 0 <= x -> 0 <= y -> fpval x = fpval y -> x = y.
Proof.
  intros Hx Hy E. destruct (Z.lt_trichotomy x y) as [L|[L|L]]; [|assumption|].
  - pose proof (fpval_lt x y Hx L). lia.
  - pose proof (fpval_lt y x Hy L). lia.
Qed.

(** The specification determines the result. *)
Lemma rounds_to_unique num den r r' : 0 < den -> rounds_to num den r -> rounds_to num den r' -> r = r'.
Proof.
  intros Hd (R & L & U) (R' & L' & U').
  assert (G : forall a b, 0 <= a -> a < b -> fpval a + fpval (a + 1) <= fpval (b - 1) + fpval b).
  { intros a b Ha Hab. pose proof (fpval_mono a (b - 1) Ha ltac:(lia)).
    pose proof (fpval_mono (a + 1) b ltac:(lia) ltac:(lia)). lia. }
  assert (Ev : forall a b, a < b -> Z.even a = true -> Z.even b = true -> a + 1 < b).
  { intros a b Hab Ea Eb. apply Z.even_spec in Ea as [k ->]. apply Z.even_spec in Eb as [m ->]. lia. }
  assert (G' : forall a b, 0 <= a -> a + 1 < b -> fpval a + fpval (a + 1) < fpval (b - 1) + fpval b).
  { intros a b Ha Hab. pose proof (fpval_lt a (b - 1) Ha ltac:(lia)).
    pose proof (fpval_mono (a + 1) b ltac:(lia) ltac:(lia)). lia. }
  destruct (Z.lt_trichotomy r r') as [T|[T|T]]; [exfalso|assumption|exfalso].
  - destruct L' as [Z0|[L'|[L' E']]]; [lia| |]; (destruct U as [I|[U|[U E]]]; [lia| |]);
      pose proof (G r r' ltac:(lia) T); try nia. pose proof (G' r r' ltac:(lia) (Ev _ _ T E E')). nia.
  - destruct L as [Z0|[L|[L E]]]; [lia| |]; (destruct U' as [I|[U'|[U' E']]]; [lia| |]);
      pose proof (G r' r ltac:(lia) T); try nia. pose proof (G' r' r ltac:(lia) (Ev _ _ T E' E)). nia.
Qed.

(** An exact value rounds to itself. *)
Lemma rounds_to_exact den r : 0 < den -> 0 <= r <= infRep -> rounds_to (den * fpval r) den r.
Proof.
  intros Hd Hr. split; [assumption|]. pose proof (fpval_step r ltac:(lia)). split.
  - destruct (Z.eq_dec r 0); [now left|right; left]. pose proof (fpval_lt (r - 1) r ltac:(lia) ltac:(lia)). nia.
  - right; left. nia.
Qed.

(** Scaling the rational does not change it. *)
Lemma rounds_to_scale c num den r : 0 < c -> rounds_to (c * num) (c * den) r <-> rounds_to num den r.
Proof.
  intros Hc. unfold rounds_to.
  assert (L : forall a b, c * den * a < 2 * (c * b) <-> den * a < 2 * b).
  { intros. replace (c * den * a) with (c * (den * a)) by ring. replace (2 * (c * b)) with (c * (2 * b)) by ring.
    symmetry. apply Z.mul_lt_mono_pos_l; lia. }
  assert (U : forall a b, 2 * (c * b) < c * den * a <-> 2 * b < den * a).
  { intros. replace (c * den * a) with (c * (den * a)) by ring. replace (2 * (c * b)) with (c * (2 * b)) by ring.
    symmetry. apply Z.mul_lt_mono_pos_l; lia. }
  assert (Q : forall a b, c * den * a = 2 * (c * b) <-> den * a = 2 * b) by (intros; split; nia).
  assert (Q' : forall a b, 2 * (c * b) = c * den * a <-> 2 * b = den * a) by (intros; split; nia).
  rewrite L, U, Q, Q'. tauto.
Qed.

(** The final rounding every routine performs: [S] has [g] bits below the
    significand, and stands for the exact result up to those bits. *)
Definition round_nearest (g r0 R : Z) : Z :=
  r0 + (if 2 ^ (g - 1) <? R then 1 else if R =? 2 ^ (g - 1) then r0 mod 2 else 0).

Section Rounding.
Context (g E S N D num den : Z).
Hypotheses (Hg : 1 <= g) (HE : 1 <= E < maxExponent)
  (HS : 0 <= S < 2 * 2 ^ significandBits * 2 ^ g) (Hn : E = 1 \/ 2 ^ significandBits * 2 ^ g <= S)
  (HD : 0 < D) (Hden : 0 < den) (HA : agrees (g - 1) S N D)
  (Hnum : num * (D * 2 ^ g) = N * 2 ^ (E - 1) * den).
Let q := S / 2 ^ g.
Let r0 := (E - 1) * 2 ^ significandBits + q.

(** Comparing the exact result with a multiple of half a unit. *)
Lemma compare_half c : (2 * num ?= den * (c * 2 ^ (E - 1))) = (S ?= c * 2 ^ (g - 1)).
Proof.
  rewrite <- (HA (c * 2 ^ (g - 1))) by (now exists c).
  pose proof (pow2_pos (E - 1) ltac:(lia)). pose proof (pow2_pos (g - 1) ltac:(lia)).
  assert (P : 2 ^ g = 2 * 2 ^ (g - 1)) by (apply pow2_S; lia).
  rewrite <- (compare_scale _ _ (D * 2 ^ g)) by nia.
  replace (2 * num * (D * 2 ^ g)) with (N * (2 ^ (E - 1) * den * 2)) by (transitivity (2 * (num * (D * 2 ^ g))); [rewrite Hnum|]; ring).
  replace (den * (c * 2 ^ (E - 1)) * (D * 2 ^ g)) with (c * 2 ^ (g - 1) * D * (2 ^ (E - 1) * den * 2)) by (rewrite P; ring).
  apply compare_scale. nia.
Qed.

Lemma q_bounds : 0 <= q < 2 * 2 ^ significandBits /\ (E = 1 \/ 2 ^ significandBits <= q) /\
  S = q * 2 ^ g + S mod 2 ^ g /\ 0 <= S mod 2 ^ g < 2 ^ g.
Proof.
  pose proof (pow2_pos g ltac:(lia)) as Hp. pose proof (Z.div_mod S (2 ^ g) ltac:(lia)) as Dm.
  pose proof (Z.mod_pos_bound S (2 ^ g) Hp). unfold q. repeat split; try lia.
  - apply Z.div_pos; lia.
  - apply Z.div_lt_upper_bound; lia.
  - destruct Hn as [->|L]; [now left|right]. apply Z.div_le_lower_bound; lia.
Qed.

(** The magnitude without the extra bits, and when nothing is lost. *)
Lemma chop_round : 0 <= r0 /\ r0 + 1 <= infRep /\ den * fpval r0 <= num < den * fpval (r0 + 1) /\
  (num = den * fpval r0 <-> S mod 2 ^ g = 0).
Proof.
  destruct q_bounds as (Hq & Hqn & HSq & HR). assert (P : 2 ^ g = 2 * 2 ^ (g - 1)) by (apply pow2_S; lia).
  pose proof (pow2_pos (g - 1) ltac:(lia)) as Hp. pose proof (pow2_pos (E - 1) ltac:(lia)) as He. pose proof sig_pow_pos as Hs.
  assert (V0 : fpval r0 = q * 2 ^ (E - 1)) by (apply fpval_parts; lia).
  assert (V1 : fpval (r0 + 1) = (q + 1) * 2 ^ (E - 1)) by (unfold r0; rewrite <- Z.add_assoc; apply fpval_parts; lia).
  pose proof (compare_half (2 * q)) as C0. pose proof (compare_half (2 * q + 2)) as C2. rewrite V0, V1.
  split; [unfold r0; nia|]. split; [rewrite infRep_val; unfold r0; nia|].
  replace (den * (2 * q * 2 ^ (E - 1))) with (2 * (den * (q * 2 ^ (E - 1)))) in C0 by ring.
  replace (den * ((2 * q + 2) * 2 ^ (E - 1))) with (2 * (den * ((q + 1) * 2 ^ (E - 1)))) in C2 by ring.
  rewrite (proj2 (Z.compare_lt_iff S _)) in C2 by nia. apply (proj1 (Z.compare_lt_iff _ _)) in C2.
  set (Y := den * ((q + 1) * 2 ^ (E - 1))) in *. set (X := den * (q * 2 ^ (E - 1))) in *.
  destruct (Z.eq_dec (S mod 2 ^ g) 0) as [Z0|Z0].
  - rewrite (proj2 (Z.compare_eq_iff S _)) in C0 by nia. apply Z.compare_eq_iff in C0. split; [lia|]. split; intros _; [exact Z0|lia].
  - rewrite (proj2 (Z.compare_gt_iff S _)) in C0 by nia. apply (proj1 (Z.compare_gt_iff _ _)) in C0. split; [lia|]. split; intros C; [lia|contradiction].
Qed.

Lemma rounds_to_round : rounds_to num den (round_nearest g r0 (S mod 2 ^ g)).
Proof.
  destruct q_bounds as (Hq & Hqn & HSq & HR). set (R := S mod 2 ^ g) in *.
  assert (P : 2 ^ g = 2 * 2 ^ (g - 1)) by (apply pow2_S; lia).
  pose proof (pow2_pos (g - 1) ltac:(lia)) as Hp. pose proof (pow2_pos (E - 1) ltac:(lia)) as He.
  pose proof sig_pow_pos as Hs. set (h := 2 ^ (g - 1)) in *. set (e := 2 ^ (E - 1)) in *.
  assert (V0 : fpval r0 = q * e) by (apply fpval_parts; lia).
  assert (V1 : fpval (r0 + 1) = (q + 1) * e) by (unfold r0; rewrite <- Z.add_assoc; apply fpval_parts; lia).
  assert (Hr0 : 0 <= r0 /\ r0 + 1 <= infRep).
  { rewrite infRep_val. unfold r0. nia. }
  pose proof (compare_half (2 * q)) as C0. pose proof (compare_half (2 * q + 1)) as C1.
  pose proof (compare_half (2 * q + 2)) as C2. fold h e in C0, C1, C2.
  assert (L0 : den * (2 * (q * e)) <= 2 * num).
  { apply Z.compare_ge_iff. replace (2 * (q * e)) with (2 * q * e) by ring. rewrite C0. apply Z.compare_ge_iff. nia. }
  assert (U2 : 2 * num < den * (2 * ((q + 1) * e))).
  { replace (2 * ((q + 1) * e)) with ((2 * q + 2) * e) by ring.
    rewrite (proj2 (Z.compare_lt_iff S _)) in C2 by nia. now apply Z.compare_lt_iff in C2. }
  assert (Mid : fpval r0 + fpval (r0 + 1) = (2 * q + 1) * e) by (rewrite V0, V1; ring).
  assert (Low : r0 = 0 \/ den * (fpval (r0 - 1) + fpval r0) < 2 * num).
  { destruct (Z.eq_dec r0 0); [now left|right]. pose proof (fpval_lt (r0 - 1) r0 ltac:(lia) ltac:(lia)). nia. }
  assert (High : 2 * num < den * (fpval (r0 + 1) + fpval (r0 + 1 + 1))).
  { pose proof (fpval_step (r0 + 1) ltac:(lia)). nia. }
  unfold round_nearest. fold h. destruct (Z.ltb_spec h R) as [G|G]; [|destruct (Z.eqb_spec R h) as [T|T]].
  - assert (C : (S ?= (2 * q + 1) * h) = Gt) by (apply Z.compare_gt_iff; nia).
    rewrite C in C1. apply Z.compare_gt_iff in C1.
    split; [lia|]. split; [right; left|right; left; assumption].
    replace (r0 + 1 - 1) with r0 by lia. rewrite Mid. lia.
  - assert (C : (S ?= (2 * q + 1) * h) = Eq) by (apply Z.compare_eq_iff; nia).
    rewrite C in C1. apply Z.compare_eq_iff in C1. rewrite <- Z.bit0_mod.
    rewrite Z.bit0_odd, <- Z.negb_even. destruct (Z.even r0) eqn:Ev; cbn [negb Z.b2z].
    + rewrite Z.add_0_r. split; [lia|]. split; [tauto|]. right; right. rewrite Mid. auto.
    + split; [lia|]. split; [|right; left; assumption]. right; right.
      replace (r0 + 1 - 1) with r0 by lia. rewrite Mid, Z.even_add, Ev. auto.
  - assert (C : (S ?= (2 * q + 1) * h) = Lt) by (apply Z.compare_lt_iff; nia).
    rewrite C in C1. apply Z.compare_lt_iff in C1.
    rewrite Z.add_0_r. split; [lia|]. split; [tauto|]. right; left. rewrite Mid. exact C1.
Qed.
End Rounding.
End Values.

(** ** Representations and their parts *)

Section Reps.
Context `{FpFormat}.

Lemma rep_parts rep : is_uint typeWidth rep ->
  rep = with_sign (fp_neg rep) (fp_abs rep) /\ 0 <= fp_abs rep < 2 ^ (typeWidth - 1) /\
  Z.land rep absMask = fp_abs rep /\ Z.land rep signBit = (if fp_neg rep then 2 ^ (typeWidth - 1) else 0).
Proof.
  intros R. pose proof exponentBits_bounds as B. destruct (sign_of rep R) as [S E].
  rewrite abs_of. unfold fp_abs, fp_neg, with_sign in *.
  rewrite S. repeat split; try (apply Z.mod_pos_bound, pow2_pos; lia);
    destruct (Z.ltb_spec rep (2 ^ (typeWidth - 1))), (Z.leb_spec (2 ^ (typeWidth - 1)) rep); lia.
Qed.

Lemma with_sign_parts n x : 0 <= x < 2 ^ (typeWidth - 1) ->
  is_uint typeWidth (with_sign n x) /\ fp_neg (with_sign n x) = n /\ fp_abs (with_sign n x) = x.
Proof.
  intros Hx. pose proof exponentBits_bounds as B. pose proof (pow2_S typeWidth) as P.
  unfold is_uint, fp_neg, fp_abs, with_sign. rewrite P by lia.
  set (h := 2 ^ (typeWidth - 1)) in *. destruct n; (split; [lia|split; [lia|]]).
  - replace (h + x) with (x + 1 * h) by lia. rewrite Z_mod_plus_full. now apply Z.mod_small.
  - now apply Z.mod_small.
Qed.

Lemma with_sign_lor (n : bool) x : 0 <= x < 2 ^ (typeWidth - 1) ->
  Z.lor x (if n then 2 ^ (typeWidth - 1) else 0) = with_sign n x.
Proof.
  intros Hx. pose proof exponentBits_bounds as B. unfold with_sign. destruct n; [|apply Z.lor_0_r].
  rewrite Z.lor_comm, <- (Z.mul_1_l (2 ^ (typeWidth - 1))), lor_add_disjoint by lia. lia.
Qed.

Lemma with_sign_succ n x c : 0 <= c -> 0 <= x + c < 2 ^ (typeWidth - 1) -> 0 <= x ->
  uadd typeWidth (with_sign n x) c = with_sign n (x + c).
Proof.
  intros Hc Hx H0. destruct (with_sign_parts n (x + c) Hx) as [R _].
  unfold uadd. replace (with_sign n x + c) with (with_sign n (x + c)) by (destruct n; cbn [with_sign]; lia).
  now apply uint_small.
Qed.

Lemma with_sign_even n x : with_sign n x mod 2 = x mod 2.
Proof.
  pose proof exponentBits_bounds as B. destruct n; cbn [with_sign]; [|reflexivity].
  rewrite (pow2_S (typeWidth - 1)) by lia. rewrite Z.add_comm, Z.mul_comm. apply Z_mod_plus_full.
Qed.

Lemma fp_value_with_sign (n : bool) x : 0 <= x < 2 ^ (typeWidth - 1) -> fp_value (with_sign n x) = if n then - fpval x else fpval x.
Proof. intros Hx. unfold fp_value. destruct (with_sign_parts n x Hx) as (_ & -> & ->). reflexivity. Qed.

(** Everything from the last power of two on overflows. *)
Lemma rounds_to_inf num den : 0 < den -> den * fpval infRep <= num -> rounds_to num den infRep.
Proof.
  intros Hd L. pose proof infRep_bounds as B. split; [lia|]. split; [right; left|now left].
  set (i := infRep) in *. pose proof (fpval_lt (i - 1) i ltac:(lia) ltac:(lia)). nia.
Qed.

Lemma fpval_inf : fpval infRep = 2 ^ significandBits * 2 ^ (maxExponent - 1).
Proof.
  pose proof sig_pow_pos as Hp. pose proof exponentBits_bounds as B.
  assert (HM : 2 <= maxExponent) by (rewrite maxExponent_val; pose proof (Z.pow_le_mono_r 2 5 exponentBits); lia).
  rewrite infRep_val.
  replace (maxExponent * 2 ^ significandBits) with ((maxExponent - 1) * 2 ^ significandBits + 2 ^ significandBits) by ring.
  apply fpval_parts; lia.
Qed.

(** The exponent field and the significand field of a finite magnitude. *)
Lemma fields_of rep : is_uint typeWidth rep ->
  Z.land (shr typeWidth rep significandBits) maxExponent = fp_abs rep / 2 ^ significandBits /\
  Z.land rep significandMask = fp_abs rep mod 2 ^ significandBits.
Proof.
  intros R. pose proof exponentBits_bounds as B. rewrite significand_of, maxExponent_val, land_ones_mod, shr_spec by lia.
  pose proof sig_pow_pos as Hp. unfold fp_abs. rewrite signBit_split.
  set (p := 2 ^ significandBits) in *. assert (0 < 2 ^ exponentBits) by (apply pow2_pos; lia).
  rewrite (Z.mul_comm (2 ^ exponentBits)), Z.rem_mul_r by lia.
  rewrite (Z.mul_comm p (_ mod _)), Z.div_add, (Z.div_small (rep mod p)), Z_mod_plus_full, Zmod_mod
    by (try apply Z.mod_pos_bound; lia). auto.
Qed.

(** [m | implicitBit] *)
Lemma lor_implicit m : 0 <= m < 2 ^ significandBits -> Z.lor m implicitBit = 2 ^ significandBits + m.
Proof.
  intros Hm. pose proof exponentBits_bounds as B. rewrite implicitBit_val, Z.lor_comm.
  rewrite <- (Z.mul_1_l (2 ^ significandBits)) at 1. rewrite lor_add_disjoint by lia. lia.
Qed.

(** [q ^ implicitBit] clears the leading bit. *)
Lemma lxor_implicit q : 2 ^ significandBits <= q < 2 * 2 ^ significandBits -> Z.lxor q implicitBit = q - 2 ^ significandBits.
Proof.
  intros Hq. pose proof exponentBits_bounds as B. rewrite implicitBit_val.
  replace q with (Z.lor (1 * 2 ^ significandBits) (q - 2 ^ significandBits)) at 1 by (rewrite lor_add_disjoint by lia; lia).
  rewrite Z.mul_1_l. apply Z.bits_inj'. intros i Hi. rewrite Z.lxor_spec, Z.lor_spec, Z.pow2_bits_eqb by lia.
  destruct (Z.eqb_spec significandBits i) as [<-|N]; [|now rewrite orb_false_l, xorb_false_r].
  rewrite <- (Z.mod_small (q - 2 ^ significandBits) (2 ^ significandBits)), Z.mod_pow2_bits_high by lia. reflexivity.
Qed.

(** [rep ^ signBit] is the negation. *)
Lemma flip_sign rep : is_uint typeWidth rep ->
  is_uint typeWidth (Z.lxor rep signBit) /\ fp_neg (Z.lxor rep signBit) = negb (fp_neg rep) /\
  fp_abs (Z.lxor rep signBit) = fp_abs rep.
Proof.
  intros R. destruct (rep_parts rep R) as (E & A & _ & _). pose proof exponentBits_bounds as B.
  assert (X : Z.lxor rep signBit = with_sign (negb (fp_neg rep)) (fp_abs rep)).
  { rewrite E at 1. rewrite signBit_val, <- !with_sign_lor by assumption.
    assert (T : forall i, 0 <= i -> Z.testbit (fp_abs rep) i = true -> i < typeWidth - 1).
    { intros i Hi T. apply Z.lt_nge. intros G. rewrite <- (Z.mod_small (fp_abs rep) (2 ^ (typeWidth - 1))) in T by lia.
      rewrite Z.mod_pow2_bits_high in T by lia. discriminate. }
    apply Z.bits_inj'. intros i Hi. specialize (T i Hi). rewrite Z.lxor_spec, !Z.lor_spec.
    destruct (fp_neg rep); cbn [negb]; rewrite ?Z.bits_0, Z.pow2_bits_eqb by lia;
      destruct (Z.eqb_spec (typeWidth - 1) i), (Z.testbit (fp_abs rep) i); try reflexivity; specialize (T eq_refl); lia. }
  rewrite X. apply with_sign_parts. assumption.
Qed.

(** [if (R > half) r++; if (R == half) r += r & 1;] below a sign bit. *)
Lemma round_bits g (n : bool) r0 R : 0 <= r0 -> r0 + 1 <= infRep ->
  let result := with_sign n r0 in
  let result := if R >? 2 ^ (g - 1) then uadd typeWidth result 1 else result in
  (if R =? 2 ^ (g - 1) then uadd typeWidth result (Z.land result 1) else result) = with_sign n (round_nearest g r0 R).
Proof.
  intros H1 H2. pose proof infRep_bounds as Bi. cbv zeta. unfold round_nearest.
  rewrite Z.gtb_ltb. pose proof (Z.mod_pos_bound r0 2 ltac:(lia)).
  destruct (Z.ltb_spec (2 ^ (g - 1)) R), (Z.eqb_spec R (2 ^ (g - 1))); try lia.
  - now apply with_sign_succ; lia.
  - change 1 with (2 ^ 1 - 1) at 1. rewrite land_ones_mod by lia. change (2 ^ 1) with 2. rewrite with_sign_even.
    now apply with_sign_succ; lia.
  - now rewrite Z.add_0_r.
Qed.

(** Packing the exponent [E] and the significand [q]. *)
Lemma pack E q : 1 <= E < maxExponent -> 2 ^ significandBits <= q < 2 * 2 ^ significandBits ->
  Z.lor (Z.land q significandMask) (ushl typeWidth E significandBits) = (E - 1) * 2 ^ significandBits + q.
Proof.
  intros HE Hq. pose proof exponentBits_bounds as B. pose proof infRep_bounds as I. rewrite infRep_val in I.
  rewrite significand_of, ushl_spec by lia. rewrite Z.mod_eq by lia.
  assert (Q : q / 2 ^ significandBits = 1) by (symmetry; apply Z.div_unique with (q - 2 ^ significandBits); lia). rewrite Q.
  assert (2 ^ typeWidth = 2 * 2 ^ (typeWidth - 1)) by (apply pow2_S; lia).
  rewrite uint_small by (unfold is_uint; nia). rewrite Z.lor_comm, lor_add_disjoint by lia. ring.
Qed.
End Reps.
