(* ===== verification/FpAdd.v ===== *)
(** * Soft float: addition and subtraction

    Models [fp_add_impl.inc] (all rounding modes of its [switch]),
    [fp_mode.c], and the files that instantiate or use it: [addsf3.c],
    [adddf3.c], [addtf3.c], [subsf3.c], [subdf3.c], [subtf3.c], [negsf2.c],
    [negdf2.c].  The main result is that the default build adds with
    correct rounding: every finite sum is rounded to nearest, ties to even. *)

From S2P Require Import Prelude IntBits FpLib FpSpec.

Inductive CRT_FE_ROUND_MODE := CRT_FE_TONEAREST | CRT_FE_DOWNWARD | CRT_FE_UPWARD | CRT_FE_TOWARDZERO.

(** [fp_mode.c]: the default environment. *)
Definition __fe_getround : CRT_FE_ROUND_MODE := CRT_FE_TONEAREST.

Section Add.
Context `{FpOps}.

(** The first block of [__addXf3__]: an operand is zero, infinity or NaN. *)
Definition add_special (a b : Z) : option Z :=
  let aAbs := a .& absMask in
  let bAbs := b .& absMask in
  if (aAbs -[typeWidth] 1 >=? infRep -[typeWidth] 1) || (bAbs -[typeWidth] 1 >=? infRep -[typeWidth] 1) then
    if aAbs >? infRep then Some (a .| quietBit)
    else if bAbs >? infRep then Some (b .| quietBit)
    else if aAbs =? infRep then
      if (a .^ b) =? signBit then Some qnanRep else Some a
    else if bAbs =? infRep then Some b
    else if negb (nonzero aAbs) then
      if negb (nonzero bAbs) then Some (a .& b) else Some b
    else if negb (nonzero bAbs) then Some a
    else None
  else None.

(** The exponent and significand of an operand, normalized. *)
Definition add_unpack (rep : Z) : Z * Z :=
  let exponent := (rep >>[typeWidth] significandBits) .& maxExponent in
  let significand := rep .& significandMask in
  if exponent =? 0 then let '(s, e) := normalize significand in (e, s)
  else (exponent, significand).

(** [bSignificand] shifted right by the difference of the exponents. *)
Definition add_align (bSignificand align : Z) : Z :=
  if nonzero align then
    if align <? typeWidth then
      let sticky := b2z (nonzero (bSignificand <<[typeWidth] (typeWidth - align))) in
      (bSignificand >>[typeWidth] align) .| sticky
    else 1
  else bSignificand.

(** The sum or difference of the aligned significands and its exponent;
    [None] is the exact cancellation. *)
Definition add_combine (subtraction : bool) (aExponent aSignificand bSignificand : Z) : option (Z * Z) :=
  if subtraction then
    let aSignificand := aSignificand -[typeWidth] bSignificand in
    if aSignificand =? 0 then None
    else if aSignificand <? (implicitBit <<[typeWidth] 3) then
      let shift := rep_clz aSignificand - rep_clz (implicitBit <<[typeWidth] 3) in
      Some (aExponent - shift, aSignificand <<[typeWidth] shift)
    else Some (aExponent, aSignificand)
  else
    let aSignificand := aSignificand +[typeWidth] bSignificand in
    if nonzero (aSignificand .& (implicitBit <<[typeWidth] 4)) then
      let sticky := b2z (nonzero (aSignificand .& 1)) in
      Some (aExponent + 1, (aSignificand >>[typeWidth] 1) .| sticky)
    else Some (aExponent, aSignificand).

(** Overflow, denormal results, and the final rounding. *)
Definition add_finish (mode : CRT_FE_ROUND_MODE) (resultSign aExponent aSignificand : Z) : Z :=
  if aExponent >=? maxExponent then infRep .| resultSign
  else
    let '(aExponent, aSignificand) :=
      if aExponent <=? 0 then
        let shift := 1 - aExponent in
        let sticky := b2z (nonzero (aSignificand <<[typeWidth] (typeWidth - shift))) in
        (0, (aSignificand >>[typeWidth] shift) .| sticky)
      else (aExponent, aSignificand) in
    let roundGuardSticky := aSignificand .& 0x7 in
    let result := (aSignificand >>[typeWidth] 3) .& significandMask in
    let result := result .| (aExponent <<[typeWidth] significandBits) in
    let result := result .| resultSign in
    match mode with
    | CRT_FE_TONEAREST =>
        let result := if roundGuardSticky >? 0x4 then result +[typeWidth] 1 else result in
        if roundGuardSticky =? 0x4 then result +[typeWidth] (result .& 1) else result
    | CRT_FE_DOWNWARD =>
        if nonzero resultSign && nonzero roundGuardSticky then result +[typeWidth] 1 else result
    | CRT_FE_UPWARD =>
        if negb (nonzero resultSign) && nonzero roundGuardSticky then result +[typeWidth] 1 else result
    | CRT_FE_TOWARDZERO => result
    end.

(** [roundGuardSticky], which also decides whether [__fe_raise_inexact] is called. *)
Definition add_sticky (aExponent aSignificand : Z) : Z :=
  if aExponent >=? maxExponent then 0
  else
    let aSignificand :=
      if aExponent <=? 0 then
        let shift := 1 - aExponent in
        let sticky := b2z (nonzero (aSignificand <<[typeWidth] (typeWidth - shift))) in
        (aSignificand >>[typeWidth] shift) .| sticky
      else aSignificand in
    aSignificand .& 0x7.

(** From the swapped operands to the exponent and the significand of their
    sum, with three extra bits; [None] where the sum is zero. *)
Definition add_sum (aRep bRep : Z) : option (Z * Z) :=
  let '(aExponent, aSignificand) := add_unpack aRep in
  let '(bExponent, bSignificand) := add_unpack bRep in
  let subtraction := nonzero ((aRep .^ bRep) .& signBit) in
  let aSignificand := (aSignificand .| implicitBit) <<[typeWidth] 3 in
  let bSignificand := (bSignificand .| implicitBit) <<[typeWidth] 3 in
  let align := uint 32 (aExponent - bExponent) in
  let bSignificand := add_align bSignificand align in
  add_combine subtraction aExponent aSignificand bSignificand.

Definition __addXf3__ (mode : CRT_FE_ROUND_MODE) (a b : Z) : Z :=
  match add_special a b with
  | Some result => result
  | None =>
      let aAbs := a .& absMask in
      let bAbs := b .& absMask in
      let '(aRep, bRep) := if bAbs >? aAbs then (b, a) else (a, b) in
      let resultSign := aRep .& signBit in
      match add_sum aRep bRep with
      | None => 0
      | Some (aExponent, aSignificand) => add_finish mode resultSign aExponent aSignificand
      end
  end.

(** Whether the call of [__fe_raise_inexact] at the end of [__addXf3__] is reached. *)
Definition add_inexact (a b : Z) : bool :=
  match add_special a b with
  | Some _ => false
  | None =>
      let aAbs := a .& absMask in
      let bAbs := b .& absMask in
      let '(aRep, bRep) := if bAbs >? aAbs then (b, a) else (a, b) in
      match add_sum aRep bRep with
      | None => false
      | Some (aExponent, aSignificand) => nonzero (add_sticky aExponent aSignificand)
      end
  end.

(** [negsf2.c], [negdf2.c] and [sub?f3.c]. *)
Definition negXf2 (a : Z) : Z := a .^ signBit.
Definition subXf3 (a b : Z) : Z := __addXf3__ __fe_getround a (b .^ signBit).
End Add.

Definition __addsf3 (a b : Z) : Z := @__addXf3__ single_precision single_ops __fe_getround a b.
Definition __adddf3 (a b : Z) : Z := @__addXf3__ double_precision double_ops __fe_getround a b.
Definition __addtf3 (a b : Z) : Z := @__addXf3__ quad_precision quad_ops __fe_getround a b.
Definition __subsf3 (a b : Z) : Z := @subXf3 single_precision single_ops a b.
Definition __subdf3 (a b : Z) : Z := @subXf3 double_precision double_ops a b.
Definition __subtf3 (a b : Z) : Z := @subXf3 quad_precision quad_ops a b.
Definition __negsf2 (a : Z) : Z := @negXf2 single_precision a.
Definition __negdf2 (a : Z) : Z := @negXf2 double_precision a.

(** ** Unpacking *)

Section AddProof.
Context `{FpOps}.

Notation sb := significandBits.
Notation W := typeWidth.
(** The weight of the implicit bit. *)
Notation ib := (2 ^ significandBits).

(** [s] is the significand of the magnitude [x] with its implicit bit, at
    exponent [e], which is below 1 for a subnormal number. *)
Definition unpacked (x e s : Z) : Prop :=
  ib <= s < 2 * ib /\ 1 - sb <= e < maxExponent /\ fpval x * 2 ^ sb = s * 2 ^ (e - 1 + sb).

Lemma add_unpack_spec rep : is_uint W rep -> 0 < fp_abs rep < infRep ->
  let '(e, m) := add_unpack rep in unpacked (fp_abs rep) e (Z.lor m implicitBit).
Proof.
  intros R Hx. unfold add_unpack. destruct (fields_of rep R) as [-> ->].
  pose proof sig_pow_pos as Hp. pose proof exponentBits_bounds as B. rewrite implicitBit_val.
  set (x := fp_abs rep) in *. set (p := ib) in *.
  pose proof (Z.div_mod x p ltac:(lia)) as D. pose proof (Z.mod_pos_bound x p Hp) as M.
  rewrite infRep_val in Hx. fold p in Hx.
  assert (Hor : forall m, 0 <= m < p -> Z.lor m p = m + p).
  { intros m Hm. rewrite Z.lor_comm. unfold p. rewrite <- (Z.mul_1_l ib), lor_add_disjoint; fold p; lia. }
  destruct (Z.eqb_spec (x / p) 0) as [E|E].
  - rewrite E, Z.mul_0_r, Z.add_0_l in D. rewrite <- D.
    assert (Hx' : 0 < x < ib) by (fold p; lia).
    destruct (normalize_spec x Hx') as (k & -> & Hk & Hs). fold p in Hs.
    assert (Hor2 : Z.lor (x * 2 ^ k) p = x * 2 ^ k).
    { pose proof (Hor (x * 2 ^ k - p) ltac:(lia)) as O. rewrite Z.sub_add in O. rewrite <- O at 1.
      now rewrite <- Z.lor_assoc, Z.lor_diag. }
    rewrite Hor2. split; [fold p; lia|]. pose proof maxExponent_bounds. split; [lia|].
    unfold fpval. fold p. rewrite E. cbn [Z.eqb]. rewrite <- D.
    rewrite <- Z.mul_assoc, <- pow2_split by lia. replace (k + (1 - k - 1 + sb)) with sb by lia. reflexivity.
  - rewrite Hor by assumption. assert (0 <= x / p) by (apply Z.div_pos; lia).
    assert (x / p < maxExponent) by (apply Z.div_lt_upper_bound; lia).
    split; [fold p; lia|]. split; [lia|]. unfold fpval. fold p. destruct (Z.eqb_spec (x / p) 0); [lia|].
    rewrite pow2_split by lia. fold p. ring.
Qed.

(** ** Alignment *)

Lemma add_align_spec x align : 0 <= align -> 0 < x < 16 * ib -> add_align x align = jam x align.
Proof.
  intros Ha Hx. pose proof exponentBits_bounds as B. unfold add_align, nonzero.
  assert (HW : 16 * ib < 2 ^ W).
  { change 16 with (2 ^ 4). rewrite <- pow2_split by lia. apply Z.pow_lt_mono_r; lia. }
  destruct (Z.eqb_spec align 0) as [->|N]; cbn [negb].
  - unfold jam. now rewrite Z.div_1_r, Z.mod_1_r, Z.lor_0_r.
  - destruct (Z.ltb_spec align W) as [L|L]; [apply sticky_shift; unfold is_uint; lia|].
    unfold jam, nonzero. assert (2 ^ W <= 2 ^ align) by (apply Z.pow_le_mono_r; lia).
    rewrite Z.div_small, Z.mod_small by lia. destruct (Z.eqb_spec x 0); [lia|reflexivity].
Qed.

Lemma agrees_add A Bs Bj D : Z.even A = true -> agrees 1 Bj Bs D -> agrees 1 (A + Bj) (A * D + Bs) D.
Proof.
  intros EA Ag M HM. assert (HMA : (2 ^ 1 | M - A)).
  { destruct HM as [c ->]. apply Z.even_spec in EA as [d ->]. exists (c - d). lia. }
  specialize (Ag (M - A) HMA). rewrite Z.mul_sub_distr_r in Ag.
  destruct (Z.compare_spec Bj (M - A)), (Z.compare_spec Bs (M * D - A * D)); try discriminate;
    destruct (Z.compare_spec (A * D + Bs) (M * D)), (Z.compare_spec (A + Bj) M); lia || reflexivity.
Qed.

Lemma agrees_sub A Bs Bj D : Z.even A = true -> agrees 1 Bj Bs D -> agrees 1 (A - Bj) (A * D - Bs) D.
Proof.
  intros EA Ag M HM. assert (HMA : (2 ^ 1 | A - M)).
  { destruct HM as [c ->]. apply Z.even_spec in EA as [d ->]. exists (d - c). lia. }
  specialize (Ag (A - M) HMA). rewrite Z.mul_sub_distr_r in Ag.
  destruct (Z.compare_spec Bj (A - M)), (Z.compare_spec Bs (A * D - M * D)); try discriminate;
    destruct (Z.compare_spec (A * D - Bs) (M * D)), (Z.compare_spec (A - Bj) M); lia || reflexivity.
Qed.

(** ** The sum before rounding

    [E] and [S], with three extra bits, stand for the exact result [N / D],
    which is the magnitude [x]; [K] only keeps the exponents positive. *)
Definition K : Z := 2 * sb + 8.

Definition stands_for (x E S : Z) : Prop :=
  exists N D, 0 < D /\ agrees 2 S N D /\ 8 * ib <= S < 16 * ib /\ 0 <= E - 1 + K /\
    x * (2 ^ K * D * 8) = N * 2 ^ (E - 1 + K).

Lemma shl3 m : ib <= m < 2 * ib -> ushl W m 3 = 8 * m.
Proof.
  intros Hm. pose proof exponentBits_bounds as B. rewrite ushl_spec by lia. change (2 ^ 3) with 8.
  rewrite uint_small; [lia|]. unfold is_uint.
  assert (16 * ib < 2 ^ W); [|lia]. change 16 with (2 ^ 4). rewrite <- pow2_split by lia. apply Z.pow_lt_mono_r; lia.
Qed.

Lemma shl_implicit k : 0 <= k <= 4 -> ushl W implicitBit k = 2 ^ k * ib.
Proof.
  intros Hk. pose proof exponentBits_bounds as B. rewrite implicitBit_val, ushl_spec, Z.mul_comm by lia.
  apply uint_small. unfold is_uint. rewrite <- pow2_split by lia.
  split; [apply Z.lt_le_incl, pow2_pos; lia|apply Z.pow_lt_mono_r; lia].
Qed.

(** The exact sum of the two magnitudes, over the common denominator. *)
Lemma exact_scaled xa ea sa xb eb sB (neg : bool) : unpacked xa ea sa -> unpacked xb eb sB -> eb <= ea ->
  let D := 2 ^ (ea - eb) in
  (if neg then fpval xa - fpval xb else fpval xa + fpval xb) * (2 ^ K * D * 8)
  = (if neg then 8 * sa * D - 8 * sB else 8 * sa * D + 8 * sB) * 2 ^ (ea - 1 + K).
Proof.
  intros (_ & Ha & Ea) (_ & Hb & Eb) Hle D. unfold K in *. pose proof exponentBits_bounds as B.
  replace (2 ^ (2 * sb + 8)) with (2 ^ sb * 2 ^ (sb + 8)) by (rewrite <- pow2_split by lia; f_equal; lia).
  replace (2 ^ (ea - 1 + (2 * sb + 8))) with (2 ^ (ea - 1 + sb) * 2 ^ (sb + 8))
    by (rewrite <- pow2_split by lia; f_equal; lia).
  assert (P : 2 ^ (ea - 1 + sb) = 2 ^ (eb - 1 + sb) * D)
    by (unfold D; rewrite <- pow2_split by lia; f_equal; lia).
  set (p := 2 ^ sb) in *. set (pa := 2 ^ (ea - 1 + sb)) in *. set (pb := 2 ^ (eb - 1 + sb)) in *. set (c := 2 ^ (sb + 8)).
  assert (Ra : fpval xa * (p * c * D * 8) = 8 * sa * D * (pa * c))
    by (replace (fpval xa * (p * c * D * 8)) with (fpval xa * p * (c * D * 8)) by ring; rewrite Ea; ring).
  assert (Rb : fpval xb * (p * c * D * 8) = 8 * sB * (pa * c))
    by (replace (fpval xb * (p * c * D * 8)) with (fpval xb * p * (c * D * 8)) by ring; rewrite Eb, P; ring).
  destruct neg; [rewrite !Z.mul_sub_distr_r|rewrite !Z.mul_add_distr_r]; lia.
Qed.

(** Cancellation by more than one place only happens when the aligned
    operand was exact, so renormalizing keeps the agreement. *)
Lemma renormalize_agrees A Bs al S k : (8 | A) -> (8 | Bs) -> 8 * ib <= A -> 0 < Bs < 16 * ib -> 0 <= al ->
  S = A - jam Bs al -> 0 < S < 8 * ib -> k = sb + 3 - Z.log2 S ->
  agrees 2 (S * 2 ^ k) ((A * 2 ^ al - Bs) * 2 ^ k) (2 ^ al).
Proof.
  intros HA HBs A8 HBb Hal HS HSb Hk. pose proof exponentBits_bounds as B. pose proof sig_pow_pos as Hp.
  pose proof (pow2_pos al Hal) as Hd.
  assert (Hk0 : 0 <= k).
  { assert (Z.log2 S < sb + 3); [|lia]. apply Z.log2_lt_pow2; [lia|]. rewrite pow2_split by lia. lia. }
  destruct (Z.le_gt_cases al 3) as [L|L].
  - assert (Ex : Bs = jam Bs al * 2 ^ al).
    { assert (M0 : Bs mod 2 ^ al = 0).
      { destruct HBs as [c ->]. change 8 with (2 ^ 3). replace 3 with (3 - al + al) by lia.
        rewrite pow2_split, Z.mul_assoc by lia. apply Z_mod_mult. }
      unfold jam, nonzero. rewrite M0. cbn. rewrite Z.lor_0_r.
      pose proof (Z.div_mod Bs (2 ^ al) ltac:(lia)). lia. }
    apply agrees_weaken with 0; [lia|].
    replace ((A * 2 ^ al - Bs) * 2 ^ k) with (S * 2 ^ k * 2 ^ al) by (rewrite Ex at 1; rewrite HS; ring).
    apply agrees_exact; lia.
  - assert (JB : jam Bs al < 2 * (2 * ib)).
    { apply jam_lt; [lia|lia|]. pose proof (Z.pow_le_mono_r 2 4 al ltac:(lia) ltac:(lia)). nia. }
    assert (LS : Z.log2 S = sb + 2).
    { apply Z.log2_unique; [lia|]. replace (Z.succ (sb + 2)) with (sb + 3) by lia. rewrite !pow2_split by lia. lia. }
    assert (k = 1) as -> by lia. apply (agrees_shl 1 1); [lia|lia|]. rewrite HS. apply agrees_sub.
    + destruct HA as [c ->]. rewrite Z.even_mul. cbn. apply orb_true_r.
    + now apply jam_agrees.
Qed.

Lemma add_combine_spec xa ea sa xb eb sB (sub : bool) :
  unpacked xa ea sa -> unpacked xb eb sB -> eb <= ea -> (ea = eb -> sB <= sa) ->
  let x := if sub then fpval xa - fpval xb else fpval xa + fpval xb in
  match add_combine sub ea (8 * sa) (jam (8 * sB) (ea - eb)) with
  | None => x = 0
  | Some (E, Sg) => 0 < x /\ stands_for x E Sg
  end.
Proof.
  intros Ua Ub Hle Hsig x. pose proof (exact_scaled xa ea sa xb eb sB sub Ua Ub Hle) as EX. cbv zeta in EX. fold x in EX.
  destruct Ua as (Ra & Re & _). destruct Ub as (Rb & Rb' & _). clearbody x.
  pose proof exponentBits_bounds as B. pose proof sig_pow_pos as Hp. set (al := ea - eb) in *.
  pose proof (pow2_pos al ltac:(lia)) as Hd. pose proof (jam_agrees (8 * sB) al ltac:(lia)) as JA.
  assert (EvA : Z.even (8 * sa) = true) by (now rewrite Z.even_mul).
  assert (HW : 32 * ib <= 2 ^ W).
  { change 32 with (2 ^ 5). rewrite <- pow2_split by lia. apply Z.pow_le_mono_r; lia. }
  assert (HJ : 0 <= jam (8 * sB) al <= 8 * sa /\ jam (8 * sB) al < 16 * ib /\ (jam (8 * sB) al = 8 * sa -> al = 0)).
  { destruct (jam_bounds (8 * sB) al ltac:(lia) ltac:(lia)) as (J0 & _ & _).
    destruct (Z.eq_dec al 0) as [E0|N0].
    - rewrite E0. unfold jam. rewrite Z.div_1_r, Z.mod_1_r, Z.lor_0_r. specialize (Hsig ltac:(lia)). lia.
    - assert (jam (8 * sB) al < 2 * (4 * ib)); [|lia]. apply jam_lt; [lia|lia|].
      pose proof (Z.pow_le_mono_r 2 1 al ltac:(lia) ltac:(lia)). nia. }
  set (Bj := jam (8 * sB) al) in *. unfold K in *.
  assert (PK : 0 < 2 ^ (2 * sb + 8) * 2 ^ al * 8) by (assert (0 < 2 ^ (2 * sb + 8)) by (apply pow2_pos; lia); nia).
  assert (Pe : 0 < 2 ^ (ea - 1 + (2 * sb + 8))) by (apply pow2_pos; lia).
  destruct sub; cbn [add_combine].
  - unfold usub. rewrite (uint_small W (8 * sa - Bj)) by (unfold is_uint; lia).
    rewrite shl_implicit by lia. change (2 ^ 3) with 8.
    pose proof (agrees_sub (8 * sa) (8 * sB) Bj (2 ^ al) EvA JA) as AG.
    destruct (Z.eqb_spec (8 * sa - Bj) 0) as [Z0|NZ].
    + assert (A0 : al = 0) by (apply HJ; lia). unfold Bj in Z0. rewrite A0 in *. unfold jam in Z0.
      rewrite Z.div_1_r, Z.mod_1_r, Z.lor_0_r in Z0. change (2 ^ 0) with 1 in *.
      replace (8 * sa * 1 - 8 * sB) with 0 in EX by lia. nia.
    + assert (Nz : 0 < 8 * sa * 2 ^ al - 8 * sB).
      { specialize (AG 0 ltac:(exists 0; lia)). rewrite Z.mul_0_l in AG.
        destruct (Z.compare_spec (8 * sa - Bj) 0); [lia|lia|]. now apply Z.compare_gt_iff in AG. }
      assert (Hx : 0 < x) by nia.
      destruct (Z.ltb_spec (8 * sa - Bj) (8 * ib)) as [L|L]; (split; [assumption|]).
      * set (S := 8 * sa - Bj) in *. pose proof (log2_bounds S ltac:(lia)) as BS.
        assert (L8 : Z.log2 (8 * ib) = 3 + sb)
          by (change 8 with (2 ^ 3); rewrite <- pow2_split by lia; apply Z.log2_pow2; lia).
        rewrite !rep_clz_ok by lia. unfold clz. rewrite L8.
        replace (W - 1 - Z.log2 S - (W - 1 - (3 + sb))) with (sb + 3 - Z.log2 S) by lia.
        set (k := sb + 3 - Z.log2 S). pose proof (Z.log2_nonneg S).
        assert (Hk : 0 < k).
        { assert (Z.log2 S < sb + 3); [|unfold k; lia]. apply Z.log2_lt_pow2; [lia|]. rewrite pow2_split by lia. lia. }
        assert (PS : 2 ^ Z.log2 S * 2 ^ k = 8 * ib).
        { rewrite <- pow2_split by lia. replace (Z.log2 S + k) with (3 + sb) by lia. rewrite pow2_split by lia. reflexivity. }
        pose proof (pow2_pos k ltac:(lia)) as Hpk.
        rewrite ushl_spec, uint_small by (unfold is_uint, k in *; nia).
        exists ((8 * sa * 2 ^ al - 8 * sB) * 2 ^ k), (2 ^ al).
        split; [assumption|]. split.
        { apply renormalize_agrees; try lia; try (now exists sa; lia); try (now exists sB; lia). }
        split; [nia|]. unfold K. split; [lia|]. rewrite EX, <- (Z.mul_assoc _ (2 ^ k)), <- pow2_split by lia.
        replace (k + (ea - k - 1 + (2 * sb + 8))) with (ea - 1 + (2 * sb + 8)) by lia. reflexivity.
      * exists (8 * sa * 2 ^ al - 8 * sB), (2 ^ al). split; [assumption|].
        split; [apply agrees_weaken with 1; [lia|assumption]|]. unfold K. split; [lia|]. split; [lia|exact EX].
  - unfold uadd. rewrite (uint_small W (8 * sa + Bj)) by (unfold is_uint; lia).
    rewrite shl_implicit by lia. change (2 ^ 4) with 16.
    pose proof (agrees_add (8 * sa) (8 * sB) Bj (2 ^ al) EvA JA) as AG. set (S := 8 * sa + Bj) in *.
    assert (Nz : 0 < 8 * sa * 2 ^ al + 8 * sB) by nia. assert (Hx : 0 < x) by nia.
    assert (T : nonzero (S .& (16 * ib)) = (16 * ib <=? S)).
    { unfold nonzero. replace (16 * ib) with ((2 ^ 1 - 1) * 2 ^ (sb + 4)) by (rewrite pow2_split by lia; lia).
      rewrite land_high_zero by (rewrite ?pow2_split by lia; lia). rewrite Z.leb_antisym. f_equal. f_equal. lia. }
    rewrite T. destruct (Z.leb_spec (16 * ib) S) as [L|L]; (split; [assumption|]).
    + assert (J1 : (S >>[W] 1) .| b2z (nonzero (S .& 1)) = jam S 1).
      { unfold jam. rewrite shr_spec by lia. change 1 with (2 ^ 1 - 1) at 2. now rewrite land_ones_mod by lia. }
      rewrite J1. exists (8 * sa * 2 ^ al + 8 * sB), (2 ^ al * 2 ^ 1). split; [lia|].
      split; [apply agrees_weaken with 1; [lia|]; apply (agrees_jam 1); try lia; assumption|].
      split.
      { destruct (jam_bounds S 1 ltac:(lia) ltac:(lia)) as (_ & _ & J2). change (2 ^ 1) with 2 in *.
        assert (8 * ib <= S / 2) by (apply Z.div_le_lower_bound; lia). split; [lia|].
        replace (16 * ib) with (2 * (8 * ib)) by ring. apply jam_lt; [lia|lia|]. change (2 ^ 1) with 2. lia. }
      unfold K. split; [lia|]. replace (ea + 1 - 1 + (2 * sb + 8)) with (ea - 1 + (2 * sb + 8) + 1) by lia.
      rewrite (pow2_split (ea - 1 + (2 * sb + 8)) 1) by lia. change (2 ^ 1) with 2. lia.
    + exists (8 * sa * 2 ^ al + 8 * sB), (2 ^ al). split; [assumption|].
      split; [apply agrees_weaken with 1; [lia|assumption]|]. unfold K. split; [lia|]. split; [lia|exact EX].
Qed.

(** ** Rounding the sum *)

(** The last [switch], on the packed result and the three bits below it. *)
Definition mode_bits (mode : CRT_FE_ROUND_MODE) (n : bool) (r0 R : Z) : Z :=
  let result := with_sign n r0 in
  match mode with
  | CRT_FE_TONEAREST =>
      let result := if R >? 2 ^ (3 - 1) then uadd W result 1 else result in
      if R =? 2 ^ (3 - 1) then uadd W result (Z.land result 1) else result
  | CRT_FE_DOWNWARD => if n && nonzero R then uadd W result 1 else result
  | CRT_FE_UPWARD => if negb n && nonzero R then uadd W result 1 else result
  | CRT_FE_TOWARDZERO => result
  end.

(** [E] and [S] are ready to be packed: they stand for [x] with the exponent in range. *)
Definition packable (x E S : Z) : Prop :=
  1 <= E < maxExponent /\ 0 <= S < 16 * ib /\ (E = 1 \/ 8 * ib <= S) /\
  exists N D, 0 < D /\ agrees 2 S N D /\ x * (D * 8) = N * 2 ^ (E - 1).

(** Moving the powers of two of [stands_for]. *)
Lemma stands_scale x N D E c : 0 <= E - 1 + K -> x * (2 ^ K * D * 8) = N * 2 ^ (E - 1 + K) ->
  0 <= c -> 0 <= E - 1 + c -> c <= K -> x * (2 ^ c * D * 8) = N * 2 ^ (E - 1 + c).
Proof.
  intros HE EX Hc Hc' HcK. assert (P2 : 0 < 2 ^ (K - c)) by (apply pow2_pos; lia).
  apply (Z.mul_cancel_r _ _ (2 ^ (K - c))); [lia|].
  replace (2 ^ K) with (2 ^ c * 2 ^ (K - c)) in EX by (rewrite <- pow2_split by lia; f_equal; lia).
  replace (2 ^ (E - 1 + K)) with (2 ^ (E - 1 + c) * 2 ^ (K - c)) in EX by (rewrite <- pow2_split by lia; f_equal; lia).
  lia.
Qed.

Lemma sign_nonzero : nonzero (2 ^ (W - 1)) = true.
Proof. pose proof exponentBits_bounds. assert (0 < 2 ^ (W - 1)) by (apply pow2_pos; lia). unfold nonzero. destruct (Z.eqb_spec (2 ^ (W - 1)) 0); [lia|reflexivity]. Qed.

(** The test that tells a subtraction. *)
Lemma sign_xor a b : is_uint W a -> is_uint W b -> nonzero ((a .^ b) .& signBit) = xorb (fp_neg a) (fp_neg b).
Proof.
  intros Ra Rb. destruct (rep_parts a Ra) as (_ & _ & _ & Sa). destruct (rep_parts b Rb) as (_ & _ & _ & Sb).
  replace ((a .^ b) .& signBit) with (Z.lxor (Z.land a signBit) (Z.land b signBit))
    by (apply Z.bits_inj'; intros i _; rewrite !Z.lxor_spec, !Z.land_spec, Z.lxor_spec;
        destruct (Z.testbit a i), (Z.testbit b i), (Z.testbit signBit i); reflexivity).
  rewrite Sa, Sb. destruct (fp_neg a), (fp_neg b); rewrite ?Z.lxor_nilpotent, ?Z.lxor_0_r, ?Z.lxor_0_l; cbn [xorb]; rewrite ?sign_nonzero; reflexivity.
Qed.

Lemma K_nonneg : 0 <= K.
Proof. pose proof exponentBits_bounds. unfold K. lia. Qed.

Lemma add_finish_overflow mode (n : bool) x E Sg : stands_for x E Sg -> maxExponent <= E ->
  fpval infRep <= x /\ add_sticky E Sg = 0 /\ add_finish mode (if n then 2 ^ (W - 1) else 0) E Sg = with_sign n infRep.
Proof.
  intros (N & D & HD & AG & HS & HE & EX) G. pose proof exponentBits_bounds as B. pose proof sig_pow_pos as Hp.
  pose proof maxExponent_bounds as ME. pose proof infRep_bounds as Bi. pose proof K_nonneg as HK. unfold add_finish, add_sticky.
  rewrite Z.geb_leb, (proj2 (Z.leb_le maxExponent E)) by assumption. split; [|split; [reflexivity|rewrite with_sign_lor by lia; reflexivity]].
  rewrite fpval_inf. pose proof (stands_scale x N D E 0 HE EX ltac:(lia) ltac:(lia) HK) as PE.
  assert (HN : 8 * ib * D <= N).
  { apply Z.compare_ge_iff. rewrite (AG (8 * ib)) by (exists (2 * ib); lia). apply Z.compare_ge_iff. lia. }
  rewrite Z.add_0_r in PE. change (2 ^ 0) with 1 in PE.
  assert (2 ^ (maxExponent - 1) <= 2 ^ (E - 1)) by (apply Z.pow_le_mono_r; lia).
  assert (0 < 2 ^ (maxExponent - 1)) by (apply pow2_pos; lia).
  apply (Z.mul_le_mono_pos_r _ _ (D * 8)); [lia|]. nia.
Qed.

(** A positive magnitude is never shifted out altogether. *)
Lemma denormal_shift x E Sg : 0 < x -> stands_for x E Sg -> E <= 0 -> 1 - E <= sb.
Proof.
  intros Hx (N & D & HD & AG & HS & HE & EX) L. pose proof exponentBits_bounds as B. pose proof sig_pow_pos as Hp.
  assert (HN : N < 16 * ib * D).
  { specialize (AG (16 * ib) ltac:(exists (4 * ib); lia)). rewrite (proj2 (Z.compare_lt_iff Sg _)) in AG by lia.
    now apply Z.compare_lt_iff in AG. }
  apply Z.lt_succ_r. apply Z.lt_nge. intros C.
  assert (HP : 2 ^ (E - 1 + K) * ib <= 2 ^ (K - 1)).
  { rewrite <- pow2_split by lia. apply Z.pow_le_mono_r; lia. }
  assert (2 ^ K = 2 * 2 ^ (K - 1)) by (apply pow2_S; unfold K; lia).
  assert (PP : 0 < 2 ^ (E - 1 + K)) by (apply pow2_pos; lia). set (P := 2 ^ (E - 1 + K)) in *.
  assert (PK : 0 < 2 ^ K) by (apply pow2_pos, K_nonneg).
  assert (N * P < 16 * ib * D * P) by (apply Z.mul_lt_mono_pos_r; lia).
  assert (16 * D * (P * ib) <= 16 * D * 2 ^ (K - 1)) by (apply Z.mul_le_mono_nonneg_l; lia).
  assert (1 * (2 ^ K * D * 8) <= x * (2 ^ K * D * 8)) by (apply Z.mul_le_mono_nonneg_r; nia). lia.
Qed.

Lemma add_finish_denormal mode (n : bool) x E Sg : 0 < x -> stands_for x E Sg -> E <= 0 ->
  exists S2, packable x 1 S2 /\ add_sticky E Sg = S2 mod 2 ^ 3 /\
    add_finish mode (if n then 2 ^ (W - 1) else 0) E Sg = mode_bits mode n (S2 / 2 ^ 3) (S2 mod 2 ^ 3).
Proof.
  intros Hx St L. pose proof (denormal_shift x E Sg Hx St L) as Hsh. destruct St as (N & D & HD & AG & HS & HE & EX).
  pose proof exponentBits_bounds as B. pose proof sig_pow_pos as Hp. pose proof maxExponent_bounds as ME. pose proof infRep_bounds as Bi.
  unfold add_finish, add_sticky. rewrite Z.geb_leb, (proj2 (Z.leb_gt maxExponent E)), (proj2 (Z.leb_le E 0)) by lia.
  set (sh := 1 - E) in *. assert (Esh : sh = 1 - E) by reflexivity. clearbody sh. assert (HW16 : 16 * ib < 2 ^ W).
  { change 16 with (2 ^ 4). rewrite <- pow2_split by lia. apply Z.pow_lt_mono_r; lia. }
  rewrite sticky_shift by (lia || unfold is_uint; lia). set (S2 := jam Sg sh).
  assert (HS2 : 0 <= S2 < 2 * (4 * ib)).
  { split; [apply jam_bounds; lia|]. apply jam_lt; [lia|lia|].
    pose proof (Z.pow_le_mono_r 2 1 sh ltac:(lia) ltac:(lia)). nia. }
  assert (Q : 0 <= S2 / 2 ^ 3 < ib)
    by (change (2 ^ 3) with 8; split; [apply Z.div_pos|apply Z.div_lt_upper_bound]; lia).
  exists S2. split; [|change 7 with (2 ^ 3 - 1); rewrite land_ones_mod by lia; split; [reflexivity|]].
  - split; [lia|]. split; [lia|]. split; [now left|]. assert (0 < 2 ^ sh) by (apply pow2_pos; lia). exists N, (D * 2 ^ sh). split; [nia|]. split.
    + apply agrees_weaken with 1; [lia|]. now apply (agrees_jam 2); try lia.
    + pose proof (stands_scale x N D E sh HE EX ltac:(lia) ltac:(lia) ltac:(unfold K; lia)) as PE.
      replace (E - 1 + sh) with 0 in PE by lia. change (1 - 1) with 0. rewrite Z.pow_0_r in PE |- *. lia.
  - rewrite shr_spec, significand_of, (Z.mod_small (S2 / 2 ^ 3)) by lia.
    rewrite ushl_spec, Z.mul_0_l by lia. change (uint W 0) with (0 mod 2 ^ W). rewrite Zmod_0_l, Z.lor_0_r.
    rewrite infRep_val in Bi. rewrite with_sign_lor by nia. unfold mode_bits. destruct mode, n; cbn [negb andb]; rewrite ?sign_nonzero; reflexivity.
Qed.

Lemma add_finish_normal mode (n : bool) x E Sg : stands_for x E Sg -> 0 < E < maxExponent ->
  packable x E Sg /\ add_sticky E Sg = Sg mod 2 ^ 3 /\
    add_finish mode (if n then 2 ^ (W - 1) else 0) E Sg = mode_bits mode n ((E - 1) * ib + Sg / 2 ^ 3) (Sg mod 2 ^ 3).
Proof.
  intros (N & D & HD & AG & HS & HE & EX) L. pose proof exponentBits_bounds as B. pose proof sig_pow_pos as Hp. pose proof maxExponent_bounds as ME. pose proof infRep_bounds as Bi.
  unfold add_finish, add_sticky. rewrite Z.geb_leb, (proj2 (Z.leb_gt maxExponent E)), (proj2 (Z.leb_gt E 0)) by lia.
  set (q := Sg / 2 ^ 3). assert (Q : ib <= q < 2 * ib)
    by (unfold q; change (2 ^ 3) with 8; split; [apply Z.div_le_lower_bound|apply Z.div_lt_upper_bound]; lia).
  split; [|change 7 with (2 ^ 3 - 1); rewrite land_ones_mod by lia; split; [reflexivity|]].
  - split; [lia|]. split; [lia|]. split; [now right|]. exists N, D. split; [lia|]. split; [exact AG|].
    pose proof (stands_scale x N D E 0 HE EX ltac:(lia) ltac:(lia) K_nonneg) as PE. rewrite Z.add_0_r in PE. change (2 ^ 0) with 1 in PE. lia.
  - rewrite shr_spec by lia. fold q. rewrite pack by lia. rewrite infRep_val in Bi.
    rewrite with_sign_lor by nia. unfold mode_bits. destruct mode, n; cbn [negb andb]; rewrite ?sign_nonzero; reflexivity.
Qed.

(** Both cases together. *)
Lemma add_finish_parts mode (n : bool) x E Sg : 0 < x -> stands_for x E Sg -> E < maxExponent ->
  exists E' S', packable x E' S' /\ add_sticky E Sg = S' mod 2 ^ 3 /\
    add_finish mode (if n then 2 ^ (W - 1) else 0) E Sg = mode_bits mode n ((E' - 1) * ib + S' / 2 ^ 3) (S' mod 2 ^ 3).
Proof.
  intros Hx St L. destruct (Z.leb_spec E 0) as [C|C].
  - destruct (add_finish_denormal mode n x E Sg Hx St C) as (S2 & P & T & R). exists 1, S2. auto.
  - destruct (add_finish_normal mode n x E Sg St ltac:(lia)) as (P & T & R). exists E, Sg. auto.
Qed.

(** ** What each mode promises

    [num / den] rounded towards zero, and away from zero; a magnitude beyond
    the format becomes infinity in both. *)
Definition chops (num den r : Z) : Prop := 0 <= r <= infRep /\ den * fpval r <= num /\ (r = infRep \/ num < den * fpval (r + 1)).
Definition swells (num den r : Z) : Prop := 0 <= r <= infRep /\ (r = 0 \/ den * fpval (r - 1) < num) /\ (r = infRep \/ num <= den * fpval r).
(** The rounding of a magnitude with sign [n]. *)
Definition rounds_mode (mode : CRT_FE_ROUND_MODE) (n : bool) (num den r : Z) : Prop :=
  match mode with
  | CRT_FE_TONEAREST => rounds_to num den r
  | CRT_FE_DOWNWARD => if n then swells num den r else chops num den r
  | CRT_FE_UPWARD => if n then chops num den r else swells num den r
  | CRT_FE_TOWARDZERO => chops num den r
  end.

Lemma rounds_mode_exact mode n r : 0 <= r <= infRep -> rounds_mode mode n (fpval r) 1 r.
Proof.
  intros R. pose proof (rounds_to_exact 1 r ltac:(lia) R) as T. rewrite Z.mul_1_l in T. pose proof (fpval_step r ltac:(lia)) as St.
  assert (C : chops (fpval r) 1 r) by (split; [lia|split; [lia|right; lia]]).
  assert (U : swells (fpval r) 1 r).
  { split; [lia|]. split; [|right; lia]. destruct (Z.eq_dec r 0); [now left|right]. pose proof (fpval_lt (r - 1) r ltac:(lia) ltac:(lia)). lia. }
  destruct mode, n; cbn [rounds_mode]; assumption.
Qed.

Lemma rounds_mode_overflow mode n x : fpval infRep <= x -> rounds_mode mode n x 1 infRep.
Proof.
  intros Hx. pose proof infRep_bounds as Bi. assert (L : fpval (infRep - 1) < fpval infRep) by (apply fpval_lt; lia). assert (T : rounds_to x 1 infRep) by (apply rounds_to_inf; lia).
  assert (C : chops x 1 infRep) by (split; [lia|split; [lia|now left]]).
  assert (U : swells x 1 infRep) by (split; [lia|split; [right; lia|now left]]).
  destruct mode, n; cbn [rounds_mode]; assumption.
Qed.

Lemma mode_bits_spec mode (n : bool) x E S : packable x E S ->
  exists r, rounds_mode mode n x 1 r /\ mode_bits mode n ((E - 1) * ib + S / 2 ^ 3) (S mod 2 ^ 3) = with_sign n r /\ (nonzero (S mod 2 ^ 3) = true <-> x <> fpval r) /\ x < fpval infRep.
Proof.
  intros (HE & HS & Hn & N & D & HD & AG & EX). pose proof infRep_bounds as Bi.
  assert (HS' : 0 <= S < 2 * 2 ^ significandBits * 2 ^ 3) by (change (2 ^ 3) with 8; lia). assert (Hn' : E = 1 \/ 2 ^ significandBits * 2 ^ 3 <= S) by (change (2 ^ 3) with 8; lia).
  assert (EX' : x * (D * 2 ^ 3) = N * 2 ^ (E - 1) * 1) by (change (2 ^ 3) with 8; lia).
  pose proof (rounds_to_round 3 E S N D x 1 ltac:(lia) HE HS' Hn' HD ltac:(lia) AG EX') as RT.
  pose proof (chop_round 3 E S N D x 1 ltac:(lia) HE HS' Hn' HD ltac:(lia) AG EX') as (R0 & R1 & (C1 & C2) & Ceq).
  set (r0 := (E - 1) * 2 ^ significandBits + S / 2 ^ 3) in *. set (R := S mod 2 ^ 3) in *. rewrite Z.mul_1_l in C1, C2, Ceq.
  pose proof (fpval_step r0 R0) as St. assert (Lt : x < fpval infRep) by (assert (fpval (r0 + 1) <= fpval infRep) by (apply fpval_mono; lia); lia).
  enough (exists r, rounds_mode mode n x 1 r /\ mode_bits mode n r0 R = with_sign n r /\ (nonzero R = true <-> x <> fpval r)) as (r & G1 & G2 & G3) by (exists r; auto).
  assert (Ch : chops x 1 r0) by (split; [lia|split; [lia|right; lia]]).
  assert (NZ : nonzero R = true <-> x <> fpval r0) by (unfold nonzero; rewrite negb_true_iff, Z.eqb_neq; tauto).
  assert (Sw : exists r, swells x 1 r /\ (if nonzero R then uadd W (with_sign n r0) 1 else with_sign n r0) = with_sign n r /\ (nonzero R = true <-> x <> fpval r)).
  { destruct (nonzero R) eqn:Z.
    - exists (r0 + 1). split; [|split; [apply with_sign_succ; lia|split; [|reflexivity]]].
      + split; [lia|]. split; [right; replace (r0 + 1 - 1) with r0 by lia; destruct NZ as [NZ _]; specialize (NZ eq_refl); lia|right; lia].
      + intros _. lia.
    - exists r0. assert (x = fpval r0) by (destruct (Z.eq_dec x (fpval r0)) as [|N0]; [assumption|destruct NZ as [_ NZ]; specialize (NZ N0); discriminate]).
      split; [|split; [reflexivity|exact NZ]]. split; [lia|]. split; [|right; lia]. destruct (Z.eq_dec r0 0); [now left|right]. pose proof (fpval_lt (r0 - 1) r0 ltac:(lia) ltac:(lia)). lia. }
  unfold mode_bits. destruct mode; cbn [rounds_mode].
  - exists (round_nearest 3 r0 R). split; [exact RT|]. split; [now apply (round_bits 3)|]. rewrite NZ. unfold round_nearest. change (2 ^ (3 - 1)) with 4.
    assert (HR : 0 <= R < 8) by (apply Z.mod_pos_bound; reflexivity). pose proof (fpval_lt r0 (r0 + 1) ltac:(lia) ltac:(lia)).
    pose proof (Z.mod_pos_bound r0 2 ltac:(lia)). destruct (Z.ltb_spec 4 R); [|destruct (Z.eqb_spec R 4)].
    + split; intros _; [lia|]. rewrite Ceq. lia.
    + assert (x <> fpval r0) by (rewrite Ceq; lia). assert (r0 mod 2 = 0 \/ r0 mod 2 = 1) as [-> | ->] by lia; rewrite ?Z.add_0_r; [tauto|lia].
    + rewrite Z.add_0_r. tauto.
  - destruct n; cbn [andb]; [exact Sw|]. exists r0. auto.
  - destruct n; cbn [andb negb]; [|exact Sw]. exists r0. auto.
  - exists r0. auto.
Qed.

Lemma add_finish_spec mode (n : bool) x E Sg : 0 < x -> stands_for x E Sg ->
  exists r, rounds_mode mode n x 1 r /\ add_finish mode (if n then 2 ^ (W - 1) else 0) E Sg = with_sign n r /\
    (nonzero (add_sticky E Sg) = true <-> x < fpval infRep /\ x <> fpval r).
Proof.
  intros Hx St. destruct (Z.leb_spec maxExponent E) as [G|G].
  - destruct (add_finish_overflow mode n x E Sg St G) as (O & T & R). exists infRep. split; [now apply rounds_mode_overflow|]. split; [exact R|]. rewrite T. split; [discriminate|lia].
  - destruct (add_finish_parts mode n x E Sg Hx St G) as (E' & S' & P & T & R). destruct (mode_bits_spec mode n x E' S' P) as (r & Rm & Rb & I & L).
    exists r. rewrite R, T. split; [exact Rm|]. split; [exact Rb|]. rewrite I. tauto.
Qed.

(** ** The whole routine *)

(** The test that catches zeros, infinities and NaNs with one comparison. *)
Lemma special_test x : 0 <= x < 2 ^ (W - 1) ->
  (usub W x 1 >=? usub W infRep 1) = (x =? 0) || (infRep <=? x).
Proof.
  intros Hx. pose proof infRep_bounds as Bi. pose proof exponentBits_bounds as B.
  assert (PW : 2 ^ W = 2 * 2 ^ (W - 1)) by (apply pow2_S; lia).
  unfold usub. rewrite (uint_small W (infRep - 1)) by (unfold is_uint; lia). rewrite Z.geb_leb.
  destruct (Z.eqb_spec x 0) as [->|N].
  - replace (uint W (0 - 1)) with (2 ^ W - 1); [apply Z.leb_le; lia|].
    symmetry. apply uint_of_eqm; [unfold is_uint; lia|]. rewrite eqm_pow. reflexivity.
  - rewrite uint_small by (unfold is_uint; lia). cbn [orb].
    destruct (Z.leb_spec (infRep - 1) (x - 1)), (Z.leb_spec infRep x); lia || reflexivity.
Qed.

Lemma unpacked_order xa ea sa xb eb sB : 0 <= xb <= xa -> unpacked xa ea sa -> unpacked xb eb sB ->
  eb <= ea /\ (ea = eb -> sB <= sa).
Proof.
  intros Hx (Ra & Ha & Ea) (Rb & Hb & Eb). assert (M : fpval xb <= fpval xa) by (apply fpval_mono; lia).
  pose proof sig_pow_pos as Hp. assert (L : sB * 2 ^ (eb - 1 + sb) <= sa * 2 ^ (ea - 1 + sb)) by nia.
  assert (P : forall e, 1 - sb <= e -> 0 < 2 ^ (e - 1 + sb)) by (intros; apply pow2_pos; lia).
  split.
  - apply Z.lt_succ_r, Z.lt_nge. intros G. assert (2 * 2 ^ (ea - 1 + sb) <= 2 ^ (eb - 1 + sb)).
    { rewrite <- Z.pow_succ_r by lia. apply Z.pow_le_mono_r; lia. }
    pose proof (P ea ltac:(lia)). nia.
  - intros ->. pose proof (P eb ltac:(lia)). nia.
Qed.

Definition sum_sign (a b : Z) : bool :=
  let x := fp_value a + fp_value b in
  if x =? 0 then fp_neg a && fp_neg b else x <? 0.

(** The magnitude of a sum of operands in order, before rounding. *)
Lemma add_sum_spec a b : is_uint W a -> is_uint W b -> 0 < fp_abs a < infRep -> 0 < fp_abs b <= fp_abs a ->
  let x := fp_value a + fp_value b in
  match add_sum a b with
  | None => x = 0 /\ sum_sign a b = false
  | Some (E, Sg) => 0 < Z.abs x /\ stands_for (Z.abs x) E Sg /\ sum_sign a b = fp_neg a
  end.
Proof.
  intros Ra Rb Ha Hb x. unfold add_sum. pose proof exponentBits_bounds as B.
  pose proof (add_unpack_spec a Ra Ha) as Ua. destruct (add_unpack a) as [ea ma].
  assert (Hb' : 0 < fp_abs b < infRep) by lia.
  pose proof (add_unpack_spec b Rb Hb') as Ub. destruct (add_unpack b) as [eb mb].
  assert (Hord : 0 <= fp_abs b <= fp_abs a) by lia. destruct (unpacked_order _ _ _ _ _ _ Hord Ua Ub) as [Hle Hsig].
  rewrite sign_xor by assumption. destruct (proj1 Ua) as [Ua0 Ua1]. destruct (proj1 Ub) as [Ub0 Ub1]. pose proof sig_pow_pos as Hp.
  rewrite !shl3 by lia. destruct Ua as (Ua2 & Ea & Va) eqn:?. destruct Ub as (Ub2 & Eb & Vb) eqn:?.
  pose proof maxExponent_bounds as ME. rewrite (uint_small 32) by (unfold is_uint; lia).
  rewrite add_align_spec by lia.
  pose proof (add_combine_spec _ _ _ _ _ _ (xorb (fp_neg a) (fp_neg b)) Ua Ub Hle Hsig) as C. cbv zeta in C.
  assert (fpval 0 < fpval (fp_abs a)) by (apply fpval_lt; lia). assert (fpval 0 < fpval (fp_abs b)) by (apply fpval_lt; lia). rewrite fpval_zero in *.
  unfold sum_sign. fold x. assert (Ex : x = fp_value a + fp_value b) by reflexivity. clearbody x. unfold fp_value in Ex.
  destruct (add_combine _ _ _ _) as [[E Sg]|].
  - destruct C as [Hx St].
    destruct (fp_neg a), (fp_neg b); cbn [xorb andb] in *.
    all: match type of St with stands_for ?y _ _ => replace (Z.abs x) with y by lia end; split; [assumption|]; split; [assumption|].
    all: destruct (Z.eqb_spec x 0); [lia|destruct (Z.ltb_spec x 0); reflexivity || lia].
  - destruct (fp_neg a), (fp_neg b); cbn [xorb andb] in *; try lia; (split; [lia|]); destruct (Z.eqb_spec x 0); reflexivity || lia.
Qed.

Lemma sum_sign_comm a b : sum_sign a b = sum_sign b a.
Proof. unfold sum_sign. now rewrite Z.add_comm, andb_comm. Qed.

(** A sum of operands in order, rounded. *)
Lemma add_main_spec mode a b : is_uint W a -> is_uint W b -> 0 < fp_abs a < infRep -> 0 < fp_abs b <= fp_abs a ->
  let x := fp_value a + fp_value b in
  exists r, rounds_mode mode (sum_sign a b) (Z.abs x) 1 r /\
    match add_sum a b with None => 0 | Some (E, Sg) => add_finish mode (a .& signBit) E Sg end = with_sign (sum_sign a b) r /\
    (match add_sum a b with None => false | Some (E, Sg) => nonzero (add_sticky E Sg) end = true <-> Z.abs x < fpval infRep /\ Z.abs x <> fpval r).
Proof.
  intros Ra Rb Ha Hb x. pose proof (add_sum_spec a b Ra Rb Ha Hb) as C. cbv zeta in C. fold x in C. destruct (rep_parts a Ra) as (_ & _ & _ & Sa). rewrite Sa.
  destruct (add_sum a b) as [[E Sg]|].
  - destruct C as (Hx & St & ->). apply add_finish_spec; assumption.
  - destruct C as [Z0 ->]. exists 0. rewrite Z0. change (Z.abs 0) with 0. pose proof infRep_bounds.
    pose proof (rounds_mode_exact mode false 0 ltac:(lia)) as R. pose proof fpval_zero as V0. rewrite V0 in R. split; [exact R|]. split; [reflexivity|]. split; [discriminate|lia].
Qed.

(** A zero operand: the other one is the exact result. *)
Lemma add_zero_spec a b : is_uint W a -> is_uint W b -> fp_abs a = 0 -> 0 < fp_abs b < infRep ->
  Z.abs (fp_value a + fp_value b) = fpval (fp_abs b) /\ b = with_sign (sum_sign a b) (fp_abs b).
Proof.
  intros Ra Rb Ha Hb. assert (P : fpval 0 < fpval (fp_abs b)) by (apply fpval_lt; lia).
  destruct (rep_parts b Rb) as (Eb & _ & _ & _).
  unfold sum_sign, fp_value in *. rewrite Ha, fpval_zero in *.
  replace ((if fp_neg a then - 0 else 0) + (if fp_neg b then - fpval (fp_abs b) else fpval (fp_abs b)))
    with (if fp_neg b then - fpval (fp_abs b) else fpval (fp_abs b)) by (destruct (fp_neg a); lia).
  destruct (fp_neg b); [rewrite Z.abs_opp|]; rewrite Z.abs_eq by lia; (split; [reflexivity|]);
    destruct (Z.eqb_spec (fpval (fp_abs b)) 0), (Z.eqb_spec (- fpval (fp_abs b)) 0); try lia.
  - destruct (Z.ltb_spec (- fpval (fp_abs b)) 0); [exact Eb|lia].
  - destruct (Z.ltb_spec (fpval (fp_abs b)) 0); [lia|exact Eb].
Qed.

Lemma land_with_sign (n m : bool) : Z.land (with_sign n 0) (with_sign m 0) = with_sign (n && m) 0.
Proof.
  unfold with_sign. rewrite Z.add_0_r. destruct n, m; cbn [andb]; rewrite ?Z.land_diag, ?Z.land_0_r, ?Z.land_0_l; lia.
Qed.

(** Every mode: the result, and when the inexact flag is raised. *)
Lemma add_mode_spec mode a b : is_uint W a -> is_uint W b -> is_finite a = true -> is_finite b = true ->
  let x := fp_value a + fp_value b in
  exists r, rounds_mode mode (sum_sign a b) (Z.abs x) 1 r /\ __addXf3__ mode a b = with_sign (sum_sign a b) r /\
    (add_inexact a b = true <-> Z.abs x < fpval infRep /\ Z.abs x <> fpval r).
Proof.
  intros Ra Rb Fa Fb x. unfold is_finite in *. apply Z.ltb_lt in Fa, Fb. unfold __addXf3__, add_inexact, add_special.
  destruct (rep_parts a Ra) as (Ea & Aa & La & _). destruct (rep_parts b Rb) as (Eb & Ab & Lb & _).
  rewrite La, Lb, !special_test by assumption. unfold nonzero.
  rewrite !Z.gtb_ltb. rewrite (proj2 (Z.ltb_ge infRep (fp_abs a))), (proj2 (Z.ltb_ge infRep (fp_abs b))) by lia.
  rewrite (proj2 (Z.eqb_neq (fp_abs a) infRep)), (proj2 (Z.eqb_neq (fp_abs b) infRep)) by lia.
  rewrite (proj2 (Z.leb_gt infRep (fp_abs a))), (proj2 (Z.leb_gt infRep (fp_abs b))) by lia. rewrite !orb_false_r.
  assert (Exact : forall r, 0 <= r <= infRep -> Z.abs x = fpval r -> rounds_mode mode (sum_sign a b) (Z.abs x) 1 r /\ (false = true <-> Z.abs x < fpval infRep /\ Z.abs x <> fpval r)).
  { intros r R E. rewrite E. split; [now apply rounds_mode_exact|]. split; [discriminate|tauto]. }
  destruct (Z.eqb_spec (fp_abs a) 0) as [Za|Za]; [|destruct (Z.eqb_spec (fp_abs b) 0) as [Zb|Zb]]; cbn [orb negb].
  - destruct (Z.eqb_spec (fp_abs b) 0) as [Zb|Zb]; cbn [negb].
    + exists 0. assert (Zx : x = 0) by (unfold x, fp_value; rewrite Za, Zb; pose proof fpval_zero; clear x Exact; destruct (fp_neg a), (fp_neg b); lia).
      pose proof infRep_bounds. destruct (Exact 0) as [E1 E2]; [lia|now rewrite Zx, fpval_zero|]. split; [exact E1|]. split; [|exact E2].
      unfold sum_sign. fold x. rewrite Zx. cbn [Z.eqb]. rewrite Ea, Eb, Za, Zb at 1. apply land_with_sign.
    + destruct (add_zero_spec a b) as [V E]; auto; [lia|]. exists (fp_abs b). destruct (Exact (fp_abs b)) as [E1 E2]; [lia|exact V|]. auto.
  - destruct (add_zero_spec b a) as [V E]; auto; [lia|]. rewrite sum_sign_comm in E. exists (fp_abs a). destruct (Exact (fp_abs a)) as [E1 E2]; [lia|unfold x; rewrite Z.add_comm; exact V|]. auto.
  - destruct (Z.ltb_spec (fp_abs a) (fp_abs b)) as [L|L].
    + unfold x. rewrite Z.add_comm, sum_sign_comm. apply (add_main_spec mode b a); auto; lia.
    + apply (add_main_spec mode a b); auto; lia.
Qed.

Lemma add_finite_spec a b : is_uint W a -> is_uint W b -> is_finite a = true -> is_finite b = true ->
  exists r, rounds_to (Z.abs (fp_value a + fp_value b)) 1 r /\
    __addXf3__ CRT_FE_TONEAREST a b = with_sign (sum_sign a b) r.
Proof. intros Ra Rb Fa Fb. destruct (add_mode_spec CRT_FE_TONEAREST a b Ra Rb Fa Fb) as (r & R & E & _). exists r. auto. Qed.

(** ** Special operands *)

Lemma quietBit_val : quietBit = 2 ^ (sb - 1).
Proof.
  pose proof exponentBits_bounds as B. unfold quietBit. rewrite implicitBit_val, shr_spec by lia.
  rewrite (pow2_S sb), Z.mul_comm by lia. change (2 ^ 1) with 2. apply Z.div_mul. lia.
Qed.

Lemma quiet_is_nan a : is_uint W a -> is_nan a = true -> is_nan (a .| quietBit) = true.
Proof.
  intros Ra Na. unfold is_nan in *. apply Z.ltb_lt in Na. apply Z.ltb_lt.
  pose proof exponentBits_bounds as B. destruct (rep_parts a Ra) as (_ & Aa & La & _).
  assert (E : fp_abs (a .| quietBit) = Z.lor (fp_abs a) quietBit).
  { unfold fp_abs at 1. rewrite <- abs_of, Z.land_lor_distr_l, La. f_equal. rewrite abs_of, quietBit_val.
    apply Z.mod_small. split; [apply Z.lt_le_incl, pow2_pos; lia|apply Z.pow_lt_mono_r; lia]. }
  rewrite E.
  assert (0 <= quietBit) by (rewrite quietBit_val; apply Z.lt_le_incl, pow2_pos; lia).
  assert (fp_abs a <= Z.lor (fp_abs a) quietBit); [|lia].
  assert (D : Z.land (fp_abs a) (Z.ldiff quietBit (fp_abs a)) = 0)
    by (apply Z.bits_inj'; intros i _; rewrite Z.land_spec, Z.ldiff_spec, Z.bits_0;
        destruct (Z.testbit (fp_abs a) i), (Z.testbit quietBit i); reflexivity).
  assert (O : Z.lor (fp_abs a) quietBit = fp_abs a + Z.ldiff quietBit (fp_abs a)).
  { rewrite Z.add_nocarry_lxor by exact D. apply Z.bits_inj'; intros i _.
    rewrite Z.lor_spec, Z.lxor_spec, Z.ldiff_spec.
    destruct (Z.testbit (fp_abs a) i), (Z.testbit quietBit i); reflexivity. }
  rewrite O. assert (0 <= Z.ldiff quietBit (fp_abs a)) by (apply Z.ldiff_nonneg; lia). lia.
Qed.

Lemma qnan_is_nan : is_nan qnanRep = true.
Proof.
  pose proof exponentBits_bounds as B. pose proof infRep_bounds as Bi. unfold is_nan, qnanRep. fold infRep.
  rewrite quietBit_val. assert (Hq : 0 < 2 ^ (sb - 1)) by (apply pow2_pos; lia).
  assert (Hs : ib = 2 * 2 ^ (sb - 1)) by (apply pow2_S; lia).
  assert (E : Z.lor infRep (2 ^ (sb - 1)) = infRep + 2 ^ (sb - 1)).
  { rewrite infRep_val. apply lor_add_disjoint; lia. }
  rewrite E. pose proof signBit_split as SS. rewrite infRep_val, maxExponent_val in Bi |- *.
  apply Z.ltb_lt. unfold fp_abs. rewrite Z.mod_small by nia. lia.
Qed.

(** The classes of [__addXf3__]'s result when an operand is not finite. *)
Lemma add_nonfinite_spec mode a b : is_uint W a -> is_uint W b ->
  let s := __addXf3__ mode a b in
  (is_nan a = true -> s = a .| quietBit) /\
  (is_nan a = false -> is_nan b = true -> s = b .| quietBit) /\
  (is_inf a = true -> is_nan b = false ->
     s = if is_inf b && xorb (fp_neg a) (fp_neg b) then qnanRep else a) /\
  (is_finite a = true -> is_inf b = true -> s = b).
Proof.
  intros Ra Rb. unfold __addXf3__, add_special, is_nan, is_inf, is_finite.
  destruct (rep_parts a Ra) as (Ea & Aa & La & _). destruct (rep_parts b Rb) as (Eb & Ab & Lb & _).
  rewrite La, Lb, !special_test by assumption. rewrite !Z.gtb_ltb. pose proof infRep_bounds as Bi.
  split; [|split; [|split]].
  - intros G. rewrite G. apply Z.ltb_lt in G. rewrite (proj2 (Z.leb_le infRep (fp_abs a))) by lia.
    rewrite orb_true_r. reflexivity.
  - intros G1 G. rewrite G1, G. apply Z.ltb_lt in G. rewrite (proj2 (Z.leb_le infRep (fp_abs b))) by lia.
    rewrite !orb_true_r. reflexivity.
  - intros G G1. rewrite G, G1. apply Z.eqb_eq in G. apply Z.ltb_ge in G1.
    rewrite (proj2 (Z.leb_le infRep (fp_abs a))) by lia. rewrite (proj2 (Z.ltb_ge infRep (fp_abs a))) by lia.
    rewrite orb_true_r. cbn [orb].
    assert (X : (a .^ b =? signBit) = (fp_abs b =? infRep) && xorb (fp_neg a) (fp_neg b)); [|now rewrite X; destruct (_ && _)].
    rewrite signBit_val. apply Bool.eq_iff_eq_true. rewrite Z.eqb_eq, andb_true_iff, Z.eqb_eq. split.
    + intros X. assert (Eb2 : b = Z.lxor a (2 ^ (W - 1))) by (rewrite <- X, <- Z.lxor_assoc, Z.lxor_nilpotent; apply Z.lxor_0_l).
      rewrite <- signBit_val in Eb2. destruct (flip_sign a Ra) as (_ & F1 & F2). rewrite Eb2, F1, F2. split; [assumption|].
      now destruct (fp_neg a).
    + intros [G2 X]. assert (Eb2 : b = Z.lxor a signBit).
      { destruct (flip_sign a Ra) as (F0 & F1 & F2). rewrite Eb. rewrite (proj1 (rep_parts _ F0)), F1, F2.
        f_equal; [now destruct (fp_neg a), (fp_neg b)|congruence]. }
      rewrite Eb2, <- signBit_val, <- Z.lxor_assoc, Z.lxor_nilpotent. apply Z.lxor_0_l.
  - intros G G1. rewrite G1. apply Z.ltb_lt in G. apply Z.eqb_eq in G1.
    rewrite (proj2 (Z.leb_le infRep (fp_abs b))) by lia. rewrite !orb_true_r.
    rewrite (proj2 (Z.ltb_ge infRep (fp_abs a))), (proj2 (Z.ltb_ge infRep (fp_abs b))) by lia.
    now rewrite (proj2 (Z.eqb_neq (fp_abs a) infRep)) by lia.
Qed.
End AddProof.

(** ** The properties of addition *)

(** C10: in every format, the sum of two finite numbers is the exact sum
    rounded to the nearest representable magnitude, ties to even, with
    overflow to infinity and gradual underflow; its sign is the sign of the
    exact sum, and a zero sum is negative only when both operands are. *)
Theorem add_correctly_rounded (F : FpFormat) (O : FpOps) a b :
  is_uint typeWidth a -> is_uint typeWidth b -> is_finite a = true -> is_finite b = true ->
  exists r, rounds_to (Z.abs (fp_value a + fp_value b)) 1 r /\
    __addXf3__ __fe_getround a b = with_sign (sum_sign a b) r.
Proof. apply add_finite_spec. Qed.

Lemma add_correctly_rounded_witness :
  exists r, @rounds_to single_precision
      (Z.abs (@fp_value single_precision 0x3f800000 + @fp_value single_precision 0xb3000001)) 1 r /\
    __addsf3 0x3f800000 0xb3000001 = @with_sign single_precision (@sum_sign single_precision 0x3f800000 0xb3000001) r.
Proof.
  apply (add_correctly_rounded single_precision single_ops 0x3f800000 0xb3000001);
    [unfold is_uint; cbn [typeWidth single_precision]; lia | unfold is_uint; cbn [typeWidth single_precision]; lia
    | reflexivity | reflexivity].
Defined.

(** With an operand that is not finite, addition returns the first NaN
    operand made quiet, an infinite operand, or the default NaN for the sum
    of opposite infinities; the first and the last are NaNs. *)
Theorem add_special_values (F : FpFormat) (O : FpOps) a b :
  is_uint typeWidth a -> is_uint typeWidth b ->
  let s := __addXf3__ __fe_getround a b in
  (is_nan a = true -> s = a .| quietBit /\ is_nan s = true) /\
  (is_nan a = false -> is_nan b = true -> s = b .| quietBit /\ is_nan s = true) /\
  (is_inf a = true -> is_nan b = false ->
     s = if is_inf b && xorb (fp_neg a) (fp_neg b) then qnanRep else a) /\
  (is_finite a = true -> is_inf b = true -> s = b) /\ is_nan qnanRep = true.
Proof.
  intros Ra Rb s. destruct (add_nonfinite_spec __fe_getround a b Ra Rb) as (N1 & N2 & I1 & I2). fold s in N1, N2, I1, I2.
  split; [|split; [|split; [exact I1|split; [exact I2|apply qnan_is_nan]]]].
  - intros N. rewrite N1 by assumption. split; [reflexivity|now apply quiet_is_nan].
  - intros N N'. rewrite N2 by assumption. split; [reflexivity|now apply quiet_is_nan].
Qed.

Lemma add_special_values_witness :
  __addsf3 0x7f800000 0xff800000 = 0x7fc00000 /\ __adddf3 0x7ff0000000000001 0 = 0x7ff8000000000001.
Proof.
  split.
  - refine (_ (add_special_values single_precision single_ops 0x7f800000 0xff800000 _ _));
      [|unfold is_uint; cbn [typeWidth single_precision]; lia..].
    intros (_ & _ & I & _). exact (I eq_refl eq_refl).
  - refine (_ (add_special_values double_precision double_ops 0x7ff0000000000001 0 _ _));
      [|unfold is_uint; cbn [typeWidth double_precision]; lia..].
    intros (N & _). exact (proj1 (N eq_refl)).
Defined.

(** Subtraction is correctly rounded in every format, negation flips the
    sign of the value and nothing else, and applied twice it is the identity. *)
Theorem sub_neg_correct (F : FpFormat) (O : FpOps) a b :
  is_uint typeWidth a -> is_uint typeWidth b -> is_finite a = true -> is_finite b = true ->
  (exists r, rounds_to (Z.abs (fp_value a - fp_value b)) 1 r /\
     subXf3 a b = with_sign (sum_sign a (negXf2 b)) r) /\
  fp_value (negXf2 b) = - fp_value b /\ negXf2 (negXf2 b) = b.
Proof.
  intros Ra Rb Fa Fb. unfold subXf3, negXf2. destruct (flip_sign b Rb) as (F0 & F1 & F2).
  assert (V : fp_value (Z.lxor b signBit) = - fp_value b)
    by (unfold fp_value; rewrite F1, F2; destruct (fp_neg b); cbn [negb]; lia).
  split; [|split; [exact V|now rewrite Z.lxor_assoc, Z.lxor_nilpotent, Z.lxor_0_r]].
  destruct (add_finite_spec a (Z.lxor b signBit) Ra F0 Fa) as (r & R & E).
  { unfold is_finite in *. now rewrite F2. }
  exists r. rewrite V, Z.add_opp_r in R. auto.
Qed.

Lemma sub_neg_correct_witness : @fp_value single_precision (__negsf2 0x40490fdb) = - @fp_value single_precision 0x40490fdb.
Proof.
  refine (proj1 (proj2 (sub_neg_correct single_precision single_ops 0x3f800000 0x40490fdb _ _ eq_refl eq_refl)));
    unfold is_uint; cbn [typeWidth single_precision]; lia.
Defined.
