(* ===== verification/FpMul.v ===== *)
(** * Soft float: multiplication

    Models [fp_mul_impl.inc] and the files that instantiate it ([mulsf3.c],
    [muldf3.c], [multf3.c]).  Single and double precision multiply with
    correct rounding; the quad-precision [wideMultiply] of [fp_lib.h] loses a
    carry, so [__multf3] does not. *)

From S2P Require Import Prelude IntBits FpLib FpSpec FpAdd.

Section Mul.
Context `{FpOps}.

(** The block for an operand that is zero, denormal, infinite or NaN: the
    result, or the normalized significands and the scale. *)
Definition mul_unpack (a b : Z) : Z + (Z * Z * Z) :=
  let aExponent := (a >>[typeWidth] significandBits) .& maxExponent in
  let bExponent := (b >>[typeWidth] significandBits) .& maxExponent in
  let productSign := (a .^ b) .& signBit in
  let aSignificand := a .& significandMask in
  let bSignificand := b .& significandMask in
  if (aExponent -[32] 1 >=? maxExponent -[32] 1) || (bExponent -[32] 1 >=? maxExponent -[32] 1) then
    let aAbs := a .& absMask in
    let bAbs := b .& absMask in
    if aAbs >? infRep then inl (a .| quietBit)
    else if bAbs >? infRep then inl (b .| quietBit)
    else if aAbs =? infRep then
      if nonzero bAbs then inl (aAbs .| productSign) else inl qnanRep
    else if bAbs =? infRep then
      if nonzero aAbs then inl (bAbs .| productSign) else inl qnanRep
    else if negb (nonzero aAbs) then inl productSign
    else if negb (nonzero bAbs) then inl productSign
    else
      let scale := 0 in
      let '(aSignificand, scale) :=
        if aAbs <? implicitBit then let '(s, n) := normalize aSignificand in (s, scale + n)
        else (aSignificand, scale) in
      let '(bSignificand, scale) :=
        if bAbs <? implicitBit then let '(s, n) := normalize bSignificand in (s, scale + n)
        else (bSignificand, scale) in
      inr (aSignificand, bSignificand, scale)
  else inr (aSignificand, bSignificand, 0).

(** From the normalized product and its exponent to the rounded result. *)
Definition mul_finish (productSign productExponent productHi productLo : Z) : Z :=
  if productExponent >=? maxExponent then infRep .| productSign
  else
    let shift := 1 -[32] uint 32 productExponent in
    if (productExponent <=? 0) && (shift >=? typeWidth) then productSign
    else
      let '(productHi, productLo) :=
        if productExponent <=? 0 then wideRightShiftWithSticky productHi productLo shift
        else ((productHi .& significandMask) .| (productExponent <<[typeWidth] significandBits), productLo) in
      let productHi := productHi .| productSign in
      let productHi := if productLo >? signBit then productHi +[typeWidth] 1 else productHi in
      if productLo =? signBit then productHi +[typeWidth] (productHi .& 1) else productHi.

Definition __mulXf3__ (a b : Z) : Z :=
  let aExponent := (a >>[typeWidth] significandBits) .& maxExponent in
  let bExponent := (b >>[typeWidth] significandBits) .& maxExponent in
  let productSign := (a .^ b) .& signBit in
  match mul_unpack a b with
  | inl result => result
  | inr (aSignificand, bSignificand, scale) =>
      let aSignificand := aSignificand .| implicitBit in
      let bSignificand := bSignificand .| implicitBit in
      let '(productHi, productLo) := wideMultiply aSignificand (bSignificand <<[typeWidth] exponentBits) in
      let productExponent := aExponent + bExponent - exponentBias + scale in
      let '(productExponent, productHi, productLo) :=
        if nonzero (productHi .& implicitBit) then (productExponent + 1, productHi, productLo)
        else let '(hi, lo) := wideLeftShift productHi productLo 1 in (productExponent, hi, lo) in
      mul_finish productSign productExponent productHi productLo
  end.
End Mul.

Definition __mulsf3 (a b : Z) : Z := @__mulXf3__ single_precision single_ops a b.
Definition __muldf3 (a b : Z) : Z := @__mulXf3__ double_precision double_ops a b.
Definition __multf3 (a b : Z) : Z := @__mulXf3__ quad_precision quad_ops a b.

Section MulProof.
Context `{FpWideMul}.

Notation sb := significandBits.
Notation W := typeWidth.
Notation ib := (2 ^ significandBits).

(** ** Unpacking *)


Lemma field_special x : 0 <= x < 2 ^ (W - 1) ->
  let e := x / ib in
  (usub 32 e 1 >=? usub 32 maxExponent 1) = (e =? 0) || (infRep <=? x).
Proof.
  intros Hx e. pose proof maxExponent_bounds as ME. pose proof sig_pow_pos as Hp. rewrite infRep_val.
  assert (He : 0 <= e < 65536).
  { unfold e. split; [apply Z.div_pos; lia|]. rewrite signBit_split in Hx. pose proof maxExponent_val.
    apply Z.div_lt_upper_bound; nia. }
  unfold usub. rewrite (uint_small 32 (maxExponent - 1)) by (unfold is_uint; lia). rewrite Z.geb_leb.
  assert (G : (maxExponent * ib <=? x) = (maxExponent <=? e)).
  { apply Bool.eq_iff_eq_true. rewrite !Z.leb_le. unfold e. split; intros L.
    - apply Z.div_le_lower_bound; lia.
    - pose proof (Z.mul_div_le x ib Hp). nia. }
  rewrite G. destruct (Z.eqb_spec e 0) as [->|N].
  - cbn [orb]. apply Z.leb_le. change (uint 32 (0 - 1)) with (2 ^ 32 - 1). lia.
  - rewrite uint_small by (unfold is_uint; lia). cbn [orb].
    destruct (Z.leb_spec (maxExponent - 1) (e - 1)), (Z.leb_spec maxExponent e); lia || reflexivity.
Qed.

Lemma mul_lor_implicit m : 0 <= m < ib -> Z.lor m implicitBit = m + ib.
Proof.
  intros Hm. pose proof exponentBits_bounds as B. rewrite implicitBit_val, Z.lor_comm, <- (Z.mul_1_l ib).
  rewrite lor_add_disjoint by lia. lia.
Qed.

Lemma lor_implicit_idem m : ib <= m < 2 * ib -> Z.lor m implicitBit = m.
Proof.
  intros Hm. assert (O : Z.lor (m - ib) implicitBit = m - ib + ib) by (apply mul_lor_implicit; lia). rewrite Z.sub_add in O.
  rewrite <- O at 1. now rewrite <- Z.lor_assoc, Z.lor_diag.
Qed.

(** The significand and the exponent (with its share of [scale]) that one
    operand contributes. *)
Definition operand (x : Z) : Z * Z :=
  if x <? implicitBit then let '(s, n) := normalize (x mod ib) in (s, n) else (x mod ib, x / ib).

Lemma operand_spec x : 0 < x < infRep ->
  unpacked x (snd (operand x)) (Z.lor (fst (operand x)) implicitBit).
Proof.
  intros Hx. pose proof sig_pow_pos as Hp. pose proof exponentBits_bounds as B. pose proof maxExponent_bounds as ME.
  unfold operand. destruct (Z.ltb_spec x implicitBit) as [L|L]; rewrite implicitBit_val in L.
  - rewrite Z.mod_small by lia. assert (Hx' : 0 < x < ib) by lia. destruct (normalize_spec x Hx') as (k & -> & Hk & Hs). cbn [fst snd].
    rewrite lor_implicit_idem by lia. split; [lia|]. split; [lia|].
    unfold fpval. rewrite Z.div_small, Z.mod_small by lia. cbn [Z.eqb].
    rewrite <- Z.mul_assoc, <- pow2_split by lia. replace (k + (1 - k - 1 + sb)) with sb by lia. reflexivity.
  - cbn [fst snd]. pose proof (Z.mod_pos_bound x ib Hp) as M. rewrite mul_lor_implicit by lia.
    assert (1 <= x / ib) by (apply Z.div_le_lower_bound; lia). rewrite infRep_val in Hx.
    assert (x / ib < maxExponent) by (apply Z.div_lt_upper_bound; lia).
    split; [lia|]. split; [lia|]. unfold fpval. destruct (Z.eqb_spec (x / ib) 0); [lia|].
    rewrite pow2_split by lia. ring.
Qed.

Lemma field_zero x : 0 < x -> (x / ib =? 0) = (x <? ib).
Proof.
  intros Hx. pose proof sig_pow_pos as Hp. apply Bool.eq_iff_eq_true. rewrite Z.eqb_eq, Z.ltb_lt. split; intros E.
  - pose proof (Z.mod_pos_bound x ib Hp). rewrite (Z.div_mod x ib), E by lia. lia.
  - apply Z.div_small. lia.
Qed.

(** Two non-zero finite operands reach the multiplication normalized. *)
Lemma mul_unpack_finite a b : is_uint W a -> is_uint W b ->
  0 < fp_abs a < infRep -> 0 < fp_abs b < infRep ->
  exists scale, mul_unpack a b = inr (fst (operand (fp_abs a)), fst (operand (fp_abs b)), scale) /\
    fp_abs a / ib + fp_abs b / ib + scale = snd (operand (fp_abs a)) + snd (operand (fp_abs b)).
Proof.
  intros Ra Rb Ha Hb. unfold mul_unpack. destruct (fields_of a Ra) as [-> ->]. destruct (fields_of b Rb) as [-> ->].
  destruct (rep_parts a Ra) as (_ & Aa & La & _). destruct (rep_parts b Rb) as (_ & Ab & Lb & _).
  rewrite !field_special, La, Lb by assumption.
  rewrite (proj2 (Z.leb_gt infRep (fp_abs a))), (proj2 (Z.leb_gt infRep (fp_abs b))) by lia. rewrite !orb_false_r.
  rewrite !Z.gtb_ltb, (proj2 (Z.ltb_ge infRep (fp_abs a))), (proj2 (Z.ltb_ge infRep (fp_abs b))) by lia.
  rewrite (proj2 (Z.eqb_neq (fp_abs a) infRep)), (proj2 (Z.eqb_neq (fp_abs b) infRep)) by lia.
  unfold nonzero. rewrite (proj2 (Z.eqb_neq (fp_abs a) 0)), (proj2 (Z.eqb_neq (fp_abs b) 0)) by lia. cbn [negb].
  unfold operand. rewrite implicitBit_val. pose proof sig_pow_pos as Hp.
  rewrite !field_zero by lia.
  assert (D0 : forall x, 0 < x -> x < ib -> x / ib = 0) by (intros; apply Z.div_small; lia).
  destruct (Z.ltb_spec (fp_abs a) ib) as [La'|La'], (Z.ltb_spec (fp_abs b) ib) as [Lb'|Lb']; cbn [orb];
    try (destruct (normalize (fp_abs a mod ib)) as [sa na]); try (destruct (normalize (fp_abs b mod ib)) as [sB nb]);
    eexists; (split; [reflexivity|]); cbn [snd]; rewrite ?(D0 (fp_abs a)), ?(D0 (fp_abs b)) by lia; lia.
Qed.

(** ** The exact product *)

(** [T], at exponent [E], is the exact product of the two magnitudes. *)
Definition product_of (num E T : Z) : Prop :=
  ib * 2 ^ W <= T < 2 * ib * 2 ^ W /\ 0 <= E - 1 + (2 * sb + exponentBias) /\
  num * (2 ^ (2 * sb + exponentBias) * 2 ^ W) = T * 2 ^ (E - 1 + (2 * sb + exponentBias)) * 2 ^ unitExp.

Lemma bias_bounds : 15 <= exponentBias < 32768.
Proof.
  pose proof exponentBits_bounds as B. rewrite exponentBias_val. set (e := exponentBits) in *.
  pose proof (Z.pow_le_mono_r 2 4 (e - 1) ltac:(lia) ltac:(lia)).
  pose proof (Z.pow_le_mono_r 2 (e - 1) 14 ltac:(lia) ltac:(lia)). lia.
Qed.

Lemma product_scaled xa ea sa xb eb sB : unpacked xa ea sa -> unpacked xb eb sB ->
  fpval xa * fpval xb * (2 ^ (2 * sb + exponentBias) * 2 ^ W)
  = sa * sB * 2 ^ exponentBits * 2 ^ (ea + eb - exponentBias + 1 - 1 + (2 * sb + exponentBias)) * 2 ^ unitExp.
Proof.
  intros (_ & Ha & Ea) (_ & Hb & Eb). pose proof exponentBits_bounds as B. pose proof bias_bounds as BB.
  replace (2 ^ (2 * sb + exponentBias)) with (2 ^ sb * 2 ^ sb * 2 ^ exponentBias)
    by (rewrite <- !pow2_split by lia; f_equal; lia).
  replace (fpval xa * fpval xb * (2 ^ sb * 2 ^ sb * 2 ^ exponentBias * 2 ^ W))
    with (fpval xa * 2 ^ sb * (fpval xb * 2 ^ sb) * (2 ^ exponentBias * 2 ^ W)) by ring.
  rewrite Ea, Eb. unfold unitExp.
  replace (sa * 2 ^ (ea - 1 + sb) * (sB * 2 ^ (eb - 1 + sb)) * (2 ^ exponentBias * 2 ^ W))
    with (sa * sB * (2 ^ (ea - 1 + sb) * 2 ^ (eb - 1 + sb) * (2 ^ exponentBias * 2 ^ W))) by ring.
  rewrite <- !Z.mul_assoc. do 2 f_equal. rewrite <- !pow2_split by lia. f_equal. lia.
Qed.

(** The product of the significands, shifted so that its leading bit is the
    implicit bit of the high word. *)
Lemma mul_normalize xa ea sa xb eb sB : unpacked xa ea sa -> unpacked xb eb sB ->
  let '(hi, lo) := wideMultiply sa (sB <<[W] exponentBits) in
  let '(E, hi, lo) :=
    if nonzero (hi .& implicitBit) then (ea + eb - exponentBias + 1, hi, lo)
    else let '(h, l) := wideLeftShift hi lo 1 in (ea + eb - exponentBias, h, l) in
  is_uint W hi /\ is_uint W lo /\ product_of (fpval xa * fpval xb) E (hi * 2 ^ W + lo).
Proof.
  intros Ua Ub. pose proof (product_scaled xa ea sa xb eb sB Ua Ub) as EX.
  destruct Ua as (Ra & Ha & _). destruct Ub as (Rb & Hb & _).
  pose proof exponentBits_bounds as B. pose proof bias_bounds as BB. pose proof sig_pow_pos as Hp.
  assert (HW : 2 ^ W = 2 * ib * 2 ^ exponentBits).
  { change 2 with (2 ^ 1) at 2. rewrite <- !pow2_split by lia. f_equal. lia. }
  assert (He : 32 <= 2 ^ exponentBits) by (change 32 with (2 ^ 5); apply Z.pow_le_mono_r; lia).
  rewrite ushl_spec, (uint_small W (sB * _)) by (lia || unfold is_uint; nia).
  assert (RA : is_uint W sa) by (unfold is_uint; nia).
  assert (RB : is_uint W (sB * 2 ^ exponentBits)) by (unfold is_uint; nia).
  pose proof (wideMultiply_ok sa (sB * 2 ^ exponentBits) RA RB) as WM.
  destruct (wideMultiply _ _) as [hi lo]. destruct WM as (Rh & Rl & P). pose proof Rl as Rl'. unfold is_uint in Rl'.
  set (T := sa * sB). assert (HT : ib * ib <= T < 4 * (ib * ib)) by (unfold T; nia).
  replace (sa * (sB * 2 ^ exponentBits)) with (T * 2 ^ exponentBits) in P by (unfold T; ring). fold T in EX.
  assert (Hhi : 0 <= hi < 2 * ib).
  { unfold is_uint in Rh. split; [lia|]. apply Z.lt_nge. intros C. nia. }
  assert (TB : nonzero (hi .& implicitBit) = (ib <=? hi)).
  { unfold nonzero. rewrite implicitBit_val. replace ib with ((2 ^ 1 - 1) * ib) at 1 by lia.
    rewrite land_high_zero by (rewrite ?pow2_split by lia; lia). now rewrite Z.leb_antisym. }
  rewrite TB. destruct (Z.leb_spec ib hi) as [L|L].
  - split; [assumption|]. split; [assumption|]. unfold product_of. split; [nia|]. split; [lia|]. rewrite P. exact EX.
  - assert (Rh1 : is_uint (W - 1) hi).
    { unfold is_uint. assert (ib <= 2 ^ (W - 1)) by (apply Z.pow_le_mono_r; lia). lia. }
    pose proof (wideLeftShift_one hi lo Rh1 Rl) as LS. destruct (wideLeftShift hi lo 1) as [h l].
    destruct LS as (Rh' & Rl2 & P'). split; [assumption|]. split; [assumption|]. unfold product_of. rewrite P'.
    split; [rewrite P; nia|]. split; [lia|]. rewrite P, EX.
    replace (ea + eb - exponentBias + 1 - 1 + (2 * sb + exponentBias))
      with (1 + (ea + eb - exponentBias - 1 + (2 * sb + exponentBias))) by lia.
    rewrite (pow2_split 1) by lia. ring.
Qed.

(** ** Rounding the product *)

Lemma mul_finish_spec (n : bool) num E hi lo : 0 < num -> E < 2 ^ 30 -> is_uint W hi -> is_uint W lo ->
  product_of num E (hi * 2 ^ W + lo) ->
  exists r, rounds_to num (2 ^ unitExp) r /\
    mul_finish (if n then 2 ^ (W - 1) else 0) E hi lo = with_sign n r.
Proof.
  intros Hnum HE30 Rh Rl (RT & HE & EX). pose proof exponentBits_bounds as B. pose proof bias_bounds as BB.
  pose proof sig_pow_pos as Hp. pose proof maxExponent_bounds as ME. pose proof infRep_bounds as Bi.
  set (c := 2 * sb + exponentBias) in *. set (T := hi * 2 ^ W + lo) in *.
  assert (PW : 0 < 2 ^ W) by (apply pow2_pos; lia). assert (PU : 0 < 2 ^ unitExp) by (apply pow2_pos; unfold unitExp; lia).
  assert (PE : forall d, 0 <= d <= c -> 0 <= E - 1 + d -> num * (2 ^ d * 2 ^ W) = T * 2 ^ (E - 1 + d) * 2 ^ unitExp).
  { intros d Hd Hd'. assert (P2 : 0 < 2 ^ (c - d)) by (apply pow2_pos; lia).
    apply (Z.mul_cancel_r _ _ (2 ^ (c - d))); [lia|].
    replace (2 ^ c) with (2 ^ d * 2 ^ (c - d)) in EX by (rewrite <- pow2_split by lia; f_equal; lia).
    replace (2 ^ (E - 1 + c)) with (2 ^ (E - 1 + d) * 2 ^ (c - d)) in EX by (rewrite <- pow2_split by lia; f_equal; lia).
    lia. }
  pose proof Rh as Rh'. pose proof Rl as Rl'. unfold is_uint in Rh', Rl'.
  assert (Qhi : T / 2 ^ W = hi /\ T mod 2 ^ W = lo).
  { apply div_mod_pair. lia. }
  assert (Bhi : ib <= hi < 2 * ib) by (unfold T in RT; nia).
  unfold mul_finish. rewrite Z.geb_leb. destruct (Z.leb_spec maxExponent E) as [G|G].
  { exists infRep. split; [|rewrite with_sign_lor by lia; reflexivity]. apply rounds_to_inf; [lia|].
    rewrite fpval_inf. specialize (PE 0 ltac:(lia) ltac:(lia)). rewrite Z.add_0_r, Z.pow_0_r in PE.
    assert (2 ^ (maxExponent - 1) <= 2 ^ (E - 1)) by (apply Z.pow_le_mono_r; lia).
    assert (0 < 2 ^ (maxExponent - 1)) by (apply pow2_pos; lia).
    apply (Z.mul_le_mono_pos_r _ _ (2 ^ W)); [lia|].
    replace (num * 2 ^ W) with (T * 2 ^ (E - 1) * 2 ^ unitExp) by lia.
    assert (ib * 2 ^ W * 2 ^ (maxExponent - 1) <= T * 2 ^ (E - 1)) by (apply Z.mul_le_mono_nonneg; nia). nia. }
  destruct (Z.leb_spec E 0) as [L|L]; cbn [andb].
  - assert (Esh : 1 -[32] uint 32 E = 1 - E).
    { unfold usub. apply uint_of_eqm; [unfold is_uint; lia|]. now rewrite uint_eqm. }
    rewrite Esh, Z.geb_leb. set (sh := 1 - E). assert (Dsh : sh = 1 - E) by reflexivity. clearbody sh.
    assert (PEs : num * (2 ^ sh * 2 ^ W) = T * 2 ^ unitExp).
    { specialize (PE sh ltac:(lia) ltac:(lia)). replace (E - 1 + sh) with 0 in PE by lia.
      rewrite Z.pow_0_r, Z.mul_1_r in PE. exact PE. }
    assert (Psh : 0 < 2 ^ sh) by (apply pow2_pos; lia).
    destruct (Z.leb_spec W sh) as [G2|G2].
    + exists 0. split; [|destruct n; cbn [with_sign]; lia]. split; [lia|]. split; [now left|]. right; left.
      assert (16 <= ib) by (change 16 with (2 ^ 4); apply Z.pow_le_mono_r; lia).
      assert (V1 : fpval (0 + 1) = 1) by (unfold fpval; rewrite Z.div_small, Z.mod_small by lia; reflexivity).
      rewrite V1, fpval_zero. assert (P4 : 4 * ib <= 2 ^ sh).
      { change 4 with (2 ^ 2). rewrite <- pow2_split by lia. apply Z.pow_le_mono_r; lia. }
      assert (2 * T * 2 ^ unitExp < 4 * ib * 2 ^ W * 2 ^ unitExp) by (apply Z.mul_lt_mono_pos_r; lia).
      assert (4 * ib * (2 ^ W * 2 ^ unitExp) <= 2 ^ sh * (2 ^ W * 2 ^ unitExp))
        by (apply Z.mul_le_mono_nonneg_r; [apply Z.mul_nonneg_nonneg; lia|lia]).
      apply (Z.mul_lt_mono_pos_r (2 ^ sh * 2 ^ W)); [now apply Z.mul_pos_pos|]. lia.
    + assert (Hsh : 0 < sh < W) by lia. pose proof (wideRightShiftWithSticky_spec hi lo sh Hsh Rh Rl) as RS.
      destruct (wideRightShiftWithSticky hi lo sh) as [h l]. destruct RS as (Rh2 & Rl2 & J).
      set (S2 := jam (hi * 2 ^ W + lo) sh) in *. fold T in S2. unfold is_uint in Rh2, Rl2.
      assert (HS2 : 0 <= S2 < 2 * (ib * 2 ^ (W - 1))).
      { split; [apply jam_bounds; lia|]. apply jam_lt; [lia|lia|].
        assert (2 ^ W = 2 * 2 ^ (W - 1)) by (apply pow2_S; lia). assert (0 < 2 ^ (W - 1)) by (apply pow2_pos; lia).
        pose proof (Z.pow_le_mono_r 2 1 sh ltac:(lia) ltac:(lia)) as P1. change (2 ^ 1) with 2 in P1.
        assert (2 * (ib * 2 ^ (W - 1)) * 2 <= 2 * (ib * 2 ^ (W - 1)) * 2 ^ sh)
          by (apply Z.mul_le_mono_nonneg_l; [nia|lia]). lia. }
      assert (W2 : 2 ^ W = 2 * 2 ^ (W - 1)) by (apply pow2_S; lia).
      assert (Q2 : S2 / 2 ^ W = h /\ S2 mod 2 ^ W = l).
      { rewrite <- J. apply div_mod_pair. lia. }
      destruct Q2 as [Q2 Q3]. assert (Hh : 0 <= h < ib).
      { split; [lia|]. rewrite <- Q2. apply Z.div_lt_upper_bound; lia. }
      exists (round_nearest W h l). split.
      * pose proof (rounds_to_round W 1 S2 T (2 ^ sh) num (2 ^ unitExp)) as RR.
        change (1 - 1) with 0 in RR. rewrite Z.mul_0_l, Z.add_0_l, Q2, Q3 in RR. apply RR; clear RR; try lia.
        apply agrees_weaken with 1; [lia|]. apply jam_agrees. lia.
      * rewrite infRep_val in Bi. rewrite with_sign_lor by nia. rewrite signBit_val.
        apply (round_bits W); [lia|]. rewrite infRep_val. nia.
  - exists (round_nearest W ((E - 1) * ib + hi) lo). split.
    + pose proof (rounds_to_round W E T T 1 num (2 ^ unitExp)) as RR. rewrite (proj1 Qhi), (proj2 Qhi) in RR.
      apply RR; clear RR; try lia.
      * apply agrees_weaken with 0; [lia|]. rewrite <- (Z.mul_1_r T) at 2. apply agrees_exact. lia.
      * specialize (PE 0 ltac:(lia) ltac:(lia)). rewrite Z.add_0_r, Z.pow_0_r in PE. lia.
    + rewrite pack by lia. rewrite infRep_val in Bi. rewrite with_sign_lor by nia. rewrite signBit_val.
      apply (round_bits W); [nia|]. rewrite infRep_val. nia.
Qed.

Definition product_sign (a b : Z) : bool := xorb (fp_neg a) (fp_neg b).

Lemma product_sign_bit a b : is_uint W a -> is_uint W b ->
  (a .^ b) .& signBit = if product_sign a b then 2 ^ (W - 1) else 0.
Proof.
  intros Ra Rb. destruct (rep_parts a Ra) as (_ & _ & _ & Sa). destruct (rep_parts b Rb) as (_ & _ & _ & Sb).
  replace ((a .^ b) .& signBit) with (Z.lxor (Z.land a signBit) (Z.land b signBit))
    by (apply Z.bits_inj'; intros i _; rewrite !Z.lxor_spec, !Z.land_spec, Z.lxor_spec;
        destruct (Z.testbit a i), (Z.testbit b i), (Z.testbit signBit i); reflexivity).
  rewrite Sa, Sb. unfold product_sign.
  destruct (fp_neg a), (fp_neg b); cbn [xorb]; now rewrite ?Z.lxor_nilpotent, ?Z.lxor_0_r, ?Z.lxor_0_l.
Qed.

(** A zero operand with a finite one. *)
Lemma mul_unpack_zero a b : is_uint W a -> is_uint W b -> fp_abs a < infRep -> fp_abs b < infRep ->
  fp_abs a = 0 \/ fp_abs b = 0 -> mul_unpack a b = inl ((a .^ b) .& signBit).
Proof.
  intros Ra Rb Ha Hb Hz. unfold mul_unpack. destruct (fields_of a Ra) as [-> ->]. destruct (fields_of b Rb) as [-> ->].
  destruct (rep_parts a Ra) as (_ & Aa & La & _). destruct (rep_parts b Rb) as (_ & Ab & Lb & _).
  rewrite !field_special, La, Lb by assumption.
  rewrite (proj2 (Z.leb_gt infRep (fp_abs a))), (proj2 (Z.leb_gt infRep (fp_abs b))) by lia. rewrite !orb_false_r.
  assert (T : (fp_abs a / ib =? 0) || (fp_abs b / ib =? 0) = true)
    by (destruct Hz as [-> | ->]; rewrite Zdiv_0_l, Z.eqb_refl; [reflexivity|apply orb_true_r]).
  rewrite T. rewrite !Z.gtb_ltb, (proj2 (Z.ltb_ge infRep (fp_abs a))), (proj2 (Z.ltb_ge infRep (fp_abs b))) by lia.
  rewrite (proj2 (Z.eqb_neq (fp_abs a) infRep)), (proj2 (Z.eqb_neq (fp_abs b) infRep)) by lia.
  unfold nonzero. destruct Hz as [-> | ->]; rewrite Z.eqb_refl; cbn [negb]; [reflexivity|].
  now destruct (fp_abs a =? 0).
Qed.

Lemma mul_finite_spec a b : is_uint W a -> is_uint W b -> is_finite a = true -> is_finite b = true ->
  exists r, rounds_to (Z.abs (fp_value a * fp_value b)) (2 ^ unitExp) r /\
    __mulXf3__ a b = with_sign (product_sign a b) r.
Proof.
  intros Ra Rb Fa Fb. unfold is_finite in *. apply Z.ltb_lt in Fa, Fb.
  destruct (rep_parts a Ra) as (_ & Aa & _ & _). destruct (rep_parts b Rb) as (_ & Ab & _ & _).
  assert (Ex : Z.abs (fp_value a * fp_value b) = fpval (fp_abs a) * fpval (fp_abs b)).
  { assert (0 <= fpval (fp_abs a)) by (apply fpval_step; lia). assert (0 <= fpval (fp_abs b)) by (apply fpval_step; lia).
    unfold fp_value. rewrite Z.abs_mul. destruct (fp_neg a), (fp_neg b); nia. }
  rewrite Ex. unfold __mulXf3__. rewrite product_sign_bit by assumption.
  assert (PU : 0 < 2 ^ unitExp) by (apply pow2_pos; unfold unitExp; pose proof bias_bounds; pose proof exponentBits_bounds; lia).
  pose proof infRep_bounds as Bi.
  assert (Hz : fp_abs a = 0 \/ fp_abs b = 0 \/ 0 < fp_abs a /\ 0 < fp_abs b) by lia.
  assert (Zero : fp_abs a = 0 \/ fp_abs b = 0 -> fpval (fp_abs a) * fpval (fp_abs b) = 0)
    by (intros [-> | ->]; rewrite fpval_zero; lia).
  destruct (Z.eq_dec (fp_abs a * fp_abs b) 0) as [Z0|NZ].
  { assert (Z1 : fp_abs a = 0 \/ fp_abs b = 0) by nia. rewrite mul_unpack_zero, product_sign_bit, Zero by (assumption || lia).
    exists 0. split; [|destruct (product_sign a b); cbn [with_sign]; lia].
    assert (R0 : rounds_to (2 ^ unitExp * fpval 0) (2 ^ unitExp) 0) by (apply rounds_to_exact; lia).
    rewrite fpval_zero, Z.mul_0_r in R0. exact R0. }
  assert (Oa : 0 < fp_abs a < infRep) by nia. assert (Ob : 0 < fp_abs b < infRep) by nia.
  destruct (mul_unpack_finite a b Ra Rb Oa Ob) as (scale & -> & Es).
  destruct (fields_of a Ra) as [-> _]. destruct (fields_of b Rb) as [-> _].
  pose proof (operand_spec (fp_abs a) Oa) as Ua. pose proof (operand_spec (fp_abs b) Ob) as Ub.
  replace (fp_abs a / ib + fp_abs b / ib - exponentBias + scale)
    with (snd (operand (fp_abs a)) + snd (operand (fp_abs b)) - exponentBias) by lia.
  pose proof (mul_normalize _ _ _ _ _ _ Ua Ub) as MN.
  destruct (wideMultiply _ _) as [hi lo].
  assert (Hn : 0 < fpval (fp_abs a) * fpval (fp_abs b)).
  { assert (fpval 0 < fpval (fp_abs a)) by (apply fpval_lt; lia). assert (fpval 0 < fpval (fp_abs b)) by (apply fpval_lt; lia).
    rewrite fpval_zero in *. nia. }
  destruct Ua as (_ & Ha & _). destruct Ub as (_ & Hb & _). pose proof maxExponent_bounds. pose proof bias_bounds.
  destruct (nonzero (hi .& implicitBit)).
  - destruct MN as (M1 & M2 & M3). apply mul_finish_spec; auto. lia.
  - destruct (wideLeftShift hi lo 1) as [h l]. destruct MN as (M1 & M2 & M3). apply mul_finish_spec; auto. lia.
Qed.

Lemma mul_nonfinite_spec a b : is_uint W a -> is_uint W b ->
  let p := __mulXf3__ a b in
  (is_nan a = true -> p = a .| quietBit) /\
  (is_nan a = false -> is_nan b = true -> p = b .| quietBit) /\
  (is_inf a = true -> is_nan b = false ->
     p = if fp_abs b =? 0 then qnanRep else with_sign (product_sign a b) infRep) /\
  (is_finite a = true -> is_inf b = true ->
     p = if fp_abs a =? 0 then qnanRep else with_sign (product_sign a b) infRep).
Proof.
  intros Ra Rb. cbv zeta. unfold __mulXf3__, mul_unpack, is_nan, is_inf, is_finite.
  destruct (fields_of a Ra) as [-> ->]. destruct (fields_of b Rb) as [-> ->].
  destruct (rep_parts a Ra) as (_ & Aa & La & _). destruct (rep_parts b Rb) as (_ & Ab & Lb & _).
  rewrite La, Lb, !field_special, product_sign_bit by assumption. rewrite !Z.gtb_ltb. pose proof infRep_bounds as Bi.
  unfold nonzero. split; [|split; [|split]].
  - intros G. rewrite G. apply Z.ltb_lt in G. rewrite (proj2 (Z.leb_le infRep (fp_abs a))) by lia.
    rewrite orb_true_r. reflexivity.
  - intros G1 G. rewrite G1, G. apply Z.ltb_lt in G. rewrite (proj2 (Z.leb_le infRep (fp_abs b))) by lia.
    rewrite !orb_true_r. reflexivity.
  - intros G G1. rewrite G, G1. apply Z.eqb_eq in G. rewrite G, (proj2 (Z.leb_le infRep infRep)) by lia.
    rewrite (proj2 (Z.ltb_ge infRep infRep)), orb_true_r by lia. cbn [orb].
    destruct (fp_abs b =? 0); cbn [negb]; [reflexivity|]. apply with_sign_lor. lia.
  - intros G G1. rewrite G1. apply Z.ltb_lt in G. apply Z.eqb_eq in G1. rewrite G1, (proj2 (Z.leb_le infRep infRep)) by lia.
    rewrite !orb_true_r, (proj2 (Z.ltb_ge infRep (fp_abs a))), (proj2 (Z.ltb_ge infRep infRep)) by lia.
    rewrite (proj2 (Z.eqb_neq (fp_abs a) infRep)) by lia.
    destruct (fp_abs a =? 0); cbn [negb]; [reflexivity|]. apply with_sign_lor. lia.
Qed.
End MulProof.

(** ** The properties of multiplication *)

(** C12: in every format whose [wideMultiply] is exact (single and double
    precision), the product of two finite numbers is the exact product
    rounded to nearest, ties to even, through overflow and gradual underflow,
    with the exclusive or of the signs. *)
Theorem mul_correctly_rounded (F : FpFormat) (O : FpOps) (M : FpWideMul) a b :
  is_uint typeWidth a -> is_uint typeWidth b -> is_finite a = true -> is_finite b = true ->
  exists r, rounds_to (Z.abs (fp_value a * fp_value b)) (2 ^ unitExp) r /\
    __mulXf3__ a b = with_sign (product_sign a b) r.
Proof. apply mul_finite_spec. Qed.

Lemma mul_correctly_rounded_witness :
  (exists r, @rounds_to single_precision
      (Z.abs (@fp_value single_precision 0x3f800001 * @fp_value single_precision 0xbf7fffff)) (2 ^ @unitExp single_precision) r /\
    __mulsf3 0x3f800001 0xbf7fffff = @with_sign single_precision (@product_sign single_precision 0x3f800001 0xbf7fffff) r) /\
  (exists r, @rounds_to double_precision
      (Z.abs (@fp_value double_precision 3 * @fp_value double_precision 0x3fe0000000000000)) (2 ^ @unitExp double_precision) r /\
    __muldf3 3 0x3fe0000000000000 = @with_sign double_precision (@product_sign double_precision 3 0x3fe0000000000000) r).
Proof.
  split.
  - apply (mul_correctly_rounded single_precision single_ops single_wide 0x3f800001 0xbf7fffff);
      [unfold is_uint; cbn [typeWidth single_precision]; lia | unfold is_uint; cbn [typeWidth single_precision]; lia
      | reflexivity | reflexivity].
  - apply (mul_correctly_rounded double_precision double_ops double_wide 3 0x3fe0000000000000);
      [unfold is_uint; cbn [typeWidth double_precision]; lia | unfold is_uint; cbn [typeWidth double_precision]; lia
      | reflexivity | reflexivity].
Defined.

(** The other cases of multiplication: a NaN operand gives a NaN, an
    infinite one an infinity with the product's sign, and zero times infinity
    the default NaN. *)
Theorem mul_special_values (F : FpFormat) (O : FpOps) a b :
  is_uint typeWidth a -> is_uint typeWidth b ->
  let p := __mulXf3__ a b in
  (is_nan a = true -> p = a .| quietBit /\ is_nan p = true) /\
  (is_nan a = false -> is_nan b = true -> p = b .| quietBit /\ is_nan p = true) /\
  (is_inf a = true -> is_nan b = false ->
     p = if fp_abs b =? 0 then qnanRep else with_sign (product_sign a b) infRep) /\
  (is_finite a = true -> is_inf b = true ->
     p = if fp_abs a =? 0 then qnanRep else with_sign (product_sign a b) infRep).
Proof.
  intros Ra Rb p. destruct (mul_nonfinite_spec a b Ra Rb) as (N1 & N2 & I1 & I2). fold p in N1, N2, I1, I2.
  split; [|split; [|split; assumption]].
  - intros N. rewrite N1 by assumption. split; [reflexivity|now apply quiet_is_nan].
  - intros N N'. rewrite N2 by assumption. split; [reflexivity|now apply quiet_is_nan].
Qed.

Lemma mul_special_values_witness : __mulsf3 0xff800000 0 = 0x7fc00000.
Proof.
  refine (_ (mul_special_values single_precision single_ops 0xff800000 0 _ _));
    [|unfold is_uint; cbn [typeWidth single_precision]; lia..].
  intros (_ & _ & I & _). exact (I eq_refl eq_refl).
Defined.

(** The quad-precision [wideMultiply] drops the carry out of the low word
    ([*lo = r0 + (r1 << 64)] can wrap): its two words are not the product of
    [2^128 - 1] with itself, and [__multf3] returns a result one unit below
    the correctly rounded product of two numbers between 1 and 2. *)
Theorem quad_multiply_loses_carry :
  (let '(hi, lo) := wideMultiply_quad (2 ^ 128 - 1) (2 ^ 128 - 1) in
   hi * 2 ^ 128 + lo = (2 ^ 128 - 1) * (2 ^ 128 - 1) - 2 ^ 128) /\
  let a := 0x3ffffa375497ca75195ea6b65415af0d in
  let b := 0x3fff94b2a02f34a6795b929e9a9a80fd in
  @rounds_to quad_precision (Z.abs (@fp_value quad_precision a * @fp_value quad_precision b))
    (2 ^ @unitExp quad_precision) (__multf3 a b + 1).
Proof.
  split; [vm_compute; reflexivity|]. cbv zeta. split; [vm_compute; intuition congruence|].
  split; right; left; vm_compute; reflexivity.
Qed.
