(* ===== verification/FpCompare.v ===== *)
(** * Soft float: comparison

    Models [fp_compare_impl.inc] and the routines of [comparesf2.c],
    [comparedf2.c] and [comparetf2.c] built on it: the comparisons work on
    the representations as signed integers, and are proved to order the
    values. *)

From S2P Require Import Prelude IntBits FpLib FpSpec FpAdd.

Section Compare.
Context `{FpFormat}.

(** The result constants of the two enumerations. *)
Definition LE_LESS : Z := -1.
Definition LE_EQUAL : Z := 0.
Definition LE_GREATER : Z := 1.
Definition LE_UNORDERED : Z := 1.
Definition GE_LESS : Z := -1.
Definition GE_EQUAL : Z := 0.
Definition GE_GREATER : Z := 1.
Definition GE_UNORDERED : Z := -1.

Definition __leXf2__ (a b : Z) : Z :=
  let aInt := sint typeWidth a in
  let bInt := sint typeWidth b in
  let aAbs := uint typeWidth aInt .& absMask in
  let bAbs := uint typeWidth bInt .& absMask in
  if (aAbs >? infRep) || (bAbs >? infRep) then LE_UNORDERED
  else if (aAbs .| bAbs) =? 0 then LE_EQUAL
  else if (aInt .& bInt) >=? 0 then
    if aInt <? bInt then LE_LESS else if aInt =? bInt then LE_EQUAL else LE_GREATER
  else
    if aInt >? bInt then LE_LESS else if aInt =? bInt then LE_EQUAL else LE_GREATER.

Definition __geXf2__ (a b : Z) : Z :=
  let aInt := sint typeWidth a in
  let bInt := sint typeWidth b in
  let aAbs := uint typeWidth aInt .& absMask in
  let bAbs := uint typeWidth bInt .& absMask in
  if (aAbs >? infRep) || (bAbs >? infRep) then GE_UNORDERED
  else if (aAbs .| bAbs) =? 0 then GE_EQUAL
  else if (aInt .& bInt) >=? 0 then
    if aInt <? bInt then GE_LESS else if aInt =? bInt then GE_EQUAL else GE_GREATER
  else
    if aInt >? bInt then GE_LESS else if aInt =? bInt then GE_EQUAL else GE_GREATER.

Definition __unordXf2__ (a b : Z) : Z :=
  let aAbs := a .& absMask in
  let bAbs := b .& absMask in
  b2z ((aAbs >? infRep) || (bAbs >? infRep)).
End Compare.

Definition __lesf2 (a b : Z) : Z := @__leXf2__ single_precision a b.
Definition __gesf2 (a b : Z) : Z := @__geXf2__ single_precision a b.
Definition __unordsf2 (a b : Z) : Z := @__unordXf2__ single_precision a b.
Definition __ledf2 (a b : Z) : Z := @__leXf2__ double_precision a b.
Definition __gedf2 (a b : Z) : Z := @__geXf2__ double_precision a b.
Definition __unorddf2 (a b : Z) : Z := @__unordXf2__ double_precision a b.
Definition __letf2 (a b : Z) : Z := @__leXf2__ quad_precision a b.
Definition __getf2 (a b : Z) : Z := @__geXf2__ quad_precision a b.
Definition __unordtf2 (a b : Z) : Z := @__unordXf2__ quad_precision a b.

(** The names the compiler calls for the other operators: aliases of the two
    routines.  [a == b] is [__eqsf2 (a, b) == 0], [a < b] is [__ltsf2 (a, b) < 0]
    and so on. *)
Definition __cmpsf2 : Z -> Z -> Z := __lesf2.
Definition __eqsf2 : Z -> Z -> Z := __lesf2.
Definition __ltsf2 : Z -> Z -> Z := __lesf2.
Definition __nesf2 : Z -> Z -> Z := __lesf2.
Definition __gtsf2 : Z -> Z -> Z := __gesf2.
Definition __cmpdf2 : Z -> Z -> Z := __ledf2.
Definition __eqdf2 : Z -> Z -> Z := __ledf2.
Definition __ltdf2 : Z -> Z -> Z := __ledf2.
Definition __nedf2 : Z -> Z -> Z := __ledf2.
Definition __gtdf2 : Z -> Z -> Z := __gedf2.
Definition __cmptf2 : Z -> Z -> Z := __letf2.
Definition __eqtf2 : Z -> Z -> Z := __letf2.
Definition __lttf2 : Z -> Z -> Z := __letf2.
Definition __netf2 : Z -> Z -> Z := __letf2.
Definition __gttf2 : Z -> Z -> Z := __getf2.

Section CompareProof.
Context `{FpFormat}.

(** The order of two values as the three result codes. *)
Definition order_sign (x y : Z) : Z := match x ?= y with Lt => -1 | Eq => 0 | Gt => 1 end.

Lemma sint_rep rep : is_uint typeWidth rep ->
  sint typeWidth rep = if fp_neg rep then fp_abs rep - 2 ^ (typeWidth - 1) else fp_abs rep.
Proof.
  intros R. pose proof exponentBits_bounds as B. destruct (rep_parts rep R) as (E & A & _ & _).
  rewrite sint_cases by (lia || assumption). assert (P : 2 ^ typeWidth = 2 * 2 ^ (typeWidth - 1)) by (apply pow2_S; lia).
  destruct (fp_neg rep) eqn:N; cbn [with_sign] in E; rewrite E;
    destruct (Z.ltb_spec (2 ^ (typeWidth - 1) + fp_abs rep) (2 ^ (typeWidth - 1)));
    try destruct (Z.ltb_spec (fp_abs rep) (2 ^ (typeWidth - 1))); rewrite <- ?E; lia.
Qed.

(** Comparing the integers, with the sense flipped for two negatives. *)
Lemma order_of_ints a b : is_uint typeWidth a -> is_uint typeWidth b ->
  ~ (fp_abs a = 0 /\ fp_abs b = 0) ->
  let aInt := sint typeWidth a in
  let bInt := sint typeWidth b in
  (if (aInt .& bInt) >=? 0 then
     if aInt <? bInt then -1 else if aInt =? bInt then 0 else 1
   else
     if aInt >? bInt then -1 else if aInt =? bInt then 0 else 1) = order_sign (fp_value a) (fp_value b).
Proof.
  intros Ra Rb Hz. cbv zeta. rewrite !sint_rep by assumption.
  destruct (rep_parts a Ra) as (_ & Aa & _ & _). destruct (rep_parts b Rb) as (_ & Ab & _ & _).
  unfold fp_value, order_sign. set (x := fp_abs a) in *. set (y := fp_abs b) in *. set (h := 2 ^ (typeWidth - 1)) in *.
  assert (Vx : 0 <= fpval x /\ (0 < x -> 0 < fpval x)).
  { split; [apply fpval_step; lia|]. intros. rewrite <- fpval_zero. apply fpval_lt; lia. }
  assert (Vy : 0 <= fpval y /\ (0 < y -> 0 < fpval y)).
  { split; [apply fpval_step; lia|]. intros. rewrite <- fpval_zero. apply fpval_lt; lia. }
  pose proof (fpval_lt_iff x y ltac:(lia) ltac:(lia)) as L1. pose proof (fpval_lt_iff y x ltac:(lia) ltac:(lia)) as L2.
  assert (Eq : x = y -> fpval x = fpval y) by (intros; congruence).
  rewrite Z.geb_leb, !Z.gtb_ltb.
  match goal with |- context [0 <=? Z.land ?u ?v] =>
    assert (LN : (0 <=? Z.land u v) = (0 <=? u) || (0 <=? v))
      by (apply Bool.eq_iff_eq_true; rewrite orb_true_iff, !Z.leb_le; apply Z.land_nonneg); rewrite LN end.
  destruct (fp_neg a), (fp_neg b);
    repeat match goal with
    | |- context [?u <=? ?v] => destruct (Z.leb_spec u v); try lia
    end; cbn [orb];
    repeat match goal with
    | |- context [?u <? ?v] => destruct (Z.ltb_spec u v)
    | |- context [?u =? ?v] => destruct (Z.eqb_spec u v)
    | |- context [?u ?= ?v] => destruct (Z.compare_spec u v)
    end; lia || reflexivity.
Qed.

Lemma abs_or_zero x y : 0 <= x -> 0 <= y -> (Z.lor x y =? 0) = (x =? 0) && (y =? 0).
Proof.
  intros Hx Hy. apply Bool.eq_iff_eq_true. rewrite andb_true_iff, !Z.eqb_eq. apply Z.lor_eq_0_iff.
Qed.

Lemma le_spec a b : is_uint typeWidth a -> is_uint typeWidth b ->
  __leXf2__ a b = (if is_nan a || is_nan b then 1 else order_sign (fp_value a) (fp_value b)) /\
  __geXf2__ a b = (if is_nan a || is_nan b then -1 else order_sign (fp_value a) (fp_value b)) /\
  __unordXf2__ a b = b2z (is_nan a || is_nan b).
Proof.
  intros Ra Rb. unfold __leXf2__, __geXf2__, __unordXf2__.
  rewrite !uint_sint, !uint_small by assumption.
  destruct (rep_parts a Ra) as (_ & Aa & La & _). destruct (rep_parts b Rb) as (_ & Ab & Lb & _).
  rewrite La, Lb, !Z.gtb_ltb, abs_or_zero by lia. fold (is_nan a) (is_nan b).
  assert (X : (if (fp_abs a =? 0) && (fp_abs b =? 0) then 0 else
    if (sint typeWidth a .& sint typeWidth b) >=? 0 then
     if sint typeWidth a <? sint typeWidth b then -1 else if sint typeWidth a =? sint typeWidth b then 0 else 1
   else
     if sint typeWidth a >? sint typeWidth b then -1 else if sint typeWidth a =? sint typeWidth b then 0 else 1)
     = order_sign (fp_value a) (fp_value b)).
  { destruct (Z.eqb_spec (fp_abs a) 0) as [Ea|Ea], (Z.eqb_spec (fp_abs b) 0) as [Eb|Eb]; cbn [andb];
      try (apply order_of_ints; auto; tauto).
    assert (V : forall c, fp_abs c = 0 -> fp_value c = 0)
      by (intros c E; unfold fp_value; rewrite E; pose proof fpval_zero; destruct (fp_neg c); lia).
    rewrite !V by assumption. reflexivity. }
  rewrite !Z.gtb_ltb in X. destruct (is_nan a || is_nan b); auto.
Qed.

(** The operators of C as the compiler expands them: [__leXf2__] compared
    with 0 decides [<], [<=], [==] and [!=], [__geXf2__] decides [>] and [>=].
    With a NaN operand only [!=] is true. *)
Lemma operators_spec a b : is_uint typeWidth a -> is_uint typeWidth b ->
  let ordered := negb (is_nan a || is_nan b) in
  (__leXf2__ a b <? 0) = ordered && (fp_value a <? fp_value b) /\
  (__leXf2__ a b <=? 0) = ordered && (fp_value a <=? fp_value b) /\
  (__leXf2__ a b =? 0) = ordered && (fp_value a =? fp_value b) /\
  (0 <? __geXf2__ a b) = ordered && (fp_value b <? fp_value a) /\
  (0 <=? __geXf2__ a b) = ordered && (fp_value b <=? fp_value a).
Proof.
  intros Ra Rb. destruct (le_spec a b Ra Rb) as (-> & -> & _). cbv zeta. destruct (is_nan a || is_nan b); cbn [negb andb]; [now repeat split|].
  unfold order_sign. destruct (Z.compare_spec (fp_value a) (fp_value b)); repeat split; symmetry;
    first [apply Z.ltb_lt|apply Z.ltb_ge|apply Z.leb_le|apply Z.leb_gt|apply Z.eqb_eq|apply Z.eqb_neq]; lia.
Qed.
End CompareProof.

(** C34: [__leXf2__] and [__geXf2__] return -1, 0 or 1 for the order of the two
    values (with [+0 = -0] and the infinities at the ends), and their two
    different codes for unordered operands; [__unordXf2__] detects a NaN.  So
    the operators the compiler expands to them ([__eqsf2], [__ltdf2],
    [__gttf2], ... are the same routines) decide the order of the values, and
    only [!=] holds of a NaN. *)
Theorem compare_orders_values (F : FpFormat) a b :
  is_uint typeWidth a -> is_uint typeWidth b ->
  __leXf2__ a b = (if is_nan a || is_nan b then 1 else order_sign (fp_value a) (fp_value b)) /\
  __geXf2__ a b = (if is_nan a || is_nan b then -1 else order_sign (fp_value a) (fp_value b)) /\
  __unordXf2__ a b = b2z (is_nan a || is_nan b) /\
  (let ordered := negb (is_nan a || is_nan b) in
   (__leXf2__ a b <? 0) = ordered && (fp_value a <? fp_value b) /\
   (__leXf2__ a b <=? 0) = ordered && (fp_value a <=? fp_value b) /\
   (__leXf2__ a b =? 0) = ordered && (fp_value a =? fp_value b) /\
   (0 <? __geXf2__ a b) = ordered && (fp_value b <? fp_value a) /\
   (0 <=? __geXf2__ a b) = ordered && (fp_value b <=? fp_value a)).
Proof. intros Ra Rb. destruct (le_spec a b Ra Rb) as (L & G & N). pose proof (operators_spec a b Ra Rb). auto. Qed.

Lemma compare_orders_values_witness :
  __lesf2 0xbf800000 0xbf000000 = -1 /\ __gedf2 0x7ff8000000000000 0 = -1.
Proof.
  split.
  - etransitivity; [apply (compare_orders_values single_precision 0xbf800000 0xbf000000);
      unfold is_uint; cbn [typeWidth single_precision]; lia|reflexivity].
  - etransitivity; [apply (compare_orders_values double_precision 0x7ff8000000000000 0);
      unfold is_uint; cbn [typeWidth double_precision]; lia|reflexivity].
Defined.
