(* ===== verification/FpConv.v ===== *)
(** * Soft float: conversions between precisions

    Models [fp_extend_impl.inc] and [fp_trunc_impl.inc] and the files that
    instantiate them ([extend*f2.c], [trunc*f2.c]).  Widening is exact;
    narrowing is correctly rounded. *)

From S2P Require Import Prelude IntBits FpLib FpSpec.

Section Conv.
Context (src dst : FpFormat).

Notation srcBits := (@typeWidth src).
Notation srcSigBits := (@significandBits src).
Notation dstBits := (@typeWidth dst).
Notation dstSigBits := (@significandBits dst).

(** [clzsi], [__builtin_clzl] or, for the 16-bit source, [__builtin_clz] on
    the promoted value. *)
Definition src_rep_t_clz (a : Z) : Z := clz (Z.max 32 srcBits) a.

Definition __extendXfYf2__ (a : Z) : Z :=
  let srcExpBits := srcBits - srcSigBits - 1 in
  let srcInfExp := Z.shiftl 1 srcExpBits - 1 in
  let srcExpBias := Z.shiftr srcInfExp 1 in
  let srcMinNormal := 1 <<[srcBits] srcSigBits in
  let srcInfinity := srcInfExp <<[srcBits] srcSigBits in
  let srcSignMask := 1 <<[srcBits] (srcSigBits + srcExpBits) in
  let srcAbsMask := srcSignMask - 1 in
  let srcQNaN := 1 <<[srcBits] (srcSigBits - 1) in
  let srcNaNCode := srcQNaN - 1 in
  let dstExpBits := dstBits - dstSigBits - 1 in
  let dstInfExp := Z.shiftl 1 dstExpBits - 1 in
  let dstExpBias := Z.shiftr dstInfExp 1 in
  let dstMinNormal := 1 <<[dstBits] dstSigBits in
  let aRep := a in
  let aAbs := aRep .& srcAbsMask in
  let sign := aRep .& srcSignMask in
  let absResult :=
    if (aAbs -[srcBits] srcMinNormal) <? srcInfinity - srcMinNormal then
      (aAbs <<[dstBits] (dstSigBits - srcSigBits)) +[dstBits] ((dstExpBias - srcExpBias) <<[dstBits] dstSigBits)
    else if aAbs >=? srcInfinity then
      ((dstInfExp <<[dstBits] dstSigBits)
       .| ((aAbs .& srcQNaN) <<[dstBits] (dstSigBits - srcSigBits)))
      .| ((aAbs .& srcNaNCode) <<[dstBits] (dstSigBits - srcSigBits))
    else if nonzero aAbs then
      let scale := src_rep_t_clz aAbs - src_rep_t_clz srcMinNormal in
      let absResult := aAbs <<[dstBits] (dstSigBits - srcSigBits + scale) in
      let absResult := absResult .^ dstMinNormal in
      let resultExponent := dstExpBias - srcExpBias - scale + 1 in
      absResult .| (resultExponent <<[dstBits] dstSigBits)
    else 0 in
  absResult .| (sign <<[dstBits] (dstBits - srcBits)).

Definition __truncXfYf2__ (a : Z) : Z :=
  let srcExpBits := srcBits - srcSigBits - 1 in
  let srcInfExp := Z.shiftl 1 srcExpBits - 1 in
  let srcExpBias := Z.shiftr srcInfExp 1 in
  let srcMinNormal := 1 <<[srcBits] srcSigBits in
  let srcSignificandMask := srcMinNormal -[srcBits] 1 in
  let srcInfinity := srcInfExp <<[srcBits] srcSigBits in
  let srcSignMask := 1 <<[srcBits] (srcSigBits + srcExpBits) in
  let srcAbsMask := srcSignMask -[srcBits] 1 in
  let roundMask := (1 <<[srcBits] (srcSigBits - dstSigBits)) -[srcBits] 1 in
  let halfway := 1 <<[srcBits] (srcSigBits - dstSigBits - 1) in
  let srcQNaN := 1 <<[srcBits] (srcSigBits - 1) in
  let srcNaNCode := srcQNaN -[srcBits] 1 in
  let dstExpBits := dstBits - dstSigBits - 1 in
  let dstInfExp := Z.shiftl 1 dstExpBits - 1 in
  let dstExpBias := Z.shiftr dstInfExp 1 in
  let underflowExponent := srcExpBias + 1 - dstExpBias in
  let overflowExponent := srcExpBias + dstInfExp - dstExpBias in
  let underflow := underflowExponent <<[srcBits] srcSigBits in
  let overflow := overflowExponent <<[srcBits] srcSigBits in
  let dstQNaN := 1 <<[dstBits] (dstSigBits - 1) in
  let dstNaNCode := dstQNaN -[dstBits] 1 in
  let aRep := a in
  let aAbs := aRep .& srcAbsMask in
  let sign := aRep .& srcSignMask in
  let absResult :=
    if (aAbs -[srcBits] underflow) <? (aAbs -[srcBits] overflow) then
      let absResult := uint dstBits (aAbs >>[srcBits] (srcSigBits - dstSigBits)) in
      let absResult := absResult -[dstBits] ((srcExpBias - dstExpBias) <<[dstBits] dstSigBits) in
      let roundBits := aAbs .& roundMask in
      if roundBits >? halfway then absResult +[dstBits] 1
      else if roundBits =? halfway then absResult +[dstBits] (absResult .& 1)
      else absResult
    else if aAbs >? srcInfinity then
      ((dstInfExp <<[dstBits] dstSigBits) .| dstQNaN)
      .| uint dstBits (((aAbs .& srcNaNCode) >>[srcBits] (srcSigBits - dstSigBits)) .& dstNaNCode)
    else if aAbs >=? overflow then dstInfExp <<[dstBits] dstSigBits
    else
      let aExp := aAbs >>[srcBits] srcSigBits in
      let shift := srcExpBias - dstExpBias - aExp + 1 in
      let significand := (aRep .& srcSignificandMask) .| srcMinNormal in
      if shift >? srcSigBits then 0
      else
        let sticky := b2z (nonzero (significand <<[srcBits] (srcBits - shift))) in
        let denormalizedSignificand := (significand >>[srcBits] shift) .| sticky in
        let absResult := uint dstBits (denormalizedSignificand >>[srcBits] (srcSigBits - dstSigBits)) in
        let roundBits := denormalizedSignificand .& roundMask in
        if roundBits >? halfway then absResult +[dstBits] 1
        else if roundBits =? halfway then absResult +[dstBits] (absResult .& 1)
        else absResult in
  absResult .| uint dstBits (sign >>[srcBits] (srcBits - dstBits)).
End Conv.

Definition __extendhfsf2 (a : Z) : Z := __extendXfYf2__ half_precision single_precision a.
Definition __extendhftf2 (a : Z) : Z := __extendXfYf2__ half_precision quad_precision a.
Definition __extendsfdf2 (a : Z) : Z := __extendXfYf2__ single_precision double_precision a.
Definition __extendsftf2 (a : Z) : Z := __extendXfYf2__ single_precision quad_precision a.
Definition __extenddftf2 (a : Z) : Z := __extendXfYf2__ double_precision quad_precision a.
Definition __truncsfhf2 (a : Z) : Z := __truncXfYf2__ single_precision half_precision a.
Definition __truncdfhf2 (a : Z) : Z := __truncXfYf2__ double_precision half_precision a.
Definition __truncdfsf2 (a : Z) : Z := __truncXfYf2__ double_precision single_precision a.
Definition __trunctfhf2 (a : Z) : Z := __truncXfYf2__ quad_precision half_precision a.
Definition __trunctfsf2 (a : Z) : Z := __truncXfYf2__ quad_precision single_precision a.
Definition __trunctfdf2 (a : Z) : Z := __truncXfYf2__ quad_precision double_precision a.

(** ** The pairs of formats *)

(** What widening needs: more significand bits, and an exponent range that
    holds the source's subnormal numbers as normal ones. *)
Class Widening (src dst : FpFormat) : Prop := widening :
  @significandBits src < @significandBits dst /\ @exponentBits src < @exponentBits dst /\
  @exponentBias src + @significandBits src <= @exponentBias dst.

(** The distance between the units of the two formats, as a power of two. *)
Definition unit_gap (wide narrow : FpFormat) : Z :=
  @exponentBias wide - @exponentBias narrow + (@significandBits wide - @significandBits narrow).

#[export] Instance widening_hs : Widening half_precision single_precision.
Proof. repeat split; vm_compute; congruence. Qed.
#[export] Instance widening_hd : Widening half_precision double_precision.
Proof. repeat split; vm_compute; congruence. Qed.
#[export] Instance widening_hq : Widening half_precision quad_precision.
Proof. repeat split; vm_compute; congruence. Qed.
#[export] Instance widening_sd : Widening single_precision double_precision.
Proof. repeat split; vm_compute; congruence. Qed.
#[export] Instance widening_sq : Widening single_precision quad_precision.
Proof. repeat split; vm_compute; congruence. Qed.
#[export] Instance widening_dq : Widening double_precision quad_precision.
Proof. repeat split; vm_compute; congruence. Qed.

Section Formats.
Context (F : FpFormat).

Lemma inf_shl : ushl typeWidth maxExponent significandBits = infRep.
Proof.
  pose proof exponentBits_bounds as B. pose proof infRep_bounds as I. rewrite ushl_spec, <- infRep_val by lia.
  apply uint_small. unfold is_uint. assert (2 ^ typeWidth = 2 * 2 ^ (typeWidth - 1)) by (apply pow2_S; lia). lia.
Qed.

Lemma shl_exponent e : 0 <= e <= maxExponent -> ushl typeWidth e significandBits = e * 2 ^ significandBits.
Proof.
  intros He. pose proof exponentBits_bounds as B. pose proof infRep_bounds as I. rewrite infRep_val in I.
  pose proof sig_pow_pos. rewrite ushl_spec by lia. apply uint_small. unfold is_uint.
  assert (2 ^ typeWidth = 2 * 2 ^ (typeWidth - 1)) by (apply pow2_S; lia). nia.
Qed.

Lemma maxExponent_bias : maxExponent = 2 * exponentBias + 1.
Proof.
  pose proof exponentBits_bounds as B. rewrite maxExponent_val, exponentBias_val, (pow2_S exponentBits) by lia. lia.
Qed.

(** A normal magnitude by its fields. *)
Lemma normal_fields x : implicitBit <= x < infRep -> exists e m, x = e * 2 ^ significandBits + m /\
  1 <= e < maxExponent /\ 0 <= m < 2 ^ significandBits /\ fpval x = (2 ^ significandBits + m) * 2 ^ (e - 1).
Proof.
  intros Hx. pose proof sig_pow_pos as Hp. rewrite implicitBit_val, infRep_val in Hx.
  exists (x / 2 ^ significandBits), (x mod 2 ^ significandBits).
  assert (1 <= x / 2 ^ significandBits) by (apply Z.div_le_lower_bound; lia).
  repeat split; try (apply Z.mod_pos_bound; lia); try lia.
  - rewrite (Z.div_mod x (2 ^ significandBits)) at 1 by lia. lia.
  - apply Z.div_lt_upper_bound; lia.
  - unfold fpval. destruct (Z.eqb_spec (x / 2 ^ significandBits) 0); [lia|]. f_equal. lia.
Qed.

Lemma subnormal_value x : 0 <= x < implicitBit -> fpval x = x.
Proof.
  intros Hx. rewrite implicitBit_val in Hx. unfold fpval. rewrite Z.div_small, Z.mod_small by lia. reflexivity.
Qed.
End Formats.

Section Extend.
Context (src dst : FpFormat) {HW : Widening src dst}.

Notation sS := (@significandBits src).
Notation sD := (@significandBits dst).
Notation gap := (sD - sS).

Lemma widths : @typeWidth src < @typeWidth dst /\ 0 < gap /\ 0 < @typeWidth src /\ sS + 1 < @typeWidth src /\
  sD + 1 < @typeWidth dst /\ @exponentBias src + sS <= @exponentBias dst.
Proof.
  destruct HW as (W1 & W2 & W3). pose proof (@exponentBits_bounds src). pose proof (@exponentBits_bounds dst). lia.
Qed.

(** The magnitude part of the conversion: the three branches of the code. *)
Lemma extend_normal x : @implicitBit src <= x < @infRep src ->
  let r := uadd (@typeWidth dst) (ushl (@typeWidth dst) x gap)
             (ushl (@typeWidth dst) (@exponentBias dst - @exponentBias src) sD) in
  0 <= r < @infRep dst /\ @fpval dst r = @fpval src x * 2 ^ unit_gap dst src.
Proof.
  intros Hx. destruct (normal_fields src x Hx) as (e & m & Ex & He & Hm & Vx). pose proof widths as (W0 & W1 & W2 & W3 & W4 & W5).
  pose proof (@sig_pow_pos src) as PS. pose proof (@sig_pow_pos dst) as PD.
  assert (Sp : 2 ^ sD = 2 ^ sS * 2 ^ gap) by (rewrite <- pow2_split by (pose proof (@exponentBits_bounds src); lia); f_equal; lia).
  assert (Pg : 0 < 2 ^ gap) by (apply pow2_pos; lia).
  pose proof (maxExponent_bias src) as MS. pose proof (maxExponent_bias dst) as MD.
  set (d := @exponentBias dst - @exponentBias src) in *.
  assert (Er : x * 2 ^ gap + d * 2 ^ sD = (e + d - 1) * 2 ^ sD + (2 ^ sS + m) * 2 ^ gap) by (rewrite Ex, Sp; ring).
  assert (Rm : 2 ^ sD <= (2 ^ sS + m) * 2 ^ gap < 2 * 2 ^ sD) by (rewrite Sp; nia).
  pose proof (@infRep_bounds dst) as BI. pose proof (@infRep_val dst) as IV.
  pose proof (@exponentBits_bounds dst) as BD. pose proof (@exponentBits_bounds src) as BS.
  assert (P2 : 2 ^ (@typeWidth dst) = 2 * 2 ^ (@typeWidth dst - 1)) by (apply pow2_S; lia).
  assert (E1 : 1 <= e + d < @maxExponent dst) by (unfold d; lia).
  assert (Rr : 0 <= x * 2 ^ gap + d * 2 ^ sD < @infRep dst).
  { rewrite Er, IV. split; [nia|]. assert ((e + d + 1) * 2 ^ sD <= @maxExponent dst * 2 ^ sD) by (apply Z.mul_le_mono_nonneg_r; lia). lia. }
  assert (Hd0 : 0 <= d * 2 ^ sD) by (unfold d in *; nia). assert (Hx0 : 0 <= x * 2 ^ gap) by nia.
  cbv zeta. rewrite !ushl_spec by lia. rewrite (uint_small _ (x * 2 ^ gap)), (uint_small _ (d * 2 ^ sD)) by (unfold is_uint; lia).
  unfold uadd. rewrite uint_small by (unfold is_uint; lia). split; [exact Rr|].
  rewrite Er, (@fpval_parts dst (e + d)) by lia. rewrite Vx. unfold unit_gap. fold d.
  replace (e + d - 1) with (e - 1 + d) by lia. rewrite !(pow2_split (e - 1) d), (pow2_split d gap) by lia. ring.
Qed.

Lemma extend_subnormal x : 0 < x < @implicitBit src ->
  let scale := src_rep_t_clz src x - src_rep_t_clz src (@implicitBit src) in
  let r := Z.lor (Z.lxor (ushl (@typeWidth dst) x (gap + scale)) (@implicitBit dst))
             (ushl (@typeWidth dst) (@exponentBias dst - @exponentBias src - scale + 1) sD) in
  0 <= r < @infRep dst /\ @fpval dst r = @fpval src x * 2 ^ unit_gap dst src.
Proof.
  intros Hx scale. rewrite subnormal_value by lia. rewrite implicitBit_val in Hx.
  pose proof widths as (W0 & W1 & W2 & W3 & W4 & W5). pose proof (@exponentBits_bounds src) as BS. pose proof (@exponentBits_bounds dst) as BD.
  pose proof (log2_lt_width sS x ltac:(lia)) as L. pose proof (log2_bounds x ltac:(lia)) as LB.
  assert (Es : scale = sS - Z.log2 x) by (unfold scale, src_rep_t_clz, clz; rewrite implicitBit_val, Z.log2_pow2; lia).
  rewrite Es. clearbody scale. set (k := gap + (sS - Z.log2 x)).
  assert (Pk : 2 ^ Z.log2 x * 2 ^ k = 2 ^ sD) by (rewrite <- pow2_split by (unfold k; lia); f_equal; unfold k; lia).
  assert (P0 : 0 < 2 ^ k) by (apply pow2_pos; unfold k; lia).
  assert (Rq : 2 ^ sD <= x * 2 ^ k < 2 * 2 ^ sD) by nia.
  set (E := @exponentBias dst - @exponentBias src - (sS - Z.log2 x) + 1).
  pose proof (maxExponent_bias dst) as MD. pose proof (@maxExponent_bounds src). pose proof (maxExponent_bias src).
  assert (HE : 1 <= E < @maxExponent dst) by (unfold E; lia).
  assert (PW : 2 * 2 ^ sD <= 2 ^ (@typeWidth dst)) by (rewrite <- Z.pow_succ_r by lia; apply Z.pow_le_mono_r; lia).
  rewrite ushl_spec, uint_small by (unfold k, is_uint in *; lia).
  rewrite (@lxor_implicit dst) by lia. cbv zeta. rewrite (shl_exponent dst) by lia. rewrite Z.lor_comm, lor_add_disjoint by lia.
  replace (E * 2 ^ sD + (x * 2 ^ k - 2 ^ sD)) with ((E - 1) * 2 ^ sD + x * 2 ^ k) by ring.
  rewrite (@fpval_parts dst E) by lia. rewrite infRep_val. split.
  - split; [nia|]. assert ((E + 1) * 2 ^ sD <= @maxExponent dst * 2 ^ sD) by (apply Z.mul_le_mono_nonneg_r; lia). lia.
  - rewrite <- Z.mul_assoc, <- pow2_split by (unfold k, E in *; lia). do 2 f_equal. unfold k, E, unit_gap. lia.
Qed.

(** Infinity and NaN: the payload moves up under the wider exponent. *)
Lemma extend_nan x : @infRep src <= x < 2 ^ (@typeWidth src - 1) ->
  let srcQNaN := ushl (@typeWidth src) 1 (sS - 1) in
  let r := Z.lor (Z.lor (@infRep dst) (ushl (@typeWidth dst) (Z.land x srcQNaN) gap))
             (ushl (@typeWidth dst) (Z.land x (srcQNaN - 1)) gap) in
  r = @infRep dst + (x - @infRep src) * 2 ^ gap /\ 0 <= r < 2 ^ (@typeWidth dst - 1).
Proof.
  intros Hx. pose proof widths as (W0 & W1 & W2 & W3 & W4 & W5).
  pose proof (@exponentBits_bounds src) as BS. pose proof (@exponentBits_bounds dst) as BD.
  pose proof (@sig_pow_pos src) as PS. rewrite infRep_val, signBit_split, maxExponent_val in Hx.
  set (m := x - @infRep src). assert (Hm : 0 <= m < 2 ^ sS) by (unfold m; rewrite infRep_val, maxExponent_val; lia).
  assert (Em : x mod 2 ^ sS = m).
  { unfold m. rewrite infRep_val. rewrite <- (Z.mod_small (x - _) (2 ^ sS)) by (unfold m in Hm; rewrite infRep_val in Hm; lia).
    rewrite Zminus_mod, Z_mod_mult, Z.sub_0_r. now rewrite Zmod_mod. }
  cbv zeta. rewrite (@shl_one src) by lia.
  assert (P1 : 2 ^ sS = 2 * 2 ^ (sS - 1)) by (apply pow2_S; lia).
  assert (Pg : 0 < 2 ^ gap) by (apply pow2_pos; lia).
  assert (Sp : 2 ^ sD = 2 ^ sS * 2 ^ gap) by (rewrite <- pow2_split by lia; f_equal; lia).
  (* the quiet bit and the rest of the payload *)
  set (hi := m / 2 ^ (sS - 1)). set (lo := m mod 2 ^ (sS - 1)).
  assert (Dm : m = hi * 2 ^ (sS - 1) + lo).
  { unfold hi, lo. rewrite Z.mul_comm. apply Z.div_mod. apply Z.pow_nonzero; lia. }
  assert (Hlo : 0 <= lo < 2 ^ (sS - 1)) by (apply Z.mod_pos_bound, pow2_pos; lia).
  assert (Hhi : 0 <= hi <= 1) by nia.
  assert (Q1 : Z.land x (2 ^ (sS - 1)) = hi * 2 ^ (sS - 1)).
  { replace (2 ^ (sS - 1)) with ((2 ^ 1 - 1) * 2 ^ (sS - 1)) at 1 by lia. rewrite land_field by lia.
    f_equal. change (2 ^ 1) with 2. unfold hi. rewrite <- Em, P1, (Z.mul_comm 2).
    rewrite Z.rem_mul_r, (Z.add_comm (x mod _)), (Z.mul_comm (2 ^ (sS - 1)) (_ mod 2)), Z.div_add_l by (try apply Z.pow_nonzero; lia).
    rewrite (Z.div_small (x mod 2 ^ (sS - 1))) by (apply Z.mod_pos_bound, pow2_pos; lia). lia. }
  assert (Q2 : Z.land x (2 ^ (sS - 1) - 1) = lo).
  { rewrite land_ones_mod by lia. unfold lo. rewrite <- Em. symmetry. apply (eqm_lower sS); [lia|apply uint_eqm]. }
  assert (SD : 2 ^ (@typeWidth dst) = 2 * 2 ^ (@typeWidth dst - 1)) by (apply pow2_S; lia).
  pose proof (@signBit_split dst) as SS. pose proof (@infRep_val dst) as ID. rewrite maxExponent_val in ID.
  assert (PE : 1 <= 2 ^ @exponentBits dst) by (pose proof (pow2_pos (@exponentBits dst) ltac:(lia)); lia).
  assert (Hmg : 0 <= m * 2 ^ gap < 2 ^ sD) by nia.
  assert (BW : 2 ^ sD <= 2 ^ (@typeWidth dst - 1)) by (apply Z.pow_le_mono_r; lia).
  rewrite Q1, Q2, !ushl_spec by lia.
  rewrite (uint_small _ (hi * 2 ^ (sS - 1) * 2 ^ gap)), (uint_small _ (lo * 2 ^ gap)) by (unfold is_uint; nia).
  assert (J : Z.lor (hi * 2 ^ (sS - 1) * 2 ^ gap) (lo * 2 ^ gap) = m * 2 ^ gap).
  { rewrite <- Z.mul_assoc, <- pow2_split by lia. rewrite lor_add_disjoint by (rewrite ?pow2_split by lia; nia).
    rewrite pow2_split by lia. rewrite Dm. ring. }
  rewrite <- Z.lor_assoc, J, ID, lor_add_disjoint by lia. split; [reflexivity|]. rewrite SS. nia.
Qed.

Lemma extend_spec a : is_uint (@typeWidth src) a ->
  exists r, __extendXfYf2__ src dst a = @with_sign dst (@fp_neg src a) r /\ 0 <= r < 2 ^ (@typeWidth dst - 1) /\
    (@is_finite src a = true -> r < @infRep dst /\ @fpval dst r = @fpval src (@fp_abs src a) * 2 ^ unit_gap dst src) /\
    (@is_finite src a = false -> r = @infRep dst + (@fp_abs src a - @infRep src) * 2 ^ gap).
Proof.
  intros Ra. pose proof widths as (W0 & W1 & W2 & W3 & W4 & W5). destruct (@rep_parts src a Ra) as (_ & Ax & Lx & Sx).
  pose proof (@exponentBits_bounds src) as BS. pose proof (@infRep_bounds src) as BI. pose proof (@infRep_bounds dst) as BJ.
  pose proof (@implicitBit_val src) as IV. pose proof (@sig_pow_pos src) as PS.
  assert (II : @implicitBit src < @infRep src) by (rewrite IV, infRep_val; pose proof (@maxExponent_bounds src); nia).
  unfold __extendXfYf2__.
  change (Z.shiftl 1 (@typeWidth src - sS - 1) - 1) with (@maxExponent src).
  change (Z.shiftl 1 (@typeWidth dst - sD - 1) - 1) with (@maxExponent dst).
  change (Z.shiftr (@maxExponent src) 1) with (@exponentBias src). change (Z.shiftr (@maxExponent dst) 1) with (@exponentBias dst).
  change (ushl (@typeWidth src) 1 sS) with (@implicitBit src). change (ushl (@typeWidth dst) 1 sD) with (@implicitBit dst).
  change (ushl (@typeWidth src) 1 (sS + (@typeWidth src - sS - 1))) with (@signBit src).
  assert (AM : @signBit src - 1 = @absMask src) by (rewrite absMask_val, signBit_val; reflexivity).
  rewrite AM, Lx, Sx, !inf_shl. set (x := @fp_abs src a) in *.
  assert (SG : ushl (@typeWidth dst) (if @fp_neg src a then 2 ^ (@typeWidth src - 1) else 0) (@typeWidth dst - @typeWidth src)
    = if @fp_neg src a then 2 ^ (@typeWidth dst - 1) else 0).
  { rewrite ushl_spec by lia. destruct (@fp_neg src a); [|now rewrite Z.mul_0_l; apply uint_small; unfold is_uint; pose_pow2; lia].
    rewrite <- pow2_split by lia. replace (@typeWidth src - 1 + (@typeWidth dst - @typeWidth src)) with (@typeWidth dst - 1) by lia.
    apply uint_small. unfold is_uint. split; [apply Z.lt_le_incl, pow2_pos; lia|apply Z.pow_lt_mono_r; lia]. }
  rewrite SG.
  assert (Fin : forall r, 0 <= r < @infRep dst /\ @fpval dst r = @fpval src x * 2 ^ unit_gap dst src -> x < @infRep src ->
    exists r0, Z.lor r (if @fp_neg src a then 2 ^ (@typeWidth dst - 1) else 0) = @with_sign dst (@fp_neg src a) r0 /\
      0 <= r0 < 2 ^ (@typeWidth dst - 1) /\
      (@is_finite src a = true -> r0 < @infRep dst /\ @fpval dst r0 = @fpval src x * 2 ^ unit_gap dst src) /\
      (@is_finite src a = false -> r0 = @infRep dst + (x - @infRep src) * 2 ^ gap)).
  { intros r [Hr Hv] Hx. exists r. rewrite with_sign_lor by lia. unfold is_finite. fold x.
    rewrite (proj2 (Z.ltb_lt x _) Hx). repeat split; try lia; try discriminate. }
  assert (PT : 2 ^ (@typeWidth src) = 2 * 2 ^ (@typeWidth src - 1)) by (apply pow2_S; lia).
  assert (T : (usub (@typeWidth src) x (@implicitBit src) <? @infRep src - @implicitBit src)
    = (@implicitBit src <=? x) && (x <? @infRep src)).
  { unfold usub. destruct (Z.leb_spec (@implicitBit src) x) as [L|L]; cbn [andb].
    - rewrite uint_small by (unfold is_uint; lia).
      destruct (Z.ltb_spec (x - @implicitBit src) (@infRep src - @implicitBit src)), (Z.ltb_spec x (@infRep src)); lia || reflexivity.
    - replace (uint (@typeWidth src) (x - @implicitBit src)) with (x - @implicitBit src + 2 ^ (@typeWidth src));
        [apply Z.ltb_ge; lia|].
      symmetry. apply uint_of_eqm; [unfold is_uint; lia|]. rewrite eqm_pow. now rewrite Z.add_0_r. }
  rewrite T. rewrite Z.geb_leb. destruct (Z.leb_spec (@implicitBit src) x) as [L|L], (Z.ltb_spec x (@infRep src)) as [G|G]; cbn [andb]; try lia.
  - apply Fin; [|assumption]. apply extend_normal. lia.
  - destruct (Z.leb_spec (@infRep src) x); [|lia]. destruct (extend_nan x ltac:(lia)) as [E R]. cbv zeta in E, R.
    rewrite E in R |- *. exists (@infRep dst + (x - @infRep src) * 2 ^ gap). rewrite with_sign_lor by exact R.
    unfold is_finite. fold x. rewrite (proj2 (Z.ltb_ge x (@infRep src))) by lia. repeat split; try lia; discriminate.
  - destruct (Z.leb_spec (@infRep src) x); [lia|]. unfold nonzero. destruct (Z.eqb_spec x 0) as [->|N]; cbn [negb].
    + apply Fin; [|lia]. rewrite (@fpval_zero src), (@fpval_zero dst). lia.
    + apply Fin; [|assumption]. apply extend_subnormal. lia.
Qed.
End Extend.

(** Widening a floating-point number ([__extendhfsf2], [__extendsfdf2],
    [__extendsftf2], [__extenddftf2], ...) is exact: the sign is kept, finite
    numbers (subnormal ones included, which become normal) keep their value,
    infinity stays infinity, and a NaN stays a NaN whose payload is moved up
    to the top of the wider significand. *)
Theorem extend_exact (src dst : FpFormat) (HW : Widening src dst) a : is_uint (@typeWidth src) a ->
  let r := __extendXfYf2__ src dst a in
  is_uint (@typeWidth dst) r /\ @fp_neg dst r = @fp_neg src a /\
  @is_nan dst r = @is_nan src a /\ @is_inf dst r = @is_inf src a /\
  (@is_finite src a = true -> @is_finite dst r = true /\
     @fp_value dst r = @fp_value src a * 2 ^ unit_gap dst src) /\
  (@is_finite src a = false ->
     @fp_abs dst r - @infRep dst = (@fp_abs src a - @infRep src) * 2 ^ (@significandBits dst - @significandBits src)).
Proof.
  intros Ra. destruct (extend_spec src dst a Ra) as (r & E & Hr & Fin & Inf).
  destruct (@with_sign_parts dst (@fp_neg src a) r Hr) as (U & S & A). cbv zeta. rewrite E, S.
  split; [assumption|]. split; [reflexivity|]. unfold is_nan, is_inf, is_finite, fp_value in *. rewrite A, S.
  pose proof (widths src dst) as W. assert (P : 0 < 2 ^ (@significandBits dst - @significandBits src)) by (apply pow2_pos; lia).
  set (x := @fp_abs src a) in *. destruct (Z.ltb_spec x (@infRep src)) as [L|L].
  - destruct (Fin eq_refl) as [Lr V]. rewrite (proj2 (Z.ltb_lt r _) Lr).
    split; [same_test|]. split; [same_test|]. split; [|discriminate]. intros _. split; [reflexivity|].
    rewrite V. destruct (@fp_neg src a); ring.
  - specialize (Inf eq_refl). split; [same_test|]. split; [same_test|]. split; [discriminate|]. intros _. lia.
Qed.

Lemma extend_exact_witness : is_uint 32 0x3fc00001 /\
  let r := __extendXfYf2__ single_precision double_precision 0x3fc00001 in
  is_uint 64 r /\ @fp_neg double_precision r = false /\ @is_nan double_precision r = false /\
  @fp_value double_precision r = @fp_value single_precision 0x3fc00001 * 2 ^ 925.
Proof.
  assert (U : is_uint 32 0x3fc00001) by (split; vm_compute; congruence). split; [exact U|].
  destruct (extend_exact single_precision double_precision _ 0x3fc00001 U) as (A & B & C & _ & D & _).
  split; [exact A|]. split; [exact B|]. split; [exact C|]. apply D. reflexivity.
Defined.

(** ** Narrowing *)

(** A wrapping range test: [x - lo < x - hi] on unsigned words. *)
Lemma wrap_range w x lo hi : 0 <= w -> is_uint w x -> 0 <= lo < hi -> hi < 2 ^ w ->
  (usub w x lo <? usub w x hi) = (lo <=? x) && (x <? hi).
Proof.
  intros Hw Hx Hl Hh. unfold is_uint in Hx.
  assert (W : forall y, 0 <= y < 2 ^ w -> usub w x y = if y <=? x then x - y else x - y + 2 ^ w).
  { intros y Hy. unfold usub. apply uint_of_eqm.
    - unfold is_uint. case_cmp; lia.
    - case_cmp; [reflexivity|]. rewrite eqm_pow. now rewrite Z.add_0_r. }
  rewrite !W by lia. destruct (Z.leb_spec lo x), (Z.leb_spec hi x), (Z.ltb_spec x hi); cbn [andb]; try lia;
    (apply Z.ltb_lt || apply Z.ltb_ge); lia.
Qed.

(** [if (R > half) r++; else if (R == half) r += r & 1;] *)
Lemma round_bits_else (F : FpFormat) g r0 R : 0 <= r0 -> r0 + 1 <= infRep ->
  (if R >? 2 ^ (g - 1) then uadd typeWidth r0 1
   else if R =? 2 ^ (g - 1) then uadd typeWidth r0 (Z.land r0 1) else r0) = round_nearest g r0 R.
Proof.
  intros H1 H2. pose proof (round_bits g false r0 R H1 H2) as E. cbv zeta in E. cbn [with_sign] in E. rewrite <- E.
  destruct (Z.gtb_spec R (2 ^ (g - 1))), (Z.eqb_spec R (2 ^ (g - 1))); try reflexivity. lia.
Qed.

(** What narrowing needs beyond the converse of widening: two bits to round,
    and an exponent range below which every source number vanishes. *)
Class Narrowing (src dst : FpFormat) : Prop := narrowing :
  Widening dst src /\ @significandBits dst + 2 <= @significandBits src /\
  @exponentBias dst + @significandBits src <= @exponentBias src.

#[export] Instance narrowing_sh : Narrowing single_precision half_precision.
Proof. split; [exact _|split; vm_compute; congruence]. Qed.
#[export] Instance narrowing_dh : Narrowing double_precision half_precision.
Proof. split; [exact _|split; vm_compute; congruence]. Qed.
#[export] Instance narrowing_ds : Narrowing double_precision single_precision.
Proof. split; [exact _|split; vm_compute; congruence]. Qed.
#[export] Instance narrowing_qh : Narrowing quad_precision half_precision.
Proof. split; [exact _|split; vm_compute; congruence]. Qed.
#[export] Instance narrowing_qs : Narrowing quad_precision single_precision.
Proof. split; [exact _|split; vm_compute; congruence]. Qed.
#[export] Instance narrowing_qd : Narrowing quad_precision double_precision.
Proof. split; [exact _|split; vm_compute; congruence]. Qed.

Section Trunc.
Context (src dst : FpFormat) {HN : Narrowing src dst}.

Notation sS := (@significandBits src).
Notation sD := (@significandBits dst).
Notation gap := (sS - sD).
Notation wS := (@typeWidth src).
Notation wD := (@typeWidth dst).
Notation d := (@exponentBias src - @exponentBias dst).

Lemma narrow_widths : wD < wS /\ 2 <= gap /\ 4 <= sD /\ sS + 1 < wS /\ sD + 1 < wD /\ sS <= d /\
  2 ^ sS = 2 ^ sD * 2 ^ gap /\ 0 < 2 ^ gap /\ 0 < 2 ^ sD /\ 2 ^ gap = 2 * 2 ^ (gap - 1).
Proof.
  destruct HN as (W & G & D). pose proof (@widths dst src W). pose proof (@exponentBits_bounds dst) as B.
  repeat split; try lia; try (apply pow2_pos; lia); [|apply pow2_S; lia]. rewrite <- pow2_split by lia. f_equal. lia.
Qed.

(** The rounding step both finite branches end with. *)
Definition narrow_round (x r0 : Z) : Z :=
  let roundBits := x .& ((1 <<[wS] gap) -[wS] 1) in
  let halfway := 1 <<[wS] (gap - 1) in
  if roundBits >? halfway then r0 +[wD] 1
  else if roundBits =? halfway then r0 +[wD] (r0 .& 1) else r0.

Lemma narrow_round_spec x r0 : 0 <= r0 -> r0 + 1 <= @infRep dst ->
  narrow_round x r0 = round_nearest gap r0 (x mod 2 ^ gap).
Proof.
  intros H1 H2. pose proof narrow_widths as W. unfold narrow_round.
  rewrite !(@shl_one src) by lia. rewrite (@usub_one src), land_ones_mod by lia. now apply round_bits_else.
Qed.

(** A number in the normal range of the destination. *)
Lemma trunc_normal x : (d + 1) * 2 ^ sS <= x < (d + @maxExponent dst) * 2 ^ sS ->
  let r0 := usub wD (uint wD (shr wS x gap)) (ushl wD d sD) in
  @rounds_to dst (@fpval src x) (2 ^ unit_gap src dst) (narrow_round x r0).
Proof.
  intros Hx. pose proof narrow_widths as (W0 & W1 & W2 & W3 & W4 & W5 & Sp & Pg & PD & Ph).
  pose proof (maxExponent_bias src) as MS. pose proof (maxExponent_bias dst) as MD. pose proof (@maxExponent_bounds dst) as MB.
  pose proof (@sig_pow_pos src) as PS.
  assert (1 * 2 ^ sS <= (d + 1) * 2 ^ sS) by (apply Z.mul_le_mono_nonneg_r; lia).
  assert ((d + @maxExponent dst) * 2 ^ sS <= @maxExponent src * 2 ^ sS) by (apply Z.mul_le_mono_nonneg_r; lia).
  destruct (normal_fields src x) as (e & m & Ex & He & Hm & Vx); [rewrite implicitBit_val, infRep_val; lia|].
  assert (HE : 1 <= e - d < @maxExponent dst).
  { split.
    - assert (d + 1 < e + 1); [|lia]. apply (Z.mul_lt_mono_pos_r (2 ^ sS)); lia.
    - assert (e < d + @maxExponent dst); [|lia]. apply (Z.mul_lt_mono_pos_r (2 ^ sS)); lia. }
  set (s := 2 ^ sS + m). set (q := s / 2 ^ gap). set (E := e - d) in *.
  assert (Es : x = (e - 1) * 2 ^ sS + s) by (unfold s; lia).
  assert (Qx : x / 2 ^ gap = (e - 1) * 2 ^ sD + q).
  { rewrite Es, Sp, Z.mul_assoc, Z.div_add_l by lia. reflexivity. }
  assert (Rx : x mod 2 ^ gap = s mod 2 ^ gap).
  { rewrite Es, Sp, Z.mul_assoc, Z.add_comm, Z_mod_plus_full. reflexivity. }
  assert (Hq : 2 ^ sD <= q < 2 * 2 ^ sD).
  { unfold q, s. split; [apply Z.div_le_lower_bound|apply Z.div_lt_upper_bound]; lia. }
  pose proof (@infRep_val dst) as IV. pose proof (@infRep_bounds dst) as BI.
  assert (P2 : 2 ^ wD = 2 * 2 ^ (wD - 1)) by (apply pow2_S; lia).
  assert (Hr : 0 <= (E - 1) * 2 ^ sD + q /\ (E - 1) * 2 ^ sD + q + 1 <= @infRep dst).
  { assert (0 <= (E - 1) * 2 ^ sD) by (apply Z.mul_nonneg_nonneg; lia). rewrite IV. split; [lia|].
    assert ((E + 1) * 2 ^ sD <= @maxExponent dst * 2 ^ sD) by (apply Z.mul_le_mono_nonneg_r; lia). lia. }
  cbv zeta. rewrite shr_spec, Qx, ushl_spec by lia.
  assert (R0 : usub wD (uint wD ((e - 1) * 2 ^ sD + q)) (uint wD (d * 2 ^ sD)) = (E - 1) * 2 ^ sD + q).
  { apply uint_of_eqm; [unfold is_uint; lia|]. rewrite !uint_eqm. unfold E. now replace ((e - 1) * 2 ^ sD + q - d * 2 ^ sD)
      with ((e - d - 1) * 2 ^ sD + q) by ring. }
  rewrite R0, narrow_round_spec, Rx by lia.
  apply (@rounds_to_round dst gap E s s 1); try lia.
  - apply pow2_pos. unfold unit_gap. lia.
  - intros M HM. now rewrite Z.mul_1_r.
  - rewrite Vx. fold s. unfold unit_gap, E. rewrite Z.mul_1_l, <- !Z.mul_assoc, <- !pow2_split by lia. do 2 f_equal. lia.
Qed.

(** A number below it: shifted down to the destination's least exponent. *)
Lemma trunc_subnormal x : 0 <= x < (d + 1) * 2 ^ sS ->
  let shift := d - x / 2 ^ sS + 1 in
  let s := 2 ^ sS + x mod 2 ^ sS in
  @rounds_to dst (@fpval src x) (2 ^ unit_gap src dst)
    (if shift >? sS then 0
     else narrow_round (jam s shift) (uint wD (shr wS (jam s shift) gap))).
Proof.
  intros Hx shift s. pose proof narrow_widths as (W0 & W1 & W2 & W3 & W4 & W5 & Sp & Pg & PD & Ph).
  pose proof (@sig_pow_pos src) as PS. pose proof (Z.mod_pos_bound x (2 ^ sS) PS) as Hm.
  assert (He : 0 <= x / 2 ^ sS <= d) by (split; [apply Z.div_pos; lia|]; apply Z.lt_succ_r, Z.div_lt_upper_bound; lia).
  assert (V : @fpval src x = if x / 2 ^ sS =? 0 then x mod 2 ^ sS else s * 2 ^ (x / 2 ^ sS - 1))
    by (unfold fpval, s; rewrite (Z.add_comm (2 ^ sS)); reflexivity).
  set (e := x / 2 ^ sS) in *. pose proof (@infRep_bounds dst) as BI. pose proof (@maxExponent_bounds dst) as MB.
  assert (Pu : 0 < 2 ^ unit_gap src dst) by (apply pow2_pos; unfold unit_gap; lia).
  rewrite Z.gtb_ltb. destruct (Z.ltb_spec sS shift) as [L|L].
  - (* everything is shifted out *)
    assert (B : 2 * @fpval src x < 2 ^ unit_gap src dst).
    { assert (2 * @fpval src x < 2 ^ (d + 1)).
      - rewrite V. destruct (Z.eqb_spec e 0) as [E0|E0].
        + apply Z.lt_le_trans with (2 ^ (sS + 1)); [rewrite Z.pow_add_r by lia; lia|apply Z.pow_le_mono_r; lia].
        + apply Z.lt_le_trans with (2 ^ (sS + 1 + 1 + (e - 1))); [|apply Z.pow_le_mono_r; lia].
          rewrite !pow2_split by lia. change (2 ^ 1) with 2. pose proof (pow2_pos (e - 1) ltac:(lia)). unfold s. nia.
      - assert (2 ^ (d + 1) <= 2 ^ unit_gap src dst) by (apply Z.pow_le_mono_r; unfold unit_gap; lia). lia. }
    split; [lia|]. split; [now left|right; left]. change (0 + 1) with 1. rewrite (@fpval_zero dst).
    rewrite (subnormal_value dst 1) by (rewrite implicitBit_val; pose proof (Z.pow_lt_mono_r 2 0 sD); lia). lia.
  - assert (HS : 0 <= jam s shift < 2 * 2 ^ sD * 2 ^ gap).
    { split; [apply jam_bounds; unfold s; lia|]. rewrite <- Z.mul_assoc, <- Sp. apply jam_lt; [lia|unfold s; lia|].
      pose proof (pow2_pos shift ltac:(lia)). unfold s. nia. }
    assert (Hq : 0 <= jam s shift / 2 ^ gap < 2 * 2 ^ sD) by (split; [apply Z.div_pos; lia|apply Z.div_lt_upper_bound; lia]).
    assert (R0 : uint wD (shr wS (jam s shift) gap) = (1 - 1) * 2 ^ sD + jam s shift / 2 ^ gap).
    { rewrite shr_spec by lia. rewrite uint_small; [lia|]. unfold is_uint.
      assert (2 ^ (sD + 1) <= 2 ^ wD) by (apply Z.pow_le_mono_r; lia). rewrite pow2_split in * by lia. lia. }
    rewrite R0, narrow_round_spec by (rewrite ?infRep_val; nia).
    apply (@rounds_to_round dst gap 1 (jam s shift) s (2 ^ shift)); try lia.
    + apply agrees_weaken with 1; [lia|]. apply jam_agrees. lia.
    + rewrite V. destruct (Z.eqb_spec e 0); [lia|]. change (2 ^ (1 - 1)) with 1. unfold unit_gap.
      rewrite Z.mul_1_r, <- !Z.mul_assoc, <- !pow2_split by lia. do 2 f_equal. lia.
Qed.

(** A NaN: quiet, with the top of the payload. *)
Lemma trunc_nan x :
  let srcNaNCode := usub wS (ushl wS 1 (sS - 1)) 1 in
  let dstQNaN := ushl wD 1 (sD - 1) in
  Z.lor (Z.lor (@infRep dst) dstQNaN) (uint wD (Z.land (shr wS (Z.land x srcNaNCode) gap) (usub wD dstQNaN 1)))
  = @infRep dst + 2 ^ (sD - 1) + x mod 2 ^ (sS - 1) / 2 ^ gap /\ 0 <= x mod 2 ^ (sS - 1) / 2 ^ gap < 2 ^ (sD - 1).
Proof.
  pose proof narrow_widths as (W0 & W1 & W2 & W3 & W4 & W5 & Sp & Pg & PD & Ph).
  cbv zeta. rewrite (@shl_one src), (@shl_one dst) by lia. rewrite (@usub_one src), (@usub_one dst) by lia.
  rewrite land_ones_mod, shr_spec by lia. rewrite land_ones_mod by lia.
  assert (P1 : 2 ^ (sS - 1) = 2 ^ (sD - 1) * 2 ^ gap) by (rewrite <- pow2_split by lia; f_equal; lia).
  assert (Hp : 0 < 2 ^ (sD - 1)) by (apply pow2_pos; lia).
  pose proof (Z.mod_pos_bound x (2 ^ (sS - 1)) ltac:(nia)) as Hm.
  assert (Hl : 0 <= x mod 2 ^ (sS - 1) / 2 ^ gap < 2 ^ (sD - 1))
    by (split; [apply Z.div_pos|apply Z.div_lt_upper_bound]; lia).
  split; [|exact Hl]. rewrite Z.mod_small by exact Hl.
  assert (2 ^ (sD - 1) <= 2 ^ wD) by (apply Z.pow_le_mono_r; lia). rewrite uint_small by (unfold is_uint; lia).
  assert (2 ^ sD = 2 * 2 ^ (sD - 1)) by (apply pow2_S; lia).
  rewrite infRep_val, lor_add_disjoint by lia.
  replace (@maxExponent dst * 2 ^ sD + 2 ^ (sD - 1)) with ((2 * @maxExponent dst + 1) * 2 ^ (sD - 1)) by lia.
  rewrite lor_add_disjoint by lia. lia.
Qed.

Lemma trunc_spec a : is_uint wS a -> let x := @fp_abs src a in
  exists r, __truncXfYf2__ src dst a = @with_sign dst (@fp_neg src a) r /\ 0 <= r < 2 ^ (wD - 1) /\
    (@is_nan src a = true -> r = @infRep dst + 2 ^ (sD - 1) + x mod 2 ^ (sS - 1) / 2 ^ gap /\ @infRep dst < r) /\
    (@is_inf src a = true -> r = @infRep dst) /\
    (@is_finite src a = true -> @rounds_to dst (@fpval src x) (2 ^ unit_gap src dst) r).
Proof.
  intros Ra x. pose proof narrow_widths as (W0 & W1 & W2 & W3 & W4 & W5 & Sp & Pg & PD & Ph).
  destruct (@rep_parts src a Ra) as (_ & Ax & Lx & Sx). destruct (@fields_of src a Ra) as (_ & Fx). fold x in Ax, Lx, Fx.
  pose proof (@infRep_bounds src) as BI. pose proof (@infRep_bounds dst) as BJ. pose proof (@sig_pow_pos src) as PS.
  pose proof (maxExponent_bias src) as MS. pose proof (maxExponent_bias dst) as MD. pose proof (@maxExponent_bounds dst) as MB.
  pose proof (@infRep_val src) as IV. assert (PT : 2 ^ wS = 2 * 2 ^ (wS - 1)) by (apply pow2_S; lia).
  assert (OV : (d + @maxExponent dst + 1) * 2 ^ sS <= @infRep src) by (rewrite IV; apply Z.mul_le_mono_nonneg_r; lia).
  unfold __truncXfYf2__.
  change (Z.shiftl 1 (wS - sS - 1) - 1) with (@maxExponent src). change (Z.shiftl 1 (wD - sD - 1) - 1) with (@maxExponent dst).
  change (Z.shiftr (@maxExponent src) 1) with (@exponentBias src). change (Z.shiftr (@maxExponent dst) 1) with (@exponentBias dst).
  change (ushl wS 1 sS) with (@implicitBit src). change (ushl wS 1 (sS + (wS - sS - 1))) with (@signBit src).
  change (usub wS (@implicitBit src) 1) with (@significandMask src). change (usub wS (@signBit src) 1) with (@absMask src).
  rewrite Lx, Fx, Sx, !inf_shl, !(shl_exponent src) by lia.
  replace (@exponentBias src + 1 - @exponentBias dst) with (d + 1) by ring.
  replace (@exponentBias src + @maxExponent dst - @exponentBias dst) with (d + @maxExponent dst) by ring.
  assert (0 <= (d + 1) * 2 ^ sS < (d + @maxExponent dst) * 2 ^ sS) by (split; [apply Z.mul_nonneg_nonneg|apply Z.mul_lt_mono_pos_r]; lia).
  rewrite wrap_range by (unfold is_uint; lia).
  assert (SG : uint wD (shr wS (if @fp_neg src a then 2 ^ (wS - 1) else 0) (wS - wD)) = if @fp_neg src a then 2 ^ (wD - 1) else 0).
  { rewrite shr_spec by lia. destruct (@fp_neg src a); [|now rewrite Zdiv_0_l].
    rewrite <- Z.pow_sub_r by lia. replace (wS - 1 - (wS - wD)) with (wD - 1) by lia. apply uint_small.
    split; [apply Z.lt_le_incl, pow2_pos|apply Z.pow_lt_mono_r]; lia. }
  rewrite SG. clear SG. unfold is_nan, is_inf, is_finite. fold x.
  assert (Fin : forall r, @rounds_to dst (@fpval src x) (2 ^ unit_gap src dst) r -> x < @infRep src ->
    exists r', Z.lor r (if @fp_neg src a then 2 ^ (wD - 1) else 0) = @with_sign dst (@fp_neg src a) r' /\
      0 <= r' < 2 ^ (wD - 1) /\
      ((@infRep src <? x) = true -> r' = @infRep dst + 2 ^ (sD - 1) + x mod 2 ^ (sS - 1) / 2 ^ gap /\ @infRep dst < r') /\
      ((x =? @infRep src) = true -> r' = @infRep dst) /\
      ((x <? @infRep src) = true -> @rounds_to dst (@fpval src x) (2 ^ unit_gap src dst) r')).
  { intros r Hr Lx'. destruct (proj1 Hr) as [R0 R1]. exists r. rewrite with_sign_lor by lia.
    split; [reflexivity|]. split; [lia|]. rewrite Z.ltb_lt, Z.eqb_eq. split; [lia|]. split; [lia|]. now intros _. }
  destruct (Z.leb_spec ((d + 1) * 2 ^ sS) x) as [U|U], (Z.ltb_spec x ((d + @maxExponent dst) * 2 ^ sS)) as [O|O]; cbn [andb]; try lia.
  - apply Fin; [|lia]. apply trunc_normal. lia.
  - rewrite Z.gtb_ltb. destruct (Z.ltb_spec (@infRep src) x) as [N|N].
    + destruct (trunc_nan x) as [E B]. cbv zeta in E. rewrite E.
      exists (@infRep dst + 2 ^ (sD - 1) + x mod 2 ^ (sS - 1) / 2 ^ gap).
      assert (R : 0 <= @infRep dst + 2 ^ (sD - 1) + x mod 2 ^ (sS - 1) / 2 ^ gap < 2 ^ (wD - 1)).
      { assert (2 ^ sD = 2 * 2 ^ (sD - 1)) by (apply pow2_S; lia).
        assert (2 ^ (wD - 1) = @infRep dst + 2 ^ sD) by (rewrite infRep_val, (@signBit_split dst), maxExponent_val; ring). lia. }
      rewrite with_sign_lor by exact R. split; [reflexivity|]. split; [exact R|]. split; [intros _; split; [reflexivity|lia]|].
      rewrite Z.eqb_eq, Z.ltb_lt. split; lia.
    + rewrite (proj2 (Z.geb_le x _)) by lia. destruct (Z.eq_dec x (@infRep src)) as [E|E].
      * exists (@infRep dst). rewrite with_sign_lor by lia. rewrite E, Z.eqb_refl, Z.ltb_irrefl.
        split; [reflexivity|]. split; [lia|]. split; [discriminate|]. split; [reflexivity|discriminate].
      * apply Fin; [|lia]. apply rounds_to_inf; [apply pow2_pos; unfold unit_gap; lia|].
        assert (@fpval src ((d + @maxExponent dst - 1) * 2 ^ sS + 2 ^ sS) <= @fpval src x) as L by (apply fpval_mono; lia).
        rewrite (@fpval_parts src (d + @maxExponent dst)) in L by lia. rewrite fpval_inf, Sp in *. unfold unit_gap.
        replace (2 ^ (d + gap)) with (2 ^ d * 2 ^ gap) by (rewrite pow2_split by lia; reflexivity).
        replace (d + @maxExponent dst - 1) with (d + (@maxExponent dst - 1)) in L by ring. rewrite (pow2_split d) in L by lia. lia.
  - rewrite Z.gtb_ltb. destruct (Z.ltb_spec (@infRep src) x); [lia|]. destruct (Z.geb_spec x ((d + @maxExponent dst) * 2 ^ sS)); [lia|].
    apply Fin; [|lia]. pose proof (trunc_subnormal x ltac:(lia)) as T. cbv zeta in T. rewrite shr_spec by lia.
    rewrite (@lor_implicit src) by (apply Z.mod_pos_bound; lia).
    set (s := 2 ^ sS + x mod 2 ^ sS) in *. set (shift := d - x / 2 ^ sS + 1) in *.
    destruct (shift >? sS) eqn:Sh; [exact T|]. rewrite Z.gtb_ltb, Z.ltb_ge in Sh.
    assert (x / 2 ^ sS < d + 1) by (apply Z.div_lt_upper_bound; lia).
    assert (2 * 2 ^ sS <= 2 ^ wS) by (rewrite <- Z.pow_succ_r by lia; apply Z.pow_le_mono_r; lia).
    pose proof (Z.mod_pos_bound x (2 ^ sS) PS).
    rewrite sticky_shift by (unfold shift, s, is_uint in *; lia). exact T.
Qed.
End Trunc.

(** C27: narrowing a floating-point number ([__truncdfsf2], [__truncsfhf2],
    [__truncdfhf2], [__trunctfsf2], ...) is correctly rounded: the sign is
    kept; the result of a finite number is the nearest number of the narrow
    format, ties to even, through the normal range, the subnormal range, zero
    and the overflow to infinity; infinity stays infinity; a NaN gives a quiet
    NaN with the top of its payload. *)
Theorem trunc_correctly_rounded (src dst : FpFormat) (HN : Narrowing src dst) a : is_uint (@typeWidth src) a ->
  let r := __truncXfYf2__ src dst a in
  is_uint (@typeWidth dst) r /\ @fp_neg dst r = @fp_neg src a /\
  (@is_finite src a = true ->
     @rounds_to dst (@fpval src (@fp_abs src a)) (2 ^ unit_gap src dst) (@fp_abs dst r)) /\
  (@is_inf src a = true -> @is_inf dst r = true) /\
  (@is_nan src a = true -> @is_nan dst r = true /\
     @fp_abs dst r = @infRep dst + 2 ^ (@significandBits dst - 1) +
       @fp_abs src a mod 2 ^ (@significandBits src - 1) / 2 ^ (@significandBits src - @significandBits dst)).
Proof.
  intros Ra. destruct (trunc_spec src dst a Ra) as (r & E & Hr & N & I & Fin). cbv zeta. rewrite E.
  destruct (@with_sign_parts dst (@fp_neg src a) r Hr) as (U & S & A).
  split; [exact U|]. split; [exact S|]. unfold is_nan, is_inf in *. rewrite A.
  split; [exact Fin|]. split; [intros H; apply Z.eqb_eq; auto|]. intros H. destruct (N H) as [E' L].
  split; [now apply Z.ltb_lt|exact E'].
Qed.

Lemma trunc_correctly_rounded_witness : is_uint 64 0x3ff0000010000000 /\
  let r := __truncXfYf2__ double_precision single_precision 0x3ff0000010000000 in
  r = 0x3f800000 /\
  @rounds_to single_precision (@fpval double_precision 0x3ff0000010000000) (2 ^ 925) (@fp_abs single_precision r).
Proof.
  assert (U : is_uint 64 0x3ff0000010000000) by (split; vm_compute; congruence). split; [exact U|].
  split; [reflexivity|].
  destruct (trunc_correctly_rounded double_precision single_precision _ 0x3ff0000010000000 U) as (_ & _ & F & _).
  exact (F eq_refl).
Defined.
