(* ===== verification/FpInt.v ===== *)
(** * Soft float: conversions from and to integers

    Models [fp_fixint_impl.inc], [fp_fixuint_impl.inc] and the files that
    instantiate them ([fix*i.c]), and the integer to floating-point
    conversions [float*.c].  Of the files with a hardware and a software
    variant ([__SOFTFP__]) the software one is modelled. *)

From S2P Require Import Prelude IntBits FpLib FpSpec.

(** ** Floating point to integer *)

Section Fix.
Context `{FpFormat}.
(** [sizeof(fixint_t) * CHAR_BIT] *)
Context (fixWidth : Z).

(** The parts both routines start from. *)
Definition fix_parts (a : Z) : Z * Z * Z :=
  let aRep := a in
  let aAbs := aRep .& absMask in
  let sign := if nonzero (aRep .& signBit) then -1 else 1 in
  let exponent := sint 32 ((aAbs >>[typeWidth] significandBits) -[typeWidth] exponentBias) in
  let significand := (aAbs .& significandMask) .| implicitBit in
  (sign, exponent, significand).

Definition __fixint (a : Z) : Z :=
  let fixint_max := sint fixWidth ((2 ^ fixWidth - 1) / 2) in
  let fixint_min := ssub fixWidth (sopp fixWidth fixint_max) 1 in
  let '(sign, exponent, significand) := fix_parts a in
  if exponent <? 0 then 0
  else if uint 32 exponent >=? fixWidth then if sign =? 1 then fixint_max else fixint_min
  else if exponent <? significandBits then
    sint fixWidth (umul (Z.max fixWidth typeWidth) (uint (Z.max fixWidth typeWidth) sign)
      (significand >>[typeWidth] (significandBits - exponent)))
  else smul fixWidth sign (sshl fixWidth (sint fixWidth significand) (exponent - significandBits)).

Definition __fixuint (a : Z) : Z :=
  let '(sign, exponent, significand) := fix_parts a in
  if (sign =? -1) || (exponent <? 0) then 0
  else if uint 32 exponent >=? fixWidth then unot fixWidth 0
  else if exponent <? significandBits then
    uint fixWidth (significand >>[typeWidth] (significandBits - exponent))
  else ushl fixWidth (uint fixWidth significand) (exponent - significandBits).
End Fix.

Definition __fixsfsi (a : Z) : Z := @__fixint single_precision 32 a.
Definition __fixsfdi (a : Z) : Z := @__fixint single_precision 64 a.
Definition __fixsfti (a : Z) : Z := @__fixint single_precision 128 a.
Definition __fixdfsi (a : Z) : Z := @__fixint double_precision 32 a.
Definition __fixdfdi (a : Z) : Z := @__fixint double_precision 64 a.
Definition __fixdfti (a : Z) : Z := @__fixint double_precision 128 a.
Definition __fixtfsi (a : Z) : Z := @__fixint quad_precision 32 a.
Definition __fixtfdi (a : Z) : Z := @__fixint quad_precision 64 a.
Definition __fixtfti (a : Z) : Z := @__fixint quad_precision 128 a.
Definition __fixunssfsi (a : Z) : Z := @__fixuint single_precision 32 a.
Definition __fixunssfdi (a : Z) : Z := @__fixuint single_precision 64 a.
Definition __fixunssfti (a : Z) : Z := @__fixuint single_precision 128 a.
Definition __fixunsdfsi (a : Z) : Z := @__fixuint double_precision 32 a.
Definition __fixunsdfdi (a : Z) : Z := @__fixuint double_precision 64 a.
Definition __fixunsdfti (a : Z) : Z := @__fixuint double_precision 128 a.
Definition __fixunstfsi (a : Z) : Z := @__fixuint quad_precision 32 a.
Definition __fixunstfdi (a : Z) : Z := @__fixuint quad_precision 64 a.
Definition __fixunstfti (a : Z) : Z := @__fixuint quad_precision 128 a.

(** ** Integer to floating point: shift, with rounding when it is to the right *)

Section FloatShift.
Context `{FpFormat}.

(** The part after the sign: [a] is the magnitude as an [aWidth]-bit word. *)
Definition float_shift (aWidth a sign : Z) : Z :=
  let exponent := aWidth - 1 - clz aWidth a in
  let result :=
    if exponent <=? significandBits then
      let shift := significandBits - exponent in
      (a <<[typeWidth] shift) .^ implicitBit
    else
      let shift := exponent - significandBits in
      let result := (a >>[typeWidth] shift) .^ implicitBit in
      let round := a <<[typeWidth] (typeWidth - shift) in
      let result := if round >? signBit then result +[typeWidth] 1 else result in
      if round =? signBit then result +[typeWidth] (result .& 1) else result in
  let result := result +[typeWidth] ((exponent + exponentBias) <<[typeWidth] significandBits) in
  result .| sign.

(** The variant for integers that always fit in the significand. *)
Definition float_exact (aWidth a sign : Z) : Z :=
  let exponent := aWidth - 1 - clz aWidth a in
  let shift := significandBits - exponent in
  let result := (a <<[typeWidth] shift) .^ implicitBit in
  let result := result +[typeWidth] ((exponent + exponentBias) <<[typeWidth] significandBits) in
  result .| sign.
End FloatShift.

Definition __floatsidf (a : Z) : Z :=
  if a =? 0 then 0
  else
    let '(sign, a) := if a <? 0 then (@signBit double_precision, sopp 32 a) else (0, a) in
    @float_exact double_precision 32 (uint 32 a) sign.

Definition __floatunsidf (a : Z) : Z :=
  if a =? 0 then 0 else @float_exact double_precision 32 a 0.

Definition __floatsisf (a : Z) : Z :=
  if a =? 0 then 0
  else
    let '(sign, a) := if a <? 0 then (@signBit single_precision, sopp 32 a) else (0, a) in
    @float_shift single_precision 32 (uint 32 a) sign.

Definition __floatunsisf (a : Z) : Z :=
  if a =? 0 then 0 else @float_shift single_precision 32 a 0.

(** [__floatsitf] and [__floatditf] negate the unsigned value. *)
Definition float_tf (w a : Z) : Z :=
  if a =? 0 then 0
  else
    let aAbs := uint w a in
    let '(sign, aAbs) := if a <? 0 then (@signBit quad_precision, unot w (uint w a) +[w] 1) else (0, aAbs) in
    @float_exact quad_precision w aAbs sign.
Definition __floatsitf (a : Z) : Z := float_tf 32 a.
Definition __floatditf (a : Z) : Z := float_tf 64 a.
Definition __floatunsitf (a : Z) : Z := if a =? 0 then 0 else @float_exact quad_precision 32 a 0.
Definition __floatunditf (a : Z) : Z := if a =? 0 then 0 else @float_exact quad_precision 64 a 0.

(** ** Integer to floating point: round to even on the bits P, Q and R *)

Section FloatRound.
(** The integer type: signed or not, its width, and its leading-zero count. *)
Context (sg : bool) (N : Z) (clzN : Z -> Z).
(** [FLT_MANT_DIG], [DBL_MANT_DIG], [LDBL_MANT_DIG] *)
Context (MANT_DIG : Z).

Definition as_int (x : Z) : Z := if sg then sint N x else uint N x.

(** The significand rounded to [MANT_DIG] bits, and the exponent. *)
Definition float_round (a : Z) : Z * Z :=
  let sd := N - clzN (uint N a) in
  let e := sd - 1 in
  if sd >? MANT_DIG then
    let a :=
      if sd =? MANT_DIG + 1 then as_int (Z.shiftl a 1)
      else if sd =? MANT_DIG + 2 then a
      else as_int ((uint N a >>[N] (sd - (MANT_DIG + 2)))
                   .| b2z (nonzero (uint N a .& ((2 ^ N - 1) >>[N] (N + MANT_DIG + 2 - sd))))) in
    let a := a .| b2z (nonzero (a .& 4)) in
    let a := as_int (a + 1) in
    let a := a >>[N] 2 in
    if nonzero (uint N a .& (1 <<[N] MANT_DIG)) then (a >>[N] 1, e + 1) else (a, e)
  else (as_int (Z.shiftl a (MANT_DIG - sd)), e).

(** [s = a >> (N - 1); a = (a ^ s) - s], absent for the unsigned types. *)
Definition float_sign (a : Z) : Z * Z :=
  if sg then let s := a >>[N] (N - 1) in (s, ssub N (a .^ s) s) else (0, a).
End FloatRound.

Definition float_sf (sg : bool) (N : Z) (clzN : Z -> Z) (a : Z) : Z :=
  if a =? 0 then 0
  else
    let '(s, a) := float_sign sg N a in
    let '(a, e) := float_round sg N clzN 24 a in
    ((uint 32 s .& 0x80000000) .| uint 32 (sshl 32 (e + 127) 23)) .| (uint 32 a .& 0x007FFFFF).

Definition float_df (sg : bool) (N : Z) (clzN : Z -> Z) (a : Z) : Z :=
  if a =? 0 then 0
  else
    let '(s, a) := float_sign sg N a in
    let '(a, e) := float_round sg N clzN 53 a in
    let high := ((uint 32 s .& 0x80000000) .| ((e + 1023) <<[32] 20)) .| (uint 32 (a >>[N] 32) .& 0x000FFFFF) in
    let low := uint 32 a in
    high * 2 ^ 32 + low.

Definition float_ld (sg : bool) (N : Z) (clzN : Z -> Z) (a : Z) : Z :=
  if a =? 0 then 0
  else
    let '(s, a) := float_sign sg N a in
    let '(a, e) := float_round sg N clzN 113 a in
    let high := ((uint 64 s .& 0x8000000000000000) .| ((e + 16383) <<[64] 48)) .| uint 64 ((a >>[N] 64) .& 0x0000ffffffffffff) in
    let low := uint 64 a in
    high * 2 ^ 64 + low.

(** [__builtin_clzll], and [__clzti2], which takes a signed argument. *)
Definition clz64 (a : Z) : Z := clz 64 a.
Definition clz128 (a : Z) : Z := __clzti2 (sint 128 a).

Definition __floatdisf (a : Z) : Z := float_sf true 64 clz64 a.
Definition __floatundisf (a : Z) : Z := float_sf false 64 clz64 a.
Definition __floattisf (a : Z) : Z := float_sf true 128 clz128 a.
Definition __floatuntisf (a : Z) : Z := float_sf false 128 clz128 a.
Definition __floatdidf (a : Z) : Z := float_df true 64 clz64 a.
Definition __floatundidf (a : Z) : Z := float_df false 64 clz64 a.
Definition __floattidf (a : Z) : Z := float_df true 128 clz128 a.
Definition __floatuntidf (a : Z) : Z := float_df false 128 clz128 a.
Definition __floattitf (a : Z) : Z := float_ld true 128 clz128 a.
Definition __floatuntitf (a : Z) : Z := float_ld false 128 clz128 a.

(** ** Truncation towards zero *)

Section FixSpec.
Context `{FpFormat} (fixWidth : Z).
Hypotheses (Hw : 32 <= typeWidth) (HN : 1 < fixWidth <= exponentBias + 1).

Notation sb := significandBits.

(** The magnitude truncated to an integer. *)
Definition int_part (x : Z) : Z := fpval x / 2 ^ unitExp.

Lemma bias_range : 15 <= exponentBias < 16384.
Proof.
  pose proof exponentBits_bounds as B. rewrite exponentBias_val.
  assert (2 ^ 4 <= 2 ^ (exponentBits - 1) <= 2 ^ 14) by (split; apply Z.pow_le_mono_r; lia).
  change (2 ^ 4) with 16 in *. change (2 ^ 14) with 16384 in *. lia.
Qed.

Lemma fix_parts_spec a : is_uint typeWidth a ->
  fix_parts a = (if fp_neg a then -1 else 1, fp_abs a / 2 ^ sb - exponentBias, 2 ^ sb + fp_abs a mod 2 ^ sb) /\
  0 <= fp_abs a / 2 ^ sb <= maxExponent.
Proof.
  intros Ra. destruct (rep_parts a Ra) as (_ & Ax & Lx & Sx). destruct (fields_of a Ra) as (_ & Fx).
  pose proof exponentBits_bounds as B. pose proof bias_range as Bb. pose proof maxExponent_bounds as Mb. pose proof sig_pow_pos as Ps.
  assert (He : 0 <= fp_abs a / 2 ^ sb <= maxExponent).
  { split; [apply Z.div_pos; lia|]. rewrite signBit_split in Ax. rewrite maxExponent_val.
    assert (fp_abs a / 2 ^ sb < 2 ^ exponentBits) by (apply Z.div_lt_upper_bound; lia). lia. }
  split; [|exact He]. unfold fix_parts. rewrite Lx, Sx, shr_spec by lia.
  assert (S1 : (if nonzero (if fp_neg a then 2 ^ (typeWidth - 1) else 0) then -1 else 1) = if fp_neg a then -1 else 1).
  { destruct (fp_neg a); [|reflexivity]. unfold nonzero. assert (0 < 2 ^ (typeWidth - 1)) by (apply pow2_pos; lia).
    destruct (Z.eqb_spec (2 ^ (typeWidth - 1)) 0); [lia|reflexivity]. }
  rewrite S1. f_equal; [f_equal|].
  - apply sint_of_eqm; [lia|unfold is_sint; change (2 ^ (32 - 1)) with 2147483648; lia|].
    apply (eqm_lower typeWidth); [lia|]. unfold usub. now rewrite uint_eqm.
  - rewrite significand_of. apply lor_implicit, Z.mod_pos_bound, Ps.
Qed.

(** The integer part by the sign of the unbiased exponent. *)
Lemma int_part_small x : 0 <= x -> x / 2 ^ sb < exponentBias -> int_part x = 0.
Proof.
  intros Hx He. pose proof sig_pow_pos as Ps. pose proof exponentBits_bounds as B. pose proof bias_range as Bb.
  apply Z.div_small. split; [apply fpval_step; lia|]. unfold fpval, unitExp. pose proof (Z.mod_pos_bound x _ Ps).
  assert (0 <= x / 2 ^ sb) by (apply Z.div_pos; lia). destruct (Z.eqb_spec (x / 2 ^ sb) 0) as [E|E].
  - assert (2 ^ sb <= 2 ^ (exponentBias + sb - 1)) by (apply Z.pow_le_mono_r; lia). lia.
  - apply Z.lt_le_trans with (2 ^ (sb + 1 + (x / 2 ^ sb - 1))); [|apply Z.pow_le_mono_r; lia].
    rewrite !pow2_split by lia. apply Z.mul_lt_mono_pos_r; [apply pow2_pos|]; lia.
Qed.

Lemma int_part_normal x k : x / 2 ^ sb = exponentBias + k -> 0 <= k ->
  int_part x = (2 ^ sb + x mod 2 ^ sb) * 2 ^ k / 2 ^ sb /\ 2 ^ k <= int_part x < 2 ^ (k + 1).
Proof.
  intros E Hk. pose proof sig_pow_pos as Ps. pose proof exponentBits_bounds as B. pose proof bias_range as Bb.
  assert (I : int_part x = (2 ^ sb + x mod 2 ^ sb) * 2 ^ k / 2 ^ sb).
  { unfold int_part, fpval, unitExp. rewrite E. destruct (Z.eqb_spec (exponentBias + k) 0); [lia|].
    rewrite (Z.add_comm (x mod _)).
    replace (exponentBias + k - 1) with (k + (exponentBias - 1)) by lia.
    replace (exponentBias + sb - 1) with (sb + (exponentBias - 1)) by lia.
    rewrite !pow2_split, Z.mul_assoc by lia. apply Z.div_mul_cancel_r; apply Z.pow_nonzero; lia. }
  split; [exact I|]. rewrite I. pose proof (Z.mod_pos_bound x _ Ps). pose proof (pow2_pos k Hk).
  rewrite (pow2_split k 1) by lia. change (2 ^ 1) with 2.
  split; [apply Z.div_le_lower_bound|apply Z.div_lt_upper_bound]; nia.
Qed.

(** The two shifts of the code. *)
Lemma int_part_shift x k : x / 2 ^ sb = exponentBias + k -> 0 <= k ->
  int_part x = if k <? sb then shr typeWidth (2 ^ sb + x mod 2 ^ sb) (sb - k) else (2 ^ sb + x mod 2 ^ sb) * 2 ^ (k - sb).
Proof.
  intros E Hk. pose proof sig_pow_pos as Ps. pose proof exponentBits_bounds as B.
  rewrite (proj1 (int_part_normal x k E Hk)). set (S := 2 ^ sb + x mod 2 ^ sb). case_cmp.
  - rewrite shr_spec by lia. replace (2 ^ sb) with (2 ^ (sb - k) * 2 ^ k) by (rewrite <- pow2_split by lia; f_equal; lia).
    apply Z.div_mul_cancel_r; apply Z.pow_nonzero; lia.
  - replace (2 ^ k) with (2 ^ (k - sb) * 2 ^ sb) by (rewrite <- pow2_split by lia; f_equal; lia).
    rewrite Z.mul_assoc. apply Z.div_mul. lia.
Qed.

Lemma int_part_big x : 0 <= x -> (2 ^ fixWidth <= int_part x <-> exponentBias + fixWidth <= x / 2 ^ sb).
Proof.
  intros Hx. pose proof (pow2_pos fixWidth ltac:(lia)). destruct (Z.lt_ge_cases (x / 2 ^ sb) exponentBias) as [L|L].
  - rewrite (int_part_small x Hx L). lia.
  - set (k := x / 2 ^ sb - exponentBias). destruct (int_part_normal x k ltac:(lia) ltac:(lia)) as [_ R].
    split; intros G.
    + assert (2 ^ fixWidth < 2 ^ (k + 1)) as P by lia. apply Z.pow_lt_mono_r_iff in P; lia.
    + pose proof (Z.pow_le_mono_r 2 fixWidth k). lia.
Qed.

(** An exponent field of all ones is beyond every integer type. *)
Lemma infinite_exponent x : infRep <= x -> exponentBias + fixWidth <= x / 2 ^ sb.
Proof.
  intros L. pose proof sig_pow_pos as Ps. rewrite infRep_val in L. pose proof exponentBits_bounds as B.
  assert (maxExponent <= x / 2 ^ sb) by (apply Z.div_le_lower_bound; lia).
  assert (maxExponent = 2 * exponentBias + 1); [|lia].
  rewrite maxExponent_val, exponentBias_val, (pow2_S exponentBits) by lia. lia.
Qed.

Lemma int_part_nonneg x : 0 <= x -> 0 <= int_part x.
Proof.
  intros Hx. pose proof exponentBits_bounds. pose proof bias_range.
  apply Z.div_pos; [apply fpval_step; lia|apply pow2_pos; unfold unitExp; lia].
Qed.

Lemma fixuint_spec a : is_uint typeWidth a -> let x := fp_abs a in
  __fixuint fixWidth a = if fp_neg a then 0
    else if int_part x <? 2 ^ fixWidth then int_part x else 2 ^ fixWidth - 1.
Proof.
  intros Ra x. destruct (fix_parts_spec a Ra) as [E He]. fold x in E, He. pose proof bias_range as Bb. pose proof maxExponent_bounds as Mb.
  destruct (rep_parts a Ra) as (_ & Ax & _). fold x in Ax. pose proof sig_pow_pos as Ps. pose proof exponentBits_bounds as B.
  unfold __fixuint. rewrite E. clear E. destruct (fp_neg a); [reflexivity|]. change (1 =? -1) with false. cbn [orb].
  pose proof (int_part_big x ltac:(lia)) as Big. pose proof (pow2_pos fixWidth ltac:(lia)) as Pw.
  destruct (Z.ltb_spec (x / 2 ^ sb - exponentBias) 0) as [L|L].
  - rewrite (int_part_small x) by lia. destruct (Z.ltb_spec 0 (2 ^ fixWidth)); lia.
  - set (k := x / 2 ^ sb - exponentBias) in *. assert (Ek : x / 2 ^ sb = exponentBias + k) by lia. clearbody k.
    rewrite (uint_small 32) by (unfold is_uint; lia). rewrite Z.geb_leb.
    destruct (Z.leb_spec fixWidth k) as [G|G]; (destruct (Z.ltb_spec (int_part x) (2 ^ fixWidth)) as [V|V]; [|try lia]); try lia.
    + unfold unot. apply uint_of_eqm; [unfold is_uint; lia|]. replace (2 ^ fixWidth - 1) with (Z.lnot 0 + 2 ^ fixWidth) by (unfold Z.lnot; lia).
      rewrite eqm_pow. now rewrite Z.add_0_r.
    + pose proof (int_part_nonneg x ltac:(lia)). rewrite (int_part_shift x k Ek L) in *. destruct (Z.ltb_spec k sb).
      * apply uint_small. unfold is_uint. lia.
      * rewrite ushl_spec by lia. apply uint_of_eqm; [unfold is_uint; lia|]. now rewrite uint_eqm.
Qed.

Lemma fixint_spec a : is_uint typeWidth a -> let x := fp_abs a in let v := if fp_neg a then - int_part x else int_part x in
  __fixint fixWidth a = if int_part x <? 2 ^ fixWidth then sint fixWidth v
    else if fp_neg a then - 2 ^ (fixWidth - 1) else 2 ^ (fixWidth - 1) - 1.
Proof.
  intros Ra x v. destruct (fix_parts_spec a Ra) as [E He]. fold x in E, He. pose proof bias_range as Bb. pose proof maxExponent_bounds as Mb.
  destruct (rep_parts a Ra) as (_ & Ax & _). fold x in Ax. pose proof sig_pow_pos as Ps. pose proof exponentBits_bounds as B.
  unfold __fixint. rewrite E. clear E. 
  pose proof (int_part_big x ltac:(lia)) as Big. pose proof (pow2_pos (fixWidth - 1) ltac:(lia)) as Pw.
  assert (P2 : 2 ^ fixWidth = 2 * 2 ^ (fixWidth - 1)) by (apply pow2_S; lia).
  assert (Mx : sint fixWidth ((2 ^ fixWidth - 1) / 2) = 2 ^ (fixWidth - 1) - 1).
  { replace ((2 ^ fixWidth - 1) / 2) with (2 ^ (fixWidth - 1) - 1) by (apply Z.div_unique with 1; lia).
    apply sint_small; [|unfold is_sint]; lia. }
  assert (Mn : ssub fixWidth (sopp fixWidth (2 ^ (fixWidth - 1) - 1)) 1 = - 2 ^ (fixWidth - 1)).
  { unfold ssub, sopp. rewrite (sint_small _ (- _)) by (unfold is_sint; lia). rewrite sint_small by (unfold is_sint; lia). lia. }
  rewrite Mx, Mn. destruct (Z.ltb_spec (x / 2 ^ sb - exponentBias) 0) as [L|L].
  - unfold v. rewrite (int_part_small x) by lia. destruct (Z.ltb_spec 0 (2 ^ fixWidth)); [|lia].
    rewrite sint_small by (destruct (fp_neg a); unfold is_sint; lia). destruct (fp_neg a); reflexivity.
  - set (k := x / 2 ^ sb - exponentBias) in *. assert (Ek : x / 2 ^ sb = exponentBias + k) by lia. clearbody k.
    rewrite (uint_small 32) by (unfold is_uint; lia). rewrite Z.geb_leb.
    destruct (Z.leb_spec fixWidth k) as [G|G]; (destruct (Z.ltb_spec (int_part x) (2 ^ fixWidth)) as [V|V]; [|try lia]); try lia.
    + destruct (fp_neg a); reflexivity.
    + assert (Ev : v = (if fp_neg a then -1 else 1) * int_part x) by (unfold v; destruct (fp_neg a); lia). rewrite Ev.
      set (sign := if fp_neg a then -1 else 1). rewrite (int_part_shift x k Ek L). destruct (Z.ltb_spec k sb).
      * apply eqm_sint. apply (eqm_lower (Z.max fixWidth typeWidth)); [lia|]. unfold umul. now rewrite !uint_eqm.
      * unfold smul. apply eqm_sint. rewrite sshl_spec by lia. now rewrite !sint_eqm.
Qed.
End FixSpec.

(** The truncated value of a finite number. *)
Definition fp_trunc `{FpFormat} (a : Z) : Z := Z.quot (fp_value a) (2 ^ unitExp).

Lemma fp_trunc_int_part `{FpFormat} a : is_uint typeWidth a ->
  fp_trunc a = if fp_neg a then - int_part (fp_abs a) else int_part (fp_abs a).
Proof.
  intros Ra. destruct (rep_parts a Ra) as (_ & Ax & _). pose proof exponentBits_bounds. pose proof bias_range.
  assert (0 < 2 ^ unitExp) by (apply pow2_pos; unfold unitExp; lia).
  unfold fp_trunc, fp_value, int_part.
  assert (0 <= fpval (fp_abs a)) by (apply fpval_step; lia).
  destruct (fp_neg a); [rewrite Z.quot_opp_l by lia; f_equal|]; apply Z.quot_div_nonneg; lia.
Qed.

(** C31: conversion of a floating-point number to an integer type of [N] bits
    ([__fixsfsi], [__fixdfdi], [__fixunsdfdi], [__fixtfti], ...; every format
    and width of the library satisfies the two side conditions).  A value
    whose truncation towards zero fits the type gives that truncation.  The
    unsigned routine returns 0 for negative numbers and saturates above; the
    signed one saturates when the magnitude reaches [2^N], and in between
    returns the truncation wrapped to [N] bits.  Infinities and NaNs saturate
    by their sign. *)
Theorem fix_truncates `{FpFormat} N a : 32 <= typeWidth -> 1 < N <= exponentBias + 1 -> is_uint typeWidth a ->
  let v := fp_trunc a in
  (is_finite a = true ->
     (- 2 ^ (N - 1) <= v < 2 ^ (N - 1) -> __fixint N a = v) /\
     (Z.abs v < 2 ^ N -> __fixint N a = sint N v) /\
     (2 ^ N <= v -> __fixint N a = 2 ^ (N - 1) - 1) /\
     (v <= - 2 ^ N -> __fixint N a = - 2 ^ (N - 1)) /\
     (v <= 0 -> __fixuint N a = 0) /\
     (0 <= v < 2 ^ N -> __fixuint N a = v) /\
     (2 ^ N <= v -> __fixuint N a = 2 ^ N - 1)) /\
  (is_finite a = false ->
     __fixint N a = (if fp_neg a then - 2 ^ (N - 1) else 2 ^ (N - 1) - 1) /\
     __fixuint N a = (if fp_neg a then 0 else 2 ^ N - 1)).
Proof.
  intros Hw HN Ra v. destruct (rep_parts a Ra) as (_ & Ax & _).
  rewrite (fixint_spec N Hw HN a Ra), (fixuint_spec N Hw HN a Ra). unfold v. rewrite (fp_trunc_int_part a Ra).
  assert (I0 : 0 <= int_part (fp_abs a)) by (apply int_part_nonneg; lia).
  pose proof (pow2_pos (N - 1) ltac:(lia)). assert (P2 : 2 ^ N = 2 * 2 ^ (N - 1)) by (apply pow2_S; lia).
  split; intros F.
  - clear v F Ra Hw. set (i := int_part (fp_abs a)) in *. clearbody i.
    repeat split; intros; destruct (fp_neg a), (Z.ltb_spec i (2 ^ N)); try lia; try reflexivity;
      try (apply sint_small; [lia|unfold is_sint; lia]).
  - assert (infRep <= fp_abs a) as L by (unfold is_finite in F; apply Z.ltb_ge in F; lia).
    assert (2 ^ N <= int_part (fp_abs a)) as Big by (apply int_part_big; [lia..|now apply infinite_exponent]).
    destruct (Z.ltb_spec (int_part (fp_abs a)) (2 ^ N)); [lia|]. destruct (fp_neg a); split; reflexivity.
Qed.

Lemma fix_truncates_witness : is_uint 64 0xc0091eb851eb851f /\
  __fixdfsi 0xc0091eb851eb851f = -3 /\ @__fixint double_precision 32 0xc0091eb851eb851f = @fp_trunc double_precision 0xc0091eb851eb851f.
Proof.
  assert (U : is_uint 64 0xc0091eb851eb851f) by (split; vm_compute; congruence). split; [exact U|]. split; [vm_compute; reflexivity|].
  assert (A1 : 32 <= @typeWidth double_precision) by (vm_compute; congruence).
  assert (A2 : 1 < 32 <= @exponentBias double_precision + 1) by (vm_compute; split; congruence).
  assert (T : @fp_trunc double_precision 0xc0091eb851eb851f = -3) by (vm_compute; reflexivity).
  apply (@fix_truncates double_precision 32 0xc0091eb851eb851f A1 A2 U).
  - vm_compute; reflexivity.
  - rewrite T. lia.
Defined.

(** The source says of [__fixint] "if the value is too large for the
    integer type, saturate", but its test is against [2^N] and not
    [2^(N-1)]: the float 2^31 converts to INT_MIN, not to INT_MAX, while
    2^32 saturates. *)
Theorem fixint_gap_wraps : __fixsfsi 0x4f000000 = - 2 ^ 31 /\ @fp_trunc single_precision 0x4f000000 = 2 ^ 31 /\
  __fixsfsi 0x4f800000 = 2 ^ 31 - 1 /\ @fp_trunc single_precision 0x4f800000 = 2 ^ 32.
Proof. repeat split; vm_compute; reflexivity. Qed.

(** ** Correct rounding of integers *)

Section FloatSpec.
Context `{FpFormat}.
Notation sb := significandBits.

Lemma bias_max : maxExponent = 2 * exponentBias + 1.
Proof.
  pose proof exponentBits_bounds as B. rewrite maxExponent_val, exponentBias_val, (pow2_S exponentBits) by lia. lia.
Qed.

(** A magnitude whose leading bit is bit [L]: its exponent field is [L + bias]. *)
Section Magnitude.
Context (m : Z).
Hypotheses (Hm : 0 < m) (HL : Z.log2 m <= exponentBias).
Notation L := (Z.log2 m).
Notation E := (L + exponentBias).

Lemma exponent_field : 0 <= L /\ 1 <= E < maxExponent /\ 2 ^ L <= m < 2 * 2 ^ L.
Proof.
  pose proof (Z.log2_nonneg m). pose proof (log2_bounds m Hm). pose proof bias_range. rewrite bias_max. lia.
Qed.

(** A packed result is in range. *)
Lemma packed_range q : 0 <= q <= 2 * 2 ^ sb -> 0 <= (E - 1) * 2 ^ sb + q <= infRep.
Proof.
  intros Hq. destruct exponent_field as (_ & HE & _). pose proof sig_pow_pos. rewrite infRep_val.
  assert ((E + 1) * 2 ^ sb <= maxExponent * 2 ^ sb) by (apply Z.mul_le_mono_nonneg_r; lia).
  assert (0 <= (E - 1) * 2 ^ sb) by (apply Z.mul_nonneg_nonneg; lia). lia.
Qed.

Lemma left_shift_exact : L <= sb -> let q := m * 2 ^ (sb - L) in
  2 ^ sb <= q < 2 * 2 ^ sb /\ rounds_to (m * 2 ^ unitExp) 1 ((E - 1) * 2 ^ sb + q).
Proof.
  intros HLs q. destruct exponent_field as (L0 & HE & LB). pose proof sig_pow_pos as Ps. pose proof exponentBits_bounds as B.
  assert (Pq : 2 ^ sb = 2 ^ L * 2 ^ (sb - L)) by (rewrite <- pow2_split by lia; f_equal; lia).
  assert (0 < 2 ^ (sb - L)) by (apply pow2_pos; lia).
  assert (Hq : 2 ^ sb <= q < 2 * 2 ^ sb) by (unfold q; rewrite Pq; nia). split; [exact Hq|].
  replace (m * 2 ^ unitExp) with (1 * fpval ((E - 1) * 2 ^ sb + q)).
  - apply rounds_to_exact; [lia|]. apply packed_range. lia.
  - rewrite fpval_parts by lia. unfold q, unitExp. rewrite Z.mul_1_l, <- Z.mul_assoc, <- pow2_split by lia. do 2 f_equal. lia.
Qed.

Lemma right_shift_rounds g : g = L - sb -> 0 < g -> let q := m / 2 ^ g in
  2 ^ sb <= q < 2 * 2 ^ sb /\ rounds_to (m * 2 ^ unitExp) 1 (round_nearest g ((E - 1) * 2 ^ sb + q) (m mod 2 ^ g)).
Proof.
  intros Eg Hg q. destruct exponent_field as (L0 & HE & LB). pose proof sig_pow_pos as Ps. pose proof exponentBits_bounds as B.
  pose proof bias_range as Bb. assert (PL : 2 ^ L = 2 ^ sb * 2 ^ g) by (rewrite <- pow2_split by lia; f_equal; lia).
  assert (0 < 2 ^ g) by (apply pow2_pos; lia).
  split; [unfold q; split; [apply Z.div_le_lower_bound|apply Z.div_lt_upper_bound]; lia|].
  apply (rounds_to_round g E m m 1); try lia.
  - intros M _. now rewrite Z.mul_1_r.
  - unfold unitExp. rewrite Z.mul_1_l, Z.mul_1_r, <- Z.mul_assoc, <- pow2_split by lia. do 2 f_equal. lia.
Qed.
End Magnitude.

(** What a conversion promises: the sign of the integer, and its magnitude
    correctly rounded. *)
Definition converts (a r : Z) : Prop :=
  is_uint typeWidth r /\ fp_neg r = (a <? 0) /\ rounds_to (Z.abs a * 2 ^ unitExp) 1 (fp_abs r).

Lemma converts_intro a n r : n = (a <? 0) -> rounds_to (Z.abs a * 2 ^ unitExp) 1 r -> converts a (with_sign n r).
Proof.
  intros -> Hr. pose proof infRep_bounds as I. destruct (proj1 Hr) as [R0 R1].
  destruct (with_sign_parts (a <? 0) r) as (U & S & A); [lia|]. unfold converts. now rewrite S, A.
Qed.

Lemma converts_zero : converts 0 0.
Proof.
  change 0 with (with_sign false 0) at 2. apply converts_intro; [reflexivity|].
  replace (Z.abs 0 * 2 ^ unitExp) with (1 * fpval 0) by (rewrite fpval_zero; reflexivity).
  pose proof infRep_bounds. apply rounds_to_exact; lia.
Qed.

(** [result += (rep_t)(exponent + exponentBias) << significandBits] *)
Lemma insert_exponent E q : 1 <= E < maxExponent -> 2 ^ sb <= q <= 2 * 2 ^ sb ->
  uadd typeWidth (q - 2 ^ sb) (ushl typeWidth E sb) = (E - 1) * 2 ^ sb + q.
Proof.
  intros HE Hq. pose proof exponentBits_bounds as B. pose proof infRep_bounds as I. rewrite infRep_val in I.
  pose proof sig_pow_pos as Ps. assert (P2 : 2 ^ typeWidth = 2 * 2 ^ (typeWidth - 1)) by (apply pow2_S; lia).
  assert ((E + 1) * 2 ^ sb <= maxExponent * 2 ^ sb) by (apply Z.mul_le_mono_nonneg_r; lia).
  assert (0 <= (E - 1) * 2 ^ sb) by (apply Z.mul_nonneg_nonneg; lia).
  rewrite ushl_spec by lia. unfold uadd. rewrite (uint_small _ (E * 2 ^ sb)) by (unfold is_uint; lia).
  replace (q - 2 ^ sb + E * 2 ^ sb) with ((E - 1) * 2 ^ sb + q) by ring. apply uint_small. unfold is_uint. lia.
Qed.

Lemma float_exact_shift w m sign : 0 < m -> Z.log2 m <= sb -> float_exact w m sign = float_shift w m sign.
Proof.
  intros Hm HL. unfold float_exact, float_shift, clz. replace (w - 1 - (w - 1 - Z.log2 m)) with (Z.log2 m) by ring.
  now rewrite (proj2 (Z.leb_le _ _) HL).
Qed.

Lemma float_shift_spec w m (n : bool) : 0 < m < 2 ^ typeWidth -> Z.log2 m <= exponentBias ->
  exists r, float_shift w m (if n then signBit else 0) = with_sign n r /\ rounds_to (m * 2 ^ unitExp) 1 r.
Proof.
  intros Hm HL. destruct (exponent_field m ltac:(lia) HL) as (L0 & HE & LB). pose proof sig_pow_pos as Ps.
  pose proof exponentBits_bounds as B. pose proof (log2_lt_width typeWidth m Hm) as LW. pose proof infRep_bounds as I.
  assert (PW : 2 * 2 ^ sb <= 2 ^ typeWidth) by (rewrite <- Z.pow_succ_r by lia; apply Z.pow_le_mono_r; lia).
  unfold float_shift, clz. replace (w - 1 - (w - 1 - Z.log2 m)) with (Z.log2 m) by ring. rewrite signBit_val.
  assert (Fin : forall r, rounds_to (m * 2 ^ unitExp) 1 r ->
    exists r', Z.lor r (if n then 2 ^ (typeWidth - 1) else 0) = with_sign n r' /\ rounds_to (m * 2 ^ unitExp) 1 r').
  { intros r Hr. exists r. split; [|exact Hr]. apply with_sign_lor. destruct (proj1 Hr). lia. }
  destruct (Z.leb_spec (Z.log2 m) sb) as [C|C].
  - destruct (left_shift_exact m ltac:(lia) HL C) as [Hq Hr]. cbv zeta in Hq, Hr.
    rewrite ushl_spec, uint_small by (unfold is_uint; lia). rewrite lxor_implicit, insert_exponent by lia. apply Fin, Hr.
  - set (g := Z.log2 m - sb). destruct (right_shift_rounds m ltac:(lia) HL g eq_refl ltac:(unfold g; lia)) as [Hq Hr].
    cbv zeta in Hq, Hr. rewrite shr_spec, lxor_implicit by (unfold g in *; lia). set (q := m / 2 ^ g) in *.
    assert (Pt : 2 ^ typeWidth = 2 ^ g * 2 ^ (typeWidth - g)) by (rewrite <- pow2_split by (unfold g; lia); f_equal; lia).
    assert (Pg : 2 ^ (typeWidth - 1) = 2 ^ (g - 1) * 2 ^ (typeWidth - g)) by (rewrite <- pow2_split by (unfold g; lia); f_equal; lia).
    assert (P0 : 0 < 2 ^ (typeWidth - g)) by (apply pow2_pos; unfold g; lia).
    assert (P1 : 0 < 2 ^ (g - 1)) by (apply pow2_pos; unfold g; lia).
    assert (Rd : ushl typeWidth m (typeWidth - g) = (m mod 2 ^ g) * 2 ^ (typeWidth - g)).
    { rewrite ushl_spec by (unfold g; lia). unfold uint. rewrite Pt. apply Z.mul_mod_distr_r; [apply Z.pow_nonzero; unfold g; lia|lia]. }
    assert (Pa : Z.land (q - 2 ^ sb) 1 = ((Z.log2 m + exponentBias - 1) * 2 ^ sb + q) mod 2).
    { change 1 with (2 ^ 1 - 1) at 1. rewrite land_ones_mod by lia. change (2 ^ 1) with 2. rewrite (pow2_S sb) by lia.
      replace (q - 2 * 2 ^ (sb - 1)) with (q + (- 2 ^ (sb - 1)) * 2) by ring.
      replace ((Z.log2 m + exponentBias - 1) * (2 * 2 ^ (sb - 1)) + q) with (q + ((Z.log2 m + exponentBias - 1) * 2 ^ (sb - 1)) * 2) by ring.
      now rewrite !Z_mod_plus_full. }
    assert (Sm : forall c, 0 <= c <= 1 -> uadd typeWidth (q - 2 ^ sb) c = q + c - 2 ^ sb)
      by (intros c Hc; unfold uadd; rewrite uint_small by (unfold is_uint; lia); lia).
    rewrite Rd, Pg, Z.gtb_ltb. unfold round_nearest in Hr. rewrite <- Pa in Hr.
    assert (Hp : 0 <= Z.land (q - 2 ^ sb) 1 <= 1) by (rewrite Pa; pose proof (Z.mod_pos_bound ((Z.log2 m + exponentBias - 1) * 2 ^ sb + q) 2); lia).
    assert (T1 : (2 ^ (g - 1) * 2 ^ (typeWidth - g) <? m mod 2 ^ g * 2 ^ (typeWidth - g)) = (2 ^ (g - 1) <? m mod 2 ^ g))
      by (apply eq_true_iff_eq; rewrite !Z.ltb_lt; symmetry; apply Z.mul_lt_mono_pos_r; lia).
    assert (T2 : (m mod 2 ^ g * 2 ^ (typeWidth - g) =? 2 ^ (g - 1) * 2 ^ (typeWidth - g)) = (m mod 2 ^ g =? 2 ^ (g - 1)))
      by (apply eq_true_iff_eq; rewrite !Z.eqb_eq; split; [apply Z.mul_cancel_r; lia|now intros ->]).
    rewrite T1, T2. clear T1 T2 Rd. rewrite <- Pg. apply Fin. rewrite <- Z.add_assoc in Hr.
    destruct (Z.ltb_spec (2 ^ (g - 1)) (m mod 2 ^ g)), (Z.eqb_spec (m mod 2 ^ g) (2 ^ (g - 1))); try lia;
      rewrite ?Sm, insert_exponent by lia; [exact Hr|exact Hr|now rewrite Z.add_0_r in Hr].
Qed.
End FloatSpec.

(** [a |= (a & 4) != 0; ++a; a >>= 2] rounds to even on two bits. *)
Lemma round_pqr s : 0 <= s -> let a := s .| b2z (nonzero (s .& 4)) in s <= a <= s + 1 /\
  (a + 1) / 4 = s / 4 + (if 2 <? s mod 4 then 1 else if s mod 4 =? 2 then (s / 4) mod 2 else 0).
Proof.
  intros Hs. cbv zeta.
  assert (P : Z.land s 4 = 4 * ((s / 4) mod 2)).
  { change 4 with ((2 ^ 1 - 1) * 2 ^ 2) at 1. rewrite land_field by lia. change (2 ^ 2) with 4. change (2 ^ 1) with 2. ring. }
  rewrite P. unfold nonzero. pose proof (Z.mod_pos_bound (s / 4) 2 ltac:(lia)) as M. pose proof (Z.div_mod s 4 ltac:(lia)) as D.
  pose proof (Z.mod_pos_bound s 4 ltac:(lia)) as R. set (q := s / 4) in *. set (r := s mod 4) in *. clearbody r.
  destruct (Z.eqb_spec (4 * (q mod 2)) 0) as [E|E]; cbn [negb b2z].
  - rewrite Z.lor_0_r. replace (q mod 2) with 0 by lia. split; [lia|].
    case_cmp; [|case_cmp]; symmetry; [apply Z.div_unique with (r - 3)|apply Z.div_unique with (r + 1)|apply Z.div_unique with (r + 1)]; lia.
  - rewrite lor1. replace (q mod 2) with 1 by lia. pose proof (Z.div_mod s 2 ltac:(lia)). pose proof (Z.mod_pos_bound s 2 ltac:(lia)).
    split; [lia|]. assert (r = 0 \/ r = 1 \/ r = 2 \/ r = 3) as [E1|[E1|[E1|E1]]] by lia; rewrite E1 in *;
      (case_cmp; [|case_cmp]); try lia; symmetry; first [apply Z.div_unique with 2; lia|apply Z.div_unique with 0; lia].
Qed.

Section FloatRoundSpec.
Context `{FpFormat} (sg : bool) (N : Z) (clzN : Z -> Z).
Notation sb := significandBits.
Notation MANT_DIG := (significandBits + 1).
Hypotheses (HN : MANT_DIG + 4 <= N) (HB : N <= exponentBias + 1)
  (Hclz : forall m, 0 < m < 2 ^ N -> clzN m = clz N m).

(** The value with two bits below the significand and the rest jammed. *)
Definition with_pqr (m : Z) : Z :=
  let k := Z.log2 m - sb - 2 in if k <? 0 then 2 * m else jam m k.

Lemma with_pqr_spec m : 0 < m < 2 ^ N -> sb < Z.log2 m ->
  2 ^ sb * 4 <= with_pqr m < 2 * 2 ^ sb * 4 /\
  rounds_to (m * 2 ^ unitExp) 1
    (round_nearest 2 ((Z.log2 m + exponentBias - 1) * 2 ^ sb + with_pqr m / 4) (with_pqr m mod 4)).
Proof.
  intros Hm HL. pose proof (log2_lt_width N m Hm) as LW. assert (HLb : Z.log2 m <= exponentBias) by lia.
  destruct (exponent_field m ltac:(lia) HLb) as (L0 & HE & LB). pose proof exponentBits_bounds as B. pose proof bias_range as Bb.
  unfold with_pqr. destruct (Z.ltb_spec (Z.log2 m - sb - 2) 0) as [K|K].
  - assert (EL : Z.log2 m = sb + 1) by lia. rewrite EL, Z.pow_add_r in LB by lia. change (2 ^ 1) with 2 in LB.
    split; [lia|]. apply (rounds_to_round 2 (Z.log2 m + exponentBias) (2 * m) (2 * m) 1); try lia.
    + intros M _. now rewrite Z.mul_1_r.
    + rewrite EL. unfold unitExp. replace (sb + 1 + exponentBias - 1) with (exponentBias + sb - 1 + 1) by lia.
      rewrite (pow2_split _ 1) by lia. change (2 ^ 1) with 2. change (2 ^ 2) with 4. ring.
  - set (k := Z.log2 m - sb - 2) in *. assert (Pk : 0 < 2 ^ k) by (apply pow2_pos; lia).
    assert (PL : 2 ^ Z.log2 m = 2 ^ sb * 4 * 2 ^ k)
      by (change 4 with (2 ^ 2); rewrite <- !pow2_split by lia; f_equal; unfold k; lia).
    assert (HS : 2 ^ sb * 4 <= jam m k < 2 * 2 ^ sb * 4).
    { destruct (jam_bounds m k) as (_ & _ & J); [lia..|]. split.
      - assert (2 ^ sb * 4 <= m / 2 ^ k) by (apply Z.div_le_lower_bound; lia). lia.
      - rewrite <- Z.mul_assoc. apply jam_lt; lia. }
    split; [exact HS|]. apply (rounds_to_round 2 (Z.log2 m + exponentBias) (jam m k) m (2 ^ k)); try lia.
    + change (2 - 1) with 1. apply jam_agrees. lia.
    + unfold unitExp. change (2 ^ 2) with (2 ^ 2). rewrite Z.mul_1_r, <- Z.mul_assoc, <- !pow2_split by lia.
      do 2 f_equal. unfold k. lia.
Qed.

Lemma sticky_mask m k : 0 < k < N -> 0 < m < 2 ^ N ->
  (m >>[N] k) .| b2z (nonzero (m .& ((2 ^ N - 1) >>[N] (N - k)))) = jam m k.
Proof.
  intros Hk Hm. rewrite !shr_spec by lia. unfold jam. f_equal. do 2 f_equal.
  replace ((2 ^ N - 1) / 2 ^ (N - k)) with (2 ^ k - 1); [now rewrite land_ones_mod by lia|].
  assert (P : 2 ^ N = 2 ^ k * 2 ^ (N - k)) by (rewrite <- pow2_split by lia; f_equal; lia).
  apply Z.div_unique with (2 ^ (N - k) - 1); [|lia]. pose proof (pow2_pos (N - k) ltac:(lia)). lia.
Qed.

Lemma as_int_small x : 0 <= x < 2 ^ (N - 1) -> as_int sg N x = x.
Proof.
  intros Hx. pose proof exponentBits_bounds as B. assert (2 ^ N = 2 * 2 ^ (N - 1)) by (apply pow2_S; lia).
  unfold as_int. destruct sg; [apply sint_small; [lia|unfold is_sint; lia]|apply uint_small; unfold is_uint; lia].
Qed.

(** The rounding branch: the [switch] leaves [with_pqr m]. *)
Lemma float_round_switch a m : m = uint N a -> 0 < m -> (m < 2 ^ (N - 1) -> a = m) -> MANT_DIG < Z.log2 m + 1 ->
  let sd := Z.log2 m + 1 in
  (if sd =? MANT_DIG + 1 then as_int sg N (Z.shiftl a 1)
   else if sd =? MANT_DIG + 2 then a
   else as_int sg N ((uint N a >>[N] (sd - (MANT_DIG + 2)))
                     .| b2z (nonzero (uint N a .& ((2 ^ N - 1) >>[N] (N + MANT_DIG + 2 - sd)))))) = with_pqr m.
Proof.
  intros Em Hm Ha Hsd. pose proof exponentBits_bounds as B.
  assert (Um : 0 < m < 2 ^ N) by (pose proof (uint_range N a ltac:(lia)) as U; unfold is_uint in U; lia).
  pose proof (log2_lt_width N m Um) as LW. destruct (with_pqr_spec m Um ltac:(lia)) as [HS _].
  assert (PB : 2 * 2 ^ sb * 4 <= 2 ^ (N - 1)).
  { change 4 with (2 ^ 2). rewrite <- Z.pow_succ_r, <- pow2_split by lia. apply Z.pow_le_mono_r; lia. }
  assert (Hlow : Z.log2 m <= sb + 2 -> a = m).
  { intros L. apply Ha. destruct (log2_bounds m Hm) as [_ U]. apply Z.lt_le_trans with (1 := U).
    rewrite <- Z.pow_succ_r by lia. apply Z.pow_le_mono_r; lia. }
  cbv zeta. rewrite <- Em. unfold with_pqr in *. destruct (Z.eqb_spec (Z.log2 m + 1) (MANT_DIG + 1)) as [E1|E1].
  - rewrite (proj2 (Z.ltb_lt _ _)) in * by lia. rewrite Hlow by lia. rewrite Z.shiftl_mul_pow2 by lia. change (2 ^ 1) with 2.
    rewrite Z.mul_comm. apply as_int_small. lia.
  - rewrite (proj2 (Z.ltb_ge _ _)) in * by lia. destruct (Z.eqb_spec (Z.log2 m + 1) (MANT_DIG + 2)) as [E2|E2].
    + rewrite Hlow by lia. replace (Z.log2 m - sb - 2) with 0 by lia. unfold jam. now rewrite Z.div_1_r, Z.mod_1_r, Z.lor_0_r.
    + replace (Z.log2 m + 1 - (MANT_DIG + 2)) with (Z.log2 m - sb - 2) by ring.
      replace (N + MANT_DIG + 2 - (Z.log2 m + 1)) with (N - (Z.log2 m - sb - 2)) by ring.
      rewrite sticky_mask by lia. apply as_int_small. lia.
Qed.

Lemma float_round_spec a m : m = uint N a -> 0 < m -> (m < 2 ^ (N - 1) -> a = m) ->
  exists a' e', float_round sg N clzN MANT_DIG a = (a', e') /\ 2 ^ sb <= a' < 2 * 2 ^ sb /\ 0 <= e' <= N /\
    rounds_to (m * 2 ^ unitExp) 1 ((e' + exponentBias) * 2 ^ sb + (a' - 2 ^ sb)).
Proof.
  intros Em Hm Ha. pose proof exponentBits_bounds as B.
  assert (Um : 0 < m < 2 ^ N) by (pose proof (uint_range N a ltac:(lia)) as U; unfold is_uint in U; lia).
  pose proof (log2_lt_width N m Um) as LW. pose proof sig_pow_pos as Ps.
  assert (PB : 2 * 2 ^ sb * 8 <= 2 ^ (N - 1)).
  { change 8 with (2 ^ 3). rewrite <- Z.pow_succ_r, <- pow2_split by lia. apply Z.pow_le_mono_r; lia. }
  assert (PN : 2 ^ N = 2 * 2 ^ (N - 1)) by (apply pow2_S; lia).
  unfold float_round. rewrite <- Em, (Hclz m Um). unfold clz. replace (N - (N - 1 - Z.log2 m)) with (Z.log2 m + 1) by ring.
  rewrite Z.gtb_ltb. destruct (Z.ltb_spec MANT_DIG (Z.log2 m + 1)) as [C|C].
  - pose proof (float_round_switch a m Em Hm Ha C) as SW. cbv zeta in SW. rewrite <- Em in SW. rewrite SW. clear SW.
    destruct (with_pqr_spec m Um ltac:(lia)) as [HS HR]. set (s := with_pqr m) in *. clearbody s.
    destruct (round_pqr s ltac:(lia)) as [A1 A2]. set (a1 := s .| b2z (nonzero (s .& 4))) in *. clearbody a1.
    rewrite (as_int_small (a1 + 1)) by lia. rewrite shr_spec by lia. change (2 ^ 2) with 4. rewrite A2.
    unfold round_nearest in HR. change (2 ^ (2 - 1)) with 2 in HR.
    assert (Hq : 2 ^ sb <= s / 4 < 2 * 2 ^ sb) by (split; [apply Z.div_le_lower_bound|apply Z.div_lt_upper_bound]; lia).
    set (q := s / 4) in *. clearbody q.
    assert (Pa : ((Z.log2 m + exponentBias - 1) * 2 ^ sb + q) mod 2 = q mod 2).
    { rewrite (pow2_S sb) by lia. replace ((Z.log2 m + exponentBias - 1) * (2 * 2 ^ (sb - 1)) + q)
        with (q + ((Z.log2 m + exponentBias - 1) * 2 ^ (sb - 1)) * 2) by ring. apply Z_mod_plus_full. }
    rewrite Pa in HR. set (inc := if 2 <? s mod 4 then 1 else if s mod 4 =? 2 then q mod 2 else 0) in *.
    assert (Hi : 0 <= inc <= 1) by (unfold inc; pose proof (Z.mod_pos_bound q 2); repeat case_cmp; lia). clearbody inc.
    rewrite uint_small by (unfold is_uint; lia). rewrite ushl_spec, Z.mul_1_l, Z.add_simpl_r by lia.
    assert (P1 : 2 ^ MANT_DIG = 2 * 2 ^ sb) by (rewrite Z.pow_add_r by lia; lia).
    rewrite (uint_small N (2 ^ MANT_DIG)) by (unfold is_uint; lia).
    rewrite <- Z.add_assoc in HR. destruct (Z.eq_dec (q + inc) (2 * 2 ^ sb)) as [T|T].
    + rewrite T, <- P1, Z.land_diag. unfold nonzero. destruct (Z.eqb_spec (2 ^ MANT_DIG) 0); [lia|]. cbn [negb].
      rewrite shr_spec, P1, (Z.mul_comm 2) by lia. change (2 ^ 1) with 2. rewrite Z.div_mul by lia.
      eexists _, _. split; [reflexivity|]. split; [lia|]. split; [lia|]. rewrite T in HR.
      replace ((Z.log2 m + 1 + exponentBias) * 2 ^ sb + (2 ^ sb - 2 ^ sb)) with ((Z.log2 m + exponentBias - 1) * 2 ^ sb + 2 * 2 ^ sb) by ring.
      exact HR.
    + replace (Z.land (q + inc) (2 ^ MANT_DIG)) with 0.
      2:{ symmetry. rewrite <- (Z.mod_small (q + inc) (2 ^ MANT_DIG)) by lia. apply Z.bits_inj'. intros i Hi'.
          rewrite Z.land_spec, Z.bits_0, Z.pow2_bits_eqb by lia. destruct (Z.eqb_spec MANT_DIG i) as [<-|]; [|apply andb_false_r].
          now rewrite Z.mod_pow2_bits_high by lia. }
      cbn [nonzero negb Z.eqb]. eexists _, _. split; [reflexivity|]. split; [lia|]. split; [lia|].
      replace ((Z.log2 m + exponentBias) * 2 ^ sb + (q + inc - 2 ^ sb)) with ((Z.log2 m + exponentBias - 1) * 2 ^ sb + (q + inc)) by ring.
      exact HR.
  - assert (HLb : Z.log2 m <= exponentBias) by lia.
    destruct (left_shift_exact m Hm HLb) as [Hq Hr]; [lia|]. cbv zeta in Hq, Hr.
    assert (a = m) as ->.
    { apply Ha. destruct (log2_bounds m Hm) as [_ U]. apply Z.lt_le_trans with (1 := U).
      rewrite <- Z.pow_succ_r by lia. apply Z.pow_le_mono_r; lia. }
    replace (MANT_DIG - (Z.log2 m + 1)) with (sb - Z.log2 m) by ring.
    rewrite Z.shiftl_mul_pow2, as_int_small by lia. eexists _, _. split; [reflexivity|]. split; [lia|]. split; [lia|].
    rewrite Z.add_simpl_r. replace ((Z.log2 m + exponentBias) * 2 ^ sb + (m * 2 ^ (sb - Z.log2 m) - 2 ^ sb))
      with ((Z.log2 m + exponentBias - 1) * 2 ^ sb + m * 2 ^ (sb - Z.log2 m)) by ring. exact Hr.
Qed.

(** The sign and magnitude of a signed argument: INT_MIN stays as it is. *)
Lemma float_sign_spec a : (if sg then is_sint N a else is_uint N a) -> a <> 0 ->
  exists a', float_sign sg N a = (if a <? 0 then -1 else 0, a') /\ uint N a' = Z.abs a /\ (Z.abs a < 2 ^ (N - 1) -> a' = Z.abs a).
Proof.
  intros Ra Na. pose proof exponentBits_bounds as B. assert (PN : 2 ^ N = 2 * 2 ^ (N - 1)) by (apply pow2_S; lia).
  unfold float_sign. destruct sg.
  - rewrite (shr_sign N a) by (lia || assumption). eexists. split; [reflexivity|].
    unfold ssub. rewrite (cond_negate a (a <? 0)).
    replace (if a <? 0 then - a else a) with (Z.abs a) by (case_cmp; lia). unfold is_sint in Ra.
    rewrite uint_sint, uint_small by (unfold is_uint; lia). split; [reflexivity|].
    intros L. apply sint_small; [lia|unfold is_sint; lia].
  - unfold is_uint in Ra. exists a. rewrite (proj2 (Z.ltb_ge a 0)) by lia. split; [reflexivity|].
    rewrite uint_small by (unfold is_uint; lia). split; lia.
Qed.
End FloatRoundSpec.

(** ** Packing *)

(** The sign, exponent and significand fields of one word. *)
Lemma pack_fields w t (n : bool) E m : 0 <= t -> 0 < w -> 0 <= E -> 0 <= m < 2 ^ t -> E * 2 ^ t + 2 ^ t <= 2 ^ (w - 1) ->
  Z.lor (Z.lor (if n then 2 ^ (w - 1) else 0) (E * 2 ^ t)) m = (if n then 2 ^ (w - 1) else 0) + E * 2 ^ t + m.
Proof.
  intros Ht Hw HE Hm B. pose proof (pow2_pos t Ht). rewrite <- Z.lor_assoc, (lor_add_disjoint E m t) by lia.
  destruct n; [|rewrite Z.lor_0_l; lia].
  rewrite <- (Z.mul_1_l (2 ^ (w - 1))). rewrite lor_add_disjoint by lia. lia.
Qed.

(** A significand [a] with its leading bit, over two words. *)
Lemma pack_words w t (n : bool) E a : 0 <= t -> 0 < w -> 0 <= E -> 2 ^ (t + w) <= a < 2 * 2 ^ (t + w) ->
  E * 2 ^ t + 2 ^ t <= 2 ^ (w - 1) ->
  (Z.lor (Z.lor (if n then 2 ^ (w - 1) else 0) (E * 2 ^ t)) ((a / 2 ^ w) mod 2 ^ t)) * 2 ^ w + a mod 2 ^ w
  = (if n then 2 ^ (2 * w - 1) else 0) + (E * 2 ^ (t + w) + (a - 2 ^ (t + w))).
Proof.
  intros Ht Hw HE Ha B. pose proof (pow2_pos t Ht) as Pt. pose proof (pow2_pos w ltac:(lia)) as Pw.
  rewrite pow2_split in * by lia. assert (Hh : 2 ^ t <= a / 2 ^ w < 2 * 2 ^ t).
  { split; [apply Z.div_le_lower_bound|apply Z.div_lt_upper_bound]; lia. }
  assert (Em : (a / 2 ^ w) mod 2 ^ t = a / 2 ^ w - 2 ^ t) by (symmetry; apply Z.mod_unique with 1; lia).
  rewrite Em, pack_fields by lia. pose proof (Z.div_mod a (2 ^ w) ltac:(lia)).
  assert (Pn : (if n then 2 ^ (2 * w - 1) else 0) = (if n then 2 ^ (w - 1) else 0) * 2 ^ w).
  { destruct n; [|lia]. rewrite <- pow2_split by lia. f_equal. lia. }
  rewrite Pn. lia.
Qed.

(** The sign word [s] is 0 or all ones. *)
Lemma sign_word w (n : bool) : 0 < w -> uint w (if n then -1 else 0) .& 2 ^ (w - 1) = if n then 2 ^ (w - 1) else 0.
Proof.
  intros Hw. destruct n; [|now rewrite uint_small by (unfold is_uint; pose_pow2; lia)].
  assert (P : 2 ^ w = 2 * 2 ^ (w - 1)) by (apply pow2_S; lia). pose proof (pow2_pos (w - 1) ltac:(lia)).
  replace (uint w (-1)) with (2 ^ w - 1).
  - rewrite Z.land_comm, land_ones_mod by lia. apply Z.mod_small. lia.
  - symmetry. apply uint_of_eqm; [unfold is_uint; lia|]. replace (2 ^ w - 1) with (-1 + 2 ^ w) by ring.
    rewrite eqm_pow. now rewrite Z.add_0_r.
Qed.

Section PackSpec.
Context (sg : bool) (N : Z) (clzN : Z -> Z).
Hypotheses (Hclz : forall m, 0 < m < 2 ^ N -> clzN m = clz N m).
Definition is_int (a : Z) : Prop := if sg then is_sint N a else is_uint N a.

Lemma float_sf_spec a : 28 <= N <= 128 -> is_int a -> @converts single_precision a (float_sf sg N clzN a).
Proof.
  intros HN Ra. unfold float_sf. destruct (Z.eqb_spec a 0) as [->|Na]; [apply converts_zero|].
  destruct (@float_sign_spec single_precision sg N ltac:(exact (proj1 HN)) a Ra Na) as (a0 & -> & E0 & E1).
  destruct (@float_round_spec single_precision sg N clzN ltac:(exact (proj1 HN)) ltac:(exact (proj2 HN)) Hclz a0 (Z.abs a))
    as (a' & e & Er & Ha & He & HR); [auto|lia|auto|].
  change (@significandBits single_precision) with 23 in *. change (23 + 1) with 24 in *. rewrite Er.
  change (@exponentBias single_precision) with 127 in *.
  assert (I : (e + 127) * 2 ^ 23 + (a' - 2 ^ 23) <= 255 * 2 ^ 23) by (exact (proj2 (proj1 HR))).
  change 0x80000000 with (2 ^ (32 - 1)). rewrite sign_word, sshl_spec, uint_sint by lia.
  rewrite uint_small by (unfold is_uint; lia). change 0x007FFFFF with (2 ^ 23 - 1). rewrite land_ones_mod by lia.
  replace (uint 32 a' mod 2 ^ 23) with (a' - 2 ^ 23).
  2:{ rewrite uint_small by (unfold is_uint; lia). apply Z.mod_unique with 1; lia. }
  rewrite (pack_fields 32 23) by lia. rewrite <- Z.add_assoc.
  replace ((if a <? 0 then 2 ^ (32 - 1) else 0) + ((e + 127) * 2 ^ 23 + (a' - 2 ^ 23)))
    with (@with_sign single_precision (a <? 0) ((e + 127) * 2 ^ 23 + (a' - 2 ^ 23))) by (destruct (a <? 0); reflexivity).
  now apply converts_intro.
Qed.

Lemma float_df_spec a : 57 <= N <= 128 -> is_int a -> @converts double_precision a (float_df sg N clzN a).
Proof.
  intros HN Ra. unfold float_df. destruct (Z.eqb_spec a 0) as [->|Na]; [apply converts_zero|].
  destruct (@float_sign_spec double_precision sg N ltac:(exact (proj1 HN)) a Ra Na) as (a0 & -> & E0 & E1).
  assert (HB : N <= @exponentBias double_precision + 1) by (change (@exponentBias double_precision) with 1023; lia).
  destruct (@float_round_spec double_precision sg N clzN ltac:(exact (proj1 HN)) HB Hclz a0 (Z.abs a))
    as (a' & e & Er & Ha & He & HR); [auto|lia|auto|].
  change (@significandBits double_precision) with (20 + 32) in *. change (20 + 32 + 1) with 53 in *. rewrite Er.
  change (@exponentBias double_precision) with 1023 in *.
  change 0x80000000 with (2 ^ (32 - 1)). rewrite sign_word, ushl_spec, shr_spec by lia.
  rewrite (uint_small 32 ((e + 1023) * 2 ^ 20)) by (unfold is_uint; lia). change 0x000FFFFF with (2 ^ 20 - 1). rewrite land_ones_mod by lia.
  rewrite (uint_small 32 (a' / 2 ^ 32)) by (split; [apply Z.div_pos|apply Z.div_lt_upper_bound]; lia).
  unfold uint at 1. rewrite (pack_words 32 20) by lia. change (2 * 32 - 1) with (@typeWidth double_precision - 1).
  replace ((if a <? 0 then 2 ^ (@typeWidth double_precision - 1) else 0) + ((e + 1023) * 2 ^ (20 + 32) + (a' - 2 ^ (20 + 32))))
    with (@with_sign double_precision (a <? 0) ((e + 1023) * 2 ^ (20 + 32) + (a' - 2 ^ (20 + 32)))) by (destruct (a <? 0); reflexivity).
  now apply converts_intro.
Qed.

Lemma float_ld_spec a : 117 <= N <= 128 -> is_int a -> @converts quad_precision a (float_ld sg N clzN a).
Proof.
  intros HN Ra. unfold float_ld. destruct (Z.eqb_spec a 0) as [->|Na]; [apply converts_zero|].
  destruct (@float_sign_spec quad_precision sg N ltac:(exact (proj1 HN)) a Ra Na) as (a0 & -> & E0 & E1).
  assert (HB : N <= @exponentBias quad_precision + 1) by (change (@exponentBias quad_precision) with 16383; lia).
  destruct (@float_round_spec quad_precision sg N clzN ltac:(exact (proj1 HN)) HB Hclz a0 (Z.abs a))
    as (a' & e & Er & Ha & He & HR); [auto|lia|auto|].
  change (@significandBits quad_precision) with (48 + 64) in *. change (48 + 64 + 1) with 113 in *. rewrite Er.
  change (@exponentBias quad_precision) with 16383 in *.
  change 0x8000000000000000 with (2 ^ (64 - 1)). rewrite sign_word, ushl_spec, shr_spec by lia.
  rewrite (uint_small 64 ((e + 16383) * 2 ^ 48)) by (unfold is_uint; lia). change 0x0000ffffffffffff with (2 ^ 48 - 1). rewrite land_ones_mod by lia.
  rewrite (uint_small 64 ((a' / 2 ^ 64) mod 2 ^ 48)) by (pose proof (Z.mod_pos_bound (a' / 2 ^ 64) (2 ^ 48)); unfold is_uint; lia).
  unfold uint at 1. rewrite (pack_words 64 48) by lia. change (2 * 64 - 1) with (@typeWidth quad_precision - 1).
  replace ((if a <? 0 then 2 ^ (@typeWidth quad_precision - 1) else 0) + ((e + 16383) * 2 ^ (48 + 64) + (a' - 2 ^ (48 + 64))))
    with (@with_sign quad_precision (a <? 0) ((e + 16383) * 2 ^ (48 + 64) + (a' - 2 ^ (48 + 64)))) by (destruct (a <? 0); reflexivity).
  now apply converts_intro.
Qed.
End PackSpec.

Lemma clz128_spec m : 0 < m < 2 ^ 128 -> clz128 m = clz 128 m.
Proof.
  intros Hm. unfold clz128, __clzti2. assert (U : uint 128 (sint 128 m) = m) by (rewrite uint_sint; apply uint_small; unfold is_uint; lia).
  assert (sint 128 m <> 0) by (intros E; rewrite E in U; change (uint 128 0) with 0 in U; lia).
  rewrite (clzXi2_spec 64) by (lia || assumption || (apply sint_range; lia)).
  change (2 * 64) with 128. now rewrite U.
Qed.

(** The conversions that shift: the magnitude and the sign they pass on. *)
Section ShiftSpec.
Context `{FpFormat}.

Lemma float_shift_converts w a m (n : bool) : n = (a <? 0) -> m = Z.abs a -> a <> 0 -> Z.abs a < 2 ^ typeWidth -> Z.log2 (Z.abs a) <= exponentBias ->
  converts a (float_shift w m (if n then signBit else 0)).
Proof.
  intros En -> Na Ha HL. destruct (float_shift_spec w (Z.abs a) n) as (r & -> & Hr); [lia|exact HL|]. now apply converts_intro.
Qed.

Lemma float_exact_converts w a m (n : bool) : n = (a <? 0) -> m = Z.abs a -> a <> 0 -> Z.log2 (Z.abs a) <= significandBits ->
  significandBits <= exponentBias -> converts a (float_exact w m (if n then signBit else 0)).
Proof.
  intros En -> Na HL Hb. pose proof exponentBits_bounds as B. rewrite float_exact_shift by lia.
  apply float_shift_converts; [assumption|reflexivity|assumption| |lia].
  destruct (log2_bounds (Z.abs a) ltac:(lia)) as [_ U]. apply Z.lt_le_trans with (1 := U).
  pose proof (Z.log2_nonneg (Z.abs a)). rewrite <- Z.pow_succ_r by lia. apply Z.pow_le_mono_r; lia.
Qed.
End ShiftSpec.

Lemma abs_log2 w a : 0 < w -> a <> 0 -> is_sint w a \/ is_uint w a -> 0 <= Z.log2 (Z.abs a) <= w - 1 /\ Z.abs a < 2 ^ w.
Proof.
  intros Hw Na R. assert (P : 2 ^ w = 2 * 2 ^ (w - 1)) by (apply pow2_S; lia). pose proof (pow2_pos (w - 1) ltac:(lia)).
  assert (0 < Z.abs a < 2 ^ w) as U by (unfold is_sint, is_uint in R; lia). apply log2_lt_width in U as L. lia.
Qed.

(** [-a] of a negative signed word, reread as unsigned, is the magnitude. *)
Lemma neg_magnitude w a : 0 < w -> is_sint w a -> a < 0 ->
  uint w (sopp w a) = Z.abs a /\ unot w (uint w a) +[w] 1 = Z.abs a.
Proof.
  intros Hw R Na. assert (P : 2 ^ w = 2 * 2 ^ (w - 1)) by (apply pow2_S; lia). unfold is_sint in R. split.
  - unfold sopp. rewrite uint_sint. replace (- a) with (Z.abs a) by lia. apply uint_small. unfold is_uint. lia.
  - apply uint_of_eqm; [unfold is_uint; lia|]. unfold unot. rewrite uint_eqm. replace (Z.lnot (uint w a) + 1) with (- uint w a) by (unfold Z.lnot; lia).
    rewrite uint_eqm. now replace (Z.abs a) with (- a) by lia.
Qed.

(** The integers of 32 and 64 bits, by the routines that shift. *)
Lemma signed_shift_converts a :
  (is_sint 32 a -> @converts single_precision a (__floatsisf a) /\ @converts double_precision a (__floatsidf a)) /\
  (forall w, 0 < w <= 64 -> is_sint w a -> @converts quad_precision a (float_tf w a)).
Proof.
  destruct (Z.eq_dec a 0) as [->|Na]; [split; intros; [split|]; apply converts_zero|].
  unfold __floatsisf, __floatsidf, float_tf. rewrite (proj2 (Z.eqb_neq a 0) Na). split; [intros R; split|intros w Hw R].
  1,2: destruct (abs_log2 32 a ltac:(lia) Na (or_introl R)) as [L V];
    assert (M : uint 32 (if a <? 0 then sopp 32 a else a) = Z.abs a)
      by (case_cmp; [apply neg_magnitude; (lia || assumption)|rewrite uint_small; unfold is_uint; lia]).
  - replace (if a <? 0 then _ else _) with (if a <? 0 then @signBit single_precision else 0, if a <? 0 then sopp 32 a else a) by (now destruct (a <? 0)).
    apply float_shift_converts; try assumption; [reflexivity|]. change (@exponentBias single_precision) with 127. lia.
  - replace (if a <? 0 then _ else _) with (if a <? 0 then @signBit double_precision else 0, if a <? 0 then sopp 32 a else a) by (now destruct (a <? 0)).
    apply float_exact_converts; try assumption; [reflexivity| |]; [change (@significandBits double_precision) with 52; lia|vm_compute; discriminate].
  - destruct (abs_log2 w a ltac:(lia) Na (or_introl R)) as [L V].
    assert (M : (if a <? 0 then unot w (uint w a) +[w] 1 else uint w a) = Z.abs a)
      by (case_cmp; [apply neg_magnitude; (lia || assumption)|rewrite uint_small; unfold is_uint; lia]).
    replace (if a <? 0 then _ else _) with (if a <? 0 then @signBit quad_precision else 0, if a <? 0 then unot w (uint w a) +[w] 1 else uint w a) by (now destruct (a <? 0)).
    apply float_exact_converts; try assumption; [reflexivity| |]; [change (@significandBits quad_precision) with 112; lia|vm_compute; discriminate].
Qed.

Lemma unsigned_shift_converts a :
  (is_uint 32 a -> @converts single_precision a (__floatunsisf a) /\ @converts double_precision a (__floatunsidf a) /\
     @converts quad_precision a (__floatunsitf a)) /\
  (is_uint 64 a -> @converts quad_precision a (__floatunditf a)).
Proof.
  destruct (Z.eq_dec a 0) as [->|Na]; [split; intros; [split; [|split]|]; apply converts_zero|].
  unfold __floatunsisf, __floatunsidf, __floatunsitf, __floatunditf. rewrite (proj2 (Z.eqb_neq a 0) Na).
  assert (G : forall w, 0 < w -> is_uint w a -> false = (a <? 0) /\ a = Z.abs a /\ 0 <= Z.log2 (Z.abs a) <= w - 1 /\ Z.abs a < 2 ^ w).
  { intros w Hw R. pose proof (abs_log2 w a Hw Na (or_intror R)). unfold is_uint in R. split; [symmetry; apply Z.ltb_ge; lia|]. lia. }
  split; intros R; [destruct (G 32 ltac:(lia) R) as (S & M & L & V)|destruct (G 64 ltac:(lia) R) as (S & M & L & V)]; [split; [|split]|].
  - apply (@float_shift_converts single_precision 32 a a false); try assumption. change (@exponentBias single_precision) with 127. lia.
  - apply (@float_exact_converts double_precision 32 a a false); try assumption; [|vm_compute; discriminate]. change (@significandBits double_precision) with 52. lia.
  - apply (@float_exact_converts quad_precision 32 a a false); try assumption; [|vm_compute; discriminate]. change (@significandBits quad_precision) with 112. lia.
  - apply (@float_exact_converts quad_precision 64 a a false); try assumption; [|vm_compute; discriminate]. change (@significandBits quad_precision) with 112. lia.
Qed.

(** C32: the conversions of the six integer types to the three formats
    ([__floatsisf] ... [__floatuntitf]) are correctly rounded: the result has
    the sign of the integer and is the number nearest to it, ties to even
    (infinity for the 128-bit integers beyond the largest float).  INT_MIN,
    whose negation does not fit its type, is included. *)
Theorem int_to_float_rounded a :
  (is_sint 32 a -> @converts single_precision a (__floatsisf a) /\
     @converts double_precision a (__floatsidf a) /\ @converts quad_precision a (__floatsitf a)) /\
  (is_uint 32 a -> @converts single_precision a (__floatunsisf a) /\
     @converts double_precision a (__floatunsidf a) /\ @converts quad_precision a (__floatunsitf a)) /\
  (is_sint 64 a -> @converts single_precision a (__floatdisf a) /\
     @converts double_precision a (__floatdidf a) /\ @converts quad_precision a (__floatditf a)) /\
  (is_uint 64 a -> @converts single_precision a (__floatundisf a) /\
     @converts double_precision a (__floatundidf a) /\ @converts quad_precision a (__floatunditf a)) /\
  (is_sint 128 a -> @converts single_precision a (__floattisf a) /\
     @converts double_precision a (__floattidf a) /\ @converts quad_precision a (__floattitf a)) /\
  (is_uint 128 a -> @converts single_precision a (__floatuntisf a) /\
     @converts double_precision a (__floatuntidf a) /\ @converts quad_precision a (__floatuntitf a)).
Proof.
  assert (C64 : forall m, 0 < m < 2 ^ 64 -> clz64 m = clz 64 m) by reflexivity.
  pose proof clz128_spec as C128.
  destruct (signed_shift_converts a) as [S32 S64]. destruct (unsigned_shift_converts a) as [U32 U64].
  split; [intros R; destruct (S32 R); split; [assumption|split; [assumption|apply S64; (lia || exact R)]]|].
  split; [exact U32|].
  split; [|split; [|split]]; intros R; (split; [apply float_sf_spec; assumption || lia|
    split; [apply float_df_spec; assumption || lia|
      first [apply S64; (lia || exact R)|apply U64; exact R|apply float_ld_spec; assumption || lia]]]).
Qed.

Lemma int_to_float_rounded_witness : is_sint 64 (- 2 ^ 63) /\ @converts single_precision (- 2 ^ 63) (__floatdisf (- 2 ^ 63)) /\
  __floatdisf (- 2 ^ 63) = 0xdf000000.
Proof.
  assert (R : is_sint 64 (- 2 ^ 63)) by (split; vm_compute; congruence). split; [exact R|]. split; [|vm_compute; reflexivity].
  destruct (int_to_float_rounded (- 2 ^ 63)) as (_ & _ & C & _). exact (proj1 (C R)).
Defined.
