(* ===== verification/TaseRuntime.v ===== *)
(** * The TASE runtime: target context, injection, ejection and the harness

    Models [test/tase/include/tase/tase_interp.h] (the target context and its
    layout), [test/tase/common.c], the control part of [test/tase/log.c] and
    [test/tase/harness.c].  The assembly side, which runs between
    [tase_inject] and [tase_eject], is in [Springboard].

    Addresses chosen by the linker are parameters ([CTX] is [&target_ctx]).
    What is printed is not modelled; a call to [exit] is [None]. *)

From S2P Require Import Prelude.

(** ** The target context *)

Definition PAGE_SIZE : Z := 4096.
Definition STACK_SIZE : Z := PAGE_SIZE * 8192.
Definition CTX_STACK_SENTINEL : Z := 0x1BADF00D4DADB0D1.
Definition POISON_REFERENCE64 : Z := 0xDEADDEADDEADDEAD.

Definition GREG_RAX : Z := 0.
Definition GREG_RBP : Z := 6.
Definition GREG_RSP : Z := 7.
Definition GREG_R14 : Z := 14.
Definition GREG_R15 : Z := 15.
Definition GREG_RIP : Z := 16.
Definition GREG_EFL : Z := 17.
Definition TASE_NGREG : Z := 18.
Definition NXMMREG : Z := 16.
Definition REG_REFERENCE : Z := 13.
Definition REG_ACCUMULATOR : Z := 14.
Definition REG_DATA : Z := 15.

Definition SB_FLAG_LOGABORT_BASIC : Z := 1.
Definition SB_FLAG_LOGABORT_STACK : Z := 2.
Definition TSX_XABORT : Z := 0.
Definition TSX_NESTED : Z := 5.
Definition TSX_NUM_CODES : nat := 6.
Definition TSX_XABORT_MASK : Z := 0xFF000000.
Definition MAX_ABORT_COUNT : Z := 0.

(** A register file, an array of qwords, a memory: total, indexed by number. *)
Definition file := Z -> Z.
Definition upd (f : file) (k v : Z) : file := fun i => if i =? k then v else f i.

Record target_ctx_t := mkCtx {
  target_stack : file;             (* qword at a byte offset *)
  target_exit_addr : Z;
  sentinel : file;
  xmmregs : file;                  (* 128-bit values *)
  gregs : file;
  interpreter_stack : Z;
  abort_status : Z;
  last_abort_status : Z;
  status : Z;
  abort_counts : list Z;
  abort_count_modeled : Z;
  abort_count_poison : Z;
  abort_count_unknown : Z;
  abort_count_total : Z
}.

(** [memset(&target_ctx, 0, sizeof(target_ctx))] *)
Definition zero_ctx : target_ctx_t :=
  mkCtx (fun _ => 0) 0 (fun _ => 0) (fun _ => 0) (fun _ => 0) 0 0 0 0 (repeat 0 TSX_NUM_CODES) 0 0 0 0.

Definition set_gregs (c : target_ctx_t) (g : file) : target_ctx_t :=
  mkCtx (target_stack c) (target_exit_addr c) (sentinel c) (xmmregs c) g (interpreter_stack c) (abort_status c)
    (last_abort_status c) (status c) (abort_counts c) (abort_count_modeled c) (abort_count_poison c)
    (abort_count_unknown c) (abort_count_total c).
Definition set_greg (c : target_ctx_t) (r v : Z) : target_ctx_t := set_gregs c (upd (gregs c) r v).
Definition set_abort (c : target_ctx_t) (st last : Z) : target_ctx_t :=
  mkCtx (target_stack c) (target_exit_addr c) (sentinel c) (xmmregs c) (gregs c) (interpreter_stack c) st
    last (status c) (abort_counts c) (abort_count_modeled c) (abort_count_poison c)
    (abort_count_unknown c) (abort_count_total c).
Definition set_counts (c : target_ctx_t) (counts : list Z) (md po un tot : Z) : target_ctx_t :=
  mkCtx (target_stack c) (target_exit_addr c) (sentinel c) (xmmregs c) (gregs c) (interpreter_stack c) (abort_status c)
    (last_abort_status c) (status c) counts md po un tot.

(** The springboard routines [tase_springboard] and [tase_model] point to. *)
Inductive sb_routine := sb_null | sb_open | sb_reopen | sb_disabled | sb_modeled.

(** The globals of [common.c], [log.c] and [springboard.S]. *)
Record globals := mkGlobals {
  target_ctx : target_ctx_t;
  tase_springboard : sb_routine;
  tase_model : sb_routine;
  tase_modeled_return : Z;
  tran_ctr : Z;
  tran_max : Z;
  saved_rax : Z;
  abort_count : Z
}.

Definition with_ctx (g : globals) (c : target_ctx_t) : globals :=
  mkGlobals c (tase_springboard g) (tase_model g) (tase_modeled_return g) (tran_ctr g) (tran_max g) (saved_rax g) (abort_count g).
Definition with_springboard (g : globals) (s : sb_routine) : globals :=
  mkGlobals (target_ctx g) s (tase_model g) (tase_modeled_return g) (tran_ctr g) (tran_max g) (saved_rax g) (abort_count g).

(** ** Injection and ejection *)

Section Runtime.
Context (CTX exit_tase_shim : Z).

(** [enter_tase] up to its call of [tase_inject]. *)
Definition enter_tase_init (fun_ : Z) (g : globals) : globals :=
  let rsp := CTX + (STACK_SIZE - 24) in
  let gr := upd (upd (upd (fun _ => 0) GREG_RIP fun_) GREG_RSP rsp) GREG_RBP (rsp +[64] 8) in
  let ref := POISON_REFERENCE64 .| Z.shiftl POISON_REFERENCE64 64 in
  let c := mkCtx (fun _ => 0) exit_tase_shim (fun i => if (i =? 0) || (i =? 1) then CTX_STACK_SENTINEL else 0)
             (upd (fun _ => 0) REG_REFERENCE ref) gr 0 0 0 0 (repeat 0 TSX_NUM_CODES) 0 0 0 0 in
  mkGlobals c (tase_springboard g) sb_modeled (tase_modeled_return g) (tran_ctr g) (tran_max g) (saved_rax g) (abort_count g).

(** [tase_inject] up to [setjmp]. *)
Definition inject_setup (enable_tase : bool) (g : globals) : globals :=
  let sb := if enable_tase && negb (nonzero (tase_modeled_return g)) then sb_open else sb_disabled in
  let c := target_ctx g in
  let c := set_abort c 0 (abort_status c) in
  let c := set_greg c GREG_R15 (gregs c GREG_RIP) in
  with_ctx (with_springboard g sb) c.

(** [tase_tranlog]: what it prints is left out. *)
Definition tase_tranlog (g : globals) : option globals :=
  let n := abort_count g +[32] 1 in
  let g := mkGlobals (target_ctx g) (tase_springboard g) (tase_model g) (tase_modeled_return g) (tran_ctr g) (tran_max g) (saved_rax g) n in
  if (nonzero MAX_ABORT_COUNT && (n >? MAX_ABORT_COUNT)) || nonzero (status (target_ctx g) .& SB_FLAG_LOGABORT_STACK)
  then None else Some g.

(** [abort_counts[i] += abort_status & 1; abort_status >>= 1;] *)
Fixpoint count_codes (counts : list Z) (st : Z) : list Z :=
  match counts with
  | [] => []
  | c :: rest => (c +[32] (st .& 1)) :: count_codes rest (st >>[32] 1)
  end.

(** [tase_eject] up to [longjmp]. *)
Definition tase_eject (g : globals) : option globals :=
  let c := target_ctx g in
  let c := set_greg c GREG_RIP (gregs c GREG_R15) in
  let st := abort_status c in
  let total := abort_count_total c +[32] 1 in
  let '(md, po, un) :=
    if (st .& 0xff) =? 0 then (abort_count_modeled c, abort_count_poison c, abort_count_unknown c +[32] 1)
    else if nonzero (st .& Z.shiftl 1 TSX_XABORT) then
      if nonzero (st .& TSX_XABORT_MASK) then (abort_count_modeled c +[32] 1, abort_count_poison c, abort_count_unknown c)
      else (abort_count_modeled c, abort_count_poison c +[32] 1, abort_count_unknown c)
    else (abort_count_modeled c, abort_count_poison c, abort_count_unknown c) in
  let c := set_counts c (count_codes (abort_counts c) st) md po un total in
  let g := with_ctx g c in
  if nonzero (status c .& (SB_FLAG_LOGABORT_BASIC .| SB_FLAG_LOGABORT_STACK)) then tase_tranlog g else Some g.

(** ** The harness

    [session] is what runs from [sb_inject] to the jump into [tase_eject]:
    the target program on the springboard.  [None]: the process ended. *)
Section Harness.
Context (session : globals -> option globals) (exit_tase : Z).
(** The load of a [uint64_t] through a target pointer. *)
Context (load : globals -> Z -> Z).

Definition tase_inject (enable_tase : bool) (g : globals) : option globals :=
  let? g := session (inject_setup enable_tase g) in tase_eject g.

Definition enter_tase (fun_ : Z) (enable_tase : bool) (g : globals) : option globals :=
  tase_inject enable_tase (enter_tase_init fun_ g).

(** [abort_status >> 24 != 1 && abort_status & 0xff != 1]: [!=] binds
    tighter than [&], so the second operand is [abort_status & (0xff != 1)]. *)
Definition bad_return (st : Z) : bool :=
  negb (st >>[32] 24 =? 1) && nonzero (st .& b2z (negb (0xff =? 1))).

(** One turn of the [while] loop of [run_target]. *)
Definition run_target_turn (enable : bool) (g : globals) : option globals :=
  let c := target_ctx g in
  if bad_return (abort_status c) then None
  else
    let c := set_greg c GREG_RIP (load g (gregs c GREG_RSP)) in
    let c := set_greg c GREG_RSP (gregs c GREG_RSP +[64] 8) in
    tase_inject enable (with_ctx g c).

Definition at_exit (g : globals) : bool :=
  let rip := gregs (target_ctx g) GREG_RIP in
  negb ((rip <? exit_tase) || (rip >? exit_tase +[64] 64)).

(** The loop, for at most [fuel] turns. *)
Fixpoint run_target_loop (fuel : nat) (enable : bool) (g : globals) : option globals :=
  if at_exit g then Some g
  else match fuel with
       | O => None
       | S fuel => let? g := run_target_turn enable g in run_target_loop fuel enable g
       end.

Definition run_target (fuel : nat) (f : Z) (enable : bool) (g : globals) : option globals :=
  let? g := enter_tase f enable g in run_target_loop fuel enable g.
End Harness.
End Runtime.

(** [tase_walk_pages]: the indices of [buffer] it writes, in order. *)
Fixpoint walk_from (fuel : nat) (i : Z) : list Z :=
  match fuel with
  | O => []
  | S fuel => if i >=? 0 then i :: walk_from fuel (sint 32 (uint 64 i -[64] 4096 / 4)) else []
  end.
Definition tase_walk_pages : list Z := walk_from (Z.to_nat 8193) ((STACK_SIZE - 4096) / 4).

(** ** Layout

    The assembly reaches the fields of [target_ctx] by the [CTX_OFFSET_*]
    macros, the C code by the structure: that the two agree is the subject of
    [ContextLayout]. *)

Definition CTX_OFFSET_TARGET_EXIT_ADDR : Z := STACK_SIZE - 24.
Definition CTX_OFFSET_SENTINEL1 : Z := STACK_SIZE - 16.
Definition CTX_OFFSET_SENTINEL2 : Z := STACK_SIZE - 8.
Definition CTX_OFFSET_XMMREGS : Z := STACK_SIZE.
Definition CTX_OFFSET_XMMREG (n : Z) : Z := n * 16 + CTX_OFFSET_XMMREGS.
Definition CTX_OFFSET_GREGS : Z := CTX_OFFSET_XMMREG NXMMREG.
Definition CTX_OFFSET_GREG (n : Z) : Z := n * 8 + CTX_OFFSET_GREGS.
Definition CTX_OFFSET_INTERP_STACK : Z := CTX_OFFSET_GREG TASE_NGREG.
Definition CTX_OFFSET_ABORT_STATUS : Z := 8 + CTX_OFFSET_INTERP_STACK.
Definition CTX_OFFSET_LAST_ABORT_STATUS : Z := 4 + CTX_OFFSET_ABORT_STATUS.
Definition CTX_OFFSET_STATUS : Z := 8 + CTX_OFFSET_ABORT_STATUS.

(** The qword of the context at a byte offset of its stack part. *)
Definition ctx_qword (c : target_ctx_t) (off : Z) : Z :=
  if off =? CTX_OFFSET_TARGET_EXIT_ADDR then target_exit_addr c
  else if off =? CTX_OFFSET_SENTINEL1 then sentinel c 0
  else if off =? CTX_OFFSET_SENTINEL2 then sentinel c 1
  else target_stack c off.

(** The state [enter_tase] injects: the instruction pointer and R15 hold
    the target function; the stack pointer points to a stack whose top is the
    address of [exit_tase_shim] as if it had been pushed by a call (so it is
    8 below a 16-byte boundary), with the two sentinels and the frame pointer
    right above; the reference register holds the poison word in all its
    eight words; no abort is pending; the springboard is open exactly when
    TASE is enabled and no modeled function is about to return. *)
Theorem enter_tase_state CTX exit_tase_shim fun_ enable g : CTX mod PAGE_SIZE = 0 -> 0 <= CTX -> CTX + STACK_SIZE < 2 ^ 64 ->
  let g' := inject_setup enable (enter_tase_init CTX exit_tase_shim fun_ g) in
  let c := target_ctx g' in
  gregs c GREG_RIP = fun_ /\ gregs c GREG_R15 = fun_ /\
  ctx_qword c (gregs c GREG_RSP - CTX) = exit_tase_shim /\ gregs c GREG_RSP mod 16 = 8 /\
  gregs c GREG_RBP = gregs c GREG_RSP + 8 /\
  ctx_qword c (gregs c GREG_RBP - CTX) = CTX_STACK_SENTINEL /\ ctx_qword c (gregs c GREG_RBP + 8 - CTX) = CTX_STACK_SENTINEL /\
  (forall i, 0 <= i < 8 -> Z.shiftr (xmmregs c REG_REFERENCE) (16 * i) .& 0xffff = 0xDEAD) /\
  abort_status c = 0 /\ last_abort_status c = 0 /\ tase_model g' = sb_modeled /\
  (tase_springboard g' = sb_open <-> enable = true /\ tase_modeled_return g = 0).
Proof.
  intros A0 A1 A2. cbv zeta. unfold inject_setup, enter_tase_init, set_greg, set_gregs, set_abort, with_ctx, with_springboard.
  cbn [target_ctx tase_springboard tase_model tase_modeled_return gregs xmmregs abort_status last_abort_status ctx_qword
       target_exit_addr sentinel target_stack].
  assert (SS : STACK_SIZE = 33554432) by reflexivity.
  unfold upd. cbn [Z.eqb GREG_R15 GREG_RIP GREG_RSP GREG_RBP Pos.eqb].
  assert (B : CTX + (STACK_SIZE - 24) +[64] 8 = CTX + (STACK_SIZE - 24) + 8) by (apply uint_small; unfold is_uint; lia).
  rewrite B. repeat match goal with |- _ /\ _ => split end; try reflexivity.
  - unfold ctx_qword, CTX_OFFSET_TARGET_EXIT_ADDR. replace (CTX + (STACK_SIZE - 24) - CTX) with (STACK_SIZE - 24) by ring. now rewrite Z.eqb_refl.
  - replace (CTX + (STACK_SIZE - 24)) with (8 + (CTX / PAGE_SIZE * 256 + 2097150) * 16);
      [now rewrite Z_mod_plus_full|]. pose proof (Z.div_mod CTX PAGE_SIZE ltac:(unfold PAGE_SIZE; lia)). unfold PAGE_SIZE in *. lia.
  - replace (CTX + (STACK_SIZE - 24) + 8 - CTX) with (STACK_SIZE - 16) by ring. reflexivity.
  - replace (CTX + (STACK_SIZE - 24) + 8 + 8 - CTX) with (STACK_SIZE - 8) by ring. reflexivity.
  - intros i Hi. assert (i = 0 \/ i = 1 \/ i = 2 \/ i = 3 \/ i = 4 \/ i = 5 \/ i = 6 \/ i = 7) as C by lia.
    destruct C as [C|[C|[C|[C|[C|[C|[C|C]]]]]]]; rewrite C; reflexivity.
  - unfold nonzero. destruct enable, (Z.eqb_spec (tase_modeled_return g) 0); cbn; split; intros; (easy || tauto).
Qed.

Definition initial_globals : globals := mkGlobals zero_ctx sb_null sb_null 0 0 16 0 0.

Lemma enter_tase_state_witness :
  let g' := inject_setup true (enter_tase_init 0x600000 0x401000 0x400500 initial_globals) in
  gregs (target_ctx g') GREG_RIP = 0x400500 /\ tase_springboard g' = sb_open /\ gregs (target_ctx g') GREG_RSP mod 16 = 8.
Proof.
  destruct (enter_tase_state 0x600000 0x401000 0x400500 true initial_globals) as (A & _ & _ & B & _ & _ & _ & _ & _ & _ & _ & C).
  - reflexivity.
  - lia.
  - reflexivity.
  - split; [exact A|]. split; [apply C; split; reflexivity|exact B].
Defined.

(** ** The abort counters *)

(** How [tase_eject] classifies an abort status word. *)
Definition st_unknown (st : Z) : bool := (st .& 0xff) =? 0.
Definition st_modeled (st : Z) : bool := negb (st_unknown st) && Z.testbit st TSX_XABORT && nonzero (st .& TSX_XABORT_MASK).
Definition st_poison (st : Z) : bool := negb (st_unknown st) && Z.testbit st TSX_XABORT && negb (nonzero (st .& TSX_XABORT_MASK)).
Definition zcount (p : Z -> bool) (l : list Z) : Z := Z.of_nat (length (filter p l)).

(** The rest: an abort by the hardware that gives a reason. *)
Definition st_hardware (st : Z) : bool := negb (st_unknown st) && negb (Z.testbit st TSX_XABORT).

Lemma st_classes st : b2z (st_unknown st) + b2z (st_modeled st) + b2z (st_poison st) + b2z (st_hardware st) = 1.
Proof.
  unfold st_modeled, st_poison, st_hardware.
  destruct (st_unknown st), (Z.testbit st TSX_XABORT), (nonzero (st .& TSX_XABORT_MASK)); reflexivity.
Qed.

(** What the code between two ejections leaves alone: the counters and the
    logging flags. *)
Record keeps_counters (c c' : target_ctx_t) : Prop := {
  kept_total : abort_count_total c' = abort_count_total c;
  kept_unknown : abort_count_unknown c' = abort_count_unknown c;
  kept_modeled : abort_count_modeled c' = abort_count_modeled c;
  kept_poison : abort_count_poison c' = abort_count_poison c;
  kept_counts : abort_counts c' = abort_counts c;
  kept_status : status c' = status c
}.

#[global] Instance keeps_counters_preorder : PreOrder keeps_counters.
Proof. split; [intros c; now split|intros c c' c'' [] []; split; congruence]. Qed.

Lemma land_one st k : 0 <= k -> st .& Z.shiftl 1 k = if Z.testbit st k then 2 ^ k else 0.
Proof.
  intros Hk. rewrite Z.shiftl_1_l. apply Z.bits_inj'. intros i Hi. rewrite Z.land_spec, Z.pow2_bits_eqb by lia.
  destruct (Z.eqb_spec k i) as [<-|N]; destruct (Z.testbit st k) eqn:T; rewrite ?T, ?Z.bits_0, ?Z.pow2_bits_eqb by lia;
    rewrite ?andb_false_r, ?Z.eqb_refl; try reflexivity.
  symmetry. now apply Z.eqb_neq.
Qed.

Lemma count_codes_nth counts st i : is_uint 32 st -> (i < length counts)%nat ->
  nth i (count_codes counts st) 0 = uadd 32 (nth i counts 0) (b2z (Z.testbit st (Z.of_nat i))).
Proof.
  revert st i. induction counts as [|c rest IH]; intros st i Hst Hi; [cbn in Hi; lia|]. destruct i as [|i]; cbn [count_codes nth].
  - f_equal. change 1 with (Z.shiftl 1 0). rewrite land_one by lia. now destruct (Z.testbit st 0) eqn:T; cbn [Z.of_nat]; rewrite T.
  - cbn [length] in Hi. rewrite IH.
    + do 2 f_equal. rewrite shr_spec by lia. change (2 ^ 1) with 2. rewrite Z.div2_bits by lia. f_equal. lia.
    + rewrite shr_spec by lia. unfold is_uint in *. change (2 ^ 1) with 2.
      split; [apply Z.div_pos|apply Z.div_lt_upper_bound]; lia.
    + lia.
Qed.

Lemma count_codes_length counts st : length (count_codes counts st) = length counts.
Proof. revert st. induction counts as [|c rest IH]; intros st; cbn; [reflexivity|]. now rewrite IH. Qed.

(** One ejection. *)
Definition bump (b : bool) (x : Z) : Z := uint 32 (x + b2z b).

Definition ejected_ctx (c : target_ctx_t) : target_ctx_t :=
  let st := abort_status c in
  set_counts (set_greg c GREG_RIP (gregs c GREG_R15)) (count_codes (abort_counts c) st)
    (bump (st_modeled st) (abort_count_modeled c)) (bump (st_poison st) (abort_count_poison c))
    (bump (st_unknown st) (abort_count_unknown c)) (bump true (abort_count_total c)).

Record counters_ok (c : target_ctx_t) : Prop := {
  ok_total : is_uint 32 (abort_count_total c);
  ok_unknown : is_uint 32 (abort_count_unknown c);
  ok_modeled : is_uint 32 (abort_count_modeled c);
  ok_poison : is_uint 32 (abort_count_poison c);
  ok_counts : Forall (is_uint 32) (abort_counts c);
  ok_length : length (abort_counts c) = TSX_NUM_CODES
}.

Lemma keeps_counters_ok c c' : keeps_counters c c' -> counters_ok c -> counters_ok c'.
Proof. intros [] []. split; congruence. Qed.

Lemma tranlog_ctx g g' : tase_tranlog g = Some g' -> target_ctx g' = target_ctx g.
Proof.
  unfold tase_tranlog. case_eq (nonzero MAX_ABORT_COUNT); intros _; destruct (_ || _); intros E; now inversion E.
Qed.

Lemma bump_false x : is_uint 32 x -> bump false x = x.
Proof. intros Hx. unfold bump. cbn [b2z]. rewrite Z.add_0_r. now apply uint_small. Qed.

Lemma tase_eject_ctx g g' : counters_ok (target_ctx g) -> tase_eject g = Some g' -> target_ctx g' = ejected_ctx (target_ctx g).
Proof.
  intros [? ? ? ? _ _] E.
  assert (Log : forall (b : bool) x, (if b then tase_tranlog x else Some x) = Some g' -> target_ctx g' = target_ctx x)
    by (intros [] x; [apply tranlog_ctx|congruence]).
  unfold tase_eject in E. cbn zeta in E. unfold ejected_ctx, st_modeled, st_poison, st_unknown.
  cbn [abort_status abort_count_modeled abort_count_poison abort_count_unknown set_greg set_gregs] in E.
  change TSX_XABORT with 0 in *. rewrite (land_one _ 0) in E by lia.
  set (st := abort_status (target_ctx g)) in *.
  destruct ((st .& 0xff) =? 0), (Z.testbit st 0), (nonzero (st .& TSX_XABORT_MASK)); cbn in E;
    rewrite (Log _ _ E); cbn; rewrite !bump_false by assumption; reflexivity.
Qed.

(** An ejection returns to the interpreter unless the stack is logged. *)
Lemma tase_eject_returns g : status (target_ctx g) .& SB_FLAG_LOGABORT_STACK = 0 -> exists g', tase_eject g = Some g'.
Proof.
  intros Hs. unfold tase_eject. cbn zeta. destruct (if (_ =? 0) then _ else _) as [[md po] un].
  destruct (nonzero _); [|eexists; reflexivity]. unfold tase_tranlog. cbn [target_ctx with_ctx status set_counts set_greg set_gregs].
  rewrite Hs. eexists. reflexivity.
Qed.

(** Whatever is logged, the interpreter resumes at R15. *)
Lemma tase_eject_rip g g' : tase_eject g = Some g' -> gregs (target_ctx g') GREG_RIP = gregs (target_ctx g) GREG_R15.
Proof.
  unfold tase_eject. cbn zeta. destruct (if (_ =? 0) then _ else _) as [[md po] un].
  destruct (nonzero _); intros E; [rewrite (tranlog_ctx _ _ E)|injection E as <-]; reflexivity.
Qed.

(** Counting modulo 2^32. *)
Lemma bump_counts b x n : uint 32 (bump b x + n) = uint 32 (x + (b2z b + n)).
Proof. apply eqm_uint. unfold bump. rewrite uint_eqm. now replace (x + b2z b + n) with (x + (b2z b + n)) by ring. Qed.

Lemma count_codes_ok counts st : Forall (is_uint 32) (count_codes counts st).
Proof.
  revert st. induction counts as [|c rest IH]; intros st; cbn [count_codes]; constructor; [apply uint_range; lia|apply IH].
Qed.

Lemma ejected_ok c : counters_ok c -> counters_ok (ejected_ctx c).
Proof.
  intros [_ _ _ _ _ L].
  split; cbn; try (apply uint_range; lia); [apply count_codes_ok|now rewrite count_codes_length].
Qed.

Lemma zcount_cons p st sts : zcount p (st :: sts) = b2z (p st) + zcount p sts.
Proof. unfold zcount. cbn [filter]. destruct (p st); cbn [length b2z]; lia. Qed.

(** ** The harness *)

Lemma bad_return_spec st : bad_return st = negb (Z.shiftr st 24 =? 1) && Z.odd st.
Proof.
  unfold bad_return, shr. change (b2z (negb (0xff =? 1))) with (Z.shiftl 1 0). rewrite land_one by lia. change (24 mod 32) with 24.
  rewrite Z.bit0_odd. now destruct (Z.odd st).
Qed.

(** The check of [run_target] that an ejection was by a modeled function
    rejects what it should accept.  It reads [abort_status & 0xff != 1],
    which C parses as [abort_status & (0xff != 1)], that is, bit 0: any
    explicit abort whose code is not 1 ends the process.  The two codes with
    which [sb_modeled] ejects ([0xff000001], and [0x010000001] in the build
    without transactions) both do, so the harness never resumes the target
    after a modeled call, although the parenthesised test accepts both. *)
Theorem harness_rejects_modeled_ejection session exit_tase load fuel enable g :
  let st := abort_status (target_ctx g) in
  at_exit exit_tase g = false -> st = 0xff000001 \/ st = 0x010000001 ->
  run_target_loop session exit_tase load (S fuel) enable g = None /\
  negb (Z.shiftr st 24 =? 1) && negb ((st .& 0xff) =? 1) = false.
Proof.
  intros st Hx Hst. cbn [run_target_loop]. rewrite Hx. unfold run_target_turn. fold st. rewrite bad_return_spec.
  destruct Hst as [-> | ->]; split; reflexivity.
Qed.

Lemma harness_rejects_modeled_ejection_witness :
  let g := with_ctx initial_globals (set_abort zero_ctx 0xff000001 0) in
  at_exit 0x400000 g = false /\ run_target_loop (fun g => Some g) 0x400000 (fun _ _ => 0) 5 true g = None.
Proof.
  set (g := with_ctx initial_globals (set_abort zero_ctx 0xff000001 0)). split; [reflexivity|].
  destruct (harness_rejects_modeled_ejection (fun g => Some g) 0x400000 (fun _ _ => 0) 4 true g) as [A _];
    [reflexivity|left; reflexivity|exact A].
Defined.

(** [tase_walk_pages] writes one word in each of the 8192 pages of the
    target stack, from the highest page down, inside the buffer. *)
Theorem walk_pages_touches_every_page :
  map (fun i => 4 * i / PAGE_SIZE) tase_walk_pages = rev (map Z.of_nat (seq 0 (Z.to_nat (STACK_SIZE / PAGE_SIZE)))) /\
  Forall (fun i => 0 <= i < STACK_SIZE / 4) tase_walk_pages.
Proof.
  split; [vm_compute; reflexivity|].
  assert (E : forallb (fun i => (0 <=? i) && (i <? STACK_SIZE / 4)) tase_walk_pages = true) by (vm_compute; reflexivity).
  rewrite forallb_forall in E. apply Forall_forall. intros i Hi. specialize (E i Hi). lia.
Qed.
