(* ===== verification/Springboard.v ===== *)
(** * The TASE springboard: transactions, poison checks and context switches

    Models [test/tase/springboard.S] in the build with transactions
    ([TASE_TSX]) as a step relation.  A machine is the architectural state
    (globals, registers, memory) and the open transaction: its nesting depth
    and the state at the outermost [xbegin], to which an abort returns.

    The instrumented target runs in steps from one cartridge header to the
    next.  What the compiler's instrumentation promises about the two XMM
    registers it keeps ([instrumented]) is the contract written above
    [sb_reopen]: poison that was read shows in the accumulator or is still in
    the data register. *)

From S2P Require Import Prelude TaseRuntime.

(** ** Instructions *)

(** [pcmpeqw]: each 16-bit word becomes all ones or zero. *)
Definition xmm_word (x i : Z) : Z := Z.shiftr x (16 * i) .& 0xffff.
Definition pcmpeqw (a b : Z) : Z :=
  fold_right (fun i acc => acc .| (if xmm_word a i =? xmm_word b i then Z.shiftl 0xffff (16 * i) else 0)) 0
    [0; 1; 2; 3; 4; 5; 6; 7].

(** The flags as [lahf] sees them after [ptest x, x]: CF is set, ZF if [x = 0]. *)
Definition ptest_flags (x : Z) : Z := if x =? 0 then 0x43 else 0x03.

(** [lahf]: AH becomes the flags. *)
Definition lahf (rax efl : Z) : Z := (rax .& Z.lnot 0xff00) .| Z.shiftl efl 8.

(** ** The machine *)

Record arch := mkArch { glob : globals; regs : file; xmm : file; mem : file }.

Definition set_reg (s : arch) (r v : Z) : arch := mkArch (glob s) (upd (regs s) r v) (xmm s) (mem s).
Definition set_xmm (s : arch) (r v : Z) : arch := mkArch (glob s) (regs s) (upd (xmm s) r v) (mem s).
Definition set_glob (s : arch) (g : globals) : arch := mkArch g (regs s) (xmm s) (mem s).
Definition set_trans (g : globals) (ctr mx sv : Z) : globals :=
  mkGlobals (target_ctx g) (tase_springboard g) (tase_model g) (tase_modeled_return g) ctr mx sv (abort_count g).

(** An open transaction: depth, state at the outermost [xbegin], and whether
    poison has been read since (known to the proof, not to the machine). *)
Record transaction := mkTran { depth : nat; begun : arch; poisoned : bool }.

Inductive control := AtHeader (is_modeled : bool) | InBody | Ejected | Faulted.
Record machine := mkMachine { now : arch; tran : option transaction; at_ : control }.

Definition XMM_DATA (s : arch) : Z := xmm s REG_DATA.
Definition XMM_ACCUMULATOR (s : arch) : Z := xmm s REG_ACCUMULATOR.
Definition XMM_REFERENCE (s : arch) : Z := xmm s REG_REFERENCE.

(** [sbm_compare_poison]; the second component is the outcome of [jnz]. *)
Definition sbm_compare_poison (s : arch) : arch * bool :=
  let data := pcmpeqw (XMM_DATA s) (XMM_REFERENCE s) in
  let s := set_xmm s REG_DATA data in
  let s := set_xmm s REG_ACCUMULATOR (XMM_ACCUMULATOR s .| data) in
  let g := glob s in
  let s := set_glob s (set_trans g (tran_ctr g) (tran_max g) (regs s GREG_RAX)) in
  let s := set_reg s GREG_RAX (lahf (regs s GREG_RAX) (regs s GREG_EFL)) in
  let s := set_reg s GREG_EFL (ptest_flags (XMM_ACCUMULATOR s)) in
  (s, nonzero (XMM_ACCUMULATOR s)).

(** [sahf; movq saved_rax, %rax] *)
Definition restore_rax (s : arch) : arch :=
  let s := set_reg s GREG_EFL (Z.shiftr (regs s GREG_RAX) 8 .& 0xff) in
  set_reg s GREG_RAX (saved_rax (glob s)).

Definition sbm_init_tran (s : arch) : arch :=
  let s := set_xmm s REG_DATA 0 in
  let s := set_xmm s REG_ACCUMULATOR 0 in
  set_reg s GREG_R14 (regs s GREG_RAX).

Definition xbegin (s : arch) (t : option transaction) : option transaction :=
  match t with
  | None => Some (mkTran 1 s false)
  | Some t => Some (mkTran (S (depth t)) (begun t) (poisoned t))
  end.

(** What a step does to the transaction: nothing, a commit (with what the
    transaction had read), an abort. *)
Inductive event := ev_none | ev_commit (had_poison : bool) | ev_abort.

(** [xend] closes the innermost transaction; only the outermost one commits.
    Outside a transaction it faults ([None]). *)
Definition xend (t : option transaction) : option (option transaction * event) :=
  match t with
  | None => None
  | Some t => match depth t with
              | S (S d) => Some (Some (mkTran (S d) (begun t) (poisoned t)), ev_none)
              | _ => Some (None, ev_commit (poisoned t))
              end
  end.

(** The registers [.Lsb_eject] stores. *)
Definition ctx_store_xmm (i : Z) : bool := (i =? 0) || ((12 <=? i) && (i <=? 15)).

(** [.Lsb_fallback] and [.Lsb_eject], up to the jump to [tase_eject]. *)
Definition sb_fallback (eax : Z) (s : arch) : arch :=
  let g := glob s in
  let c := target_ctx g in
  let s := set_reg s GREG_RAX (regs s GREG_R14) in
  let gr := fun i => if (0 <=? i) && (i <=? 15) then regs s i
                     else if i =? GREG_EFL then (gregs c GREG_EFL .& Z.lnot 0xff) .| regs s GREG_EFL
                     else gregs c i in
  let xr := fun i => if ctx_store_xmm i then xmm s i else xmmregs c i in
  let c := mkCtx (target_stack c) (target_exit_addr c) (sentinel c) xr gr (interpreter_stack c) eax
             (last_abort_status c) (status c) (abort_counts c) (abort_count_modeled c) (abort_count_poison c)
             (abort_count_unknown c) (abort_count_total c) in
  set_reg (set_glob s (with_springboard (with_ctx g c) sb_disabled)) GREG_RSP (interpreter_stack c).

(** The immediate operand of the [xabort] reached from [.Lsb_abort]. *)
Definition abort_imm (ctr : Z) : Z := if (0 <=? ctr) && (ctr <=? 8) then ctr else 9.
(** What it leaves in EAX: the code, the flag of an explicit abort, and the
    flag of an abort in a nested transaction. *)
Definition xabort_status (nested : bool) (imm : Z) : Z :=
  (Z.shiftl imm 24 .| Z.shiftl 1 TSX_XABORT) .| (if nested then Z.shiftl 1 TSX_NESTED else 0).

(** An abort: back to the outermost [xbegin], with the status in EAX.
    Outside a transaction [xabort] does nothing, and the code falls through
    to the fallback with [tran_ctr] in EAX. *)
Definition sb_abort (s : arch) (t : option transaction) : machine * event :=
  match t with
  | Some t => (mkMachine (sb_fallback (xabort_status (1 <? depth t)%nat (abort_imm (tran_ctr (glob s)))) (begun t)) None Ejected, ev_abort)
  | None => (mkMachine (sb_fallback (uint 32 (tran_ctr (glob s))) s) None Ejected, ev_none)
  end.

(** A header's jump to a springboard routine. *)
Definition run_routine (r : sb_routine) (m : machine) : machine * event :=
  let s := now m in
  match r with
  | sb_disabled => (mkMachine s (tran m) InBody, ev_none)
  | sb_open =>
      let s := sbm_init_tran s in
      let s := set_glob s (with_springboard (glob s) sb_reopen) in
      (mkMachine s (xbegin s (tran m)) InBody, ev_none)
  | sb_reopen =>
      let '(s, poison) := sbm_compare_poison s in
      if poison then sb_abort s (tran m)
      else
        let g := glob s in
        let s := set_glob s (set_trans g (tran_ctr g +[64] 1) (tran_max g) (saved_rax g)) in
        let s := set_reg s GREG_R14 (tran_max g) in
        if sint 64 (tran_ctr (glob s)) <? sint 64 (regs s GREG_R14) then (mkMachine (restore_rax s) (tran m) InBody, ev_none)
        else
          match xend (tran m) with
          | None => (mkMachine s None Faulted, ev_none)
          | Some (t, ev) =>
              let g := glob s in
              let s := set_glob s (set_trans g 0 16 (saved_rax g)) in
              let s := sbm_init_tran (restore_rax s) in
              (mkMachine s (xbegin s t) InBody, ev)
          end
  | sb_modeled =>
      let '(s, poison) := sbm_compare_poison s in
      if poison then sb_abort s (tran m)
      else
        match xend (tran m) with
        | None => (mkMachine s None Faulted, ev_none)
        | Some (t, ev) =>
            let g := glob s in
            let s := set_glob s (set_trans g (tran_ctr g) 16 (saved_rax g)) in
            (mkMachine (sb_fallback 0xff000001 s) t Ejected, ev)
        end
  | sb_null => (mkMachine s None Faulted, ev_none)
  end.

(** [sb_inject], from the interpreter: loads the context and opens a
    transaction at the cartridge body R15 points to. *)
Definition sb_inject (rsp : Z) (g : globals) (m : file) (hostxmm : file) : machine :=
  let c := target_ctx g in
  let c := mkCtx (target_stack c) (target_exit_addr c) (sentinel c) (xmmregs c) (gregs c) ((rsp -[64] 256) .| 8) (abort_status c)
             (last_abort_status c) (status c) (abort_counts c) (abort_count_modeled c) (abort_count_poison c)
             (abort_count_unknown c) (abort_count_total c) in
  let g := with_ctx (set_trans g 0 (tran_max g) (saved_rax g)) c in
  let rg := fun i => if (0 <=? i) && (i <=? 15) then gregs c i else gregs c GREG_EFL .& 0xff in
  let xr := fun i => if ctx_store_xmm i then xmmregs c i else hostxmm i in
  let s := sbm_init_tran (mkArch g rg xr m) in
  mkMachine s (xbegin s None) InBody.

(** ** Steps *)

(** Poison that the springboard would find. *)
Definition tainted (s : arch) : Prop := XMM_ACCUMULATOR s <> 0 \/ pcmpeqw (XMM_DATA s) (XMM_REFERENCE s) <> 0.

(** What a cartridge body may do, [reads_poison] telling whether it read a
    poisoned word: it keeps the reserved register R14, the reference and the
    runtime's globals, and its instrumentation loses no poison. *)
Record instrumented (reads_poison : bool) (s s' : arch) : Prop := {
  body_globals : glob s' = glob s;
  body_r14 : regs s' GREG_R14 = regs s GREG_R14;
  body_reference : XMM_REFERENCE s' = XMM_REFERENCE s;
  body_keeps : tainted s -> tainted s';
  body_shows : reads_poison = true -> tainted s'
}.

Definition note_poison (p : bool) (t : option transaction) : option transaction :=
  match t with None => None | Some t => Some (mkTran (depth t) (begun t) (poisoned t || p)) end.

Definition routine_of (md : bool) (g : globals) : sb_routine := if md then tase_model g else tase_springboard g.

(** A body runs to the next header; a header jumps to its routine; and an open
    transaction may be aborted by the hardware at any point. *)
Inductive step : machine -> event -> machine -> Prop :=
| step_body p s s' t md : instrumented p s s' ->
    step (mkMachine s t InBody) ev_none (mkMachine s' (note_poison p t) (AtHeader md))
| step_header s t md m' ev :
    run_routine (routine_of md (glob s)) (mkMachine s t (AtHeader md)) = (m', ev) ->
    step (mkMachine s t (AtHeader md)) ev m'
| step_hardware s t st at0 : is_uint 6 st -> Z.testbit st 0 = false ->
    step (mkMachine s (Some t) at0) ev_abort (mkMachine (sb_fallback st (begun t)) None Ejected).

Inductive steps : machine -> list event -> machine -> Prop :=
| steps_nil m : steps m [] m
| steps_cons m ev m1 evs m' : step m ev m1 -> steps m1 evs m' -> steps m (ev :: evs) m'.

(** ** No poisoned transaction commits *)

Lemma compare_poison_clean s s' : sbm_compare_poison s = (s', false) ->
  ~ tainted s /\ tase_springboard (glob s') = tase_springboard (glob s) /\ tase_model (glob s') = tase_model (glob s).
Proof.
  unfold sbm_compare_poison. intros E. injection E as <- N. split; [|split; reflexivity]. unfold nonzero in N.
  apply negb_false_iff, Z.eqb_eq in N.
  change (XMM_ACCUMULATOR s .| pcmpeqw (XMM_DATA s) (XMM_REFERENCE s) = 0) in N. apply Z.lor_eq_0_iff in N as [A B].
  intros [T|T]; contradiction.
Qed.

Definition running (m : machine) : Prop := at_ m = InBody \/ exists md, at_ m = AtHeader md.

(** While the target runs: an outermost transaction that has read poison shows
    it; a nested one exists only under [sb_reopen]. *)
Definition tran_inv (m : machine) : Prop :=
  running m ->
  tase_model (glob (now m)) = sb_modeled /\
  match tran m with
  | None => True
  | Some t => (1 <= depth t)%nat /\
      (depth t = 1%nat -> poisoned t = true -> tainted (now m)) /\
      ((2 <= depth t)%nat -> tase_springboard (glob (now m)) = sb_reopen)
  end.

Lemma not_running m : at_ m = Ejected \/ at_ m = Faulted -> ~ running m.
Proof. intros [E|E] [R|[md R]]; congruence. Qed.

Lemma tran_inv_stopped m : at_ m = Ejected \/ at_ m = Faulted -> tran_inv m.
Proof. intros E R. now apply not_running in E. Qed.

(** Closing and reopening keeps the depth; a commit has nothing to hide. *)
Lemma xend_spec s (t : option transaction) t' ev : xend t = Some (t', ev) ->
  (match t with None => True | Some t => (1 <= depth t)%nat /\ (depth t = 1%nat -> poisoned t = true -> tainted s) end) ->
  ~ tainted s ->
  ev <> ev_commit true /\
  match t with
  | None => False
  | Some t => (depth t = 1%nat /\ t' = None) \/ (exists u, t' = Some u /\ depth t = S (depth u) /\ (1 <= depth u)%nat)
  end.
Proof.
  unfold xend. destruct t as [t|]; [|discriminate]. intros E [D I] NT. destruct (depth t) as [|[|d]] eqn:Hd; [lia| |]; injection E as <- <-.
  - split; [|left; split; reflexivity]. intros C. injection C as C. apply NT. now apply I.
  - split; [discriminate|]. right. eexists. split; [reflexivity|]. cbn. lia.
Qed.

Lemma routine_preserves s t md m' ev : tran_inv (mkMachine s t (AtHeader md)) ->
  run_routine (routine_of md (glob s)) (mkMachine s t (AtHeader md)) = (m', ev) -> tran_inv m' /\ ev <> ev_commit true.
Proof.
  intros I E. destruct I as [Hm I]; [right; exists md; reflexivity|]. cbn [now tran] in Hm, I.
  assert (Hx : match t with None => True | Some t => (1 <= depth t)%nat /\ (depth t = 1%nat -> poisoned t = true -> tainted s) end)
    by (destruct t; tauto).
  assert (Ab : forall s0, sb_abort s0 t = (m', ev) -> tran_inv m' /\ ev <> ev_commit true).
  { intros s0 A. unfold sb_abort in A. destruct t; injection A as <- <-; (split; [apply tran_inv_stopped; now left|discriminate]). }
  unfold run_routine in E. cbn [now tran] in E. destruct (routine_of md (glob s)) eqn:Hr.
  - injection E as <- <-. split; [apply tran_inv_stopped; now right|discriminate].
  - (* open *)
    injection E as <- <-. split; [|discriminate]. intros _. split; [exact Hm|]. cbn [tran xbegin].
    destruct t as [t|]; cbn.
    + repeat split; lia.
    + repeat split; try lia; discriminate.
  - (* reopen *)
    destruct (sbm_compare_poison s) as [s1 [|]] eqn:Cp; [now apply (Ab s1)|].
    destruct (compare_poison_clean _ _ Cp) as (NT & Sp & Mo). revert E. case_cmp; intros E.
    + injection E as <- <-. split; [|discriminate]. intros _. split; [cbn; congruence|]. cbn [tran].
      destruct t as [t|]; [|exact Logic.I]. destruct I as (D & P & S). repeat split; [exact D| |].
      * intros D1 P1. exfalso. apply NT. now apply P.
      * intros D2. cbn. rewrite Sp. now apply S.
    + destruct (xend t) as [[t' ev']|] eqn:X; [|injection E as <- <-; split; [apply tran_inv_stopped; now right|discriminate]].
      injection E as <- <-. destruct (xend_spec s t t' ev' X Hx NT) as [Ev T]. split; [|exact Ev]. intros _.
      split; [cbn; congruence|]. cbn [tran]. destruct t as [t|]; [|contradiction]. destruct I as (D & P & S).
      destruct T as [[D1 ->]|(u & -> & Du & U1)]; cbn.
      * repeat split; try lia; discriminate.
      * repeat split; try lia. intros _. rewrite Sp. apply S. lia.
  - (* disabled *)
    injection E as <- <-. split; [|discriminate]. intros _. split; [exact Hm|exact I].
  - (* modeled *)
    destruct (sbm_compare_poison s) as [s1 [|]] eqn:Cp; [now apply (Ab s1)|]. destruct (compare_poison_clean _ _ Cp) as (NT & _ & _).
    destruct (xend t) as [[t' ev']|] eqn:X; injection E as <- <-.
    + split; [apply tran_inv_stopped; now left|]. exact (proj1 (xend_spec s t t' ev' X Hx NT)).
    + split; [apply tran_inv_stopped; now right|discriminate].
Qed.

Lemma step_preserves m ev m' : tran_inv m -> step m ev m' -> tran_inv m' /\ ev <> ev_commit true.
Proof.
  intros I St. destruct St as [p s s' t md B|s t md m' ev E|s t st at0 _ _].
  - split; [|discriminate]. destruct I as [Hm I]; [left; reflexivity|]. cbn [now tran] in Hm, I. intros _. cbn [now tran].
    rewrite (body_globals _ _ _ B). split; [exact Hm|]. destruct t as [t|]; [|exact Logic.I]. cbn [note_poison depth poisoned].
    destruct I as (D & P & S). repeat split; [exact D| |exact S]. intros D1 P1. apply orb_true_iff in P1 as [P1|P1].
    + apply (body_keeps _ _ _ B). now apply P.
    + now apply (body_shows _ _ _ B).
  - exact (routine_preserves s t md m' ev I E).
  - split; [apply tran_inv_stopped; now left|discriminate].
Qed.

Lemma steps_safe m evs m' : steps m evs m' -> tran_inv m -> ~ In (ev_commit true) evs.
Proof.
  induction 1 as [m|m ev m1 evs m' St Ss IH]; intros I; [intros []|]. destruct (step_preserves m ev m1 I St) as [I1 Ev].
  intros [C|C]; [congruence|]. now apply (IH I1).
Qed.

Lemma inject_inv rsp g m hx : tase_model g = sb_modeled -> tran_inv (sb_inject rsp g m hx).
Proof. intros Hm _. split; [exact Hm|]. cbn. repeat split; try lia; discriminate. Qed.

(** C1: no transaction in which the target read poison is ever committed.
    In any run from an injection, whatever the springboard is set to,
    whatever instrumented code runs and whatever the hardware aborts, a
    commit only happens with no poison read since the transaction began. *)
Theorem no_poisoned_commit rsp g mem0 hx evs m' : tase_model g = sb_modeled ->
  steps (sb_inject rsp g mem0 hx) evs m' -> ~ In (ev_commit true) evs.
Proof. intros Hm Ss. apply (steps_safe _ _ _ Ss). now apply inject_inv. Qed.

(** A body that does nothing is instrumented code. *)
Lemma idle_body s : instrumented false s s.
Proof. split; auto. discriminate. Qed.

(** A session of [enter_tase]: one cartridge, then a modeled call. *)
Definition demo_globals : globals := inject_setup true (enter_tase_init 0x600000 0x401000 0x400500 initial_globals).
Definition demo_start : machine := sb_inject 0x7ff000 demo_globals (fun _ => 0) (fun _ => 0).

Lemma demo_run : exists m', steps demo_start [ev_none; ev_commit false] m'.
Proof.
  set (m0 := demo_start).
  set (m1 := run_routine sb_modeled (mkMachine (now m0) (note_poison false (tran m0)) (AtHeader true))).
  exists (fst m1). eapply steps_cons; [apply (step_body false (now m0) (now m0) (tran m0) true), idle_body|].
  eapply steps_cons; [apply step_header; vm_compute; reflexivity|apply steps_nil].
Qed.

Lemma no_poisoned_commit_witness : exists m', steps demo_start [ev_none; ev_commit false] m' /\
  ~ In (ev_commit true) [ev_none; ev_commit false].
Proof.
  destruct demo_run as [m' R]. exists m'. split; [exact R|].
  exact (no_poisoned_commit 0x7ff000 demo_globals (fun _ => 0) (fun _ => 0) _ m' eq_refl R).
Defined.

(** ** Aborts return to the injected state *)

(** Until something commits, the open transaction is the one [sb_inject] began. *)
Definition rollback_inv (s0 : arch) (m : machine) : Prop :=
  (forall t, tran m = Some t -> begun t = s0) /\ (running m -> tran m <> None).

Lemma rollback_stopped s0 s t c : (c = Ejected \/ c = Faulted) -> (forall u, t = Some u -> begun u = s0) ->
  rollback_inv s0 (mkMachine s t c).
Proof. intros Hc Ht. split; [exact Ht|]. intros R. now apply not_running in R. Qed.

Lemma xend_no_commit t t' ev : xend t = Some (t', ev) -> (forall b, ev <> ev_commit b) ->
  exists u u', t = Some u /\ t' = Some u' /\ begun u' = begun u.
Proof.
  unfold xend. destruct t as [t|]; [|discriminate]. destruct (depth t) as [|[|d]]; intros E N; injection E as <- <-.
  - now destruct (N (poisoned t)).
  - now destruct (N (poisoned t)).
  - eexists _, _. repeat split.
Qed.

Lemma rollback_preserved s0 m ev m' : rollback_inv s0 m -> step m ev m' -> (forall b, ev <> ev_commit b) -> rollback_inv s0 m'.
Proof.
  intros [I R] St NC. destruct St as [p s s' t md B|s t md m' ev E|s t st at0 _ _]; [| |apply rollback_stopped; [now left|discriminate]].
  - destruct t as [t|]; [|exfalso; apply R; [left; reflexivity|reflexivity]]. split; [|discriminate].
    intros u Hu. injection Hu as <-. exact (I t eq_refl).
  - destruct t as [t|]; [|exfalso; apply R; [right; now exists md|reflexivity]]. pose proof (I t eq_refl) as Bt.
    assert (Hd : forall s1 c, rollback_inv s0 (mkMachine s1 (Some t) c)) by (intros; split; [exact I|discriminate]).
    unfold run_routine in E. cbn [now tran] in E. destruct (routine_of md (glob s)).
    + injection E as <- <-. apply rollback_stopped; [now right|discriminate].
    + injection E as <- <-. split; [|discriminate]. intros u Hu. injection Hu as <-. exact Bt.
    + destruct (sbm_compare_poison s) as [s1 [|]]; [injection E as <- <-; apply rollback_stopped; [now left|discriminate]|].
      revert E. case_cmp; intros E; [injection E as <- <-; apply Hd|].
      destruct (xend (Some t)) as [[t' ev']|] eqn:X; [|injection E as <- <-; apply rollback_stopped; [now right|discriminate]].
      injection E as <- <-. destruct (xend_no_commit _ _ _ X NC) as (u & u' & Eu & -> & Bu). injection Eu as <-.
      split; [|discriminate]. intros v Hv. injection Hv as <-. cbn. congruence.
    + injection E as <- <-. apply Hd.
    + destruct (sbm_compare_poison s) as [s1 [|]]; [injection E as <- <-; apply rollback_stopped; [now left|discriminate]|].
      destruct (xend (Some t)) as [[t' ev']|] eqn:X; injection E as <- <-; (apply rollback_stopped; [(now left) || (now right)|]); [|discriminate].
      destruct (xend_no_commit _ _ _ X NC) as (u & u' & Eu & -> & Bu). injection Eu as <-. intros v Hv. injection Hv as <-. congruence.
Qed.

Lemma rollback_steps s0 m evs m' : steps m evs m' -> rollback_inv s0 m -> (forall b, ~ In (ev_commit b) evs) -> rollback_inv s0 m'.
Proof.
  induction 1 as [m|m ev m1 evs m' St Ss IH]; intros I NC; [exact I|]. apply IH.
  - apply (rollback_preserved s0 m ev m1 I St). intros b ->. apply (NC b). now left.
  - intros b C. apply (NC b). now right.
Qed.

(** The general registers an ejection leaves in the context. *)
Lemma fallback_greg st s i : 0 <= i <= 15 ->
  gregs (target_ctx (glob (sb_fallback st s))) i = if i =? GREG_RAX then regs s GREG_R14 else regs s i.
Proof.
  intros Hi. unfold sb_fallback. cbn [glob set_reg set_glob with_springboard with_ctx target_ctx gregs regs].
  rewrite (proj2 (Z.leb_le 0 i)), (proj2 (Z.leb_le i 15)) by lia. reflexivity.
Qed.

(** An abort always restarts from the state at the outermost [xbegin]. *)
Lemma abort_step m m' : step m ev_abort m' -> exists t st, tran m = Some t /\ m' = mkMachine (sb_fallback st (begun t)) None Ejected.
Proof.
  intros St. remember ev_abort as ev eqn:Hev. destruct St as [|s t md m' ev E|s t st at0 _ _]; [discriminate| |eexists _, _; split; reflexivity].
  subst ev. unfold run_routine in E. cbn [now tran] in E.
  assert (Xe : forall (u : option transaction) t', xend u = Some (t', ev_abort) -> False).
  { unfold xend. intros [u|] t'; [|discriminate]. destruct (depth u) as [|[|]]; discriminate. }
  destruct (routine_of md (glob s)); try discriminate.
  - destruct (sbm_compare_poison s) as [s1 [|]].
    + destruct t as [t|]; [injection E as <-; eexists _, _; split; reflexivity|discriminate].
    + revert E. case_cmp; intros E; [discriminate|]. destruct (xend t) as [[t' ev']|] eqn:X; [|discriminate].
      injection E as _ ->. now apply Xe in X.
  - destruct (sbm_compare_poison s) as [s1 [|]].
    + destruct t as [t|]; [injection E as <-; eexists _, _; split; reflexivity|discriminate].
    + destruct (xend t) as [[t' ev']|] eqn:X; [|discriminate]. injection E as _ ->. now apply Xe in X.
Qed.

(** C2: an abort loses nothing and leaks nothing.  When a run from an
    injection aborts before anything was committed (on poison, by the hardware, or
    at a modeled call), the context that [tase_eject] receives holds the
    sixteen registers that were injected (but for the reserved R14), the memory
    is the memory at injection, the springboard is disabled, and [tase_eject]
    makes the interpreter resume at the cartridge body that was injected. *)
Theorem abort_restores_context rsp g mem0 hx evs m m' g' :
  steps (sb_inject rsp g mem0 hx) evs m -> (forall b, ~ In (ev_commit b) evs) -> step m ev_abort m' ->
  at_ m' = Ejected /\ tran m' = None /\
  (forall i, 0 <= i <= 15 -> i <> GREG_R14 -> gregs (target_ctx (glob (now m'))) i = gregs (target_ctx g) i) /\
  mem (now m') = mem0 /\ tase_springboard (glob (now m')) = sb_disabled /\
  (tase_eject (glob (now m')) = Some g' -> gregs (target_ctx g') GREG_RIP = gregs (target_ctx g) GREG_R15).
Proof.
  intros Ss NC St. set (m0 := sb_inject rsp g mem0 hx) in *.
  destruct (rollback_steps (now m0) m0 evs m Ss) as [I _]; [|exact NC|].
  { split; [intros t Ht; injection Ht as <-; reflexivity|discriminate]. }
  destruct (abort_step m m' St) as (t & st & Ht & ->). specialize (I t Ht). rewrite I.
  assert (Gr : forall i, 0 <= i <= 15 -> i <> GREG_R14 -> gregs (target_ctx (glob (sb_fallback st (now m0)))) i = gregs (target_ctx g) i).
  { intros i Hi N. rewrite fallback_greg by exact Hi. unfold m0, sb_inject, sbm_init_tran.
    cbn [now regs set_reg set_xmm]. unfold upd. destruct (Z.eqb_spec i GREG_RAX) as [->|]; [reflexivity|].
    destruct (Z.eqb_spec i GREG_R14); [contradiction|]. now rewrite (proj2 (Z.leb_le 0 i)), (proj2 (Z.leb_le i 15)) by lia. }
  cbn [at_ tran now]. repeat split; [exact Gr|]. intros E. rewrite (tase_eject_rip _ _ E). apply Gr; vm_compute; (split; congruence) || discriminate.
Qed.

Lemma abort_restores_context_witness : exists m m' g',
  steps demo_start [ev_none] m /\ step m ev_abort m' /\
  tase_eject (glob (now m')) = Some g' /\ gregs (target_ctx g') GREG_RIP = 0x400500.
Proof.
  set (m0 := demo_start).
  assert (S1 : steps m0 [ev_none] (mkMachine (now m0) (note_poison false (tran m0)) (AtHeader false)))
    by (eapply steps_cons; [apply (step_body false (now m0) (now m0) (tran m0) false), idle_body|apply steps_nil]).
  assert (S2 : step (mkMachine (now m0) (note_poison false (tran m0)) (AtHeader false)) ev_abort (mkMachine (sb_fallback 4 (now m0)) None Ejected))
    by (apply (step_hardware (now m0) (mkTran 1 (now m0) false) 4 (AtHeader false)); [split; vm_compute; congruence|reflexivity]).
  destruct (tase_eject_returns (glob (sb_fallback 4 (now m0))) eq_refl) as (g' & E).
  eexists _, _, g'. split; [exact S1|]. split; [exact S2|]. split; [exact E|].
  refine (proj2 (proj2 (proj2 (proj2 (proj2 (abort_restores_context 0x7ff000 demo_globals _ _ _ _ _ g' S1 _ S2))))) E).
  intros b [C|[]]. discriminate.
Defined.

(** ** Injecting with [sb_open] nests transactions *)

Definition nested_inv (m : machine) : Prop :=
  running m -> tase_model (glob (now m)) = sb_modeled /\ tase_springboard (glob (now m)) = sb_reopen /\
    exists t, tran m = Some t /\ (2 <= depth t)%nat.

Lemma xend_nested t : (2 <= depth t)%nat -> exists u, xend (Some t) = Some (Some u, ev_none) /\ depth t = S (depth u).
Proof. intros D. unfold xend. destruct (depth t) as [|[|d]]; [lia|lia|]. eexists. split; reflexivity. Qed.

Lemma nested_step m ev m' : nested_inv m -> step m ev m' -> nested_inv m' /\ forall b, ev <> ev_commit b.
Proof.
  assert (Stop : forall s t c, c = Ejected \/ c = Faulted -> nested_inv (mkMachine s t c)) by (intros s t c Hc R; now apply not_running in R).
  intros I St. destruct St as [p s s' t md B|s t md m' ev E|s t st at0 _ _]; [| |split; [apply Stop; now left|discriminate]].
  - destruct I as (Hm & Hs & t0 & Ht & D); [left; reflexivity|]. cbn in Ht. subst t. split; [|discriminate]. intros _. cbn [now tran].
    rewrite (body_globals _ _ _ B). repeat split; try assumption. eexists. split; [reflexivity|exact D].
  - destruct I as (Hm & Hs & t0 & Ht & D); [right; now exists md|]. cbn in Ht. subst t. cbn [now] in Hm, Hs. destruct (xend_nested t0 D) as (u & X & Du).
    unfold run_routine in E. cbn [now tran] in E. unfold routine_of in E. rewrite Hm, Hs, X in E.
    destruct md; destruct (sbm_compare_poison s) as [s1 [|]] eqn:Cp; try (injection E as <- <-; split; [apply Stop; now left|discriminate]).
    destruct (compare_poison_clean _ _ Cp) as (_ & Sp & Mo). revert E. case_cmp; intros E; injection E as <- <-; (split; [|discriminate]);
      intros _; cbn [now tran]; (split; [cbn; congruence|split; [cbn; congruence|]]); eexists; (split; [reflexivity|]); cbn; lia.
Qed.

Lemma nested_steps m evs m' : steps m evs m' -> nested_inv m -> forall b, ~ In (ev_commit b) evs.
Proof.
  induction 1 as [m|m ev m1 evs m' St Ss IH]; intros I b; [intros []|]. destruct (nested_step m ev m1 I St) as [I1 N].
  intros [C|C]; [now apply (N b)|]. now apply (IH I1 b).
Qed.

Lemma ejected_steps s evs m' : steps (mkMachine s None Ejected) evs m' -> evs = [].
Proof. intros Ss. inversion Ss as [|? ? ? ? ? St]; subst; [reflexivity|]. inversion St. Qed.

(** C36: with the springboard that [tase_inject] selects ([sb_open], although
    [sb_inject] has already opened a transaction) a session commits only if
    the very first cartridge is followed by a modeled call.  Otherwise the
    first header runs [sb_open] inside that transaction and nests a second one, whose
    [xend] never reaches the outermost level: nothing the target does natively
    is kept. *)
Theorem open_injection_never_commits rsp g mem0 hx evs m' b : tase_model g = sb_modeled -> tase_springboard g = sb_open ->
  steps (sb_inject rsp g mem0 hx) evs m' -> In (ev_commit b) evs -> evs = [ev_none; ev_commit b].
Proof.
  intros Hm Hs Ss Hin. inversion Ss as [|? e1 m1 evs1 ? S1 Ss1]; subst; [contradiction|].
  inversion S1 as [p s s' t md B| |s t st at0 Hst Hb]; subst.
  - pose proof (body_globals _ _ _ B) as Gb. destruct Hin as [Hin|Hin]; [discriminate|].
    inversion Ss1 as [|? e2 m2 evs2 ? S2 Ss2]; subst; [contradiction|]. inversion S2 as [|s t md0 m2' ev0 E|s t st at0 Hst Hb]; subst.
    + unfold run_routine, routine_of in E. rewrite Gb in E. cbn [now tran] in E. destruct md.
      * change (tase_model (glob _)) with (tase_model g) in E. rewrite Hm in E.
        destruct (sbm_compare_poison s') as [s1 [|]]; cbn in E; injection E as <- <-; apply ejected_steps in Ss2; subst evs2;
          destruct Hin as [Hin|[]]; [discriminate|]. now rewrite Hin.
      * change (tase_springboard (glob _)) with (tase_springboard g) in E. rewrite Hs in E. injection E as <- <-.
        exfalso. destruct Hin as [Hin|Hin]; [discriminate|]. revert Hin. apply (nested_steps _ _ _ Ss2). intros _.
        cbn [now tran xbegin]. split; [cbn; rewrite Gb; exact Hm|split; [reflexivity|]]. eexists. split; [reflexivity|]. cbn. lia.
    + apply ejected_steps in Ss2. subst. destruct Hin as [Hin|[]]. discriminate.
  - apply ejected_steps in Ss1. subst. destruct Hin as [Hin|[]]. discriminate.
Qed.

Lemma open_injection_never_commits_witness : exists m', steps demo_start [ev_none; ev_commit false] m' /\
  tase_springboard demo_globals = sb_open /\ [ev_none; ev_commit false] = [ev_none; ev_commit false].
Proof.
  destruct demo_run as [m' R]. exists m'. split; [exact R|]. split; [reflexivity|].
  apply (open_injection_never_commits 0x7ff000 demo_globals (fun _ => 0) (fun _ => 0) _ m' false); [reflexivity|reflexivity|exact R|].
  right. left. reflexivity.
Defined.

(** ** Batching: what an abort reports, and what a modeled call ejects *)

Definition REFERENCE : Z := POISON_REFERENCE64 .| Z.shiftl POISON_REFERENCE64 64.

Lemma compare_poison_spec s s1 p : sbm_compare_poison s = (s1, p) ->
  let x := XMM_ACCUMULATOR s .| pcmpeqw (XMM_DATA s) (XMM_REFERENCE s) in
  p = nonzero x /\ XMM_ACCUMULATOR s1 = x /\ XMM_DATA s1 = pcmpeqw (XMM_DATA s) (XMM_REFERENCE s) /\
  XMM_REFERENCE s1 = XMM_REFERENCE s /\ glob s1 = set_trans (glob s) (tran_ctr (glob s)) (tran_max (glob s)) (regs s GREG_RAX) /\
  regs s1 GREG_R14 = regs s GREG_R14.
Proof. unfold sbm_compare_poison. intros E. injection E as <- <-. repeat split. Qed.

(** Where the batch counter stands after [k] headers: the first one opens the
    inner transaction without counting, each later one counts, and the
    sixteenth count starts again from 0. *)
Definition batch_position (k : nat) : Z := Z.of_nat (Nat.pred k) mod 16.

Lemma batch_position_range k : 0 <= batch_position k < 16.
Proof. apply Z.mod_pos_bound. lia. Qed.

Lemma batch_position_next k : (0 < k)%nat ->
  batch_position (S k) = if batch_position k + 1 <? 16 then batch_position k + 1 else 0.
Proof.
  intros Hk. unfold batch_position. pose proof (Z.div_mod (Z.of_nat (Nat.pred k)) 16). pose proof (Z.mod_pos_bound (Z.of_nat (Nat.pred k)) 16).
  case_cmp; symmetry; [apply (Z.mod_unique_pos _ _ (Z.of_nat (Nat.pred k) / 16))|apply (Z.mod_unique_pos _ _ (Z.of_nat (Nat.pred k) / 16 + 1))]; lia.
Qed.

(** A running session after [k] headers. *)
Record batch (k : nat) (s : arch) (t : option transaction) : Prop := {
  batch_model : tase_model (glob s) = sb_modeled;
  batch_springboard : tase_springboard (glob s) = match k with O => sb_open | S _ => sb_reopen end;
  batch_max : tran_max (glob s) = 16;
  batch_ctr : tran_ctr (glob s) = batch_position k;
  batch_depth : exists u, t = Some u /\ depth u = match k with O => 1%nat | S _ => 2%nat end
}.

Definition stopped (m : machine) : Prop := at_ m = Ejected \/ at_ m = Faulted.

Lemma stopped_step m ev m' : stopped m -> step m ev m' -> stopped m'.
Proof. intros [H|H] St; destruct St; cbn in H; try discriminate; now left. Qed.

Lemma stopped_steps m evs m' : stopped m -> steps m evs m' -> stopped m'.
Proof. intros H Ss. induction Ss as [|? ? ? ? ? St Ss IH]; [exact H|]. apply IH. exact (stopped_step _ _ _ H St). Qed.

Lemma batch_body k s t ev m' : batch k s t -> step (mkMachine s t InBody) ev m' ->
  stopped m' \/ (exists md, at_ m' = AtHeader md) /\ batch k (now m') (tran m').
Proof.
  intros B St. inversion St as [p ? s' ? md I| |]; subst; [|left; now left]. right. split; [now exists md|]. cbn [now tran].
  destruct B as [A1 A2 A3 A4 (u & -> & D)]. split; rewrite ?(body_globals _ _ _ I); try assumption.
  eexists. split; [reflexivity|exact D].
Qed.

(** What a header does to a batch: it ejects, or the batch goes on; without
    poison a plain header goes on. *)
Lemma batch_header k s t md m' ev : batch k s t ->
  run_routine (routine_of md (glob s)) (mkMachine s t (AtHeader md)) = (m', ev) ->
  stopped m' \/ at_ m' = InBody /\ ev = ev_none /\ batch (S k) (now m') (tran m').
Proof.
  intros [A1 A2 A3 A4 (u & -> & D)] E. unfold routine_of in E. rewrite A1, A2 in E. destruct md.
  - left. unfold run_routine in E. cbn [now tran] in E. destruct (sbm_compare_poison s) as [s1 [|]]; [injection E as <- _; now left|].
    destruct (xend (Some u)) as [[t' e']|]; injection E as <- _; [now left|now right].
  - destruct k as [|k].
    + injection E as <- <-. right. split; [reflexivity|]. split; [reflexivity|]. split; try assumption; [reflexivity|].
      eexists. split; [reflexivity|]. cbn. now rewrite D.
    + unfold run_routine in E. cbn [now tran] in E. destruct (sbm_compare_poison s) as [s1 [|]] eqn:Cp; [left; injection E as <- _; now left|].
      destruct (compare_poison_spec _ _ _ Cp) as (_ & _ & _ & _ & G & _). pose proof (batch_position_range (S k)). rewrite G, A3, A4 in E.
      cbn [set_trans tran_ctr tran_max saved_rax glob set_glob set_reg regs] in E. unfold uadd in E.
      rewrite (uint_small 64 (batch_position (S k) + 1)) in E by (unfold is_uint; lia).
      unfold upd in E at 1. rewrite Z.eqb_refl in E. rewrite !sint_small in E by (unfold is_sint; lia).
      pose proof (batch_position_next (S k) ltac:(lia)) as Nx. right.
      destruct (Z.ltb_spec (batch_position (S k) + 1) 16).
      * injection E as <- <-. split; [reflexivity|]. split; [reflexivity|]. split; try assumption; [reflexivity|now rewrite Nx|].
        exists u. split; [reflexivity|exact D].
      * destruct (xend_nested u ltac:(lia)) as (v & X & Dv). rewrite X in E. injection E as <- <-.
        split; [reflexivity|]. split; [reflexivity|]. split; try assumption; [reflexivity|now rewrite Nx|].
        eexists. split; [reflexivity|]. cbn. lia.
Qed.

(** Bodies and headers alternate until the session stops. *)
Lemma batch_run j : forall k m evs m', at_ m = InBody -> batch k (now m) (tran m) -> steps m evs m' -> length evs = (2 * j + 1)%nat ->
  stopped m' \/ (exists md, at_ m' = AtHeader md) /\ batch (k + j) (now m') (tran m').
Proof.
  induction j as [|j IH]; intros k m evs m' A B Ss L; destruct m as [s t c]; cbn [at_ now tran] in A, B; subst c;
    inversion Ss as [|? e1 m1 evs1 ? S1 Ss1]; subst; cbn [length] in L; try lia;
    destruct (batch_body _ _ _ _ _ B S1) as [P|[[md Am] B1]]; try (left; exact (stopped_steps _ _ _ P Ss1)).
  - destruct evs1; [|cbn in L; lia]. inversion Ss1; subst. right. rewrite Nat.add_0_r. split; [now exists md|exact B1].
  - inversion Ss1 as [|? e2 m2 evs2 ? S2 Ss2]; subst; cbn [length] in L; [lia|]. destruct m1 as [s1 t1 c1]. cbn [at_ now tran] in *. subst c1.
    assert (stopped m2 \/ at_ m2 = InBody /\ batch (S k) (now m2) (tran m2)) as [P|[A2 B2]].
    { inversion S2 as [|? ? ? ? ? E|]; subst; [|left; now left]. destruct (batch_header _ _ _ _ _ _ B1 E) as [P|(P & _ & Q)]; auto. }
    + left. exact (stopped_steps _ _ _ P Ss2).
    + replace (k + S j)%nat with (S k + j)%nat by lia. apply (IH (S k) m2 evs2 m' A2 B2 Ss2). lia.
Qed.

Lemma inject_batch rsp g mem0 hx : tase_model g = sb_modeled -> tase_springboard g = sb_open -> tran_max g = 16 ->
  batch 0 (now (sb_inject rsp g mem0 hx)) (tran (sb_inject rsp g mem0 hx)).
Proof. intros. split; try assumption; [reflexivity|]. eexists. split; reflexivity. Qed.

Lemma compare_poison_found s s1 : sbm_compare_poison s = (s1, true) -> tainted s.
Proof.
  intros Cp. destruct (compare_poison_spec _ _ _ Cp) as (Ep & _). unfold tainted.
  destruct (Z.eq_dec (XMM_ACCUMULATOR s) 0) as [Ac|]; [|now left].
  destruct (Z.eq_dec (pcmpeqw (XMM_DATA s) (XMM_REFERENCE s)) 0) as [Pc|]; [|now right].
  rewrite Ac, Pc in Ep. discriminate.
Qed.

(** An explicit abort in a batch: its status, and why it happened. *)
Lemma explicit_abort k s t md m' : batch k s t -> step (mkMachine s t (AtHeader md)) ev_abort m' ->
  Z.testbit (abort_status (target_ctx (glob (now m')))) TSX_XABORT = true ->
  (exists nested, abort_status (target_ctx (glob (now m'))) = xabort_status nested (abort_imm (batch_position k))) /\ tainted s.
Proof.
  intros [A1 A2 A3 A4 (u & -> & D)] St Hx. inversion St as [|? ? ? ? ? E|? ? st ? _ Z0]; subst; [|change (Z.testbit st 0 = true) in Hx; congruence].
  unfold routine_of in E. rewrite A1, A2 in E. unfold run_routine in E. cbn [now tran] in E.
  assert (Ab : forall s1, sbm_compare_poison s = (s1, true) -> sb_abort s1 (Some u) = (m', ev_abort) ->
    (exists nested, abort_status (target_ctx (glob (now m'))) = xabort_status nested (abort_imm (batch_position k))) /\ tainted s).
  { intros s1 Cp F. split; [|now apply (compare_poison_found s s1)]. exists (1 <? depth u)%nat.
    destruct (compare_poison_spec _ _ _ Cp) as (_ & _ & _ & _ & G & _). rewrite <- A4. injection F as <-.
    change (tran_ctr (glob s)) with (tran_ctr (set_trans (glob s) (tran_ctr (glob s)) (tran_max (glob s)) (regs s GREG_RAX))).
    now rewrite <- G. }
  destruct md; [|destruct k; [discriminate|]]; destruct (sbm_compare_poison s) as [s1 [|]] eqn:Cp; try exact (Ab s1 eq_refl E).
  - destruct (xend (Some u)) as [[t' e']|] eqn:X; [|discriminate]. injection E as _ ->.
    unfold xend in X. destruct (depth u) as [|[|]]; discriminate.
  - revert E. case_cmp; intros E; [discriminate|]. destruct (xend_nested u ltac:(lia)) as (v & X & _). rewrite X in E. discriminate.
Qed.

(** How the status of such an abort is counted, at each position. *)
Lemma xabort_class nested n : 0 <= n < 16 -> let st := xabort_status nested (abort_imm n) in
  Z.shiftr st 24 = (if n <=? 8 then n else 9) /\ st_poison st = (n =? 0) /\ st_modeled st = negb (n =? 0).
Proof.
  intros Hn. assert (In n (map Z.of_nat (seq 0 16))) as I by (apply in_map_iff; exists (Z.to_nat n); split; [lia|apply in_seq; lia]).
  clear Hn. cbn in I. destruct nested; repeat (destruct I as [<-|I]; [repeat split; reflexivity|]); contradiction.
Qed.

(** No poison anywhere. *)
Record clean (s : arch) : Prop := {
  clean_accumulator : XMM_ACCUMULATOR s = 0;
  clean_data : XMM_DATA s = 0;
  clean_reference : XMM_REFERENCE s = REFERENCE
}.

Lemma clean_compare s s1 p : clean s -> sbm_compare_poison s = (s1, p) -> p = false /\ clean s1.
Proof.
  intros [Ac Da Rf] Cp. destruct (compare_poison_spec s s1 p Cp) as (-> & Ac1 & Da1 & Rf1 & _). rewrite Ac, Da, Rf in *.
  split; [reflexivity|]. now split.
Qed.

Lemma clean_header k s t m' ev : batch k s t -> clean s ->
  run_routine (routine_of false (glob s)) (mkMachine s t (AtHeader false)) = (m', ev) ->
  at_ m' = InBody /\ ev = ev_none /\ batch (S k) (now m') (tran m') /\ clean (now m').
Proof.
  intros B C E. assert (at_ m' = InBody /\ clean (now m')) as [A C'].
  { destruct B as [_ A2 _ _ (u & -> & D)]. unfold routine_of in E. rewrite A2 in E. unfold run_routine in E. cbn [now tran] in E. destruct k.
    - injection E as <- _. split; [reflexivity|]. destruct C as [? ? Rf]. now split.
    - destruct (sbm_compare_poison s) as [s1 p] eqn:Cp. destruct (clean_compare _ _ _ C Cp) as [-> [X Y Z]].
      revert E. case_cmp; intros E; [injection E as <- _; split; [reflexivity|now split]|].
      destruct (xend_nested u ltac:(lia)) as (v & Xe & _). rewrite Xe in E. injection E as <- _. split; [reflexivity|now split]. }
  destruct (batch_header _ _ _ _ _ _ B E) as [[P|P]|(P & Q & R)]; [congruence|congruence|]. auto.
Qed.

Lemma steps_app m evs m1 evs' m' : steps m evs m1 -> steps m1 evs' m' -> steps m (evs ++ evs') m'.
Proof. induction 1 as [|m ev m2 evs m1 St Ss IH]; intros S2; [exact S2|]. cbn. eapply steps_cons; [exact St|auto]. Qed.

(** Idle cartridges reach every position. *)
Lemma batch_reaches k m : at_ m = InBody -> batch 0 (now m) (tran m) -> clean (now m) ->
  exists evs m', steps m evs m' /\ length evs = (2 * k)%nat /\ at_ m' = InBody /\ batch k (now m') (tran m') /\ clean (now m').
Proof.
  intros A B C. induction k as [|k (evs & m1 & S1 & L & A1 & B1 & C1)]; [exists [], m; repeat split; (apply steps_nil || assumption || apply B || apply C)|].
  destruct m1 as [s t c]. cbn [at_ now tran] in *. subst c.
  assert (S2 : step (mkMachine s t InBody) ev_none (mkMachine s (note_poison false t) (AtHeader false))) by apply (step_body false s s t false), idle_body.
  destruct (batch_body _ _ _ _ _ B1 S2) as [[P|P]|[_ B2]]; [discriminate|discriminate|]. cbn [now tran] in B2.
  destruct (run_routine (routine_of false (glob s)) (mkMachine s (note_poison false t) (AtHeader false))) as [m2 ev] eqn:R.
  destruct (clean_header _ _ _ _ _ B2 C1 R) as (A2 & -> & B3 & C2).
  exists (evs ++ [ev_none; ev_none]), m2. split; [|split; [rewrite length_app; cbn; lia|auto]].
  apply (steps_app _ _ _ _ _ S1). eapply steps_cons; [exact S2|]. eapply steps_cons; [apply step_header; exact R|apply steps_nil].
Qed.

(** A body that reads a poisoned qword. *)
Lemma poison_body s : XMM_REFERENCE s = REFERENCE -> instrumented true s (set_xmm s REG_DATA REFERENCE).
Proof.
  intros Rf. assert (T : tainted (set_xmm s REG_DATA REFERENCE)).
  { right. change (pcmpeqw REFERENCE (XMM_REFERENCE s) <> 0). rewrite Rf. vm_compute. discriminate. }
  split; auto.
Qed.

(** It aborts at the next header that looks: a plain one, or after the first
    cartridge the one of a modeled function. *)
Lemma poison_aborts k s t : batch k s t -> clean s -> let md := (k =? 0)%nat in exists m1 m',
  step (mkMachine s t InBody) ev_none m1 /\ step m1 ev_abort m' /\
  Z.testbit (abort_status (target_ctx (glob (now m')))) TSX_XABORT = true.
Proof.
  intros B [Ac Da Rf] md. destruct B as [A1 A2 A3 A4 (u & -> & D)]. set (s2 := set_xmm s REG_DATA REFERENCE).
  set (m1 := mkMachine s2 (note_poison true (Some u)) (AtHeader md)).
  destruct (sbm_compare_poison s2) as [s3 p] eqn:Cp. destruct (compare_poison_spec _ _ _ Cp) as (Ep & _). cbv zeta in Ep.
  change (XMM_ACCUMULATOR s2) with (XMM_ACCUMULATOR s) in Ep. change (XMM_REFERENCE s2) with (XMM_REFERENCE s) in Ep.
  change (XMM_DATA s2) with REFERENCE in Ep. rewrite Ac, Rf in Ep. vm_compute in Ep. subst p.
  exists m1, (fst (sb_abort s3 (note_poison true (Some u)))). split; [apply (step_body true s s2 (Some u) md); now apply poison_body|]. split.
  - apply step_header. unfold routine_of. change (glob s2) with (glob s). rewrite A1, A2.
    destruct k; cbn [md Nat.eqb]; unfold run_routine; cbn [now tran m1]; rewrite Cp; reflexivity.
  - cbn [sb_abort note_poison fst now]. unfold sb_fallback. cbn [glob set_reg set_glob target_ctx with_springboard with_ctx abort_status].
    unfold xabort_status. rewrite !Z.lor_spec. change (Z.testbit 1 TSX_XABORT) with true. now rewrite orb_true_r.
Qed.

(** C37: what [tase_eject] makes of an abort on poison depends on how many
    cartridges ran since the injection.  After [k] headers of a session that
    [tase_inject] opened the batch counter is [n = max(k - 1, 0) mod 16]; every
    explicit abort there has code [n], but 9 from the tenth position on (the
    fall-through that the source calls unreachable); it is counted as poison
    when [n = 0] and as a modeled call otherwise.  All these aborts are on
    poison, and for every [k] there is a run that has one. *)
Theorem batched_poison_misreported rsp g mem0 hx k :
  tase_model g = sb_modeled -> tase_springboard g = sb_open -> tran_max g = 16 ->
  let n := Z.of_nat (Nat.pred k) mod 16 in
  (forall evs m m', steps (sb_inject rsp g mem0 hx) evs m -> length evs = (2 * k + 1)%nat -> step m ev_abort m' ->
    let st := abort_status (target_ctx (glob (now m'))) in Z.testbit st TSX_XABORT = true ->
    Z.shiftr st 24 = (if n <=? 8 then n else 9) /\ st_poison st = (n =? 0) /\ st_modeled st = negb (n =? 0) /\ tainted (now m)) /\
  (xmmregs (target_ctx g) REG_REFERENCE = REFERENCE ->
   exists evs m m', steps (sb_inject rsp g mem0 hx) evs m /\ length evs = (2 * k + 1)%nat /\ step m ev_abort m' /\
    Z.testbit (abort_status (target_ctx (glob (now m')))) TSX_XABORT = true).
Proof.
  intros Hm Hs Mx n. set (m0 := sb_inject rsp g mem0 hx). pose proof (inject_batch rsp g mem0 hx Hm Hs Mx) as B0. fold m0 in B0. split.
  - intros evs m m' Ss L St st Hx. destruct (batch_run k 0 m0 evs m eq_refl B0 Ss L) as [P|[[md A] B]].
    + destruct P as [P|P]; inversion St as [|? ? ? ? ? ?|? ? st' ? _ Z0]; subst; cbn in P; try discriminate;
        change (Z.testbit st' 0 = true) in Hx; congruence.
    + destruct m as [s t c]. cbn [at_ now tran] in A, B. subst c.
      destruct (explicit_abort _ _ _ _ _ B St Hx) as [(nested & Ex) T]. unfold st. rewrite Ex.
      destruct (xabort_class nested n (batch_position_range k)) as (C1 & C2 & C3). auto.
  - intros Rf. destruct (batch_reaches k m0 eq_refl B0) as (evs & m & Ss & L & A & B & C); [now split|].
    destruct m as [s t c]. cbn [at_ now tran] in A, B, C. subst c. destruct (poison_aborts k s t B C) as (m1 & m' & S1 & S2 & Hx).
    exists (evs ++ [ev_none]), m1, m'. split; [exact (steps_app _ _ _ _ _ Ss (steps_cons _ _ _ _ _ S1 (steps_nil _)))|].
    split; [rewrite length_app; cbn; lia|]. split; [exact S2|exact Hx].
Qed.

Lemma batched_poison_misreported_witness : exists evs m m',
  steps demo_start evs m /\ length evs = 27%nat /\ step m ev_abort m' /\
  Z.shiftr (abort_status (target_ctx (glob (now m')))) 24 = 9 /\ st_modeled (abort_status (target_ctx (glob (now m')))) = true.
Proof.
  destruct (batched_poison_misreported 0x7ff000 demo_globals (fun _ => 0) (fun _ => 0) 13 eq_refl eq_refl eq_refl) as [All (evs & m & m' & A & L & B & X)];
    [reflexivity|].
  destruct (All evs m m' A L B X) as (C & _ & D & _).
  exists evs, m, m'. split; [exact A|]. split; [exact L|]. split; [exact B|]. split; [exact C|exact D].
Defined.

(** A session of which the springboard continues the batch. *)
Definition demo_batch : globals := with_springboard demo_globals sb_reopen.

(** An ejection at a modeled call does not preserve RAX.  The fallback
    restores RAX from R14, which holds RAX only right after a transaction
    began; a springboard that continues a batch leaves the batch limit there.
    So whatever the target had in RAX, after such a cartridge a modeled call
    hands the interpreter the value of [tran_max] (16). *)
Theorem modeled_ejection_clobbers_rax s t m1 p s2 m3 ev :
  run_routine sb_reopen (mkMachine s (Some t) (AtHeader false)) = (m1, ev_none) -> at_ m1 = InBody -> tran m1 = Some t ->
  tran_ctr (glob s) + 1 < tran_max (glob s) -> 0 <= tran_ctr (glob s) -> tran_max (glob s) < 2 ^ 63 ->
  instrumented p (now m1) s2 ->
  run_routine sb_modeled (mkMachine s2 (note_poison p (tran m1)) (AtHeader true)) = (m3, ev) -> ev <> ev_abort ->
  gregs (target_ctx (glob (now m3))) GREG_RAX = tran_max (glob s).
Proof.
  intros R1 A1 T1 C1 C2 C3 B R2 Ne. unfold run_routine in R1. cbn [now tran] in R1.
  destruct (sbm_compare_poison s) as [s1 [|]] eqn:Cp; [discriminate|].
  destruct (compare_poison_spec _ _ _ Cp) as (_ & _ & _ & _ & G1 & _). rewrite G1 in R1.
  cbn [set_trans tran_ctr tran_max saved_rax glob set_glob set_reg regs] in R1. unfold uadd in R1.
  rewrite (uint_small 64) in R1 by (unfold is_uint; lia). unfold upd in R1 at 1. rewrite Z.eqb_refl in R1.
  rewrite !sint_small in R1 by (unfold is_sint; lia). rewrite (proj2 (Z.ltb_lt _ _)) in R1 by exact C1. injection R1 as <-.
  pose proof (body_r14 _ _ _ B) as R14. cbn [now] in R14. change (regs s2 GREG_R14 = tran_max (glob s)) in R14.
  unfold run_routine in R2. cbn [now tran] in R2. destruct (sbm_compare_poison s2) as [s3 [|]] eqn:Cp2.
  - cbn in R2. injection R2 as _ <-. contradiction.
  - destruct (compare_poison_spec _ _ _ Cp2) as (_ & _ & _ & _ & _ & K14).
    assert (F : forall u, gregs (target_ctx (glob (sb_fallback 0xff000001 (set_glob s3 u)))) GREG_RAX = tran_max (glob s))
      by (intros u; rewrite fallback_greg by (vm_compute; split; congruence); cbn; now rewrite K14).
    destruct (xend _) as [[t' e']|] eqn:X; [injection R2 as <- _; apply F|].
    unfold xend in X. cbn in X. destruct (depth t) as [|[|]]; discriminate.
Qed.

Lemma modeled_ejection_clobbers_rax_witness :
  let s := set_reg (now (sb_inject 0x7ff000 demo_batch (fun _ => 0) (fun _ => 0))) GREG_RAX 7 in
  let m1 := fst (run_routine sb_reopen (mkMachine s (Some (mkTran 1 s false)) (AtHeader false))) in
  let m3 := fst (run_routine sb_modeled (mkMachine (now m1) (note_poison false (tran m1)) (AtHeader true))) in
  regs (now m1) GREG_RAX = 7 /\ gregs (target_ctx (glob (now m3))) GREG_RAX = 16.
Proof.
  set (s := set_reg (now (sb_inject 0x7ff000 demo_batch (fun _ => 0) (fun _ => 0))) GREG_RAX 7).
  set (r1 := run_routine sb_reopen (mkMachine s (Some (mkTran 1 s false)) (AtHeader false))). set (m1 := fst r1).
  set (r3 := run_routine sb_modeled (mkMachine (now m1) (note_poison false (tran m1)) (AtHeader true))). cbv zeta.
  assert (E1 : snd r1 = ev_none) by (vm_compute; reflexivity).
  assert (E3 : snd r3 = ev_commit false) by (vm_compute; reflexivity).
  assert (P1 : r1 = (m1, ev_none)) by (rewrite <- E1; apply surjective_pairing).
  assert (P3 : r3 = (fst r3, ev_commit false)) by (rewrite <- E3; apply surjective_pairing).
  split; [vm_compute; reflexivity|].
  assert (T1 : tran m1 = Some (mkTran 1 s false)) by reflexivity. assert (A1 : at_ m1 = InBody) by (vm_compute; reflexivity).
  apply (modeled_ejection_clobbers_rax s (mkTran 1 s false) m1 false (now m1) (fst r3) (ev_commit false) P1 A1 T1);
    [reflexivity|vm_compute; congruence|reflexivity|apply idle_body|exact P3|discriminate].
Defined.

(** ** What the abort counters count

    A session never touches the counters: only [tase_eject] does. *)

Definition keeps_machine (c : target_ctx_t) (m : machine) : Prop :=
  keeps_counters c (target_ctx (glob (now m))) /\
  (forall t, tran m = Some t -> keeps_counters c (target_ctx (glob (begun t)))) /\
  (at_ m = Ejected -> is_uint 32 (abort_status (target_ctx (glob (now m))))).

Lemma keeps_fallback c st s : keeps_counters c (target_ctx (glob s)) -> keeps_counters c (target_ctx (glob (sb_fallback st s))).
Proof. intros []. now split. Qed.

Lemma xabort_status_range nested ctr : is_uint 32 (xabort_status nested (abort_imm ctr)).
Proof.
  unfold abort_imm. destruct ((0 <=? ctr) && (ctr <=? 8)) eqn:H; [|destruct nested; split; vm_compute; congruence].
  assert (In ctr (map Z.of_nat (seq 0 9))) as I by (apply in_map_iff; exists (Z.to_nat ctr); split; [lia|apply in_seq; lia]).
  clear H. cbn in I. destruct nested; repeat (destruct I as [<-|I]; [split; vm_compute; congruence|]); contradiction.
Qed.

Lemma keeps_abort c s t m ev : keeps_counters c (target_ctx (glob s)) -> (forall u, t = Some u -> keeps_counters c (target_ctx (glob (begun u)))) ->
  sb_abort s t = (m, ev) -> keeps_machine c m.
Proof.
  intros K B E. unfold sb_abort in E. destruct t as [u|]; injection E as <- _.
  - split; [apply keeps_fallback, B; reflexivity|]. split; [discriminate|]. intros _. apply xabort_status_range.
  - split; [now apply keeps_fallback|]. split; [discriminate|]. intros _. apply uint_range. lia.
Qed.

Lemma keeps_xend c t t' ev : xend t = Some (t', ev) -> (forall u, t = Some u -> keeps_counters c (target_ctx (glob (begun u)))) ->
  forall u, t' = Some u -> keeps_counters c (target_ctx (glob (begun u))).
Proof.
  unfold xend. intros E B u ->. destruct t as [v|]; [|discriminate]. destruct (depth v) as [|[|d]]; try discriminate.
  injection E as <- _. exact (B v eq_refl).
Qed.

Lemma keeps_xbegin c s t : keeps_counters c (target_ctx (glob s)) -> (forall u, t = Some u -> keeps_counters c (target_ctx (glob (begun u)))) ->
  forall u, xbegin s t = Some u -> keeps_counters c (target_ctx (glob (begun u))).
Proof. intros K B u E. destruct t as [v|]; injection E as <-; [exact (B v eq_refl)|exact K]. Qed.

Lemma keeps_step c m ev m' : keeps_machine c m -> step m ev m' -> keeps_machine c m'.
Proof.
  intros (K & B & _) St. destruct St as [p s s' t md I|s t md m' ev E|s t st at0 [S0 S1] _].
  - split; [cbn; now rewrite (body_globals _ _ _ I)|]. split; [|discriminate]. intros u Hu. destruct t as [v|]; [|discriminate].
    injection Hu as <-. exact (B v eq_refl).
  - unfold run_routine in E. cbn [now tran] in *. destruct (routine_of md (glob s)).
    + injection E as <- _. split; [exact K|]. split; [discriminate|discriminate].
    + injection E as <- _. split; [exact K|]. split; [|discriminate]. now apply keeps_xbegin.
    + destruct (sbm_compare_poison s) as [s1 p] eqn:Cp. destruct (compare_poison_spec _ _ _ Cp) as (_ & _ & _ & _ & G & _).
      assert (K1 : keeps_counters c (target_ctx (glob s1))) by (rewrite G; exact K). destruct p; [exact (keeps_abort _ _ _ _ _ K1 B E)|].
      revert E. case_cmp; intros E; [injection E as <- _; split; [exact K1|split; [exact B|discriminate]]|].
      destruct (xend t) as [[t' e]|] eqn:X; injection E as <- _; (split; [exact K1|split; [|discriminate]]); [|discriminate].
      apply keeps_xbegin; [exact K1|exact (keeps_xend _ _ _ _ X B)].
    + injection E as <- _. split; [exact K|]. split; [exact B|discriminate].
    + destruct (sbm_compare_poison s) as [s1 p] eqn:Cp. destruct (compare_poison_spec _ _ _ Cp) as (_ & _ & _ & _ & G & _).
      assert (K1 : keeps_counters c (target_ctx (glob s1))) by (rewrite G; exact K). destruct p; [exact (keeps_abort _ _ _ _ _ K1 B E)|].
      destruct (xend t) as [[t' e]|] eqn:X; injection E as <- _; [|split; [exact K1|split; discriminate]].
      split; [now apply keeps_fallback|]. split; [exact (keeps_xend _ _ _ _ X B)|]. intros _. split; vm_compute; congruence.
  - split; [apply keeps_fallback, B; reflexivity|]. split; [discriminate|]. intros _. split; [exact S0|]. cbn. lia.
Qed.

Lemma session_keeps rsp g mem0 hx evs m : steps (sb_inject rsp g mem0 hx) evs m -> keeps_machine (target_ctx g) m.
Proof.
  assert (I : keeps_machine (target_ctx g) (sb_inject rsp g mem0 hx)).
  { split; [now split|]. split; [|discriminate]. intros t Ht. injection Ht as <-. now split. }
  revert I. generalize (target_ctx g) (sb_inject rsp g mem0 hx). intros c m0 I Ss.
  induction Ss as [|? ? ? ? ? St Ss IH]; [exact I|]. apply IH. exact (keeps_step _ _ _ _ I St).
Qed.

(** The executor's history: any code of its own that leaves the counters and
    the logging flags alone, then a session of [tase_inject], with the
    status the session left, and so on. *)
Inductive ejections : globals -> list Z -> globals -> Prop :=
| ejections_nil g : ejections g [] g
| ejections_cons g g0 enable rsp mem0 hx evs m g1 sts g' :
    keeps_counters (target_ctx g) (target_ctx g0) ->
    steps (sb_inject rsp (inject_setup enable g0) mem0 hx) evs m -> at_ m = Ejected ->
    tase_inject (fun _ => Some (glob (now m))) enable g0 = Some g1 ->
    ejections g1 sts g' ->
    ejections g (abort_status (target_ctx (glob (now m))) :: sts) g'.

(** One session and its ejection. *)
Lemma session_ejected g g0 enable rsp mem0 hx evs m g1 : counters_ok (target_ctx g) -> keeps_counters (target_ctx g) (target_ctx g0) ->
  steps (sb_inject rsp (inject_setup enable g0) mem0 hx) evs m -> at_ m = Ejected ->
  tase_inject (fun _ => Some (glob (now m))) enable g0 = Some g1 ->
  let c := target_ctx (glob (now m)) in
  keeps_counters (target_ctx g) c /\ is_uint 32 (abort_status c) /\ counters_ok c /\ target_ctx g1 = ejected_ctx c.
Proof.
  intros Ok K0 Ss A E c. destruct (session_keeps _ _ _ _ _ _ Ss) as (K & _ & R).
  assert (K1 : keeps_counters (target_ctx g) c).
  { transitivity (target_ctx (inject_setup enable g0)); [|exact K]. transitivity (target_ctx g0); [exact K0|now split]. }
  pose proof (keeps_counters_ok _ _ K1 Ok) as Ok1. split; [exact K1|]. split; [exact (R A)|]. split; [exact Ok1|].
  exact (tase_eject_ctx _ _ Ok1 E).
Qed.

(** The counters after [sts] ejections from those of [c]. *)
Record counted (c : target_ctx_t) (sts : list Z) (c' : target_ctx_t) : Prop := {
  counted_total : abort_count_total c' = uint 32 (abort_count_total c + Z.of_nat (length sts));
  counted_unknown : abort_count_unknown c' = uint 32 (abort_count_unknown c + zcount st_unknown sts);
  counted_modeled : abort_count_modeled c' = uint 32 (abort_count_modeled c + zcount st_modeled sts);
  counted_poison : abort_count_poison c' = uint 32 (abort_count_poison c + zcount st_poison sts);
  counted_codes : forall i, (i < TSX_NUM_CODES)%nat ->
    nth i (abort_counts c') 0 = uint 32 (nth i (abort_counts c) 0 + zcount (fun st => Z.testbit st (Z.of_nat i)) sts)
}.

Lemma counted_nil c : counters_ok c -> counted c [] c.
Proof.
  intros [? ? ? ? F L]. split; try (symmetry; rewrite Z.add_0_r; now apply uint_small).
  intros i Hi. symmetry. rewrite Z.add_0_r. apply uint_small. rewrite Forall_forall in F. apply F, nth_In. lia.
Qed.

Lemma counted_cons c c1 sts c' : counters_ok c -> keeps_counters c c1 -> is_uint 32 (abort_status c1) ->
  counted (ejected_ctx c1) sts c' -> counted c (abort_status c1 :: sts) c'.
Proof.
  intros Ok [K1 K2 K3 K4 K5 _] Hst [T U M P C]. cbn in T, U, M, P, C. rewrite K1, bump_counts in T. rewrite K2, bump_counts in U.
  rewrite K3, bump_counts in M. rewrite K4, bump_counts in P. split; rewrite ?zcount_cons; try assumption.
  - rewrite T. f_equal. cbn [length b2z]. lia.
  - intros i Hi. rewrite (C i Hi), zcount_cons, K5. pose proof (ok_length _ Ok) as L.
    rewrite count_codes_nth by (assumption || lia). apply (bump_counts (Z.testbit (abort_status c1) (Z.of_nat i))).
Qed.

(** The classes of [tase_eject], and the aborts it does not classify. *)
Lemma classes_partition sts :
  zcount st_unknown sts + zcount st_modeled sts + zcount st_poison sts + zcount st_hardware sts = Z.of_nat (length sts).
Proof.
  induction sts as [|st sts IH]; [reflexivity|]. rewrite !zcount_cons. cbn [length]. pose proof (st_classes st). lia.
Qed.

Lemma ejections_status g sts g' : counters_ok (target_ctx g) -> ejections g sts g' ->
  counted (target_ctx g) sts (target_ctx g') /\ status (target_ctx g') = status (target_ctx g).
Proof.
  intros Ok Ej. revert Ok. induction Ej as [g|g g0 enable rsp mem0 hx evs m g1 sts g' K Ss A E Ej IH]; intros Ok.
  - split; [now apply counted_nil|reflexivity].
  - destruct (session_ejected _ _ _ _ _ _ _ _ _ Ok K Ss A E) as (K1 & St & Ok1 & E1). rewrite E1 in IH.
    destruct (IH (ejected_ok _ Ok1)) as [Cn Sn]. split; [exact (counted_cons _ _ _ _ Ok K1 St Cn)|]. rewrite Sn. exact (kept_status _ _ K1).
Qed.

Lemma ejections_app g sts g1 sts' g' : ejections g sts g1 -> ejections g1 sts' g' -> ejections g (sts ++ sts') g'.
Proof. induction 1; intros; [assumption|]. cbn. eapply ejections_cons; eauto. Qed.

(** Sessions of each kind, from any counters. *)
Lemma session_history g g0 rsp evs m : keeps_counters (target_ctx g) (target_ctx g0) -> status (target_ctx g) .& SB_FLAG_LOGABORT_STACK = 0 ->
  steps (sb_inject rsp (inject_setup true g0) (fun _ => 0) (fun _ => 0)) evs m -> at_ m = Ejected ->
  exists g1, ejections g [abort_status (target_ctx (glob (now m)))] g1.
Proof.
  intros K Hs Ss A. destruct (session_keeps _ _ _ _ _ _ Ss) as (K1 & _ & _).
  destruct (tase_eject_returns (glob (now m))) as (g1 & E).
  { rewrite (kept_status _ _ K1). change (status (target_ctx g0) .& SB_FLAG_LOGABORT_STACK = 0). now rewrite (kept_status _ _ K). }
  exists g1. eapply ejections_cons; [exact K|exact Ss|exact A|exact E|apply ejections_nil].
Qed.

Lemma hardware_session g st : status (target_ctx g) .& SB_FLAG_LOGABORT_STACK = 0 -> is_uint 6 st -> Z.testbit st 0 = false ->
  exists g1, ejections g [st] g1.
Proof.
  intros Hs Hst H0. set (m0 := sb_inject 0x7ff000 (inject_setup true g) (fun _ => 0) (fun _ => 0)).
  apply (session_history g g 0x7ff000 [ev_abort] (mkMachine (sb_fallback st (now m0)) None Ejected)); [reflexivity|exact Hs| |reflexivity].
  eapply steps_cons; [|apply steps_nil]. apply (step_hardware (now m0) (mkTran 1 (now m0) false) st InBody Hst H0).
Qed.

(** The state of [demo_globals] with the counters of [g]. *)
Definition demo_counting (g : globals) : globals :=
  let c := target_ctx g in
  with_ctx demo_globals (set_counts (target_ctx demo_globals) (abort_counts c) (abort_count_modeled c) (abort_count_poison c)
    (abort_count_unknown c) (abort_count_total c)).

Lemma modeled_call_session g (poison : bool) : status (target_ctx g) = 0 ->
  exists g1, ejections g [if poison then xabort_status false 0 else 0xff000001] g1.
Proof.
  intros Hs. set (g0 := demo_counting g). set (m0 := sb_inject 0x7ff000 (inject_setup true g0) (fun _ => 0) (fun _ => 0)).
  set (s := if poison then set_xmm (now m0) REG_DATA REFERENCE else now m0).
  set (m1 := mkMachine s (note_poison poison (tran m0)) (AtHeader true)). set (r := run_routine sb_modeled m1).
  assert (B : instrumented poison (now m0) s) by (destruct poison; [now apply poison_body|apply idle_body]).
  assert (Ss : steps m0 [ev_none; snd r] (fst r)).
  { eapply steps_cons; [exact (step_body poison (now m0) s (tran m0) true B)|]. eapply steps_cons; [|apply steps_nil].
    apply step_header. destruct poison; apply surjective_pairing. }
  assert (K : keeps_counters (target_ctx g) (target_ctx g0)) by (split; try reflexivity; now rewrite Hs).
  assert (A : at_ (fst r) = Ejected) by (destruct poison; vm_compute; reflexivity).
  replace (if poison then _ else _) with (abort_status (target_ctx (glob (now (fst r))))) by (destruct poison; vm_compute; reflexivity).
  apply (session_history g g0 0x7ff000 [ev_none; snd r] (fst r) K); [now rewrite Hs|exact Ss|exact A].
Qed.

(** C35: the abort statistics are exact.  Over any history of sessions, from
    any counters, the total counts the ejections; the unknown, modeled and
    poison counters count the statuses whose low byte is 0, the explicit
    aborts with a code and those without, and [abort_counts[i]] the statuses
    with flag [i], all modulo 2^32.  These three classes and the hardware
    aborts that give a reason partition the ejections.  Unless the flags ask
    for a stack log, every session that ejects returns to the executor. *)
Theorem abort_counters_exact g sts g' : counters_ok (target_ctx g) -> ejections g sts g' ->
  let c := target_ctx g in let c' := target_ctx g' in
  abort_count_total c' = uint 32 (abort_count_total c + Z.of_nat (length sts)) /\
  abort_count_unknown c' = uint 32 (abort_count_unknown c + zcount st_unknown sts) /\
  abort_count_modeled c' = uint 32 (abort_count_modeled c + zcount st_modeled sts) /\
  abort_count_poison c' = uint 32 (abort_count_poison c + zcount st_poison sts) /\
  (forall i, (i < TSX_NUM_CODES)%nat ->
    nth i (abort_counts c') 0 = uint 32 (nth i (abort_counts c) 0 + zcount (fun st => Z.testbit st (Z.of_nat i)) sts)) /\
  zcount st_unknown sts + zcount st_modeled sts + zcount st_poison sts + zcount st_hardware sts = Z.of_nat (length sts) /\
  (status c .& SB_FLAG_LOGABORT_STACK = 0 -> forall g0 enable rsp mem0 hx evs m,
    keeps_counters c' (target_ctx g0) -> steps (sb_inject rsp (inject_setup enable g0) mem0 hx) evs m -> at_ m = Ejected ->
    exists g1, ejections g (sts ++ [abort_status (target_ctx (glob (now m)))]) g1).
Proof.
  intros Ok Ej c c'. destruct (ejections_status _ _ _ Ok Ej) as [[T U M P C] S]. fold c c' in T, U, M, P, C, S.
  repeat match goal with |- _ /\ _ => split; [assumption|] end. split; [apply classes_partition|].
  intros Hs g0 enable rsp mem0 hx evs m K Ss A. destruct (session_keeps _ _ _ _ _ _ Ss) as (K1 & _ & _).
  destruct (tase_eject_returns (glob (now m))) as (g1 & E).
  { rewrite (kept_status _ _ K1). change (status (target_ctx g0) .& SB_FLAG_LOGABORT_STACK = 0). now rewrite (kept_status _ _ K), S. }
  exists g1. apply (ejections_app _ _ _ _ _ Ej). eapply ejections_cons; [exact K|exact Ss|exact A|exact E|apply ejections_nil].
Qed.

(** Four sessions: one stopped by the hardware without a reason, one for a
    conflict, one on poison, one at a modeled call. *)
Lemma abort_counters_exact_witness : exists g', ejections demo_globals [0; 4; 1; 0xff000001] g' /\
  abort_count_total (target_ctx g') = 4 /\ abort_count_unknown (target_ctx g') = 1 /\ abort_count_poison (target_ctx g') = 1 /\
  abort_count_modeled (target_ctx g') = 1 /\ nth 2 (abort_counts (target_ctx g')) 0 = 1.
Proof.
  assert (Ok : counters_ok (target_ctx demo_globals)) by (split; try (split; vm_compute; congruence); repeat constructor; vm_compute; congruence).
  destruct (hardware_session demo_globals 0 eq_refl ltac:(split; vm_compute; congruence) eq_refl) as (g1 & E1).
  destruct (ejections_status _ _ _ Ok E1) as [C1 S1].
  destruct (hardware_session g1 4 ltac:(now rewrite S1) ltac:(split; vm_compute; congruence) eq_refl) as (g2 & E2).
  pose proof (ejections_app _ _ _ _ _ E1 E2) as E12. destruct (ejections_status _ _ _ Ok E12) as [C2 S2].
  destruct (modeled_call_session g2 true S2) as (g3 & E3).
  pose proof (ejections_app _ _ _ _ _ E12 E3) as E13. destruct (ejections_status _ _ _ Ok E13) as [C3 S3].
  destruct (modeled_call_session g3 false S3) as (g4 & E4). pose proof (ejections_app _ _ _ _ _ E13 E4) as E14.
  exists g4. split; [exact E14|].
  destruct (abort_counters_exact demo_globals _ g4 Ok E14) as (T & U & M & P & C & _).
  split; [exact T|]. split; [exact U|]. split; [exact P|]. split; [exact M|]. apply (C 2%nat). unfold TSX_NUM_CODES. lia.
Defined.
