(* ===== verification/ContextLayout.v ===== *)
(** * The target context in memory

    The C code of [test/tase/common.c] reaches the members of [target_ctx] by
    their names, the assembly of [springboard.S] by the [CTX_OFFSET_*] macros
    of [tase_interp.h].  Here the context is its bytes, laid out by the rules of
    C; the stores of [.Lsb_eject] and the loads of [sb_inject] act on the bytes
    at the offsets of the macros ([tase_asm.h]), and the record operations
    of [TaseRuntime] and [Springboard] are shown to be what they do. *)

From S2P Require Import Prelude TaseRuntime Springboard.

(** ** The structure *)

(** The members of [target_ctx_t] up to [status]: size and alignment. *)
Inductive ctx_member :=
  m_target_stack | m_target_exit_addr | m_sentinel | m_xmmregs | m_gregs | m_interpreter_stack
| m_abort_status | m_last_abort_status | m_status.
Definition ctx_members : list (ctx_member * Z * Z) :=
  [(m_target_stack, STACK_SIZE - 3 * 8, PAGE_SIZE); (m_target_exit_addr, 8, 8); (m_sentinel, 2 * 8, 8);
   (m_xmmregs, NXMMREG * 16, 16); (m_gregs, TASE_NGREG * 8, 8); (m_interpreter_stack, 8, 8);
   (m_abort_status, 4, 4); (m_last_abort_status, 4, 4); (m_status, 8, 8)].

(** Where the C rules put each member, with its size. *)
Fixpoint layout (off : Z) (ms : list (ctx_member * Z * Z)) : list (ctx_member * Z * Z) :=
  match ms with
  | [] => []
  | (m, size, align) :: rest => let off := (off + align - 1) / align * align in (m, off, size) :: layout (off + size) rest
  end.

(** Byte [i] of a little-endian value. *)
Definition byte (v i : Z) : Z := Z.shiftr v (8 * i) .& 0xff.

(** Byte [i] of a member; arrays have their elements one after the other. *)
Definition member_byte (c : target_ctx_t) (m : ctx_member) (i : Z) : Z :=
  match m with
  | m_target_stack => byte (target_stack c (i / 8 * 8)) (i mod 8)
  | m_target_exit_addr => byte (target_exit_addr c) i
  | m_sentinel => byte (sentinel c (i / 8)) (i mod 8)
  | m_xmmregs => byte (xmmregs c (i / 16)) (i mod 16)
  | m_gregs => byte (gregs c (i / 8)) (i mod 8)
  | m_interpreter_stack => byte (interpreter_stack c) i
  | m_abort_status => byte (abort_status c) i
  | m_last_abort_status => byte (last_abort_status c) i
  | m_status => byte (status c) i
  end.

Fixpoint byte_in (ms : list (ctx_member * Z * Z)) (c : target_ctx_t) (o : Z) : Z :=
  match ms with
  | [] => 0
  | (m, off, size) :: rest => if (off <=? o) && (o <? off + size) then member_byte c m (o - off) else byte_in rest c o
  end.

(** The bytes at [&target_ctx]. *)
Definition image (c : target_ctx_t) : file := byte_in (layout 0 ctx_members) c.

(** ** Memory accesses *)

(** A move of [n] bytes to and from [target_ctx+off]. *)
Definition store_bytes (img : file) (n off v : Z) : file :=
  fun o => if (off <=? o) && (o <? off + n) then byte v (o - off) else img o.
Fixpoint load_bytes (n : nat) (img : file) (off : Z) : Z :=
  match n with O => 0 | S n => img off + 256 * load_bytes n img (off + 1) end.

(** The stores of [.Lsb_fallback] and [.Lsb_eject], in their order: width in
    bytes, offset and value.  RAX is reloaded from R14 before it is stored. *)
Definition eject_stores (eax : Z) (s : arch) : list (Z * Z * Z) :=
  (4, CTX_OFFSET_ABORT_STATUS, eax) ::
  map (fun i => (8, CTX_OFFSET_GREG i, if i =? GREG_RAX then regs s GREG_R14 else regs s i)) [0; 1; 2; 3; 4; 5; 6; 7; 8; 9; 10; 11; 12; 13; 14; 15] ++
  (1, CTX_OFFSET_GREG GREG_EFL, regs s GREG_EFL) ::
  map (fun i => (16, CTX_OFFSET_XMMREG i, xmm s i)) [0; 12; 13; 14; 15].

Definition run_stores (l : list (Z * Z * Z)) (img : file) : file :=
  fold_left (fun img '(n, off, v) => store_bytes img n off v) l img.

(** What [sb_inject] loads; the flags go through AH. *)
Definition loaded_regs (img : file) : file :=
  fun i => if (0 <=? i) && (i <=? 15) then load_bytes 8 img (CTX_OFFSET_GREG i) else load_bytes 1 img (CTX_OFFSET_GREG GREG_EFL).
Definition loaded_xmm (img hostxmm : file) : file :=
  fun i => if ctx_store_xmm i then load_bytes 16 img (CTX_OFFSET_XMMREG i) else hostxmm i.

(** ** Where a byte lies *)

Definition member_at (m : ctx_member) (off size : Z) : Prop := In (m, off, size) (layout 0 ctx_members).

Definition context_layout : list (ctx_member * Z * Z) := Eval vm_compute in layout 0 ctx_members.

Lemma layout_eq : layout 0 ctx_members = context_layout.
Proof. vm_compute. reflexivity. Qed.

(** The members are in order and do not overlap. *)
Fixpoint ordered (from : Z) (ms : list (ctx_member * Z * Z)) : bool :=
  match ms with [] => true | (_, off, size) :: rest => (from <=? off) && (0 <=? size) && ordered (off + size) rest end.

Lemma ordered_from ms : forall from m off size, ordered from ms = true -> In (m, off, size) ms -> from <= off.
Proof.
  induction ms as [|[[m0 off0] size0] rest IH]; intros from m off size O I; [contradiction|]. cbn [ordered] in O.
  apply andb_true_iff in O as [O R]. apply andb_true_iff in O as [O1 O2]. destruct I as [I|I]; [injection I as -> -> ->; lia|].
  specialize (IH _ _ _ _ R I). lia.
Qed.

Lemma byte_in_member ms : forall from m off size c o, ordered from ms = true -> In (m, off, size) ms -> off <= o < off + size ->
  byte_in ms c o = member_byte c m (o - off).
Proof.
  induction ms as [|[[m0 off0] size0] rest IH]; intros from m off size c o O I Ho; [contradiction|]. cbn [ordered] in O. cbn [byte_in].
  apply andb_true_iff in O as [O R]. destruct I as [I|I].
  - injection I as -> -> ->. destruct (Z.leb_spec off o), (Z.ltb_spec o (off + size)); try lia. reflexivity.
  - pose proof (ordered_from _ _ _ _ _ R I). destruct (Z.leb_spec off0 o), (Z.ltb_spec o (off0 + size0)); try lia; exact (IH _ _ _ _ _ _ R I Ho).
Qed.

Lemma image_member m off size c o : member_at m off size -> off <= o < off + size -> image c o = member_byte c m (o - off).
Proof. intros I Ho. apply (byte_in_member _ 0 m off size); [rewrite layout_eq; vm_compute; reflexivity|exact I|exact Ho]. Qed.

(** Two contexts whose members have the same bytes have the same image. *)
Lemma byte_in_ext ms c c' o : (forall m off size, In (m, off, size) ms -> off <= o < off + size -> member_byte c m (o - off) = member_byte c' m (o - off)) ->
  byte_in ms c o = byte_in ms c' o.
Proof.
  induction ms as [|[[m off] size] rest IH]; intros H; [reflexivity|]. cbn [byte_in].
  destruct (Z.leb_spec off o), (Z.ltb_spec o (off + size)); cbn [andb]; 
    try (apply IH; intros m' off' size' I Hi; exact (H _ _ _ (or_intror I) Hi)).
  apply (H m off size); [now left|lia].
Qed.

Lemma member_unique m off size off' size' : member_at m off size -> member_at m off' size' -> off = off' /\ size = size'.
Proof.
  unfold member_at. rewrite layout_eq. intros I I'. cbn in I, I'.
  repeat (destruct I as [I|I]; [injection I as <- <- <-; repeat (destruct I' as [I'|I']; [now inversion I'|]); contradiction|]). contradiction.
Qed.

(** A store into one member changes the image as it changes the member. *)
Lemma store_member c c' m off size n j v : member_at m off size -> 0 <= j -> j + n <= size ->
  (forall i, 0 <= i < size -> member_byte c' m i = if (j <=? i) && (i <? j + n) then byte v (i - j) else member_byte c m i) ->
  (forall m' i, m' <> m -> member_byte c' m' i = member_byte c m' i) ->
  forall o, store_bytes (image c) n (off + j) v o = image c' o.
Proof.
  intros I Hj Hn Hm Ho o. unfold store_bytes. destruct (Z_lt_dec o off) as [L|L]; [|destruct (Z_lt_dec o (off + size)) as [L'|L']].
  2: { rewrite !(image_member m off size) by (assumption || lia). rewrite (Hm (o - off)) by lia.
       replace (o - off - j) with (o - (off + j)) by ring.
       destruct (Z.leb_spec (off + j) o), (Z.ltb_spec o (off + j + n)), (Z.leb_spec j (o - off)), (Z.ltb_spec (o - off) (j + n)); reflexivity || lia. }
  all: replace ((off + j <=? o) && (o <? off + j + n)) with false by (destruct (Z.leb_spec (off + j) o), (Z.ltb_spec o (off + j + n)); reflexivity || lia).
  all: apply byte_in_ext; intros m' off' size' I' Hi; symmetry; apply Ho; intros ->;
    destruct (member_unique _ _ _ _ _ I I') as [<- <-]; lia.
Qed.

(** ** The registers *)

Lemma byte_spec v i b : 0 <= i -> 0 <= b -> Z.testbit (byte v i) b = (b <? 8) && Z.testbit v (8 * i + b).
Proof.
  intros Hi Hb. unfold byte. change 0xff with (Z.ones 8). rewrite Z.land_spec, Z.shiftr_spec by lia.
  destruct (Z.ltb_spec b 8); [rewrite Z.ones_spec_low by lia|rewrite Z.ones_spec_high by lia]; rewrite ?andb_true_r, ?andb_false_r; cbn [andb];
    [f_equal; lia|reflexivity].
Qed.

Lemma member_gregs : member_at m_gregs CTX_OFFSET_GREGS 144.
Proof. unfold member_at. rewrite layout_eq. vm_compute. tauto. Qed.

Lemma member_xmmregs : member_at m_xmmregs CTX_OFFSET_XMMREGS 256.
Proof. unfold member_at. rewrite layout_eq. vm_compute. tauto. Qed.

(** An element of an array of [w]-byte elements. *)
Lemma element_byte (f g : file) w i v k : 0 < w -> 0 <= k ->
  (forall b, 0 <= b < w -> byte (g i) b = byte v b) -> (forall j, j <> i -> g j = f j) ->
  byte (g (k / w)) (k mod w) = if (w * i <=? k) && (k <? w * i + w) then byte v (k - w * i) else byte (f (k / w)) (k mod w).
Proof.
  intros Hw Hk Hv Ho. pose proof (Z.div_mod k w ltac:(lia)). pose proof (Z.mod_pos_bound k w Hw).
  destruct (Z.eq_dec (k / w) i) as [E|N].
  - rewrite E in *. destruct (Z.leb_spec (w * i) k), (Z.ltb_spec k (w * i + w)); try lia. cbn [andb]. rewrite Hv by lia. f_equal. lia.
  - rewrite (Ho _ N). destruct (Z.leb_spec (w * i) k), (Z.ltb_spec k (w * i + w)); try reflexivity. exfalso. apply N. nia.
Qed.

Definition set_xmmregs (c : target_ctx_t) (x : file) : target_ctx_t :=
  mkCtx (target_stack c) (target_exit_addr c) (sentinel c) x (gregs c) (interpreter_stack c) (abort_status c)
    (last_abort_status c) (status c) (abort_counts c) (abort_count_modeled c) (abort_count_poison c)
    (abort_count_unknown c) (abort_count_total c).

Lemma store_greg c i v o : 0 <= i < 18 -> store_bytes (image c) 8 (CTX_OFFSET_GREG i) v o = image (set_greg c i v) o.
Proof.
  intros Hi. unfold CTX_OFFSET_GREG. replace (i * 8 + CTX_OFFSET_GREGS) with (CTX_OFFSET_GREGS + 8 * i) by lia.
  apply (store_member _ _ m_gregs _ 144); [exact member_gregs|lia|lia| |now intros [] ? N].
  intros k Hk. apply (element_byte (gregs c) (upd (gregs c) i v) 8 i v k); [lia|lia| |].
  - intros b _. unfold upd. now rewrite Z.eqb_refl.
  - intros j N. unfold upd. now rewrite (proj2 (Z.eqb_neq j i) N).
Qed.

Lemma store_xmmreg c i v o : 0 <= i < 16 ->
  store_bytes (image c) 16 (CTX_OFFSET_XMMREG i) v o = image (set_xmmregs c (upd (xmmregs c) i v)) o.
Proof.
  intros Hi. unfold CTX_OFFSET_XMMREG. replace (i * 16 + CTX_OFFSET_XMMREGS) with (CTX_OFFSET_XMMREGS + 16 * i) by lia.
  apply (store_member _ _ m_xmmregs _ 256); [exact member_xmmregs|lia|lia| |now intros [] ? N].
  intros k Hk. apply (element_byte (xmmregs c) (upd (xmmregs c) i v) 16 i v k); [lia|lia| |].
  - intros b _. unfold upd. now rewrite Z.eqb_refl.
  - intros j N. unfold upd. now rewrite (proj2 (Z.eqb_neq j i) N).
Qed.

Lemma store_abort_status c v o :
  store_bytes (image c) 4 CTX_OFFSET_ABORT_STATUS v o = image (set_abort c v (last_abort_status c)) o.
Proof.
  rewrite <- (Z.add_0_r CTX_OFFSET_ABORT_STATUS) at 1. apply (store_member _ _ m_abort_status _ 4); [|lia|lia| |now intros [] ? N].
  - unfold member_at. rewrite layout_eq. vm_compute. tauto.
  - intros k Hk. rewrite Z.sub_0_r, (proj2 (Z.leb_le 0 k)), (proj2 (Z.ltb_lt k (0 + 4))) by lia. reflexivity.
Qed.

(** The byte store of the flags. *)
Lemma merge_byte x v i : is_uint 8 v -> 0 <= i -> byte ((x .& Z.lnot 0xff) .| v) i = if i =? 0 then byte v 0 else byte x i.
Proof.
  intros Hv Hi. apply Z.bits_inj'. intros b Hb. rewrite byte_spec, Z.lor_spec, Z.land_spec, Z.lnot_spec by lia.
  change 0xff with (Z.ones 8). destruct (Z.eqb_spec i 0) as [->|N].
  - rewrite byte_spec by lia. destruct (Z.ltb_spec b 8); [|reflexivity]. rewrite Z.ones_spec_low by lia. cbn [negb andb]. now rewrite andb_false_r.
  - rewrite byte_spec, Z.ones_spec_high by lia. destruct Hv as [V0 V1]. rewrite (Z.bits_above_log2 v).
    + now rewrite orb_false_r, andb_true_r.
    + exact V0.
    + destruct (Z.eq_dec v 0) as [->|]; [change (Z.log2 0) with 0; lia|]. assert (Z.log2 v < 8) by (apply Z.log2_lt_pow2; lia). lia.
Qed.

Lemma store_flags c v o : is_uint 8 v ->
  store_bytes (image c) 1 (CTX_OFFSET_GREG GREG_EFL) v o = image (set_greg c GREG_EFL ((gregs c GREG_EFL .& Z.lnot 0xff) .| v)) o.
Proof.
  intros Hv. set (w := (gregs c GREG_EFL .& Z.lnot 0xff) .| v). rewrite <- (store_greg c GREG_EFL w o) by (unfold GREG_EFL; lia).
  unfold store_bytes. set (off := CTX_OFFSET_GREG GREG_EFL).
  destruct (Z.leb_spec off o), (Z.ltb_spec o (off + 1)), (Z.ltb_spec o (off + 8)); try lia; try reflexivity; cbn [andb];
    unfold w; rewrite merge_byte by (assumption || lia); destruct (Z.eqb_spec (o - off) 0) as [E|N]; try lia; [now rewrite E|].
  rewrite (image_member m_gregs CTX_OFFSET_GREGS 144) by (exact member_gregs || (unfold off, CTX_OFFSET_GREG, GREG_EFL in *; lia)).
  unfold off, CTX_OFFSET_GREG, GREG_EFL in *. cbn [member_byte]. replace (o - CTX_OFFSET_GREGS) with (17 * 8 + (o - (17 * 8 + CTX_OFFSET_GREGS))) by ring.
  now destruct (div_mod_pair 17 (o - (17 * 8 + CTX_OFFSET_GREGS)) 8 ltac:(lia)) as [-> ->].
Qed.

(** ** The stores of an ejection *)

Lemma store_bytes_ext f g n off v o : (forall o, f o = g o) -> store_bytes f n off v o = store_bytes g n off v o.
Proof. intros E. unfold store_bytes. now rewrite E. Qed.

Lemma run_stores_ext l : forall f g, (forall o, f o = g o) -> forall o, run_stores l f o = run_stores l g o.
Proof. induction l as [|[[n off] v] l IH]; intros f g E o; [apply E|]. cbn. apply IH. intros. now apply store_bytes_ext. Qed.

Lemma run_stores_app l l' img : run_stores (l ++ l') img = run_stores l' (run_stores l img).
Proof. apply fold_left_app. Qed.

Lemma run_stores_cons n off v l img : run_stores ((n, off, v) :: l) img = run_stores l (store_bytes img n off v).
Proof. reflexivity. Qed.

Lemma run_gregs r l : forall c, Forall (fun i => 0 <= i < 18) l -> forall o,
  run_stores (map (fun i => (8, CTX_OFFSET_GREG i, r i)) l) (image c) o = image (fold_left (fun c i => set_greg c i (r i)) l c) o.
Proof.
  induction l as [|i l IH]; intros c F o; [reflexivity|]. inversion F; subst. cbn [fold_left]. rewrite <- IH by assumption.
  cbn. apply run_stores_ext. intros. now apply store_greg.
Qed.

Lemma run_xmmregs x l : forall c, Forall (fun i => 0 <= i < 16) l -> forall o,
  run_stores (map (fun i => (16, CTX_OFFSET_XMMREG i, x i)) l) (image c) o
  = image (fold_left (fun c i => set_xmmregs c (upd (xmmregs c) i (x i))) l c) o.
Proof.
  induction l as [|i l IH]; intros c F o; [reflexivity|]. inversion F; subst. cbn [fold_left]. rewrite <- IH by assumption.
  cbn. apply run_stores_ext. intros. now apply store_xmmreg.
Qed.

(** The bytes of a context depend on its members in the structure only. *)
Lemma image_ext c c' : (forall o, target_stack c o = target_stack c' o) -> target_exit_addr c = target_exit_addr c' ->
  (forall i, sentinel c i = sentinel c' i) -> (forall i, 0 <= i < 16 -> xmmregs c i = xmmregs c' i) ->
  (forall i, 0 <= i < 18 -> gregs c i = gregs c' i) -> interpreter_stack c = interpreter_stack c' ->
  abort_status c = abort_status c' -> last_abort_status c = last_abort_status c' -> status c = status c' ->
  forall o, image c o = image c' o.
Proof.
  intros E1 E2 E3 E4 E5 E6 E7 E8 E9 o. apply byte_in_ext. intros m off size I Ho.
  assert (R : forall w b, 0 < w -> size = w * b -> 0 <= (o - off) / w < b)
    by (intros; split; [apply Z.div_pos|apply Z.div_lt_upper_bound]; lia).
  rewrite layout_eq in I. cbn in I.
  repeat (destruct I as [I|I]; [injection I as <- <- <-; cbn [member_byte]; try congruence;
    rewrite ?E1, ?E3, ?E2, ?E6; try rewrite E4 by (apply R; lia); try rewrite E5 by (apply R; lia); reflexivity|]). contradiction.
Qed.

Lemma stored_index i n : 0 <= i < Z.of_nat n -> In i (map Z.of_nat (seq 0 n)).
Proof. intros Hi. apply in_map_iff. exists (Z.to_nat i). split; [lia|apply in_seq; lia]. Qed.

Lemma eject_stores_image eax s : is_uint 8 (regs s GREG_EFL) -> forall o,
  run_stores (eject_stores eax s) (image (target_ctx (glob s))) o = image (target_ctx (glob (sb_fallback eax s))) o.
Proof.
  intros Hf o. set (c := target_ctx (glob s)). set (r := fun i => if i =? GREG_RAX then regs s GREG_R14 else regs s i).
  set (gs := [0; 1; 2; 3; 4; 5; 6; 7; 8; 9; 10; 11; 12; 13; 14; 15]). set (xs := [0; 12; 13; 14; 15]).
  set (c1 := set_abort c eax (last_abort_status c)). set (c2 := fold_left (fun c i => set_greg c i (r i)) gs c1).
  set (c3 := set_greg c2 GREG_EFL ((gregs c2 GREG_EFL .& Z.lnot 0xff) .| regs s GREG_EFL)).
  transitivity (run_stores (map (fun i => (16, CTX_OFFSET_XMMREG i, xmm s i)) xs) (image c3) o).
  - change (eject_stores eax s) with ((4, CTX_OFFSET_ABORT_STATUS, eax) :: map (fun i => (8, CTX_OFFSET_GREG i, r i)) gs ++
      (1, CTX_OFFSET_GREG GREG_EFL, regs s GREG_EFL) :: map (fun i => (16, CTX_OFFSET_XMMREG i, xmm s i)) xs).
    rewrite run_stores_cons, run_stores_app, run_stores_cons. apply run_stores_ext. clear o. intros o. unfold c3.
    rewrite <- (store_flags c2 _ o Hf). apply store_bytes_ext. clear o. intros o. unfold c2.
    rewrite <- run_gregs by (repeat constructor; lia). apply run_stores_ext. intros. apply store_abort_status.
  - rewrite run_xmmregs by (repeat constructor; lia). apply image_ext; try reflexivity.
    + intros i Hi. apply (stored_index i 16) in Hi. cbn in Hi. repeat (destruct Hi as [<-|Hi]; [reflexivity|]). contradiction.
    + intros i Hi. apply (stored_index i 18) in Hi. cbn in Hi. repeat (destruct Hi as [<-|Hi]; [reflexivity|]). contradiction.
Qed.

(** ** The loads of an injection *)

Lemma byte_step v i : 0 <= i -> byte v (i + 1) = byte (v / 256) i.
Proof.
  intros Hi. unfold byte. change 256 with (2 ^ 8). rewrite <- Z.shiftr_div_pow2, Z.shiftr_shiftr by lia. do 2 f_equal. lia.
Qed.

Lemma load_value n : forall img off v, is_uint (8 * Z.of_nat n) v -> (forall i, 0 <= i < Z.of_nat n -> img (off + i) = byte v i) ->
  load_bytes n img off = v.
Proof.
  induction n as [|n IH]; intros img off v Hv Hb; [unfold is_uint in Hv; cbn in *; lia|]. cbn [load_bytes].
  assert (P : 2 ^ (8 * Z.of_nat (S n)) = 256 * 2 ^ (8 * Z.of_nat n))
    by (rewrite Nat2Z.inj_succ; replace (8 * Z.succ (Z.of_nat n)) with (8 + 8 * Z.of_nat n) by ring; now rewrite Z.pow_add_r by lia).
  unfold is_uint in Hv. rewrite P in Hv. rewrite (IH img (off + 1) (v / 256)).
  - rewrite <- (Z.add_0_r off), Hb by lia. unfold byte. change 0xff with (Z.ones 8). rewrite Z.land_ones by lia.
    change (Z.shiftr v (8 * 0)) with v. change (2 ^ 8) with 256. pose proof (Z.div_mod v 256). lia.
  - split; [apply Z.div_pos|apply Z.div_lt_upper_bound]; lia.
  - intros i Hi. rewrite <- byte_step by lia. rewrite <- Hb by lia. f_equal. ring.
Qed.

(** A load inside one member. *)
Lemma load_member c m off size j n v : member_at m off size -> 0 <= j -> j + Z.of_nat n <= size -> is_uint (8 * Z.of_nat n) v ->
  (forall i, 0 <= i < Z.of_nat n -> member_byte c m (j + i) = byte v i) -> load_bytes n (image c) (off + j) = v.
Proof.
  intros I Hj Hn Hv Hb. apply load_value; [exact Hv|]. intros i Hi. rewrite (image_member m off size) by (assumption || lia).
  rewrite <- Hb by exact Hi. f_equal. ring.
Qed.

(** The values of the members fit their types. *)
Record ctx_typed (c : target_ctx_t) : Prop := {
  typed_stack : forall o, is_uint 64 (target_stack c o);
  typed_exit : is_uint 64 (target_exit_addr c);
  typed_sentinel : forall i, is_uint 64 (sentinel c i);
  typed_xmmregs : forall i, is_uint 128 (xmmregs c i);
  typed_gregs : forall i, is_uint 64 (gregs c i)
}.

Lemma load_greg c i : ctx_typed c -> 0 <= i < 18 -> load_bytes 8 (image c) (CTX_OFFSET_GREG i) = gregs c i.
Proof.
  intros T Hi. unfold CTX_OFFSET_GREG. replace (i * 8 + CTX_OFFSET_GREGS) with (CTX_OFFSET_GREGS + i * 8) by ring.
  apply (load_member c m_gregs _ 144); [exact member_gregs|lia|lia|apply (typed_gregs c T)|].
  intros k Hk. cbn [member_byte]. now destruct (div_mod_pair i k 8 ltac:(lia)) as [-> ->].
Qed.

Lemma load_xmmreg c i : ctx_typed c -> 0 <= i < 16 -> load_bytes 16 (image c) (CTX_OFFSET_XMMREG i) = xmmregs c i.
Proof.
  intros T Hi. unfold CTX_OFFSET_XMMREG. replace (i * 16 + CTX_OFFSET_XMMREGS) with (CTX_OFFSET_XMMREGS + i * 16) by ring.
  apply (load_member c m_xmmregs _ 256); [exact member_xmmregs|lia|lia|apply (typed_xmmregs c T)|].
  intros k Hk. cbn [member_byte]. now destruct (div_mod_pair i k 16 ltac:(lia)) as [-> ->].
Qed.

Lemma load_flags c : load_bytes 1 (image c) (CTX_OFFSET_GREG GREG_EFL) = gregs c GREG_EFL .& 0xff.
Proof.
  unfold CTX_OFFSET_GREG. replace (GREG_EFL * 8 + CTX_OFFSET_GREGS) with (CTX_OFFSET_GREGS + 136) by reflexivity.
  apply (load_member c m_gregs _ 144); [exact member_gregs|lia|cbn; lia| |].
  - change 0xff with (Z.ones 8). rewrite Z.land_ones by lia. apply Z.mod_pos_bound. lia.
  - intros k Hk. assert (k = 0) as -> by lia. cbn [member_byte]. change ((136 + 0) / 8) with GREG_EFL. change ((136 + 0) mod 8) with 0.
    unfold byte. change (8 * 0) with 0. rewrite !Z.shiftr_0_r, <- Z.land_assoc. reflexivity.
Qed.

(** The qwords of the stack part, as [ret] and the target see them. *)
Lemma load_stack c off : ctx_typed c -> 0 <= off < STACK_SIZE -> off mod 8 = 0 -> load_bytes 8 (image c) off = ctx_qword c off.
Proof.
  intros T Ho Ha. change STACK_SIZE with 33554432 in Ho. pose proof (Z.div_mod off 8 ltac:(lia)) as D.
  assert (M : forall m p z, In (m, p, z) context_layout -> member_at m p z) by (intros; unfold member_at; now rewrite layout_eq).
  unfold ctx_qword. change CTX_OFFSET_TARGET_EXIT_ADDR with 33554408. change CTX_OFFSET_SENTINEL1 with 33554416.
  change CTX_OFFSET_SENTINEL2 with 33554424.
  destruct (Z.eqb_spec off 33554408) as [->|]; [|destruct (Z.eqb_spec off 33554416) as [->|]; [|destruct (Z.eqb_spec off 33554424) as [->|]]].
  - apply (load_member c m_target_exit_addr 33554408 8 0); [apply M; vm_compute; tauto|lia|cbn; lia|apply (typed_exit c T)|reflexivity].
  - apply (load_member c m_sentinel 33554416 16 0); [apply M; vm_compute; tauto|lia|cbn; lia|apply (typed_sentinel c T)|].
    intros k Hk. cbn [member_byte]. change (0 + k) with (0 * 8 + k). now destruct (div_mod_pair 0 k 8 ltac:(lia)) as [-> ->].
  - apply (load_member c m_sentinel 33554416 16 8); [apply M; vm_compute; tauto|lia|cbn; lia|apply (typed_sentinel c T)|].
    intros k Hk. cbn [member_byte]. change (8 + k) with (1 * 8 + k). now destruct (div_mod_pair 1 k 8 ltac:(lia)) as [-> ->].
  - apply (load_member c m_target_stack 0 33554408 off); [apply M; vm_compute; tauto|lia|cbn; lia|apply (typed_stack c T)|].
    intros k Hk. cbn [member_byte]. replace (off + k) with (off / 8 * 8 + k) by lia.
    destruct (div_mod_pair (off / 8) k 8 ltac:(lia)) as [-> ->]. do 2 f_equal. lia.
Qed.

Lemma store_interp_stack c v o : store_bytes (image c) 8 CTX_OFFSET_INTERP_STACK v o =
  image (mkCtx (target_stack c) (target_exit_addr c) (sentinel c) (xmmregs c) (gregs c) v (abort_status c) (last_abort_status c)
    (status c) (abort_counts c) (abort_count_modeled c) (abort_count_poison c) (abort_count_unknown c) (abort_count_total c)) o.
Proof.
  rewrite <- (Z.add_0_r CTX_OFFSET_INTERP_STACK) at 1. apply (store_member _ _ m_interpreter_stack _ 8); [|lia|lia| |now intros [] ? N].
  - unfold member_at. rewrite layout_eq. vm_compute. tauto.
  - intros k Hk. rewrite Z.sub_0_r, (proj2 (Z.leb_le 0 k)), (proj2 (Z.ltb_lt k (0 + 8))) by lia. reflexivity.
Qed.

Lemma load_bytes_ext n : forall f g off, (forall o, f o = g o) -> load_bytes n f off = load_bytes n g off.
Proof. induction n as [|n IH]; intros f g off E; [reflexivity|]. cbn. now rewrite E, (IH f g) by exact E. Qed.

(** C38: the assembly and the C code agree on the target context.  With the
    context as the bytes that C's layout rules give it: the stores of an
    ejection, each of its width at its [CTX_OFFSET_*], leave exactly the bytes
    of the context that the model's ejection computes; the store and the loads
    of [sb_inject] leave the bytes of its context and give the registers it
    starts from; and every aligned qword of the stack part, the exit
    address and the sentinels included, is where the macros say. *)
Theorem context_switch_layout rsp g mem0 hx eax s : ctx_typed (target_ctx g) -> is_uint 8 (regs s GREG_EFL) ->
  (forall o, run_stores (eject_stores eax s) (image (target_ctx (glob s))) o = image (target_ctx (glob (sb_fallback eax s))) o) /\
  (let m := sb_inject rsp g mem0 hx in
   let img := store_bytes (image (target_ctx g)) 8 CTX_OFFSET_INTERP_STACK ((rsp -[64] 256) .| 8) in
   let loaded := sbm_init_tran (mkArch (glob (now m)) (loaded_regs img) (loaded_xmm img hx) mem0) in
   (forall o, img o = image (target_ctx (glob (now m))) o) /\
   (forall i, regs (now m) i = regs loaded i) /\ (forall i, xmm (now m) i = xmm loaded i)) /\
  (forall off, 0 <= off < STACK_SIZE -> off mod 8 = 0 -> load_bytes 8 (image (target_ctx g)) off = ctx_qword (target_ctx g) off).
Proof.
  intros T Hf. split; [now apply eject_stores_image|]. split; [|intros; now apply load_stack].
  intros m img loaded. set (v := (rsp -[64] 256) .| 8) in *. set (c' := target_ctx (glob (now m))).
  assert (T' : ctx_typed c') by (destruct T; now split). assert (Ei : forall o, img o = image c' o) by apply store_interp_stack.
  split; [exact Ei|]. split; intros i.
  - change (regs (now m) i) with (upd (fun i => if (0 <=? i) && (i <=? 15) then gregs c' i else gregs c' GREG_EFL .& 0xff) GREG_R14 (gregs c' GREG_RAX) i).
    change (regs loaded i) with (upd (loaded_regs img) GREG_R14 (loaded_regs img GREG_RAX) i).
    assert (L : forall i, loaded_regs img i = if (0 <=? i) && (i <=? 15) then gregs c' i else gregs c' GREG_EFL .& 0xff).
    { intros k. unfold loaded_regs. destruct ((0 <=? k) && (k <=? 15)) eqn:R; rewrite (load_bytes_ext _ _ _ _ Ei); [apply load_greg; [exact T'|lia]|apply load_flags]. }
    unfold upd. rewrite !L. reflexivity.
  - change (xmm (now m) i) with (upd (upd (fun i => if ctx_store_xmm i then xmmregs c' i else hx i) REG_DATA 0) REG_ACCUMULATOR 0 i).
    change (xmm loaded i) with (upd (upd (loaded_xmm img hx) REG_DATA 0) REG_ACCUMULATOR 0 i).
    assert (L : forall i, loaded_xmm img hx i = if ctx_store_xmm i then xmmregs c' i else hx i).
    { intros k. unfold loaded_xmm. destruct (ctx_store_xmm k) eqn:R; [|reflexivity]. rewrite (load_bytes_ext _ _ _ _ Ei).
      apply load_xmmreg; [exact T'|]. unfold ctx_store_xmm in R. lia. }
    unfold upd. rewrite !L. reflexivity.
Qed.

(** The context [enter_tase] makes, injected, and the ejection of its state. *)
Lemma context_switch_layout_witness :
  let s := now demo_start in
  run_stores (eject_stores 0xff000001 s) (image (target_ctx (glob s))) (CTX_OFFSET_GREG GREG_R15)
    = image (target_ctx (glob (sb_fallback 0xff000001 s))) (CTX_OFFSET_GREG GREG_R15) /\
  load_bytes 8 (image (target_ctx demo_globals)) CTX_OFFSET_TARGET_EXIT_ADDR = 0x401000.
Proof.
  assert (T : ctx_typed (target_ctx demo_globals)).
  { assert (U : forall f k v w, (forall i, is_uint w (f i)) -> is_uint w v -> forall i, is_uint w (upd f k v i))
      by (intros f k v w F V i; unfold upd; destruct (i =? k); auto).
    assert (Z0 : forall w : Z, 0 <= w -> is_uint w 0) by (intros; unfold is_uint; split; [lia|now apply pow2_pos]).
    split.
    - intros o. change (is_uint 64 0). apply Z0. lia.
    - change (is_uint 64 0x401000). split; vm_compute; congruence.
    - intros i. change (is_uint 64 (if (i =? 0) || (i =? 1) then CTX_STACK_SENTINEL else 0)).
      destruct ((i =? 0) || (i =? 1)); split; vm_compute; congruence.
    - change (forall i, is_uint 128 (upd (fun _ => 0) REG_REFERENCE REFERENCE i)). apply U; [intros; apply Z0; lia|split; vm_compute; congruence].
    - intros i. cbv [demo_globals inject_setup enter_tase_init target_ctx with_ctx with_springboard set_greg set_gregs set_abort gregs].
      repeat apply U; try (intros; apply Z0; lia); split; vm_compute; congruence. }
  destruct (context_switch_layout 0x7ff000 demo_globals (fun _ => 0) (fun _ => 0) 0xff000001 (now demo_start) T ltac:(vm_compute; split; congruence))
    as (A & _ & C).
  split; [apply A|]. rewrite C by (vm_compute; (split; congruence) || reflexivity). reflexivity.
Defined.
