(* ===== verification/BigNum.v ===== *)
(** * The [bigNum] microbenchmark: a byte-wise ripple-carry adder

    Models [test/microbenchmarks/slidingscale/bigNum/bigNum.c]: the array
    initialisers, [runTest] and [begin_target_inner].  An array is the list
    of its [numEntries] bytes.  The byte that [make_byte_symbolic] writes is
    an argument (the symbolic executor chooses it). *)

From S2P Require Import Prelude Digits.

Inductive initType := ones | garbage.

(** One byte per entry, and the new seed. *)
Fixpoint initializeNums (testType : initType) (garbageCtr : Z) (numEntries : nat) : list Z * Z :=
  match numEntries with
  | O => ([], garbageCtr)
  | S n =>
      match testType with
      | ones => let '(rest, ctr) := initializeNums testType garbageCtr n in (1 :: rest, ctr)
      | garbage =>
          let garbageCtr := uint 8 (garbageCtr * garbageCtr + 7) in
          let '(rest, ctr) := initializeNums testType garbageCtr n in (garbageCtr :: rest, ctr)
      end
  end.

Definition initializeAllOnes (numEntries : nat) : list Z := repeat 255 numEntries.
Definition initializeAllZeros (numEntries : nat) : list Z := repeat 0 numEntries.

(** The loop of [runTest]: the bytes it stores, with the last carry at the end. *)
Fixpoint add_loop (firstArray secondArray : list Z) (carry : Z) : list Z :=
  match firstArray, secondArray with
  | a :: firstArray, b :: secondArray =>
      let result := uint 16 (a + b + carry) in
      let carry := uint 16 (result / 256) in
      (uint 8 result .& 255) :: add_loop firstArray secondArray carry
  | _, _ => [uint 8 carry]
  end.

Definition runTest (firstArray secondArray : list Z) : list Z := add_loop firstArray secondArray 0.

(** [begin_target_inner]: the final contents of [resultArray], whose initial
    contents [malloc] leaves undetermined. *)
Definition begin_target_inner (testType : initType) (garbageCtr symIndex : Z) (numEntries : nat) (repetitions : Z)
    (symbolic : Z) (uninitialised : list Z) : list Z :=
  let '(firstArray, garbageCtr) := initializeNums testType garbageCtr numEntries in
  let '(secondArray, garbageCtr) := initializeNums testType garbageCtr numEntries in
  let firstArray := initializeAllZeros numEntries in
  let secondArray := initializeAllOnes numEntries in
  let firstArray :=
    if (symIndex >=? 0) && (symIndex <? Z.of_nat numEntries) then store firstArray (Z.to_nat symIndex) symbolic else firstArray in
  if repetitions >? 0 then Nat.iter (Z.to_nat repetitions) (fun _ => runTest firstArray secondArray) uninitialised
  else uninitialised.

(** ** Correctness *)

Lemma add_loop_spec a : forall b c, length a = length b -> digits_ok 8 a -> digits_ok 8 b -> 0 <= c <= 1 ->
  let r := add_loop a b c in
  length r = S (length a) /\ digits_ok 8 r /\ eval 8 r = eval 8 a + eval 8 b + c /\ 0 <= last r 0 <= 1.
Proof.
  induction a as [|x a IH]; intros [|y b] c Hl Ha Hb Hc; try discriminate; cbv zeta; cbn [add_loop].
  - rewrite uint_small by (unfold is_uint; change (2 ^ 8) with 256; lia). cbn. repeat split; try lia. repeat constructor; lia.
  - inversion Ha as [|? ? Hx Ha']; inversion Hb as [|? ? Hy Hb']; subst. change (2 ^ 8) with 256 in *.
    rewrite (uint_small 16 (x + y + c)) by (unfold is_uint; change (2 ^ 16) with 65536; lia).
    set (q := (x + y + c) / 256). pose proof (Z.div_mod (x + y + c) 256 ltac:(lia)) as D. fold q in D.
    pose proof (Z.mod_pos_bound (x + y + c) 256 ltac:(lia)) as M. assert (Hq : 0 <= q <= 1) by lia.
    rewrite (uint_small 16 q) by (unfold is_uint; change (2 ^ 16) with 65536; lia).
    assert (Bt : uint 8 (x + y + c) .& 255 = (x + y + c) mod 256).
    { change 255 with (2 ^ 8 - 1). rewrite land_ones_mod by lia. unfold uint. now rewrite Zmod_mod. }
    rewrite Bt. destruct (IH b q ltac:(cbn in Hl; lia) Ha' Hb' Hq) as (L & K & E & La).
    cbn [length eval]. change (2 ^ 8) with 256. rewrite E. repeat split; try lia.
    + constructor; [change (2 ^ 8) with 256; lia|exact K].
    + destruct (add_loop a b q); [discriminate|]. exact (proj1 La).
    + destruct (add_loop a b q); [discriminate|]. exact (proj2 La).
Qed.

Lemma eval_zeros n : eval 8 (repeat 0 n) = 0.
Proof. induction n as [|n IH]; cbn [repeat eval]; [reflexivity|]. rewrite IH. reflexivity. Qed.

Lemma eval_ones n : eval 8 (repeat 255 n) = 256 ^ Z.of_nat n - 1.
Proof.
  induction n as [|n IH]; [reflexivity|]. cbn [repeat eval]. rewrite IH, Nat2Z.inj_succ, Z.pow_succ_r by lia. change (2 ^ 8) with 256. ring.
Qed.

Lemma store_spec n i v : (i < n)%nat -> 0 <= v < 256 ->
  length (store (repeat 0 n) i v) = n /\ digits_ok 8 (store (repeat 0 n) i v) /\
  eval 8 (store (repeat 0 n) i v) = v * 256 ^ Z.of_nat i.
Proof.
  intros Hi Hv. revert i Hi. induction n as [|n IH]; intros i Hi; [lia|]. destruct i as [|i]; cbn [repeat store length eval].
  - rewrite repeat_length, eval_zeros. change (2 ^ 8) with 256. repeat split; [|lia].
    constructor; [change (2 ^ 8) with 256; lia|]. apply Forall_forall. intros x Hx. apply repeat_spec in Hx. subst. cbn. lia.
  - destruct (IH i ltac:(lia)) as (L & K & E). rewrite L, E, Nat2Z.inj_succ, Z.pow_succ_r by lia. change (2 ^ 8) with 256.
    repeat split; [|ring]. constructor; [cbn; lia|exact K].
Qed.

(** [runTest] adds: for two arrays of [n] bytes, read as little-endian
    numbers, the result array has [n + 1] bytes, its value is the sum, and its
    last byte is the carry, 0 or 1. *)
Theorem runTest_adds a b : length a = length b -> digits_ok 8 a -> digits_ok 8 b ->
  let r := runTest a b in
  length r = S (length a) /\ digits_ok 8 r /\ eval 8 r = eval 8 a + eval 8 b /\ 0 <= last r 0 <= 1.
Proof.
  intros Hl Ha Hb. destruct (add_loop_spec a b 0 Hl Ha Hb ltac:(lia)) as (L & K & E & C). unfold runTest. rewrite L, E.
  repeat split; [exact K|lia|lia|lia].
Qed.

Lemma runTest_adds_witness : runTest [255; 255; 1] [1; 0; 254] = [0; 0; 0; 1] /\
  eval 8 (runTest [255; 255; 1] [1; 0; 254]) = eval 8 [255; 255; 1] + eval 8 [1; 0; 254].
Proof.
  split; [reflexivity|]. apply runTest_adds; [reflexivity| |]; repeat constructor; cbn; lia.
Defined.

(** The whole benchmark, for every size, symbolic position and symbolic
    byte [v]: the result array holds [256^n - 1 + v * 256^symIndex] (all ones
    plus the one symbolic byte), however often the addition is repeated and
    whatever the initial fill was; without a symbolic byte it holds
    [256^n - 1]. *)
Theorem begin_target_inner_value tt ctr symIndex n reps v u : 0 < reps -> 0 <= v < 256 ->
  let r := begin_target_inner tt ctr symIndex n reps v u in
  length r = S n /\ digits_ok 8 r /\
  eval 8 r = 256 ^ Z.of_nat n - 1 +
    (if (symIndex >=? 0) && (symIndex <? Z.of_nat n) then v * 256 ^ symIndex else 0).
Proof.
  intros Hr Hv. unfold begin_target_inner, initializeAllOnes, initializeAllZeros.
  destruct (initializeNums tt ctr n) as [f c1]. destruct (initializeNums tt c1 n) as [s c2]. clear f s c1 c2.
  set (first := if (symIndex >=? 0) && (symIndex <? Z.of_nat n) then store (repeat 0 n) (Z.to_nat symIndex) v else repeat 0 n).
  assert (It : forall k x, Nat.iter (S k) (fun _ => runTest first (repeat 255 n)) x = runTest first (repeat 255 n)) by reflexivity.
  rewrite (proj2 (Z.gtb_lt reps 0) Hr). replace (Z.to_nat reps) with (S (Z.to_nat (reps - 1))) by lia. rewrite It.
  assert (Hf : length first = n /\ digits_ok 8 first /\
    eval 8 first = if (symIndex >=? 0) && (symIndex <? Z.of_nat n) then v * 256 ^ symIndex else 0).
  { unfold first. destruct ((symIndex >=? 0) && (symIndex <? Z.of_nat n)) eqn:C.
    - apply andb_true_iff in C as [C1 C2]. apply Z.geb_le in C1. apply Z.ltb_lt in C2.
      destruct (store_spec n (Z.to_nat symIndex) v ltac:(lia) Hv) as (A & B & D). rewrite D, Z2Nat.id by lia. auto.
    - rewrite repeat_length, eval_zeros. repeat split. apply Forall_forall. intros x Hx. apply repeat_spec in Hx. subst. cbn. lia. }
  destruct Hf as (L & K & E). clearbody first.
  assert (H255 : digits_ok 8 (repeat 255 n)) by (apply Forall_forall; intros x Hx; apply repeat_spec in Hx; subst; cbn; lia).
  destruct (add_loop_spec first (repeat 255 n) 0) as (L' & K' & E' & _); [now rewrite repeat_length|exact K|exact H255|lia|].
  unfold runTest. split; [now rewrite L', L|]. split; [exact K'|]. rewrite E', E, eval_ones. lia.
Qed.

Lemma begin_target_inner_value_witness : begin_target_inner garbage 1 1 3 2 7 [] = [255; 6; 0; 1] /\
  eval 8 (begin_target_inner garbage 1 1 3 2 7 []) = 256 ^ 3 - 1 + 7 * 256 ^ 1.
Proof. split; [reflexivity|]. apply (begin_target_inner_value garbage 1 1 3 2 7 []); lia. Defined.
