(* ===== verification/Cksum.v ===== *)
(** * The [cksum] benchmark: the POSIX cyclic redundancy check

    Models [test/microbenchmarks/concrete/cksum/cksum.c]: the generator of
    the table ([fill_r], [crc_remainder]), the table, [cksum] and
    [umaxtostr].  A [uint_fast32_t] has 64 bits, so the checksum carries
    stale high bits that only the last mask drops.  The input is the sequence
    of blocks [fread] returns, each with what [feof] says after it; opening
    and reading errors are outside. *)

From S2P Require Import Prelude.

(** ** The table generator *)

Definition BIT (x : Z) : Z := 1 <<[64] x.
Definition SBIT : Z := BIT 31.
Definition GEN : Z :=
  BIT 26 .| BIT 23 .| BIT 22 .| BIT 16 .| BIT 12 .| BIT 11 .| BIT 10 .| BIT 8 .| BIT 7 .| BIT 5
  .| BIT 4 .| BIT 2 .| BIT 1 .| BIT 0.

(** The array [r] after [fill_r]. *)
Fixpoint fill_from (n : nat) (r : Z) : list Z :=
  match n with
  | O => []
  | S n => r :: fill_from n ((r <<[64] 1) .^ (if nonzero (r .& SBIT) then GEN else 0))
  end.
Definition fill_r : list Z := fill_from 8 GEN.

Fixpoint remainder_loop (i : Z) (r : list Z) (m rem : Z) : Z :=
  match r with
  | [] => rem
  | ri :: r => remainder_loop (i + 1) r m (if nonzero (BIT i .& m) then rem .^ ri else rem)
  end.
Definition crc_remainder (m : Z) : Z := remainder_loop 0 fill_r m 0 .& 0xFFFFFFFF.

(** ** The table and the checksum *)

Definition crctab : list Z :=
  [0x00000000; 0x04c11db7; 0x09823b6e; 0x0d4326d9; 0x130476dc; 0x17c56b6b; 0x1a864db2; 0x1e475005;
   0x2608edb8; 0x22c9f00f; 0x2f8ad6d6; 0x2b4bcb61; 0x350c9b64; 0x31cd86d3; 0x3c8ea00a; 0x384fbdbd;
   0x4c11db70; 0x48d0c6c7; 0x4593e01e; 0x4152fda9; 0x5f15adac; 0x5bd4b01b; 0x569796c2; 0x52568b75;
   0x6a1936c8; 0x6ed82b7f; 0x639b0da6; 0x675a1011; 0x791d4014; 0x7ddc5da3; 0x709f7b7a; 0x745e66cd;
   0x9823b6e0; 0x9ce2ab57; 0x91a18d8e; 0x95609039; 0x8b27c03c; 0x8fe6dd8b; 0x82a5fb52; 0x8664e6e5;
   0xbe2b5b58; 0xbaea46ef; 0xb7a96036; 0xb3687d81; 0xad2f2d84; 0xa9ee3033; 0xa4ad16ea; 0xa06c0b5d;
   0xd4326d90; 0xd0f37027; 0xddb056fe; 0xd9714b49; 0xc7361b4c; 0xc3f706fb; 0xceb42022; 0xca753d95;
   0xf23a8028; 0xf6fb9d9f; 0xfbb8bb46; 0xff79a6f1; 0xe13ef6f4; 0xe5ffeb43; 0xe8bccd9a; 0xec7dd02d;
   0x34867077; 0x30476dc0; 0x3d044b19; 0x39c556ae; 0x278206ab; 0x23431b1c; 0x2e003dc5; 0x2ac12072;
   0x128e9dcf; 0x164f8078; 0x1b0ca6a1; 0x1fcdbb16; 0x018aeb13; 0x054bf6a4; 0x0808d07d; 0x0cc9cdca;
   0x7897ab07; 0x7c56b6b0; 0x71159069; 0x75d48dde; 0x6b93dddb; 0x6f52c06c; 0x6211e6b5; 0x66d0fb02;
   0x5e9f46bf; 0x5a5e5b08; 0x571d7dd1; 0x53dc6066; 0x4d9b3063; 0x495a2dd4; 0x44190b0d; 0x40d816ba;
   0xaca5c697; 0xa864db20; 0xa527fdf9; 0xa1e6e04e; 0xbfa1b04b; 0xbb60adfc; 0xb6238b25; 0xb2e29692;
   0x8aad2b2f; 0x8e6c3698; 0x832f1041; 0x87ee0df6; 0x99a95df3; 0x9d684044; 0x902b669d; 0x94ea7b2a;
   0xe0b41de7; 0xe4750050; 0xe9362689; 0xedf73b3e; 0xf3b06b3b; 0xf771768c; 0xfa325055; 0xfef34de2;
   0xc6bcf05f; 0xc27dede8; 0xcf3ecb31; 0xcbffd686; 0xd5b88683; 0xd1799b34; 0xdc3abded; 0xd8fba05a;
   0x690ce0ee; 0x6dcdfd59; 0x608edb80; 0x644fc637; 0x7a089632; 0x7ec98b85; 0x738aad5c; 0x774bb0eb;
   0x4f040d56; 0x4bc510e1; 0x46863638; 0x42472b8f; 0x5c007b8a; 0x58c1663d; 0x558240e4; 0x51435d53;
   0x251d3b9e; 0x21dc2629; 0x2c9f00f0; 0x285e1d47; 0x36194d42; 0x32d850f5; 0x3f9b762c; 0x3b5a6b9b;
   0x0315d626; 0x07d4cb91; 0x0a97ed48; 0x0e56f0ff; 0x1011a0fa; 0x14d0bd4d; 0x19939b94; 0x1d528623;
   0xf12f560e; 0xf5ee4bb9; 0xf8ad6d60; 0xfc6c70d7; 0xe22b20d2; 0xe6ea3d65; 0xeba91bbc; 0xef68060b;
   0xd727bbb6; 0xd3e6a601; 0xdea580d8; 0xda649d6f; 0xc423cd6a; 0xc0e2d0dd; 0xcda1f604; 0xc960ebb3;
   0xbd3e8d7e; 0xb9ff90c9; 0xb4bcb610; 0xb07daba7; 0xae3afba2; 0xaafbe615; 0xa7b8c0cc; 0xa379dd7b;
   0x9b3660c6; 0x9ff77d71; 0x92b45ba8; 0x9675461f; 0x8832161a; 0x8cf30bad; 0x81b02d74; 0x857130c3;
   0x5d8a9099; 0x594b8d2e; 0x5408abf7; 0x50c9b640; 0x4e8ee645; 0x4a4ffbf2; 0x470cdd2b; 0x43cdc09c;
   0x7b827d21; 0x7f436096; 0x7200464f; 0x76c15bf8; 0x68860bfd; 0x6c47164a; 0x61043093; 0x65c52d24;
   0x119b4be9; 0x155a565e; 0x18197087; 0x1cd86d30; 0x029f3d35; 0x065e2082; 0x0b1d065b; 0x0fdc1bec;
   0x3793a651; 0x3352bbe6; 0x3e119d3f; 0x3ad08088; 0x2497d08d; 0x2056cd3a; 0x2d15ebe3; 0x29d4f654;
   0xc5a92679; 0xc1683bce; 0xcc2b1d17; 0xc8ea00a0; 0xd6ad50a5; 0xd26c4d12; 0xdf2f6bcb; 0xdbee767c;
   0xe3a1cbc1; 0xe760d676; 0xea23f0af; 0xeee2ed18; 0xf0a5bd1d; 0xf464a0aa; 0xf9278673; 0xfde69bc4;
   0x89b8fd09; 0x8d79e0be; 0x803ac667; 0x84fbdbd0; 0x9abc8bd5; 0x9e7d9662; 0x933eb0bb; 0x97ffad0c;
   0xafb010b1; 0xab710d06; 0xa6322bdf; 0xa2f33668; 0xbcb4666d; 0xb8757bda; 0xb5365d03; 0xb1f740b4].

Definition BUFLEN : Z := Z.shiftl 1 16.

(** [crc = (crc << 8) ^ crctab[((crc >> 24) ^ x) & 0xFF]] *)
Definition crc_byte (crc x : Z) : Z :=
  (crc <<[64] 8) .^ nth (Z.to_nat (((crc >>[64] 24) .^ x) .& 0xFF)) crctab 0.

(** [for (; length; length >>= 8) ...]: eight rounds exhaust 64 bits. *)
Fixpoint crc_length (fuel : nat) (crc len : Z) : Z :=
  match fuel with
  | O => crc
  | S fuel => if nonzero len then crc_length fuel (crc_byte crc len) (len >>[64] 8) else crc
  end.

(** The reading loop: [None] is "file too long". *)
Fixpoint read_loop (reads : list (list Z * bool)) (crc len : Z) : option (Z * Z) :=
  match reads with
  | [] => Some (crc, len)
  | (buf, eof) :: reads =>
      let bytes_read := Z.of_nat (length buf) in
      if bytes_read >? 0 then
        if (len +[64] bytes_read) <? len then None
        else
          let len := len +[64] bytes_read in
          let crc := fold_left crc_byte buf crc in
          if (eof : bool) then Some (crc, len) else read_loop reads crc len
      else Some (crc, len)
  end.

(** The two numbers [cksum] prints. *)
Definition cksum (reads : list (list Z * bool)) : option (Z * Z) :=
  let? (crc, len) := read_loop reads 0 0 in
  let crc := crc_length 8 crc len in
  Some (unot 64 crc .& 0xFFFFFFFF, len).

(** [umaxtostr]: the characters it stores, most significant first.  The
    test [i < 0] of an unsigned value is never true. *)
Fixpoint umaxtostr_loop (fuel : nat) (i : Z) (acc : list Z) : list Z :=
  match fuel with
  | O => acc
  | S fuel =>
      let acc := (48 + i mod 10) :: acc in
      let i := i / 10 in
      if nonzero i then umaxtostr_loop fuel i acc else acc
  end.
Definition umaxtostr (i : Z) : list Z := umaxtostr_loop 20 i [].

(** ** Polynomials over GF(2)

    A polynomial is the integer whose bit [i] is the coefficient of [X^i]:
    addition is [lxor], and [clmul] multiplies. *)

Fixpoint clmul_pos (q : positive) (g : Z) : Z :=
  match q with
  | xH => g
  | xO q => 2 * clmul_pos q g
  | xI q => Z.lxor (2 * clmul_pos q g) g
  end.
Definition clmul (q g : Z) : Z := match q with Zpos q => clmul_pos q g | _ => 0 end.

(** The generating polynomial of degree 32. *)
Definition G : Z := 2 ^ 32 + 0x04c11db7.

(** [r] is the remainder of [m * X^32] modulo [G]. *)
Definition is_remainder (m r : Z) : Prop := is_uint 32 r /\ exists q, 0 <= q /\ Z.lxor (Z.shiftl m 32) r = clmul q G.

(** Bytes as a polynomial, most significant first. *)
Definition poly_of (bytes : list Z) : Z := fold_left (fun m b => 256 * m + b) bytes 0.

(** The bytes of the length that POSIX appends: least significant first,
    up to the last non-zero one. *)
Fixpoint len_bytes (fuel : nat) (len : Z) : list Z :=
  match fuel with
  | O => []
  | S fuel => if nonzero len then len mod 256 :: len_bytes fuel (len / 256) else []
  end.

Lemma GEN_val : GEN = 0x04c11db7.
Proof. reflexivity. Qed.

Lemma clmul_double q (b : bool) g : 0 <= q -> clmul (2 * q + b2z b) g = Z.lxor (2 * clmul q g) (if b then g else 0).
Proof.
  intros Hq. destruct q as [|q|q]; [| |lia].
  - destruct b; cbn; [now destruct g|reflexivity].
  - destruct b; cbn [b2z]; [reflexivity|]. rewrite Z.add_0_r, Z.lxor_0_r. reflexivity.
Qed.

(** *** One bit at a time *)

Definition bit_step (r : Z) (b : bool) : Z :=
  Z.lxor (uint 32 (2 * r)) (if xorb (Z.testbit r 31) b then GEN else 0).

Lemma uint_lxor w a b : 0 <= w -> uint w (Z.lxor a b) = Z.lxor (uint w a) (uint w b).
Proof.
  intros Hw. unfold uint. rewrite <- !land_ones_mod by lia. apply Z.bits_inj'. intros i Hi.
  rewrite !Z.land_spec, !Z.lxor_spec, !Z.land_spec. now destruct (Z.testbit (2 ^ w - 1) i), (Z.testbit a i), (Z.testbit b i).
Qed.

Lemma lxor_range w a b : 0 <= w -> is_uint w a -> is_uint w b -> is_uint w (Z.lxor a b).
Proof.
  intros Hw Ha Hb. rewrite <- (uint_small w a), <- (uint_small w b), <- uint_lxor by assumption. now apply uint_range.
Qed.

Lemma double_shiftl a : 2 * a = Z.shiftl a 1.
Proof. rewrite Z.shiftl_mul_pow2; lia. Qed.

Lemma double_lxor a b : 2 * Z.lxor a b = Z.lxor (2 * a) (2 * b).
Proof. rewrite !double_shiftl. apply Z.shiftl_lxor. Qed.

Lemma bit_step_range r b : is_uint 32 (bit_step r b).
Proof.
  unfold bit_step. apply lxor_range; [lia|apply uint_range; lia|]. rewrite GEN_val. destruct (xorb _ _); split; vm_compute; congruence.
Qed.

(** Adding bits above a word. *)
Lemma lxor_above w a c : 0 <= w -> is_uint w a -> Z.lxor a (c * 2 ^ w) = c * 2 ^ w + a.
Proof.
  intros Hw Ha. rewrite <- (lor_add_disjoint c a w) by assumption. apply Z.bits_inj'. intros i Hi.
  rewrite Z.lxor_spec, Z.lor_spec. destruct (Z.lt_ge_cases i w).
  - rewrite Z.mul_pow2_bits_low by lia. now destruct (Z.testbit a i).
  - rewrite <- (uint_small w a Ha). unfold uint. rewrite Z.mod_pow2_bits_high by lia. now destruct (Z.testbit _ i).
Qed.

(** Shifting out the leading bit: [2 * r] is its low word plus [X^32]. *)
Lemma double_word r : is_uint 32 r -> 2 * r = Z.lxor (uint 32 (2 * r)) (if Z.testbit r 31 then 2 ^ 32 else 0).
Proof.
  intros R. unfold is_uint in R. assert (P : 2 ^ 32 = 2 * 2 ^ 31) by reflexivity. rewrite Z.testbit_odd, Z.shiftr_div_pow2 by lia.
  destruct (Z.lt_ge_cases r (2 ^ 31)) as [L|L].
  - rewrite (Z.div_small r) by lia. cbn [Z.odd]. rewrite Z.lxor_0_r. symmetry. apply uint_small. unfold is_uint. lia.
  - replace (r / 2 ^ 31) with 1 by (apply Z.div_unique with (r - 2 ^ 31); lia). cbn [Z.odd].
    assert (U : uint 32 (2 * r) = 2 * r - 2 ^ 32) by (symmetry; apply Z.mod_unique with 1; lia). rewrite U.
    pose proof (lxor_above 32 (2 * r - 2 ^ 32) 1 ltac:(lia) ltac:(unfold is_uint; lia)) as X. rewrite Z.mul_1_l in X. rewrite X. lia.
Qed.

Lemma bit_step_remainder m r b : is_remainder m r -> is_remainder (2 * m + b2z b) (bit_step r b).
Proof.
  intros [R (q & Hq & E)]. split; [apply bit_step_range|]. set (top := xorb (Z.testbit r 31) b).
  exists (2 * q + b2z top). split; [destruct top; cbn [b2z]; lia|]. rewrite clmul_double, <- E by exact Hq.
  assert (Sh : Z.shiftl (2 * m + b2z b) 32 = Z.lxor (2 * Z.shiftl m 32) (if b then 2 ^ 32 else 0)).
  { rewrite !Z.shiftl_mul_pow2 by lia. destruct b; cbn [b2z]; [|rewrite Z.lxor_0_r; lia].
    replace (2 * (m * 2 ^ 32)) with (m * 2 ^ 33) by (change (2 ^ 33) with (2 * 2 ^ 32); ring).
    rewrite Z.lxor_comm, (lxor_above 33 (2 ^ 32) m) by (lia || (split; vm_compute; congruence)).
    change (2 ^ 33) with (2 * 2 ^ 32). ring. }
  rewrite Sh, double_lxor, (double_word r R). unfold bit_step. fold top.
  assert (Tp : Z.lxor (if Z.testbit r 31 then 2 ^ 32 else 0) (if top then G else 0)
    = Z.lxor (if b then 2 ^ 32 else 0) (if top then GEN else 0)) by (unfold top; destruct (Z.testbit r 31), b; reflexivity).
  set (m2 := 2 * Z.shiftl m 32). set (u := uint 32 (2 * r)).
  rewrite <- !Z.lxor_assoc, (Z.lxor_assoc (Z.lxor m2 u)), Tp. 
  rewrite (Z.lxor_assoc m2 _ u), (Z.lxor_comm _ u), <- !Z.lxor_assoc. reflexivity.
Qed.

(** *** One byte at a time: the table *)

(** The [n] low bits of [x], highest first. *)
Fixpoint bits_step (n : nat) (r x : Z) : Z :=
  match n with O => r | S n => bits_step n (bit_step r (Z.testbit x (Z.of_nat n))) x end.

Lemma bits_step_remainder n x : forall m r, is_remainder m r -> is_remainder (2 ^ Z.of_nat n * m + x mod 2 ^ Z.of_nat n) (bits_step n r x).
Proof.
  induction n as [|n IH]; intros m r I; cbn [bits_step].
  - rewrite Z.mod_1_r, Z.mul_1_l, Z.add_0_r. exact I.
  - replace (2 ^ Z.of_nat (S n) * m + x mod 2 ^ Z.of_nat (S n))
      with (2 ^ Z.of_nat n * (2 * m + b2z (Z.testbit x (Z.of_nat n))) + x mod 2 ^ Z.of_nat n); [now apply IH, bit_step_remainder|].
    rewrite Nat2Z.inj_succ, Z.pow_succ_r by lia. set (P := 2 ^ Z.of_nat n). assert (0 < P) by (apply pow2_pos; lia).
    replace (2 * P) with (P * 2) by ring. rewrite Z.rem_mul_r by lia.
    rewrite Z.testbit_odd, Z.shiftr_div_pow2, Zmod_odd by lia. fold P. destruct (Z.odd _); cbn [b2z]; ring.
Qed.

Definition zstep (r : Z) : Z := bit_step r false.
Notation zsteps n := (Nat.iter n zstep).

Lemma zstep_linear a b : zstep (Z.lxor a b) = Z.lxor (zstep a) (zstep b).
Proof.
  unfold zstep, bit_step. rewrite !xorb_false_r, Z.lxor_spec, double_lxor, uint_lxor by lia.
  rewrite !Z.lxor_assoc. f_equal. rewrite (Z.lxor_comm (if Z.testbit a 31 then GEN else 0)), Z.lxor_assoc. f_equal.
  destruct (Z.testbit a 31), (Z.testbit b 31); cbn [xorb]; rewrite ?Z.lxor_0_r, ?Z.lxor_0_l, ?Z.lxor_nilpotent; reflexivity.
Qed.

Lemma zsteps_S n a : zsteps (S n) a = zstep (zsteps n a).
Proof. reflexivity. Qed.

Lemma zsteps_linear n a b : zsteps n (Z.lxor a b) = Z.lxor (zsteps n a) (zsteps n b).
Proof. induction n as [|n IH]; [reflexivity|]. rewrite !zsteps_S. now rewrite IH, zstep_linear. Qed.

Lemma zstep_small a : 0 <= a < 2 ^ 31 -> zstep a = 2 * a.
Proof.
  intros Ha. unfold zstep, bit_step. rewrite xorb_false_r. rewrite <- (Z.mod_small a (2 ^ 31)) at 2 by lia.
  rewrite Z.mod_pow2_bits_high, Z.lxor_0_r by lia. apply uint_small. unfold is_uint. change (2 ^ 32) with (2 * 2 ^ 31). lia.
Qed.

Lemma zsteps_small n a : 0 <= a < 2 ^ (32 - Z.of_nat n) -> (n <= 32)%nat -> zsteps n a = 2 ^ Z.of_nat n * a.
Proof.
  revert a. induction n as [|n IH]; intros a Ha Hn; [change (a = 2 ^ 0 * a); lia|]. rewrite zsteps_S.
  assert (Z.of_nat (S n) = Z.of_nat n + 1) as S1 by lia. rewrite S1 in *.
  assert (P : 2 ^ (32 - Z.of_nat n) = 2 * 2 ^ (32 - (Z.of_nat n + 1))) by (rewrite (pow2_S (32 - Z.of_nat n)) by lia; do 2 f_equal; lia).
  rewrite IH by lia. rewrite zstep_small.
  - rewrite (pow2_split (Z.of_nat n) 1) by lia. ring.
  - assert (2 ^ 31 = 2 ^ Z.of_nat n * 2 ^ (32 - (Z.of_nat n + 1))) as -> by (rewrite <- pow2_split by lia; f_equal; lia).
    pose proof (pow2_pos (Z.of_nat n) ltac:(lia)). split; [lia|]. apply Z.mul_lt_mono_pos_l; lia.
Qed.

Lemma bits_step_zsteps n : (n <= 32)%nat -> forall r x, is_uint 32 r ->
  bits_step n r x = zsteps n (Z.lxor r ((x mod 2 ^ Z.of_nat n) * 2 ^ (32 - Z.of_nat n))).
Proof.
  induction n as [|n IH]; intros Hn r x R.
  - cbn [bits_step]. rewrite Z.mod_1_r, Z.mul_0_l, Z.lxor_0_r. reflexivity.
  - cbn [bits_step]. rewrite IH by (lia || apply bit_step_range).
    assert (E : Z.of_nat (S n) = Z.of_nat n + 1) by lia. rewrite E.
    set (k := Z.of_nat n) in *. set (b := Z.testbit x k). pose proof (pow2_pos k ltac:(lia)) as Pk.
    pose proof (Z.mod_pos_bound x (2 ^ k) Pk) as Mx.
    assert (B : bit_step r b = zstep (Z.lxor r (b2z b * 2 ^ 31))).
    { unfold zstep, bit_step. rewrite xorb_false_r, Z.lxor_spec.
      replace (Z.testbit (b2z b * 2 ^ 31) 31) with b by (destruct b; reflexivity).
      rewrite double_lxor, uint_lxor by lia. replace (uint 32 (2 * (b2z b * 2 ^ 31))) with 0 by (destruct b; reflexivity).
      now rewrite Z.lxor_0_r. }
    assert (Mm : x mod 2 ^ (k + 1) * 2 ^ (32 - (k + 1)) = Z.lxor (b2z b * 2 ^ 31) (x mod 2 ^ k * 2 ^ (32 - (k + 1)))).
    { assert (P31 : 2 ^ 31 = 2 ^ k * 2 ^ (32 - (k + 1))) by (rewrite <- pow2_split by lia; f_equal; lia).
      rewrite Z.lxor_comm, (lxor_above 31) by (lia || (unfold is_uint; rewrite P31; pose proof (pow2_pos (32 - (k + 1)) ltac:(lia)); nia)).
      rewrite P31, pow2_split, Z.rem_mul_r by lia. change (2 ^ 1) with 2. unfold b. rewrite Z.testbit_odd, Z.shiftr_div_pow2, Zmod_odd by lia.
      destruct (Z.odd (x / 2 ^ k)); cbn [b2z]; ring. }
    rewrite Mm, B. change (zsteps (S n) ?z) with (Nat.iter (S n) zstep z).
    assert (Sw : forall m z, zsteps m (zstep z) = zsteps (S m) z) by (induction m as [|m IHm]; intros z; [reflexivity|]; rewrite zsteps_S, IHm; reflexivity).
    rewrite <- Sw. f_equal. rewrite <- Z.lxor_assoc, (zstep_linear (Z.lxor r _)). f_equal. rewrite zstep_small.
    + replace (32 - k) with (1 + (32 - (k + 1))) by lia. rewrite (pow2_split 1) by lia. change (2 ^ 1) with 2. ring.
    + assert (2 ^ 31 = 2 ^ k * 2 ^ (32 - (k + 1))) as -> by (rewrite <- pow2_split by lia; f_equal; lia).
      pose proof (pow2_pos (32 - (k + 1)) ltac:(lia)). nia.
Qed.

(** The table is eight steps from its index, and what the generator prints. *)
Lemma crctab_entries h : 0 <= h < 256 ->
  nth (Z.to_nat h) crctab 0 = zsteps 8 (h * 2 ^ 24) /\ nth (Z.to_nat h) crctab 0 = crc_remainder h /\ is_uint 32 (nth (Z.to_nat h) crctab 0).
Proof.
  assert (T : forallb (fun i => let t := nth i crctab 0 in let h := Z.of_nat i in
    (t =? zsteps 8 (h * 2 ^ 24)) && (t =? crc_remainder h) && (0 <=? t) && (t <? 2 ^ 32)) (seq 0 256) = true) by (vm_compute; reflexivity).
  intros Hh. rewrite forallb_forall in T. specialize (T (Z.to_nat h) ltac:(apply in_seq; lia)). cbv zeta in T.
  rewrite Z2Nat.id in T by lia. unfold is_uint. lia.
Qed.

Lemma div_mod_slice a j k : 0 <= j -> 0 <= k -> (a mod 2 ^ (j + k)) / 2 ^ j = (a / 2 ^ j) mod 2 ^ k.
Proof.
  intros Hj Hk. pose proof (pow2_pos j Hj). pose proof (pow2_pos k Hk). rewrite pow2_split, Z.rem_mul_r by lia.
  rewrite Z.add_comm, Z.mul_comm, Z.div_add_l by lia. rewrite (Z.div_small (a mod 2 ^ j)) by (apply Z.mod_pos_bound; lia). lia.
Qed.

(** The table-driven update, on its low word, is eight single-bit steps. *)
Lemma crc_byte_spec crc x : uint 32 (crc_byte crc x) = bits_step 8 (uint 32 crc) x.
Proof.
  set (r := uint 32 crc). assert (R : is_uint 32 r) by (apply uint_range; lia).
  set (h := Z.lxor (r / 2 ^ 24) (x mod 256)).
  assert (Rh : is_uint 8 (r / 2 ^ 24)) by (unfold is_uint in *; split; [apply Z.div_pos|apply Z.div_lt_upper_bound]; lia).
  assert (Hh : 0 <= h < 256) by (apply (lxor_range 8); [lia|exact Rh|apply Z.mod_pos_bound; lia]).
  assert (Ix : ((crc >>[64] 24) .^ x) .& 0xFF = h).
  { change 0xFF with (2 ^ 8 - 1). rewrite land_ones_mod by lia. fold (uint 8 (Z.lxor (crc >>[64] 24) x)).
    rewrite uint_lxor, shr_spec by lia. unfold h. f_equal. unfold uint, r. symmetry. apply (div_mod_slice crc 24 8); lia. }
  unfold crc_byte. rewrite Ix. destruct (crctab_entries h Hh) as (-> & _ & _).
  rewrite bits_step_zsteps by (lia || exact R). change (2 ^ Z.of_nat 8) with 256. change (32 - Z.of_nat 8) with 24.
  assert (Sp : Z.lxor r (x mod 256 * 2 ^ 24) = Z.lxor (r mod 2 ^ 24) (h * 2 ^ 24)).
  { assert (Er : r = Z.lxor (r mod 2 ^ 24) (r / 2 ^ 24 * 2 ^ 24)).
    { rewrite lxor_above by (lia || (apply Z.mod_pos_bound; lia)). rewrite (Z.div_mod r (2 ^ 24)) at 1 by lia. ring. }
    rewrite Er at 1. rewrite Z.lxor_assoc. f_equal. unfold h. rewrite <- !Z.shiftl_mul_pow2 by lia. now rewrite Z.shiftl_lxor. }
  rewrite Sp, zsteps_linear, (zsteps_small 8 (r mod 2 ^ 24)) by (lia || (apply Z.mod_pos_bound; lia)).
  rewrite uint_lxor by lia. f_equal.
  - rewrite ushl_spec by lia. rewrite (eqm_uint 32 (uint 64 (crc * 2 ^ 8)) (crc * 2 ^ 8)) by (apply (eqm_lower 64); [lia|apply uint_eqm]).
    change (2 ^ Z.of_nat 8) with (2 ^ 8). unfold uint. rewrite (Z.mul_comm (2 ^ 8)). unfold r, uint.
    replace (2 ^ 32) with (2 ^ 24 * 2 ^ 8) by reflexivity. rewrite Z.mul_mod_distr_r by lia. f_equal.
    rewrite (Z.mul_comm (2 ^ 24)). symmetry. rewrite Z.mul_comm. apply (eqm_lower 32 24 (crc mod 2 ^ 32) crc); [lia|]. apply (uint_eqm 32).
  - apply uint_small. destruct (crctab_entries h Hh) as (<- & _ & B). exact B.
Qed.

(** ** The checksum *)

Lemma crc_byte_remainder m crc x : is_remainder m (uint 32 crc) -> is_remainder (256 * m + x mod 256) (uint 32 (crc_byte crc x)).
Proof. intros I. rewrite crc_byte_spec. exact (bits_step_remainder 8 x m _ I). Qed.

Lemma crc_bytes_remainder bytes : forall m crc, Forall (fun b => 0 <= b < 256) bytes -> is_remainder m (uint 32 crc) ->
  is_remainder (fold_left (fun m b => 256 * m + b) bytes m) (uint 32 (fold_left crc_byte bytes crc)).
Proof.
  induction bytes as [|b bytes IH]; intros m crc Hb I; [exact I|]. inversion Hb as [|? ? Hx Hb']; subst. cbn [fold_left].
  apply IH; [exact Hb'|]. rewrite <- (Z.mod_small b 256 Hx) at 1. now apply crc_byte_remainder.
Qed.

Lemma crc_length_remainder n : forall m crc len, is_remainder m (uint 32 crc) ->
  is_remainder (fold_left (fun m b => 256 * m + b) (len_bytes n len) m) (uint 32 (crc_length n crc len)).
Proof.
  induction n as [|n IH]; intros m crc len I; [exact I|]. cbn [len_bytes crc_length]. destruct (nonzero len); [|exact I].
  cbn [fold_left]. rewrite shr_spec by lia. apply IH. now apply crc_byte_remainder.
Qed.

(** What [fread] returns before it returns nothing, and [feof]: the end of
    the file is only reported when no bytes are left. *)
Fixpoint fread_reads (reads : list (list Z * bool)) : Prop :=
  match reads with
  | [] => True
  | (buf, eof) :: reads =>
      (0 < Z.of_nat (length buf) <= BUFLEN /\ Forall (fun b => 0 <= b < 256) buf) /\ (eof = true -> reads = []) /\ fread_reads reads
  end.
Definition file_bytes (reads : list (list Z * bool)) : list Z := concat (map fst reads).

Lemma file_bytes_range reads : fread_reads reads -> Forall (fun b => 0 <= b < 256) (file_bytes reads).
Proof.
  unfold file_bytes. induction reads as [|[buf eof] reads IH]; [constructor|]. intros ((_ & F) & _ & H). cbn [map concat fst]. apply Forall_app. auto.
Qed.

Lemma read_loop_spec reads : forall crc len, fread_reads reads -> is_uint 64 len ->
  let total := len + Z.of_nat (length (file_bytes reads)) in
  (total < 2 ^ 64 -> read_loop reads crc len = Some (fold_left crc_byte (file_bytes reads) crc, total)) /\
  (2 ^ 64 <= total -> read_loop reads crc len = None).
Proof.
  unfold file_bytes. induction reads as [|[buf eof] reads IH]; intros crc len Hb Hl; cbv zeta; cbn [map fst concat read_loop].
  - cbn. unfold is_uint in Hl. split; intros; [f_equal; f_equal; lia|lia].
  - destruct Hb as ([Hn _] & He & Hb'). change BUFLEN with 65536 in Hn. rewrite length_app, Nat2Z.inj_add, fold_left_app. unfold is_uint in Hl.
    rewrite (proj2 (Z.gtb_lt _ _)) by lia. unfold uadd. destruct (Z.lt_ge_cases (len + Z.of_nat (length buf)) (2 ^ 64)) as [L|L].
    + rewrite uint_small by (unfold is_uint; lia). rewrite (proj2 (Z.ltb_ge _ _)) by lia.
      destruct (IH (fold_left crc_byte buf crc) (len + Z.of_nat (length buf)) Hb' ltac:(unfold is_uint; lia)) as [A B]. cbv zeta in A, B.
      rewrite Z.add_assoc. destruct eof; [rewrite (He eq_refl) in *|split; [exact A|exact B]]. cbn in *. rewrite Z.add_0_r. split; [reflexivity|lia].
    + replace (uint 64 (len + Z.of_nat (length buf))) with (len + Z.of_nat (length buf) - 2 ^ 64)
        by (apply Z.mod_unique with 1; change (2 ^ 64) with 18446744073709551616 in *; lia).
      rewrite (proj2 (Z.ltb_lt _ _)) by (change (2 ^ 64) with 18446744073709551616 in *; lia). split; [lia|reflexivity].
Qed.

(** C39: [cksum] computes the POSIX checksum: for any file of fewer than 2^64
    bytes, however [fread] splits it, the printed number is the complement of
    the remainder, modulo the generating polynomial, of the polynomial formed by
    the bytes and then the bytes of the length, times X^32; the printed length
    is the number of bytes.  A longer file is rejected. *)
Theorem cksum_posix reads : fread_reads reads ->
  let bytes := file_bytes reads in let total := Z.of_nat (length bytes) in
  (total < 2 ^ 64 -> exists r, cksum reads = Some (2 ^ 32 - 1 - r, total) /\
     is_remainder (poly_of (bytes ++ len_bytes 8 total)) r) /\
  (2 ^ 64 <= total -> cksum reads = None).
Proof.
  intros Hb bytes total. destruct (read_loop_spec reads 0 0 Hb ltac:(split; vm_compute; congruence)) as [A B]. cbv zeta in A, B.
  rewrite Z.add_0_l in A, B. fold bytes total in A, B. unfold cksum. split; intros L; [|now rewrite (B L)].
  rewrite (A L). cbn [obind]. set (crc := crc_length 8 (fold_left crc_byte bytes 0) total). exists (uint 32 crc). split.
  - do 2 f_equal. change 0xFFFFFFFF with (2 ^ 32 - 1). rewrite land_ones_mod by lia. unfold unot.
    fold (uint 32 (uint 64 (Z.lnot crc))). rewrite (eqm_uint 32 (uint 64 (Z.lnot crc)) (Z.lnot crc)) by (apply (eqm_lower 64); [lia|apply uint_eqm]).
    pose proof (uint_range 32 crc ltac:(lia)) as U. unfold is_uint in U. apply uint_of_eqm; [unfold is_uint; lia|].
    unfold Z.lnot. replace (2 ^ 32 - 1 - uint 32 crc) with (- uint 32 crc - 1 + 2 ^ 32) by ring. rewrite eqm_pow, uint_eqm.
    now replace (Z.pred (- crc)) with (- crc - 1 + 0) by lia.
  - unfold poly_of. rewrite fold_left_app. apply crc_length_remainder. apply crc_bytes_remainder.
    + now apply file_bytes_range.
    + split; [split; vm_compute; congruence|]. exists 0. split; [lia|reflexivity].
Qed.

Definition sample_reads : list (list Z * bool) := [([0x61; 0x62], false); ([0x63; 10], true)].

Lemma cksum_posix_witness : fread_reads sample_reads /\ cksum sample_reads = Some (1112837078, 4) /\
  exists r, cksum sample_reads = Some (2 ^ 32 - 1 - r, 4) /\ is_remainder (poly_of [0x61; 0x62; 0x63; 10; 4]) r.
Proof.
  assert (F : fread_reads sample_reads) by (cbn; repeat split; try lia; try discriminate; repeat constructor; lia).
  split; [exact F|]. split; [vm_compute; reflexivity|]. destruct (cksum_posix _ F) as [A _]. apply A. reflexivity.
Defined.

(** The table is what the generator in the same file prints: entry [h]
    is [crc_remainder h], the remainder of [h * X^32]. *)
Theorem crctab_generated h : 0 <= h < 256 ->
  nth (Z.to_nat h) crctab 0 = crc_remainder h /\ is_remainder h (crc_remainder h).
Proof.
  intros Hh. destruct (crctab_entries h Hh) as (E & <- & _). split; [reflexivity|].
  assert (I0 : is_remainder 0 (uint 32 0)) by (split; [split; vm_compute; congruence|]; exists 0; split; [lia|reflexivity]).
  pose proof (bits_step_remainder 8 h 0 0 I0) as I. rewrite bits_step_zsteps in I by (lia || (split; vm_compute; congruence)).
  change (2 ^ Z.of_nat 8) with 256 in I. change (32 - Z.of_nat 8) with 24 in I. rewrite Z.lxor_0_l, (Z.mod_small h 256), <- E in I by lia.
  exact I.
Qed.

Lemma crctab_generated_witness : nth 200 crctab 0 = crc_remainder 200 /\ is_remainder 200 (crc_remainder 200).
Proof. exact (crctab_generated 200 ltac:(lia)). Defined.

(** *** Decimal conversion *)

Definition decimal_value (l : list Z) : Z := fold_left (fun v c => 10 * v + (c - 48)) l 0.

Lemma decimal_from l v : fold_left (fun v c => 10 * v + (c - 48)) l v = v * 10 ^ Z.of_nat (length l) + decimal_value l.
Proof.
  unfold decimal_value. revert v. induction l as [|c l IH]; intros v; [cbn; lia|]. cbn [fold_left length].
  rewrite IH, (IH (10 * 0 + (c - 48))), Nat2Z.inj_succ, Z.pow_succ_r by lia. ring.
Qed.

Lemma umaxtostr_loop_spec n : forall i acc, 0 <= i < 10 ^ Z.of_nat n -> (0 < n)%nat ->
  exists d, umaxtostr_loop n i acc = d ++ acc /\ decimal_value d = i /\ Forall (fun c => 48 <= c <= 57) d /\
    (0 < length d <= n)%nat /\ (i <> 0 -> hd 0 d <> 48).
Proof.
  induction n as [|n IH]; intros i acc Hi Hn; [lia|]. cbn [umaxtostr_loop].
  pose proof (Z.div_mod i 10 ltac:(lia)) as D. pose proof (Z.mod_pos_bound i 10 ltac:(lia)) as M. unfold nonzero.
  destruct (Z.eqb_spec (i / 10) 0) as [E|E]; cbn [negb].
  - exists [48 + i mod 10]. split; [reflexivity|]. split; [unfold decimal_value; cbn [fold_left]; lia|].
    split; [repeat constructor; lia|]. split; [cbn [length]; lia|]. intros Ni. cbn [hd]. lia.
  - assert (Hq : 0 <= i / 10 < 10 ^ Z.of_nat n).
    { rewrite Nat2Z.inj_succ, Z.pow_succ_r in Hi by lia. split; [apply Z.div_pos|apply Z.div_lt_upper_bound]; lia. }
    destruct n as [|n]; [cbn in Hq; lia|]. destruct (IH (i / 10) ((48 + i mod 10) :: acc) Hq ltac:(lia)) as (d & -> & V & F & L & H).
    exists (d ++ [48 + i mod 10]). rewrite <- app_assoc. split; [reflexivity|]. unfold decimal_value. rewrite fold_left_app. cbn [fold_left].
    fold (decimal_value d). rewrite V. split; [lia|]. split; [apply Forall_app; split; [exact F|repeat constructor; lia]|].
    rewrite length_app. cbn [length]. split; [lia|]. intros _. destruct d; [cbn in L; lia|]. now apply H.
Qed.

(** [umaxtostr] writes the decimal digits of every 64-bit number, without
    leading zero, in at most the 20 characters its buffer is dimensioned for. *)
Theorem umaxtostr_correct i : is_uint 64 i ->
  let s := umaxtostr i in
  decimal_value s = i /\ Forall (fun c => 48 <= c <= 57) s /\ (0 < length s <= 20)%nat /\ (i <> 0 -> hd 0 s <> 48).
Proof.
  intros Hi. unfold umaxtostr. destruct (umaxtostr_loop_spec 20 i []) as (d & E & H); [|lia|].
  - unfold is_uint in Hi. change (2 ^ 64) with 18446744073709551616 in Hi. change (10 ^ Z.of_nat 20) with 100000000000000000000. lia.
  - rewrite app_nil_r in E. cbv zeta. rewrite E. exact H.
Qed.

Lemma umaxtostr_correct_witness : umaxtostr 1234567890 = [49; 50; 51; 52; 53; 54; 55; 56; 57; 48] /\ decimal_value (umaxtostr 1234567890) = 1234567890.
Proof. split; [reflexivity|]. apply umaxtostr_correct. split; vm_compute; congruence. Defined.
