(* ===== verification/Blocks.v ===== *)
(** * Message blocks and padding

    The framework the two hash benchmarks share: a message is padded to a
    multiple of 64 bytes, cut into blocks and folded through a block
    function.  [hash] is the specification both implementations are proved
    against. *)

From S2P Require Import Prelude.

(** The first [n] blocks of 64 bytes. *)
Fixpoint blocks (n : nat) (l : list Z) : list (list Z) :=
  match n with
  | O => []
  | S n => firstn 64 l :: blocks n (skipn 64 l)
  end.
Definition all_blocks (l : list Z) : list (list Z) := blocks (length l / 64) l.

(** The bit 1, zeros up to 8 bytes below a block boundary, and the length in bits. *)
Definition pad_zeros (len : Z) : nat := Z.to_nat ((55 - len) mod 64).
Definition pad (encode_len : Z -> list Z) (msg : list Z) : list Z :=
  let len := Z.of_nat (length msg) in
  msg ++ 0x80 :: repeat 0 (pad_zeros len) ++ encode_len (8 * len).

Lemma Forall_firstn {A} (P : A -> Prop) n l : Forall P l -> Forall P (firstn n l).
Proof. intros H. rewrite <- (firstn_skipn n l) in H. apply Forall_app in H. tauto. Qed.

Lemma Forall_skipn {A} (P : A -> Prop) n l : Forall P l -> Forall P (skipn n l).
Proof. intros H. rewrite <- (firstn_skipn n l) in H. apply Forall_app in H. tauto. Qed.

Section Hash.
Context {St : Type} (block : St -> list Z -> St).

Definition fold_blocks (s : St) (l : list Z) : St := fold_left block (all_blocks l) s.
Definition hash (init : St) (encode_len : Z -> list Z) (msg : list Z) : St := fold_blocks init (pad encode_len msg).

Lemma blocks_app n k a b : length a = (64 * n)%nat -> blocks (n + k) (a ++ b) = blocks n a ++ blocks k b.
Proof.
  revert a. induction n as [|n IH]; intros a Ha; [destruct a; [reflexivity|cbn in Ha; lia]|]. cbn [Nat.add blocks app].
  rewrite firstn_app, skipn_app. replace (64 - length a)%nat with O by lia. rewrite skipn_O, firstn_O, app_nil_r.
  f_equal. apply IH. rewrite length_skipn. lia.
Qed.

Lemma all_blocks_app a b : (length a mod 64 = 0)%nat -> all_blocks (a ++ b) = all_blocks a ++ all_blocks b.
Proof.
  intros Ha. pose proof (Nat.div_mod (length a) 64 ltac:(lia)) as D. unfold all_blocks. rewrite length_app.
  replace ((length a + length b) / 64)%nat with (length a / 64 + length b / 64)%nat; [apply blocks_app; lia|].
  replace (length a + length b)%nat with (length a / 64 * 64 + length b)%nat by lia. now rewrite Nat.div_add_l by lia.
Qed.

Lemma fold_blocks_app s a b : (length a mod 64 = 0)%nat -> fold_blocks s (a ++ b) = fold_blocks (fold_blocks s a) b.
Proof. intros Ha. unfold fold_blocks. rewrite all_blocks_app by exact Ha. apply fold_left_app. Qed.

Lemma fold_blocks_nil s : fold_blocks s [] = s.
Proof. reflexivity. Qed.

(** The blocks of a list only depend on whole blocks. *)
Lemma fold_blocks_cons s l : (64 <= length l)%nat -> fold_blocks s l = fold_blocks (block s (firstn 64 l)) (skipn 64 l).
Proof.
  intros Hl. rewrite <- (firstn_skipn 64 l) at 1. rewrite fold_blocks_app by (rewrite length_firstn; replace (Nat.min 64 (length l)) with 64%nat by lia; reflexivity).
  f_equal. unfold fold_blocks, all_blocks. rewrite length_firstn. replace (Nat.min 64 (length l)) with 64%nat by lia.
  change (64 / 64)%nat with 1%nat. cbn [blocks fold_left]. now rewrite firstn_firstn.
Qed.
End Hash.

(** The padded message is a whole number of blocks. *)
Lemma pad_length encode_len msg : (forall n, length (encode_len n) = 8%nat) -> (length (pad encode_len msg) mod 64 = 0)%nat.
Proof.
  intros E. unfold pad. rewrite length_app. cbn [length]. rewrite length_app, repeat_length, E. unfold pad_zeros.
  set (n := Z.of_nat (length msg)). pose proof (Z.mod_pos_bound (55 - n) 64 ltac:(lia)) as M. pose proof (Z.div_mod (55 - n) 64 ltac:(lia)) as D.
  apply Nat2Z.inj. rewrite Nat2Z.inj_mod. apply Z.mod_divide; [lia|]. exists (1 - (55 - n) / 64). lia.
Qed.

(** Padding only depends on the position within the last block. *)
Lemma pad_zeros_mod a b : (a mod 64 = b mod 64) -> pad_zeros a = pad_zeros b.
Proof. intros E. unfold pad_zeros. f_equal. rewrite Zminus_mod, E, <- Zminus_mod. reflexivity. Qed.
