(* ===== verification/Sine.v ===== *)
(** * The sine constants of MD5

    RFC 1321 defines its 64 constants by the sine function: the [n]-th is the
    integer part of 2^32 times the absolute value of sin [n], [n] in radians.
    That is a definition on real numbers.  Here it is computed: sin 1 and
    cos 1 are bounded by their alternating series, the angle is turned by one
    radian at a time in fixed point, and the error of the result is proved too
    small to change its integer part. *)

From Stdlib Require Import Reals Lra.
From S2P Require Import Prelude.
Open Scope Z_scope.

(** The constant as the standard defines it. *)
Definition sine_constant (n : nat) : Z := Int_part (IZR (2 ^ 32) * Rabs (sin (INR n))).

(** ** Sine and cosine of one radian *)

Definition Q : Z := 2 ^ 256.

Fixpoint zfact (n : nat) : Z := match n with O => 1 | S k => Z.of_nat n * zfact k end.

(** The partial sums of the two series at 1, over (2k+1)! and (2k)!. *)
Fixpoint sin_num (k : nat) : Z :=
  match k with
  | O => 1
  | S j => sin_num j * ((2 * Z.of_nat k) * (2 * Z.of_nat k + 1)) + (-1) ^ Z.of_nat k
  end.
Fixpoint cos_num (k : nat) : Z :=
  match k with
  | O => 1
  | S j => cos_num j * ((2 * Z.of_nat k - 1) * (2 * Z.of_nat k)) + (-1) ^ Z.of_nat k
  end.

(** sin 1 and cos 1 in fixed point. *)
Definition sin1 : Z := 0xd76aa47848677020c6e9e909c50f3c3289e511132f518b4defb6ca5fd6c649bd.
Definition cos1 : Z := 0x8a51407da8345c91c2466d976871bd29a2373a894f96c3b7f2300240b760e6fa.

(** Turning [n] times by one radian from the angle 0. *)
Definition turn (sc : Z * Z) : Z * Z :=
  let '(s, c) := sc in (Z.shiftr (s * cos1 + c * sin1) 256, Z.shiftr (c * cos1 - s * sin1) 256).
Definition turned (n : nat) : Z * Z := Nat.iter n turn (0, Q).

(** The integer part, from a fixed-point sine. *)
Definition integer_part (s : Z) : Z := Z.shiftr (Z.abs s) 224.

(** The integer parts for the next [k] angles. *)
Fixpoint sine_values (k : nat) (sc : Z * Z) : list Z :=
  match k with O => [] | S k => integer_part (fst sc) :: sine_values k (turn sc) end.

Lemma zfact_fact n : INR (fact n) = IZR (zfact n).
Proof. induction n as [|n IH]; [reflexivity|]. rewrite fact_simpl, mult_INR, IH, INR_IZR_INZ, <- mult_IZR. reflexivity. Qed.

Lemma zfact_pos n : 0 < zfact n.
Proof. induction n as [|n IH]; [reflexivity|]. cbn [zfact]. lia. Qed.

Lemma pow_minus_one k : ((-1) ^ k)%R = IZR ((-1) ^ Z.of_nat k).
Proof. rewrite <- pow_IZR. reflexivity. Qed.

Lemma IZR_neq0 z : z <> 0 -> IZR z <> 0%R.
Proof. intros H E. now apply eq_IZR in E. Qed.

Lemma sin_series k : sin_approx 1 k = (IZR (sin_num k) / IZR (zfact (2 * k + 1)))%R.
Proof.
  unfold sin_approx. induction k as [|k IH]; [cbn; unfold sin_term; cbn; field|].
  cbn [sum_f_R0]. rewrite IH. unfold sin_term. rewrite pow1, pow_minus_one, zfact_fact.
  replace (2 * S k + 1)%nat with (S (S (2 * k + 1))) by lia. cbn [zfact sin_num].
  replace (Z.of_nat (S (S (2 * k + 1)))) with (2 * Z.of_nat (S k) + 1) by lia. replace (Z.of_nat (S (2 * k + 1))) with (2 * Z.of_nat (S k)) by lia.
  rewrite plus_IZR, !mult_IZR. field. split; [|split]; apply IZR_neq0; [pose proof (zfact_pos (2 * k + 1))|..]; lia.
Qed.

Lemma cos_series k : cos_approx 1 k = (IZR (cos_num k) / IZR (zfact (2 * k)))%R.
Proof.
  unfold cos_approx. induction k as [|k IH]; [cbn; unfold cos_term; cbn; field|].
  cbn [sum_f_R0]. rewrite IH. unfold cos_term. rewrite pow1, pow_minus_one, zfact_fact.
  replace (2 * S k)%nat with (S (S (2 * k))) by lia. cbn [zfact cos_num].
  replace (Z.of_nat (S (S (2 * k)))) with (2 * Z.of_nat (S k)) by lia. replace (Z.of_nat (S (2 * k))) with (2 * Z.of_nat (S k) - 1) by lia.
  rewrite plus_IZR, !mult_IZR. field. split; [|split]; apply IZR_neq0; [pose proof (zfact_pos (2 * k))|..]; lia.
Qed.

(** A quotient of integers between two others. *)
Lemma quotient_between a b n d l h : 0 < d -> (l * d <= n * a)%Z -> (n * b <= h * d)%Z -> a = b ->
  (IZR l <= IZR a * (IZR n / IZR d) <= IZR h)%R.
Proof.
  intros Hd Hl Hh <-. apply IZR_le in Hl, Hh. rewrite !mult_IZR in *. apply IZR_lt in Hd.
  replace (IZR a * (IZR n / IZR d))%R with (IZR n * IZR a / IZR d)%R by (field; lra).
  split; [apply Rmult_le_reg_r with (IZR d)|apply Rmult_le_reg_r with (IZR d)]; try lra;
    (replace (IZR n * IZR a / IZR d * IZR d)%R with (IZR n * IZR a)%R by (field; lra)); lra.
Qed.

Lemma one_below_PI : (0 <= 1 <= PI)%R.
Proof. pose proof PI2_1. lra. Qed.

Lemma sin_one : (IZR sin1 <= IZR Q * sin 1 <= IZR (sin1 + 1))%R.
Proof.
  pose proof (sin_bound 1 14) as [L H]; [apply one_below_PI..|]. change (2 * 14 + 1)%nat with 29%nat in L. change (2 * (14 + 1))%nat with 30%nat in H.
  rewrite sin_series in L, H.
  destruct (quotient_between Q Q (sin_num 29) (zfact (2 * 29 + 1)) sin1 (sin1 + 1)) as [A _]; [apply zfact_pos|vm_compute; congruence|vm_compute; congruence|reflexivity|].
  destruct (quotient_between Q Q (sin_num 30) (zfact (2 * 30 + 1)) sin1 (sin1 + 1)) as [_ B]; [apply zfact_pos|vm_compute; congruence|vm_compute; congruence|reflexivity|].
  assert (P : (0 < IZR Q)%R) by (apply IZR_lt; reflexivity). split; [eapply Rle_trans; [exact A|]|eapply Rle_trans; [|exact B]]; apply Rmult_le_compat_l; lra.
Qed.

Lemma cos_one : (IZR cos1 <= IZR Q * cos 1 <= IZR (cos1 + 1))%R.
Proof.
  pose proof PI2_1. pose proof (cos_bound 1 14) as [L H']; [lra|lra|]. change (2 * 14 + 1)%nat with 29%nat in L. change (2 * (14 + 1))%nat with 30%nat in H'.
  rewrite cos_series in L, H'.
  destruct (quotient_between Q Q (cos_num 29) (zfact (2 * 29)) cos1 (cos1 + 1)) as [A _]; [apply zfact_pos|vm_compute; congruence|vm_compute; congruence|reflexivity|].
  destruct (quotient_between Q Q (cos_num 30) (zfact (2 * 30)) cos1 (cos1 + 1)) as [_ B]; [apply zfact_pos|vm_compute; congruence|vm_compute; congruence|reflexivity|].
  assert (P : (0 < IZR Q)%R) by (apply IZR_lt; reflexivity). split; [eapply Rle_trans; [exact A|]|eapply Rle_trans; [|exact B]]; apply Rmult_le_compat_l; lra.
Qed.

(** ** Turning *)

(** [z] is the number [x], which is below 1, in fixed point with error [e]. *)
Definition close (e z : Z) (x : R) : Prop := (Rabs (IZR z - IZR Q * x) <= IZR e)%R /\ (Rabs x <= 1)%R.

(** The rounded division moves a number by less than one. *)
Lemma floor_error a : (Rabs (IZR (a / Q) - IZR a / IZR Q) <= 1)%R.
Proof.
  pose proof (Z.div_mod a Q ltac:(discriminate)) as D. pose proof (Z.mod_pos_bound a Q eq_refl) as M.
  assert (P : (0 < IZR Q)%R) by (apply IZR_lt; reflexivity). destruct M as [M1 M2]. apply IZR_le in M1. apply IZR_lt in M2.
  replace (IZR a) with (IZR Q * IZR (a / Q) + IZR (a mod Q))%R by (rewrite <- mult_IZR, <- plus_IZR; now f_equal).
  replace (IZR (a / Q) - (IZR Q * IZR (a / Q) + IZR (a mod Q)) / IZR Q)%R with (- (IZR (a mod Q) / IZR Q))%R by (field; lra).
  rewrite Rabs_Ropp, Rabs_pos_eq.
  - apply Rmult_le_reg_r with (IZR Q); [exact P|]. unfold Rdiv. rewrite Rmult_assoc, Rinv_l by lra. lra.
  - apply Rmult_le_pos; [lra|]. apply Rlt_le, Rinv_0_lt_compat. exact P.
Qed.

Lemma product_error (A X b y E q : R) : (Rabs (A - X) <= E -> Rabs (b - y) <= 1 -> Rabs X <= q -> Rabs y <= q ->
  Rabs (A * b - X * y) <= E * q + E + q)%R.
Proof.
  intros HA Hb HX Hy. replace (A * b - X * y)%R with ((A - X) * (b - y) + (A - X) * y + X * (b - y))%R by ring.
  eapply Rle_trans; [apply Rabs_triang|]. apply Rle_trans with (Rabs (A - X) * Rabs (b - y) + Rabs (A - X) * Rabs y + Rabs X * Rabs (b - y))%R.
  - rewrite <- !Rabs_mult. apply Rplus_le_compat_r. apply Rabs_triang.
  - pose proof (Rabs_pos (A - X)). pose proof (Rabs_pos (b - y)). pose proof (Rabs_pos X). pose proof (Rabs_pos y). nra.
Qed.

(** Two products of close numbers, added or subtracted. *)
Lemma turn_close e s c a b x y u v op rop : 1 <= e <= Q -> close e s x -> close e c y -> close 1 a u -> close 1 b v ->
  (forall m n, IZR (op m n) = rop (IZR m) (IZR n)) -> (forall p q r t, (Rabs (rop p q - rop r t) <= Rabs (p - r) + Rabs (q - t))%R) ->
  (forall k p q, rop (k * p) (k * q) = k * rop p q)%R -> (Rabs (rop (x * u) (y * v)) <= 1)%R ->
  close (8 * e) (op (s * a) (c * b) / Q) (rop (x * u) (y * v))%R.
Proof.
  intros [E1 E2] [Hs Bx] [Hc By] [Ha Bu] [Hb Bv] Hop Lip Lin B. split; [|exact B]. apply IZR_le in E1, E2.
  assert (P : (0 < IZR Q)%R) by (apply IZR_lt; reflexivity). set (q := IZR Q) in *.
  assert (Sc : forall z, (Rabs z <= 1 -> Rabs (q * z) <= q)%R) by (intros z Hz; rewrite Rabs_mult, (Rabs_pos_eq q) by lra; nra).
  pose proof (product_error _ _ _ _ _ q Hs Ha (Sc _ Bx) (Sc _ Bu)) as P1. pose proof (product_error _ _ _ _ _ q Hc Hb (Sc _ By) (Sc _ Bv)) as P2.
  pose proof (floor_error (op (s * a) (c * b))) as F. rewrite Hop, !mult_IZR in F. fold q in F.
  set (r := (rop (IZR s * IZR a) (IZR c * IZR b))%R) in *.
  assert (R1 : (Rabs (r - q * (q * rop (x * u) (y * v))) <= 2 * (IZR e * q + IZR e + q))%R).
  { unfold r. rewrite <- !Lin. replace (q * (q * (x * u)))%R with (q * x * (q * u))%R by ring. replace (q * (q * (y * v)))%R with (q * y * (q * v))%R by ring.
    eapply Rle_trans; [apply Lip|]. lra. }
  assert (R2 : (Rabs (r / q - q * rop (x * u) (y * v)) <= 2 * IZR e + 4)%R).
  { apply Rmult_le_reg_r with q; [exact P|]. apply Rle_trans with (Rabs ((r / q - q * rop (x * u) (y * v)) * q)%R); [rewrite Rabs_mult, (Rabs_pos_eq q) by lra; apply Rle_refl|].
    replace ((r / q - q * rop (x * u) (y * v)) * q)%R with (r - q * (q * rop (x * u) (y * v)))%R by (field; lra). nra. }
  set (o := op (s * a) (c * b) / Q) in *. rewrite mult_IZR.
  replace (IZR o - q * rop (x * u) (y * v))%R with ((IZR o - r / q) + (r / q - q * rop (x * u) (y * v)))%R by ring.
  eapply Rle_trans; [apply Rabs_triang|]. lra.
Qed.

Lemma sin_cos_bounds x : (Rabs (sin x) <= 1 /\ Rabs (cos x) <= 1)%R.
Proof. pose proof (SIN_bound x). pose proof (COS_bound x). split; apply Rabs_le; lra. Qed.

Lemma close_one z x : (IZR z <= IZR Q * x <= IZR (z + 1))%R -> (Rabs x <= 1)%R -> close 1 z x.
Proof. intros [L H] B. split; [|exact B]. rewrite plus_IZR in H. apply Rabs_le. lra. Qed.

Lemma turned_close n : (n <= 64)%nat -> close (8 ^ Z.of_nat n) (fst (turned n)) (sin (INR n)) /\ close (8 ^ Z.of_nat n) (snd (turned n)) (cos (INR n)).
Proof.
  induction n as [|n IH]; intros Hn.
  - change (turned 0) with (0, Q). cbn [fst snd INR]. rewrite sin_0, cos_0. unfold close. rewrite Rabs_R0, Rabs_R1.
    replace (0 - IZR Q * 0)%R with 0%R by ring. replace (IZR Q - IZR Q * 1)%R with 0%R by ring. rewrite Rabs_R0. cbn. repeat split; lra.
  - destruct (IH ltac:(lia)) as [Hs Hc]. change (turned (S n)) with (turn (turned n)). destruct (turned n) as [s c]. unfold turn. rewrite !Z.shiftr_div_pow2 by lia. cbn [fst snd] in *. rewrite S_INR, sin_plus, cos_plus.
    pose proof (sin_cos_bounds 1) as [B1 B2]. pose proof (close_one _ _ sin_one B1) as C1. pose proof (close_one _ _ cos_one B2) as C2.
    assert (He : 1 <= 8 ^ Z.of_nat n <= Q).
    { split; [apply (Z.pow_le_mono_r 8 0); lia|]. apply Z.le_trans with (8 ^ 64); [apply Z.pow_le_mono_r; lia|vm_compute; congruence]. }
    replace (8 ^ Z.of_nat (S n)) with (8 * 8 ^ Z.of_nat n) by (rewrite Nat2Z.inj_succ, Z.pow_succ_r by lia; reflexivity).
    pose proof (sin_cos_bounds (INR n + 1)) as [B3 B4]. rewrite sin_plus in B3. rewrite cos_plus in B4. split.
    + apply (turn_close _ s c cos1 sin1 _ _ _ _ Z.add Rplus); try assumption.
      * exact plus_IZR.
      * intros p q r t. replace (p + q - (r + t))%R with ((p - r) + (q - t))%R by ring. apply Rabs_triang.
      * intros; ring.
    + apply (turn_close _ c s cos1 sin1 _ _ _ _ Z.sub Rminus); try assumption.
      * exact minus_IZR.
      * intros p q r t. replace (p - q - (r - t))%R with ((p - r) + - (q - t))%R by ring. eapply Rle_trans; [apply Rabs_triang|]. rewrite Rabs_Ropp. lra.
      * intros; ring.
Qed.

(** ** The constants *)

(** An error of [e] does not change the integer part, for the next [k] angles. *)
Definition far_from_integer (s e : Z) : bool :=
  let f := integer_part s in (Z.shiftl f 224 + e <=? Z.abs s) && (Z.abs s + e <? Z.shiftl (f + 1) 224).
Fixpoint all_far (k : nat) (sc : Z * Z) (e : Z) : bool :=
  match k with O => true | S k => far_from_integer (fst sc) e && all_far k (turn sc) (8 * e) end.

Lemma iter_turn i sc : Nat.iter i turn (turn sc) = Nat.iter (S i) turn sc.
Proof. induction i as [|i IH]; [reflexivity|]. change (turn (Nat.iter i turn (turn sc)) = turn (Nat.iter (S i) turn sc)). now rewrite IH. Qed.

Lemma all_far_nth k : forall sc e i, all_far k sc e = true -> (i < k)%nat -> far_from_integer (fst (Nat.iter i turn sc)) (8 ^ Z.of_nat i * e) = true.
Proof.
  induction k as [|k IH]; intros sc e i H Hi; [lia|]. cbn [all_far] in H. apply andb_true_iff in H as [H1 H2].
  destruct i as [|i]; [cbn [Nat.iter Z.of_nat]; now rewrite Z.pow_0_r, Z.mul_1_l|].
  specialize (IH (turn sc) (8 * e) i H2 ltac:(lia)). rewrite iter_turn in IH. rewrite Nat2Z.inj_succ, Z.pow_succ_r by lia.
  now replace (8 * 8 ^ Z.of_nat i * e) with (8 ^ Z.of_nat i * (8 * e)) by ring.
Qed.

Lemma sine_values_nth k : forall sc i, (i < k)%nat -> nth i (sine_values k sc) 0 = integer_part (fst (Nat.iter i turn sc)).
Proof.
  induction k as [|k IH]; intros sc i Hi; [lia|]. destruct i as [|i]; [reflexivity|]. cbn [sine_values nth]. rewrite IH by lia. now rewrite iter_turn.
Qed.

(** For the 64 angles of the standard the error cannot reach another integer. *)
Lemma all_angles_far : all_far 64 (turned 1) 8 = true.
Proof. vm_compute. reflexivity. Qed.

(** The 64 constants, computed. *)
Definition sine_table : list Z := sine_values 64 (turned 1).

Lemma integer_part_exact n : (n <= 64)%nat -> far_from_integer (fst (turned n)) (8 ^ Z.of_nat n) = true -> sine_constant n = integer_part (fst (turned n)).
Proof.
  intros Hn T. unfold far_from_integer in T. cbv zeta in T. rewrite !Z.shiftl_mul_pow2 in T by lia. apply andb_true_iff in T as [T1 T2].
  apply Z.leb_le in T1. apply Z.ltb_lt in T2. destruct (turned_close n Hn) as [[C _] _].
  set (a := fst (turned n)) in *. set (f := integer_part a) in *. clearbody a f. set (e := 8 ^ Z.of_nat n) in *. clearbody e.
  apply IZR_le in T1. apply IZR_lt in T2. rewrite plus_IZR, mult_IZR in T1. rewrite plus_IZR, mult_IZR, plus_IZR in T2.
  assert (A : (Rabs (IZR (Z.abs a) - IZR Q * Rabs (sin (INR n))) <= IZR e)%R).
  { rewrite abs_IZR. assert (P : (0 < IZR Q)%R) by (apply IZR_lt; reflexivity). rewrite <- (Rabs_pos_eq (IZR Q)) by lra. rewrite <- Rabs_mult.
    eapply Rle_trans; [apply Rabs_triang_inv2|]. exact C. }
  unfold sine_constant. symmetry. apply Int_part_spec. replace (IZR Q) with (IZR (2 ^ 224) * IZR (2 ^ 32))%R in A by (rewrite <- mult_IZR; reflexivity).
  assert (P : (0 < IZR (2 ^ 224))%R) by (apply IZR_lt; reflexivity). set (w := IZR (2 ^ 224)) in *. clearbody w.
  set (x := (IZR (2 ^ 32) * Rabs (sin (INR n)))%R) in *. rewrite Rmult_assoc in A. fold x in A. clearbody x.
  pose proof (Rle_abs (IZR (Z.abs a) - w * x)) as A1. pose proof (Rle_abs (- (IZR (Z.abs a) - w * x))) as A2. rewrite Rabs_Ropp in A2.
  split; nra.
Qed.

Theorem sine_constants_computed i : (i < 64)%nat -> sine_constant (S i) = nth i sine_table 0.
Proof.
  intros Hi. pose proof (all_far_nth 64 (turned 1) 8 i all_angles_far Hi) as T. unfold sine_table. rewrite sine_values_nth by exact Hi.
  unfold turned in *. rewrite Nat.iter_succ in *. change (Nat.iter 0 turn (0, Q)) with (0, Q) in *. rewrite iter_turn in *.
  apply (integer_part_exact (S i)); [lia|]. unfold turned. rewrite Nat2Z.inj_succ, Z.pow_succ_r by lia. now rewrite Z.mul_comm.
Qed.

Lemma sine_constants_computed_witness : sine_constant 1 = 0xd76aa478 /\ sine_constant 64 = 0xeb86d391.
Proof. split; [rewrite (sine_constants_computed 0) by lia|rewrite (sine_constants_computed 63) by lia]; vm_compute; reflexivity. Defined.
