(* ===== verification/Md5.v ===== *)
(** * The [md5sum] benchmark: MD5 and base64

    Models [test/microbenchmarks/concrete/md5sum/md5sum.c]: the table, [md5]
    with its padding and its block loop, [encode] and [decode], the base64
    coder, and [md5sum], which feeds a string to [md5] in chunks.  Byte
    arrays are lists; [calloc] does not fail.  The specifications are those of
    RFC 1321, with its constants from the sine function of real numbers
    ([Sine]), and of RFC 4648; they share nothing with the code. *)

From Stdlib Require Import Ascii String.
From S2P Require Import Prelude Digits Blocks Sine.





(** *** The block function *)





(** *** [md5] *)



(** *** base64 *)

(** [for (c = from; c <= to; c++) { t64e[i] = c; t64d[c] = i++; }] *)
Fixpoint fill64 (n : nat) (c i : Z) (t64d t64e : list Z) : Z * list Z * list Z :=
  match n with
  | O => (i, t64d, t64e)
  | S n => fill64 n (c + 1) (i + 1) (store t64d (Z.to_nat c) i) (store t64e (Z.to_nat i) c)
  end.

Definition init64 : list Z * list Z :=
  let '(i, t64d, t64e) := fill64 26 65 0 (repeat 255 256) (repeat 61 64) in
  let '(i, t64d, t64e) := fill64 26 97 i t64d t64e in
  let '(i, t64d, t64e) := fill64 10 48 i t64d t64e in
  let t64e := store t64e (Z.to_nat i) 43 in
  let t64d := store t64d 43 i in
  let i := i + 1 in
  (store t64d 47 i, store t64e (Z.to_nat i) 47).

Definition t64d (c : Z) : Z := nth (Z.to_nat c) (fst init64) 0.
Definition t64e (i : Z) : Z := nth (Z.to_nat i) (snd init64) 0.

(** The loop of [enc64], and its [switch] on the bytes left. *)
Fixpoint enc64 (input : list Z) : list Z :=
  match input with
  | x :: y :: z :: input =>
      let b24 := Z.shiftl x 16 .| Z.shiftl y 8 .| z in
      t64e (Z.shiftr b24 18) :: t64e (Z.shiftr b24 12 .& 0x3f) :: t64e (Z.shiftr b24 6 .& 0x3f) :: t64e (b24 .& 0x3f) :: enc64 input
  | [x; y] =>
      let b24 := Z.shiftl x 16 .| Z.shiftl y 8 in
      [t64e (Z.shiftr b24 18); t64e (Z.shiftr b24 12 .& 0x3f); t64e (Z.shiftr b24 6 .& 0x3f); 61]
  | [x] =>
      let b24 := Z.shiftl x 16 in
      [t64e (Z.shiftr b24 18); t64e (Z.shiftr b24 12 .& 0x3f); 61; 61]
  | [] => [61]
  end.

(** The loop of [dec64]: [i] and [b24] are its variables. *)
Fixpoint dec64_loop (input : list Z) (i b24 : Z) : list Z :=
  match input with
  | [] =>
      match i with
      | 2 => [uint 8 (Z.shiftr b24 16)]
      | 3 => [uint 8 (Z.shiftr b24 16); uint 8 (Z.shiftr b24 8)]
      | _ => []
      end
  | ch :: input =>
      let c := t64d ch in
      if c =? 255 then dec64_loop input i b24
      else
        match i with
        | 0 => dec64_loop input 1 (Z.shiftl c 18)
        | 1 => dec64_loop input 2 (b24 .| Z.shiftl c 12)
        | 2 => dec64_loop input 3 (b24 .| Z.shiftl c 6)
        | _ => let b24 := b24 .| c in
               uint 8 (Z.shiftr b24 16) :: uint 8 (Z.shiftr b24 8) :: uint 8 b24 :: dec64_loop input 0 b24
        end
  end.
Definition dec64 (input : list Z) : list Z := dec64_loop input 0 0.

(** *** [md5sum] *)



(** ** MD5 as RFC 1321 states it

    Words and the length are written low-order byte first; four registers A,
    B, C, D start at the bytes 01 23 45 67 89 ab cd ef fe dc ba 98 76 54 32 10;
    operation [i] replaces the registers in turn A, D, C, B by
    [b + ((a + f(b, c, d) + X[k] + T[i + 1]) <<< s)], with the word index [k]
    and the rotation [s] given by the round, and [T[i]] the integer part of
    2^32 times |sin i|. *)









(** ** Base64 as RFC 4648 states it

    The bits of the bytes, most significant first, in groups of six, the last
    one filled up with zeros; each group is a character of the alphabet.  The
    padding characters are left out. *)





(** ** The code against RFC 1321

    First with the conversions of the code, [encode] and [decode]. *)


(** *** The block function *)






(** *** The message *)








(** ** base64 *)

Definition is_byte (x : Z) : Prop := 0 <= x < 256.

Lemma t64_inverse i : 0 <= i < 64 -> t64d (t64e i) = i.
Proof.
  intros Hi. assert (T : forallb (fun i => t64d (t64e (Z.of_nat i)) =? Z.of_nat i) (seq 0 64) = true) by (vm_compute; reflexivity).
  rewrite forallb_forall in T. specialize (T (Z.to_nat i) ltac:(apply in_seq; lia)). rewrite Z2Nat.id in T by lia. now apply Z.eqb_eq.
Qed.

(** One encoded character moves the decoder on. *)
Lemma dec64_char c rest i b : 0 <= c < 64 ->
  dec64_loop (t64e c :: rest) i b =
    match i with
    | 0 => dec64_loop rest 1 (Z.shiftl c 18)
    | 1 => dec64_loop rest 2 (b .| Z.shiftl c 12)
    | 2 => dec64_loop rest 3 (b .| Z.shiftl c 6)
    | _ => let b := b .| c in uint 8 (Z.shiftr b 16) :: uint 8 (Z.shiftr b 8) :: uint 8 b :: dec64_loop rest 0 b
    end.
Proof. intros Hc. cbn [dec64_loop]. rewrite (t64_inverse c Hc). destruct (Z.eqb_spec c 255); [lia|reflexivity]. Qed.

Lemma dec64_restart rest b b' : dec64_loop rest 0 b = dec64_loop rest 0 b'.
Proof. induction rest as [|c rest IH]; [reflexivity|]. cbn [dec64_loop]. destruct (t64d c =? 255); [exact IH|reflexivity]. Qed.

Section Group.
Context (x y z : Z).
Hypotheses (Hx : is_byte x) (Hy : is_byte y) (Hz : is_byte z).
Notation b := (Z.shiftl x 16 .| Z.shiftl y 8 .| z).

Lemma group_value : b = x * 65536 + y * 256 + z /\ 0 <= b < 2 ^ 24.
Proof.
  unfold is_byte in *. rewrite !Z.shiftl_mul_pow2 by lia. rewrite (lor_add_disjoint x (y * 2 ^ 8) 16) by lia.
  replace (x * 2 ^ 16 + y * 2 ^ 8) with ((x * 2 ^ 8 + y) * 2 ^ 8) by ring. rewrite lor_add_disjoint by lia. lia.
Qed.

(** The four characters, and the number put together from them. *)
Lemma group_fields : let c0 := Z.shiftr b 18 in let c1 := Z.shiftr b 12 .& 0x3f in let c2 := Z.shiftr b 6 .& 0x3f in let c3 := b .& 0x3f in
  0 <= c0 < 64 /\ 0 <= c1 < 64 /\ 0 <= c2 < 64 /\ 0 <= c3 < 64 /\
  Z.shiftl c0 18 .| Z.shiftl c1 12 = b / 2 ^ 12 * 2 ^ 12 /\
  (Z.shiftl c0 18 .| Z.shiftl c1 12) .| Z.shiftl c2 6 = b / 2 ^ 6 * 2 ^ 6 /\
  ((Z.shiftl c0 18 .| Z.shiftl c1 12) .| Z.shiftl c2 6) .| c3 = b.
Proof.
  destruct group_value as [_ R]. set (v := b) in *. clearbody v. cbv zeta. change 0x3f with (2 ^ 6 - 1).
  rewrite !land_ones_mod, !Z.shiftr_div_pow2, !Z.shiftl_mul_pow2 by lia. change (2 ^ 6) with 64 in *. change (2 ^ 12) with 4096. change (2 ^ 18) with 262144.
  pose proof (Z.div_mod v 64 ltac:(lia)). pose proof (Z.mod_pos_bound v 64 ltac:(lia)).
  assert (D1 : v / 4096 = v / 64 / 64) by (rewrite Z.div_div by lia; reflexivity).
  assert (D2 : v / 262144 = v / 64 / 64 / 64) by (rewrite !Z.div_div by lia; reflexivity).
  rewrite D1, D2. set (a := v / 64) in *. pose proof (Z.div_mod a 64 ltac:(lia)). pose proof (Z.mod_pos_bound a 64 ltac:(lia)).
  set (d := a / 64) in *. pose proof (Z.div_mod d 64 ltac:(lia)). pose proof (Z.mod_pos_bound d 64 ltac:(lia)). set (e := d / 64) in *.
  assert (E1 : e * 262144 .| d mod 64 * 4096 = d * 4096).
  { replace (e * 262144) with (e * 2 ^ 18) by (change (2 ^ 18) with 262144; lia). rewrite lor_add_disjoint by (change (2 ^ 18) with 262144; lia).
    change (2 ^ 18) with 262144. lia. }
  assert (E2 : d * 4096 .| a mod 64 * 64 = a * 64).
  { replace (d * 4096) with (d * 2 ^ 12) by (change (2 ^ 12) with 4096; lia). rewrite lor_add_disjoint by (change (2 ^ 12) with 4096; lia).
    change (2 ^ 12) with 4096. lia. }
  assert (E3 : a * 64 .| v mod 64 = v).
  { replace (a * 64) with (a * 2 ^ 6) by (change (2 ^ 6) with 64; lia). rewrite lor_add_disjoint by (change (2 ^ 6) with 64; lia). change (2 ^ 6) with 64. lia. }
  rewrite E1, E2, E3. change (2 ^ 24) with 16777216 in R. repeat split; try lia.
Qed.

Lemma group_bytes : uint 8 (Z.shiftr b 16) = x /\ uint 8 (Z.shiftr b 8) = y /\ uint 8 b = z.
Proof.
  destruct group_value as [E _]. rewrite E. unfold is_byte in *. rewrite !Z.shiftr_div_pow2 by lia. unfold uint. change (2 ^ 8) with 256. change (2 ^ 16) with 65536.
  assert (D1 : (x * 65536 + y * 256 + z) / 256 = x * 256 + y) by (symmetry; apply Z.div_unique with z; lia).
  assert (D2 : (x * 65536 + y * 256 + z) / 65536 = x) by (symmetry; apply Z.div_unique with (y * 256 + z); lia).
  rewrite D1, D2. repeat split; symmetry; [apply Z.mod_unique with 0|apply Z.mod_unique with x|apply Z.mod_unique with (x * 256 + y)]; lia.
Qed.
End Group.

Lemma list_triple_ind (P : list Z -> Prop) : P [] -> (forall x, P [x]) -> (forall x y, P [x; y]) ->
  (forall x y z l, P l -> P (x :: y :: z :: l)) -> forall l, P l.
Proof.
  intros P0 P1 P2 P3. fix IH 1. intros [|x [|y [|z l]]]; [exact P0|apply P1|apply P2|apply P3, IH].
Qed.

(** The base64 decoder inverts the encoder on every byte string, whatever
    its length modulo 3 (the padding characters, one more than the standard's
    when the length is a multiple of 3, are skipped). *)
Theorem base64_roundtrip l : Forall is_byte l -> dec64 (enc64 l) = l.
Proof.
  unfold dec64. induction l as [|x|x y|x y z l IH] using list_triple_ind; intros F.
  - reflexivity.
  - inversion F as [|? ? Hx _]; subst. assert (Z0 : is_byte 0) by (unfold is_byte; lia).
    destruct (group_fields x 0 0 Hx Z0 Z0) as (C0 & C1 & _ & _ & E & _). destruct (group_bytes x 0 0 Hx Z0 Z0) as (B0 & _ & _).
    destruct (group_value x 0 0 Hx Z0 Z0) as [V _]. rewrite Z.shiftl_0_l, !Z.lor_0_r in *. cbn [enc64].
    rewrite !dec64_char, E by assumption. change (dec64_loop [61; 61] 2 ?b) with [uint 8 (Z.shiftr b 16)].
    rewrite V in *. replace ((x * 65536 + 0 * 256 + 0) / 2 ^ 12 * 2 ^ 12) with (x * 65536 + 0 * 256 + 0); [now rewrite B0|].
    change (2 ^ 12) with 4096. replace (x * 65536 + 0 * 256 + 0) with (x * 16 * 4096) by lia. now rewrite Z.div_mul by lia.
  - inversion F as [|? ? Hx F']; inversion F' as [|? ? Hy _]; subst. assert (Z0 : is_byte 0) by (unfold is_byte; lia).
    destruct (group_fields x y 0 Hx Hy Z0) as (C0 & C1 & C2 & _ & _ & E & _). destruct (group_bytes x y 0 Hx Hy Z0) as (B0 & B1 & _).
    destruct (group_value x y 0 Hx Hy Z0) as [V _]. rewrite Z.lor_0_r in *. cbn [enc64].
    rewrite !dec64_char, E by assumption. change (dec64_loop [61] 3 ?b) with [uint 8 (Z.shiftr b 16); uint 8 (Z.shiftr b 8)].
    rewrite V in *. replace ((x * 65536 + y * 256 + 0) / 2 ^ 6 * 2 ^ 6) with (x * 65536 + y * 256 + 0); [now rewrite B0, B1|].
    change (2 ^ 6) with 64. replace (x * 65536 + y * 256 + 0) with ((x * 1024 + y * 4) * 64) by lia. now rewrite Z.div_mul by lia.
  - inversion F as [|? ? Hx F']; inversion F' as [|? ? Hy F'']; inversion F'' as [|? ? Hz Fl]; subst.
    destruct (group_fields x y z Hx Hy Hz) as (C0 & C1 & C2 & C3 & _ & _ & E). destruct (group_bytes x y z Hx Hy Hz) as (B0 & B1 & B2).
    cbn [enc64]. rewrite !dec64_char by assumption. cbv zeta in E |- *. rewrite E, B0, B1, B2. do 3 f_equal.
    rewrite (dec64_restart _ _ 0). now apply IH.
Qed.

Lemma base64_roundtrip_witness : dec64 (enc64 [0; 255; 128; 7]) = [0; 255; 128; 7].
Proof. apply base64_roundtrip. repeat constructor; unfold is_byte; lia. Defined.

(** *** The digest of [md5sum] *)



(** *** The conversions *)









(** *** Base64 *)











