(* ===== verification/Sha256.v ===== *)
(** * The [sha256] benchmark: SHA-256 and SHA-224

    Models [test/microbenchmarks/concrete/sha256/sha256.c]: the context, the
    block function with its sixteen-word circular schedule, the buffering of
    [sha256_process_bytes], the padding and the digests.  [ctx->buffer] is its
    128 bytes.  A pointer to data is the address (only its alignment is
    looked at) and the bytes there.  The stream functions are not compiled
    ([GL_COMPILE_CRYPTO_STREAM] is undefined). *)

From S2P Require Import Prelude Digits IntBits Blocks.

(** ** Memory *)

(** [memcpy (&dst[off], bytes, n)] with [n] bytes, inside [dst]. *)
Definition memcpy (dst : list Z) (off : nat) (bytes : list Z) : list Z :=
  firstn off dst ++ bytes ++ skipn (off + length bytes) dst.

(** [bswap_32] of a 32-bit word: the target is little endian. *)
Definition SWAP (n : Z) : Z := __bswapsi2 n.

(** The 32-bit words of a byte sequence, as the target reads and writes them. *)
Definition uint32_bytes (v : Z) : list Z := digits 8 4 v.
Definition uint32_at (p : list Z) : Z := eval 8 (firstn 4 p).

(** ** The context *)

Definition fillbuf : list Z := 0x80 :: repeat 0 63.

Record regs8 := mk8 { va : Z; vb : Z; vc : Z; vd : Z; ve : Z; vf : Z; vg : Z; vh : Z }.

Record sha256_ctx := mkCtx { state : regs8; total0 : Z; total1 : Z; buflen : Z; buffer : list Z }.

Definition sha256_iv : regs8 :=
  mk8 0x6a09e667 0xbb67ae85 0x3c6ef372 0xa54ff53a 0x510e527f 0x9b05688c 0x1f83d9ab 0x5be0cd19.
Definition sha224_iv : regs8 :=
  mk8 0xc1059ed8 0x367cd507 0x3070dd17 0xf70e5939 0xffc00b31 0x68581511 0x64f98fa7 0xbefa4fa4.

(** The buffer keeps what the memory held. *)
Definition sha256_init_ctx (ctx : sha256_ctx) : sha256_ctx := mkCtx sha256_iv 0 0 0 (buffer ctx).
Definition sha224_init_ctx (ctx : sha256_ctx) : sha256_ctx := mkCtx sha224_iv 0 0 0 (buffer ctx).

(** ** The block function *)

Definition sha256_round_constants : list Z :=
  [0x428a2f98; 0x71374491; 0xb5c0fbcf; 0xe9b5dba5]
  ++ [0x3956c25b; 0x59f111f1; 0x923f82a4; 0xab1c5ed5]
  ++ [0xd807aa98; 0x12835b01; 0x243185be; 0x550c7dc3]
  ++ [0x72be5d74; 0x80deb1fe; 0x9bdc06a7; 0xc19bf174]
  ++ [0xe49b69c1; 0xefbe4786; 0x0fc19dc6; 0x240ca1cc]
  ++ [0x2de92c6f; 0x4a7484aa; 0x5cb0a9dc; 0x76f988da]
  ++ [0x983e5152; 0xa831c66d; 0xb00327c8; 0xbf597fc7]
  ++ [0xc6e00bf3; 0xd5a79147; 0x06ca6351; 0x14292967]
  ++ [0x27b70a85; 0x2e1b2138; 0x4d2c6dfc; 0x53380d13]
  ++ [0x650a7354; 0x766a0abb; 0x81c2c92e; 0x92722c85]
  ++ [0xa2bfe8a1; 0xa81a664b; 0xc24b8b70; 0xc76c51a3]
  ++ [0xd192e819; 0xd6990624; 0xf40e3585; 0x106aa070]
  ++ [0x19a4c116; 0x1e376c08; 0x2748774c; 0x34b0bcb5]
  ++ [0x391c0cb3; 0x4ed8aa4a; 0x5b9cca4f; 0x682e6ff3]
  ++ [0x748f82ee; 0x78a5636f; 0x84c87814; 0x8cc70208]
  ++ [0x90befffa; 0xa4506ceb; 0xbef9a3f7; 0xc67178f2].
Definition K (i : Z) : Z := nth (Z.to_nat i) sha256_round_constants 0.

Definition F2 (A B C : Z) : Z := (A .& B) .| (C .& (A .| B)).
Definition F1 (E F G : Z) : Z := G .^ (E .& (F .^ G)).

Definition rol (x n : Z) : Z := (x <<[32] n) .| (x >>[32] (32 - n)).
Definition S0 (x : Z) : Z := rol x 25 .^ rol x 14 .^ (x >>[32] 3).
Definition S1 (x : Z) : Z := rol x 15 .^ rol x 13 .^ (x >>[32] 10).
Definition SS0 (x : Z) : Z := rol x 30 .^ rol x 19 .^ rol x 10.
Definition SS1 (x : Z) : Z := rol x 26 .^ rol x 21 .^ rol x 7.

(** [x[i & 0x0f]] *)
Definition xat (x : list Z) (i : Z) : Z := nth (Z.to_nat (i .& 0x0f)) x 0.

(** [M(I)]: the next word of the schedule, stored over the oldest one. *)
Definition M (x : list Z) (I : Z) : list Z * Z :=
  let tm := S1 (xat x (I - 2)) +[32] xat x (I - 7) +[32] S0 (xat x (I - 15)) +[32] xat x I in
  (store x (Z.to_nat (I .& 0x0f)) tm, tm).

(** The last argument of [R] in line [I]: [x[I]] in the first sixteen, [M(I)]
    after that. *)
Definition word (x : list Z) (I : Z) : list Z * Z := if I <? 16 then (x, nth (Z.to_nat I) x 0) else M x I.

(** [R]: the new values of [D] and [H]. *)
Definition R (A B C D E F G H k m : Z) : Z * Z :=
  let t0 := SS0 A +[32] F2 A B C in
  let t1 := H +[32] SS1 E +[32] F1 E F G +[32] k +[32] m in
  (D +[32] t1, t0 +[32] t1).

(** Lines [I] to [I + 7]; the eight groups differ in [I] only. *)
Definition rounds8 (s : list Z * regs8) (I : Z) : list Z * regs8 :=
  let '(x, mk8 a b c d e f g h) := s in
  let '(x, m) := word x I in let '(d, h) := R a b c d e f g h (K I) m in
  let '(x, m) := word x (I + 1) in let '(c, g) := R h a b c d e f g (K (I + 1)) m in
  let '(x, m) := word x (I + 2) in let '(b, f) := R g h a b c d e f (K (I + 2)) m in
  let '(x, m) := word x (I + 3) in let '(a, e) := R f g h a b c d e (K (I + 3)) m in
  let '(x, m) := word x (I + 4) in let '(h, d) := R e f g h a b c d (K (I + 4)) m in
  let '(x, m) := word x (I + 5) in let '(g, c) := R d e f g h a b c (K (I + 5)) m in
  let '(x, m) := word x (I + 6) in let '(f, b) := R c d e f g h a b (K (I + 6)) m in
  let '(x, m) := word x (I + 7) in let '(e, a) := R b c d e f g h a (K (I + 7)) m in
  (x, mk8 a b c d e f g h).

(** [for (t = 0; t < 16; t++) { x[t] = SWAP ( *words); words++; }] *)
Fixpoint load_words (n : nat) (words : list Z) : list Z :=
  match n with
  | O => []
  | S n => SWAP (uint32_at words) :: load_words n (skipn 4 words)
  end.

Definition add8 (s t : regs8) : regs8 :=
  mk8 (va s +[32] va t) (vb s +[32] vb t) (vc s +[32] vc t) (vd s +[32] vd t)
      (ve s +[32] ve t) (vf s +[32] vf t) (vg s +[32] vg t) (vh s +[32] vh t).

(** One turn of the loop; the variables [a .. h] hold [ctx->state] at its start. *)
Definition process_one (s : regs8) (words : list Z) : regs8 :=
  add8 s (snd (fold_left rounds8 [0; 8; 16; 24; 32; 40; 48; 56] (load_words 16 words, s))).

(** [while (words < endp)], with [nwords] words left. *)
Fixpoint process_words (fuel : nat) (words : list Z) (nwords : Z) (s : regs8) : regs8 :=
  match fuel with
  | O => s
  | S fuel => if 0 <? nwords then process_words fuel (skipn 64 words) (nwords - 16) (process_one s words) else s
  end.

Definition sha256_process_block (buf : list Z) (len : Z) (ctx : sha256_ctx) : sha256_ctx :=
  let nwords := len / 4 in
  let lolen := uint 32 len in
  let t0 := total0 ctx +[32] lolen in
  let t1 := total1 ctx +[32] ((len >>[64] 31 >>[64] 1) + b2z (t0 <? lolen)) in
  mkCtx (process_words (S (Z.to_nat nwords)) buf nwords (state ctx)) t0 t1 (buflen ctx) (buffer ctx).

(** ** Feeding bytes *)

Definition set_buffer (ctx : sha256_ctx) (b : list Z) : sha256_ctx := mkCtx (state ctx) (total0 ctx) (total1 ctx) (buflen ctx) b.
Definition set_buflen (ctx : sha256_ctx) (n : Z) : sha256_ctx := mkCtx (state ctx) (total0 ctx) (total1 ctx) n (buffer ctx).

(** [UNALIGNED_P], by the address. *)
Definition UNALIGNED_P (p : Z) : bool := nonzero (p mod 4).

(** [len & ~63] and [len & 63] on [size_t]. *)
Definition blocks_part (n : Z) : Z := n .& unot 64 63.
Definition rest_part (n : Z) : Z := n .& 63.

(** The data not consumed yet: an address and the bytes there ([len] is their number). *)
Definition data := (Z * list Z)%type.
Definition len_of (p : data) : Z := Z.of_nat (length (snd p)).
Definition advance (p : data) (n : Z) : data := (fst p + n, skipn (Z.to_nat n) (snd p)).

(** The first branch: top up a buffer in use. *)
Definition fill_buffer (p : data) (ctx : sha256_ctx) : data * sha256_ctx :=
  let left_over := buflen ctx in
  let add := if 128 - left_over >? len_of p then len_of p else 128 - left_over in
  let ctx := set_buffer ctx (memcpy (buffer ctx) (Z.to_nat left_over) (firstn (Z.to_nat add) (snd p))) in
  let ctx := set_buflen ctx (buflen ctx + add) in
  let ctx :=
    if buflen ctx >? 64 then
      let ctx := sha256_process_block (buffer ctx) (blocks_part (buflen ctx)) ctx in
      let ctx := set_buflen ctx (rest_part (buflen ctx)) in
      set_buffer ctx (memcpy (buffer ctx) 0
        (firstn (Z.to_nat (buflen ctx)) (skipn (Z.to_nat (blocks_part (left_over + add))) (buffer ctx))))
    else ctx in
  (advance p add, ctx).

(** [while (len > 64)] of the unaligned case: block by block through the buffer. *)
Fixpoint unaligned_loop (fuel : nat) (p : data) (ctx : sha256_ctx) : data * sha256_ctx :=
  match fuel with
  | O => (p, ctx)
  | S fuel =>
      if len_of p >? 64 then
        let ctx := set_buffer ctx (memcpy (buffer ctx) 0 (firstn 64 (snd p))) in
        unaligned_loop fuel (advance p 64) (sha256_process_block (buffer ctx) 64 ctx)
      else (p, ctx)
  end.

(** Move the remaining bytes into the buffer. *)
Definition keep_rest (p : data) (ctx : sha256_ctx) : sha256_ctx :=
  let left_over := buflen ctx in
  let ctx := set_buffer ctx (memcpy (buffer ctx) (Z.to_nat left_over) (snd p)) in
  let left_over := left_over + len_of p in
  if left_over >=? 64 then
    let ctx := sha256_process_block (buffer ctx) 64 ctx in
    let left_over := left_over - 64 in
    set_buflen (set_buffer ctx (memcpy (buffer ctx) 0 (firstn (Z.to_nat left_over) (skipn 64 (buffer ctx))))) left_over
  else set_buflen ctx left_over.

Section Bytes.
(** [_STRING_ARCH_unaligned || _STRING_INLINE_unaligned], a property of the C library. *)
Context (string_unaligned : bool).

(** [if (ctx->buflen != 0)] and [if (len >= 64)]. *)
Definition top_up (p : data) (ctx : sha256_ctx) : data * sha256_ctx := if nonzero (buflen ctx) then fill_buffer p ctx else (p, ctx).
Definition whole_blocks (p : data) (ctx : sha256_ctx) : data * sha256_ctx :=
  if len_of p >=? 64 then
    if negb string_unaligned && UNALIGNED_P (fst p) then unaligned_loop (length (snd p)) p ctx
    else (advance p (blocks_part (len_of p)), sha256_process_block (snd p) (blocks_part (len_of p)) ctx)
  else (p, ctx).

Definition sha256_process_bytes (p : data) (ctx : sha256_ctx) : sha256_ctx :=
  let '(p, ctx) := top_up p ctx in
  let '(p, ctx) := whole_blocks p ctx in
  if len_of p >? 0 then keep_rest p ctx else ctx.

(** ** The digest *)

Definition set_uint32 (buf : list Z) (word_index : Z) (v : Z) : list Z := memcpy buf (Z.to_nat (4 * word_index)) (uint32_bytes v).

Definition sha256_conclude_ctx (ctx : sha256_ctx) : sha256_ctx :=
  let bytes := buflen ctx in
  let size := if bytes <? 56 then 64 / 4 else 64 * 2 / 4 in
  let t0 := total0 ctx +[32] bytes in
  let t1 := if t0 <? bytes then total1 ctx +[32] 1 else total1 ctx in
  let b := set_uint32 (buffer ctx) (size - 2) (SWAP ((t1 <<[32] 3) .| (t0 >>[32] 29))) in
  let b := set_uint32 b (size - 1) (SWAP (t0 <<[32] 3)) in
  let b := memcpy b (Z.to_nat bytes) (firstn (Z.to_nat ((size - 2) * 4 - bytes)) fillbuf) in
  sha256_process_block b (size * 4) (mkCtx (state ctx) t0 t1 bytes b).

Definition state_words (s : regs8) : list Z := [va s; vb s; vc s; vd s; ve s; vf s; vg s; vh s].

Definition sha256_read_ctx (ctx : sha256_ctx) : list Z :=
  flat_map (fun v => uint32_bytes (SWAP v)) (firstn 8 (state_words (state ctx))).
Definition sha224_read_ctx (ctx : sha256_ctx) : list Z :=
  flat_map (fun v => uint32_bytes (SWAP v)) (firstn 7 (state_words (state ctx))).

Definition sha256_finish_ctx (ctx : sha256_ctx) : list Z := sha256_read_ctx (sha256_conclude_ctx ctx).
Definition sha224_finish_ctx (ctx : sha256_ctx) : list Z := sha224_read_ctx (sha256_conclude_ctx ctx).

(** [ctx] is the uninitialised local variable. *)
Definition sha256_buffer (ctx : sha256_ctx) (p : data) : list Z :=
  sha256_finish_ctx (sha256_process_bytes p (sha256_init_ctx ctx)).
Definition sha224_buffer (ctx : sha256_ctx) (p : data) : list Z :=
  sha224_finish_ctx (sha256_process_bytes p (sha224_init_ctx ctx)).
End Bytes.

(** ** SHA-256 as FIPS 180-4 states it

    The constants are the fractional parts of roots of the first primes, the
    schedule is 64 words, and the working variables rotate in every round. *)

Definition is_prime (p : nat) : bool := (1 <? p)%nat && forallb (fun d => nonzero (Z.of_nat p mod Z.of_nat d)) (seq 2 (p - 2)).
Definition primes : list Z := map Z.of_nat (filter is_prime (seq 0 312)).

(** The integer cube root, bit by bit. *)
Fixpoint cbrt_from (n : nat) (r x : Z) : Z :=
  match n with
  | O => r
  | S n => let r' := r + 2 ^ Z.of_nat n in cbrt_from n (if r' ^ 3 <=? x then r' else r) x
  end.

Definition fips_K (i : nat) : Z := cbrt_from 40 0 (nth i primes 0 * 2 ^ 96) mod 2 ^ 32.
Definition fips_H256 (i : nat) : Z := Z.sqrt (nth i primes 0 * 2 ^ 64) mod 2 ^ 32.
Definition fips_H224 (i : nat) : Z := Z.sqrt (nth (8 + i) primes 0 * 2 ^ 128) mod 2 ^ 32.

Definition ROTR (n x : Z) : Z := (x >>[32] n) .| (x <<[32] (32 - n)).
Definition SHR (n x : Z) : Z := x / 2 ^ n.
Definition Ch (x y z : Z) : Z := (x .& y) .^ (Z.lnot x .& z).
Definition Maj (x y z : Z) : Z := (x .& y) .^ (x .& z) .^ (y .& z).
Definition Sigma0 (x : Z) : Z := ROTR 2 x .^ ROTR 13 x .^ ROTR 22 x.
Definition Sigma1 (x : Z) : Z := ROTR 6 x .^ ROTR 11 x .^ ROTR 25 x.
Definition sigma0 (x : Z) : Z := ROTR 7 x .^ ROTR 18 x .^ SHR 3 x.
Definition sigma1 (x : Z) : Z := ROTR 17 x .^ ROTR 19 x .^ SHR 10 x.

Definition fips_next (w : list Z) (t : nat) : Z :=
  uint 32 (sigma1 (nth (t - 2) w 0) + nth (t - 7) w 0 + sigma0 (nth (t - 15) w 0) + nth (t - 16) w 0).
Definition fips_schedule (m : list Z) : list Z := fold_left (fun w t => w ++ [fips_next w t]) (seq 16 48) m.

Definition fips_round (w : list Z) (s : regs8) (t : nat) : regs8 :=
  let '(mk8 a b c d e f g h) := s in
  let T1 := uint 32 (h + Sigma1 e + Ch e f g + fips_K t + nth t w 0) in
  let T2 := uint 32 (Sigma0 a + Maj a b c) in
  mk8 (uint 32 (T1 + T2)) a b c (uint 32 (d + T1)) e f g.

(** Big-endian words of a block. *)
Fixpoint be_words (n : nat) (p : list Z) : list Z :=
  match n with
  | O => []
  | S n => eval 8 (rev (firstn 4 p)) :: be_words n (skipn 4 p)
  end.

Definition fips_block (s : regs8) (p : list Z) : regs8 :=
  add8 s (fold_left (fips_round (fips_schedule (be_words 16 p))) (seq 0 64) s).

Definition be_bytes (n : nat) (x : Z) : list Z := rev (digits 8 n x).

Definition fips_regs (H : nat -> Z) : regs8 := mk8 (H 0%nat) (H 1%nat) (H 2%nat) (H 3%nat) (H 4%nat) (H 5%nat) (H 6%nat) (H 7%nat).
Definition fips_digest (iv : regs8) (words : nat) (msg : list Z) : list Z :=
  flat_map (be_bytes 4) (firstn words (state_words (hash fips_block iv (be_bytes 8) msg))).
Definition fips_sha256 (msg : list Z) : list Z := fips_digest (fips_regs fips_H256) 8 msg.
Definition fips_sha224 (msg : list Z) : list Z := fips_digest (fips_regs fips_H224) 7 msg.

(** *** The constants and the logical functions *)

Lemma sha256_iv_fips : sha256_iv = fips_regs fips_H256.
Proof. vm_compute. reflexivity. Qed.

Lemma sha224_iv_fips : sha224_iv = fips_regs fips_H224.
Proof. vm_compute. reflexivity. Qed.

Lemma K_fips t : (t < 64)%nat -> K (Z.of_nat t) = fips_K t.
Proof.
  intros Ht. assert (T : forallb (fun t => K (Z.of_nat t) =? fips_K t) (seq 0 64) = true) by (vm_compute; reflexivity).
  rewrite forallb_forall in T. apply Z.eqb_eq, T, in_seq. lia.
Qed.

Lemma rol_ROTR x n m : m = 32 - n -> rol x n = ROTR m x.
Proof. intros ->. unfold rol, ROTR. rewrite Z.lor_comm. now replace (32 - (32 - n)) with n by lia. Qed.

Lemma F1_Ch e f g : F1 e f g = Ch e f g.
Proof.
  unfold F1, Ch. apply Z.bits_inj'; intros i Hi. rewrite ?Z.lxor_spec, ?Z.land_spec, ?Z.lxor_spec, ?Z.lnot_spec by lia.
  destruct (Z.testbit e i), (Z.testbit f i), (Z.testbit g i); reflexivity.
Qed.

Lemma F2_Maj a b c : F2 a b c = Maj a b c.
Proof.
  unfold F2, Maj. apply Z.bits_inj'; intros i _. rewrite ?Z.lor_spec, ?Z.lxor_spec, ?Z.land_spec, ?Z.lor_spec.
  destruct (Z.testbit a i), (Z.testbit b i), (Z.testbit c i); reflexivity.
Qed.

Lemma SS_Sigma x : SS0 x = Sigma0 x /\ SS1 x = Sigma1 x.
Proof. split; unfold SS0, SS1, Sigma0, Sigma1; repeat (f_equal; try now apply rol_ROTR). Qed.

Lemma S_sigma x : S0 x = sigma0 x /\ S1 x = sigma1 x.
Proof.
  split; unfold S0, S1, sigma0, sigma1, SHR; (f_equal; [f_equal; now apply rol_ROTR|now rewrite shr_spec by lia]).
Qed.

(** *** One round *)

(** A line of the code, followed by the renaming of the variables the next
    line does. *)
Definition line (s : list Z * regs8) (I : Z) : list Z * regs8 :=
  let '(x, mk8 a b c d e f g h) := s in
  let '(x, m) := word x I in
  let '(d, h) := R a b c d e f g h (K I) m in
  (x, mk8 h a b c d e f g).

Lemma rounds8_lines s I : rounds8 s I = fold_left line [I; I + 1; I + 2; I + 3; I + 4; I + 5; I + 6; I + 7] s.
Proof.
  destruct s as [x [a b c d e f g h]]. unfold rounds8, line. cbn [fold_left].
  repeat (match goal with |- (match ?e with pair _ _ => _ end) = _ => destruct e as [? ?] end; cbv beta iota). reflexivity.
Qed.

Lemma round_fips s t w m x x' : (t < 64)%nat -> word x (Z.of_nat t) = (x', m) -> m = nth t w 0 ->
  line (x, s) (Z.of_nat t) = (x', fips_round w s t).
Proof.
  intros Ht Hw ->. destruct s as [a b c d e f g h]. unfold line, fips_round. rewrite Hw. unfold R.
  destruct (SS_Sigma a) as [-> _]. destruct (SS_Sigma e) as [_ ->]. rewrite F1_Ch, F2_Maj, (K_fips t Ht).
  assert (T : h +[32] Sigma1 e +[32] Ch e f g +[32] fips_K t +[32] nth t w 0 = uint 32 (h + Sigma1 e + Ch e f g + fips_K t + nth t w 0))
    by (unfold uadd; apply eqm_uint; now rewrite !uint_eqm).
  rewrite T. unfold uadd. now rewrite (Z.add_comm (uint 32 (Sigma0 a + Maj a b c))).
Qed.

(** *** The schedule *)

Lemma fips_next_app w v t : (16 <= t <= length w)%nat -> fips_next (w ++ v) t = fips_next w t.
Proof. intros Ht. unfold fips_next. rewrite !app_nth1 by lia. reflexivity. Qed.

Lemma schedule_spec n m : length m = 16%nat -> let w := fold_left (fun w t => w ++ [fips_next w t]) (seq 16 n) m in
  length w = (16 + n)%nat /\ firstn 16 w = m /\ (forall t, (16 <= t < 16 + n)%nat -> nth t w 0 = fips_next w t).
Proof.
  intros Hm. induction n as [|n IH]; cbv zeta in *.
  - cbn [seq fold_left]. split; [lia|]. split; [now apply firstn_all2; lia|]. intros; lia.
  - rewrite seq_S, fold_left_app. cbn [fold_left]. set (w := fold_left _ (seq 16 n) m) in *. destruct IH as (L & F & N).
    split; [rewrite length_app; cbn [length]; lia|]. split; [rewrite firstn_app, F; replace (16 - length w)%nat with O by lia; apply app_nil_r|].
    intros t Ht. rewrite (fips_next_app w) by lia. destruct (Nat.eq_dec t (16 + n)) as [->|Hn].
    + rewrite app_nth2, L, Nat.sub_diag by lia. reflexivity.
    + rewrite app_nth1 by lia. apply N. lia.
Qed.

Lemma fips_schedule_spec m : length m = 16%nat -> firstn 16 (fips_schedule m) = m /\
  (forall t, (16 <= t < 64)%nat -> nth t (fips_schedule m) 0 = fips_next (fips_schedule m) t).
Proof.
  intros Hm. unfold fips_schedule. destruct (schedule_spec 48 m Hm) as (_ & F & N). split; [exact F|].
  intros t Ht. apply N. lia.
Qed.

(** The sixteen words the code keeps before line [t]: the last sixteen of the
    schedule so far. *)
Definition window (w x : list Z) (t : nat) : Prop :=
  length x = 16%nat /\ forall j, (t - 16 <= j < Nat.max t 16)%nat -> nth (j mod 16) x 0 = nth j w 0.

Lemma xat_window w x t k : window w x t -> (16 <= t)%nat -> 0 < k <= 16 -> xat x (Z.of_nat t - k) = nth (t - Z.to_nat k) w 0.
Proof.
  intros [_ W] Ht Hk. unfold xat. change 0x0f with (2 ^ 4 - 1). rewrite land_ones_mod by lia. change (2 ^ 4) with (Z.of_nat 16).
  replace (Z.of_nat t - k) with (Z.of_nat (t - Z.to_nat k)) by lia. rewrite <- Nat2Z.inj_mod, Nat2Z.id. apply W. lia.
Qed.

Lemma xat_oldest w x t : window w x t -> (16 <= t)%nat -> xat x (Z.of_nat t) = nth (t - 16) w 0.
Proof.
  intros W Ht. change 16%nat with (Z.to_nat 16). rewrite <- (xat_window w x t 16 W) by lia. unfold xat. change 0x0f with (2 ^ 4 - 1). rewrite !land_ones_mod by lia.
  do 2 f_equal. change (eqm 4 (Z.of_nat t) (Z.of_nat t - 16)). change 16 with (1 * 2 ^ 4). now rewrite eqm_mul_pow, Z.sub_0_r.
Qed.

Lemma nth_store l i j v : (i < length l)%nat -> nth j (store l i v) 0 = if (j =? i)%nat then v else nth j l 0.
Proof.
  revert i j. induction l as [|x l IH]; intros [|i] [|j] Hi; cbn [store nth length Nat.eqb] in *; try lia; try reflexivity.
  apply IH. lia.
Qed.

Lemma store_len l i v : length (store l i v) = length l.
Proof. revert i. induction l as [|x l IH]; intros [|i]; cbn [store length]; auto. Qed.

(** A line uses word [t] of the schedule and moves the window. *)
Lemma word_window m x t : length m = 16%nat -> (t < 64)%nat -> let w := fips_schedule m in window w x t ->
  exists x', word x (Z.of_nat t) = (x', nth t w 0) /\ window w x' (S t).
Proof.
  intros Hm Ht w W. destruct (fips_schedule_spec m Hm) as [_ N]. fold w in N. clearbody w.
  unfold word. destruct (Z.ltb_spec (Z.of_nat t) 16) as [Hlt|Hge].
  - exists x. destruct W as [L W]. rewrite Nat2Z.id. split; [|split; [exact L|intros j Hj; apply W; lia]].
    f_equal. rewrite <- (W t) by lia. now rewrite Nat.mod_small by lia.
  - unfold M. rewrite (xat_window w x t 2 W), (xat_window w x t 7 W), (xat_window w x t 15 W) by lia. change (Z.to_nat 2) with 2%nat. change (Z.to_nat 7) with 7%nat. change (Z.to_nat 15) with 15%nat.
    rewrite (xat_oldest w x t W) by lia.
    destruct (S_sigma (nth (t - 2) w 0)) as [_ ->]. destruct (S_sigma (nth (t - 15) w 0)) as [-> _].
    match goal with |- exists x', (_, ?e) = _ /\ _ => assert (E : e = nth t w 0)
      by (rewrite (N t) by lia; unfold fips_next, uadd; apply eqm_uint; now rewrite !uint_eqm) end.
    rewrite E. eexists. split; [reflexivity|]. change 0x0f with (2 ^ 4 - 1). rewrite land_ones_mod by lia.
    change (2 ^ 4) with (Z.of_nat 16). rewrite <- Nat2Z.inj_mod, Nat2Z.id. destruct W as [L W].
    split; [now rewrite store_len|]. intros j Hj. pose proof (Nat.mod_upper_bound t 16 ltac:(lia)). rewrite nth_store by lia.
    destruct (Nat.eqb_spec (j mod 16) (t mod 16)) as [Ej|Ej].
    + f_equal. pose proof (Nat.div_mod j 16 ltac:(lia)). pose proof (Nat.div_mod t 16 ltac:(lia)). lia.
    + apply W. enough (j <> t) by lia. intros ->. now apply Ej.
Qed.

Lemma lines_fips m n : forall t x s, length m = 16%nat -> (t + n <= 64)%nat -> let w := fips_schedule m in window w x t ->
  exists x', fold_left line (map Z.of_nat (seq t n)) (x, s) = (x', fold_left (fips_round w) (seq t n) s) /\ window w x' (t + n).
Proof.
  induction n as [|n IH]; intros t x s Hm Ht w W.
  - exists x. rewrite Nat.add_0_r. split; [reflexivity|exact W].
  - destruct (word_window m x t Hm ltac:(lia) W) as (x1 & E1 & W1). cbn [seq map fold_left]. fold w in E1.
    rewrite (round_fips s t w _ x x1 ltac:(lia) E1 eq_refl). rewrite Nat.add_succ_r. now apply (IH (S t) x1); [..|lia|].
Qed.

Lemma load_words_be n p : Forall (fun b => 0 <= b < 2 ^ 8) p -> length p = (4 * n)%nat -> load_words n p = be_words n p.
Proof.
  revert p. induction n as [|n IH]; intros p F L; [reflexivity|]. cbn [load_words be_words]. f_equal.
  - unfold SWAP, uint32_at. rewrite bswapsi2_spec. f_equal. f_equal. set (q := firstn 4 p).
    assert (Lq : length q = 4%nat) by (unfold q; rewrite length_firstn; lia). rewrite <- Lq at 1. apply digits_eval; [lia|].
    apply Forall_firstn, F.
  - apply IH; [apply Forall_skipn, F|rewrite length_skipn; lia].
Qed.

Lemma be_words_length n p : length (be_words n p) = n.
Proof. revert p; induction n; intros; cbn; auto. Qed.

Lemma be_words_firstn n p k : (4 * n <= k)%nat -> be_words n (firstn k p) = be_words n p.
Proof.
  revert p k. induction n as [|n IH]; intros p k Hk; [reflexivity|]. cbn [be_words].
  rewrite firstn_firstn, skipn_firstn_comm, IH by lia. now replace (Nat.min 4 k) with 4%nat by lia.
Qed.

(** The code's block function is the standard's. *)
Lemma process_one_fips s p : Forall (fun b => 0 <= b < 2 ^ 8) p -> length p = 64%nat -> process_one s p = fips_block s p.
Proof.
  intros F L. unfold process_one, fips_block. rewrite load_words_be by (assumption || lia). set (m := be_words 16 p). f_equal.
  assert (Hm : length m = 16%nat) by apply be_words_length.
  assert (W : window (fips_schedule m) m 0).
  { destruct (fips_schedule_spec m Hm) as [E _]. split; [exact Hm|]. intros j Hj.
    rewrite Nat.mod_small by lia. rewrite <- E at 1. rewrite nth_firstn. now replace (j <? 16)%nat with true by (symmetry; apply Nat.ltb_lt; lia). }
  destruct (lines_fips m 64 0 m s Hm ltac:(lia) W) as (x' & E & _).
  cbn [fold_left]. rewrite !rounds8_lines, <- !fold_left_app. cbn [seq map] in E. cbn [app Z.add]. 
  etransitivity; [|exact (f_equal snd E)]. reflexivity.
Qed.

(** ** The context represents a message *)

Definition bytes_ok (l : list Z) : Prop := Forall (fun b => 0 <= b < 2 ^ 8) l.
Definition total (ctx : sha256_ctx) : Z := total0 ctx + 2 ^ 32 * total1 ctx.

(** The blocks of [done] have been hashed and counted. *)
Record at_block (iv : regs8) (ctx : sha256_ctx) (done : list Z) : Prop := {
  at_mod : (length done mod 64 = 0)%nat;
  at_state : state ctx = fold_blocks fips_block iv done;
  at_total : total ctx = uint 64 (Z.of_nat (length done));
  at_range : is_uint 32 (total0 ctx) /\ is_uint 32 (total1 ctx);
  at_buffer : length (buffer ctx) = 128%nat /\ bytes_ok (buffer ctx) }.

(** The abstraction: the message fed so far, its tail of at most 64 bytes in
    the buffer. *)
Definition represents (iv : regs8) (ctx : sha256_ctx) (msg : list Z) : Prop :=
  exists done rest, msg = done ++ rest /\ at_block iv ctx done /\
    buflen ctx = Z.of_nat (length rest) /\ (length rest <= 64)%nat /\ firstn (length rest) (buffer ctx) = rest.

(** *** Memory *)

Lemma memcpy_length dst off b : (off + length b <= length dst)%nat -> length (memcpy dst off b) = length dst.
Proof. intros H. unfold memcpy. rewrite !length_app, length_firstn, length_skipn. lia. Qed.

Lemma memcpy_ok dst off b : bytes_ok dst -> bytes_ok b -> bytes_ok (memcpy dst off b).
Proof. intros Hd Hb. unfold memcpy, bytes_ok. rewrite !Forall_app. auto using Forall_firstn, Forall_skipn. Qed.

Lemma memcpy_prefix dst off b : (off + length b <= length dst)%nat -> firstn (off + length b) (memcpy dst off b) = firstn off dst ++ b.
Proof.
  intros H. unfold memcpy. rewrite app_assoc, firstn_app.
  assert (E : length (firstn off dst ++ b) = (off + length b)%nat) by (rewrite length_app, length_firstn; lia).
  rewrite E, Nat.sub_diag, firstn_O, app_nil_r. apply firstn_all2. lia.
Qed.

Lemma memcpy_suffix dst off b : (off + length b <= length dst)%nat -> skipn (off + length b) (memcpy dst off b) = skipn (off + length b) dst.
Proof.
  intros H. unfold memcpy. rewrite app_assoc, skipn_app.
  assert (E : length (firstn off dst ++ b) = (off + length b)%nat) by (rewrite length_app, length_firstn; lia).
  rewrite E, Nat.sub_diag, skipn_O, skipn_all2 by lia. reflexivity.
Qed.

Lemma at_block_set_buffer iv ctx done b : at_block iv ctx done -> length b = 128%nat -> bytes_ok b -> at_block iv (set_buffer ctx b) done.
Proof. intros [] L B. constructor; auto. Qed.

Lemma at_block_set_buflen iv ctx done n : at_block iv ctx done -> at_block iv (set_buflen ctx n) done.
Proof. intros []. constructor; auto. Qed.

(** *** Blocks *)

Lemma load_words_firstn n p k : (4 * n <= k)%nat -> load_words n (firstn k p) = load_words n p.
Proof.
  revert p k. induction n as [|n IH]; intros p k Hk; [reflexivity|]. cbn [load_words]. unfold uint32_at.
  rewrite firstn_firstn, skipn_firstn_comm, IH by lia. now replace (Nat.min 4 k) with 4%nat by lia.
Qed.

Lemma process_words_fold n : forall fuel p s, (n < fuel)%nat -> (64 * n <= length p)%nat -> bytes_ok p ->
  process_words fuel p (16 * Z.of_nat n) s = fold_blocks fips_block s (firstn (64 * n) p).
Proof.
  induction n as [|n IH]; intros fuel p s Hf Hp B; (destruct fuel as [|fuel]; [lia|]); cbn [process_words]; [reflexivity|].
  destruct (Z.ltb_spec 0 (16 * Z.of_nat (S n))); [|lia].
  rewrite (fold_blocks_cons fips_block) by (rewrite length_firstn; lia). rewrite firstn_firstn, skipn_firstn_comm.
  replace (Nat.min 64 (64 * S n)) with 64%nat by lia. replace (64 * S n - 64)%nat with (64 * n)%nat by lia.
  replace (16 * Z.of_nat (S n) - 16) with (16 * Z.of_nat n) by lia.
  rewrite IH by (rewrite ?length_skipn; try lia; apply Forall_skipn, B). f_equal.
  rewrite <- process_one_fips by (try apply Forall_firstn, B; rewrite length_firstn; lia).
  unfold process_one. now rewrite load_words_firstn by lia.
Qed.

(** The two-word byte counter. *)
Lemma count_bytes t0 t1 len : is_uint 32 t0 -> is_uint 32 t1 -> is_uint 64 len ->
  let t0' := t0 +[32] uint 32 len in
  let t1' := t1 +[32] ((len >>[64] 31 >>[64] 1) + b2z (t0' <? uint 32 len)) in
  t0' + 2 ^ 32 * t1' = uint 64 (t0 + 2 ^ 32 * t1 + len) /\ is_uint 32 t0' /\ is_uint 32 t1'.
Proof.
  intros H0 H1 Hl t0' t1'. pose proof (uint_range 32 (t0 + uint 32 len) ltac:(lia)) as R0.
  pose proof (uint_range 32 (t1 + ((len >>[64] 31 >>[64] 1) + b2z (t0' <? uint 32 len))) ltac:(lia)) as R1.
  split; [|split; [exact R0|exact R1]]. unfold t1', t0' in *. unfold uadd in *. set (lo := uint 32 len) in *.
  pose proof (uint_range 32 len ltac:(lia)) as Rl. fold lo in Rl. rewrite !shr_spec, Z.div_div in * by lia. change (2 ^ 31 * 2 ^ 1) with (2 ^ 32) in *.
  pose proof (Z.div_mod len (2 ^ 32) ltac:(lia)) as D. fold (uint 32 len) in D. fold lo in D.
  assert (C : uint 32 (t0 + lo) = t0 + lo - 2 ^ 32 * b2z (uint 32 (t0 + lo) <? lo)).
  { unfold is_uint in *. destruct (Z.ltb_spec (t0 + lo) (2 ^ 32)) as [Hc|Hc].
    - rewrite uint_small by (unfold is_uint; lia). destruct (Z.ltb_spec (t0 + lo) lo); cbn [b2z]; lia.
    - assert (E : uint 32 (t0 + lo) = t0 + lo - 2 ^ 32) by (apply uint_of_eqm; [unfold is_uint; lia|rewrite eqm_pow; now rewrite Z.sub_0_r]).
      rewrite E. destruct (Z.ltb_spec (t0 + lo - 2 ^ 32) lo); cbn [b2z]; lia. }
  set (c := b2z (uint 32 (t0 + lo) <? lo)) in *. set (q := len / 2 ^ 32) in *. symmetry. apply uint_of_eqm.
  - unfold is_uint in *. lia.
  - destruct (eqm_exists 32 (uint 32 (t1 + (q + c))) (t1 + (q + c)) ltac:(lia) (uint_eqm _ _)) as [k E]. rewrite E, C.
    replace (t0 + lo - 2 ^ 32 * c + 2 ^ 32 * (t1 + (q + c) + k * 2 ^ 32)) with (t0 + 2 ^ 32 * t1 + len + k * 2 ^ 64) by lia.
    rewrite eqm_mul_pow. now rewrite Z.add_0_r.
Qed.

(** Hashing whole blocks moves the context on. *)
Lemma process_block_at iv ctx done buf n : at_block iv ctx done -> (64 * n <= length buf)%nat -> bytes_ok buf -> 64 * Z.of_nat n < 2 ^ 64 ->
  let ctx' := sha256_process_block buf (64 * Z.of_nat n) ctx in
  at_block iv ctx' (done ++ firstn (64 * n) buf) /\ buflen ctx' = buflen ctx /\ buffer ctx' = buffer ctx.
Proof.
  intros [Am As At [Ar0 Ar1] Ab] Hn B Hb ctx'. split; [|split; reflexivity].
  assert (L : Z.of_nat (length (firstn (64 * n) buf)) = 64 * Z.of_nat n) by (rewrite length_firstn; lia).
  destruct (count_bytes (total0 ctx) (total1 ctx) (64 * Z.of_nat n) Ar0 Ar1 ltac:(unfold is_uint; lia)) as (T & R0 & R1).
  split.
  - rewrite length_app, Nat.Div0.add_mod, Am. replace (length (firstn (64 * n) buf)) with (n * 64)%nat by lia. now rewrite Nat.Div0.mod_mul.
  - unfold ctx', sha256_process_block. cbn [state]. rewrite (fold_blocks_app fips_block) by exact Am. rewrite <- As.
    replace (64 * Z.of_nat n / 4) with (16 * Z.of_nat n) by (replace (64 * Z.of_nat n) with (16 * Z.of_nat n * 4) by lia; symmetry; apply Z.div_mul; lia).
    apply process_words_fold; [lia|exact Hn|exact B].
  - unfold ctx', total. cbn [sha256_process_block total0 total1]. rewrite T. fold (total ctx). rewrite At, length_app, Nat2Z.inj_add, L.
    apply eqm_uint. now rewrite uint_eqm.
  - split; [exact R0|exact R1].
  - exact Ab.
Qed.

Lemma parts n : 0 <= n < 2 ^ 64 -> blocks_part n = 64 * (n / 64) /\ rest_part n = n mod 64.
Proof.
  intros Hn. unfold blocks_part, rest_part. split.
  - change (unot 64 63) with ((2 ^ 58 - 1) * 2 ^ 6). rewrite land_field by lia. change (2 ^ 6) with 64.
    rewrite (Z.mod_small (n / 64)) by (split; [apply Z.div_pos; lia|apply Z.div_lt_upper_bound; lia]). lia.
  - change 63 with (2 ^ 6 - 1). now rewrite land_ones_mod by lia.
Qed.

(** *** The three parts of [sha256_process_bytes] *)

(** The first [k] blocks of the buffer leave; what is in use behind them moves
    to the front. *)
Lemma drain_buffer iv ctx done used k : at_block iv ctx done -> firstn (length used) (buffer ctx) = used ->
  (64 * k <= length used <= 128)%nat -> (length used - 64 * k <= 64)%nat -> (0 < k)%nat ->
  let ctx1 := sha256_process_block (buffer ctx) (64 * Z.of_nat k) ctx in
  let rest := firstn (length used - 64 * k) (skipn (64 * k) (buffer ctx1)) in
  represents iv (set_buflen (set_buffer ctx1 (memcpy (buffer ctx1) 0 rest)) (Z.of_nat (length used - 64 * k))) (done ++ used).
Proof.
  intros A U Hk Hr K0 ctx1 rest. pose proof (at_buffer _ _ _ A) as [Lb Bb].
  destruct (process_block_at iv ctx done (buffer ctx) k A ltac:(lia) Bb ltac:(lia)) as (A1 & _ & Eb). fold ctx1 in A1, Eb.
  assert (Er : rest = skipn (64 * k) used).
  { unfold rest. rewrite Eb, firstn_skipn_comm. f_equal. replace (64 * k + (length used - 64 * k))%nat with (length used) by lia. exact U. }
  assert (Ef : firstn (64 * k) (buffer ctx) = firstn (64 * k) used).
  { rewrite <- U, firstn_firstn. f_equal. lia. }
  assert (Lr : length rest = (length used - 64 * k)%nat) by (rewrite Er, length_skipn; reflexivity).
  exists (done ++ firstn (64 * k) used), rest. rewrite Ef in A1. cbn [buflen set_buflen set_buffer buffer].
  split; [rewrite <- app_assoc, Er; now rewrite firstn_skipn|]. split.
  - apply at_block_set_buflen, at_block_set_buffer; [exact A1|rewrite memcpy_length; rewrite ?Eb; lia|].
    rewrite Eb. apply memcpy_ok; [exact Bb|]. unfold rest. rewrite Eb. apply Forall_firstn, Forall_skipn, Bb.
  - split; [now rewrite Lr|]. split; [lia|]. rewrite <- (Nat.add_0_l (length rest)). rewrite memcpy_prefix; [reflexivity|]. rewrite Eb. lia.
Qed.

(** Bytes appended to the part of the buffer in use. *)
Lemma append_buffer iv ctx done rest d : at_block iv ctx done -> buflen ctx = Z.of_nat (length rest) -> firstn (length rest) (buffer ctx) = rest ->
  bytes_ok d -> (length (rest ++ d) <= 128)%nat ->
  let b := memcpy (buffer ctx) (Z.to_nat (buflen ctx)) d in
  at_block iv (set_buffer ctx b) done /\ firstn (length (rest ++ d)) b = rest ++ d.
Proof.
  intros A El Eb Bd L b. rewrite length_app in L. pose proof (at_buffer _ _ _ A) as [Lb Bb]. unfold b. rewrite El, Nat2Z.id. split.
  - apply at_block_set_buffer; [exact A|rewrite memcpy_length; lia|now apply memcpy_ok].
  - rewrite length_app, memcpy_prefix by lia. now rewrite Eb.
Qed.

Lemma fill_buffer_spec iv ctx msg p : represents iv ctx msg -> 0 < buflen ctx -> bytes_ok (snd p) ->
  exists n ctx', fill_buffer p ctx = (advance p n, ctx') /\ 0 <= n <= len_of p /\
    represents iv ctx' (msg ++ firstn (Z.to_nat n) (snd p)) /\ (n = len_of p \/ buflen ctx' = 0).
Proof.
  intros (done & rest & -> & A & El & Hr & Eb) H0 Bp. unfold fill_buffer. cbv zeta.
  set (n := if 128 - buflen ctx >? len_of p then len_of p else 128 - buflen ctx).
  assert (Hn : 0 <= n <= len_of p /\ n <= 128 - buflen ctx /\ (n = len_of p \/ n = 128 - buflen ctx)) by (unfold n, len_of; case_cmp; lia).
  clearbody n. destruct Hn as (Hn & Hn1 & Hn2). unfold len_of in *. set (d := firstn (Z.to_nat n) (snd p)).
  assert (Ld : length d = Z.to_nat n) by (unfold d; rewrite length_firstn; lia).
  assert (Bd : bytes_ok d) by apply Forall_firstn, Bp.
  assert (Lu : Z.of_nat (length (rest ++ d)) = buflen ctx + n) by (rewrite length_app; lia).
  destruct (append_buffer iv ctx done rest d A El Eb Bd ltac:(lia)) as (A1 & U1).
  set (ctx1 := set_buffer ctx (memcpy (buffer ctx) (Z.to_nat (buflen ctx)) d)) in *.
  change (buflen (set_buflen ctx1 (buflen ctx1 + n))) with (buflen ctx + n).
  destruct (Z.gtb_spec (buflen ctx + n) 64) as [Hg|Hg].
  - eexists n, _. split; [reflexivity|]. rewrite <- app_assoc. split; [lia|]. destruct (parts (buflen ctx + n) ltac:(lia)) as [Ep Er].
    set (k := Z.to_nat ((buflen ctx + n) / 64)).
    pose proof (Z.div_mod (buflen ctx + n) 64 ltac:(lia)). pose proof (Z.mod_pos_bound (buflen ctx + n) 64 ltac:(lia)).
    assert (Hk : 64 * Z.of_nat k = blocks_part (buflen ctx + n)) by lia.
    assert (Hk' : Z.of_nat (length (rest ++ d) - 64 * k) = rest_part (buflen ctx + n)) by lia.
    set (ctx2 := set_buflen ctx1 (buflen ctx1 + n)).
    assert (A2 : at_block iv ctx2 done) by apply at_block_set_buflen, A1.
    pose proof (drain_buffer iv ctx2 done (rest ++ d) k A2 U1 ltac:(lia) ltac:(lia) ltac:(lia)) as D. cbv zeta in D.
    rewrite Hk' in D. rewrite Hk in D. split.
    + cbn [buflen set_buflen set_buffer buffer sha256_process_block]. change (buflen ctx2) with (buflen ctx + n).
      replace (Z.to_nat (rest_part (buflen ctx + n))) with (length (rest ++ d) - 64 * k)%nat by lia.
      replace (Z.to_nat (blocks_part (buflen ctx + n))) with (64 * k)%nat by lia. exact D.
    + cbn [buflen set_buflen set_buffer buffer sha256_process_block]. destruct Hn2 as [->| ->]; [now left|right].
      change (rest_part (buflen ctx + (128 - buflen ctx)) = 0). replace (buflen ctx + (128 - buflen ctx)) with 128 by lia. reflexivity.
  - eexists n, _. split; [reflexivity|]. rewrite <- app_assoc. split; [lia|]. split; [|left; lia].
    exists done, (rest ++ d). split; [reflexivity|]. split; [apply at_block_set_buflen, A1|]. cbn [buflen set_buflen ctx1 set_buffer buffer].
    split; [lia|]. split; [lia|exact U1].
Qed.

(** With an empty buffer the context stands at a block boundary. *)
Lemma represents_empty iv ctx msg : buflen ctx = 0 -> represents iv ctx msg <-> at_block iv ctx msg.
Proof.
  intros E. split.
  - intros (done & rest & -> & A & El & _). destruct rest; [|cbn in El; lia]. now rewrite app_nil_r.
  - intros A. exists msg, []. rewrite app_nil_r. cbn [length firstn]. repeat (split; [solve [auto; lia]|]). reflexivity.
Qed.

(** A run of the unaligned loop: blocks [d] are hashed, at most 64 bytes stay. *)
Lemma unaligned_loop_spec iv fuel : forall p ctx done, at_block iv ctx done -> bytes_ok (snd p) -> (length (snd p) <= fuel)%nat ->
  exists p' ctx' d, unaligned_loop fuel p ctx = (p', ctx') /\ snd p = d ++ snd p' /\ at_block iv ctx' (done ++ d) /\
    buflen ctx' = buflen ctx /\ len_of p' <= 64.
Proof.
  induction fuel as [|fuel IH]; intros p ctx done A B Hf; cbn [unaligned_loop].
  - exists p, ctx, []. rewrite app_nil_r. unfold len_of. repeat (split; [solve [auto]|]). lia.
  - destruct (Z.gtb_spec (len_of p) 64) as [Hg|Hg]; [|exists p, ctx, []; rewrite app_nil_r; repeat (split; [solve [auto]|]); lia].
    unfold len_of in Hg. pose proof (at_buffer _ _ _ A) as [Lb Bb]. set (d1 := firstn 64 (snd p)).
    assert (L1 : length d1 = 64%nat) by (unfold d1; rewrite length_firstn; lia). assert (B1 : bytes_ok d1) by apply Forall_firstn, B.
    set (ctx1 := set_buffer ctx (memcpy (buffer ctx) 0 d1)).
    assert (A1 : at_block iv ctx1 done) by (apply at_block_set_buffer; [exact A|rewrite memcpy_length; lia|now apply memcpy_ok]).
    assert (P1 : firstn 64 (buffer ctx1) = d1) by (pose proof (memcpy_prefix (buffer ctx) 0 d1 ltac:(lia)) as P; rewrite L1 in P; exact P).
    destruct (process_block_at iv ctx1 done (buffer ctx1) 1 A1) as (A2 & El & _); [pose proof (at_buffer _ _ _ A1); lia|apply (at_buffer _ _ _ A1)|lia|].
    change (64 * 1)%nat with 64%nat in A2. change (64 * Z.of_nat 1) with 64 in *. rewrite P1 in A2.
    destruct (IH (advance p 64) (sha256_process_block (buffer ctx1) 64 ctx1) (done ++ d1) A2) as (p' & ctx' & d & E & Ep & A' & El' & L').
    + apply Forall_skipn, B.
    + cbn [advance snd]. rewrite length_skipn. lia.
    + exists p', ctx', (d1 ++ d). split; [exact E|]. rewrite <- !app_assoc in *. cbn [advance snd] in Ep. rewrite <- Ep.
      change (Z.to_nat 64) with 64%nat. split; [unfold d1; now rewrite firstn_skipn|]. split; [exact A'|]. split; [now rewrite El', El|exact L'].
Qed.

(** Whole blocks straight from the data. *)
Lemma direct_blocks_spec iv p ctx done : at_block iv ctx done -> bytes_ok (snd p) -> len_of p < 2 ^ 64 ->
  let n := blocks_part (len_of p) in
  let ctx' := sha256_process_block (snd p) n ctx in
  at_block iv ctx' (done ++ firstn (Z.to_nat n) (snd p)) /\ buflen ctx' = buflen ctx /\ len_of (advance p n) <= 64.
Proof.
  intros A B Hp n ctx'. unfold len_of in *. destruct (parts (Z.of_nat (length (snd p))) ltac:(lia)) as [En _]. fold n in En.
  pose proof (Z.div_mod (Z.of_nat (length (snd p))) 64 ltac:(lia)). pose proof (Z.mod_pos_bound (Z.of_nat (length (snd p))) 64 ltac:(lia)).
  set (k := Z.to_nat (Z.of_nat (length (snd p)) / 64)). assert (Hk : n = 64 * Z.of_nat k) by lia.
  destruct (process_block_at iv ctx done (snd p) k A ltac:(lia) B ltac:(lia)) as (A' & El & _). unfold ctx'. rewrite Hk.
  replace (Z.to_nat (64 * Z.of_nat k)) with (64 * k)%nat by lia. split; [exact A'|]. split; [exact El|].
  cbn [advance snd]. rewrite length_skipn. lia.
Qed.

Lemma keep_rest_spec iv p ctx msg : represents iv ctx msg -> buflen ctx = 0 -> bytes_ok (snd p) -> len_of p <= 64 ->
  represents iv (keep_rest p ctx) (msg ++ snd p).
Proof.
  intros Rm E0 B Hp. apply represents_empty in Rm; [|exact E0]. rename Rm into A. unfold len_of in Hp. pose proof (at_buffer _ _ _ A) as [Lb Bb].
  destruct (append_buffer iv ctx msg [] (snd p) A E0 eq_refl B ltac:(cbn [app]; lia)) as (A1 & U1). cbn [app] in U1.
  unfold keep_rest. cbv zeta. set (ctx1 := set_buffer ctx (memcpy (buffer ctx) (Z.to_nat (buflen ctx)) (snd p))) in *.
  unfold len_of. rewrite E0, Z.add_0_l. destruct (Z.geb_spec (Z.of_nat (length (snd p))) 64) as [Hg|Hg].
  - pose proof (drain_buffer iv ctx1 msg (snd p) 1 A1 U1 ltac:(lia) ltac:(lia) ltac:(lia)) as D. cbv zeta in D.
    change (64 * Z.of_nat 1) with 64 in D. change (64 * 1)%nat with 64%nat in D.
    replace (Z.of_nat (length (snd p) - 64)) with (Z.of_nat (length (snd p)) - 64) in D by lia.
    replace (Z.to_nat (Z.of_nat (length (snd p)) - 64)) with (length (snd p) - 64)%nat by lia. exact D.
  - exists msg, (snd p). split; [reflexivity|]. split; [apply at_block_set_buflen, A1|]. split; [reflexivity|]. split; [lia|exact U1].
Qed.

(** The data split by a step: [d] went in, [p'] stays; data can only stay at a
    block boundary. *)
Definition absorbs (iv : regs8) (msg : list Z) (p : data) (r : data * sha256_ctx) : Prop :=
  exists d, snd p = d ++ snd (fst r) /\ represents iv (snd r) (msg ++ d) /\ (len_of (fst r) = 0 \/ buflen (snd r) = 0).

Lemma top_up_spec iv p ctx msg : represents iv ctx msg -> bytes_ok (snd p) -> absorbs iv msg p (top_up p ctx).
Proof.
  intros Rm B. unfold top_up, nonzero. destruct (Z.eqb_spec (buflen ctx) 0) as [E|E]; cbn [negb].
  - exists []. rewrite app_nil_r. auto.
  - assert (H0 : 0 < buflen ctx) by (destruct Rm as (? & ? & _ & _ & El & _); lia).
    destruct (fill_buffer_spec iv ctx msg p Rm H0 B) as (n & ctx' & -> & Hn & R' & C).
    exists (firstn (Z.to_nat n) (snd p)). cbn [fst snd advance]. rewrite firstn_skipn. repeat (split; [solve [auto]|]).
    destruct C as [->|C]; [left|right; exact C]. unfold len_of. cbn [advance snd]. rewrite length_skipn. lia.
Qed.

Lemma whole_blocks_spec su iv p ctx msg : represents iv ctx msg -> len_of p = 0 \/ buflen ctx = 0 -> bytes_ok (snd p) -> len_of p < 2 ^ 64 ->
  absorbs iv msg p (whole_blocks su p ctx) /\ len_of (fst (whole_blocks su p ctx)) <= 64.
Proof.
  intros R1 C1 B1 L1. unfold whole_blocks, absorbs. destruct (Z.geb_spec (len_of p) 64) as [Hg|Hg].
  2: { split; [exists []; rewrite app_nil_r; auto|cbn [fst]; lia]. }
  destruct C1 as [C1|C1]; [lia|]. apply represents_empty in R1; [|exact C1]. destruct (negb su && UNALIGNED_P (fst p)).
  - destruct (unaligned_loop_spec iv (length (snd p)) p ctx msg R1 B1 ltac:(lia)) as (p2 & ctx2 & d & -> & E & A & El & L).
    split; [|exact L]. exists d. cbn [fst snd]. rewrite El. split; [exact E|]. split; [apply represents_empty; [congruence|exact A]|auto].
  - destruct (direct_blocks_spec iv p ctx msg R1 B1 L1) as (A & El & L). split; [|exact L].
    exists (firstn (Z.to_nat (blocks_part (len_of p))) (snd p)). cbn [fst snd advance]. rewrite firstn_skipn.
    split; [reflexivity|]. rewrite El. split; [apply represents_empty; [congruence|exact A]|auto].
Qed.

(** Feeding bytes appends them to the message. *)
Lemma process_bytes_spec su iv p ctx msg : represents iv ctx msg -> bytes_ok (snd p) -> len_of p < 2 ^ 64 ->
  represents iv (sha256_process_bytes su p ctx) (msg ++ snd p).
Proof.
  intros Rm B Hp. unfold sha256_process_bytes. pose proof (top_up_spec iv p ctx msg Rm B) as (d1 & E1 & R1 & C1).
  destruct (top_up p ctx) as [p1 ctx1]. cbn [fst snd] in *. unfold len_of in Hp. rewrite E1, length_app in Hp. rewrite E1 in B |- *. apply Forall_app in B as [_ B1].
  destruct (whole_blocks_spec su iv p1 ctx1 (msg ++ d1) R1 C1 B1 ltac:(unfold len_of; lia)) as [(d2 & E2 & R2 & C2) L2].
  destruct (whole_blocks su p1 ctx1) as [p2 ctx2]. cbn [fst snd] in *. rewrite E2 in B1 |- *. apply Forall_app in B1 as [_ B2]. rewrite !app_assoc.
  destruct (Z.gtb_spec (len_of p2) 0) as [Hg|Hg].
  - apply keep_rest_spec; [exact R2|lia|exact B2|exact L2].
  - destruct (snd p2) eqn:E; [now rewrite app_nil_r|]. unfold len_of in Hg. rewrite E in Hg. cbn [length] in Hg. lia.
Qed.

(** *** Padding and digest *)

Lemma swap_bytes v : uint32_bytes (SWAP v) = be_bytes 4 v.
Proof.
  unfold uint32_bytes, SWAP, be_bytes. rewrite bswapsi2_spec.
  assert (L : length (rev (digits 8 4 v)) = 4%nat) by (rewrite length_rev; apply digits_length).
  rewrite <- L at 1. apply digits_eval; [lia|]. apply Forall_rev, digits_digits_ok. lia.
Qed.

Lemma be_bytes_length n x : length (be_bytes n x) = n.
Proof. unfold be_bytes. rewrite length_rev. apply digits_length. Qed.

Lemma be_bytes_ok n x : bytes_ok (be_bytes n x).
Proof. apply Forall_rev, digits_digits_ok. lia. Qed.

Lemma be_bytes_eqm n x y : eqm (8 * Z.of_nat n) x y -> be_bytes n x = be_bytes n y.
Proof. intros E. unfold be_bytes. f_equal. apply digits_eqm; [lia|exact E]. Qed.

(** Two words make a double word. *)
Lemma be_bytes_pair hi lo : 0 <= lo < 2 ^ 32 -> be_bytes 4 hi ++ be_bytes 4 lo = be_bytes 8 (hi * 2 ^ 32 + lo).
Proof.
  intros Hl. unfold be_bytes. rewrite <- rev_app_distr. f_equal. change 8%nat with (4 + 4)%nat. rewrite (digits_app 8 ltac:(lia)).
  change (8 * Z.of_nat 4) with 32. destruct (div_mod_pair hi lo (2 ^ 32) Hl) as [D _]. rewrite D. f_equal.
  apply digits_eqm; [lia|]. change (8 * Z.of_nat 4) with 32. now rewrite eqm_mul_pow, Z.add_0_l.
Qed.

(** The two words of the bit length. *)
Lemma bit_length t0 t1 : is_uint 32 t0 -> is_uint 32 t1 ->
  be_bytes 4 ((t1 <<[32] 3) .| (t0 >>[32] 29)) ++ be_bytes 4 (t0 <<[32] 3) = be_bytes 8 (8 * (t0 + 2 ^ 32 * t1)).
Proof.
  intros H0 H1. unfold is_uint in *. rewrite !ushl_spec, shr_spec by lia. pose proof (uint_range 32 (t0 * 2 ^ 3) ltac:(lia)) as R0.
  rewrite be_bytes_pair by exact R0. apply be_bytes_eqm. change (8 * Z.of_nat 8) with 64.
  destruct (eqm_exists 32 (uint 32 (t1 * 2 ^ 3)) (t1 * 2 ^ 3) ltac:(lia) (uint_eqm _ _)) as [k Ek].
  assert (Q : 0 <= t0 / 2 ^ 29 < 2 ^ 3) by (split; [apply Z.div_pos|apply Z.div_lt_upper_bound]; lia).
  replace (uint 32 (t1 * 2 ^ 3)) with ((t1 + k * 2 ^ 29) * 2 ^ 3) by lia. rewrite lor_add_disjoint by lia.
  assert (L : uint 32 (t0 * 2 ^ 3) = t0 * 2 ^ 3 - 2 ^ 32 * (t0 / 2 ^ 29)).
  { unfold uint. pose proof (Z.div_mod t0 (2 ^ 29) ltac:(lia)). pose proof (Z.mod_pos_bound t0 (2 ^ 29) ltac:(lia)).
    symmetry. apply Z.mod_unique with (t0 / 2 ^ 29); lia. }
  rewrite L. replace (((t1 + k * 2 ^ 29) * 2 ^ 3 + t0 / 2 ^ 29) * 2 ^ 32 + (t0 * 2 ^ 3 - 2 ^ 32 * (t0 / 2 ^ 29)))
    with (8 * (t0 + 2 ^ 32 * t1) + k * 2 ^ 64) by lia. rewrite eqm_mul_pow. now rewrite Z.add_0_r.
Qed.

(** The buffer after the length and the fill bytes are written. *)
Lemma padded_buffer b n s (w1 w2 fill : list Z) : length b = 128%nat -> (s <= 128)%nat -> length w1 = 4%nat -> length w2 = 4%nat ->
  (n + length fill = s - 8)%nat -> (8 <= s)%nat ->
  let b' := memcpy (memcpy (memcpy b (s - 8) w1) (s - 4) w2) n fill in
  length b' = 128%nat /\ firstn s b' = firstn n b ++ fill ++ w1 ++ w2.
Proof.
  intros Lb Hs L1 L2 Lf H8 b'. set (b1 := memcpy b (s - 8) w1) in *. set (b2 := memcpy b1 (s - 4) w2) in *.
  assert (Lb1 : length b1 = 128%nat) by (unfold b1; rewrite memcpy_length; lia).
  assert (Lb2 : length b2 = 128%nat) by (unfold b2; rewrite memcpy_length; lia).
  split; [unfold b'; rewrite memcpy_length; lia|].
  assert (P2 : firstn s b2 = firstn (s - 8) b ++ w1 ++ w2).
  { replace s with (s - 4 + length w2)%nat at 1 by lia. unfold b2. rewrite memcpy_prefix by lia.
    replace (s - 4)%nat with (s - 8 + length w1)%nat by lia. unfold b1. rewrite memcpy_prefix by lia. now rewrite app_assoc. }
  assert (E : firstn s b' = firstn (n + length fill) b' ++ skipn (n + length fill) (firstn s b')).
  { rewrite <- (firstn_skipn (n + length fill) (firstn s b')) at 1. rewrite firstn_firstn. do 2 f_equal. lia. }
  rewrite E, skipn_firstn_comm. unfold b'. rewrite memcpy_prefix, memcpy_suffix by lia. rewrite <- app_assoc.
  assert (Fn : firstn n b2 = firstn n b).
  { replace (firstn n b2) with (firstn n (firstn s b2)) by (rewrite firstn_firstn; f_equal; lia). rewrite P2, firstn_app, firstn_firstn, length_firstn.
    replace (n - Nat.min (s - 8) (length b))%nat with O by lia. rewrite firstn_O, app_nil_r. f_equal. lia. }
  rewrite Fn. do 2 f_equal. rewrite <- skipn_firstn_comm, P2, skipn_app, length_firstn.
  replace (n + length fill - Nat.min (s - 8) (length b))%nat with O by lia. rewrite skipn_O, skipn_all2; [reflexivity|].
  rewrite length_firstn. lia.
Qed.

Lemma firstn_zeros k m : (k <= m)%nat -> firstn k (repeat 0 m) = repeat 0 k.
Proof. revert m. induction k as [|k IH]; intros [|m] H; cbn; try lia; [reflexivity..|]. f_equal. apply IH. lia. Qed.

Lemma fillbuf_prefix k : (0 < k <= 64)%nat -> firstn k fillbuf = 0x80 :: repeat 0 (k - 1).
Proof.
  intros Hk. unfold fillbuf. replace k with (S (k - 1)) at 1 by lia. rewrite firstn_cons. f_equal.
  apply firstn_zeros. lia.
Qed.

Lemma fillbuf_ok k : bytes_ok (firstn k fillbuf).
Proof.
  apply Forall_firstn. unfold fillbuf. constructor; [lia|]. apply Forall_forall. intros x Hx. apply repeat_spec in Hx. lia.
Qed.

(** The carry of [sha256_conclude_ctx]. *)
Lemma count_rest t0 t1 n : is_uint 32 t0 -> is_uint 32 t1 -> 0 <= n <= 64 ->
  let t0' := t0 +[32] n in let t1' := if t0' <? n then t1 +[32] 1 else t1 in
  is_uint 32 t0' /\ is_uint 32 t1' /\ eqm 64 (t0' + 2 ^ 32 * t1') (t0 + 2 ^ 32 * t1 + n).
Proof.
  intros H0 H1 Hn t0' t1'. destruct (count_bytes t0 t1 n H0 H1 ltac:(unfold is_uint; lia)) as (T & R0 & R1).
  rewrite (uint_small 32 n) in * by (unfold is_uint; lia).
  assert (E : t1' = t1 +[32] ((n >>[64] 31 >>[64] 1) + b2z (t0' <? n))).
  { rewrite !shr_spec, Z.div_div, (Z.div_small n) by lia. unfold t1'. destruct (t0' <? n); cbn [b2z]; [reflexivity|].
    unfold uadd. rewrite Z.add_0_r. symmetry. now apply uint_small. }
  rewrite E. split; [exact R0|]. split; [exact R1|]. fold t0' in T. rewrite T. apply uint_eqm.
Qed.

(** [sha256_conclude_ctx] finishes the hash of the message. *)
Lemma conclude_spec iv ctx msg : represents iv ctx msg -> state (sha256_conclude_ctx ctx) = hash fips_block iv (be_bytes 8) msg.
Proof.
  intros (done & rest & -> & A & El & Hr & Eb). pose proof (at_buffer _ _ _ A) as [Lb Bb]. pose proof (at_range _ _ _ A) as [R0 R1].
  unfold sha256_conclude_ctx. cbv zeta. rewrite El. set (n := length rest) in *.
  set (size := if Z.of_nat n <? 56 then 64 / 4 else 64 * 2 / 4).
  assert (Hsz : size = 16 /\ (n < 56)%nat \/ size = 32 /\ (56 <= n)%nat) by (unfold size; case_cmp; [left|right]; split; reflexivity || lia).
  clearbody size. destruct (count_rest (total0 ctx) (total1 ctx) (Z.of_nat n) R0 R1 ltac:(lia)) as (T0 & T1 & T). cbv zeta in T0, T1, T.
  set (t0 := total0 ctx +[32] Z.of_nat n) in *. set (t1 := if t0 <? Z.of_nat n then total1 ctx +[32] 1 else total1 ctx) in *.
  unfold set_uint32. rewrite !swap_bytes. set (s := Z.to_nat (4 * size)).
  replace (Z.to_nat (4 * (size - 2))) with (s - 8)%nat by lia. replace (Z.to_nat (4 * (size - 1))) with (s - 4)%nat by lia.
  replace (Z.to_nat ((size - 2) * 4 - Z.of_nat n)) with (s - 8 - n)%nat by lia. rewrite Nat2Z.id.
  set (fill := firstn (s - 8 - n) fillbuf). assert (Ef : fill = 0x80 :: repeat 0 (s - 9 - n)).
  { unfold fill. rewrite fillbuf_prefix by lia. do 2 f_equal. lia. }
  assert (Lf : length fill = (s - 8 - n)%nat) by (rewrite Ef; cbn [length]; rewrite repeat_length; lia).
  destruct (padded_buffer (buffer ctx) n s (be_bytes 4 ((t1 <<[32] 3) .| (t0 >>[32] 29))) (be_bytes 4 (t0 <<[32] 3)) fill Lb ltac:(lia)
    (be_bytes_length 4 _) (be_bytes_length 4 _) ltac:(lia) ltac:(lia)) as [Lb' P]. cbv zeta in P, Lb'.
  set (b' := memcpy _ n fill) in *.
  assert (Bb' : bytes_ok b') by (repeat apply memcpy_ok; try apply be_bytes_ok; [exact Bb|apply fillbuf_ok]).
  rewrite bit_length, Ef, Eb in P by assumption. unfold sha256_process_block. cbn [state].
  set (k := Z.to_nat (size / 16)). assert (Ek : size = 16 * Z.of_nat k /\ s = (64 * k)%nat) by (unfold k, s; destruct Hsz as [[-> _]|[-> _]]; split; reflexivity).
  destruct Ek as [Ek Es]. replace (size * 4 / 4) with (16 * Z.of_nat k) by (rewrite Z.div_mul; lia).
  rewrite process_words_fold by (assumption || lia). rewrite <- Es, P, (at_state _ _ _ A), <- (fold_blocks_app fips_block) by apply (at_mod _ _ _ A).
  unfold hash, pad. rewrite <- !app_assoc. cbn [app].
  replace (pad_zeros (Z.of_nat (length (done ++ rest)))) with (s - 9 - n)%nat.
  - do 5 f_equal. apply be_bytes_eqm. change (8 * Z.of_nat 8) with 64. rewrite T. fold (total ctx).
    rewrite (at_total _ _ _ A), uint_eqm, length_app, Nat2Z.inj_add. reflexivity.
  - rewrite (pad_zeros_mod _ (Z.of_nat n)).
    + unfold pad_zeros. destruct Hsz as [[E Hn]|[E Hn]]; unfold s; rewrite E.
      * rewrite Z.mod_small by lia. lia.
      * replace ((55 - Z.of_nat n) mod 64) with (119 - Z.of_nat n) by (apply Z.mod_unique with (-1); lia). lia.
    + rewrite length_app, Nat2Z.inj_add, Zplus_mod. pose proof (at_mod _ _ _ A) as M. apply (f_equal Z.of_nat) in M.
      rewrite Nat2Z.inj_mod in M. change (Z.of_nat 64) with 64 in M. rewrite M, Z.add_0_l, Zmod_mod. reflexivity.
Qed.

Lemma init_represents iv ctx : length (buffer ctx) = 128%nat -> bytes_ok (buffer ctx) -> represents iv (mkCtx iv 0 0 0 (buffer ctx)) [].
Proof.
  intros L B. apply represents_empty; [reflexivity|]. constructor; cbn; auto. split; unfold is_uint; lia.
Qed.

Lemma read256 ctx : sha256_read_ctx ctx = flat_map (be_bytes 4) (firstn 8 (state_words (state ctx))).
Proof. apply flat_map_ext. intros. apply swap_bytes. Qed.

Lemma read224 ctx : sha224_read_ctx ctx = flat_map (be_bytes 4) (firstn 7 (state_words (state ctx))).
Proof. apply flat_map_ext. intros. apply swap_bytes. Qed.

(** The memory of an uninitialised context, and data a pointer may point to. *)
Definition ctx_memory (ctx : sha256_ctx) : Prop := length (buffer ctx) = 128%nat /\ bytes_ok (buffer ctx).
Definition chunk_ok (p : data) : Prop := bytes_ok (snd p) /\ len_of p < 2 ^ 64.

Lemma feed_spec su iv chunks : Forall chunk_ok chunks -> forall ctx msg, represents iv ctx msg ->
  represents iv (fold_left (fun c p => sha256_process_bytes su p c) chunks ctx) (msg ++ concat (map snd chunks)).
Proof.
  induction 1 as [|p chunks [Bp Lp] F IH]; intros ctx msg Rm; cbn [fold_left map concat]; [now rewrite app_nil_r|].
  rewrite app_assoc. apply IH. now apply process_bytes_spec.
Qed.

(** C3: streaming refinement: however a message is cut into chunks, at
    whatever addresses they lie and whatever the memory of the context held
    before, initialising, feeding the chunks with [sha256_process_bytes] and
    finishing gives the FIPS 180-4 SHA-256 (SHA-224) digest of the
    concatenation. *)
Theorem sha256_streaming su ctx chunks : ctx_memory ctx -> Forall chunk_ok chunks ->
  let feed := fold_left (fun c p => sha256_process_bytes su p c) chunks in
  sha256_finish_ctx (feed (sha256_init_ctx ctx)) = fips_sha256 (concat (map snd chunks)) /\
  sha224_finish_ctx (feed (sha224_init_ctx ctx)) = fips_sha224 (concat (map snd chunks)).
Proof.
  intros [L B] F feed. unfold sha256_finish_ctx, sha224_finish_ctx, fips_sha256, fips_sha224, fips_digest.
  rewrite read256, read224, <- sha256_iv_fips, <- sha224_iv_fips. split; do 3 f_equal;
    apply conclude_spec; rewrite <- (app_nil_l (concat _)); (apply feed_spec; [exact F|now apply init_represents]).
Qed.

Lemma sha256_streaming_witness :
  let chunks := [(0, [0x61]); (1001, repeat 0x62 70); (3, []); (6, repeat 0x63 200)] in
  let feed := fold_left (fun c p => sha256_process_bytes false p c) chunks in
  let ctx := mkCtx sha256_iv 7 7 7 (repeat 0xAA 128) in
  sha256_finish_ctx (feed (sha256_init_ctx ctx)) = fips_sha256 (concat (map snd chunks)).
Proof.
  apply (sha256_streaming false (mkCtx sha256_iv 7 7 7 (repeat 0xAA 128)) [(0, [0x61]); (1001, repeat 0x62 70); (3, []); (6, repeat 0x63 200)]).
  - split; [reflexivity|]. apply Forall_forall. intros x Hx. apply repeat_spec in Hx. cbn in Hx. lia.
  - repeat constructor; cbn; lia.
Defined.

(** [sha256_buffer] and [sha224_buffer] compute SHA-256 and SHA-224 of the
    buffer, aligned or not, for every length a [size_t] can hold. *)
Theorem sha256_buffer_correct su ctx p : ctx_memory ctx -> chunk_ok p ->
  sha256_buffer su ctx p = fips_sha256 (snd p) /\ sha224_buffer su ctx p = fips_sha224 (snd p).
Proof.
  intros [L B] [Bp Lp]. unfold sha256_buffer, sha224_buffer, sha256_finish_ctx, sha224_finish_ctx, fips_sha256, fips_sha224, fips_digest.
  rewrite read256, read224, <- sha256_iv_fips, <- sha224_iv_fips. split; do 3 f_equal;
    apply conclude_spec; rewrite <- (app_nil_l (snd p)); (apply process_bytes_spec; [now apply init_represents|exact Bp|exact Lp]).
Qed.

Lemma sha256_buffer_correct_witness :
  sha256_buffer false (mkCtx sha256_iv 0 0 0 (repeat 0 128)) (2, [0x61; 0x62; 0x63]) = fips_sha256 [0x61; 0x62; 0x63].
Proof.
  apply (sha256_buffer_correct false (mkCtx sha256_iv 0 0 0 (repeat 0 128)) (2, [0x61; 0x62; 0x63])).
  - split; [reflexivity|]. apply Forall_forall. intros x Hx. apply repeat_spec in Hx. cbn in Hx. lia.
  - repeat constructor; cbn; lia.
Defined.
