(* ===== verification/CpuModel.v ===== *)
(** * CPU detection

    Models the x86 part of [cpu_model.c]: the decoding of CPUID leaves into
    family and model, the feature words, the processor type tables and the
    constructor [__cpu_indicator_init].  The instructions [cpuid] and [xgetbv]
    are parameters: what they return is the processor's.  The CPU names that
    the tables also compute are not used by the source and are left out. *)

From S2P Require Import Prelude.

(** ** Enumerations *)

Definition SIG_INTEL : Z := 0x756e6547.
Definition SIG_AMD : Z := 0x68747541.
Definition VENDOR_INTEL : Z := 1.
Definition VENDOR_AMD : Z := 2.
Definition VENDOR_OTHER : Z := 3.
Definition VENDOR_MAX : Z := 4.

Inductive ProcessorTypes :=
  | INTEL_BONNELL | INTEL_CORE2 | INTEL_COREI7 | AMDFAM10H | AMDFAM15H
  | INTEL_SILVERMONT | INTEL_KNL | AMD_BTVER1 | AMD_BTVER2 | AMDFAM17H
  | INTEL_KNM | INTEL_GOLDMONT | INTEL_GOLDMONT_PLUS | INTEL_TREMONT | AMDFAM19H.
Inductive ProcessorSubtypes :=
  | INTEL_COREI7_NEHALEM | INTEL_COREI7_WESTMERE | INTEL_COREI7_SANDYBRIDGE
  | AMDFAM10H_BARCELONA | AMDFAM10H_SHANGHAI | AMDFAM10H_ISTANBUL
  | AMDFAM15H_BDVER1 | AMDFAM15H_BDVER2 | AMDFAM15H_BDVER3
  | AMDFAM15H_BDVER4 | AMDFAM17H_ZNVER1 | INTEL_COREI7_IVYBRIDGE
  | INTEL_COREI7_HASWELL | INTEL_COREI7_BROADWELL | INTEL_COREI7_SKYLAKE
  | INTEL_COREI7_SKYLAKE_AVX512 | INTEL_COREI7_CANNONLAKE | INTEL_COREI7_ICELAKE_CLIENT
  | INTEL_COREI7_ICELAKE_SERVER | AMDFAM17H_ZNVER2 | INTEL_COREI7_CASCADELAKE
  | INTEL_COREI7_TIGERLAKE | INTEL_COREI7_COOPERLAKE | INTEL_COREI7_SAPPHIRERAPIDS
  | INTEL_COREI7_ALDERLAKE | AMDFAM19H_ZNVER3 | INTEL_COREI7_ROCKETLAKE.
Inductive ProcessorFeatures :=
  | FEATURE_CMOV | FEATURE_MMX | FEATURE_POPCNT | FEATURE_SSE
  | FEATURE_SSE2 | FEATURE_SSE3 | FEATURE_SSSE3 | FEATURE_SSE4_1
  | FEATURE_SSE4_2 | FEATURE_AVX | FEATURE_AVX2 | FEATURE_SSE4_A
  | FEATURE_FMA4 | FEATURE_XOP | FEATURE_FMA | FEATURE_AVX512F
  | FEATURE_BMI | FEATURE_BMI2 | FEATURE_AES | FEATURE_PCLMUL
  | FEATURE_AVX512VL | FEATURE_AVX512BW | FEATURE_AVX512DQ | FEATURE_AVX512CD
  | FEATURE_AVX512ER | FEATURE_AVX512PF | FEATURE_AVX512VBMI | FEATURE_AVX512IFMA
  | FEATURE_AVX5124VNNIW | FEATURE_AVX5124FMAPS | FEATURE_AVX512VPOPCNTDQ | FEATURE_AVX512VBMI2
  | FEATURE_GFNI | FEATURE_VPCLMULQDQ | FEATURE_AVX512VNNI | FEATURE_AVX512BITALG
  | FEATURE_AVX512BF16 | FEATURE_AVX512VP2INTERSECT.

(** The numbers of the enumerators. *)
Definition type_code (x : ProcessorTypes) : Z :=
  match x with
  | INTEL_BONNELL => 1 | INTEL_CORE2 => 2 | INTEL_COREI7 => 3
  | AMDFAM10H => 4 | AMDFAM15H => 5 | INTEL_SILVERMONT => 6
  | INTEL_KNL => 7 | AMD_BTVER1 => 8 | AMD_BTVER2 => 9
  | AMDFAM17H => 10 | INTEL_KNM => 11 | INTEL_GOLDMONT => 12
  | INTEL_GOLDMONT_PLUS => 13 | INTEL_TREMONT => 14 | AMDFAM19H => 15
  end.
Definition CPU_TYPE_MAX : Z := 16.

Definition subtype_code (x : ProcessorSubtypes) : Z :=
  match x with
  | INTEL_COREI7_NEHALEM => 1 | INTEL_COREI7_WESTMERE => 2 | INTEL_COREI7_SANDYBRIDGE => 3
  | AMDFAM10H_BARCELONA => 4 | AMDFAM10H_SHANGHAI => 5 | AMDFAM10H_ISTANBUL => 6
  | AMDFAM15H_BDVER1 => 7 | AMDFAM15H_BDVER2 => 8 | AMDFAM15H_BDVER3 => 9
  | AMDFAM15H_BDVER4 => 10 | AMDFAM17H_ZNVER1 => 11 | INTEL_COREI7_IVYBRIDGE => 12
  | INTEL_COREI7_HASWELL => 13 | INTEL_COREI7_BROADWELL => 14 | INTEL_COREI7_SKYLAKE => 15
  | INTEL_COREI7_SKYLAKE_AVX512 => 16 | INTEL_COREI7_CANNONLAKE => 17 | INTEL_COREI7_ICELAKE_CLIENT => 18
  | INTEL_COREI7_ICELAKE_SERVER => 19 | AMDFAM17H_ZNVER2 => 20 | INTEL_COREI7_CASCADELAKE => 21
  | INTEL_COREI7_TIGERLAKE => 22 | INTEL_COREI7_COOPERLAKE => 23 | INTEL_COREI7_SAPPHIRERAPIDS => 24
  | INTEL_COREI7_ALDERLAKE => 25 | AMDFAM19H_ZNVER3 => 26 | INTEL_COREI7_ROCKETLAKE => 27
  end.
Definition CPU_SUBTYPE_MAX : Z := 28.

Definition feature_code (x : ProcessorFeatures) : Z :=
  match x with
  | FEATURE_CMOV => 0 | FEATURE_MMX => 1 | FEATURE_POPCNT => 2
  | FEATURE_SSE => 3 | FEATURE_SSE2 => 4 | FEATURE_SSE3 => 5
  | FEATURE_SSSE3 => 6 | FEATURE_SSE4_1 => 7 | FEATURE_SSE4_2 => 8
  | FEATURE_AVX => 9 | FEATURE_AVX2 => 10 | FEATURE_SSE4_A => 11
  | FEATURE_FMA4 => 12 | FEATURE_XOP => 13 | FEATURE_FMA => 14
  | FEATURE_AVX512F => 15 | FEATURE_BMI => 16 | FEATURE_BMI2 => 17
  | FEATURE_AES => 18 | FEATURE_PCLMUL => 19 | FEATURE_AVX512VL => 20
  | FEATURE_AVX512BW => 21 | FEATURE_AVX512DQ => 22 | FEATURE_AVX512CD => 23
  | FEATURE_AVX512ER => 24 | FEATURE_AVX512PF => 25 | FEATURE_AVX512VBMI => 26
  | FEATURE_AVX512IFMA => 27 | FEATURE_AVX5124VNNIW => 28 | FEATURE_AVX5124FMAPS => 29
  | FEATURE_AVX512VPOPCNTDQ => 30 | FEATURE_AVX512VBMI2 => 31 | FEATURE_GFNI => 32
  | FEATURE_VPCLMULQDQ => 33 | FEATURE_AVX512VNNI => 34 | FEATURE_AVX512BITALG => 35
  | FEATURE_AVX512BF16 => 36 | FEATURE_AVX512VP2INTERSECT => 37
  end.
Definition CPU_FEATURE_MAX : Z := 38.

(** ** Reading the processor *)

Definition bit (x n : Z) : bool := nonzero ((x >>[32] n) .& 1).

(** The four registers CPUID returns. *)
Record cpuid_regs := mkCpuid { rEAX : Z; rEBX : Z; rECX : Z; rEDX : Z }.

(** [testFeature] and [setFeature] on the two feature words. *)
Definition features_t := (Z * Z)%type.
Definition testFeature (fs : features_t) (F : ProcessorFeatures) : bool :=
  let f := feature_code F in
  let w := if f / 32 =? 0 then fst fs else snd fs in
  nonzero (w .& uint 32 (1 <<[32] (f mod 32))).
Definition setFeature (fs : features_t) (F : ProcessorFeatures) : features_t :=
  let f := feature_code F in
  let b := 1 <<[32] (f mod 32) in
  if f / 32 =? 0 then (fst fs .| b, snd fs) else (fst fs, snd fs .| b).
(** [if (c) setFeature(F);] *)
Definition set_if (c : bool) (F : ProcessorFeatures) (fs : features_t) : features_t := if c then setFeature fs F else fs.

Definition detectX86FamilyModel (EAX : Z) : Z * Z :=
  let Family := (EAX >>[32] 8) .& 0xf in
  let Model := (EAX >>[32] 4) .& 0xf in
  if (Family =? 6) || (Family =? 0xf) then
    let Family' := if Family =? 0xf then Family +[32] ((EAX >>[32] 20) .& 0xff) else Family in
    (Family', Model +[32] (((EAX >>[32] 16) .& 0xf) <<[32] 4))
  else (Family, Model).

(** ** Type and subtype

    [ts] is what the two out parameters hold; an unknown processor leaves
    them as they are. *)

(** The Atom and Xeon Phi models of family 6. *)
Definition intel_low_power (Model : Z) (ts : Z * Z) : Z * Z :=
  match Model with
  | 0x1c | 0x26 | 0x27 | 0x35 | 0x36 => (type_code INTEL_BONNELL, snd ts)
  | 0x37 | 0x4a | 0x4d | 0x5a | 0x5d | 0x4c => (type_code INTEL_SILVERMONT, snd ts)
  | 0x5c | 0x5f => (type_code INTEL_GOLDMONT, snd ts)
  | 0x7a => (type_code INTEL_GOLDMONT_PLUS, snd ts)
  | 0x86 => (type_code INTEL_TREMONT, snd ts)
  | 0x57 => (type_code INTEL_KNL, snd ts)
  | 0x85 => (type_code INTEL_KNM, snd ts)
  | _ => ts
  end.

Definition getIntelProcessorTypeAndSubtype (Family Model : Z) (features : features_t) (ts : Z * Z) : Z * Z :=
  match Family with
  | 6 =>
      match Model with
      | 0x0f | 0x16 => (type_code INTEL_CORE2, snd ts)
      | 0x17 | 0x1d => (type_code INTEL_CORE2, snd ts)
      | 0x1a | 0x1e | 0x1f | 0x2e => (type_code INTEL_COREI7, subtype_code INTEL_COREI7_NEHALEM)
      | 0x25 | 0x2c | 0x2f => (type_code INTEL_COREI7, subtype_code INTEL_COREI7_WESTMERE)
      | 0x2a | 0x2d => (type_code INTEL_COREI7, subtype_code INTEL_COREI7_SANDYBRIDGE)
      | 0x3a | 0x3e => (type_code INTEL_COREI7, subtype_code INTEL_COREI7_IVYBRIDGE)
      | 0x3c | 0x3f | 0x45 | 0x46 => (type_code INTEL_COREI7, subtype_code INTEL_COREI7_HASWELL)
      | 0x3d | 0x47 | 0x4f | 0x56 => (type_code INTEL_COREI7, subtype_code INTEL_COREI7_BROADWELL)
      | 0x4e | 0x5e | 0x8e | 0x9e | 0xa5 | 0xa6 => (type_code INTEL_COREI7, subtype_code INTEL_COREI7_SKYLAKE)
      | 0xa7 => (type_code INTEL_COREI7, subtype_code INTEL_COREI7_ROCKETLAKE)
      | 0x55 => (type_code INTEL_COREI7,
           if testFeature features FEATURE_AVX512BF16 then subtype_code INTEL_COREI7_COOPERLAKE
           else if testFeature features FEATURE_AVX512VNNI then subtype_code INTEL_COREI7_CASCADELAKE
           else subtype_code INTEL_COREI7_SKYLAKE_AVX512)
      | 0x66 => (type_code INTEL_COREI7, subtype_code INTEL_COREI7_CANNONLAKE)
      | 0x7d | 0x7e => (type_code INTEL_COREI7, subtype_code INTEL_COREI7_ICELAKE_CLIENT)
      | 0x6a | 0x6c => (type_code INTEL_COREI7, subtype_code INTEL_COREI7_ICELAKE_SERVER)
      | 0x8f => (type_code INTEL_COREI7, subtype_code INTEL_COREI7_SAPPHIRERAPIDS)
      | _ => intel_low_power Model ts
      end
  | _ => ts
  end.

Definition within (lo x hi : Z) : bool := (lo <=? x) && (x <=? hi).

Definition getAMDProcessorTypeAndSubtype (Family Model : Z) (features : features_t) (ts : Z * Z) : Z * Z :=
  match Family with
  | 16 =>
      (type_code AMDFAM10H,
       match Model with
       | 2 => subtype_code AMDFAM10H_BARCELONA
       | 4 => subtype_code AMDFAM10H_SHANGHAI
       | 8 => subtype_code AMDFAM10H_ISTANBUL
       | _ => snd ts
       end)
  | 20 => (type_code AMD_BTVER1, snd ts)
  | 21 =>
      (type_code AMDFAM15H,
       if within 0x60 Model 0x7f then subtype_code AMDFAM15H_BDVER4
       else if within 0x30 Model 0x3f then subtype_code AMDFAM15H_BDVER3
       else if within 0x10 Model 0x1f || (Model =? 0x02) then subtype_code AMDFAM15H_BDVER2
       else if Model <=? 0x0f then subtype_code AMDFAM15H_BDVER1
       else snd ts)
  | 22 => (type_code AMD_BTVER2, snd ts)
  | 23 =>
      (type_code AMDFAM17H,
       if within 0x30 Model 0x3f || (Model =? 0x71) then subtype_code AMDFAM17H_ZNVER2
       else if Model <=? 0x0f then subtype_code AMDFAM17H_ZNVER1
       else snd ts)
  | 25 => (type_code AMDFAM19H, if Model <=? 0x0f then subtype_code AMDFAM19H_ZNVER3 else snd ts)
  | _ => ts
  end.

(** ** Features and initialisation *)

Section Processor.
(** The [cpuid] instruction (leaf in EAX, subleaf in ECX), what ECX holds when
    the code does not set it, and the [xgetbv] instruction for XCR0. *)
Context (cpuid : Z -> Z -> cpuid_regs) (ecx_in : Z) (xgetbv : Z * Z).

Definition getX86CpuIDAndInfo (value : Z) : cpuid_regs := cpuid value ecx_in.
Definition getX86CpuIDAndInfoEx (value subleaf : Z) : cpuid_regs := cpuid value subleaf.
Definition getX86XCR0 : Z * Z := xgetbv.

(** The features of leaf 1. *)
Definition leaf1_features (ECX EDX : Z) (fs : features_t) : features_t :=
  let fs := set_if (bit EDX 15) FEATURE_CMOV fs in
  let fs := set_if (bit EDX 23) FEATURE_MMX fs in
  let fs := set_if (bit EDX 25) FEATURE_SSE fs in
  let fs := set_if (bit EDX 26) FEATURE_SSE2 fs in
  let fs := set_if (bit ECX 0) FEATURE_SSE3 fs in
  let fs := set_if (bit ECX 1) FEATURE_PCLMUL fs in
  let fs := set_if (bit ECX 9) FEATURE_SSSE3 fs in
  let fs := set_if (bit ECX 12) FEATURE_FMA fs in
  let fs := set_if (bit ECX 19) FEATURE_SSE4_1 fs in
  let fs := set_if (bit ECX 20) FEATURE_SSE4_2 fs in
  let fs := set_if (bit ECX 23) FEATURE_POPCNT fs in
  let fs := set_if (bit ECX 25) FEATURE_AES fs in
  fs.

(** [HasAVX], [HasAVX512Save]. *)
Definition AVXBits : Z := sshl 32 1 27 .| sshl 32 1 28.
Definition HasAVX (ECX : Z) : bool := ((ECX .& AVXBits) =? AVXBits) && ((fst getX86XCR0 .& 0x6) =? 0x6).
Definition HasAVX512Save (ECX : Z) : bool := HasAVX ECX && ((fst getX86XCR0 .& 0xe0) =? 0xe0).

(** The features of leaf 7, with its registers. *)
Definition leaf7_features (HasLeaf7 HasAVX HasAVX512Save : bool) (r : cpuid_regs) (fs : features_t) : features_t :=
  let '(mkCpuid _ EBX ECX EDX) := r in
  let fs := set_if (HasLeaf7 && bit EBX 3) FEATURE_BMI fs in
  let fs := set_if (HasLeaf7 && bit EBX 5 && HasAVX) FEATURE_AVX2 fs in
  let fs := set_if (HasLeaf7 && bit EBX 8) FEATURE_BMI2 fs in
  let fs := set_if (HasLeaf7 && bit EBX 16 && HasAVX512Save) FEATURE_AVX512F fs in
  let fs := set_if (HasLeaf7 && bit EBX 17 && HasAVX512Save) FEATURE_AVX512DQ fs in
  let fs := set_if (HasLeaf7 && bit EBX 21 && HasAVX512Save) FEATURE_AVX512IFMA fs in
  let fs := set_if (HasLeaf7 && bit EBX 26 && HasAVX512Save) FEATURE_AVX512PF fs in
  let fs := set_if (HasLeaf7 && bit EBX 27 && HasAVX512Save) FEATURE_AVX512ER fs in
  let fs := set_if (HasLeaf7 && bit EBX 28 && HasAVX512Save) FEATURE_AVX512CD fs in
  let fs := set_if (HasLeaf7 && bit EBX 30 && HasAVX512Save) FEATURE_AVX512BW fs in
  let fs := set_if (HasLeaf7 && bit EBX 31 && HasAVX512Save) FEATURE_AVX512VL fs in
  let fs := set_if (HasLeaf7 && bit ECX 1 && HasAVX512Save) FEATURE_AVX512VBMI fs in
  let fs := set_if (HasLeaf7 && bit ECX 6 && HasAVX512Save) FEATURE_AVX512VBMI2 fs in
  let fs := set_if (HasLeaf7 && bit ECX 8) FEATURE_GFNI fs in
  let fs := set_if (HasLeaf7 && bit ECX 10 && HasAVX) FEATURE_VPCLMULQDQ fs in
  let fs := set_if (HasLeaf7 && bit ECX 11 && HasAVX512Save) FEATURE_AVX512VNNI fs in
  let fs := set_if (HasLeaf7 && bit ECX 12 && HasAVX512Save) FEATURE_AVX512BITALG fs in
  let fs := set_if (HasLeaf7 && bit ECX 14 && HasAVX512Save) FEATURE_AVX512VPOPCNTDQ fs in
  let fs := set_if (HasLeaf7 && bit EDX 2 && HasAVX512Save) FEATURE_AVX5124VNNIW fs in
  let fs := set_if (HasLeaf7 && bit EDX 3 && HasAVX512Save) FEATURE_AVX5124FMAPS fs in
  let fs := set_if (HasLeaf7 && bit EDX 8 && HasAVX512Save) FEATURE_AVX512VP2INTERSECT fs in
  fs.

Definition getAvailableFeatures (ECX EDX MaxLeaf : Z) (fs : features_t) : features_t :=
  let fs := leaf1_features ECX EDX fs in
  let HasAVX := HasAVX ECX in
  let HasAVX512Save := HasAVX512Save ECX in
  let fs := set_if HasAVX FEATURE_AVX fs in
  let HasLeaf7 := MaxLeaf >=? 0x7 in
  let fs := leaf7_features HasLeaf7 HasAVX HasAVX512Save (getX86CpuIDAndInfoEx 0x7 0x0) fs in
  let HasLeaf7Subleaf1 := MaxLeaf >=? 0x7 in
  let EAX := rEAX (getX86CpuIDAndInfoEx 0x7 0x1) in
  let fs := set_if (HasLeaf7Subleaf1 && bit EAX 5 && HasAVX512Save) FEATURE_AVX512BF16 fs in
  let MaxExtLevel := rEAX (getX86CpuIDAndInfo 0x80000000) in
  let HasExtLeaf1 := MaxExtLevel >=? 0x80000001 in
  let ECX := rECX (getX86CpuIDAndInfo 0x80000001) in
  let fs := set_if (HasExtLeaf1 && bit ECX 6) FEATURE_SSE4_A fs in
  let fs := set_if (HasExtLeaf1 && bit ECX 11) FEATURE_XOP fs in
  let fs := set_if (HasExtLeaf1 && bit ECX 16) FEATURE_FMA4 fs in
  fs.

(** [__cpu_model] and [__cpu_features2]. *)
Record processor_model := mkModel {
  __cpu_vendor : Z; __cpu_type : Z; __cpu_subtype : Z; __cpu_features : Z; __cpu_features2 : Z }.
Definition zero_model : processor_model := mkModel 0 0 0 0 0.

(** x86-64 always has CPUID. *)
Definition isCpuIdSupported : bool := true.

(** The result and the model; [None] is a failed assertion. *)
Definition __cpu_indicator_init (m : processor_model) : option (Z * processor_model) :=
  if nonzero (__cpu_vendor m) then Some (0, m)
  else
    let r0 := getX86CpuIDAndInfo 0 in
    let MaxLeaf := rEAX r0 in
    let Vendor := rEBX r0 in
    if negb isCpuIdSupported || (MaxLeaf <? 1) then
      Some (-1, mkModel VENDOR_OTHER (__cpu_type m) (__cpu_subtype m) (__cpu_features m) (__cpu_features2 m))
    else
      let r1 := getX86CpuIDAndInfo 1 in
      let '(Family, Model) := detectX86FamilyModel (rEAX r1) in
      let fs := getAvailableFeatures (rECX r1) (rEDX r1) MaxLeaf (0, 0) in
      let ts := (__cpu_type m, __cpu_subtype m) in
      let '(vendor, (ty, sub)) :=
        if Vendor =? SIG_INTEL then (VENDOR_INTEL, getIntelProcessorTypeAndSubtype Family Model fs ts)
        else if Vendor =? SIG_AMD then (VENDOR_AMD, getAMDProcessorTypeAndSubtype Family Model fs ts)
        else (VENDOR_OTHER, ts) in
      if (vendor <? VENDOR_MAX) && (ty <? CPU_TYPE_MAX) && (sub <? CPU_SUBTYPE_MAX)
      then Some (0, mkModel vendor ty sub (fst fs) (snd fs)) else None.
End Processor.

(** ** What the feature words should say

    Where CPUID documents each feature (register and bit), and what the
    operating system must save for it to be usable: the YMM registers for the
    instructions that use them (FMA, FMA4 and XOP are among these), and the
    mask and ZMM registers too for AVX-512. *)

Inductive source := L1_ECX | L1_EDX | L7_EBX | L7_ECX | L7_EDX | L7S1_EAX | X1_ECX.
Inductive requirement := needs_nothing | needs_avx | needs_avx512.

Definition feature_bit (F : ProcessorFeatures) : source * Z * requirement :=
  match F with
  | FEATURE_CMOV => (L1_EDX, 15, needs_nothing)
  | FEATURE_MMX => (L1_EDX, 23, needs_nothing)
  | FEATURE_SSE => (L1_EDX, 25, needs_nothing)
  | FEATURE_SSE2 => (L1_EDX, 26, needs_nothing)
  | FEATURE_SSE3 => (L1_ECX, 0, needs_nothing)
  | FEATURE_PCLMUL => (L1_ECX, 1, needs_nothing)
  | FEATURE_SSSE3 => (L1_ECX, 9, needs_nothing)
  | FEATURE_FMA => (L1_ECX, 12, needs_avx)
  | FEATURE_SSE4_1 => (L1_ECX, 19, needs_nothing)
  | FEATURE_SSE4_2 => (L1_ECX, 20, needs_nothing)
  | FEATURE_POPCNT => (L1_ECX, 23, needs_nothing)
  | FEATURE_AES => (L1_ECX, 25, needs_nothing)
  | FEATURE_BMI => (L7_EBX, 3, needs_nothing)
  | FEATURE_AVX2 => (L7_EBX, 5, needs_avx)
  | FEATURE_BMI2 => (L7_EBX, 8, needs_nothing)
  | FEATURE_AVX512F => (L7_EBX, 16, needs_avx512)
  | FEATURE_AVX512DQ => (L7_EBX, 17, needs_avx512)
  | FEATURE_AVX512IFMA => (L7_EBX, 21, needs_avx512)
  | FEATURE_AVX512PF => (L7_EBX, 26, needs_avx512)
  | FEATURE_AVX512ER => (L7_EBX, 27, needs_avx512)
  | FEATURE_AVX512CD => (L7_EBX, 28, needs_avx512)
  | FEATURE_AVX512BW => (L7_EBX, 30, needs_avx512)
  | FEATURE_AVX512VL => (L7_EBX, 31, needs_avx512)
  | FEATURE_AVX512VBMI => (L7_ECX, 1, needs_avx512)
  | FEATURE_AVX512VBMI2 => (L7_ECX, 6, needs_avx512)
  | FEATURE_GFNI => (L7_ECX, 8, needs_nothing)
  | FEATURE_VPCLMULQDQ => (L7_ECX, 10, needs_avx)
  | FEATURE_AVX512VNNI => (L7_ECX, 11, needs_avx512)
  | FEATURE_AVX512BITALG => (L7_ECX, 12, needs_avx512)
  | FEATURE_AVX512VPOPCNTDQ => (L7_ECX, 14, needs_avx512)
  | FEATURE_AVX5124VNNIW => (L7_EDX, 2, needs_avx512)
  | FEATURE_AVX5124FMAPS => (L7_EDX, 3, needs_avx512)
  | FEATURE_AVX512VP2INTERSECT => (L7_EDX, 8, needs_avx512)
  | FEATURE_AVX => (L1_ECX, 28, needs_avx)
  | FEATURE_AVX512BF16 => (L7S1_EAX, 5, needs_avx512)
  | FEATURE_SSE4_A => (X1_ECX, 6, needs_nothing)
  | FEATURE_XOP => (X1_ECX, 11, needs_avx)
  | FEATURE_FMA4 => (X1_ECX, 16, needs_avx)
  end.

Section Spec.
Context (cpuid : Z -> Z -> cpuid_regs) (ecx_in : Z) (xgetbv : Z * Z).
Context (ECX EDX MaxLeaf : Z).

Definition source_value (s : source) : Z :=
  match s with
  | L1_ECX => ECX | L1_EDX => EDX
  | L7_EBX => rEBX (cpuid 7 0) | L7_ECX => rECX (cpuid 7 0) | L7_EDX => rEDX (cpuid 7 0)
  | L7S1_EAX => rEAX (cpuid 7 1)
  | X1_ECX => rECX (cpuid 0x80000001 ecx_in)
  end.
(** The leaf exists. *)
Definition source_present (s : source) : bool :=
  match s with
  | L1_ECX | L1_EDX => true
  | X1_ECX => 0x80000001 <=? rEAX (cpuid 0x80000000 ecx_in)
  | _ => 7 <=? MaxLeaf
  end.

(** XGETBV is enabled (OSXSAVE), AVX is there, and the system saves the SSE and
    AVX state; for AVX-512 the three further state components too. *)
Definition os_saves (r : requirement) : bool :=
  let avx := Z.testbit ECX 27 && Z.testbit ECX 28 && Z.testbit (fst xgetbv) 1 && Z.testbit (fst xgetbv) 2 in
  match r with
  | needs_nothing => true
  | needs_avx => avx
  | needs_avx512 => avx && Z.testbit (fst xgetbv) 5 && Z.testbit (fst xgetbv) 6 && Z.testbit (fst xgetbv) 7
  end.

(** The processor reports the feature; and it can be used. *)
Definition reported (F : ProcessorFeatures) : bool :=
  let '(s, n, _) := feature_bit F in source_present s && Z.testbit (source_value s) n.
Definition has_feature (F : ProcessorFeatures) : bool := reported F && os_saves (snd (feature_bit F)).
End Spec.

(** The features whose registers the code does not ask the system for. *)
Definition unchecked (F : ProcessorFeatures) : bool :=
  match F with FEATURE_FMA | FEATURE_FMA4 | FEATURE_XOP => true | _ => false end.

(** *** Bits *)

Lemma land_pow2_test x k : 0 <= k -> nonzero (x .& 2 ^ k) = Z.testbit x k.
Proof.
  intros Hk. unfold nonzero. destruct (Z.testbit x k) eqn:E.
  - apply negb_true_iff, Z.eqb_neq. intros H. apply (f_equal (fun y => Z.testbit y k)) in H.
    rewrite Z.land_spec, Z.pow2_bits_true, E, Z.bits_0 in H by lia. discriminate.
  - apply negb_false_iff, Z.eqb_eq. apply Z.bits_inj'. intros i Hi. rewrite Z.land_spec, Z.pow2_bits_eqb, Z.bits_0 by lia.
    destruct (Z.eqb_spec k i) as [<-|]; [now rewrite E|apply andb_false_r].
Qed.

Lemma bit_testbit x n : 0 <= n < 32 -> bit x n = Z.testbit x n.
Proof.
  intros Hn. unfold bit. rewrite shr_spec by lia. change 1 with (2 ^ 0) at 1. rewrite land_pow2_test, <- Z.shiftr_div_pow2, Z.shiftr_spec by lia.
  now rewrite Z.add_0_l.
Qed.

(** [x & m == m] for a mask of several bits. *)
Lemma mask_test x m (l : list Z) : Forall (fun i => 0 <= i) l -> m = fold_right (fun i m => 2 ^ i .| m) 0 l ->
  (x .& m =? m) = forallb (Z.testbit x) l.
Proof.
  intros F Em. apply eq_true_iff_eq. rewrite Z.eqb_eq, forallb_forall.
  assert (B : forall i, 0 <= i -> Z.testbit m i = true <-> In i l).
  { intros i Hi. rewrite Em. clear Em. induction F as [|j l Hj F IH]; cbn [fold_right In]; [rewrite Z.bits_0; split; [discriminate|tauto]|].
    rewrite Z.lor_spec, Z.pow2_bits_eqb, orb_true_iff, IH, Z.eqb_eq by lia. tauto. }
  rewrite Forall_forall in F. split.
  - intros E i Hi. apply (f_equal (fun y => Z.testbit y i)) in E. rewrite Z.land_spec in E.
    rewrite (proj2 (B i (F i Hi)) Hi), andb_true_r in E. exact E.
  - intros T. apply Z.bits_inj'. intros i Hi. rewrite Z.land_spec. destruct (Z.testbit m i) eqn:E; [|apply andb_false_r].
    rewrite (T i); [reflexivity|]. now apply B.
Qed.

(** *** Setting features one after another *)

Lemma feature_code_range F : 0 <= feature_code F < 38.
Proof. destruct F; cbn; lia. Qed.

Definition feature_word (fs : features_t) (f : Z) : Z := if f / 32 =? 0 then fst fs else snd fs.

Lemma testFeature_bit fs F : testFeature fs F = Z.testbit (feature_word fs (feature_code F)) (feature_code F mod 32).
Proof.
  unfold testFeature, feature_word. pose proof (Z.mod_pos_bound (feature_code F) 32 ltac:(lia)) as Hm.
  rewrite ushl_spec, Z.mul_1_l by lia. assert (P : is_uint 32 (2 ^ (feature_code F mod 32))) by (split; [|apply Z.pow_lt_mono_r]; pose_pow2; lia).
  rewrite !(uint_small 32) by (rewrite ?(uint_small 32); assumption). apply land_pow2_test. lia.
Qed.

Lemma setFeature_word fs F f : 0 <= f < 64 ->
  feature_word (setFeature fs F) f = if f / 32 =? feature_code F / 32 then feature_word fs f .| 2 ^ (feature_code F mod 32) else feature_word fs f.
Proof.
  intros Hf. unfold setFeature, feature_word. pose proof (feature_code_range F) as RF. pose proof (Z.mod_pos_bound (feature_code F) 32 ltac:(lia)) as Hm.
  rewrite ushl_spec, Z.mul_1_l by lia. assert (P : is_uint 32 (2 ^ (feature_code F mod 32))) by (split; [|apply Z.pow_lt_mono_r]; pose_pow2; lia).
  rewrite (uint_small 32) by exact P. pose proof (Z.div_mod f 32 ltac:(lia)). pose proof (Z.mod_pos_bound f 32 ltac:(lia)).
  pose proof (Z.div_mod (feature_code F) 32 ltac:(lia)).
  destruct (Z.eqb_spec (feature_code F / 32) 0), (Z.eqb_spec (f / 32) 0), (Z.eqb_spec (f / 32) (feature_code F / 32)); cbn [fst snd]; try lia; reflexivity.
Qed.

Definition same_feature (F F' : ProcessorFeatures) : bool := feature_code F =? feature_code F'.

Lemma test_set_if c F fs F' : testFeature (set_if c F fs) F' = (c && same_feature F F') || testFeature fs F'.
Proof.
  destruct c; [|reflexivity]. cbn [set_if andb]. rewrite !testFeature_bit. pose proof (feature_code_range F) as R. pose proof (feature_code_range F') as R'.
  rewrite setFeature_word by lia. unfold same_feature. set (f := feature_code F) in *. set (f' := feature_code F') in *.
  pose proof (Z.div_mod f 32 ltac:(lia)). pose proof (Z.mod_pos_bound f 32 ltac:(lia)).
  pose proof (Z.div_mod f' 32 ltac:(lia)). pose proof (Z.mod_pos_bound f' 32 ltac:(lia)).
  destruct (Z.eqb_spec (f' / 32) (f / 32)) as [E|E].
  - rewrite Z.lor_spec, Z.pow2_bits_eqb, orb_comm by lia. f_equal. same_test.
  - destruct (Z.eqb_spec f f'); [exfalso; apply E; congruence|reflexivity].
Qed.

Lemma set_if_range c F fs : is_uint 32 (fst fs) -> is_uint 6 (snd fs) -> is_uint 32 (fst (set_if c F fs)) /\ is_uint 6 (snd (set_if c F fs)).
Proof.
  intros H1 H2. destruct c; [|split; assumption]. cbn [set_if]. unfold setFeature. pose proof (feature_code_range F) as R.
  pose proof (Z.div_mod (feature_code F) 32 ltac:(lia)). pose proof (Z.mod_pos_bound (feature_code F) 32 ltac:(lia)).
  rewrite ushl_spec, Z.mul_1_l by lia. assert (P : is_uint 32 (2 ^ (feature_code F mod 32))) by (split; [|apply Z.pow_lt_mono_r]; pose_pow2; lia).
  rewrite (uint_small 32) by exact P. destruct (Z.eqb_spec (feature_code F / 32) 0); cbn [fst snd]; (split; [|assumption] || (split; [assumption|]));
    apply lor_lt_pow2; try assumption; try lia. split; [apply Z.pow_nonneg; lia|apply Z.pow_lt_mono_r; lia].
Qed.

(** The tests of the code are those of the table. *)
Lemma HasAVX_spec xgetbv ECX : HasAVX xgetbv ECX = os_saves xgetbv ECX needs_avx.
Proof.
  unfold HasAVX, getX86XCR0, os_saves. rewrite (mask_test ECX AVXBits [27; 28]) by (solve [reflexivity | repeat constructor; lia]).
  rewrite (mask_test (fst xgetbv) 6 [1; 2]) by (solve [reflexivity | repeat constructor; lia]). cbn [forallb]. now rewrite !andb_true_r, !andb_assoc.
Qed.

Lemma HasAVX512Save_spec xgetbv ECX : HasAVX512Save xgetbv ECX = os_saves xgetbv ECX needs_avx512.
Proof.
  unfold HasAVX512Save. rewrite HasAVX_spec. unfold getX86XCR0, os_saves. rewrite (mask_test (fst xgetbv) 0xe0 [5; 6; 7]) by (solve [reflexivity | repeat constructor; lia]).
  cbn [forallb]. now rewrite !andb_true_r, !andb_assoc.
Qed.

Lemma os_avx_implies_bit xgetbv ECX : os_saves xgetbv ECX needs_avx = Z.testbit ECX 28 && os_saves xgetbv ECX needs_avx.
Proof. unfold os_saves. destruct (Z.testbit ECX 28); [reflexivity|]. now rewrite andb_false_r. Qed.

Lemma features_spec cpuid ecx_in xgetbv ECX EDX MaxLeaf F :
  testFeature (getAvailableFeatures cpuid ecx_in xgetbv ECX EDX MaxLeaf (0, 0)) F =
    if unchecked F then reported cpuid ecx_in ECX EDX MaxLeaf F else has_feature cpuid ecx_in xgetbv ECX EDX MaxLeaf F.
Proof.
  unfold getAvailableFeatures, leaf1_features, leaf7_features, getX86CpuIDAndInfoEx, getX86CpuIDAndInfo. rewrite HasAVX_spec, HasAVX512Save_spec.
  destruct (cpuid 7 0) as [a7 b7 c7 d7] eqn:E7. cbv zeta. rewrite !test_set_if, !bit_testbit, !Z.geb_leb by lia.
  assert (T0 : testFeature (0, 0) F = false) by (destruct F; reflexivity). rewrite T0, orb_false_r. clear T0.
  unfold has_feature, reported, source_value, source_present. rewrite E7. cbn [rEBX rECX rEDX].
  destruct F; unfold same_feature; cbn [feature_code feature_bit unchecked snd]; cbn [Z.eqb Pos.eqb];
    rewrite ?andb_false_r, ?orb_false_l, ?orb_false_r, ?andb_true_r; cbn [os_saves]; rewrite ?andb_true_r; try reflexivity.
  cbn [andb]. apply os_avx_implies_bit.
Qed.

Definition features_ok (fs : features_t) : Prop := is_uint 32 (fst fs) /\ is_uint 6 (snd fs).

Lemma set_if_ok c F fs : features_ok fs -> features_ok (set_if c F fs).
Proof. intros []. now apply set_if_range. Qed.

Lemma features_range cpuid ecx_in xgetbv ECX EDX MaxLeaf : features_ok (getAvailableFeatures cpuid ecx_in xgetbv ECX EDX MaxLeaf (0, 0)).
Proof.
  unfold getAvailableFeatures, leaf1_features, leaf7_features. destruct (getX86CpuIDAndInfoEx cpuid 7 0). cbv zeta.
  repeat apply set_if_ok. split; unfold is_uint; cbn; lia.
Qed.

(** ** Theorems *)

(** C26: The two feature words are exact but for one missing check: for every
    feature but FMA, FMA4 and XOP its bit is set if and only if the leaf that
    reports it exists, CPUID reports it there, and the operating system saves
    the registers the feature uses; those three are set by CPUID alone, even
    where the YMM registers they use are not saved.  So no usable feature is
    missed; no feature overwrites another, and no other bit is set. *)
Theorem features_exact cpuid ecx_in xgetbv ECX EDX MaxLeaf :
  let fs := getAvailableFeatures cpuid ecx_in xgetbv ECX EDX MaxLeaf (0, 0) in
  (forall F, testFeature fs F = if unchecked F then reported cpuid ecx_in ECX EDX MaxLeaf F else has_feature cpuid ecx_in xgetbv ECX EDX MaxLeaf F) /\
  (forall F, implb (has_feature cpuid ecx_in xgetbv ECX EDX MaxLeaf F) (testFeature fs F) = true) /\
  is_uint 32 (fst fs) /\ 0 <= snd fs < 2 ^ (CPU_FEATURE_MAX - 32).
Proof.
  split; [intros F; apply features_spec|]. split; [|apply features_range]. intros F. rewrite features_spec. unfold has_feature.
  destruct (unchecked F), (reported cpuid ecx_in ECX EDX MaxLeaf F), (os_saves _ _ _); reflexivity.
Qed.

(** A processor with FMA and AVX under a system that saves neither. *)
Lemma features_exact_witness : let cpuid := fun _ _ => mkCpuid 0 0 0 0 in let ECX := 0x10001000 in
  has_feature cpuid 0 (0, 0) ECX 0 1 FEATURE_FMA = false /\
  testFeature (getAvailableFeatures cpuid 0 (0, 0) ECX 0 1 (0, 0)) FEATURE_FMA = true /\
  testFeature (getAvailableFeatures cpuid 0 (0, 0) ECX 0 1 (0, 0)) FEATURE_AVX = false.
Proof.
  cbv zeta. destruct (features_exact (fun _ _ => mkCpuid 0 0 0 0) 0 (0, 0) 0x10001000 0 1) as [E _].
  split; [reflexivity|]. split; rewrite E; reflexivity.
Defined.

(** The features whose instructions use the YMM or ZMM registers. *)
Definition uses_ymm (F : ProcessorFeatures) : bool :=
  match F with
  | FEATURE_AVX | FEATURE_AVX2 | FEATURE_VPCLMULQDQ | FEATURE_FMA | FEATURE_FMA4 | FEATURE_XOP => true
  | _ => false
  end.
Definition uses_zmm (F : ProcessorFeatures) : bool :=
  match F with
  | FEATURE_AVX512F | FEATURE_AVX512VL | FEATURE_AVX512BW | FEATURE_AVX512DQ | FEATURE_AVX512CD | FEATURE_AVX512ER
  | FEATURE_AVX512PF | FEATURE_AVX512VBMI | FEATURE_AVX512IFMA | FEATURE_AVX5124VNNIW | FEATURE_AVX5124FMAPS
  | FEATURE_AVX512VPOPCNTDQ | FEATURE_AVX512VBMI2 | FEATURE_AVX512VNNI | FEATURE_AVX512BITALG | FEATURE_AVX512BF16
  | FEATURE_AVX512VP2INTERSECT => true
  | _ => false
  end.

(** A feature that uses the wide registers is only reported when the
    operating system saves them: with any AVX-512 feature, XCR0 enables the
    ZMM and mask state, and with AVX, AVX2 or VPCLMULQDQ the YMM state, and
    CPUID reports OSXSAVE and AVX.  FMA, FMA4 and XOP are the exception: they
    are reported by their CPUID bit alone, even with the YMM state disabled. *)
Theorem vector_features_gated cpuid ecx_in xgetbv ECX EDX MaxLeaf F :
  let fs := getAvailableFeatures cpuid ecx_in xgetbv ECX EDX MaxLeaf (0, 0) in
  (testFeature fs F = true -> uses_zmm F = true ->
     Forall (fun i => Z.testbit (fst xgetbv) i = true) [1; 2; 5; 6; 7] /\ Z.testbit ECX 27 = true /\ Z.testbit ECX 28 = true) /\
  (testFeature fs F = true -> uses_ymm F = true -> ~ In F [FEATURE_FMA; FEATURE_FMA4; FEATURE_XOP] ->
     Forall (fun i => Z.testbit (fst xgetbv) i = true) [1; 2] /\ Z.testbit ECX 27 = true /\ Z.testbit ECX 28 = true) /\
  testFeature fs FEATURE_FMA = Z.testbit ECX 12.
Proof.
  cbv zeta. rewrite !features_spec. unfold has_feature, reported. split; [|split].
  - destruct F; cbn [feature_bit unchecked uses_zmm snd]; intros H U; try discriminate; apply andb_true_iff in H as [_ H]; unfold os_saves in H;
      rewrite !andb_true_iff in H; repeat constructor; tauto.
  - destruct F; cbn [feature_bit unchecked uses_ymm snd In]; intros H U N; try discriminate; try tauto; apply andb_true_iff in H as [_ H];
      unfold os_saves in H; rewrite !andb_true_iff in H; repeat constructor; tauto.
  - reflexivity.
Qed.

(** An AVX-512 processor whose system saves everything. *)
Definition demo_cpuid (leaf sub : Z) : cpuid_regs :=
  if leaf =? 0 then mkCpuid 0x16 SIG_INTEL 0x6c65746e 0x49656e69
  else if leaf =? 1 then mkCpuid 0x50654 0 0x1c001000 0
  else if leaf =? 7 then mkCpuid 0 0x10000 0 0 else mkCpuid 0 0 0 0.

Lemma vector_features_gated_witness :
  let fs := getAvailableFeatures demo_cpuid 0 (0xe7, 0) 0x1c001000 0 0x16 (0, 0) in
  testFeature fs FEATURE_AVX512F = true /\ Forall (fun i => Z.testbit 0xe7 i = true) [1; 2; 5; 6; 7].
Proof.
  split; [vm_compute; reflexivity|].
  apply (vector_features_gated demo_cpuid 0 (0xe7, 0) 0x1c001000 0 0x16 FEATURE_AVX512F); vm_compute; reflexivity.
Defined.

(** *** Initialisation *)

Definition subtype_type (s : ProcessorSubtypes) : ProcessorTypes :=
  match s with
  | AMDFAM10H_BARCELONA | AMDFAM10H_SHANGHAI | AMDFAM10H_ISTANBUL => AMDFAM10H
  | AMDFAM15H_BDVER1 | AMDFAM15H_BDVER2 | AMDFAM15H_BDVER3 | AMDFAM15H_BDVER4 => AMDFAM15H
  | AMDFAM17H_ZNVER1 | AMDFAM17H_ZNVER2 => AMDFAM17H
  | AMDFAM19H_ZNVER3 => AMDFAM19H
  | _ => INTEL_COREI7
  end.

(** The type is unknown or an enumerator; a subtype belongs to its type. *)
Definition consistent (ts : Z * Z) : Prop :=
  (fst ts = 0 \/ exists T, fst ts = type_code T) /\
  (snd ts = 0 \/ exists S, snd ts = subtype_code S /\ fst ts = type_code (subtype_type S)).

Lemma consistent_none : consistent (0, 0).
Proof. split; left; reflexivity. Qed.
Lemma consistent_type T : consistent (type_code T, snd (0, 0)).
Proof. split; [right; now exists T|left; reflexivity]. Qed.
Lemma consistent_both T S : T = subtype_type S -> consistent (type_code T, subtype_code S).
Proof. intros ->. split; right; [now exists (subtype_type S)|now exists S]. Qed.
#[local] Hint Resolve consistent_none consistent_type : core.
#[local] Hint Extern 1 (consistent (_, subtype_code _)) => apply consistent_both; reflexivity : core.

Lemma intel_consistent Family Model fs : consistent (getIntelProcessorTypeAndSubtype Family Model fs (0, 0)).
Proof.
  unfold getIntelProcessorTypeAndSubtype, intel_low_power.
  repeat (match goal with |- consistent (match ?x with _ => _ end) => destruct x end; auto).
  repeat match goal with |- context [if ?b then _ else _] => destruct b end; auto.
Qed.

Lemma amd_consistent Family Model fs : consistent (getAMDProcessorTypeAndSubtype Family Model fs (0, 0)).
Proof.
  unfold getAMDProcessorTypeAndSubtype.
  repeat (match goal with |- consistent (match ?x with _ => _ end) => destruct x end; auto);
  repeat match goal with
  | |- context [if ?b then _ else _] => destruct b
  | |- consistent (_, match ?x with _ => _ end) => destruct x
  end; auto.
Qed.

Lemma consistent_bounds ts : consistent ts -> 0 <= fst ts < CPU_TYPE_MAX /\ 0 <= snd ts < CPU_SUBTYPE_MAX.
Proof.
  unfold CPU_TYPE_MAX, CPU_SUBTYPE_MAX. intros [[->|[T ->]] [->|[S [-> _]]]]; split; try lia; try (destruct T; cbn; lia); destruct S; cbn; lia.
Qed.

(** [__cpu_indicator_init] on the zeroed model never fails its assertions,
    whatever the processor answers: the vendor becomes known, the type is an
    enumerator (or unknown) and a subtype belongs to its type; without CPUID
    leaf 1 it reports an unknown vendor and -1.  Running it again changes
    nothing and returns 0. *)
Theorem cpu_init_once cpuid ecx_in xgetbv :
  exists r m, __cpu_indicator_init cpuid ecx_in xgetbv zero_model = Some (r, m) /\
    1 <= __cpu_vendor m <= VENDOR_OTHER /\ consistent (__cpu_type m, __cpu_subtype m) /\
    (r = if rEAX (cpuid 0 ecx_in) <? 1 then -1 else 0) /\ (r = -1 -> m = mkModel VENDOR_OTHER 0 0 0 0) /\
    __cpu_indicator_init cpuid ecx_in xgetbv m = Some (0, m).
Proof.
  unfold __cpu_indicator_init at 1. cbn [zero_model __cpu_vendor __cpu_type __cpu_subtype __cpu_features __cpu_features2].
  change (nonzero 0) with false. cbn [isCpuIdSupported negb orb]. unfold getX86CpuIDAndInfo.
  assert (Again : forall m, 1 <= __cpu_vendor m <= VENDOR_OTHER -> __cpu_indicator_init cpuid ecx_in xgetbv m = Some (0, m)).
  { intros m Hm. unfold __cpu_indicator_init, nonzero. destruct (Z.eqb_spec (__cpu_vendor m) 0); [lia|reflexivity]. }
  destruct (rEAX (cpuid 0 ecx_in) <? 1) eqn:L.
  - eexists _, _. split; [reflexivity|]. cbn. split; [unfold VENDOR_OTHER; lia|]. repeat (split; [auto|]). reflexivity.
  - destruct (detectX86FamilyModel (rEAX (cpuid 1 ecx_in))) as [Family Model].
    set (fs := getAvailableFeatures _ _ _ _ _ _ _).
    set (c := if rEBX (cpuid 0 ecx_in) =? SIG_INTEL then _ else _).
    assert (Hc : 1 <= fst c <= VENDOR_OTHER /\ consistent (snd c)).
    { unfold c, VENDOR_OTHER, VENDOR_INTEL, VENDOR_AMD. repeat case_cmp; cbn [fst snd]; (split; [lia|]); auto using intel_consistent, amd_consistent. }
    destruct c as [v [ty sub]]. cbn [fst snd] in Hc. destruct Hc as [Hv Hc]. pose proof (consistent_bounds _ Hc) as [Bt Bs]. cbn [fst snd] in *.
    assert (A : (v <? VENDOR_MAX) && (ty <? CPU_TYPE_MAX) && (sub <? CPU_SUBTYPE_MAX) = true).
    { rewrite !andb_true_iff, !Z.ltb_lt. unfold VENDOR_MAX, VENDOR_OTHER in *. lia. }
    rewrite A. eexists _, _. split; [reflexivity|]. cbn [__cpu_vendor __cpu_type __cpu_subtype]. repeat (split; [assumption || reflexivity|]).
    split; [discriminate|]. apply Again. exact Hv.
Qed.
