(* ===== verification/Emutls.v ===== *)
(** * Emulated thread-local storage

    Models [emutls.c] (the pthread build without [posix_memalign]): the
    aligned allocator, the per-thread address arrays, the assignment of
    indices to TLS variables under a double-checked lock, the thread
    destructor, and [__emutls_get_address] as the steps the threads of a
    process interleave.  [malloc] and [realloc] return what the allocator
    chooses: 0, or the address of a block that overlaps no live one. *)

From S2P Require Import Prelude.

Definition sizeof_ptr : Z := 8.
(** [sizeof (emutls_address_array)]: two words, the flexible array excluded. *)
Definition sizeof_array : Z := 16.
Definition EMUTLS_SKIP_DESTRUCTOR_ROUNDS : Z := 0.

(** ** Data *)

(** [value] is the initial image, [None] for a null pointer; the field
    [object.index] changes and is part of the state below. *)
Record __emutls_control := mkControl { csize : Z; calign : Z; cvalue : option (list Z) }.

(** The array, with the address [malloc] gave it. *)
Record emutls_address_array := mkArray { abase : Z; skip_destructor_rounds : Z; asize : Z; adata : list Z }.

(** ** Allocation *)

(** The address [emutls_memalign_alloc] returns for the block at [object]
    ([None]: abort), and what it asks [malloc] for.  It stores [object] in
    the word below the address it returns. *)
Definition EXTRA_ALIGN_PTR_BYTES (align : Z) : Z := (align -[64] 1) +[64] sizeof_ptr.
Definition memalign_request (align size : Z) : Z := EXTRA_ALIGN_PTR_BYTES align +[64] size.
Definition emutls_memalign_alloc (align size object : Z) : option Z :=
  if object =? 0 then None
  else Some ((object +[64] EXTRA_ALIGN_PTR_BYTES align) .& unot 64 (align -[64] 1)).

(** The pointer passed to [free]: the word below the object, where
    [emutls_memalign_alloc] stored what [malloc] returned. *)
Definition emutls_memalign_free (word_at : Z -> Z) (base : Z) : Z := word_at (base -[64] sizeof_ptr).

Definition object_align (c : __emutls_control) : Z := if calign c <? sizeof_ptr then sizeof_ptr else calign c.
Definition object_image (c : __emutls_control) : list Z :=
  match cvalue c with Some v => firstn (Z.to_nat (csize c)) v | None => repeat 0 (Z.to_nat (csize c)) end.

(** The new object and its first contents. *)
Definition emutls_allocate_object (c : __emutls_control) (object : Z) : option (Z * list Z) :=
  let align := object_align c in
  if nonzero (align .& (align -[64] 1)) then None
  else let? base := emutls_memalign_alloc align (csize c) object in Some (base, object_image c).

(** ** The address array of a thread *)

Definition emutls_new_data_array_size (index : Z) : Z :=
  let header_words := sizeof_array / sizeof_ptr in
  ((index +[64] header_words +[64] 15) .& unot 64 15) -[64] header_words.

Definition emutls_asize (N : Z) : Z := N *[64] sizeof_ptr +[64] sizeof_array.

Definition emutls_check_array_set_size (array : option emutls_address_array) (size : Z) : option emutls_address_array :=
  let? array := array in Some (mkArray (abase array) (skip_destructor_rounds array) size (adata array)).

(** [p] is what [malloc] or [realloc] returns; [realloc] keeps the contents. *)
Definition emutls_get_address_array (array : option emutls_address_array) (index p : Z) : option emutls_address_array :=
  match array with
  | None =>
      let new_size := emutls_new_data_array_size index in
      let array := if p =? 0 then None
                   else Some (mkArray p EMUTLS_SKIP_DESTRUCTOR_ROUNDS 0 (repeat 0 (Z.to_nat new_size))) in
      emutls_check_array_set_size array new_size
  | Some a =>
      if index >? asize a then
        let orig_size := asize a in
        let new_size := emutls_new_data_array_size index in
        let array := if p =? 0 then None
                     else Some (mkArray p (skip_destructor_rounds a) orig_size
                                  (adata a ++ repeat 0 (Z.to_nat (new_size - orig_size)))) in
        emutls_check_array_set_size array new_size
      else Some a
  end.

(** The pointers [emutls_shutdown] frees, in order: the objects in use. *)
Definition emutls_shutdown (word_at : Z -> Z) (array : emutls_address_array) : list Z :=
  map (emutls_memalign_free word_at) (filter nonzero (firstn (Z.to_nat (asize array)) (adata array))).

(** One round of the destructor: the array kept for another round, or what is freed. *)
Definition emutls_key_destructor (word_at : Z -> Z) (array : emutls_address_array) : emutls_address_array + list Z :=
  if skip_destructor_rounds array >? 0
  then inl (mkArray (abase array) (skip_destructor_rounds array -[64] 1) (asize array) (adata array))
  else inr (emutls_shutdown word_at array ++ [abase array]).

(** ** Threads

    Where a thread stands in [__emutls_get_address]: the unlocked load of the
    index, the critical section of [emutls_get_index], then the thread's own
    array.  [Done] holds the address to return. *)

Inductive pc :=
| Idle | Load (c : nat) | Init (c : nat) | Lock (c : nat) | ReRead (c : nat) | Assign (c : nat)
| Unlock (c : nat) (index : Z) | GetArray (c : nat) (index : Z) | GetObject (c : nat) (index : Z) | Done (c : nat) (addr : Z)
| Aborted.

(** A live block of the heap, with what it holds. *)
Inductive owner := ArrayOf (t : nat) | ObjectOf (t : nat) (slot : nat).
Record block := mkBlock { baddr : Z; blen : Z; bowner : owner }.

Record process := mkProcess {
  emutls_num_object : Z;
  object_index : nat -> Z;
  emutls_mutex : option nat;
  emutls_key_created : bool;
  arrays : nat -> option emutls_address_array;
  live : list block;
  pcs : nat -> pc }.

Definition fset {A} (f : nat -> A) (k : nat) (v : A) : nat -> A := fun i => if (i =? k)%nat then v else f i.

Definition set_pc (s : process) (t : nat) (p : pc) : process :=
  mkProcess (emutls_num_object s) (object_index s) (emutls_mutex s) (emutls_key_created s) (arrays s) (live s) (fset (pcs s) t p).
Definition set_mutex (s : process) (m : option nat) : process :=
  mkProcess (emutls_num_object s) (object_index s) m (emutls_key_created s) (arrays s) (live s) (pcs s).
Definition set_heap (s : process) (t : nat) (a : emutls_address_array) (l : list block) : process :=
  mkProcess (emutls_num_object s) (object_index s) (emutls_mutex s) (emutls_key_created s) (fset (arrays s) t (Some a)) l (pcs s).
(** [index = ++emutls_num_object; control->object.index = index]. *)
Definition assign_index (s : process) (c : nat) : process :=
  let n := emutls_num_object s +[64] 1 in
  mkProcess n (fset (object_index s) c n) (emutls_mutex s) (emutls_key_created s) (arrays s) (live s) (pcs s).
Definition set_key (s : process) : process :=
  mkProcess (emutls_num_object s) (object_index s) (emutls_mutex s) true (arrays s) (live s) (pcs s).

(** [p] is 0, or the start of [n] bytes away from null and from all of [l]. *)
Definition disjoint (a b : block) : Prop := baddr a + blen a <= baddr b \/ baddr b + blen b <= baddr a.
Definition allocates (l : list block) (p n : Z) (o : owner) : Prop :=
  p = 0 \/ 0 < p /\ p + n < 2 ^ 64 /\ Forall (disjoint (mkBlock p n o)) l.
Definition is_array_of (t : nat) (b : block) : bool := match bowner b with ArrayOf t' => (t =? t')%nat | _ => false end.
(** [realloc] gives up the old block of the array. *)
Definition without_array (t : nat) (l : list block) : list block := filter (fun b => negb (is_array_of t b)) l.

(** The call needs a new or a larger array. *)
Definition grows (array : option emutls_address_array) (index : Z) : bool :=
  match array with None => true | Some a => index >? asize a end.

Section Steps.
(** The TLS variables of the program, numbered from 0. *)
Context (controls : nat -> __emutls_control) (ncontrols : nat).

(** A returned address: thread, variable, address. *)
Definition event := option (nat * nat * Z).

Inductive step : process -> event -> process -> Prop :=
| st_call s t c : pcs s t = Idle -> (c < ncontrols)%nat -> step s None (set_pc s t (Load c))
| st_load s t c : pcs s t = Load c ->
    step s None (set_pc s t (if object_index s c =? 0 then Init c else GetArray c (object_index s c)))
| st_init s t c : pcs s t = Init c -> step s None (set_pc (set_key s) t (Lock c))
| st_init_fails s t c : pcs s t = Init c -> emutls_key_created s = false -> step s None (set_pc s t Aborted)
| st_lock s t c : pcs s t = Lock c -> emutls_mutex s = None -> step s None (set_pc (set_mutex s (Some t)) t (ReRead c))
| st_reread s t c : pcs s t = ReRead c ->
    step s None (set_pc s t (if object_index s c =? 0 then Assign c else Unlock c (object_index s c)))
| st_assign s t c : pcs s t = Assign c ->
    step s None (set_pc (assign_index s c) t (Unlock c (emutls_num_object s +[64] 1)))
| st_unlock s t c i : pcs s t = Unlock c i -> step s None (set_pc (set_mutex s None) t (GetArray c i))
| st_array s t c i p a : pcs s t = GetArray c i ->
    (let l := without_array t (live s) in let n := emutls_asize (emutls_new_data_array_size i) in
     grows (arrays s t) i = true -> allocates l p n (ArrayOf t)) ->
    emutls_get_address_array (arrays s t) i p = Some a ->
    step s None (set_pc (set_heap s t a (if grows (arrays s t) i
      then mkBlock p (emutls_asize (emutls_new_data_array_size i)) (ArrayOf t) :: without_array t (live s) else live s)) t (GetObject c (i - 1)))
| st_array_fails s t c i p : pcs s t = GetArray c i -> emutls_get_address_array (arrays s t) i p = None -> step s None (set_pc s t Aborted)
| st_object s t c k a : pcs s t = GetObject c k -> arrays s t = Some a -> nth (Z.to_nat k) (adata a) 0 <> 0 ->
    step s None (set_pc s t (Done c (nth (Z.to_nat k) (adata a) 0)))
| st_object_new s t c k a p base image : pcs s t = GetObject c k -> arrays s t = Some a -> nth (Z.to_nat k) (adata a) 0 = 0 ->
    let n := memalign_request (object_align (controls c)) (csize (controls c)) in
    allocates (live s) p n (ObjectOf t (Z.to_nat k)) -> emutls_allocate_object (controls c) p = Some (base, image) ->
    step s None (set_pc (set_heap s t (mkArray (abase a) (skip_destructor_rounds a) (asize a) (store (adata a) (Z.to_nat k) base))
      (mkBlock p n (ObjectOf t (Z.to_nat k)) :: live s)) t (Done c base))
| st_object_fails s t c k a p : pcs s t = GetObject c k -> arrays s t = Some a -> nth (Z.to_nat k) (adata a) 0 = 0 ->
    emutls_allocate_object (controls c) p = None -> step s None (set_pc s t Aborted)
| st_return s t c addr : pcs s t = Done c addr -> step s (Some (t, c, addr)) (set_pc s t Idle).

Inductive steps : process -> list (nat * nat * Z) -> process -> Prop :=
| steps_nil s : steps s [] s
| steps_snoc s evs s1 e s2 : steps s evs s1 -> step s1 e s2 ->
    steps s (evs ++ match e with Some x => [x] | None => [] end) s2.
End Steps.

Definition initial_process : process := mkProcess 0 (fun _ => 0) None false (fun _ => None) [] (fun _ => Idle).

(** ** Allocation *)

(** What the compiler emits for a TLS variable. *)
Definition control_ok (c : __emutls_control) : Prop :=
  0 <= csize c /\ 0 <= calign c /\ csize c + calign c + 16 < 2 ^ 64 /\
  match cvalue c with Some v => csize c <= Z.of_nat (length v) | None => True end.

Lemma object_align_range c : control_ok c -> 8 <= object_align c /\ object_align c + csize c + 8 < 2 ^ 64.
Proof. intros (H1 & H2 & H3 & _). unfold object_align, sizeof_ptr. case_cmp; lia. Qed.

Lemma request_exact c : control_ok c -> memalign_request (object_align c) (csize c) = object_align c + 7 + csize c.
Proof.
  intros H. pose proof (object_align_range c H). destruct H as (? & _). unfold memalign_request, EXTRA_ALIGN_PTR_BYTES, sizeof_ptr, uadd, usub.
  rewrite !(uint_small 64) by (rewrite ?(uint_small 64); unfold is_uint; rewrite ?(uint_small 64); unfold is_uint; lia). lia.
Qed.

(** Clearing the low bits of an address. *)
Lemma align_down x k : 0 <= k <= 64 -> is_uint 64 x -> x .& unot 64 (2 ^ k - 1) = x / 2 ^ k * 2 ^ k.
Proof.
  intros Hk Hx. pose proof (pow2_pos k ltac:(lia)). assert (E : unot 64 (2 ^ k - 1) = (2 ^ (64 - k) - 1) * 2 ^ k).
  { pose proof (pow2_pos (64 - k) ltac:(lia)). pose proof (pow2_split (64 - k) k ltac:(lia) ltac:(lia)) as P.
    replace (64 - k + k) with 64 in P by lia. unfold unot. apply uint_of_eqm; [unfold is_uint; nia|].
    replace ((2 ^ (64 - k) - 1) * 2 ^ k) with (Z.lnot (2 ^ k - 1) + 1 * 2 ^ 64) by (unfold Z.lnot; lia).
    rewrite eqm_mul_pow. now rewrite Z.add_0_r. }
  rewrite E, land_field by lia. rewrite Z.mod_small; [reflexivity|]. unfold is_uint in Hx. split; [apply Z.div_pos; lia|].
  apply Z.div_lt_upper_bound; [lia|]. rewrite <- Z.pow_add_r by lia. replace (k + (64 - k)) with 64 by lia. lia.
Qed.

(** The object lies inside its block, above the word that keeps the block's address. *)
Lemma allocate_object_spec c p base image : control_ok c -> 0 < p -> p + memalign_request (object_align c) (csize c) < 2 ^ 64 ->
  emutls_allocate_object c p = Some (base, image) ->
  base mod object_align c = 0 /\ p + 8 <= base /\ base + csize c <= p + memalign_request (object_align c) (csize c) /\
  image = object_image c /\ length image = Z.to_nat (csize c).
Proof.
  intros Hc Hp Hq H. pose proof (object_align_range c Hc) as [Ha Hb]. rewrite request_exact in * by exact Hc.
  unfold emutls_allocate_object in H. set (A := object_align c) in *. cbv zeta in H.
  assert (E1 : A -[64] 1 = A - 1) by (apply uint_small; unfold is_uint; destruct Hc; lia). rewrite E1 in H.
  destruct (nonzero (A .& (A - 1))) eqn:N; [discriminate|]. unfold nonzero in N. apply negb_false_iff, Z.eqb_eq in N.
  pose proof (pow2_test A ltac:(lia) N) as PA. set (k := ctz A) in *.
  assert (Hk : 0 <= k <= 64).
  { split; [destruct (Z.ltb_spec k 0); [rewrite Z.pow_neg_r in PA; lia|lia]|]. destruct (Z.leb_spec k 64); [lia|].
    assert (2 ^ 64 < 2 ^ k) by (apply Z.pow_lt_mono_r; lia). destruct Hc. lia. }
  unfold emutls_memalign_alloc in H. destruct (Z.eqb_spec p 0); [lia|]. cbn [obind] in H. injection H as <- <-.
  assert (E2 : EXTRA_ALIGN_PTR_BYTES A = A + 7)
    by (unfold EXTRA_ALIGN_PTR_BYTES; rewrite E1; unfold uadd, sizeof_ptr; rewrite uint_small; unfold is_uint; destruct Hc; lia).
  assert (E3 : p +[64] (A + 7) = p + (A + 7)) by (apply uint_small; unfold is_uint; destruct Hc; lia).
  rewrite E1, E2, E3. replace (A - 1) with (2 ^ k - 1) by lia. rewrite align_down by (unfold is_uint; destruct Hc; lia). rewrite <- PA.
  pose proof (Z.div_mod (p + (A + 7)) A ltac:(lia)). pose proof (Z.mod_pos_bound (p + (A + 7)) A ltac:(lia)).
  split; [apply Z_mod_mult|]. split; [lia|]. split; [lia|]. split; [reflexivity|].
  unfold object_image. destruct Hc as (C1 & _ & _ & C4). destruct (cvalue c); [rewrite length_firstn|rewrite repeat_length]; lia.
Qed.

Lemma new_size_spec index : 0 <= index < 2 ^ 59 -> let n := emutls_new_data_array_size index in
  index <= n < index + 16 /\ (n + 2) mod 16 = 0 /\ emutls_asize n = 8 * n + 16.
Proof.
  intros Hi. unfold emutls_new_data_array_size, emutls_asize, sizeof_array, sizeof_ptr. change (16 / 8) with 2. cbv zeta.
  assert (E : index +[64] 2 +[64] 15 = index + 17) by (unfold uadd; rewrite !(uint_small 64); unfold is_uint; rewrite ?(uint_small 64); unfold is_uint; lia).
  rewrite E. change (unot 64 15) with (unot 64 (2 ^ 4 - 1)). rewrite align_down by (unfold is_uint; lia). change (2 ^ 4) with 16.
  pose proof (Z.div_mod (index + 17) 16 ltac:(lia)). pose proof (Z.mod_pos_bound (index + 17) 16 ltac:(lia)).
  set (q := (index + 17) / 16) in *. unfold usub, umul, uadd. rewrite (uint_small 64 (q * 16 - 2)) by (unfold is_uint; lia).
  split; [lia|]. split; [replace (q * 16 - 2 + 2) with (q * 16) by lia; apply Z_mod_mult|].
  rewrite !(uint_small 64); unfold is_uint; rewrite ?(uint_small 64); unfold is_uint; lia.
Qed.

(** ** The invariant of the process *)

Lemma fset_same {A} (f : nat -> A) k v : fset f k v k = v.
Proof. unfold fset. now rewrite Nat.eqb_refl. Qed.

Lemma fset_other {A} (f : nat -> A) k v i : i <> k -> fset f k v i = f i.
Proof. intros H. unfold fset. destruct (Nat.eqb_spec i k); [contradiction|reflexivity]. Qed.

Section Invariant.
Context (controls : nat -> __emutls_control) (ncontrols : nat).
Context (Hcontrols : forall c, (c < ncontrols)%nat -> control_ok (controls c)) (Hn : Z.of_nat ncontrols < 2 ^ 59).

Definition critical (p : pc) : Prop := match p with ReRead _ | Assign _ | Unlock _ _ => True | _ => False end.

(** The variables that have an index. *)
Definition indexed (ix : nat -> Z) : nat := length (filter (fun c => nonzero (ix c)) (seq 0 ncontrols)).

(** Slot [index - 1] of the thread's array holds the (non-null) address. *)
Definition holds (s : process) (t c : nat) (addr : Z) : Prop :=
  object_index s c <> 0 /\ exists a, arrays s t = Some a /\ nth (Z.to_nat (object_index s c - 1)) (adata a) 0 = addr /\ addr <> 0.

Definition pc_ok (s : process) (t : nat) (p : pc) : Prop :=
  match p with
  | Idle | Aborted => True
  | Load c | Init c | Lock c | ReRead c => (c < ncontrols)%nat
  | Assign c => (c < ncontrols)%nat /\ object_index s c = 0
  | Unlock c i | GetArray c i => (c < ncontrols)%nat /\ object_index s c = i /\ i <> 0
  | GetObject c k => (c < ncontrols)%nat /\ object_index s c = k + 1 /\ k + 1 <> 0 /\ exists a, arrays s t = Some a /\ k < asize a
  | Done c addr => holds s t c addr
  end.

(** Every object of a thread is in a block of its own. *)
Definition in_block (b : block) (addr : Z) : Prop := baddr b + 8 <= addr <= baddr b + blen b.
Definition array_ok (s : process) (t : nat) (a : emutls_address_array) : Prop :=
  0 <= asize a /\ length (adata a) = Z.to_nat (asize a) /\
  forall k, nth k (adata a) 0 <> 0 -> exists b, In b (live s) /\ bowner b = ObjectOf t k /\ in_block b (nth k (adata a) 0).

Record inv (s : process) : Prop := {
  inv_mutex : forall t, critical (pcs s t) -> emutls_mutex s = Some t;
  inv_num : emutls_num_object s = Z.of_nat (indexed (object_index s));
  inv_range : forall c, 0 <= object_index s c <= emutls_num_object s /\ (object_index s c <> 0 -> (c < ncontrols)%nat);
  inv_inj : forall c c', object_index s c <> 0 -> object_index s c = object_index s c' -> c = c';
  inv_pc : forall t, pc_ok s t (pcs s t);
  inv_array : forall t a, arrays s t = Some a -> array_ok s t a;
  inv_live : forall b b', In b (live s) -> In b' (live s) -> b = b' \/ disjoint b b' }.

Lemma initial_inv : inv initial_process.
Proof.
  constructor; cbn; try tauto; try discriminate.
  - unfold indexed. induction (seq 0 ncontrols); [reflexivity|]. cbn. assumption.
  - intros; split; [lia|intros []; reflexivity].
Qed.

(** Addresses identify thread and variable. *)
Lemma holds_unique s t c a t' c' a' : inv s -> holds s t c a -> holds s t' c' a' -> (t = t' /\ c = c') <-> a = a'.
Proof.
  intros I (N & arr & Ea & Ev & Na) (N' & arr' & Ea' & Ev' & Na'). split.
  - intros [<- <-]. rewrite Ea in Ea'. injection Ea' as <-. congruence.
  - intros ->. destruct (inv_array s I t arr Ea) as (_ & _ & B). destruct (inv_array s I t' arr' Ea') as (_ & _ & B').
    destruct (B _ ltac:(now rewrite Ev)) as (b & Ib & Ob & Rb). destruct (B' _ ltac:(now rewrite Ev')) as (b' & Ib' & Ob' & Rb').
    rewrite Ev in Rb. rewrite Ev' in Rb'. unfold in_block in *.
    destruct (inv_live s I b b' Ib Ib') as [<-|D]; [|unfold disjoint in D; lia].
    rewrite Ob in Ob'. injection Ob' as <- K. split; [reflexivity|]. apply (inv_inj s I); [exact N|].
    pose proof (proj1 (inv_range s I c)). pose proof (proj1 (inv_range s I c')). lia.
Qed.

Lemma critical_dec p : critical p \/ ~ critical p.
Proof. destruct p; cbn; tauto. Qed.

(** A step of [t] that only moves its program counter, outside the critical
    section or within it. *)
Lemma inv_set_pc s t p : inv s -> (critical p -> emutls_mutex s = Some t) -> pc_ok s t p -> inv (set_pc s t p).
Proof.
  intros I Hc Hp. destruct I. constructor; cbn [set_pc emutls_mutex object_index emutls_num_object arrays live pcs]; auto.
  - intros t' C. destruct (Nat.eq_dec t' t) as [->|E]; [rewrite fset_same in C; auto|rewrite fset_other in C by exact E; auto].
  - intros t'. destruct (Nat.eq_dec t' t) as [->|E]; [rewrite fset_same; exact Hp|rewrite fset_other by exact E; apply inv_pc0].
Qed.

Lemma indexed_set ix c n : (c < ncontrols)%nat -> ix c = 0 -> n <> 0 -> indexed (fset ix c n) = S (indexed ix).
Proof.
  intros Hc H0 Hx. unfold indexed. assert (G : forall l, NoDup l -> In c l ->
    length (filter (fun i => nonzero (fset ix c n i)) l) = S (length (filter (fun i => nonzero (ix i)) l))).
  { induction l as [|i l IH]; intros D Hi; [destruct Hi|]. inversion D as [|? ? Ni D']; subst. cbn [filter]. destruct Hi as [->|Hi].
    - rewrite fset_same, H0. change (nonzero 0) with false. unfold nonzero at 1. destruct (Z.eqb_spec n 0); [lia|]. cbn [negb length]. do 2 f_equal.
      apply filter_ext_in. intros j Hj. rewrite fset_other; [reflexivity|]. intros ->. contradiction.
    - rewrite fset_other by (intros ->; contradiction). destruct (nonzero (ix i)); cbn [length]; now rewrite IH. }
  apply G; [apply seq_NoDup|apply in_seq; lia].
Qed.

Lemma indexed_bound ix : (indexed ix <= ncontrols)%nat.
Proof. unfold indexed. rewrite <- (length_seq ncontrols 0) at 2. apply filter_length_le. Qed.

(** The other threads do not notice a new index or a change of another
    thread's array. *)
Definition extends (t : nat) (s s' : process) : Prop :=
  (forall c, object_index s c <> 0 -> object_index s' c = object_index s c) /\ (forall t', t' <> t -> arrays s' t' = arrays s t').

Lemma pc_ok_extends t s s' t' p : extends t s s' -> t' <> t ->
  (forall c, p = Assign c -> object_index s' c = object_index s c) -> pc_ok s t' p -> pc_ok s' t' p.
Proof.
  intros [Ei Ea] Nt HA. destruct p; cbn [pc_ok]; auto.
  - intros [H1 H2]. split; [exact H1|]. now rewrite HA.
  - intros (H1 & H2 & H3). repeat split; auto. rewrite Ei; congruence.
  - intros (H1 & H2 & H3). repeat split; auto. rewrite Ei; congruence.
  - intros (H1 & H2 & H3 & H4). rewrite Ea by exact Nt. repeat split; auto. rewrite Ei; congruence.
  - intros (H1 & H2). unfold holds. rewrite Ei, Ea by assumption. auto.
Qed.

(** *** Steps *)

Lemma inv_set_mutex s m : inv s -> (forall t, critical (pcs s t) -> m = Some t) -> inv (set_mutex s m).
Proof. intros [] H. constructor; cbn [set_mutex emutls_mutex object_index emutls_num_object arrays live pcs]; auto. Qed.

Lemma inv_set_key s : inv s -> inv (set_key s).
Proof. intros []. constructor; cbn [set_key emutls_mutex object_index emutls_num_object arrays live pcs]; auto. Qed.

Lemma inv_assign s t c : inv s -> pcs s t = Assign c -> inv (set_pc (assign_index s c) t (Unlock c (emutls_num_object s +[64] 1))).
Proof.
  intros I Hp. pose proof (inv_pc s I t) as P. rewrite Hp in P. cbn [pc_ok] in P. destruct P as [Hc H0].
  pose proof (indexed_bound (object_index s)) as Bd. pose proof (inv_num s I) as En.
  assert (E1 : emutls_num_object s +[64] 1 = emutls_num_object s + 1) by (apply uint_small; unfold is_uint; lia).
  set (n := emutls_num_object s + 1) in *.
  assert (Hl : forall t', critical (pcs s t') -> t' = t).
  { intros t' C. pose proof (inv_mutex s I t' C) as M. assert (emutls_mutex s = Some t) as M' by (apply (inv_mutex s I); now rewrite Hp). congruence. }
  assert (Ex : extends t s (assign_index s c)).
  { split; [|reflexivity]. intros c' Hc'. cbn [assign_index object_index]. apply fset_other. congruence. }
  assert (Sa : forall c', object_index (assign_index s c) c' = if (c' =? c)%nat then n else object_index s c') by (intros c'; cbn [assign_index object_index]; unfold fset; now rewrite E1).
  constructor; cbn [set_pc emutls_mutex object_index emutls_num_object arrays live pcs].
  - intros t' C. cbn [assign_index emutls_mutex]. apply (inv_mutex s I). destruct (Nat.eq_dec t' t) as [->|E]; [now rewrite Hp|rewrite fset_other in C by exact E; exact C].
  - cbn [assign_index emutls_num_object object_index]. rewrite E1, indexed_set by (assumption || lia). lia.
  - intros c'. rewrite Sa. cbn [assign_index emutls_num_object]. rewrite E1. pose proof (inv_range s I c'). destruct (Nat.eqb_spec c' c) as [->|]; [split; [lia|auto]|lia].
  - intros c1 c2. rewrite !Sa. pose proof (inv_range s I c1). pose proof (inv_range s I c2).
    destruct (Nat.eqb_spec c1 c), (Nat.eqb_spec c2 c); subst; try lia. apply (inv_inj s I).
  - intros t'. destruct (Nat.eq_dec t' t) as [->|E].
    + rewrite fset_same. cbn [pc_ok]. rewrite E1. split; [exact Hc|]. change (object_index (set_pc (assign_index s c) t (Unlock c n)) c) with (object_index (assign_index s c) c).
      rewrite Sa, Nat.eqb_refl. split; [reflexivity|lia].
    + rewrite fset_other by exact E. apply (pc_ok_extends t s); [exact Ex|exact E| |apply (inv_pc s I)].
      intros c' Ec. exfalso. apply E, Hl. change (pcs (assign_index s c) t') with (pcs s t') in Ec. now rewrite Ec.
  - intros t' a Ha. apply (inv_array s I). exact Ha.
  - apply (inv_live s I).
Qed.

(** A change of the heap by thread [t]. *)
Lemma inv_heap s t a l p : inv s -> ~ critical p ->
  (forall b, In b (live s) -> is_array_of t b = false -> In b l) ->
  (forall b b', In b l -> In b' l -> b = b' \/ disjoint b b') ->
  array_ok (set_heap s t a l) t a -> pc_ok (set_heap s t a l) t p ->
  inv (set_pc (set_heap s t a l) t p).
Proof.
  intros I Hp Hl Hd Ha Ho.
  assert (Ex : extends t s (set_heap s t a l)) by (split; [reflexivity|intros t' E; apply fset_other, E]).
  constructor; cbn [set_pc set_heap emutls_mutex object_index emutls_num_object arrays live pcs]; try apply I.
  - intros t' C. destruct (Nat.eq_dec t' t) as [->|E]; [rewrite fset_same in C; contradiction|].
    rewrite fset_other in C by exact E. now apply (inv_mutex s I).
  - intros t'. destruct (Nat.eq_dec t' t) as [->|E]; [rewrite fset_same; exact Ho|]. rewrite fset_other by exact E.
    apply (pc_ok_extends t s); [exact Ex|exact E|reflexivity|apply (inv_pc s I)].
  - intros t' a' Ea. destruct (Nat.eq_dec t' t) as [->|E]; [rewrite fset_same in Ea; injection Ea as <-; exact Ha|].
    rewrite fset_other in Ea by exact E. destruct (inv_array s I t' a' Ea) as (H1 & H2 & H3). split; [exact H1|]. split; [exact H2|].
    intros k Hk. destruct (H3 k Hk) as (b & Ib & Ob & Rb). exists b. split; [|auto]. apply Hl; [exact Ib|]. unfold is_array_of. now rewrite Ob.
  - exact Hd.
Qed.

Lemma fresh_disjoint l b : Forall (disjoint b) l -> (forall x y, In x l -> In y l -> x = y \/ disjoint x y) ->
  forall x y, In x (b :: l) -> In y (b :: l) -> x = y \/ disjoint x y.
Proof.
  intros F D x y [<-|Hx] [<-|Hy]; auto; rewrite Forall_forall in F; right.
  - now apply F.
  - specialize (F x Hx). unfold disjoint in *. tauto.
Qed.

Lemma without_array_in t l b : In b (without_array t l) <-> In b l /\ is_array_of t b = false.
Proof. unfold without_array. rewrite filter_In, negb_true_iff. reflexivity. Qed.

Lemma nth_repeat0 n k : nth k (repeat 0 n) 0 = 0.
Proof. revert k. induction n; intros [|k]; cbn; auto. Qed.

(** The new array: the old slots are kept, the new ones are null. *)
Lemma get_array_shape arr i p a : 0 < i < 2 ^ 59 -> match arr with None => True | Some a => 0 <= asize a /\ length (adata a) = Z.to_nat (asize a) end ->
  emutls_get_address_array arr i p = Some a ->
  i <= asize a /\ 0 <= asize a /\ length (adata a) = Z.to_nat (asize a) /\
  (forall k, nth k (adata a) 0 = match arr with None => 0 | Some o => nth k (adata o) 0 end) /\
  (grows arr i = true -> p <> 0) /\ (grows arr i = false -> arr = Some a).
Proof.
  intros Hi Ho H. pose proof (new_size_spec i ltac:(lia)) as (N1 & _). cbv zeta in N1. set (n := emutls_new_data_array_size i) in *.
  unfold emutls_get_address_array in H. fold n in H. destruct arr as [o|]; cbn [grows].
  - destruct Ho as [Ho1 Ho2]. destruct (Z.gtb_spec i (asize o)).
    + destruct (Z.eqb_spec p 0); [discriminate|]. cbn [emutls_check_array_set_size obind] in H. injection H as <-. cbn [asize adata].
      split; [lia|]. split; [lia|]. split; [rewrite length_app, repeat_length; lia|]. split; [|split; [auto|discriminate]].
      intros k. destruct (Nat.ltb_spec k (length (adata o))); [apply app_nth1; lia|]. rewrite app_nth2, nth_repeat0 by lia. symmetry. apply nth_overflow. lia.
    + injection H as <-. repeat split; auto; try lia.
  - destruct (Z.eqb_spec p 0); [discriminate|]. cbn [emutls_check_array_set_size obind] in H. injection H as <-. cbn [asize adata].
    repeat split; auto; try lia; try discriminate; [apply repeat_length|apply nth_repeat0].
Qed.

Lemma inv_get_array s t c i p a : inv s -> pcs s t = GetArray c i ->
  (grows (arrays s t) i = true -> allocates (without_array t (live s)) p (emutls_asize (emutls_new_data_array_size i)) (ArrayOf t)) ->
  emutls_get_address_array (arrays s t) i p = Some a ->
  inv (set_pc (set_heap s t a (if grows (arrays s t) i
    then mkBlock p (emutls_asize (emutls_new_data_array_size i)) (ArrayOf t) :: without_array t (live s) else live s)) t (GetObject c (i - 1))).
Proof.
  intros I Hp Hal Hg. pose proof (inv_pc s I t) as P. rewrite Hp in P. cbn [pc_ok] in P. destruct P as (Hc & Hi & Ni).
  pose proof (inv_range s I c) as [Rc _]. pose proof (inv_num s I) as En. pose proof (indexed_bound (object_index s)) as Bd.
  assert (Ho : match arrays s t with None => True | Some a => 0 <= asize a /\ length (adata a) = Z.to_nat (asize a) end).
  { destruct (arrays s t) as [o|] eqn:E; [|exact Logic.I]. destruct (inv_array s I t o E) as (? & ? & _). auto. }
  destruct (get_array_shape (arrays s t) i p a ltac:(lia) Ho Hg) as (S1 & S2 & S3 & S4 & S5 & S6).
  assert (Keep : forall l, (forall b, In b (live s) -> is_array_of t b = false -> In b l) -> array_ok (set_heap s t a l) t a).
  { intros l Hl. split; [lia|]. split; [exact S3|]. intros k Hk. rewrite S4 in *. destruct (arrays s t) as [o|] eqn:E; [|contradiction].
    destruct (inv_array s I t o E) as (_ & _ & B). destruct (B k Hk) as (b & Ib & Ob & Rb). exists b. split; [|auto].
    apply Hl; [exact Ib|]. unfold is_array_of. now rewrite Ob. }
  assert (Hpc : forall l, pc_ok (set_heap s t a l) t (GetObject c (i - 1))).
  { intros l. cbn [pc_ok set_heap object_index arrays]. split; [exact Hc|]. rewrite fset_same. repeat split; try lia. exists a. split; [reflexivity|lia]. }
  destruct (grows (arrays s t) i) eqn:G.
  - destruct (Hal eq_refl) as [->|(P1 & P2 & P3)]; [now destruct (S5 eq_refl)|].
    assert (Hl : forall b, In b (live s) -> is_array_of t b = false ->
      In b (mkBlock p (emutls_asize (emutls_new_data_array_size i)) (ArrayOf t) :: without_array t (live s))) by (intros; right; now apply without_array_in).
    apply inv_heap; [exact I|auto|exact Hl| |apply Keep, Hl|apply Hpc]. apply fresh_disjoint; [exact P3|].
    intros x y Hx Hy. apply without_array_in in Hx, Hy. now apply (inv_live s I).
  - apply inv_heap; [exact I|auto|auto|apply (inv_live s I)|apply Keep; auto|apply Hpc].
Qed.

Lemma nth_store_eq l i v j : nth j (store l i v) 0 = if (j =? i)%nat && (i <? length l)%nat then v else nth j l 0.
Proof.
  revert i j. induction l as [|x l IH]; intros [|i] [|j]; cbn [store nth length Nat.eqb andb]; try reflexivity.
  - now rewrite andb_false_r.
  - rewrite IH. reflexivity.
Qed.

Lemma store_length l i v : length (store l i v) = length l.
Proof. revert i. induction l as [|x l IH]; intros [|i]; cbn [store length]; auto. Qed.

Lemma inv_new_object s t c k a p base image : inv s -> pcs s t = GetObject c k -> arrays s t = Some a -> nth (Z.to_nat k) (adata a) 0 = 0 ->
  let n := memalign_request (object_align (controls c)) (csize (controls c)) in
  allocates (live s) p n (ObjectOf t (Z.to_nat k)) -> emutls_allocate_object (controls c) p = Some (base, image) ->
  inv (set_pc (set_heap s t (mkArray (abase a) (skip_destructor_rounds a) (asize a) (store (adata a) (Z.to_nat k) base))
    (mkBlock p n (ObjectOf t (Z.to_nat k)) :: live s)) t (Done c base)).
Proof.
  intros I Hp Ea H0 n Hal Hg. pose proof (inv_pc s I t) as P. rewrite Hp in P. cbn [pc_ok] in P. destruct P as (Hc & Hi & Ni & a' & Ea' & Hk).
  rewrite Ea in Ea'. injection Ea' as <-. pose proof (inv_range s I c) as [Rc _]. destruct (inv_array s I t a Ea) as (A1 & A2 & A3).
  assert (Np : p <> 0) by (intros ->; unfold emutls_allocate_object in Hg; destruct (nonzero _); discriminate).
  destruct Hal as [|(P1 & P2 & P3)]; [contradiction|].
  destruct (allocate_object_spec (controls c) p base image (Hcontrols c Hc) P1 P2 Hg) as (B1 & B2 & B3 & _).
  fold n in B3. pose proof (Hcontrols c Hc) as (C1 & _).
  assert (Hkl : (Z.to_nat k < length (adata a))%nat) by lia.
  apply inv_heap; [exact I|auto|intros b Hb _; now right|apply fresh_disjoint; [exact P3|apply (inv_live s I)]| |].
  - split; [exact A1|]. cbn [adata asize]. split; [now rewrite store_length|]. intros j Hj. rewrite nth_store_eq in Hj |- *.
    destruct (Nat.eqb_spec j (Z.to_nat k)) as [Ej|Nj]; cbn [andb] in Hj |- *.
    + rewrite Ej. destruct (Nat.ltb_spec (Z.to_nat k) (length (adata a))); [|lia]. eexists. split; [left; reflexivity|]. split; [reflexivity|]. unfold in_block. cbn [baddr blen]. lia.
    + destruct (A3 j Hj) as (b & Ib & Ob & Rb). exists b. split; [now right|auto].
  - cbn [pc_ok]. unfold holds. cbn [set_heap object_index arrays]. rewrite fset_same, Hi. split; [exact Ni|]. eexists. split; [reflexivity|]. cbn [adata].
    replace (k + 1 - 1) with k by lia. rewrite nth_store_eq, Nat.eqb_refl. cbn [andb]. destruct (Nat.ltb_spec (Z.to_nat k) (length (adata a))); [|lia]. split; [reflexivity|lia].
Qed.

Lemma inv_step s e s' : inv s -> step controls ncontrols s e s' -> inv s'.
Proof.
  intros I S. destruct S as [s t c Hp Hc|s t c Hp|s t c Hp|s t c Hp|s t c Hp Hm|s t c Hp|s t c Hp|s t c i Hp|s t c i p a Hp Hal Hg|s t c i p Hp Hg
    |s t c k a Hp Ha Hk|s t c k a p base image Hp Ha Hk n Hal Hg|s t c k a p Hp Ha Hk Hg|s t c addr Hp];
    pose proof (inv_pc s I t) as P; rewrite Hp in P; cbn [pc_ok] in P.
  - apply inv_set_pc; cbn; tauto.
  - apply inv_set_pc; destruct (Z.eqb_spec (object_index s c) 0); cbn; tauto.
  - apply inv_set_pc; [now apply inv_set_key|cbn; tauto|exact P].
  - apply inv_set_pc; cbn; tauto.
  - apply inv_set_pc; [|reflexivity|exact P]. apply inv_set_mutex; [exact I|]. intros t' C. apply (inv_mutex s I) in C. congruence.
  - assert (M : emutls_mutex s = Some t) by (apply (inv_mutex s I); now rewrite Hp).
    apply inv_set_pc; [exact I|auto|]. destruct (Z.eqb_spec (object_index s c) 0); cbn; auto.
  - now apply inv_assign.
  - change (set_pc (set_mutex s None) t (GetArray c i)) with (set_mutex (set_pc s t (GetArray c i)) None). apply inv_set_mutex.
    + apply inv_set_pc; cbn; tauto.
    + intros t' C. cbn [set_pc pcs] in C. destruct (Nat.eq_dec t' t) as [->|E]; [rewrite fset_same in C; destruct C|]. rewrite fset_other in C by exact E.
      apply (inv_mutex s I) in C. assert (emutls_mutex s = Some t) by (apply (inv_mutex s I); now rewrite Hp). congruence.
  - now apply inv_get_array.
  - apply inv_set_pc; cbn; tauto.
  - apply inv_set_pc; [exact I|cbn; tauto|]. destruct P as (Hc & Hi & Ni & a' & Ea' & Hk'). cbn [pc_ok]. split; [congruence|]. exists a.
    split; [exact Ha|]. rewrite Hi. replace (k + 1 - 1) with k by lia. auto.
  - now apply inv_new_object with image.
  - apply inv_set_pc; cbn; tauto.
  - apply inv_set_pc; cbn; tauto.
Qed.

(** What a thread has been given stays. *)
Lemma holds_step s e s' t c addr : inv s -> step controls ncontrols s e s' -> holds s t c addr -> holds s' t c addr.
Proof.
  intros I S (N & a & Ea & Ev & Na). destruct S as [| | | | | |s u d Hp| |s u d i p a' Hp Hal Hg| | |s u d k a' p base image Hp Ha Hk n Hal Hg| |];
    try solve [split; [exact N|exists a; auto]].
  - assert (D : c <> d).
    { pose proof (inv_pc s I u) as P. rewrite Hp in P. cbn [pc_ok] in P. destruct P. congruence. }
    split; cbn [set_pc assign_index object_index arrays]; rewrite fset_other by exact D; [exact N|exists a; auto].
  - split; [exact N|]. cbn [set_pc set_heap object_index arrays]. destruct (Nat.eq_dec t u) as [->|E]; [|rewrite fset_other by exact E; exists a; auto].
    rewrite fset_same. exists a'. split; [reflexivity|]. pose proof (inv_pc s I u) as P. rewrite Hp in P. cbn [pc_ok] in P. destruct P as (_ & Hi & Ni).
    pose proof (inv_range s I d) as [Rd _]. pose proof (inv_num s I). pose proof (indexed_bound (object_index s)).
    destruct (inv_array s I u a Ea) as (A1 & A2 & _).
    destruct (get_array_shape (arrays s u) i p a' ltac:(lia) ltac:(rewrite Ea; auto) Hg) as (_ & _ & _ & S4 & _). rewrite S4, Ea. auto.
  - split; [exact N|]. cbn [set_pc set_heap object_index arrays]. destruct (Nat.eq_dec t u) as [->|E]; [|rewrite fset_other by exact E; exists a; auto].
    rewrite fset_same. eexists. split; [reflexivity|]. cbn [adata]. rewrite Ea in Ha. injection Ha as <-. rewrite nth_store_eq.
    destruct (Nat.eqb_spec (Z.to_nat (object_index s c - 1)) (Z.to_nat k)) as [Ek|]; cbn [andb]; [exfalso; apply Na; congruence|auto].
Qed.

Lemma steps_inv s evs s' : inv s -> steps controls ncontrols s evs s' -> inv s' /\ (forall t c a, In (t, c, a) evs -> holds s' t c a).
Proof.
  intros I S. induction S as [s|s evs s1 e s2 S IH St]; [split; [exact I|intros ? ? ? []]|]. destruct (IH I) as [I1 H1].
  split; [now apply (inv_step s1 e)|]. intros t c a Hin. apply in_app_or in Hin as [Hin|Hin].
  - apply (holds_step s1 e); auto.
  - destruct e as [[[t' c'] a']|]; [|destruct Hin]. destruct Hin as [E|[]]. injection E as -> -> ->.
    apply (holds_step s1 (Some (t, c, a))); auto. inversion St; subst. pose proof (inv_pc s1 I1 t) as P.
    match goal with H : pcs s1 t = Done _ _ |- _ => rewrite H in P end. exact P.
Qed.
End Invariant.

Lemma steps_cons controls nc s e s1 evs s2 : step controls nc s e s1 -> steps controls nc s1 evs s2 ->
  steps controls nc s (match e with Some x => [x] | None => [] end ++ evs) s2.
Proof.
  intros H S. induction S as [s1|s1 evs s1' e' s2 S IH St].
  - rewrite app_nil_r, <- (app_nil_l (match e with Some x => [x] | None => [] end)). econstructor; [constructor|exact H].
  - rewrite app_assoc. econstructor; [apply IH, H|exact St].
Qed.

(** ** Theorems *)

(** C21: Emulated thread-local storage is thread-local storage: in every
    interleaving of any number of threads calling [__emutls_get_address],
    whatever the allocator returns, two calls return the same address if and
    only if they were made by the same thread for the same variable, and no
    call returns null. *)
Theorem tls_addresses controls ncontrols evs s : (forall c, (c < ncontrols)%nat -> control_ok (controls c)) -> Z.of_nat ncontrols < 2 ^ 59 ->
  steps controls ncontrols initial_process evs s ->
  forall t c a t' c' a', In (t, c, a) evs -> In (t', c', a') evs -> ((t = t' /\ c = c') <-> a = a') /\ a <> 0.
Proof.
  intros Hc Hn S t c a t' c' a' H H'. destruct (steps_inv controls ncontrols Hc Hn _ _ _ (initial_inv ncontrols) S) as [I Hd].
  split; [|now destruct (Hd t c a H) as (_ & arr & _ & _ & Na)]. apply (holds_unique ncontrols s); auto.
Qed.

Definition demo_controls (c : nat) : __emutls_control := mkControl 4 16 (Some [1; 2; 3; 4]).

(** Thread [t] gets its object for variable 0 at the first call. *)
Ltac first_call t index arr obj :=
  eapply (steps_cons _ _ _ None); [apply (st_call _ _ _ t 0%nat); [reflexivity|lia]|];
  eapply (steps_cons _ _ _ None); [apply (st_load _ _ _ t 0%nat); reflexivity|];
  lazymatch index with
  | true =>
      eapply (steps_cons _ _ _ None); [apply (st_init _ _ _ t 0%nat); reflexivity|];
      eapply (steps_cons _ _ _ None); [apply (st_lock _ _ _ t 0%nat); reflexivity|];
      eapply (steps_cons _ _ _ None); [apply (st_reread _ _ _ t 0%nat); reflexivity|];
      eapply (steps_cons _ _ _ None); [apply (st_assign _ _ _ t 0%nat); reflexivity|];
      eapply (steps_cons _ _ _ None); [eapply (st_unlock _ _ _ t 0%nat); reflexivity|]
  | false => idtac
  end;
  eapply (steps_cons _ _ _ None);
    [eapply (st_array _ _ _ t 0%nat 1 arr); [reflexivity|cbv zeta; intros _; right; split; [lia|]; split; [vm_compute; reflexivity|repeat constructor; unfold disjoint; vm_compute; intuition discriminate]|vm_compute; reflexivity]|];
  eapply (steps_cons _ _ _ None);
    [eapply (st_object_new _ _ _ t 0%nat 0 _ obj); [reflexivity|reflexivity|reflexivity|right; split; [lia|]; split; [vm_compute; reflexivity|repeat constructor; unfold disjoint; vm_compute; intuition discriminate]|vm_compute; reflexivity]|];
  eapply (steps_cons _ _ _ (Some _)); [eapply (st_return _ _ _ t 0%nat); reflexivity|].

Lemma tls_demo_run : exists evs s, steps demo_controls 1 initial_process evs s /\ evs = [(0%nat, 0%nat, 8208); (1%nat, 0%nat, 32784)].
Proof.
  eexists _, _. split.
  - first_call 0%nat true 4096 8200. first_call 1%nat false 16384 32771. constructor.
  - vm_compute. reflexivity.
Qed.

Lemma tls_addresses_witness : exists evs s, steps demo_controls 1 initial_process evs s /\
  (((0 = 1 /\ 0 = 0)%nat <-> 8208 = 32784) /\ 8208 <> 0).
Proof.
  destruct tls_demo_run as (evs & s & S & E). exists evs, s. split; [exact S|].
  refine (tls_addresses demo_controls 1 evs s _ _ S 0%nat 0%nat 8208 1%nat 0%nat 32784 _ _).
  - intros c _. unfold control_ok. cbn. lia.
  - lia.
  - rewrite E. left. reflexivity.
  - rewrite E. right. left. reflexivity.
Defined.

(** C22: Indices in every reachable state: at most as many as there are
    variables (so the counter never wraps), never two variables with the same
    one, at most one thread in the critical section, and a thread that is
    about to assign an index holds the lock and finds the variable without one
    (the second test of the double-checked lock is sound). *)
Theorem tls_index_assignment controls ncontrols evs s : (forall c, (c < ncontrols)%nat -> control_ok (controls c)) -> Z.of_nat ncontrols < 2 ^ 59 ->
  steps controls ncontrols initial_process evs s ->
  0 <= emutls_num_object s <= Z.of_nat ncontrols /\
  (forall c c', object_index s c <> 0 -> object_index s c = object_index s c' -> c = c') /\
  (forall t t', critical (pcs s t) -> critical (pcs s t') -> t = t') /\
  (forall t c, pcs s t = Assign c -> emutls_mutex s = Some t /\ object_index s c = 0).
Proof.
  intros Hc Hn S. destruct (steps_inv controls ncontrols Hc Hn _ _ _ (initial_inv ncontrols) S) as [I _].
  split; [rewrite (inv_num _ s I); pose proof (indexed_bound ncontrols (object_index s)); lia|]. split; [apply (inv_inj _ s I)|]. split.
  - intros t t' C C'. apply (inv_mutex _ s I) in C, C'. congruence.
  - intros t c E. pose proof (inv_pc _ s I t) as P. rewrite E in P. destruct P. split; [|assumption]. apply (inv_mutex _ s I). now rewrite E.
Qed.

Lemma tls_index_assignment_witness : exists evs s, steps demo_controls 1 initial_process evs s /\ 0 <= emutls_num_object s <= 1.
Proof.
  destruct tls_demo_run as (evs & s & S & E). exists evs, s. split; [exact S|].
  apply (tls_index_assignment demo_controls 1 evs s); auto; [|lia]. intros c _. unfold control_ok. cbn. lia.
Defined.

(** [emutls_allocate_object] aborts exactly when [malloc] fails or the
    alignment is not a power of two; otherwise the object is aligned, lies with
    its initial image inside the block [malloc] returned, above the word in
    which the block's address is kept, and freeing it frees that block. *)
Theorem object_allocation c p word_at : control_ok c -> 0 <= p -> p + memalign_request (object_align c) (csize c) < 2 ^ 64 ->
  (emutls_allocate_object c p = None <-> p = 0 \/ ~ exists k, 0 <= k /\ object_align c = 2 ^ k) /\
  (forall base image, emutls_allocate_object c p = Some (base, image) -> word_at (base - 8) = p ->
     base mod object_align c = 0 /\ p <= base - 8 /\ base + csize c <= p + memalign_request (object_align c) (csize c) /\
     image = object_image c /\ length image = Z.to_nat (csize c) /\ emutls_memalign_free word_at base = p).
Proof.
  intros Hc Hp Hq. pose proof (object_align_range c Hc) as [Ha Hb]. split.
  - unfold emutls_allocate_object, emutls_memalign_alloc. set (A := object_align c) in *. cbv zeta.
    assert (E1 : A -[64] 1 = A - 1) by (apply uint_small; unfold is_uint; destruct Hc; lia). rewrite E1.
    destruct (Z.eqb_spec p 0) as [->|Np]; cbn [obind]; [destruct (nonzero _); tauto|]. unfold nonzero. destruct (Z.eqb_spec (A .& (A - 1)) 0) as [E|E]; cbn [negb].
    + split; [discriminate|]. intros [|N]; [lia|]. exfalso. apply N. exists (ctz A). pose proof (pow2_test A ltac:(lia) E) as PA.
      split; [|exact PA]. destruct (Z.ltb_spec (ctz A) 0); [rewrite Z.pow_neg_r in PA; lia|lia].
    + split; [intros _; right|reflexivity]. intros (k & Hk & Ek). apply E. rewrite Ek, land_ones_mod by exact Hk. apply Z_mod_same_full.
  - intros base image H W. assert (Np : 0 < p) by (destruct (Z.eq_dec p 0) as [->|]; [unfold emutls_allocate_object in H; destruct (nonzero _); discriminate|lia]).
    destruct (allocate_object_spec c p base image Hc Np Hq H) as (B1 & B2 & B3 & B4 & B5). repeat (split; [assumption || lia|]).
    unfold emutls_memalign_free, sizeof_ptr, usub. rewrite uint_small; [exact W|]. unfold is_uint. destruct Hc. lia.
Qed.

Lemma object_allocation_witness : emutls_allocate_object (demo_controls 0) 8200 = Some (8208, [1; 2; 3; 4]) /\
  emutls_memalign_free (fun a => if a =? 8200 then 8200 else 0) 8208 = 8200.
Proof.
  split; [vm_compute; reflexivity|].
  apply (object_allocation (demo_controls 0) 8200 (fun a => if a =? 8200 then 8200 else 0)) with [1; 2; 3; 4].
  - unfold control_ok. cbn. lia.
  - lia.
  - vm_compute. reflexivity.
  - vm_compute. reflexivity.
  - reflexivity.
Defined.
