(* ===== verification/Personality.v ===== *)
(** * The C personality routine

    Models [gcc_personality_v0.c]: the LEB128 and encoded-pointer readers, and
    [__gcc_personality_v0], which looks the program counter up in the
    call-site table of a frame's exception data (LSDA).  Memory is a function
    from addresses to bytes; a reader takes the address and returns the value
    and the address behind it, [None] being [compilerrt_abort].  What the
    unwinder tells of the frame is the [context]. *)

From S2P Require Import Prelude Digits.

Definition DW_EH_PE_omit : Z := 0xff.
Definition DW_EH_PE_absptr : Z := 0x00.
Definition DW_EH_PE_uleb128 : Z := 0x01.
Definition DW_EH_PE_udata2 : Z := 0x02.
Definition DW_EH_PE_udata4 : Z := 0x03.
Definition DW_EH_PE_udata8 : Z := 0x04.
Definition DW_EH_PE_sdata2 : Z := 0x0A.
Definition DW_EH_PE_sdata4 : Z := 0x0B.
Definition DW_EH_PE_sdata8 : Z := 0x0C.
Definition DW_EH_PE_pcrel : Z := 0x10.
Definition DW_EH_PE_indirect : Z := 0x80.
Definition _UA_SEARCH_PHASE : Z := 1.

(** What the unwinder knows of the frame. *)
Record context := mkContext { ctx_lsda : Z; ctx_ip : Z; ctx_region_start : Z }.

(** [_URC_CONTINUE_UNWIND], or [_URC_INSTALL_CONTEXT] with the two argument
    registers and the instruction pointer that were set. *)
Inductive reason := CONTINUE_UNWIND | INSTALL_CONTEXT (gr0 gr1 ip : Z).

Section Readers.
Context (mem : Z -> Z).

(** A little-endian load of [n] bytes. *)
Definition load (n : nat) (p : Z) : Z := eval 8 (map (fun i => mem (p + Z.of_nat i)) (seq 0 n)).

(** The loop of [readULEB128].  [(byte & 0x7f) << shift] is a shift of [int],
    whatever the type of the count; the result is then converted to [size_t]. *)
Fixpoint readULEB128_loop (fuel : nat) (p result shift : Z) : option (Z * Z) :=
  match fuel with
  | O => None
  | S fuel =>
      let byte := mem p in
      let p := p + 1 in
      let result := result .| uint 64 (sshl 32 (byte .& 0x7f) shift) in
      let shift := shift +[64] 7 in
      if nonzero (byte .& 0x80) then readULEB128_loop fuel p result shift else Some (result, p)
  end.
(** The loop ends at the first byte below 0x80; [fuel] bounds where that is. *)
Definition readULEB128 (fuel : nat) (data : Z) : option (Z * Z) := readULEB128_loop fuel data 0 0.

(** The value of [readEncodedPointer] before the offset is added. *)
Definition read_value (fuel : nat) (p encoding : Z) : option (Z * Z) :=
  match encoding .& 0x0F with
  | 0x00 => Some (load 8 p, p + 8)
  | 0x01 => readULEB128 fuel p
  | 0x02 => Some (load 2 p, p + 2)
  | 0x03 => Some (load 4 p, p + 4)
  | 0x04 => Some (load 8 p, p + 8)
  | 0x0A => Some (uint 64 (sint 16 (load 2 p)), p + 2)
  | 0x0B => Some (uint 64 (sint 32 (load 4 p)), p + 4)
  | 0x0C => Some (load 8 p, p + 8)
  | _ => None
  end.

Definition readEncodedPointer (fuel : nat) (data encoding : Z) : option (Z * Z) :=
  if encoding =? DW_EH_PE_omit then Some (0, data)
  else
    let? (result, p) := read_value fuel data encoding in
    let? result := match encoding .& 0x70 with
                   | 0x00 => Some result
                   | 0x10 => Some (result +[64] data)
                   | _ => None
                   end in
    let result := if nonzero (encoding .& DW_EH_PE_indirect) then load 8 result else result in
    Some (result, p).

(** [while (p < callSiteTableEnd)]; [turns] bounds the turns. *)
Fixpoint callSite_loop (turns fuel : nat) (p callSiteTableEnd callSiteEncoding pcOffset : Z) : option (option Z) :=
  match turns with
  | O => None
  | S turns =>
      if p <? callSiteTableEnd then
        let? (start, p) := readEncodedPointer fuel p callSiteEncoding in
        let? (length, p) := readEncodedPointer fuel p callSiteEncoding in
        let? (landingPad, p) := readEncodedPointer fuel p callSiteEncoding in
        let? (action, p) := readULEB128 fuel p in
        if landingPad =? 0 then callSite_loop turns fuel p callSiteTableEnd callSiteEncoding pcOffset
        else if (start <=? pcOffset) && (pcOffset <? (start +[64] length)) then Some (Some landingPad)
        else callSite_loop turns fuel p callSiteTableEnd callSiteEncoding pcOffset
      else Some None
  end.

Definition __gcc_personality_v0 (turns fuel : nat) (actions exceptionObject : Z) (ctx : context) : option reason :=
  if nonzero (actions .& _UA_SEARCH_PHASE) then Some CONTINUE_UNWIND
  else
    let lsda := ctx_lsda ctx in
    if lsda =? 0 then Some CONTINUE_UNWIND
    else
      let pc := ctx_ip ctx -[64] 1 in
      let funcStart := ctx_region_start ctx in
      let pcOffset := pc -[64] funcStart in
      let lpStartEncoding := mem lsda in
      let lsda := lsda + 1 in
      let? lsda := if negb (lpStartEncoding =? DW_EH_PE_omit) then
                     let? (_, lsda) := readEncodedPointer fuel lsda lpStartEncoding in Some lsda
                   else Some lsda in
      let ttypeEncoding := mem lsda in
      let lsda := lsda + 1 in
      let? lsda := if negb (ttypeEncoding =? DW_EH_PE_omit) then
                     let? (_, lsda) := readULEB128 fuel lsda in Some lsda
                   else Some lsda in
      let callSiteEncoding := mem lsda in
      let lsda := lsda + 1 in
      let? (len, lsda) := readULEB128 fuel lsda in
      let callSiteTableLength := uint 32 len in
      let callSiteTableEnd := lsda + callSiteTableLength in
      let? found := callSite_loop turns fuel lsda callSiteTableEnd callSiteEncoding pcOffset in
      match found with
      | Some landingPad => Some (INSTALL_CONTEXT exceptionObject 0 (funcStart +[64] landingPad))
      | None => Some CONTINUE_UNWIND
      end.
End Readers.

(** ** The format

    What a compiler writes: unsigned LEB128 numbers, little-endian words, and
    a table of call sites. *)

Fixpoint uleb_from (fuel : nat) (v : Z) : list Z :=
  match fuel with
  | O => []
  | S fuel => if v <? 128 then [v] else (v mod 128 + 128) :: uleb_from fuel (v / 128)
  end.
(** Five bytes hold 35 bits. *)
Definition uleb (v : Z) : list Z := uleb_from 5 v.

Inductive encoding := enc_absptr | enc_uleb128 | enc_udata2 | enc_udata4 | enc_udata8.
Definition enc_code (e : encoding) : Z :=
  match e with
  | enc_absptr => DW_EH_PE_absptr | enc_uleb128 => DW_EH_PE_uleb128 | enc_udata2 => DW_EH_PE_udata2
  | enc_udata4 => DW_EH_PE_udata4 | enc_udata8 => DW_EH_PE_udata8
  end.
Definition enc_bytes (e : encoding) (v : Z) : list Z :=
  match e with
  | enc_absptr | enc_udata8 => digits 8 8 v
  | enc_uleb128 => uleb v
  | enc_udata2 => digits 8 2 v
  | enc_udata4 => digits 8 4 v
  end.
(** The values an encoding can carry, as the reader reads it. *)
Definition enc_bits (e : encoding) : Z :=
  match e with enc_absptr | enc_udata8 => 64 | enc_uleb128 => 31 | enc_udata2 => 16 | enc_udata4 => 32 end.

Record call_site := mkSite { cs_start : Z; cs_length : Z; cs_landing : Z; cs_action : Z }.
Definition site_ok (e : encoding) (s : call_site) : Prop :=
  is_uint (enc_bits e) (cs_start s) /\ is_uint (enc_bits e) (cs_length s) /\ is_uint (enc_bits e) (cs_landing s) /\ is_uint 31 (cs_action s).
Definition site_bytes (e : encoding) (s : call_site) : list Z :=
  enc_bytes e (cs_start s) ++ enc_bytes e (cs_length s) ++ enc_bytes e (cs_landing s) ++ uleb (cs_action s).
Definition table_bytes (e : encoding) (l : list call_site) : list Z := flat_map (site_bytes e) l.

(** No landing-pad base; an optional offset of the type table. *)
Definition lsda_bytes (ttype : option (Z * Z)) (e : encoding) (l : list call_site) : list Z :=
  DW_EH_PE_omit :: match ttype with None => [DW_EH_PE_omit] | Some (enc, off) => enc :: uleb off end
  ++ enc_code e :: uleb (Z.of_nat (length (table_bytes e l))) ++ table_bytes e l.

(** The landing pad of the first call site with one that covers the offset. *)
Fixpoint landing_for (off : Z) (l : list call_site) : option Z :=
  match l with
  | [] => None
  | s :: l => if negb (cs_landing s =? 0) && (cs_start s <=? off) && (off <? uint 64 (cs_start s + cs_length s))
              then Some (cs_landing s) else landing_for off l
  end.

(** ** Reading back what was written *)

Fixpoint holds (mem : Z -> Z) (p : Z) (l : list Z) : Prop :=
  match l with
  | [] => True
  | b :: l => mem p = b /\ holds mem (p + 1) l
  end.

Lemma holds_app mem p a b : holds mem p (a ++ b) <-> holds mem p a /\ holds mem (p + Z.of_nat (length a)) b.
Proof.
  revert p. induction a as [|x a IH]; intros p; cbn [app holds length]; [rewrite Z.add_0_r; tauto|].
  rewrite IH. replace (p + 1 + Z.of_nat (length a)) with (p + Z.of_nat (S (length a))) by lia. tauto.
Qed.

Lemma load_holds mem l : forall p, holds mem p l -> map (fun i => mem (p + Z.of_nat i)) (seq 0 (length l)) = l.
Proof.
  induction l as [|x l IH]; intros p H; [reflexivity|]. destruct H as [Hx H]. cbn [length seq map]. rewrite Z.add_0_r, Hx. f_equal.
  rewrite <- seq_shift, map_map. rewrite <- (IH (p + 1) H) at 2. apply map_ext. intros i. f_equal. lia.
Qed.

Lemma load_digits mem p n v : is_uint (8 * Z.of_nat n) v -> holds mem p (digits 8 n v) -> load mem n p = v.
Proof.
  intros Hv H. unfold load. pose proof (load_holds mem (digits 8 n v) p H) as E. rewrite digits_length in E.
  rewrite E, eval_digits by lia. now apply Z.mod_small.
Qed.

Lemma byte_low x : x .& 0x7f = x mod 128.
Proof. change 0x7f with (2 ^ 7 - 1). now rewrite land_ones_mod by lia. Qed.

Lemma byte_more x : 0 <= x < 256 -> nonzero (x .& 0x80) = (128 <=? x).
Proof.
  intros Hx. assert (E : x .& 0x80 = x / 128 mod 2 * 128) by (change 0x80 with ((2 ^ 1 - 1) * 2 ^ 7); now rewrite land_field by lia).
  rewrite E. unfold nonzero.
  destruct (Z.leb_spec 128 x).
  - replace (x / 128) with 1 by (apply Z.div_unique with (x - 128); lia). reflexivity.
  - rewrite Z.div_small by lia. reflexivity.
Qed.

(** The contribution of one group of seven bits, below bit 31. *)
Lemma uleb_group m r k : 0 <= k -> 0 <= m < 128 -> m * 2 ^ (7 * k) < 2 ^ 31 -> 0 <= r < 2 ^ (7 * k) ->
  r .| uint 64 (sshl 32 m (7 * k)) = m * 2 ^ (7 * k) + r.
Proof.
  intros Hk Hm Hb Hr. pose proof (pow2_pos (7 * k) ltac:(lia)). destruct (Z.eq_dec m 0) as [->|Nm].
  - unfold sshl. rewrite Z.shiftl_0_l. change (uint 64 (sint 32 0)) with 0. rewrite Z.lor_0_r. lia.
  - assert (7 * k < 31) by (apply (Z.pow_lt_mono_r_iff 2); nia). rewrite sshl_spec by lia.
    rewrite sint_small by (unfold is_sint; lia). rewrite uint_small by (unfold is_uint; lia). rewrite Z.lor_comm. apply lor_add_disjoint; lia.
Qed.

Lemma uleb_read mem f : forall fuel v p r k, (f <= fuel)%nat -> 0 <= k -> 7 * k + 7 < 2 ^ 64 -> 0 <= v < 2 ^ (7 * Z.of_nat f) -> 0 <= r < 2 ^ (7 * k) -> v * 2 ^ (7 * k) + r < 2 ^ 31 ->
  (k = 0 \/ 0 < v) -> (0 < f)%nat -> holds mem p (uleb_from f v) ->
  readULEB128_loop mem fuel p r (7 * k) = Some (v * 2 ^ (7 * k) + r, p + Z.of_nat (length (uleb_from f v))).
Proof.
  induction f as [|f IH]; intros fuel v p r k Hf Hk Hk' Hv Hr Hb Hv0 Hf0 H; [lia|]. destruct fuel as [|fuel]; [lia|].
  pose proof (pow2_pos (7 * k) ltac:(lia)). cbn [uleb_from readULEB128_loop] in *. rewrite byte_low. destruct (Z.ltb_spec v 128).
  - destruct H as [-> _]. rewrite byte_more by lia. destruct (Z.leb_spec 128 v); [lia|]. rewrite (Z.mod_small v) by lia.
    rewrite uleb_group by lia. cbn [length]. reflexivity.
  - destruct H as [-> H]. pose proof (Z.div_mod v 128 ltac:(lia)). pose proof (Z.mod_pos_bound v 128 ltac:(lia)).
    rewrite byte_more by lia. destruct (Z.leb_spec 128 (v mod 128 + 128)); [|lia].
    replace ((v mod 128 + 128) mod 128) with (v mod 128) by (rewrite <- Zplus_mod_idemp_r; change (128 mod 128) with 0; now rewrite Z.add_0_r, Zmod_mod).
    rewrite uleb_group by nia. assert (7 * k < 31) by (apply (Z.pow_lt_mono_r_iff 2); nia).
    assert (P : 2 ^ (7 * (k + 1)) = 128 * 2 ^ (7 * k)) by (replace (7 * (k + 1)) with (7 + 7 * k) by lia; rewrite pow2_split by lia; reflexivity).
    unfold uadd. rewrite uint_small by (unfold is_uint; lia). replace (7 * k + 7) with (7 * (k + 1)) by lia.
    assert (P2 : 2 ^ (7 * Z.of_nat (S f)) = 128 * 2 ^ (7 * Z.of_nat f)) by (replace (7 * Z.of_nat (S f)) with (7 + 7 * Z.of_nat f) by lia; rewrite pow2_split by lia; reflexivity).
    assert (F0 : (0 < f)%nat) by (destruct f; [cbn in Hv; lia|lia]).
    rewrite (IH fuel (v / 128)); try nia; try assumption; try lia.
    cbn [length]. f_equal. f_equal; [rewrite P; nia|lia].
Qed.

Lemma uleb_spec mem fuel p v : (5 <= fuel)%nat -> is_uint 31 v -> holds mem p (uleb v) ->
  readULEB128 mem fuel p = Some (v, p + Z.of_nat (length (uleb v))).
Proof.
  intros Hf Hv H. unfold readULEB128. change 0 with (7 * 0) at 2. unfold is_uint in Hv.
  rewrite (uleb_read mem 5 fuel v p 0 0); try assumption; try lia.
  now rewrite Z.mul_0_r, Z.pow_0_r, Z.mul_1_r, Z.add_0_r.
Qed.

Lemma pointer_spec mem fuel p e v : (5 <= fuel)%nat -> is_uint (enc_bits e) v -> holds mem p (enc_bytes e v) ->
  readEncodedPointer mem fuel p (enc_code e) = Some (v, p + Z.of_nat (length (enc_bytes e v))).
Proof.
  intros Hf Hv H. unfold readEncodedPointer. destruct e; cbn [enc_code enc_bits enc_bytes] in *.
  - change (DW_EH_PE_absptr =? DW_EH_PE_omit) with false. cbv [read_value DW_EH_PE_absptr]. cbn [Z.land obind].
    change (nonzero (0 .& DW_EH_PE_indirect)) with false. rewrite (load_digits mem p 8 v Hv H), digits_length. reflexivity.
  - change (DW_EH_PE_uleb128 =? DW_EH_PE_omit) with false. cbv [read_value]. change (DW_EH_PE_uleb128 .& 0x0F) with 1. cbv iota.
    rewrite (uleb_spec mem fuel p v Hf Hv H). reflexivity.
  - change (DW_EH_PE_udata2 =? DW_EH_PE_omit) with false. cbv [read_value]. change (DW_EH_PE_udata2 .& 0x0F) with 2. cbv iota. cbn [obind].
    rewrite (load_digits mem p 2 v Hv H), digits_length. reflexivity.
  - change (DW_EH_PE_udata4 =? DW_EH_PE_omit) with false. cbv [read_value]. change (DW_EH_PE_udata4 .& 0x0F) with 3. cbv iota. cbn [obind].
    rewrite (load_digits mem p 4 v Hv H), digits_length. reflexivity.
  - change (DW_EH_PE_udata8 =? DW_EH_PE_omit) with false. cbv [read_value]. change (DW_EH_PE_udata8 .& 0x0F) with 4. cbv iota. cbn [obind].
    rewrite (load_digits mem p 8 v Hv H), digits_length. reflexivity.
Qed.

Lemma uleb_nonempty v : (0 < length (uleb v))%nat.
Proof. unfold uleb. cbn [uleb_from]. destruct (v <? 128); cbn [length]; lia. Qed.

(** The walk over the table finds what the specification finds. *)
Lemma callSite_spec mem fuel e off : (5 <= fuel)%nat -> forall l turns p, (length l < turns)%nat -> Forall (site_ok e) l -> holds mem p (table_bytes e l) ->
  callSite_loop mem turns fuel p (p + Z.of_nat (length (table_bytes e l))) (enc_code e) off = Some (landing_for off l).
Proof.
  intros Hf. induction l as [|s l IH]; intros turns p Ht Hl H; (destruct turns as [|turns]; [lia|]); cbn [callSite_loop].
  - cbn [table_bytes flat_map length]. rewrite Z.add_0_r, Z.ltb_irrefl. reflexivity.
  - inversion Hl as [|? ? (S1 & S2 & S3 & S4) Hl']; subst. cbn [table_bytes flat_map] in H. rewrite holds_app in H. destruct H as [H Ht'].
    unfold site_bytes in H. rewrite !holds_app in H. destruct H as (H1 & H2 & H3 & H4).
    pose proof (uleb_nonempty (cs_action s)) as Nn. cbn [table_bytes flat_map]. fold (table_bytes e l). rewrite length_app, Nat2Z.inj_add.
    assert (Ls : Z.of_nat (length (site_bytes e s)) = Z.of_nat (length (enc_bytes e (cs_start s))) + Z.of_nat (length (enc_bytes e (cs_length s)))
      + Z.of_nat (length (enc_bytes e (cs_landing s))) + Z.of_nat (length (uleb (cs_action s)))) by (unfold site_bytes; rewrite !length_app; lia).
    destruct (Z.ltb_spec p (p + (Z.of_nat (length (site_bytes e s)) + Z.of_nat (length (table_bytes e l))))); [|lia].
    rewrite (pointer_spec mem fuel p e _ Hf S1 H1). cbn [obind]. rewrite (pointer_spec mem fuel _ e _ Hf S2 H2). cbn [obind].
    rewrite (pointer_spec mem fuel _ e _ Hf S3 H3). cbn [obind]. rewrite (uleb_spec mem fuel _ _ Hf S4 H4). cbn [obind].
    match goal with |- context [callSite_loop mem turns fuel ?q ?r] => replace q with (p + Z.of_nat (length (site_bytes e s))) by (rewrite Ls; lia);
      replace r with (p + Z.of_nat (length (site_bytes e s)) + Z.of_nat (length (table_bytes e l))) by lia end.
    cbn [length] in Ht. rewrite IH; [|lia|exact Hl'|exact Ht']. cbn [landing_for]. unfold uadd.
    destruct (cs_landing s =? 0); cbn [negb andb]; [reflexivity|]. destruct ((cs_start s <=? off) && (off <? uint 64 (cs_start s + cs_length s))); reflexivity.
Qed.

(** ** What the routine decides *)

(** What the frame should do: nothing but go on in the search phase or
    without exception data, else the landing pad of the return address. *)
Definition decision (actions exceptionObject : Z) (ctx : context) (l : list call_site) : reason :=
  if Z.odd actions || (ctx_lsda ctx =? 0) then CONTINUE_UNWIND
  else match landing_for (uint 64 (ctx_ip ctx - 1 - ctx_region_start ctx)) l with
       | Some landing => INSTALL_CONTEXT exceptionObject 0 (uint 64 (ctx_region_start ctx + landing))
       | None => CONTINUE_UNWIND
       end.

Lemma search_phase actions : nonzero (actions .& _UA_SEARCH_PHASE) = Z.odd actions.
Proof.
  unfold nonzero, _UA_SEARCH_PHASE. change 1 with (2 ^ 1 - 1). rewrite land_ones_mod by lia. rewrite Zmod_odd. now destruct (Z.odd actions).
Qed.

(** The header is skipped, and the table is where the routine looks for it. *)
Lemma personality_header mem turns fuel actions exceptionObject ctx ttype e l :
  (5 <= fuel)%nat -> match ttype with None => True | Some (enc, off) => enc <> DW_EH_PE_omit /\ is_uint 31 off end ->
  Z.of_nat (length (table_bytes e l)) < 2 ^ 31 -> Z.odd actions = false -> ctx_lsda ctx <> 0 ->
  holds mem (ctx_lsda ctx) (lsda_bytes ttype e l) ->
  exists p, holds mem p (table_bytes e l) /\
    __gcc_personality_v0 mem turns fuel actions exceptionObject ctx =
    let? found := callSite_loop mem turns fuel p (p + Z.of_nat (length (table_bytes e l))) (enc_code e) (uint 64 (ctx_ip ctx - 1 - ctx_region_start ctx)) in
    match found with
    | Some landingPad => Some (INSTALL_CONTEXT exceptionObject 0 (ctx_region_start ctx +[64] landingPad))
    | None => Some CONTINUE_UNWIND
    end.
Proof.
  intros Hf Ht Hl Ha Hn H. unfold __gcc_personality_v0. rewrite search_phase, Ha. apply Z.eqb_neq in Hn. rewrite Hn. cbv zeta.
  unfold lsda_bytes in H. destruct H as [-> H]. change (negb (DW_EH_PE_omit =? DW_EH_PE_omit)) with false. cbn [obind].
  assert (Hpc : (ctx_ip ctx -[64] 1) -[64] ctx_region_start ctx = uint 64 (ctx_ip ctx - 1 - ctx_region_start ctx)) by (unfold usub, uint; apply Zminus_mod_idemp_l).
  rewrite Hpc. destruct ttype as [[enc off]|].
  - destruct Ht as [Ne Ho]. cbn [app] in H. destruct H as [-> H]. apply Z.eqb_neq in Ne. rewrite Ne. cbn [negb].
    rewrite holds_app in H. destruct H as [H1 H]. rewrite (uleb_spec mem fuel _ off Hf Ho H1). cbn [obind]. destruct H as [-> H].
    rewrite holds_app in H. destruct H as [H2 H]. rewrite (uleb_spec mem fuel _ (Z.of_nat (length (table_bytes e l))) Hf); [|unfold is_uint; lia|exact H2]. cbn [obind].
    rewrite uint_small by (unfold is_uint; lia). eexists. split; [exact H|reflexivity].
  - cbn [app] in H. destruct H as [-> H]. change (negb (DW_EH_PE_omit =? DW_EH_PE_omit)) with false. cbn [obind]. destruct H as [-> H].
    rewrite holds_app in H. destruct H as [H2 H]. rewrite (uleb_spec mem fuel _ (Z.of_nat (length (table_bytes e l))) Hf); [|unfold is_uint; lia|exact H2]. cbn [obind].
    rewrite uint_small by (unfold is_uint; lia). eexists. split; [exact H|reflexivity].
Qed.

(** C23: On exception data laid out as a compiler writes it - any of the five
    unsigned pointer encodings, with or without a type-table offset - the
    personality routine returns, installing the landing pad of the first call
    site that has one and covers the return address, and continuing to unwind
    when none does, in the search phase and without exception data. *)
Theorem personality_finds_landing_pad mem turns fuel actions exceptionObject ctx ttype e l :
  (5 <= fuel)%nat -> (length l < turns)%nat ->
  match ttype with None => True | Some (enc, off) => enc <> DW_EH_PE_omit /\ is_uint 31 off end ->
  Forall (site_ok e) l -> Z.of_nat (length (table_bytes e l)) < 2 ^ 31 ->
  (ctx_lsda ctx <> 0 -> holds mem (ctx_lsda ctx) (lsda_bytes ttype e l)) ->
  __gcc_personality_v0 mem turns fuel actions exceptionObject ctx = Some (decision actions exceptionObject ctx l).
Proof.
  intros Hf Ht Hty Hl Hlen Hm. unfold decision. destruct (Z.odd actions) eqn:Ha; cbn [orb].
  { unfold __gcc_personality_v0. now rewrite search_phase, Ha. }
  destruct (Z.eqb_spec (ctx_lsda ctx) 0) as [Hn|Hn].
  { unfold __gcc_personality_v0. rewrite search_phase, Ha, Hn. reflexivity. }
  destruct (personality_header mem turns fuel actions exceptionObject ctx ttype e l Hf Hty Hlen Ha Hn (Hm Hn)) as (p & Hp & ->).
  rewrite (callSite_spec mem fuel e _ Hf l turns p Ht Hl Hp). cbn [obind]. now destruct (landing_for _ l).
Qed.

Definition wit_sites : list call_site := [mkSite 0x10 0x20 0 0; mkSite 0x30 0x300 0x450 1].
Definition wit_lsda : list Z := lsda_bytes (Some (0x9b, 300)) enc_uleb128 wit_sites.
Lemma personality_finds_landing_pad_witness :
  __gcc_personality_v0 (fun a => nth (Z.to_nat (a - 0x1000)) wit_lsda 0) 3 5 2 0x7f00 (mkContext 0x1000 0x400080 0x400000)
  = Some (INSTALL_CONTEXT 0x7f00 0 0x400450).
Proof.
  refine (personality_finds_landing_pad _ 3 5 2 0x7f00 (mkContext 0x1000 0x400080 0x400000) (Some (0x9b, 300)) enc_uleb128 wit_sites _ _ _ _ _ _).
  - lia.
  - cbn. lia.
  - split; [discriminate|unfold is_uint; lia].
  - repeat constructor; unfold site_ok, is_uint; cbn; lia.
  - vm_compute. reflexivity.
  - intros _. vm_compute. repeat split.
Defined.

(** The reader shifts each group as an [int], so a number of bit 31 comes
    back sign-extended: the five bytes that encode 2^31 are read as
    2^64 - 2^31. *)
Theorem uleb_sign_extends p :
  readULEB128 (fun a => nth (Z.to_nat (a - p)) (uleb (2 ^ 31)) 0) 5 p = Some (2 ^ 64 - 2 ^ 31, p + 5).
Proof.
  unfold readULEB128. cbn [readULEB128_loop].
  replace (p - p) with 0 by lia. replace (p + 1 - p) with 1 by lia. replace (p + 1 + 1 - p) with 2 by lia.
  replace (p + 1 + 1 + 1 - p) with 3 by lia. replace (p + 1 + 1 + 1 + 1 - p) with 4 by lia.
  replace (p + 1 + 1 + 1 + 1 + 1) with (p + 5) by lia. vm_compute. reflexivity.
Qed.
