(* ===== verification/AtomicOps.v ===== *)
(** * Atomic operations on memory of any size

    Models [atomic.c]: the lock table, the choice of a lock for a pointer, the
    decision between the compiler's lock-free instruction and the lock, and
    every exported operation.  A function is a program over the shared
    memory, one byte at a time, which the steps of other threads interleave;
    the buffers of the caller ([dest], [src], [expected], ...) are its own
    and are passed and returned as values.  The theorems: every interleaving
    is one of operations that take effect at one instant, no call is ever
    stuck behind a lock that cannot be released, and the choices of lock and
    of lock freedom are the same for all operations on an object. *)

From S2P Require Import Prelude Digits.

(** ** Programs over shared memory *)

Inductive prog (A : Type) :=
| Ret (r : A)
| ReadByte (a : Z) (k : Z -> prog A)
| WriteByte (a v : Z) (k : prog A)
| Acquire (l : Z) (k : prog A)
| Release (l : Z) (k : prog A)
| Hardware (ptr : Z) (n : nat) (f : list Z -> list Z) (k : list Z -> prog A).
Arguments Ret {A}. Arguments ReadByte {A}. Arguments WriteByte {A}.
Arguments Acquire {A}. Arguments Release {A}. Arguments Hardware {A}.

Fixpoint bind {A B} (p : prog A) (f : A -> prog B) : prog B :=
  match p with
  | Ret r => f r
  | ReadByte a k => ReadByte a (fun v => bind (k v) f)
  | WriteByte a v k => WriteByte a v (bind k f)
  | Acquire l k => Acquire l (bind k f)
  | Release l k => Release l (bind k f)
  | Hardware p n g k => Hardware p n g (fun v => bind (k v) f)
  end.

Declare Scope prog_scope.
Delimit Scope prog_scope with prog.
Notation "x <- p ;; q" := (bind p (fun x => q)) (at level 61, p at next level, right associativity) : prog_scope.
Notation "p ;; q" := (bind p (fun _ => q)) (at level 61, right associativity) : prog_scope.
#[local] Open Scope prog_scope.

(** ** Locks *)

Definition SPINLOCK_COUNT : Z := sshl 32 1 10.
Definition SPINLOCK_MASK : Z := SPINLOCK_COUNT - 1.

(** [lock] is a loop around a compare-and-exchange of 0 with 1, [unlock] a
    store of 0; their effects are in the step relation below. *)
Definition lock (l : Z) : prog unit := Acquire l (Ret tt).
Definition unlock (l : Z) : prog unit := Release l (Ret tt).

(** The index in [locks]; [intptr_t] is signed. *)
Definition lock_for_pointer (ptr : Z) : Z :=
  let hash := sint 64 ptr in
  let hash := hash >>[64] 4 in
  let low := hash .& SPINLOCK_MASK in
  let hash := hash >>[64] 16 in
  let hash := hash .^ low in
  hash .& SPINLOCK_MASK.

(** ** Copying to and from shared memory *)

(** [memcpy(private, ptr, n)]. *)
Fixpoint memcpy_from (ptr : Z) (n : nat) : prog (list Z) :=
  match n with
  | O => Ret []
  | S n => ReadByte ptr (fun v => l <- memcpy_from (ptr + 1) n ;; Ret (v :: l))
  end.
(** [memcpy(ptr, private, n)]. *)
Fixpoint memcpy_to (ptr : Z) (l : list Z) : prog unit :=
  match l with
  | [] => Ret tt
  | v :: l => WriteByte ptr v (memcpy_to (ptr + 1) l)
  end.
(** [memcmp(ptr, private, n) == 0], which stops at the first difference. *)
Fixpoint memcmp_eq (ptr : Z) (l : list Z) : prog bool :=
  match l with
  | [] => Ret true
  | e :: l => ReadByte ptr (fun v => if v =? e then memcmp_eq (ptr + 1) l else Ret false)
  end.

(** [*ptr] and [*ptr = v] at an unsigned type of [n] bytes. *)
Definition read_type (n : nat) (ptr : Z) : prog Z := l <- memcpy_from ptr n ;; Ret (eval 8 l).
Definition write_type (n : nat) (ptr v : Z) : prog unit := memcpy_to ptr (digits 8 n v).

Fixpoint same_bytes (a b : list Z) : bool :=
  match a, b with
  | [], [] => true
  | x :: a, y :: b => (x =? y) && same_bytes a b
  | _, _ => false
  end.

(** What a call returns: nothing, the bytes copied out with the [int] result
    of a comparison, or a value of the operand type. *)
Inductive result := RVoid | RBytes (ok : bool) (l : list Z) | RVal (ok : bool) (v : Z).

Inductive rmw := op_add | op_sub | op_and | op_or | op_xor.
Definition rmw_apply (o : rmw) (n : nat) (a b : Z) : Z :=
  uint (8 * Z.of_nat n) match o with
  | op_add => a + b | op_sub => a - b | op_and => a .& b | op_or => a .| b | op_xor => a .^ b
  end.

Section Functions.
(** The compiler's [__atomic_always_lock_free(size, ptr)]. *)
Context (always_lock_free : Z -> Z -> bool).

Definition IS_LOCK_FREE (n p : Z) : bool :=
  always_lock_free n p || always_lock_free n 0 && (p mod n =? 0).

(** The switch of [LOCK_FREE_CASES]: whether [LOCK_FREE_ACTION] is taken. *)
Definition LOCK_FREE_CASES (size ptr : Z) : bool :=
  match size with
  | 1 => IS_LOCK_FREE 1 ptr
  | 2 => IS_LOCK_FREE 2 ptr
  | 4 => IS_LOCK_FREE 4 ptr
  | 8 => IS_LOCK_FREE 8 ptr
  | 16 => IS_LOCK_FREE 16 ptr
  | _ => false
  end.

Definition __atomic_is_lock_free_c (size ptr : Z) : bool := if LOCK_FREE_CASES size ptr then true else false.

Definition __atomic_load_c (size : nat) (src : Z) : prog result :=
  if LOCK_FREE_CASES (Z.of_nat size) src then Hardware src size (fun old => old) (fun old => Ret (RBytes true old))
  else
    let l := lock_for_pointer src in
    lock l ;;
    dest <- memcpy_from src size ;;
    unlock l ;;
    Ret (RBytes true dest).

Definition __atomic_store_c (size : nat) (dest : Z) (src : list Z) : prog result :=
  if LOCK_FREE_CASES (Z.of_nat size) dest then Hardware dest size (fun _ => src) (fun _ => Ret RVoid)
  else
    let l := lock_for_pointer dest in
    lock l ;;
    memcpy_to dest src ;;
    unlock l ;;
    Ret RVoid.

(** The bytes returned are those of [*expected] after the call. *)
Definition __atomic_compare_exchange_c (size : nat) (ptr : Z) (expected desired : list Z) : prog result :=
  if LOCK_FREE_CASES (Z.of_nat size) ptr then
    Hardware ptr size (fun old => if same_bytes old expected then desired else old)
      (fun old => Ret (if same_bytes old expected then RBytes true expected else RBytes false old))
  else
    let l := lock_for_pointer ptr in
    lock l ;;
    same <- memcmp_eq ptr expected ;;
    if (same : bool) then
      memcpy_to ptr desired ;;
      unlock l ;;
      Ret (RBytes true expected)
    else
      expected <- memcpy_from ptr size ;;
      unlock l ;;
      Ret (RBytes false expected).

Definition __atomic_exchange_c (size : nat) (ptr : Z) (val : list Z) : prog result :=
  if LOCK_FREE_CASES (Z.of_nat size) ptr then Hardware ptr size (fun _ => val) (fun old => Ret (RBytes true old))
  else
    let l := lock_for_pointer ptr in
    lock l ;;
    old <- memcpy_from ptr size ;;
    memcpy_to ptr val ;;
    unlock l ;;
    Ret (RBytes true old).

(** *** The versions of a fixed size [n] *)

Definition __atomic_load_n (n : nat) (src : Z) : prog result :=
  if IS_LOCK_FREE (Z.of_nat n) src then Hardware src n (fun old => old) (fun old => Ret (RVal true (eval 8 old)))
  else
    let l := lock_for_pointer src in
    lock l ;;
    val <- read_type n src ;;
    unlock l ;;
    Ret (RVal true val).

Definition __atomic_store_n (n : nat) (dest val : Z) : prog result :=
  if IS_LOCK_FREE (Z.of_nat n) dest then Hardware dest n (fun _ => digits 8 n val) (fun _ => Ret RVoid)
  else
    let l := lock_for_pointer dest in
    lock l ;;
    write_type n dest val ;;
    unlock l ;;
    Ret RVoid.

Definition __atomic_exchange_n (n : nat) (dest val : Z) : prog result :=
  if IS_LOCK_FREE (Z.of_nat n) dest then Hardware dest n (fun _ => digits 8 n val) (fun old => Ret (RVal true (eval 8 old)))
  else
    let l := lock_for_pointer dest in
    lock l ;;
    tmp <- read_type n dest ;;
    write_type n dest val ;;
    unlock l ;;
    Ret (RVal true tmp).

Definition __atomic_compare_exchange_n (n : nat) (ptr expected desired : Z) : prog result :=
  if IS_LOCK_FREE (Z.of_nat n) ptr then
    Hardware ptr n (fun old => if eval 8 old =? expected then digits 8 n desired else old)
      (fun old => Ret (if eval 8 old =? expected then RVal true expected else RVal false (eval 8 old)))
  else
    let l := lock_for_pointer ptr in
    lock l ;;
    cur <- read_type n ptr ;;
    if cur =? expected then
      write_type n ptr desired ;;
      unlock l ;;
      Ret (RVal true expected)
    else
      expected <- read_type n ptr ;;
      unlock l ;;
      Ret (RVal false expected).

Definition ATOMIC_RMW (op : rmw) (n : nat) (ptr val : Z) : prog result :=
  if IS_LOCK_FREE (Z.of_nat n) ptr then
    Hardware ptr n (fun old => digits 8 n (rmw_apply op n (eval 8 old) val)) (fun old => Ret (RVal true (eval 8 old)))
  else
    let l := lock_for_pointer ptr in
    lock l ;;
    tmp <- read_type n ptr ;;
    write_type n ptr (rmw_apply op n tmp val) ;;
    unlock l ;;
    Ret (RVal true tmp).
End Functions.

(** ** Calls and what they should do *)

Inductive call :=
| Load_c (size : nat) (ptr : Z) | Store_c (size : nat) (ptr : Z) (src : list Z)
| CompareExchange_c (size : nat) (ptr : Z) (expected desired : list Z) | Exchange_c (size : nat) (ptr : Z) (val : list Z)
| Load_n (n : nat) (ptr : Z) | Store_n (n : nat) (ptr val : Z) | Exchange_n (n : nat) (ptr val : Z)
| CompareExchange_n (n : nat) (ptr expected desired : Z) | Fetch_n (op : rmw) (n : nat) (ptr val : Z).

Definition call_ptr (c : call) : Z :=
  match c with
  | Load_c _ p | Store_c _ p _ | CompareExchange_c _ p _ _ | Exchange_c _ p _ | Load_n _ p | Store_n _ p _
  | Exchange_n _ p _ | CompareExchange_n _ p _ _ | Fetch_n _ _ p _ => p
  end.
Definition call_size (c : call) : nat :=
  match c with
  | Load_c n _ | Store_c n _ _ | CompareExchange_c n _ _ _ | Exchange_c n _ _ | Load_n n _ | Store_n n _ _
  | Exchange_n n _ _ | CompareExchange_n n _ _ _ | Fetch_n _ n _ _ => n
  end.
Definition optimised (n : nat) : bool := match n with 1 | 2 | 4 | 8 | 16 => true | _ => false end%nat.
(** Buffers have the size of the object; the fixed sizes are the ones compiled. *)
Definition call_ok (c : call) : bool :=
  match c with
  | Load_c _ _ => true
  | Store_c n _ l | Exchange_c n _ l => (length l =? n)%nat
  | CompareExchange_c n _ e d => (length e =? n)%nat && (length d =? n)%nat
  | Load_n n _ | Store_n n _ _ | Exchange_n n _ _ | CompareExchange_n n _ _ _ | Fetch_n _ n _ _ => optimised n
  end.

Definition code (alf : Z -> Z -> bool) (c : call) : prog result :=
  match c with
  | Load_c n p => __atomic_load_c alf n p
  | Store_c n p v => __atomic_store_c alf n p v
  | CompareExchange_c n p e d => __atomic_compare_exchange_c alf n p e d
  | Exchange_c n p v => __atomic_exchange_c alf n p v
  | Load_n n p => __atomic_load_n alf n p
  | Store_n n p v => __atomic_store_n alf n p v
  | Exchange_n n p v => __atomic_exchange_n alf n p v
  | CompareExchange_n n p e d => __atomic_compare_exchange_n alf n p e d
  | Fetch_n o n p v => ATOMIC_RMW alf o n p v
  end.

(** The operation on the bytes of the object: the new bytes and the result. *)
Definition atomic_spec (c : call) (old : list Z) : list Z * result :=
  match c with
  | Load_c _ _ => (old, RBytes true old)
  | Store_c _ _ v => (v, RVoid)
  | CompareExchange_c _ _ e d => if same_bytes old e then (d, RBytes true e) else (old, RBytes false old)
  | Exchange_c _ _ v => (v, RBytes true old)
  | Load_n _ _ => (old, RVal true (eval 8 old))
  | Store_n n _ v => (digits 8 n v, RVoid)
  | Exchange_n n _ v => (digits 8 n v, RVal true (eval 8 old))
  | CompareExchange_n n _ e d => if eval 8 old =? e then (digits 8 n d, RVal true e) else (old, RVal false (eval 8 old))
  | Fetch_n o n _ v => (digits 8 n (rmw_apply o n (eval 8 old) v), RVal true (eval 8 old))
  end.

(** ** The machine

    Threads take turns at one memory access, one attempt to take a lock, one
    release or one lock-free instruction. *)

Definition memory := Z -> Z.
Definition upd (m : memory) (a v : Z) : memory := fun x => if x =? a then v else m x.
Fixpoint bytes (m : memory) (p : Z) (n : nat) : list Z :=
  match n with O => [] | S n => m p :: bytes m (p + 1) n end.
Fixpoint put (m : memory) (p : Z) (l : list Z) : memory :=
  match l with [] => m | v :: l => put (upd m p v) (p + 1) l end.

Inductive thread := Idle | Running (c : call) (p : prog result).
Record machine := mkMachine { mem : memory; locks : Z -> Z; threads : nat -> thread }.
Definition set_thread (s : machine) (t : nat) (th : thread) : machine :=
  mkMachine (mem s) (locks s) (fun i => if (i =? t)%nat then th else threads s i).

Inductive event := Invoke (t : nat) (c : call) | Return (t : nat) (c : call) (r : result).

Section Machine.
Context (always_lock_free : Z -> Z -> bool).
(** The atomic objects of the program: the pointers, and their sizes. *)
Context (object : Z -> option nat).
Definition allowed (c : call) : Prop := call_ok c = true /\ object (call_ptr c) = Some (call_size c).

Inductive step : machine -> option event -> machine -> Prop :=
| st_invoke s t c : threads s t = Idle -> allowed c ->
    step s (Some (Invoke t c)) (set_thread s t (Running c (code always_lock_free c)))
| st_read s t c a k : threads s t = Running c (ReadByte a k) ->
    step s None (set_thread s t (Running c (k (mem s a))))
| st_write s t c a v k : threads s t = Running c (WriteByte a v k) ->
    step s None (set_thread (mkMachine (upd (mem s) a v) (locks s) (threads s)) t (Running c k))
| st_acquire s t c l k : threads s t = Running c (Acquire l k) -> locks s l = 0 ->
    step s None (set_thread (mkMachine (mem s) (upd (locks s) l 1) (threads s)) t (Running c k))
| st_spin s t c l k : threads s t = Running c (Acquire l k) -> step s None (set_thread s t (Running c (Acquire l k)))
| st_release s t c l k : threads s t = Running c (Release l k) ->
    step s None (set_thread (mkMachine (mem s) (upd (locks s) l 0) (threads s)) t (Running c k))
| st_hardware s t c p n f k : threads s t = Running c (Hardware p n f k) ->
    step s None (set_thread (mkMachine (put (mem s) p (f (bytes (mem s) p n))) (locks s) (threads s)) t (Running c (k (bytes (mem s) p n))))
| st_return s t c r : threads s t = Running c (Ret r) -> step s (Some (Return t c r)) (set_thread s t Idle).

Definition emit (e : option event) : list event := match e with Some e => [e] | None => [] end.
Inductive steps : machine -> list event -> machine -> Prop :=
| steps_nil s : steps s [] s
| steps_snoc s evs s1 e s2 : steps s evs s1 -> step s1 e s2 -> steps s (evs ++ emit e) s2.

Definition start (m : memory) : machine := mkMachine m (fun _ => 0) (fun _ => Idle).

(** *** The atomic machine: a call takes effect in one step *)

Inductive athread := AIdle | ACalled (c : call) | ADone (c : call) (r : result).
Record amachine := mkAMachine { amem : memory; athreads : nat -> athread }.
Definition set_athread (s : amachine) (t : nat) (th : athread) : amachine :=
  mkAMachine (amem s) (fun i => if (i =? t)%nat then th else athreads s i).

Inductive astep : amachine -> option event -> amachine -> Prop :=
| at_invoke s t c : athreads s t = AIdle -> allowed c -> astep s (Some (Invoke t c)) (set_athread s t (ACalled c))
| at_effect s t c : athreads s t = ACalled c ->
    let old := bytes (amem s) (call_ptr c) (call_size c) in
    astep s None (set_athread (mkAMachine (put (amem s) (call_ptr c) (fst (atomic_spec c old))) (athreads s)) t (ADone c (snd (atomic_spec c old))))
| at_return s t c r : athreads s t = ADone c r -> astep s (Some (Return t c r)) (set_athread s t AIdle).

Inductive asteps : amachine -> list event -> amachine -> Prop :=
| asteps_nil s : asteps s [] s
| asteps_snoc s evs s1 e s2 : asteps s evs s1 -> astep s1 e s2 -> asteps s (evs ++ emit e) s2.
Definition astart (m : memory) : amachine := mkAMachine m (fun _ => AIdle).
End Machine.

(** ** A critical section, run alone *)

Fixpoint solo {A} (p : prog A) (m : memory) : option (A * memory) :=
  match p with
  | Ret r => Some (r, m)
  | ReadByte a k => solo (k (m a)) m
  | WriteByte a v k => solo k (upd m a v)
  | Release l k => solo k m
  | _ => None
  end.

Definition range (ptr : Z) (n : nat) (a : Z) : Prop := ptr <= a < ptr + Z.of_nat n.

(** [p] accesses bytes of the range only. *)
Fixpoint accesses {A} (ptr : Z) (n : nat) (p : prog A) : Prop :=
  match p with
  | Ret _ => True
  | ReadByte a k => range ptr n a /\ forall v, accesses ptr n (k v)
  | WriteByte a _ k => range ptr n a /\ accesses ptr n k
  | _ => False
  end.

(** [p] is what is left of a critical section on the range under lock [l]. *)
Fixpoint critical {A} (l ptr : Z) (n : nat) (p : prog A) : Prop :=
  match p with
  | ReadByte a k => range ptr n a /\ forall v, critical l ptr n (k v)
  | WriteByte a _ k => range ptr n a /\ critical l ptr n k
  | Release l' k => l' = l /\ exists r, k = Ret r
  | _ => False
  end.

Lemma critical_bind {A B} l ptr n (p : prog A) (f : A -> prog B) :
  accesses ptr n p -> (forall r, critical l ptr n (f r)) -> critical l ptr n (bind p f).
Proof. induction p as [r|a k IH|a v k IH|l' k IH|l' k IH|q m g k IH]; cbn; intros H Hf; intuition auto. Qed.

Lemma solo_bind {A B} ptr n (p : prog A) (f : A -> prog B) : accesses ptr n p -> forall m,
  solo (bind p f) m = match solo p m with Some (r, m') => solo (f r) m' | None => None end.
Proof. induction p as [r|a k IH|a v k IH|l' k IH|l' k IH|q m g k IH]; cbn; intros H m'; intuition auto. Qed.

(** A critical section neither depends on nor changes what is outside its range. *)
Lemma solo_local {A} l ptr n (p : prog A) : critical l ptr n p -> forall m m', (forall a, range ptr n a -> m a = m' a) ->
  exists r n1 n2, solo p m = Some (r, n1) /\ solo p m' = Some (r, n2) /\ (forall a, range ptr n a -> n1 a = n2 a) /\ (forall a, ~ range ptr n a -> n1 a = m a).
Proof.
  induction p as [r|a k IH|a v k IH|l' k IH|l' k IH|q w g k IH]; cbn; intros H m m' E; try contradiction.
  - destruct H as [Ha H]. rewrite (E a Ha). now apply IH.
  - destruct H as [Ha H]. destruct (IH H (upd m a v) (upd m' a v)) as (r & n1 & n2 & S1 & S2 & R1 & R2).
    { intros x Hx. unfold upd. destruct (x =? a); auto. }
    exists r, n1, n2. repeat split; auto. intros x Hx. rewrite (R2 x Hx). unfold upd. destruct (Z.eqb_spec x a); [now subst|reflexivity].
  - destruct H as (-> & r & ->). cbn. exists r, m, m'. repeat split; auto.
Qed.

Lemma accesses_bind {A B} ptr n (p : prog A) (f : A -> prog B) : accesses ptr n p -> (forall r, accesses ptr n (f r)) -> accesses ptr n (bind p f).
Proof. induction p as [r|a k IH|a v k IH|l' k IH|l' k IH|q m g k IH]; cbn; intros H Hf; intuition auto. Qed.

Lemma accesses_from base N n : forall p, base <= p -> p + Z.of_nat n <= base + Z.of_nat N -> accesses base N (memcpy_from p n).
Proof.
  induction n as [|n IH]; intros p Hp Hn; cbn [memcpy_from accesses]; [exact I|]. split; [unfold range; lia|]. intros v.
  apply accesses_bind; [apply IH; lia|]. intros; exact I.
Qed.

Lemma accesses_to base N l : forall p, base <= p -> p + Z.of_nat (length l) <= base + Z.of_nat N -> accesses base N (memcpy_to p l).
Proof. induction l as [|v l IH]; intros p Hp Hl; cbn [memcpy_to accesses length] in *; [exact I|]. split; [unfold range; lia|apply IH; lia]. Qed.

Lemma accesses_cmp base N l : forall p, base <= p -> p + Z.of_nat (length l) <= base + Z.of_nat N -> accesses base N (memcmp_eq p l).
Proof.
  induction l as [|e l IH]; intros p Hp Hl; cbn [memcmp_eq accesses length] in *; [exact I|]. split; [unfold range; lia|]. intros v.
  destruct (v =? e); [apply IH; lia|exact I].
Qed.

Lemma solo_from n m : forall p, solo (memcpy_from p n) m = Some (bytes m p n, m).
Proof.
  induction n as [|n IH]; intros p; cbn [memcpy_from solo bytes]; [reflexivity|].
  rewrite (solo_bind (p + 1) n) by (apply accesses_from; lia). now rewrite IH.
Qed.

Lemma solo_to l : forall m p, solo (memcpy_to p l) m = Some (tt, put m p l).
Proof. induction l as [|v l IH]; intros m p; cbn [memcpy_to solo put]; auto. Qed.

Lemma solo_cmp l m : forall p, solo (memcmp_eq p l) m = Some (same_bytes (bytes m p (length l)) l, m).
Proof.
  induction l as [|e l IH]; intros p; cbn [memcmp_eq solo bytes same_bytes length]; [reflexivity|].
  destruct (m p =? e); cbn [andb]; [apply IH|reflexivity].
Qed.

Lemma accesses_read base N n p : base <= p -> p + Z.of_nat n <= base + Z.of_nat N -> accesses base N (read_type n p).
Proof. intros. apply accesses_bind; [now apply accesses_from|]. intros; exact I. Qed.
Lemma accesses_write base N n p v : base <= p -> p + Z.of_nat n <= base + Z.of_nat N -> accesses base N (write_type n p v).
Proof. intros. apply accesses_to; rewrite ?digits_length; lia. Qed.
Lemma solo_read n m p : solo (read_type n p) m = Some (eval 8 (bytes m p n), m).
Proof. unfold read_type. rewrite (solo_bind p n) by (apply accesses_from; lia). now rewrite solo_from. Qed.
Lemma solo_write n m p v : solo (write_type n p v) m = Some (tt, put m p (digits 8 n v)).
Proof. apply solo_to. Qed.

Lemma put_outside l : forall m p a, ~ range p (length l) a -> put m p l a = m a.
Proof.
  induction l as [|v l IH]; intros m p a H; cbn [put length] in *; [reflexivity|]. unfold range in H. rewrite IH by (unfold range; lia).
  unfold upd. destruct (Z.eqb_spec a p); [lia|reflexivity].
Qed.

Lemma put_agree l : forall m m' p a, m a = m' a \/ range p (length l) a -> put m p l a = put m' p l a.
Proof.
  induction l as [|v l IH]; intros m m' p a H; cbn [put length] in *; [destruct H; [auto|unfold range in *; cbn in *; lia]|].
  apply IH. unfold upd, range in *. destruct (Z.eqb_spec a p); [auto|]. destruct H; [auto|]. right. lia.
Qed.

Lemma put_bytes n : forall m p a, put m p (bytes m p n) a = m a.
Proof.
  assert (G : forall n m m' p a, (forall x, m x = m' x) -> put m p (bytes m' p n) a = m' a).
  { clear n. induction n as [|n IH]; intros m m' p a E; cbn [put bytes]; [apply E|]. apply IH.
    intros x. unfold upd. destruct (Z.eqb_spec x p); [now subst|apply E]. }
  intros. now apply G.
Qed.

Lemma bytes_length m n : forall p, length (bytes m p n) = n.
Proof. induction n as [|n IH]; intros p; cbn; auto. Qed.

Lemma bytes_ext m m' n : forall p, (forall a, range p n a -> m a = m' a) -> bytes m p n = bytes m' p n.
Proof.
  induction n as [|n IH]; intros p E; cbn [bytes]; [reflexivity|]. f_equal; [apply E; unfold range; lia|].
  apply IH. intros a Ha. apply E. unfold range in *. lia.
Qed.

Create HintDb prog.
#[local] Hint Extern 1 (critical _ _ _ (Release _ _)) => (split; [reflexivity|eexists; reflexivity]) : prog.

(** The steps of a body: split it into accesses and the release, and run it. *)
Ltac crit := repeat first
  [ progress (cbn [bind unlock lock])
  | apply critical_bind; [first [apply accesses_read|apply accesses_write|apply accesses_from|apply accesses_to|apply accesses_cmp]; lia|intros ?]
  | solve [auto with prog]
  | match goal with |- critical _ _ _ (if ?b then _ else _) => destruct b end ].
Ltac run p n := repeat first
  [ rewrite (solo_bind p n) by (first [apply accesses_read|apply accesses_write|apply accesses_from|apply accesses_to|apply accesses_cmp]; lia)
  | progress rewrite ?solo_from, ?solo_to, ?solo_cmp, ?solo_read, ?solo_write
  | progress (cbn [bind unlock lock solo]) ].

Definition lock_of (c : call) : Z := lock_for_pointer (call_ptr c).

Lemma optimised_cases alf n p : optimised n = true -> LOCK_FREE_CASES alf (Z.of_nat n) p = IS_LOCK_FREE alf (Z.of_nat n) p.
Proof. intros H. do 17 (destruct n as [|n]; [first [reflexivity|discriminate]|]). discriminate. Qed.

(** Every function is one lock-free instruction with the effect of the call,
    or its lock around a section that has this effect when run alone; which
    one it is depends on the size and the pointer only. *)
Definition lock_free (alf : Z -> Z -> bool) (c : call) : bool := LOCK_FREE_CASES alf (Z.of_nat (call_size c)) (call_ptr c).
Lemma code_shape alf c : call_ok c = true ->
  (lock_free alf c = true /\ exists f k, code alf c = Hardware (call_ptr c) (call_size c) f k /\
     forall old, f old = fst (atomic_spec c old) /\ k old = Ret (snd (atomic_spec c old))) \/
  (lock_free alf c = false /\ exists body, code alf c = Acquire (lock_of c) body /\ critical (lock_of c) (call_ptr c) (call_size c) body /\
     forall m, let old := bytes m (call_ptr c) (call_size c) in
       exists m', solo body m = Some (snd (atomic_spec c old), m') /\ forall a, m' a = put m (call_ptr c) (fst (atomic_spec c old)) a).
Proof.
  intros Hok. unfold lock_free. destruct c as [n p|n p v|n p e d|n p v|n p|n p v|n p v|n p e d|o n p v]; cbn [call_ok call_ptr call_size] in *;
  rewrite ?andb_true_iff, ?Nat.eqb_eq in Hok; rewrite ?optimised_cases by exact Hok; cbn [code]; unfold __atomic_load_c, __atomic_store_c,
    __atomic_compare_exchange_c, __atomic_exchange_c, __atomic_load_n, __atomic_store_n, __atomic_exchange_n, __atomic_compare_exchange_n, ATOMIC_RMW, lock_of;
  cbn [call_ptr]; match goal with |- context [if ?b then Hardware _ _ _ _ else _] => destruct b end.
  all: try (left; split; [reflexivity|]; eexists; eexists; split; [reflexivity|]; intros old; cbn [atomic_spec fst snd];
    split; try destruct (same_bytes old e); try destruct (eval 8 old =? e); reflexivity).
  all: right; split; [reflexivity|]; cbn [bind lock]; eexists; split; [reflexivity|]; split; [crit|].
  all: intros m; cbv zeta; run p n; cbn [atomic_spec].
  all: try (eexists; split; [reflexivity|intros a; cbn [fst]; rewrite ?put_bytes; reflexivity]).
  - destruct Hok as [He Hd]. rewrite He. destruct (same_bytes (bytes m p n) e); run p n; (eexists; split; [reflexivity|]); intros a; cbn [fst]; now rewrite ?put_bytes.
  - destruct (eval 8 (bytes m p n) =? e); run p n; (eexists; split; [reflexivity|]); intros a; cbn [fst]; now rewrite ?put_bytes.
Qed.

Lemma spec_length c old : call_ok c = true -> length old = call_size c -> length (fst (atomic_spec c old)) = call_size c.
Proof.
  destruct c; cbn [call_ok call_size atomic_spec fst]; rewrite ?andb_true_iff, ?Nat.eqb_eq; intros H Hl; rewrite ?digits_length; try tauto;
  match goal with |- context [if ?b then _ else _] => destruct b end; cbn [fst]; rewrite ?digits_length; tauto.
Qed.

(** ** Simulation by the atomic machine

    A call takes its effect when it gets the lock, or at its instruction. *)
Section Simulation.
Context (alf : Z -> Z -> bool) (object : Z -> option nat).
(** Different objects do not overlap. *)
Hypothesis objects_apart : forall p q n k x, object p = Some n -> object q = Some k -> p <> q -> range p n x -> ~ range q k x.

Definition call_range (c : call) (x : Z) : Prop := range (call_ptr c) (call_size c) x.
Definition section (c : call) (p : prog result) : Prop :=
  allowed object c /\ lock_free alf c = false /\ critical (lock_of c) (call_ptr c) (call_size c) p.
Definition holding (s : machine) (t : nat) (c : call) (p : prog result) : Prop := threads s t = Running c p /\ section c p.

Definition thread_rel (s : machine) (a : amachine) (t : nat) : Prop :=
  match threads s t, athreads a t with
  | Idle, AIdle => True
  | Running c p, ACalled c' => c = c' /\ allowed object c /\ p = code alf c
  | Running c p, ADone c' r => c = c' /\ allowed object c /\
      (p = Ret r \/ section c p /\ exists m, solo p (mem s) = Some (r, m) /\ forall x, call_range c x -> m x = amem a x)
  | _, _ => False
  end.

(** [h] is the holder of each lock. *)
Record sim (h : Z -> option nat) (s : machine) (a : amachine) : Prop := {
  sim_threads : forall t, thread_rel s a t;
  sim_locks : forall l, locks s l = match h l with Some _ => 1 | None => 0 end;
  sim_holding : forall t c p, holding s t c p -> h (lock_of c) = Some t;
  sim_holder : forall l t, h l = Some t -> exists c p, holding s t c p /\ lock_of c = l;
  sim_mem : forall x, (forall t c p, holding s t c p -> ~ call_range c x) -> mem s x = amem a x }.

Lemma thread_set s t th t' : threads (set_thread s t th) t' = if (t' =? t)%nat then th else threads s t'.
Proof. reflexivity. Qed.
Lemma athread_set a t th t' : athreads (set_athread a t th) t' = if (t' =? t)%nat then th else athreads a t'.
Proof. reflexivity. Qed.

Lemma section_not_ret c r : ~ section c (Ret r).
Proof. intros (_ & _ & H). exact H. Qed.
Lemma section_not_code c : ~ section c (code alf c).
Proof.
  intros ((Hok & _) & Hf & H). destruct (code_shape alf c Hok) as [[E _]|(_ & body & E & _)]; [congruence|]. rewrite E in H. exact H.
Qed.

(** Sections of different threads, and a section and a lock-free call, touch
    different bytes. *)
Lemma holding_apart h s a t t' c p c' p' x : sim h s a -> holding s t c p -> holding s t' c' p' -> t <> t' -> call_range c x -> ~ call_range c' x.
Proof.
  intros S H H' Hne. pose proof (sim_holding _ _ _ S _ _ _ H) as E. pose proof (sim_holding _ _ _ S _ _ _ H') as E'.
  destruct H as [_ ((_ & Ho) & _)], H' as [_ ((_ & Ho') & _)]. apply (objects_apart _ _ _ _ x Ho Ho'). intros Ep. unfold lock_of in E, E'. congruence.
Qed.
Lemma free_apart c c' p' x : allowed object c -> lock_free alf c = true -> section c' p' -> call_range c x -> ~ call_range c' x.
Proof.
  intros (_ & Ho) Hf ((_ & Ho') & Hf' & _). apply (objects_apart _ _ _ _ x Ho Ho'). intros Ep. unfold lock_free in Hf, Hf'. congruence.
Qed.

(** What a thread in its section still has to do survives the changes of
    other threads outside its range. *)
Lemma rest_survives c p m1 m2 (r : result) m : section c p -> (forall x, call_range c x -> m1 x = m2 x) -> solo p m1 = Some (r, m) ->
  exists m', solo p m2 = Some (r, m') /\ forall x, call_range c x -> m' x = m x.
Proof.
  intros (_ & _ & Hc) E Hs. destruct (solo_local _ _ _ _ Hc m1 m2 E) as (r' & n1 & n2 & S1 & S2 & R1 & _). rewrite Hs in S1. injection S1 as <- <-.
  exists n2. split; [exact S2|]. intros x Hx. symmetry. now apply R1.
Qed.

(** A step of [t] that leaves the bytes of the other sections alone, on both
    machines, leaves the other threads related. *)
Lemma others_related h s a s' a' t t' : sim h s a -> t' <> t -> threads s' t' = threads s t' -> athreads a' t' = athreads a t' ->
  (forall c p x, holding s t' c p -> call_range c x -> mem s x = mem s' x /\ amem a x = amem a' x) -> thread_rel s' a' t'.
Proof.
  intros S Ht E Ea Hm. pose proof (sim_threads _ _ _ S t') as R. unfold thread_rel in *. rewrite E, Ea. destruct (threads s t') as [|c p] eqn:Et, (athreads a t') as [|c'|c' r]; try assumption.
  destruct R as (-> & Ha & R). split; [reflexivity|]. split; [exact Ha|]. destruct R as [R|[Hs (m & Hr & Hx)]]; [now left|right; split; [exact Hs|]].
  assert (Hh : holding s t' c' p) by now split. destruct (rest_survives c' p (mem s) (mem s') r m Hs) as (m' & Hr' & Hx'); [intros x Hc; now apply (Hm c' p)|exact Hr|].
  exists m'. split; [exact Hr'|]. intros x Hc. rewrite (Hx' x Hc), (Hx x Hc). now apply (Hm c' p).
Qed.

Lemma holding_other s s' t' c p : threads s' t' = threads s t' -> holding s' t' c p -> holding s t' c p.
Proof. unfold holding. now intros ->. Qed.

Lemma sim_update h h' s a s' a' t : sim h s a ->
  (forall t', t' <> t -> threads s' t' = threads s t' /\ athreads a' t' = athreads a t') -> thread_rel s' a' t ->
  (forall l, locks s' l = match h' l with Some _ => 1 | None => 0 end) ->
  (forall t' c p, t' <> t -> holding s t' c p -> h' (lock_of c) = Some t') -> (forall c p, holding s' t c p -> h' (lock_of c) = Some t) ->
  (forall l t', h' l = Some t' -> t' <> t /\ h l = Some t' \/ t' = t /\ exists c p, holding s' t c p /\ lock_of c = l) ->
  (forall t' c p x, t' <> t -> holding s t' c p -> call_range c x -> mem s x = mem s' x /\ amem a x = amem a' x) ->
  (forall x, (forall t' c p, holding s' t' c p -> ~ call_range c x) -> mem s' x = amem a' x) ->
  sim h' s' a'.
Proof.
  intros S Hth Ht Hl Ho1 Ho2 Hh Hm Hx. split; [|exact Hl| | |exact Hx].
  - intros t'. destruct (Nat.eq_dec t' t) as [->|Hne]; [exact Ht|]. destruct (Hth t' Hne). apply (others_related h s a s' a' t t' S Hne); auto.
    intros c p x Hc. now apply (Hm t' c p).
  - intros t' c p Hp. destruct (Nat.eq_dec t' t) as [->|Hne]; [now apply (Ho2 c p)|]. apply (Ho1 t' c p Hne), (holding_other s s'); [now apply Hth|exact Hp].
  - intros l t' E. destruct (Hh l t' E) as [[Hne E']|[-> H]]; [|exact H]. destruct (sim_holder _ _ _ S l t' E') as (c & p & [Hr Hs] & El).
    exists c, p. split; [split; [|exact Hs]|exact El]. destruct (Hth t' Hne) as [-> _]. exact Hr.
Qed.

Lemma not_holding s t c0 p0 c p : threads s t = Running c0 p0 -> ~ section c0 p0 -> ~ holding s t c p.
Proof. intros E Hs [E' Hs']. rewrite E in E'. injection E' as <- <-. contradiction. Qed.

(** A step that changes neither memory nor locks, of a thread outside of a
    section. *)
Lemma sim_quiet h s a t th ath : sim h s a -> (forall c p, ~ holding s t c p) -> (forall c p, th = Running c p -> ~ section c p) ->
  thread_rel (set_thread s t th) (set_athread a t ath) t -> sim h (set_thread s t th) (set_athread a t ath).
Proof.
  intros S Hn Hn' Ht. apply (sim_update h h s a _ _ t S); auto.
  - intros t' Hne. apply Nat.eqb_neq in Hne. cbn. now rewrite Hne.
  - apply (sim_locks _ _ _ S).
  - intros t' c p _ H. now apply (sim_holding _ _ _ S _ _ _ H).
  - intros c p [E Hs]. cbn in E. rewrite Nat.eqb_refl in E. destruct (Hn' c p E Hs).
  - intros l t' E. left. split; [|exact E]. intros ->. destruct (sim_holder _ _ _ S l t E) as (c & p & H & _). destruct (Hn c p H).
  - intros x Hx. apply (sim_mem _ _ _ S). intros t' c p [E Hs]. apply (Hx t' c p). split; [|exact Hs]. cbn.
    destruct (Nat.eqb_spec t' t) as [->|]; [destruct (Hn c p); now split|exact E].
Qed.

Definition starts (p : prog result) : bool := match p with Acquire _ _ | Hardware _ _ _ _ => true | _ => false end.

Lemma code_starts c : allowed object c -> starts (code alf c) = true.
Proof. intros [Hok _]. destruct (code_shape alf c Hok) as [(_ & f & k & -> & _)|(_ & b & -> & _)]; reflexivity. Qed.

(** Where a running thread is. *)
Lemma running_start h s a t c p : sim h s a -> threads s t = Running c p -> starts p = true -> athreads a t = ACalled c /\ allowed object c /\ p = code alf c.
Proof.
  intros S E Hp. pose proof (sim_threads _ _ _ S t) as R. unfold thread_rel in R. rewrite E in R. destruct (athreads a t) as [|c'|c' r]; [contradiction|now destruct R as (-> & ? & ?)|].
  destruct R as (_ & _ & [->|[(_ & _ & Hc) _]]); [discriminate|]. destruct p; try discriminate; contradiction.
Qed.
Lemma running_section h s a t c p : sim h s a -> threads s t = Running c p -> starts p = false -> (forall r, p <> Ret r) ->
  allowed object c /\ section c p /\ exists r m, athreads a t = ADone c r /\ solo p (mem s) = Some (r, m) /\ forall x, call_range c x -> m x = amem a x.
Proof.
  intros S E Hp Hr. pose proof (sim_threads _ _ _ S t) as R. unfold thread_rel in R. rewrite E in R. destruct (athreads a t) as [|c'|c' r]; [contradiction| |].
  - destruct R as (_ & Ha & ->). rewrite code_starts in Hp by exact Ha. discriminate.
  - destruct R as (<- & Ha & [->|[Hs (m & Hm)]]); [destruct (Hr r eq_refl)|]. split; [exact Ha|]. split; [exact Hs|]. now exists r, m.
Qed.

Lemma set_thread_same s t th : threads (set_thread s t th) t = th.
Proof. cbn. now rewrite Nat.eqb_refl. Qed.
Lemma set_thread_other s t th t' : t' <> t -> threads (set_thread s t th) t' = threads s t'.
Proof. intros H. apply Nat.eqb_neq in H. cbn. now rewrite H. Qed.
Lemma set_athread_same a t th : athreads (set_athread a t th) t = th.
Proof. cbn. now rewrite Nat.eqb_refl. Qed.
Lemma set_athread_other a t th t' : t' <> t -> athreads (set_athread a t th) t' = athreads a t'.
Proof. intros H. apply Nat.eqb_neq in H. cbn. now rewrite H. Qed.

(** One access inside a section. *)
Lemma sim_inside h s a t c p p' m' r m : sim h s a -> holding s t c p -> section c p' -> athreads a t = ADone c r ->
  solo p' m' = Some (r, m) -> (forall x, call_range c x -> m x = amem a x) -> (forall x, ~ call_range c x -> m' x = mem s x) ->
  sim h (set_thread (mkMachine m' (locks s) (threads s)) t (Running c p')) a.
Proof.
  intros S Hh Hs' Ea Hr Hm Hm'. pose proof (sim_holding _ _ _ S _ _ _ Hh) as Hl. set (s' := set_thread _ t _).
  assert (Hh' : holding s' t c p') by (split; [apply set_thread_same|exact Hs']).
  assert (Ho : forall t', t' <> t -> threads s' t' = threads s t') by (intros t' Hne; unfold s'; now rewrite set_thread_other by exact Hne).
  apply (sim_update h h s a s' a t S); auto.
  - unfold thread_rel. rewrite Ea. unfold s'. rewrite set_thread_same. split; [reflexivity|]. split; [apply Hs'|]. right. split; [exact Hs'|]. now exists m.
  - apply (sim_locks _ _ _ S).
  - intros t' c' p2 _ H. now apply (sim_holding _ _ _ S _ _ _ H).
  - intros c' p2 [E _]. unfold s' in E. rewrite set_thread_same in E. now injection E as <- <-.
  - intros l t' E. destruct (Nat.eq_dec t' t) as [->|Hne]; [right|now left]. split; [reflexivity|].
    destruct (sim_holder _ _ _ S l t E) as (c2 & p2 & [E2 _] & El). destruct Hh as [E1 _]. rewrite E1 in E2. injection E2 as <- <-. now exists c, p'.
  - intros t' c' p2 x Hne H2 Hx. split; [|reflexivity]. symmetry. apply Hm'. intros Hc.
    exact (holding_apart h s a t t' c p c' p2 x S Hh H2 (fun E => Hne (eq_sym E)) Hc Hx).
  - intros x Hx. cbn [mem s' set_thread]. rewrite Hm' by exact (Hx t c p' Hh'). apply (sim_mem _ _ _ S). intros t' c' p2 H2.
    destruct (Nat.eq_dec t' t) as [->|Hne]; [|apply (Hx t' c' p2); destruct H2 as [E2 ?]; split; [now rewrite Ho|assumption]].
    destruct Hh as [E1 _], H2 as [E2 _]. rewrite E1 in E2. injection E2 as <- <-. exact (Hx t c p' Hh').
Qed.

(** Releasing the lock. *)
Lemma sim_leave h s a t c l r : sim h s a -> holding s t c (Release l (Ret r)) -> athreads a t = ADone c r ->
  (forall x, call_range c x -> mem s x = amem a x) ->
  sim (fun i => if i =? l then None else h i) (set_thread (mkMachine (mem s) (upd (locks s) l 0) (threads s)) t (Running c (Ret r))) a.
Proof.
  intros S Hh Ea Hm. pose proof (sim_holding _ _ _ S _ _ _ Hh) as Hl. assert (El : l = lock_of c) by apply Hh. set (s' := set_thread _ t _).
  assert (Ho : forall t', t' <> t -> threads s' t' = threads s t') by (intros t' Hne; unfold s'; now rewrite set_thread_other by exact Hne).
  assert (Hn : forall c p, ~ holding s' t c p) by (intros c' p; apply (not_holding s' t c (Ret r)); [apply set_thread_same|apply section_not_ret]).
  apply (sim_update h _ s a s' a t S); auto.
  - unfold thread_rel. rewrite Ea. unfold s'. rewrite set_thread_same. split; [reflexivity|]. split; [apply Hh|now left].
  - intros i. cbn. unfold upd. destruct (i =? l); [reflexivity|apply (sim_locks _ _ _ S)].
  - intros t' c' p Hne H. pose proof (sim_holding _ _ _ S _ _ _ H) as H'. destruct (Z.eqb_spec (lock_of c') l) as [E|_]; [|exact H']. rewrite E, El in H'. congruence.
  - intros c' p H. destruct (Hn c' p H).
  - intros i t' E. left. destruct (Z.eqb_spec i l) as [|Hne]; [discriminate|]. split; [|exact E]. intros ->.
    destruct (sim_holder _ _ _ S i t E) as (c2 & p2 & [E2 _] & E3). destruct Hh as [E1 _]. rewrite E1 in E2. injection E2 as <- <-. congruence.
  - intros x Hx. cbn [mem s' set_thread]. destruct (Z_le_dec (call_ptr c) x), (Z_lt_dec x (call_ptr c + Z.of_nat (call_size c)));
    try (apply Hm; now split); apply (sim_mem _ _ _ S); intros t' c' p2 H2; (destruct (Nat.eq_dec t' t) as [->|Hne];
      [destruct Hh as [E1 _], H2 as [E2 _]; rewrite E1 in E2; injection E2 as <- <-; unfold call_range, range; lia
      |apply (Hx t' c' p2); destruct H2 as [E2 ?]; split; [now rewrite Ho|assumption]]).
Qed.

(** The atomic effect of a call. *)
Definition effect (a : amachine) (t : nat) (c : call) : amachine :=
  let old := bytes (amem a) (call_ptr c) (call_size c) in
  set_athread (mkAMachine (put (amem a) (call_ptr c) (fst (atomic_spec c old))) (athreads a)) t (ADone c (snd (atomic_spec c old))).

Lemma effect_outside a t c x : call_ok c = true -> ~ call_range c x -> amem (effect a t c) x = amem a x.
Proof. intros Hok Hx. apply put_outside. rewrite spec_length; [exact Hx|exact Hok|apply bytes_length]. Qed.
Lemma effect_other a t c t' : t' <> t -> athreads (effect a t c) t' = athreads a t'.
Proof. intros H. unfold effect. now rewrite set_athread_other by exact H. Qed.
Lemma effect_same a t c : athreads (effect a t c) t = ADone c (snd (atomic_spec c (bytes (amem a) (call_ptr c) (call_size c)))).
Proof. apply set_athread_same. Qed.

(** Nobody is in a section on an object whose lock is free. *)
Lemma free_range h s a c x : sim h s a -> allowed object c -> h (lock_of c) = None -> call_range c x -> mem s x = amem a x.
Proof.
  intros S [_ Ho] Hl Hx. apply (sim_mem _ _ _ S). intros t' c' p' H'. pose proof (sim_holding _ _ _ S _ _ _ H') as E.
  destruct H' as (_ & (_ & Ho') & _). apply (objects_apart _ _ _ _ x Ho Ho'); [|exact Hx]. intros Ep. unfold lock_of in *. congruence.
Qed.

(** Taking the lock: the call takes effect. *)
Lemma sim_enter h s a t c k : sim h s a -> threads s t = Running c (Acquire (lock_of c) k) -> allowed object c -> lock_free alf c = false ->
  critical (lock_of c) (call_ptr c) (call_size c) k ->
  (forall m, let old := bytes m (call_ptr c) (call_size c) in
     exists m', solo k m = Some (snd (atomic_spec c old), m') /\ forall x, m' x = put m (call_ptr c) (fst (atomic_spec c old)) x) ->
  locks s (lock_of c) = 0 ->
  sim (fun i => if i =? lock_of c then Some t else h i)
    (set_thread (mkMachine (mem s) (upd (locks s) (lock_of c) 1) (threads s)) t (Running c k)) (effect a t c).
Proof.
  intros S E Ha Hf Hc Hsolo Hfree. set (s' := set_thread _ t _). assert (Hl : h (lock_of c) = None) by (rewrite (sim_locks _ _ _ S) in Hfree; destruct (h (lock_of c)); [discriminate|reflexivity]).
  assert (Hs : section c k) by (split; [exact Ha|now split]).
  assert (Hn : forall c' p, ~ holding s t c' p) by (intros c' p; apply (not_holding s t c (Acquire (lock_of c) k) c' p E); intros (_ & _ & []) ).
  assert (Hh' : holding s' t c k) by (split; [apply set_thread_same|exact Hs]).
  assert (Ho : forall t', t' <> t -> threads s' t' = threads s t') by (intros t' Hne; unfold s'; now rewrite set_thread_other by exact Hne).
  assert (Hout : forall t' c' p x, holding s t' c' p -> call_range c' x -> ~ call_range c x).
  { intros t' c' p x H Hx Hx'. pose proof (sim_holding _ _ _ S _ _ _ H) as E'. destruct H as (_ & (_ & Ho') & _), Ha as [_ Hoc].
    apply (objects_apart _ _ _ _ x Ho' Hoc); [|exact Hx|exact Hx']. intros Ep. unfold lock_of in *. congruence. }
  apply (sim_update h _ s a s' _ t S).
  - intros t' Hne. split; [now apply Ho|now apply effect_other].
  - unfold thread_rel. rewrite effect_same. unfold s' at 1. rewrite set_thread_same. split; [reflexivity|]. split; [exact Ha|]. right. split; [exact Hs|].
    destruct (Hsolo (mem s)) as (m' & Hr & Hm). rewrite (bytes_ext (amem a) (mem s)); [|intros x Hx; symmetry; now apply (free_range h s a c x)].
    exists m'. split; [exact Hr|]. intros x Hx. rewrite Hm. cbn [amem effect set_athread]. rewrite (bytes_ext (amem a) (mem s)); [|intros y Hy; symmetry; now apply (free_range h s a c y)].
    apply put_agree. left. now apply (free_range h s a c x).
  - intros i. cbn. unfold upd. destruct (i =? lock_of c); [reflexivity|apply (sim_locks _ _ _ S)].
  - intros t' c' p Hne H. pose proof (sim_holding _ _ _ S _ _ _ H) as H'. destruct (Z.eqb_spec (lock_of c') (lock_of c)) as [E'|_]; [congruence|exact H'].
  - intros c' p [E' _]. unfold s' in E'. rewrite set_thread_same in E'. injection E' as <- <-. now rewrite Z.eqb_refl.
  - intros i t' Ei. destruct (Z.eqb_spec i (lock_of c)) as [->|_]; [injection Ei as <-; right; split; [reflexivity|now exists c, k]|]. left. split; [|exact Ei].
    intros ->. destruct (sim_holder _ _ _ S i t Ei) as (c2 & p2 & H2 & _). destruct (Hn c2 p2 H2).
  - intros t' c' p x Hne H Hx. split; [reflexivity|]. symmetry. apply effect_outside; [apply Ha|now apply (Hout t' c' p)].
  - intros x Hx. cbn [mem s' set_thread]. rewrite effect_outside; [|apply Ha|exact (Hx t c k Hh')]. apply (sim_mem _ _ _ S). intros t' c' p [E' Hs'].
    apply (Hx t' c' p). split; [|exact Hs']. rewrite Ho; [exact E'|]. intros ->. destruct (Hn c' p). now split.
Qed.

(** The lock-free instruction: the call takes effect. *)
Lemma sim_hardware h s a t c f k : sim h s a -> threads s t = Running c (Hardware (call_ptr c) (call_size c) f k) -> allowed object c -> lock_free alf c = true ->
  (forall old, f old = fst (atomic_spec c old) /\ k old = Ret (snd (atomic_spec c old))) ->
  let old := bytes (mem s) (call_ptr c) (call_size c) in
  sim h (set_thread (mkMachine (put (mem s) (call_ptr c) (f old)) (locks s) (threads s)) t (Running c (k old))) (effect a t c).
Proof.
  intros S E Ha Hf Hk old. destruct (Hk old) as [-> ->]. set (s' := set_thread _ t _).
  assert (Hn : forall c' p, ~ holding s t c' p) by (intros c' p; apply (not_holding s t c (Hardware (call_ptr c) (call_size c) f k) c' p E); intros (_ & _ & []) ).
  assert (Ho : forall t', t' <> t -> threads s' t' = threads s t') by (intros t' Hne; unfold s'; now rewrite set_thread_other by exact Hne).
  assert (Hn' : forall c' p, ~ holding s' t c' p) by (intros c' p; eapply not_holding; [apply set_thread_same|apply section_not_ret]).
  assert (Hsame : forall x, call_range c x -> mem s x = amem a x) by (intros x Hx; apply (sim_mem _ _ _ S); intros t' c' p [_ H]; now apply (free_apart c c' p x)).
  assert (Eold : bytes (amem a) (call_ptr c) (call_size c) = old) by (apply bytes_ext; intros x Hx; symmetry; now apply Hsame).
  assert (Hlen : length (fst (atomic_spec c old)) = call_size c) by (apply spec_length; [apply Ha|apply bytes_length]).
  apply (sim_update h h s a s' _ t S).
  - intros t' Hne. split; [now apply Ho|now apply effect_other].
  - unfold thread_rel. rewrite effect_same, Eold. unfold s'. rewrite set_thread_same. split; [reflexivity|]. split; [exact Ha|now left].
  - apply (sim_locks _ _ _ S).
  - intros t' c' p _ H. now apply (sim_holding _ _ _ S _ _ _ H).
  - intros c' p H. destruct (Hn' c' p H).
  - intros l t' El. left. split; [|exact El]. intros ->. destruct (sim_holder _ _ _ S l t El) as (c2 & p2 & H2 & _). destruct (Hn c2 p2 H2).
  - intros t' c' p x Hne [_ H] Hx. assert (Hx' : ~ call_range c x) by (intros Hc; exact (free_apart c c' p x Ha Hf H Hc Hx)).
    split; symmetry; [apply put_outside; now rewrite Hlen|apply effect_outside; [apply Ha|exact Hx']].
  - intros x Hx. cbn [mem s' set_thread amem effect set_athread]. rewrite Eold. apply put_agree. rewrite Hlen.
    destruct (Z_le_dec (call_ptr c) x), (Z_lt_dec x (call_ptr c + Z.of_nat (call_size c))); try (right; now split); left;
    apply (sim_mem _ _ _ S); intros t' c' p [E' Hs']; apply (Hx t' c' p); (split; [|exact Hs']); (rewrite Ho; [exact E'|]; intros ->; destruct (Hn c' p); now split).
Qed.

Lemma asteps_one a e a' : astep object a e a' -> asteps object a (emit e) a'.
Proof. intros H. exact (asteps_snoc object a [] a e a' (asteps_nil _ _) H). Qed.

Lemma asteps_app a e1 a1 e2 a2 : asteps object a e1 a1 -> asteps object a1 e2 a2 -> asteps object a (e1 ++ e2) a2.
Proof. intros H1 H2. induction H2; [now rewrite app_nil_r|]. rewrite app_assoc. econstructor; eauto. Qed.

(** A failed attempt at the lock changes nothing. *)
Lemma sim_spin h s a t c l k : sim h s a -> threads s t = Running c (Acquire l k) -> athreads a t = ACalled c -> allowed object c ->
  Acquire l k = code alf c -> sim h (set_thread s t (Running c (Acquire l k))) a.
Proof.
  intros S E Ea Ha Ec. assert (Hn : forall c p, ~ holding s t c p) by (intros c' p; apply (not_holding s t c (Acquire l k) c' p E); intros (_ & _ & [])).
  apply (sim_update h h s a _ a t S); try reflexivity.
  - intros t' Hne. split; [now apply set_thread_other|reflexivity].
  - unfold thread_rel. rewrite set_thread_same, Ea. auto.
  - apply (sim_locks _ _ _ S).
  - intros t' c' p _ H. now apply (sim_holding _ _ _ S _ _ _ H).
  - intros c' p [E' (_ & _ & H)]. rewrite set_thread_same in E'. injection E' as <- <-. destruct H.
  - intros i t' Ei. left. split; [|exact Ei]. intros ->. destruct (sim_holder _ _ _ S i t Ei) as (c2 & p2 & H2 & _). destruct (Hn c2 p2 H2).
  - auto.
  - intros x Hx. apply (sim_mem _ _ _ S). intros t' c' p [E' Hs']. apply (Hx t' c' p). split; [|exact Hs'].
    rewrite set_thread_other; [exact E'|]. intros ->. destruct (Hn c' p). now split.
Qed.

Lemma sim_step h s a e s' : sim h s a -> step alf object s e s' -> exists h' a', sim h' s' a' /\ asteps object a (emit e) a'.
Proof.
  intros S H. pose proof (fun t => sim_threads _ _ _ S t) as R.
  destruct H as [s t c E Ha|s t c x k E|s t c x v k E|s t c l k E El|s t c l k E|s t c l k E|s t c p n f k E|s t c r E].
  - specialize (R t). unfold thread_rel in R. rewrite E in R. destruct (athreads a t) eqn:Ea; try contradiction. exists h, (set_athread a t (ACalled c)). split; [|apply asteps_one; now constructor].
    apply sim_quiet; auto; [intros c' p [E' _]; congruence|intros c' p [= <- <-]; apply section_not_code|].
    unfold thread_rel. rewrite set_thread_same, set_athread_same. auto.
  - destruct (running_section h s a t c _ S E eq_refl ltac:(discriminate)) as (Ha & Hs & r & m & Ea & Hr & Hm). exists h, a. split; [|constructor].
    apply (sim_inside h s a t c _ _ (mem s) r m S (conj E Hs)); auto. destruct Hs as (H1 & H2 & H3 & H4). split; [exact H1|]. split; [exact H2|apply H4].
  - destruct (running_section h s a t c _ S E eq_refl ltac:(discriminate)) as (Ha & Hs & r & m & Ea & Hr & Hm). exists h, a. split; [|constructor].
    destruct Hs as (H1 & H2 & H3 & H4). apply (sim_inside h s a t c (WriteByte x v k) k (upd (mem s) x v) r m S); auto; [split; [exact E|now split]|now split|].
    intros y Hy. unfold upd. destruct (Z.eqb_spec y x) as [->|]; [contradiction|reflexivity].
  - destruct (running_start h s a t c _ S E eq_refl) as (Ea & Ha & Ec). destruct (code_shape alf c (proj1 Ha)) as [(_ & f & k' & Ek & _)|(Hf & body & Ek & Hc & Hb)]; rewrite Ek in Ec; [discriminate|].
    injection Ec as -> ->. eexists. exists (effect a t c). split; [exact (sim_enter h s a t c body S E Ha Hf Hc Hb El)|]. apply asteps_one. now apply at_effect.
  - exists h, a. split; [|constructor]. destruct (running_start h s a t c _ S E eq_refl) as (Ea & Ha & Ec).
    exact (sim_spin h s a t c l k S E Ea Ha Ec).
  - destruct (running_section h s a t c _ S E eq_refl ltac:(discriminate)) as (Ha & Hs & r & m & Ea & Hr & Hm).
    destruct (proj2 (proj2 (proj2 Hs))) as [r' ->]. cbn in Hr. injection Hr as -> <-. eexists. exists a. split; [|constructor].
    exact (sim_leave h s a t c l r S (conj E Hs) Ea Hm).
  - destruct (running_start h s a t c _ S E eq_refl) as (Ea & Ha & Ec). destruct (code_shape alf c (proj1 Ha)) as [(Hf & f' & k' & Ek & Hk)|(_ & body & Ek & _)]; rewrite Ek in Ec; [|discriminate].
    injection Ec as -> -> -> ->. exists h, (effect a t c). split; [exact (sim_hardware h s a t c f' k' S E Ha Hf Hk)|]. apply asteps_one. now apply at_effect.
  - specialize (R t). unfold thread_rel in R. rewrite E in R. destruct (athreads a t) as [|c'|c' r'] eqn:Ea; [contradiction| |].
    + destruct R as (_ & Ha & Er). pose proof (code_starts c Ha) as Hs. rewrite <- Er in Hs. discriminate.
    + destruct R as (<- & _ & [[= <-]|[Hs _]]); [|destruct (section_not_ret c r Hs)].
      exists h, (set_athread a t AIdle). split; [|apply asteps_one; now constructor].
      apply sim_quiet; auto; [intros c' p; exact (not_holding s t c (Ret r) c' p E (section_not_ret c r))|discriminate|].
      unfold thread_rel. now rewrite set_thread_same, set_athread_same.
Qed.

Lemma sim_start m : sim (fun _ => None) (start m) (astart m).
Proof. split; try discriminate; try reflexivity. intros t c p [E _]. discriminate. Qed.

Lemma sim_steps m evs s : steps alf object (start m) evs s -> exists h a, sim h s a /\ asteps object (astart m) evs a.
Proof.
  intros H. remember (start m) as s0. induction H as [s|s evs s1 e s2 H IH He]; subst.
  - exists (fun _ => None), (astart m). split; [apply sim_start|constructor].
  - destruct (IH eq_refl) as (h & a & S & HA). destruct (sim_step h s1 a e s2 S He) as (h' & a' & S' & HA'). exists h', a'. split; [exact S'|].
    now apply (asteps_app _ _ a).
Qed.

(** ** Completion *)

Lemma atomic_steps_app s e1 s1 e2 s2 : steps alf object s e1 s1 -> steps alf object s1 e2 s2 -> steps alf object s (e1 ++ e2) s2.
Proof. intros H1 H2. induction H2; [now rewrite app_nil_r|]. rewrite app_assoc. econstructor; eauto. Qed.
Lemma atomic_steps_cons s e s1 evs s2 : step alf object s e s1 -> steps alf object s1 evs s2 -> steps alf object s (emit e ++ evs) s2.
Proof. intros H. apply atomic_steps_app. exact (steps_snoc alf object s [] s e s1 (steps_nil _ _ _) H). Qed.

End Simulation.

(** ** Theorems *)

(** C4: The operations are linearizable.  When objects do not overlap and
    every call names an object with its size, whatever the interleaving of
    any number of threads - byte by byte inside the locks - the calls and
    returns observed are those of a machine in which each call takes its
    whole effect in one step between its invocation and its return; and when
    no call is running the memory is the memory of that machine. *)
Theorem atomic_operations_linearizable alf object m evs s :
  (forall p q n k x, object p = Some n -> object q = Some k -> p <> q -> range p n x -> ~ range q k x) ->
  steps alf object (start m) evs s ->
  exists a, asteps object (astart m) evs a /\ ((forall t, threads s t = Idle) -> forall x, mem s x = amem a x).
Proof.
  intros Hobj H. destruct (sim_steps alf object Hobj m evs s H) as (h & a & S & HA). exists a. split; [exact HA|].
  intros Hidle x. apply (sim_mem _ _ _ _ _ S). intros t c p [E _]. rewrite Hidle in E. discriminate.
Qed.

(** ** Running a schedule *)

Section Run.
Context (alf : Z -> Z -> bool) (object : Z -> option nat).
(** The next step of a running thread. *)
Definition turn (s : machine) (t : nat) : option (option event * machine) :=
  match threads s t with
  | Idle => None
  | Running c p =>
      match p with
      | Ret r => Some (Some (Return t c r), set_thread s t Idle)
      | ReadByte a k => Some (None, set_thread s t (Running c (k (mem s a))))
      | WriteByte a v k => Some (None, set_thread (mkMachine (upd (mem s) a v) (locks s) (threads s)) t (Running c k))
      | Acquire l k => Some (None, if locks s l =? 0 then set_thread (mkMachine (mem s) (upd (locks s) l 1) (threads s)) t (Running c k)
                                   else set_thread s t (Running c (Acquire l k)))
      | Release l k => Some (None, set_thread (mkMachine (mem s) (upd (locks s) l 0) (threads s)) t (Running c k))
      | Hardware p n f k => Some (None, set_thread (mkMachine (put (mem s) p (f (bytes (mem s) p n))) (locks s) (threads s)) t (Running c (k (bytes (mem s) p n))))
      end
  end.
Definition allowedb (c : call) : bool :=
  call_ok c && match object (call_ptr c) with Some n => (n =? call_size c)%nat | None => false end.
(** A schedule: which thread moves, and the call it makes when it is idle. *)
Fixpoint run_schedule (s : machine) (l : list (nat * option call)) : option (list event * machine) :=
  match l with
  | [] => Some ([], s)
  | (t, o) :: l =>
      let? (e, s1) := match o with
                      | Some c => match threads s t with
                                  | Idle => if allowedb c then Some (Some (Invoke t c), set_thread s t (Running c (code alf c))) else None
                                  | _ => None
                                  end
                      | None => turn s t
                      end in
      let? (evs, s2) := run_schedule s1 l in
      Some (emit e ++ evs, s2)
  end.

Lemma turn_step s t e s' : turn s t = Some (e, s') -> step alf object s e s'.
Proof.
  unfold turn. destruct (threads s t) as [|c [r|a k|a v k|l k|l k|p n f k]] eqn:E; intros H; try discriminate; injection H as <- <-; try now constructor.
  destruct (Z.eqb_spec (locks s l) 0); now constructor.
Qed.

Lemma run_schedule_steps l : forall s evs s', run_schedule s l = Some (evs, s') -> steps alf object s evs s'.
Proof.
  induction l as [|[t o] l IH]; intros s evs s' H; cbn [run_schedule] in H; [injection H as <- <-; constructor|].
  destruct (match o with Some c => _ | None => turn s t end) as [[e s1]|] eqn:E1; [|discriminate]. cbn [obind] in H.
  destruct (run_schedule s1 l) as [[evs' s2]|] eqn:E2; [|discriminate]. injection H as <- <-. apply (atomic_steps_cons alf object s e s1); [|now apply IH].
  destruct o as [c|]; [|now apply turn_step with t]. destruct (threads s t) eqn:Et; [|discriminate]. destruct (allowedb c) eqn:Ea; [|discriminate].
  injection E1 as <- <-. constructor; [exact Et|]. unfold allowedb in Ea. apply andb_prop in Ea. destruct Ea as [Hc Ho]. split; [exact Hc|].
  destruct (object (call_ptr c)) as [n|]; [|discriminate]. apply Nat.eqb_eq in Ho. now rewrite Ho.
Qed.
End Run.

(** ** Completion *)

(** [n] turns of thread [t] with no other thread moving, none of them a return. *)
Fixpoint alone (n : nat) (t : nat) (s : machine) : option machine :=
  match n with
  | O => Some s
  | S n => match turn s t with Some (None, s1) => alone n t s1 | _ => None end
  end.

Lemma alone_steps alf object n t : forall s s', alone n t s = Some s' -> steps alf object s [] s'.
Proof.
  induction n as [|n IH]; intros s s' H; cbn [alone] in H; [injection H as <-; constructor|].
  destruct (turn s t) as [[[e|] s1]|] eqn:E; try discriminate. apply (atomic_steps_cons alf object s None s1 []); [now apply turn_step with t|now apply IH].
Qed.

(** A program that ends within [b] steps if its lock is free. *)
Fixpoint within {A} (p : prog A) (b : nat) : Prop :=
  match p, b with
  | Ret _, _ => True
  | _, O => False
  | ReadByte _ k, S b => forall v, within (k v) b
  | WriteByte _ _ k, S b | Acquire _ k, S b | Release _ k, S b => within k b
  | Hardware _ _ _ k, S b => forall v, within (k v) b
  end.

Lemma within_mono {A} (p : prog A) : forall b b', within p b -> (b <= b')%nat -> within p b'.
Proof.
  induction p as [r|a k IH|a v k IH|l k IH|l k IH|q n f k IH]; intros b b' H L; [exact I|..]; (destruct b as [|b]; [destruct H|]; destruct b' as [|b']; [lia|]);
    cbn [within] in *; intros; (eapply IH; [apply H|lia]).
Qed.

Lemma within_bind {A B} (p : prog A) (f : A -> prog B) : forall b b', within p b -> (forall r, within (f r) b') -> within (bind p f) (b + b').
Proof.
  induction p as [r|a k IH|a v k IH|l k IH|l k IH|q n g k IH]; intros b b' H Hf; [apply within_mono with b'; [apply Hf|lia]|..];
    (destruct b as [|b]; [destruct H|]); cbn [within bind Nat.add] in *; intros; apply IH; auto.
Qed.

Lemma within_memcpy_from n : forall ptr, within (memcpy_from ptr n) n.
Proof.
  induction n as [|n IH]; intros ptr; [exact I|]. cbn [memcpy_from within]. intros v. apply within_mono with (n + 0)%nat; [|lia]. apply within_bind; [apply IH|exact (fun _ => I)].
Qed.

Lemma within_memcpy_to l : forall ptr, within (memcpy_to ptr l) (length l).
Proof. induction l as [|v l IH]; intros ptr; [exact I|]. apply IH. Qed.

Lemma within_memcmp l : forall ptr, within (memcmp_eq ptr l) (length l).
Proof. induction l as [|e l IH]; intros ptr; [exact I|]. cbn [memcmp_eq within length]. intros v. destruct (v =? e); [apply IH|now destruct (length l)]. Qed.

Lemma within_read_type n ptr : within (read_type n ptr) n.
Proof. unfold read_type. apply within_mono with (n + 0)%nat; [|lia]. apply within_bind; [apply within_memcpy_from|exact (fun _ => I)]. Qed.

Lemma within_write_type n ptr v : within (write_type n ptr v) n.
Proof. unfold write_type. apply within_mono with (length (digits 8 n v)); [apply within_memcpy_to|now rewrite digits_length]. Qed.

(** The cost of a call: one step, or every byte of the object twice and the lock. *)
Definition call_cost (c : call) : nat := (2 * call_size c + 2)%nat.

Lemma within_release {A} l (r : A) b : within (Release l (Ret r)) (b + 1).
Proof. rewrite Nat.add_1_r. exact I. Qed.

(** A step of [p] followed by a last part. *)
Lemma within_then {A B} (p : prog A) (f : A -> prog B) n : within p n -> (forall r, within (f r) (n + 1)) -> within (bind p f) (n + (n + 1)).
Proof. apply within_bind. Qed.

Lemma within_write_release {A} (p : prog unit) l (r : A) n : within p n -> within (bind p (fun _ => Release l (Ret r))) (n + 1).
Proof. intros H. apply within_bind; [exact H|exact (fun _ => I)]. Qed.

Lemma code_within alf c : call_ok c = true -> within (code alf c) (call_cost c).
Proof.
  intros Hok. assert (E : call_cost c = S (call_size c + (call_size c + 1))) by (unfold call_cost; lia). rewrite E. clear E.
  destruct c as [n p|n p l|n p e d|n p l|n p|n p v|n p v|n p e d|o n p v]; cbn [code call_size call_ok] in *;
    unfold __atomic_load_c, __atomic_store_c, __atomic_compare_exchange_c, __atomic_exchange_c, __atomic_load_n, __atomic_store_n, __atomic_exchange_n,
      __atomic_compare_exchange_n, ATOMIC_RMW, lock, unlock; (destruct (LOCK_FREE_CASES _ _ _) || destruct (IS_LOCK_FREE _ _ _)); try exact (fun _ => I); cbn [bind within].
  - apply within_then; [apply within_memcpy_from|intros; apply within_release].
  - apply Nat.eqb_eq in Hok. apply within_then; [rewrite <- Hok; apply within_memcpy_to|intros; apply within_release].
  - apply andb_prop in Hok as [He Hd]. apply Nat.eqb_eq in He, Hd. apply within_then; [rewrite <- He; apply within_memcmp|intros [|]].
    + apply within_write_release. rewrite <- Hd. apply within_memcpy_to.
    + apply within_bind; [apply within_memcpy_from|exact (fun _ => I)].
  - apply Nat.eqb_eq in Hok. apply within_then; [apply within_memcpy_from|intros]. apply within_write_release. rewrite <- Hok. apply within_memcpy_to.
  - apply within_then; [apply within_read_type|intros; apply within_release].
  - apply within_then; [apply within_write_type|intros; apply within_release].
  - apply within_then; [apply within_read_type|intros]. apply within_write_release, within_write_type.
  - apply within_then; [apply within_read_type|intros r]. destruct (r =? e); [apply within_write_release, within_write_type|].
    apply within_bind; [apply within_read_type|exact (fun _ => I)].
  - apply within_then; [apply within_read_type|intros]. apply within_write_release, within_write_type.
Qed.

(** One step of a program leaves less to do. *)
Lemma within_pred {A} (p q : prog A) b : (forall b, within p (S b) -> within q b) -> (within p O -> False) -> within p b -> within q b.
Proof. intros H H0 W. destruct b as [|b]; [destruct (H0 W)|]. apply within_mono with b; [auto|lia]. Qed.

(** What is left of a call never costs more than the call. *)
Lemma reachable_within alf object m evs s : steps alf object (start m) evs s ->
  forall t c p, threads s t = Running c p -> within p (call_cost c).
Proof.
  intros H. remember (start m) as s0. induction H as [s|s evs s1 e s2 H IH He]; subst; [discriminate|]. specialize (IH eq_refl). intros t c p.
  destruct He as [s t0 c0 E Ha|s t0 c0 x k E|s t0 c0 x v k E|s t0 c0 l k E El|s t0 c0 l k E|s t0 c0 l k E|s t0 c0 q n f k E|s t0 c0 r E];
    cbn [threads set_thread]; (destruct (Nat.eqb_spec t t0) as [->|_]; [|apply IH]); intros [= <- <-]; try (specialize (IH _ _ _ E)).
  - now apply code_within, Ha.
  - revert IH. apply within_pred; [intros b W; apply W|easy].
  - revert IH. apply within_pred; [intros b W; exact W|easy].
  - revert IH. apply within_pred; [intros b W; exact W|easy].
  - exact IH.
  - revert IH. apply within_pred; [intros b W; exact W|easy].
  - revert IH. apply within_pred; [intros b W; apply W|easy].
Qed.

(** A thread in its section runs it to the end on its own, and frees the lock. *)
Lemma finish_section l ptr n c t p : critical l ptr n p -> forall s b, threads s t = Running c p -> within p b ->
  exists k s' r, (k <= b)%nat /\ alone k t s = Some s' /\ threads s' t = Running c (Ret r) /\ (forall t', t' <> t -> threads s' t' = threads s t') /\ locks s' l = 0.
Proof.
  induction p as [r|x k IH|x v k IH|l' k IH|l' k IH|q m f k IH]; cbn [critical]; intros Hc s b E W; try contradiction; (destruct b as [|b]; [destruct W|]).
  - destruct Hc as [_ Hc]. destruct (IH (mem s x) (Hc _) (set_thread s t (Running c (k (mem s x)))) b (set_thread_same _ _ _) (W _)) as (j & s' & r & Hj & H & Ht & Ho & Hl).
    exists (S j), s', r. split; [lia|]. split; [cbn [alone]; unfold turn; now rewrite E|]. split; [exact Ht|]. split; [|exact Hl].
    intros t' Hne. rewrite (Ho t' Hne). now apply set_thread_other.
  - destruct Hc as [_ Hc]. destruct (IH Hc (set_thread (mkMachine (upd (mem s) x v) (locks s) (threads s)) t (Running c k)) b (set_thread_same _ _ _) W) as (j & s' & r & Hj & H & Ht & Ho & Hl).
    exists (S j), s', r. split; [lia|]. split; [cbn [alone]; unfold turn; now rewrite E|]. split; [exact Ht|]. split; [|exact Hl].
    intros t' Hne. rewrite (Ho t' Hne). now rewrite set_thread_other.
  - destruct Hc as (-> & r & ->). exists 1%nat, (set_thread (mkMachine (mem s) (upd (locks s) l 0) (threads s)) t (Running c (Ret r))), r.
    split; [lia|]. split; [cbn [alone]; unfold turn; now rewrite E|]. split; [apply set_thread_same|]. split; [intros t' Hne; now rewrite set_thread_other|].
    cbn. unfold upd. now rewrite Z.eqb_refl.
Qed.

(** Thread [t] returns from its call within [b] turns of its own. *)
Definition returns_within (b : nat) (t : nat) (c : call) (s : machine) : Prop :=
  exists n s' r, (n <= b)%nat /\ alone n t s = Some s' /\ threads s' t = Running c (Ret r).

Lemma finish_locked s t c l k b : threads s t = Running c (Acquire l k) -> critical l (call_ptr c) (call_size c) k -> locks s l = 0 ->
  within (Acquire l k) b -> returns_within b t c s.
Proof.
  intros E Hc Hl W. destruct b as [|b]; [destruct W|]. set (s1 := set_thread (mkMachine (mem s) (upd (locks s) l 1) (threads s)) t (Running c k)).
  destruct (finish_section _ _ _ c t k Hc s1 b (set_thread_same _ _ _) W) as (n & s2 & r & Hn & H & E2 & _). exists (S n), s2, r.
  split; [lia|]. split; [|exact E2]. cbn [alone]. unfold turn. now rewrite E, Hl.
Qed.

Section Completion.
Context (alf : Z -> Z -> bool) (object : Z -> option nat).
Hypothesis objects_apart : forall p q n k x, object p = Some n -> object q = Some k -> p <> q -> range p n x -> ~ range q k x.
Context (m : memory) (evs : list event) (s : machine).
Hypothesis reached : steps alf object (start m) evs s.

(** A call waits for nothing but its lock. *)
Lemma call_returns_within t c p : threads s t = Running c p ->
  returns_within (call_cost c) t c s \/
  (exists k, p = Acquire (lock_of c) k /\ critical (lock_of c) (call_ptr c) (call_size c) k) /\
  exists u c' p', u <> t /\ threads s u = Running c' p' /\ lock_of c' = lock_of c /\ critical (lock_of c) (call_ptr c') (call_size c') p' /\ locks s (lock_of c) = 1.
Proof.
  intros E. pose proof (reachable_within alf object m evs s reached t c p E) as W.
  destruct (sim_steps alf object objects_apart m evs s reached) as (h & a & S & _). destruct (starts p) eqn:Hst.
  - destruct (running_start alf object h s a t c p S E Hst) as (_ & Ha & Ep).
    destruct (code_shape alf c (proj1 Ha)) as [(_ & f & k & Ek & Hk)|(_ & k & Ek & Hc & _)]; rewrite Ep, Ek in *.
    + left. exists 1%nat, (set_thread (mkMachine (put (mem s) (call_ptr c) (f (bytes (mem s) (call_ptr c) (call_size c)))) (locks s) (threads s)) t
        (Running c (k (bytes (mem s) (call_ptr c) (call_size c))))), (snd (atomic_spec c (bytes (mem s) (call_ptr c) (call_size c)))).
      split; [unfold call_cost; lia|]. split; [cbn [alone]; unfold turn; now rewrite E|]. rewrite set_thread_same. now rewrite (proj2 (Hk _)).
    + pose proof (sim_locks _ _ _ _ _ S (lock_of c)) as Hl. destruct (h (lock_of c)) as [u|] eqn:Eh; [|left; exact (finish_locked s t c _ k _ E Hc Hl W)].
      right. split; [now exists k|]. destruct (sim_holder _ _ _ _ _ S _ _ Eh) as (c' & p' & [E' (_ & _ & Hc')] & El). rewrite El in Hc'. exists u, c', p'.
      split; [|auto]. intros ->. rewrite E in E'. injection E' as <- <-. exact Hc'.
  - left. destruct p as [r|x k|x v k|l k|l k|q n f k]; try discriminate; [exists O, s, r; split; [lia|split; [reflexivity|exact E]]| | |];
    (destruct (running_section alf object h s a t c _ S E eq_refl ltac:(discriminate)) as (_ & (_ & _ & Hc) & _);
     destruct (finish_section _ _ _ c t _ Hc s _ E W) as (n & s1 & r & Hn & H1 & E1 & _); exists n, s1, r; auto).
Qed.
End Completion.

(** C5: No call can be stuck.  In every reachable state, whatever locks the
    threads hold, a running call returns within [2 * size + 2] turns of its
    own thread alone, or it waits for a lock that one other thread holds, and
    then it suffices that this one thread first moves, at most [2 * size' + 2]
    turns, until it has left its section and the lock is free.  No third
    thread has to move, and nobody spins. *)
Theorem atomic_calls_complete alf object m evs s t c p :
  (forall p q n k x, object p = Some n -> object q = Some k -> p <> q -> range p n x -> ~ range q k x) ->
  steps alf object (start m) evs s -> threads s t = Running c p ->
  exists u j s1 n s2 r s3,
    (j = O \/ u <> t /\ locks s (lock_of c) = 1 /\ locks s1 (lock_of c) = 0 /\
       exists c' p' r', threads s u = Running c' p' /\ lock_of c' = lock_of c /\ (j <= 2 * call_size c' + 2)%nat /\ threads s1 u = Running c' (Ret r')) /\
    alone j u s = Some s1 /\ (n <= 2 * call_size c + 2)%nat /\ alone n t s1 = Some s2 /\
    step alf object s2 (Some (Return t c r)) s3 /\ threads s3 t = Idle /\ steps alf object s [Return t c r] s3.
Proof.
  intros Hobj H E. assert (Last : forall j u s1 n s2 r, alone j u s = Some s1 -> alone n t s1 = Some s2 -> threads s2 t = Running c (Ret r) ->
    step alf object s2 (Some (Return t c r)) (set_thread s2 t Idle) /\ threads (set_thread s2 t Idle) t = Idle /\ steps alf object s [Return t c r] (set_thread s2 t Idle)).
  { intros j u s1 n s2 r A1 A2 E2. assert (St : step alf object s2 (Some (Return t c r)) (set_thread s2 t Idle)) by now constructor.
    split; [exact St|]. split; [apply set_thread_same|]. apply (atomic_steps_app alf object _ [] s1); [now apply (alone_steps alf object j u)|].
    apply (atomic_steps_app alf object _ [] s2); [now apply (alone_steps alf object n t)|]. exact (steps_snoc alf object s2 [] s2 _ _ (steps_nil _ _ _) St). }
  destruct (call_returns_within alf object Hobj m evs s H t c p E) as [(n & s2 & r & Hn & A & E2)|[(k & -> & Hc) (u & c' & p' & Hu & E' & El & Hc' & Hl)]].
  - exists t, O, s, n, s2, r, (set_thread s2 t Idle). split; [now left|]. split; [reflexivity|]. split; [exact Hn|]. split; [exact A|]. now apply (Last O t s n).
  - destruct (finish_section _ _ _ c' u p' Hc' s _ E' (reachable_within alf object m evs s H u c' p' E')) as (j & s1 & r' & Hj & A1 & E1 & Ho & Hl1).
    assert (Et : threads s1 t = Running c (Acquire (lock_of c) k)) by (rewrite Ho by congruence; exact E).
    destruct (finish_locked s1 t c _ k (call_cost c) Et Hc Hl1 (reachable_within alf object m evs s H t c _ E)) as (n & s2 & r & Hn & A & E2).
    exists u, j, s1, n, s2, r, (set_thread s2 t Idle). split; [right; split; [exact Hu|]; split; [exact Hl|]; split; [exact Hl1|]; now exists c', p', r'|].
    split; [exact A1|]. split; [exact Hn|]. split; [exact A|]. now apply (Last j u s1 n).
Qed.

(** Two objects, of three bytes and of eight. *)
Definition demo_object (p : Z) : option nat := if p =? 0x1000 then Some 3%nat else if p =? 0x2000 then Some 8%nat else None.
Definition demo_lock_free (n p : Z) : bool := (n <=? 8) && (p =? 0).
Definition demo_store : call := Store_c 3 0x1000 [1; 2; 3].
Definition demo_exchange : call := Exchange_c 3 0x1000 [7; 8; 9].
Definition demo_add : call := Fetch_n op_add 8 0x2000 5.
(** Thread 1 fails to get the lock between the bytes that thread 0 writes. *)
Definition demo_schedule : list (nat * option call) :=
  [(0, Some demo_store); (1, Some demo_exchange); (0, None); (1, None); (0, None); (2, Some demo_add); (2, None); (1, None); (0, None); (0, None); (0, None);
   (1, None); (0, None); (1, None); (1, None); (1, None); (1, None); (1, None); (1, None); (2, None); (1, None); (1, None)]%nat.
Definition demo_events : list event :=
  [Invoke 0 demo_store; Invoke 1 demo_exchange; Invoke 2 demo_add; Return 0 demo_store RVoid; Return 2 demo_add (RVal true 0);
   Return 1 demo_exchange (RBytes true [1; 2; 3])].

Lemma demo_apart p q n k x : demo_object p = Some n -> demo_object q = Some k -> p <> q -> range p n x -> ~ range q k x.
Proof.
  unfold demo_object, range. destruct (Z.eqb_spec p 0x1000), (Z.eqb_spec p 0x2000), (Z.eqb_spec q 0x1000), (Z.eqb_spec q 0x2000); intros; try discriminate; try lia;
  repeat match goal with H : Some _ = Some _ |- _ => injection H as <- end; lia.
Qed.

Definition running_call (s : machine) (t : nat) : option call := match threads s t with Running c _ => Some c | Idle => None end.
Lemma atomic_demo_run l evs t oc : option_map (fun es => (fst es, running_call (snd es) t)) (run_schedule demo_lock_free demo_object (start (fun _ => 0)) l) = Some (evs, oc) ->
  exists s, steps demo_lock_free demo_object (start (fun _ => 0)) evs s /\ running_call s t = oc.
Proof.
  destruct (run_schedule _ _ _ l) as [[e s]|] eqn:H; [|discriminate]. apply run_schedule_steps in H. cbn [option_map fst snd].
  intros E. injection E as <- <-. now exists s.
Qed.

Lemma atomic_operations_linearizable_witness : exists a, asteps demo_object (astart (fun _ => 0)) demo_events a.
Proof.
  assert (H : exists s, steps demo_lock_free demo_object (start (fun _ => 0)) demo_events s /\ running_call s 0 = None)
    by (apply (atomic_demo_run demo_schedule); vm_compute; reflexivity).
  destruct H as [s [H _]].
  destruct (atomic_operations_linearizable demo_lock_free demo_object (fun _ => 0) demo_events s demo_apart H) as (a & HA & _). exists a. exact HA.
Defined.

(** Thread 0 is inside its section, thread 1 waits for the lock. *)
Lemma atomic_calls_complete_witness : exists s u j s1 n s2 r s3, running_call s 1%nat = Some demo_exchange /\
  alone j u s = Some s1 /\ alone n 1 s1 = Some s2 /\ (n <= 8)%nat /\ step demo_lock_free demo_object s2 (Some (Return 1 demo_exchange r)) s3.
Proof.
  assert (H : exists s, steps demo_lock_free demo_object (start (fun _ => 0)) [Invoke 0 demo_store; Invoke 1 demo_exchange] s /\ running_call s 1 = Some demo_exchange)
    by (apply (atomic_demo_run (firstn 5 demo_schedule)); vm_compute; reflexivity).
  destruct H as (s & H & E). pose proof E as E0. unfold running_call in E. destruct (threads s 1%nat) as [|c p] eqn:Et; [discriminate|]. injection E as ->.
  destruct (atomic_calls_complete demo_lock_free demo_object (fun _ => 0) _ s 1 demo_exchange p demo_apart H Et) as (u & j & s1 & n & s2 & r & s3 & _ & A1 & Hn & A2 & St & _).
  exists s, u, j, s1, n, s2, r, s3. auto.
Defined.

(** ** The choice of the lock *)

Lemma lock_in_table p : 0 <= lock_for_pointer p < SPINLOCK_COUNT.
Proof. change SPINLOCK_COUNT with (2 ^ 10). unfold lock_for_pointer. change SPINLOCK_MASK with (2 ^ 10 - 1). rewrite land_ones_mod by lia. apply Z.mod_pos_bound. lia. Qed.

Lemma lock_same_line p q : is_uint 64 p -> is_uint 64 q -> p / 16 = q / 16 -> lock_for_pointer p = lock_for_pointer q.
Proof.
  intros Hp Hq E. assert (H : sint 64 p >>[64] 4 = sint 64 q >>[64] 4); [|unfold lock_for_pointer; now rewrite H].
  rewrite !shr_spec by lia. change (2 ^ 4) with 16. rewrite !sint_cases by (assumption || lia). unfold is_uint in *.
  assert (C : (p <? 2 ^ (64 - 1)) = (q <? 2 ^ (64 - 1))) by (change (2 ^ (64 - 1)) with (16 * 576460752303423488); apply eq_true_iff_eq; rewrite !Z.ltb_lt; pose proof (Z.div_mod p 16); pose proof (Z.div_mod q 16);
    pose proof (Z.mod_pos_bound p 16); pose proof (Z.mod_pos_bound q 16); lia).
  rewrite C. destruct (q <? 2 ^ (64 - 1)); [exact E|]. replace (p - 2 ^ 64) with (p + - 2 ^ 60 * 16) by lia. replace (q - 2 ^ 64) with (q + - 2 ^ 60 * 16) by lia.
  rewrite !Z.div_add by lia. now rewrite E.
Qed.

(** [__atomic_is_lock_free] tells the truth: for the size and the pointer
    of any call it returns true exactly when the call is one lock-free
    instruction, and when it returns false the call starts by taking the lock
    of its pointer - so all calls on an object agree.  The lock is one of the
    table, the same for all pointers into a 16-byte line. *)
Theorem lock_choice alf c : call_ok c = true ->
  (if __atomic_is_lock_free_c alf (Z.of_nat (call_size c)) (call_ptr c)
   then exists f k, code alf c = Hardware (call_ptr c) (call_size c) f k
   else exists k, code alf c = Acquire (lock_for_pointer (call_ptr c)) k) /\
  0 <= lock_for_pointer (call_ptr c) < SPINLOCK_COUNT /\
  (forall q, is_uint 64 (call_ptr c) -> is_uint 64 q -> q / 16 = call_ptr c / 16 -> lock_for_pointer q = lock_for_pointer (call_ptr c)).
Proof.
  intros Hok. split; [|split; [apply lock_in_table|intros q Hp Hq; now apply lock_same_line]]. unfold __atomic_is_lock_free_c.
  destruct (code_shape alf c Hok) as [(Hf & f & k & E & _)|(Hf & k & E & _)]; unfold lock_free in Hf; rewrite Hf; eauto.
Qed.

Lemma lock_choice_witness : lock_for_pointer 0x7fff1008 = lock_for_pointer 0x7fff1000.
Proof. refine (proj2 (proj2 (lock_choice demo_lock_free (Load_c 24 0x7fff1000) eq_refl)) 0x7fff1008 _ _ _); [unfold is_uint; cbn; lia|unfold is_uint; lia|reflexivity]. Defined.
