(* ===== verification/FpMath.v ===== *)
(** * Soft float: logb, scalbn, fmax

    Models the replacements of libm functions in [fp_lib.h]
    ([__compiler_rt_logbX], [__compiler_rt_scalbnX], [__compiler_rt_fmaxX] and
    their instances for float and double).  The floating-point operators in
    them are the routines of the other files: [==] and [!=] are [__eqXf2] and
    [__neXf2] (both the comparison [__leXf2__]), [*] is [__mulXf3__] and the
    conversion of an [int] is [__floatsisf] or [__floatsidf].  (The quad
    versions call libm on this platform.) *)

From S2P Require Import Prelude IntBits FpLib FpSpec FpAdd FpMul FpCompare FpInt.

(** The conversion of an [int] to the format, and what the format must offer:
    an exponent range that is wide next to the significand. *)
Class FpMath `{FpOps} := {
  from_int : Z -> Z;
  from_int_ok : forall a, is_sint 32 a -> converts a (from_int a);
  wide_range : significandBits + 3 <= exponentBias }.

#[global] Instance single_math : @FpMath single_precision single_ops.
Proof. refine {| from_int := __floatsisf |}; [intros a R; now apply signed_shift_converts|vm_compute; discriminate]. Defined.
#[global] Instance double_math : @FpMath double_precision double_ops.
Proof. refine {| from_int := __floatsidf |}; [intros a R; now apply signed_shift_converts|vm_compute; discriminate]. Defined.

Definition INT_MAX : Z := 2 ^ 31 - 1.
Definition INT_MIN : Z := - 2 ^ 31.
(** [__builtin_sadd_overflow]: whether the sum overflows, and the sum. *)
Definition sadd_overflow (a b : Z) : bool * Z := (negb (a + b =? sint 32 (a + b)), sint 32 (a + b)).

Section Functions.
Context `{FpMath}.

(** [x == 0.0], [x != x] and [x < y]. *)
Definition eq_zero (x : Z) : bool := __leXf2__ x 0 =? 0.
Definition ne_self (x : Z) : bool := nonzero (__leXf2__ x x).
Definition fp_less (x y : Z) : bool := __leXf2__ x y <? 0.
(** [crt_isnan], a compiler builtin. *)
Definition crt_isnan (x : Z) : bool := (x .& absMask) >? infRep.

(** [(rep & exponentMask) >> significandBits]. *)
Definition biased_exponent (rep : Z) : Z := (rep .& exponentMask) >>[typeWidth] significandBits.

Definition __compiler_rt_logbX (x : Z) : Z :=
  let rep := x in
  let exp := biased_exponent rep in
  if exp =? maxExponent then
    if ((rep .& signBit) =? 0) || ne_self x then x else negXf2 x
  else if eq_zero x then infRep .| signBit
  else if negb (exp =? 0) then from_int (ssub 32 exp exponentBias)
  else
    let rep := rep .& absMask in
    let '(rep, e) := normalize rep in
    let shift := ssub 32 1 e in
    let exp := biased_exponent rep in
    from_int (ssub 32 (ssub 32 exp exponentBias) shift).

(** The literal [2.0f] in the format. *)
Definition twoRep : Z := (exponentBias + 1) <<[typeWidth] significandBits.

(** The significand without its implicit bit, and the exponent. *)
Definition scalbn_unpack (rep : Z) : Z * Z :=
  let exp := biased_exponent rep in
  let sig := rep .& significandMask in
  if exp =? 0 then
    let '(sig, e) := normalize sig in (sig .& unot typeWidth implicitBit, exp + e)
  else (sig, exp).

Definition __compiler_rt_scalbnX (x y : Z) : Z :=
  let rep := x in
  if eq_zero x || (biased_exponent rep =? maxExponent) then x
  else
    let '(sig, exp) := scalbn_unpack rep in
    let '(overflow, exp) := sadd_overflow exp y in
    let exp := if overflow then if y >=? 0 then INT_MAX else INT_MIN else exp in
    let sign := rep .& signBit in
    if exp >=? maxExponent then __mulXf3__ (sign .| ((maxExponent - 1) <<[typeWidth] significandBits)) twoRep
    else if exp <=? 0 then
      let tmp := (sign .| (1 <<[typeWidth] significandBits)) .| sig in
      let exp := exp + (exponentBias - 1) in
      let exp := if exp <? 1 then 1 else exp in
      __mulXf3__ tmp (exp <<[typeWidth] significandBits)
    else (sign .| (exp <<[typeWidth] significandBits)) .| sig.

Definition __compiler_rt_fmaxX (x y : Z) : Z := if crt_isnan x || fp_less x y then y else x.
End Functions.

Definition __compiler_rt_logbf (x : Z) : Z := @__compiler_rt_logbX single_precision single_ops single_math x.
Definition __compiler_rt_scalbnf (x y : Z) : Z := @__compiler_rt_scalbnX single_precision single_ops x y.
Definition __compiler_rt_fmaxf (x y : Z) : Z := @__compiler_rt_fmaxX single_precision x y.
Definition __compiler_rt_logb (x : Z) : Z := @__compiler_rt_logbX double_precision double_ops double_math x.
Definition __compiler_rt_scalbn (x y : Z) : Z := @__compiler_rt_scalbnX double_precision double_ops x y.
Definition __compiler_rt_fmax (x y : Z) : Z := @__compiler_rt_fmaxX double_precision x y.

Section Fields.
Context `{FpMath}.
Notation sb := significandBits.
Notation W := typeWidth.
Notation ib := (2 ^ significandBits).

Lemma biased_exponent_val rep : is_uint W rep -> biased_exponent rep = fp_abs rep / ib.
Proof.
  intros R. pose proof width_bounds as B. rewrite <- (proj1 (fields_of rep R)). unfold biased_exponent, shr. rewrite Z.shiftr_land. f_equal.
  change exponentMask with infRep. rewrite infRep_val, (Z.mod_small sb) by lia. rewrite Z.shiftr_div_pow2 by lia. apply Z.div_mul. pose proof sig_pow_pos. lia.
Qed.

Lemma biased_exponent_special rep : is_uint W rep -> (biased_exponent rep =? maxExponent) = (infRep <=? fp_abs rep).
Proof.
  intros R. rewrite biased_exponent_val by exact R. destruct (rep_parts rep R) as (_ & A & _ & _). pose proof sig_pow_pos as Hp.
  pose proof signBit_split as S. rewrite S in A. rewrite infRep_val, maxExponent_val. set (x := fp_abs rep) in *.
  assert (x / ib < 2 ^ exponentBits) by (apply Z.div_lt_upper_bound; lia). apply eq_true_iff_eq. rewrite Z.eqb_eq, Z.leb_le. split.
  - intros E. pose proof (Z.mul_div_le x ib Hp). nia.
  - intros L. assert (2 ^ exponentBits - 1 <= x / ib) by (apply Z.div_le_lower_bound; lia). lia.
Qed.

Lemma zero_uint : is_uint W 0.
Proof. pose proof width_bounds. unfold is_uint. pose proof (pow2_pos W). lia. Qed.

Lemma fpval_pos x : 0 < x -> 0 < fpval x.
Proof. intros. rewrite <- fpval_zero. apply fpval_lt; lia. Qed.

Lemma fp_value_abs rep : is_uint W rep -> Z.abs (fp_value rep) = fpval (fp_abs rep).
Proof.
  intros R. destruct (rep_parts rep R) as (_ & A & _ & _). unfold fp_value. assert (0 <= fpval (fp_abs rep)) by (apply fpval_step; lia). destruct (fp_neg rep); lia.
Qed.

Lemma fp_value_zero rep : is_uint W rep -> fp_value rep = 0 <-> fp_abs rep = 0.
Proof.
  intros R. destruct (rep_parts rep R) as (_ & A & _ & _). pose proof (fp_value_abs rep R) as V. split.
  - intros E. destruct (Z.eq_dec (fp_abs rep) 0); [assumption|]. assert (0 < fpval (fp_abs rep)) by (apply fpval_pos; lia). lia.
  - intros E. rewrite E, fpval_zero in V. lia.
Qed.

Lemma zero_value : fp_value 0 = 0.
Proof. apply fp_value_zero; [exact zero_uint|]. unfold fp_abs. apply Zmod_0_l. Qed.

Lemma eq_zero_spec x : is_uint W x -> is_nan x = false -> eq_zero x = (fp_abs x =? 0).
Proof.
  intros R Hn. unfold eq_zero. rewrite (proj1 (le_spec x 0 R zero_uint)). rewrite Hn.
  assert (N0 : is_nan 0 = false) by (unfold is_nan, fp_abs; rewrite Zmod_0_l; pose proof infRep_bounds; apply Z.ltb_ge; lia). rewrite N0. cbn [orb].
  rewrite zero_value. unfold order_sign. pose proof (fp_value_zero x R) as Z0. apply eq_true_iff_eq. rewrite !Z.eqb_eq. rewrite <- Z0.
  destruct (Z.compare_spec (fp_value x) 0); split; intros; lia.
Qed.
End Fields.

(** ** logb *)

Section Logb.
Context `{FpMath}.
Notation sb := significandBits.
Notation W := typeWidth.
Notation ib := (2 ^ significandBits).

Lemma ssub32_small a b : - 2 ^ 20 <= a <= 2 ^ 20 -> - 2 ^ 20 <= b <= 2 ^ 20 -> ssub 32 a b = a - b.
Proof. intros. unfold ssub. apply sint_small; unfold is_sint; lia. Qed.

(** A significand times a power of two has the logarithm of its scale. *)
Lemma log2_scaled s n : 0 <= n -> ib <= s < 2 * ib -> 2 ^ (sb + n) <= s * 2 ^ n < 2 ^ (sb + n + 1).
Proof.
  intros Hn Hs. pose proof width_bounds as B. pose proof (pow2_pos n Hn). rewrite pow2_split by lia.
  replace (sb + n + 1) with (1 + (sb + n)) by lia. rewrite pow2_split by lia. rewrite pow2_split by lia. change (2 ^ 1) with 2. nia.
Qed.

Lemma logb_normal x : is_uint W x -> ib <= fp_abs x < infRep ->
  exists k, 2 ^ (unitExp + k) <= fpval (fp_abs x) < 2 ^ (unitExp + k + 1) /\ 0 <= unitExp + k /\ __compiler_rt_logbX x = from_int k /\ is_sint 32 k.
Proof.
  intros R Hx. pose proof sig_pow_pos as Hp. pose proof width_bounds as B. pose proof maxExponent_bounds as ME. pose proof bias_bounds as BB.
  unfold __compiler_rt_logbX. rewrite biased_exponent_special by exact R. rewrite (proj2 (Z.leb_gt infRep (fp_abs x))) by lia.
  rewrite eq_zero_spec by (try exact R; apply Z.ltb_ge; lia). rewrite (proj2 (Z.eqb_neq (fp_abs x) 0)) by lia.
  rewrite biased_exponent_val by exact R. set (y := fp_abs x) in *. rewrite infRep_val in Hx.
  assert (E1 : 1 <= y / ib) by (apply Z.div_le_lower_bound; lia). assert (E2 : y / ib < maxExponent) by (apply Z.div_lt_upper_bound; lia).
  rewrite (proj2 (Z.eqb_neq (y / ib) 0)) by lia. cbn [negb]. rewrite ssub32_small by lia. exists (y / ib - exponentBias). unfold unitExp.
  replace (exponentBias + sb - 1 + (y / ib - exponentBias)) with (sb + (y / ib - 1)) by lia. split; [|split; [lia|split; [reflexivity|unfold is_sint; lia]]].
  assert (0 <= y mod ib < ib) by (apply Z.mod_pos_bound; lia).
  unfold fpval. destruct (Z.eqb_spec (y / ib) 0); [lia|]. apply log2_scaled; lia.
Qed.

Lemma logb_subnormal x : is_uint W x -> 0 < fp_abs x < ib ->
  exists k, 2 ^ (unitExp + k) <= fpval (fp_abs x) < 2 ^ (unitExp + k + 1) /\ 0 <= unitExp + k /\ __compiler_rt_logbX x = from_int k /\ is_sint 32 k.
Proof.
  intros R Hx. pose proof sig_pow_pos as Hp. pose proof exponentBits_bounds as B. pose proof maxExponent_bounds as ME. pose proof bias_bounds as BB. pose proof infRep_bounds as IB.
  assert (HI : ib <= infRep) by (rewrite infRep_val; nia). destruct (rep_parts x R) as (_ & _ & La & _).
  unfold __compiler_rt_logbX. rewrite biased_exponent_special by exact R. rewrite (proj2 (Z.leb_gt infRep (fp_abs x))) by lia.
  rewrite eq_zero_spec by (try exact R; apply Z.ltb_ge; lia). rewrite (proj2 (Z.eqb_neq (fp_abs x) 0)) by lia.
  rewrite biased_exponent_val, La by exact R. set (y := fp_abs x) in *. rewrite (Z.div_small y) by lia. cbn [Z.eqb negb].
  destruct (normalize_spec y Hx) as (k & -> & Hk & Hs). rewrite (ssub32_small 1) by lia. replace (1 - (1 - k)) with k by lia.
  assert (P : 2 * ib <= 2 ^ (W - 1)) by (rewrite signBit_split; assert (2 <= 2 ^ exponentBits) by (rewrite (pow2_S exponentBits) by lia; assert (0 < 2 ^ (exponentBits - 1)) by (apply pow2_pos; lia); lia); nia).
  assert (P' : 2 ^ W = 2 * 2 ^ (W - 1)) by (apply pow2_S; lia).
  rewrite biased_exponent_val by (unfold is_uint; lia). unfold fp_abs. rewrite (Z.mod_small (y * 2 ^ k)) by lia.
  replace (y * 2 ^ k / ib) with 1 by (apply Z.div_unique with (y * 2 ^ k - ib); lia). rewrite !ssub32_small by (rewrite ?ssub32_small; lia).
  exists (1 - exponentBias - k). unfold unitExp. replace (exponentBias + sb - 1 + (1 - exponentBias - k)) with (sb - k) by lia.
  split; [|split; [lia|split; [reflexivity|unfold is_sint; lia]]]. unfold fpval. rewrite Z.div_small, Z.mod_small by lia. cbn [Z.eqb].
  pose proof (pow2_pos k ltac:(lia)). assert (E : ib = 2 ^ k * 2 ^ (sb - k)) by (rewrite <- pow2_split by lia; f_equal; lia).
  replace (sb - k + 1) with (1 + (sb - k)) by lia. rewrite pow2_split by lia. change (2 ^ 1) with 2. nia.
Qed.

Lemma logb_special x : is_uint W x ->
  (fp_abs x = 0 -> __compiler_rt_logbX x = with_sign true infRep) /\ (is_inf x = true -> __compiler_rt_logbX x = infRep) /\ (is_nan x = true -> __compiler_rt_logbX x = x).
Proof.
  intros R. pose proof infRep_bounds as IB. pose proof sig_pow_pos as Hp. pose proof exponentBits_bounds as B. destruct (rep_parts x R) as (Ex & Ax & _ & Sx). unfold __compiler_rt_logbX.
  rewrite biased_exponent_special, Sx by exact R. assert (Hh : 2 ^ (W - 1) <> 0) by lia. split; [|split].
  - intros Z0. rewrite Z0, (proj2 (Z.leb_gt infRep 0)) by lia. rewrite eq_zero_spec, Z0 by (try exact R; unfold is_nan; rewrite Z0; apply Z.ltb_ge; lia).
    cbn [Z.eqb]. rewrite signBit_val. apply (with_sign_lor true infRep). lia.
  - intros I. apply Z.eqb_eq in I. rewrite I, (proj2 (Z.leb_le infRep infRep)) by lia. unfold ne_self. rewrite (proj1 (le_spec x x R R)).
    assert (N : is_nan x = false) by (apply Z.ltb_ge; lia). rewrite N. cbn [orb]. unfold order_sign. rewrite Z.compare_refl. cbn [nonzero Z.eqb negb].
    unfold nonzero. cbn. rewrite orb_false_r. destruct (fp_neg x) eqn:Sg.
    + rewrite (proj2 (Z.eqb_neq (2 ^ (W - 1)) 0) Hh). unfold negXf2. destruct (flip_sign x R) as (R' & N' & A'). rewrite Sg in N'. destruct (rep_parts _ R') as (E' & _).
      rewrite E', N', A', I. reflexivity.
    + cbn [Z.eqb]. rewrite Ex, I. reflexivity.
  - intros N. assert (L : infRep < fp_abs x) by (now apply Z.ltb_lt). rewrite (proj2 (Z.leb_le infRep (fp_abs x))) by lia. unfold ne_self. rewrite (proj1 (le_spec x x R R)), N. cbn. now rewrite orb_true_r.
Qed.

Lemma logb_finite x : is_uint W x -> is_finite x = true -> fp_abs x <> 0 ->
  exists k, 2 ^ (unitExp + k) <= fpval (fp_abs x) < 2 ^ (unitExp + k + 1) /\ 0 <= unitExp + k /\ __compiler_rt_logbX x = from_int k /\ is_sint 32 k.
Proof.
  intros R Fi Nz. apply Z.ltb_lt in Fi. destruct (rep_parts x R) as (_ & A & _ & _). destruct (Z_lt_le_dec (fp_abs x) ib); [apply logb_subnormal|apply logb_normal]; auto; lia.
Qed.
End Logb.

(** [logb] is exact in kind: for a finite number other than zero it
    returns the [int] k with 2^k <= |x| < 2^(k+1), converted to the format
    (subnormal numbers included); zero gives minus infinity, an infinity of
    either sign plus infinity, and a NaN itself.  ([2 ^ unitExp] is the number
    1 in the units of [fp_value].) *)
Theorem logb_exponent (F : FpFormat) (O : FpOps) (M : FpMath) x : is_uint typeWidth x ->
  (is_finite x = true -> fp_abs x <> 0 -> exists k, 0 <= unitExp + k /\ 2 ^ (unitExp + k) <= Z.abs (fp_value x) < 2 ^ (unitExp + k + 1) /\ converts k (__compiler_rt_logbX x)) /\
  (fp_abs x = 0 -> __compiler_rt_logbX x = with_sign true infRep) /\
  (is_inf x = true -> __compiler_rt_logbX x = infRep) /\ (is_nan x = true -> __compiler_rt_logbX x = x).
Proof.
  intros R. split; [|apply logb_special; exact R]. intros Fi Nz. destruct (logb_finite x R Fi Nz) as (k & V & P & E & I).
  exists k. rewrite fp_value_abs, E by exact R. split; [exact P|]. split; [exact V|now apply from_int_ok].
Qed.

Lemma logb_exponent_witness : exists k, 0 <= @unitExp single_precision + k /\
  2 ^ (@unitExp single_precision + k) <= Z.abs (@fp_value single_precision 0x00000007) < 2 ^ (@unitExp single_precision + k + 1) /\
  @converts single_precision k (__compiler_rt_logbf 0x00000007).
Proof. refine (proj1 (logb_exponent single_precision single_ops single_math 7 _) eq_refl _); [unfold is_uint; cbn; lia|vm_compute; discriminate]. Defined.

(** ** scalbn *)

Section Scalbn.
Context `{FpMath} {M : FpWideMul}.
Notation sb := significandBits.
Notation W := typeWidth.
Notation ib := (2 ^ significandBits).

Lemma clear_implicit q : ib <= q < 2 * ib -> q .& unot W implicitBit = q - ib.
Proof.
  intros Hq. pose proof exponentBits_bounds as B. pose proof sig_pow_pos as Hp. rewrite implicitBit_val. unfold unot, uint.
  rewrite <- Z.land_ones by lia. rewrite (Z.land_comm _ (Z.ones W)), Z.land_assoc. rewrite Z.land_ones by lia.
  assert (2 * ib <= 2 ^ W) by (rewrite <- Z.pow_succ_r by lia; apply Z.pow_le_mono_r; lia).
  rewrite Z.mod_small by lia. replace q with (Z.lor (1 * ib) (q - ib)) at 1 by (rewrite lor_add_disjoint by lia; lia). rewrite Z.mul_1_l.
  rewrite Z.land_lor_distr_l, Z.land_lnot_diag, Z.lor_0_l. apply Z.bits_inj'. intros i Hi. rewrite Z.land_spec, Z.lnot_spec by lia.
  destruct (Z.eq_dec i sb) as [->|Hne].
  - rewrite Z.pow2_bits_true by lia. rewrite Z.bits_above_log2; [reflexivity|lia|]. destruct (Z.eq_dec (q - ib) 0) as [->|]; [change (Z.log2 0) with 0; lia|]. apply Z.log2_lt_pow2; lia.
  - rewrite Z.pow2_bits_false by lia. apply andb_true_r.
Qed.

Lemma scalbn_unpack_spec x : is_uint W x -> 0 < fp_abs x < infRep ->
  let '(sig, exp) := scalbn_unpack x in 0 <= sig < ib /\ unpacked (fp_abs x) exp (ib + sig).
Proof.
  intros R Hx. pose proof sig_pow_pos as Hp. pose proof exponentBits_bounds as B. pose proof maxExponent_bounds as ME. rewrite infRep_val in Hx. unfold scalbn_unpack.
  rewrite biased_exponent_val, (proj2 (fields_of x R)) by exact R. set (y := fp_abs x) in *. unfold unpacked.
  pose proof (Z.mod_pos_bound y ib Hp) as Hm. assert (D : y = ib * (y / ib) + y mod ib) by (apply Z.div_mod; lia). destruct (Z.eqb_spec (y / ib) 0) as [E|E].
  - assert (Hy : 0 < y < ib) by nia. rewrite (Z.mod_small y) by lia. destruct (normalize_spec y Hy) as (k & -> & Hk & Hs). rewrite clear_implicit by lia.
    split; [lia|]. replace (ib + (y * 2 ^ k - ib)) with (y * 2 ^ k) by lia. split; [lia|]. split; [lia|]. unfold fpval. rewrite E. cbn [Z.eqb]. rewrite Z.mod_small by lia.
    rewrite <- Z.mul_assoc, <- pow2_split by lia. do 2 f_equal. lia.
  - assert (0 <= y / ib) by (apply Z.div_pos; lia). assert (y / ib < maxExponent) by (apply Z.div_lt_upper_bound; lia). split; [lia|]. split; [lia|]. split; [lia|].
    unfold fpval. destruct (Z.eqb_spec (y / ib) 0); [lia|]. rewrite pow2_split by lia. ring.
Qed.

(** Sign, exponent and significand put together. *)
Lemma assemble (n : bool) E sig : 0 <= E < maxExponent -> 0 <= sig < ib ->
  (((if n then 2 ^ (W - 1) else 0) .| (E <<[W] sb)) .| sig) = with_sign n (E * ib + sig) /\ 0 <= E * ib + sig < infRep.
Proof.
  intros HE Hs. pose proof exponentBits_bounds as B. pose proof infRep_bounds as I. pose proof infRep_val as IV. assert (R : 0 <= E * ib + sig < infRep) by nia. split; [|exact R].
  rewrite ushl_spec by lia. assert (P' : 2 ^ W = 2 * 2 ^ (W - 1)) by (apply pow2_S; lia). rewrite uint_small by (unfold is_uint; nia).
  rewrite <- Z.lor_assoc, Z.lor_comm, lor_add_disjoint by lia. apply with_sign_lor. lia.
Qed.

Lemma with_sign_finite n y : 0 <= y < infRep -> is_uint W (with_sign n y) /\ is_finite (with_sign n y) = true /\ fp_neg (with_sign n y) = n /\ fp_abs (with_sign n y) = y.
Proof.
  intros Hy. pose proof infRep_bounds. assert (Hy' : 0 <= y < 2 ^ (W - 1)) by lia. destruct (with_sign_parts n y Hy') as (R & N & A). split; [exact R|]. split; [unfold is_finite; rewrite A; apply Z.ltb_lt; lia|]. now split.
Qed.

(** The product with a positive power of two [E * ib]. *)
Lemma mul_power (n : bool) y E : 0 <= y < infRep -> 1 <= E < maxExponent ->
  exists r, rounds_to (fpval y * (ib * 2 ^ (E - 1))) (2 ^ unitExp) r /\ __mulXf3__ (with_sign n y) (E <<[W] sb) = with_sign n r.
Proof.
  intros Hy HE. pose proof sig_pow_pos as Hp. assert (HE' : 0 <= E < maxExponent) by lia. assert (H0' : 0 <= 0 < ib) by lia. destruct (assemble false E 0 HE' H0') as [EQ RG]. rewrite Z.lor_0_l, Z.lor_0_r in EQ. rewrite EQ.
  destruct (with_sign_finite n y Hy) as (R1 & F1 & N1 & A1). destruct (with_sign_finite false (E * ib + 0) RG) as (R2 & F2 & N2 & A2).
  destruct (mul_finite_spec _ _ R1 R2 F1 F2) as (r & RT & ->). unfold product_sign. rewrite N1, N2, xorb_false_r. exists r. split; [|reflexivity].
  rewrite Z.abs_mul, !fp_value_abs, A1, A2 in RT by assumption. replace (E * ib + 0) with ((E - 1) * ib + ib) in RT by ring. rewrite fpval_parts in RT by lia. exact RT.
Qed.

Lemma rounds_to_ratio a b c d r : 0 < b -> 0 < d -> a * d = c * b -> rounds_to a b r -> rounds_to c d r.
Proof.
  intros Hb Hd E R. apply (proj1 (rounds_to_scale b c d r Hb)). apply (proj2 (rounds_to_scale d a b r Hd)) in R. replace (b * c) with (d * a) by lia. replace (b * d) with (d * b) by lia. exact R.
Qed.

Lemma rounds_to_tiny num den : 0 <= num -> 2 * num < den -> rounds_to num den 0.
Proof.
  intros Hn L. pose proof infRep_bounds. assert (V : fpval 1 = 1).
  { pose proof sig_pow_pos. pose proof exponentBits_bounds as B. assert (2 ^ 1 <= ib) by (apply Z.pow_le_mono_r; lia).
    replace 1 with ((1 - 1) * ib + 1) at 1 by lia. rewrite fpval_parts by lia. reflexivity. }
  split; [lia|]. split; [now left|].
  right. left. change (0 + 1) with 1. assert (Z0 : fpval 0 = 0) by apply fpval_zero. rewrite Z0, V. lia.
Qed.

(** The exact result is [num / den]. *)
Definition scaled_num (x y : Z) : Z := fpval x * 2 ^ Z.max y 0.
Definition scaled_den (y : Z) : Z := 2 ^ Z.max (- y) 0.

Lemma scaled_den_pos y : 0 < scaled_den y.
Proof. apply pow2_pos. lia. Qed.

(** The exact result as the significand at the new exponent. *)
Lemma scaled_sum x e s y j : unpacked x e s -> 0 <= j -> 0 <= e + y - 1 + j -> scaled_num x y * 2 ^ j = scaled_den y * (s * 2 ^ (e + y - 1 + j)).
Proof.
  intros (Hs & He & E) Hj Hk. pose proof exponentBits_bounds as B. apply (Z.mul_reg_r _ _ (2 ^ sb)); [pose proof sig_pow_pos; lia|]. unfold scaled_num, scaled_den.
  replace (fpval x * 2 ^ Z.max y 0 * 2 ^ j * 2 ^ sb) with ((fpval x * 2 ^ sb) * (2 ^ Z.max y 0 * 2 ^ j)) by ring. rewrite E.
  replace (s * 2 ^ (e - 1 + sb) * (2 ^ Z.max y 0 * 2 ^ j)) with (s * (2 ^ (e - 1 + sb) * (2 ^ Z.max y 0 * 2 ^ j))) by ring.
  replace (2 ^ Z.max (- y) 0 * (s * 2 ^ (e + y - 1 + j)) * 2 ^ sb) with (s * (2 ^ Z.max (- y) 0 * (2 ^ (e + y - 1 + j) * 2 ^ sb))) by ring.
  rewrite <- !pow2_split by lia. do 2 f_equal. lia.
Qed.

Lemma scalbn_normal x e s y : unpacked x e s -> 1 <= e + y < maxExponent -> rounds_to (scaled_num x y) (scaled_den y) ((e + y - 1) * ib + s).
Proof.
  intros U HE. pose proof U as (Hs & _ & _). pose proof (scaled_sum x e s y 0 U ltac:(lia) ltac:(lia)) as E. rewrite Z.pow_0_r, Z.mul_1_r, Z.add_0_r in E.
  rewrite E, <- fpval_parts by lia. apply rounds_to_exact; [apply scaled_den_pos|]. rewrite infRep_val. nia.
Qed.

Lemma scalbn_overflow x e s y : unpacked x e s -> maxExponent <= e + y -> rounds_to (scaled_num x y) (scaled_den y) infRep.
Proof.
  intros U HE. pose proof U as (Hs & He & _). pose proof maxExponent_bounds as ME. pose proof sig_pow_pos as Hp.
  assert (E : scaled_num x y * 2 ^ 0 = scaled_den y * (s * 2 ^ (e + y - 1 + 0))) by (apply scaled_sum; [exact U|lia|lia]). rewrite Z.pow_0_r, Z.mul_1_r, Z.add_0_r in E.
  apply rounds_to_inf; [apply scaled_den_pos|]. rewrite E, fpval_inf. apply Z.mul_le_mono_nonneg_l; [pose proof (scaled_den_pos y); lia|].
  apply Z.mul_le_mono_nonneg; [lia|lia|apply Z.pow_nonneg; lia|apply Z.pow_le_mono_r; lia].
Qed.

Lemma unitExp_val : unitExp = exponentBias + sb - 1.
Proof. reflexivity. Qed.

(** The overflow branch: the largest power of two, doubled, is infinite. *)
Lemma double_overflows (n : bool) : __mulXf3__ (with_sign n ((maxExponent - 1) * ib + 0)) twoRep = with_sign n infRep.
Proof.
  pose proof maxExponent_bounds as ME. pose proof exponentBits_bounds as B. pose proof bias_bounds as BB. pose proof sig_pow_pos as Hp. pose proof infRep_val as IV.
  assert (HB : exponentBias + 1 < maxExponent) by (rewrite exponentBias_val, maxExponent_val, (pow2_S exponentBits) by lia; assert (2 ^ 4 <= 2 ^ (exponentBits - 1)) by (apply Z.pow_le_mono_r; lia); lia).
  assert (Hy : 0 <= (maxExponent - 1) * ib + 0 < infRep) by nia. assert (HE : 1 <= exponentBias + 1 < maxExponent) by lia.
  destruct (mul_power n _ (exponentBias + 1) Hy HE) as (r & RT & E). unfold twoRep. rewrite E. f_equal.
  assert (PU : 0 < 2 ^ unitExp) by (apply pow2_pos; rewrite unitExp_val; lia). apply (rounds_to_unique _ _ _ _ PU RT). apply rounds_to_inf; [exact PU|]. rewrite fpval_inf.
  replace ((maxExponent - 1) * ib + 0) with ((maxExponent - 1 - 1) * ib + ib) by ring. rewrite fpval_parts by lia. rewrite unitExp_val.
  apply Z.eq_le_incl. rewrite <- !pow2_split by lia. f_equal. lia.
Qed.

(** The branch below the normal range: the product rounds the exact result. *)
Lemma scalbn_underflow (n : bool) x e s y X : unpacked x e s -> e + y <= 0 -> X = e + y \/ X = INT_MIN /\ e + y < INT_MIN ->
  let E := if X + (exponentBias - 1) <? 1 then 1 else X + (exponentBias - 1) in
  exists r, rounds_to (scaled_num x y) (scaled_den y) r /\ __mulXf3__ (with_sign n s) (E <<[W] sb) = with_sign n r.
Proof.
  intros U HE HX E. pose proof U as (Hs & He & HU). pose proof maxExponent_bounds as ME. pose proof exponentBits_bounds as B. pose proof bias_bounds as BB. pose proof sig_pow_pos as Hp.
  pose proof infRep_val as IV. pose proof wide_range as WR. pose proof unitExp_val as UV. assert (PU : 0 < 2 ^ unitExp) by (apply pow2_pos; lia).
  assert (HB : exponentBias < maxExponent) by (rewrite exponentBias_val, maxExponent_val, (pow2_S exponentBits) by lia; assert (0 < 2 ^ (exponentBits - 1)) by (apply pow2_pos; lia); lia).
  assert (Hy : 0 <= s < infRep) by nia. assert (HE1 : 1 <= E < maxExponent) by (unfold E, INT_MIN in *; destruct (Z.ltb_spec (X + (exponentBias - 1)) 1); lia).
  destruct (mul_power n s E Hy HE1) as (r & RT & ->). exists r. split; [|reflexivity]. pose proof (scaled_den_pos y) as DP.
  assert (V : fpval s = s) by (replace s with ((1 - 1) * ib + s) at 1 by ring; rewrite fpval_parts by lia; change (1 - 1) with 0; rewrite Z.pow_0_r; ring). rewrite V in RT.
  unfold E in *. destruct (Z.ltb_spec (X + (exponentBias - 1)) 1) as [L|L].
  - assert (Low : e + y <= 1 - exponentBias) by (unfold INT_MIN in HX; lia).
    assert (R0 : rounds_to (s * (ib * 2 ^ (1 - 1))) (2 ^ unitExp) 0).
    { apply rounds_to_tiny; [change (1 - 1) with 0; lia|]. change (1 - 1) with 0. assert (2 ^ (2 * sb + 2) <= 2 ^ unitExp) by (apply Z.pow_le_mono_r; lia).
      replace (2 * sb + 2) with (2 + (sb + sb)) in * by lia. rewrite !pow2_split in * by lia. change (2 ^ 2) with 4 in *. nia. }
    rewrite (rounds_to_unique _ _ _ _ PU RT R0). apply rounds_to_tiny; [unfold scaled_num; apply Z.mul_nonneg_nonneg; [unfold unpacked in U; assert (0 <= fpval x * ib) by (rewrite HU; apply Z.mul_nonneg_nonneg; [lia|apply Z.pow_nonneg; lia]); nia|apply Z.pow_nonneg; lia]|].
    assert (S : scaled_num x y * 2 ^ (1 - e - y) = scaled_den y * (s * 2 ^ (e + y - 1 + (1 - e - y)))) by (apply scaled_sum; [exact U|lia|lia]).
    replace (e + y - 1 + (1 - e - y)) with 0 in S by lia. rewrite Z.mul_1_r in S. assert (2 ^ (sb + 2) <= 2 ^ (1 - e - y)) by (apply Z.pow_le_mono_r; lia).
    rewrite pow2_split in * by lia. change (2 ^ 2) with 4 in *. nia.
  - assert (EX : X = e + y) by (unfold INT_MIN in HX; lia). rewrite EX in *. apply (rounds_to_ratio (s * (ib * 2 ^ (e + y + (exponentBias - 1) - 1))) (2 ^ unitExp)); [exact PU|exact DP| |exact RT].
    rewrite (scaled_sum x e s y unitExp U) by lia. replace (e + y - 1 + unitExp) with (sb + (e + y + (exponentBias - 1) - 1)) by lia. rewrite pow2_split by lia. ring.
Qed.

(** The exponent after the saturating addition. *)
Lemma saturated e y : - 2 ^ 20 <= e <= 2 ^ 20 -> is_sint 32 y ->
  let '(overflow, exp) := sadd_overflow e y in
  let X := if overflow then if y >=? 0 then INT_MAX else INT_MIN else exp in
  X = e + y \/ X = INT_MAX /\ INT_MAX < e + y \/ X = INT_MIN /\ e + y < INT_MIN.
Proof.
  intros He Hy. unfold sadd_overflow, INT_MAX, INT_MIN. unfold is_sint in Hy. destruct (Z.eqb_spec (e + y) (sint 32 (e + y))) as [E|E]; cbn [negb]; [left; congruence|].
  right. rewrite Z.geb_leb. assert (N : ~ is_sint 32 (e + y)) by (intros R; apply E; symmetry; apply sint_small; [lia|exact R]). unfold is_sint in N.
  destruct (Z.leb_spec 0 y); [left|right]; lia.
Qed.

Lemma scalbn_spec x y : is_uint W x -> is_finite x = true -> is_sint 32 y ->
  exists r, rounds_to (scaled_num (fp_abs x) y) (scaled_den y) r /\ __compiler_rt_scalbnX x y = with_sign (fp_neg x) r.
Proof.
  intros R Fi Hy. apply Z.ltb_lt in Fi. destruct (rep_parts x R) as (Ex & Ax & _ & Sx). pose proof maxExponent_bounds as ME. pose proof exponentBits_bounds as B.
  unfold __compiler_rt_scalbnX. rewrite eq_zero_spec by (try exact R; apply Z.ltb_ge; lia). rewrite biased_exponent_special by exact R. rewrite (proj2 (Z.leb_gt infRep (fp_abs x))) by lia.
  rewrite orb_false_r. destruct (Z.eqb_spec (fp_abs x) 0) as [Z0|Nz].
  { exists 0. rewrite Z0 in *. split; [|exact Ex]. unfold scaled_num. rewrite fpval_zero. apply rounds_to_tiny; [lia|pose proof (scaled_den_pos y); lia]. }
  assert (Hx : 0 < fp_abs x < infRep) by lia. pose proof (scalbn_unpack_spec x R Hx) as HU. destruct (scalbn_unpack x) as [sig e]. destruct HU as [Hsig U].
  pose proof U as (_ & He & _). assert (He' : - 2 ^ 20 <= e <= 2 ^ 20) by lia. pose proof (saturated e y He' Hy) as HX. destruct (sadd_overflow e y) as [ov ex]. cbv zeta in HX.
  set (X := if ov then _ else ex) in *. rewrite Sx, Z.geb_leb. destruct (Z.leb_spec maxExponent X) as [L|L].
  - exists infRep. split; [apply (scalbn_overflow _ e (ib + sig)); [exact U|unfold INT_MAX, INT_MIN in HX; lia]|].
    assert (HM : 0 <= maxExponent - 1 < maxExponent) by lia. assert (H0' : 0 <= 0 < ib) by (pose proof sig_pow_pos; lia).
    destruct (assemble (fp_neg x) (maxExponent - 1) 0 HM H0') as [EQ _]. rewrite Z.lor_0_r in EQ. rewrite EQ. apply double_overflows.
  - destruct (Z.leb_spec X 0) as [L0|L0].
    + assert (HE : e + y <= 0) by (unfold INT_MAX, INT_MIN in HX; lia). assert (HX' : X = e + y \/ X = INT_MIN /\ e + y < INT_MIN) by (unfold INT_MAX, INT_MIN in *; lia).
      destruct (scalbn_underflow (fp_neg x) _ e (ib + sig) y X U HE HX') as (r & RT & EQ). exists r. split; [exact RT|]. rewrite <- EQ. f_equal.
      assert (H1' : 0 <= 1 < maxExponent) by lia. destruct (assemble (fp_neg x) 1 sig H1' Hsig) as [-> _]. f_equal. ring.
    + assert (EX : X = e + y) by (unfold INT_MAX, INT_MIN in HX; lia). rewrite EX in *. exists ((e + y - 1) * ib + (ib + sig)). split; [apply scalbn_normal; [exact U|lia]|].
      assert (HE : 0 <= e + y < maxExponent) by lia. destruct (assemble (fp_neg x) (e + y) sig HE Hsig) as [-> _]. f_equal. ring.
Qed.

Lemma scalbn_nonfinite x y : is_uint W x -> is_finite x = false -> __compiler_rt_scalbnX x y = x.
Proof.
  intros R Fi. apply Z.ltb_ge in Fi. unfold __compiler_rt_scalbnX. rewrite biased_exponent_special by exact R. rewrite (proj2 (Z.leb_le infRep (fp_abs x))) by lia. now rewrite orb_true_r.
Qed.
End Scalbn.

Lemma fmax_spec `{FpFormat} x y : is_uint typeWidth x -> is_uint typeWidth y ->
  let m := __compiler_rt_fmaxX x y in
  (m = x \/ m = y) /\ (is_nan x = true -> m = y) /\ (is_nan y = true -> is_nan x = false -> m = x) /\
  (is_nan x = false -> is_nan y = false -> fp_value x <= fp_value m /\ fp_value y <= fp_value m).
Proof.
  intros Rx Ry. cbv zeta. destruct (rep_parts x Rx) as (_ & _ & Lx & _). unfold __compiler_rt_fmaxX, crt_isnan, fp_less. rewrite Lx, (proj1 (le_spec x y Rx Ry)), Z.gtb_ltb. fold (is_nan x).
  destruct (is_nan x); cbn [orb]; [repeat split; auto; discriminate|]. destruct (is_nan y); cbn [orb Z.ltb Z.compare]; [repeat split; auto; discriminate|].
  unfold order_sign. destruct (Z.compare_spec (fp_value x) (fp_value y)); cbn; repeat split; auto; intros; try discriminate; lia.
Qed.

(** C28: [scalbn] is correctly rounded: for a finite [x] and any [int] [y] the
    result is x * 2^y rounded once to nearest even, through overflow to
    infinity, gradual underflow and exponents that overflow an [int], with
    the sign of [x]; infinities and NaNs are returned as they are. *)
Theorem scalbn_correctly_rounded (F : FpFormat) (O : FpOps) (D : FpMath) (M : FpWideMul) x y : is_uint typeWidth x -> is_sint 32 y ->
  (is_finite x = true -> exists r, rounds_to (Z.abs (fp_value x) * 2 ^ Z.max y 0) (2 ^ Z.max (- y) 0) r /\ __compiler_rt_scalbnX x y = with_sign (fp_neg x) r) /\
  (is_finite x = false -> __compiler_rt_scalbnX x y = x).
Proof.
  intros R Hy. split; [intros Fi; rewrite fp_value_abs by exact R; now apply scalbn_spec|now apply scalbn_nonfinite].
Qed.

(** A subnormal result that needs rounding. *)
Lemma scalbn_correctly_rounded_witness : exists r, @rounds_to single_precision (Z.abs (@fp_value single_precision 0xc0490fdb) * 2 ^ Z.max (-140) 0) (2 ^ Z.max 140 0) r /\
  __compiler_rt_scalbnf 0xc0490fdb (-140) = @with_sign single_precision true r.
Proof.
  refine (proj1 (scalbn_correctly_rounded single_precision single_ops single_math single_wide 0xc0490fdb (-140) _ _) eq_refl); [unfold is_uint; cbn; lia|unfold is_sint; lia].
Defined.

(** [fmax] returns one of its operands; a NaN operand yields to the other
    one, and otherwise no operand is greater than the result. *)
Theorem fmax_greatest (F : FpFormat) x y : is_uint typeWidth x -> is_uint typeWidth y ->
  let m := __compiler_rt_fmaxX x y in
  (m = x \/ m = y) /\ (is_nan x = true -> m = y) /\ (is_nan y = true -> is_nan x = false -> m = x) /\
  (is_nan x = false -> is_nan y = false -> fp_value x <= fp_value m /\ fp_value y <= fp_value m).
Proof. apply fmax_spec. Qed.
Lemma fmax_greatest_witness : __compiler_rt_fmaxf 0x7fc00000 0xbf800000 = 0xbf800000.
Proof. refine (proj1 (proj2 (fmax_greatest single_precision 0x7fc00000 0xbf800000 _ _)) eq_refl); unfold is_uint; cbn; lia. Defined.
