(* ===== verification/ComplexMul.v ===== *)
(** * Complex multiplication

    Models [__mulsc3] and [__muldc3] ([mulsc3.c], [muldc3.c]): the four
    products and two sums, and the recovery of infinities when both parts of
    the result are NaNs (C99, Annex G).  The arithmetic is that of the soft
    float routines. *)

From S2P Require Import Prelude IntBits FpLib FpSpec FpAdd FpMul FpCompare FpInt FpMath.

Section Functions.
Context `{FpOps}.

(** [crt_isinf] and [crt_copysign], compiler builtins. *)
Definition crt_isinf (x : Z) : bool := (x .& absMask) =? infRep.
Definition crt_copysign (x y : Z) : Z := (x .& absMask) .| (y .& signBit).
Definition CRT_INFINITY : Z := infRep.

Definition addXf3 (x y : Z) : Z := __addXf3__ __fe_getround x y.

(** [crt_copysign(crt_isinf(x) ? 1 : 0, x)]. *)
Definition box (x : Z) : Z := crt_copysign (if crt_isinf x then oneRep else 0) x.
(** [if (crt_isnan(x)) x = crt_copysign(0, x)]. *)
Definition drop_nan (x : Z) : Z := if crt_isnan x then crt_copysign 0 x else x.

(** The operands of the recomputation, with [__recalc]. *)
Definition recover (ac bd ad bc a b c d : Z) : bool * (Z * Z * Z * Z) :=
  let '(recalc, (a, b, c, d)) :=
    if crt_isinf a || crt_isinf b then (true, (box a, box b, drop_nan c, drop_nan d)) else (false, (a, b, c, d)) in
  let '(recalc, (a, b, c, d)) :=
    if crt_isinf c || crt_isinf d then (true, (drop_nan a, drop_nan b, box c, box d)) else (recalc, (a, b, c, d)) in
  if negb recalc && (crt_isinf ac || crt_isinf bd || crt_isinf ad || crt_isinf bc)
  then (true, (drop_nan a, drop_nan b, drop_nan c, drop_nan d)) else (recalc, (a, b, c, d)).

Definition mulXc3 (a b c d : Z) : Z * Z :=
  let ac := __mulXf3__ a c in
  let bd := __mulXf3__ b d in
  let ad := __mulXf3__ a d in
  let bc := __mulXf3__ b c in
  let re := subXf3 ac bd in
  let im := addXf3 ad bc in
  if crt_isnan re && crt_isnan im then
    let '(recalc, (a, b, c, d)) := recover ac bd ad bc a b c d in
    if recalc then
      (__mulXf3__ CRT_INFINITY (subXf3 (__mulXf3__ a c) (__mulXf3__ b d)),
       __mulXf3__ CRT_INFINITY (addXf3 (__mulXf3__ a d) (__mulXf3__ b c)))
    else (re, im)
  else (re, im).
End Functions.

Definition __mulsc3 (a b c d : Z) : Z * Z := @mulXc3 single_precision single_ops a b c d.
Definition __muldc3 (a b c d : Z) : Z * Z := @mulXc3 double_precision double_ops a b c d.

Section Classes.
Context `{FpOps}.
Notation sb := significandBits.
Notation W := typeWidth.
Notation ib := (2 ^ significandBits).

Lemma isnan_spec x : is_uint W x -> crt_isnan x = is_nan x.
Proof. intros R. destruct (rep_parts x R) as (_ & _ & L & _). unfold crt_isnan. rewrite L. apply Z.gtb_ltb. Qed.
Lemma isinf_spec x : is_uint W x -> crt_isinf x = is_inf x.
Proof. intros R. destruct (rep_parts x R) as (_ & _ & L & _). unfold crt_isinf. now rewrite L. Qed.

(** A number is finite, infinite or a NaN, and one of these. *)
Lemma class_cases x : (is_finite x = true /\ is_inf x = false /\ is_nan x = false) \/ (is_finite x = false /\ is_inf x = true /\ is_nan x = false) \/
  (is_finite x = false /\ is_inf x = false /\ is_nan x = true).
Proof. unfold is_finite, is_inf, is_nan. destruct (Z.ltb_spec (fp_abs x) infRep), (Z.eqb_spec (fp_abs x) infRep), (Z.ltb_spec infRep (fp_abs x)); try lia; auto. Qed.

Lemma with_sign_inf n : is_uint W (with_sign n infRep) /\ is_inf (with_sign n infRep) = true.
Proof. pose proof infRep_bounds. assert (Hi : 0 <= infRep < 2 ^ (W - 1)) by lia. destruct (with_sign_parts n infRep Hi) as (R & _ & A). split; [exact R|]. unfold is_inf. rewrite A. apply Z.eqb_refl. Qed.

Lemma with_sign_rounded num den n r : rounds_to num den r -> is_uint W (with_sign n r) /\ is_nan (with_sign n r) = false /\ fp_abs (with_sign n r) = r.
Proof.
  intros (Hr & _). pose proof infRep_bounds. assert (Hr' : 0 <= r < 2 ^ (W - 1)) by lia. destruct (with_sign_parts n r Hr') as (R & _ & A). split; [exact R|]. split; [|exact A].
  unfold is_nan. rewrite A. apply Z.ltb_ge. lia.
Qed.

Lemma qnan_uint : is_uint W qnanRep.
Proof.
  pose proof qnan_is_nan as N. pose proof exponentBits_bounds as B. pose proof infRep_bounds as I. unfold is_uint, qnanRep. change exponentMask with infRep.
  assert (P' : 2 ^ W = 2 * 2 ^ (W - 1)) by (apply pow2_S; lia). rewrite quietBit_val. split; [apply Z.lor_nonneg; split; [lia|apply Z.pow_nonneg; lia]|].
  apply Z.log2_lt_cancel. rewrite Z.log2_pow2 by lia. rewrite Z.log2_lor by (try lia; apply Z.pow_nonneg; lia). rewrite Z.log2_pow2 by lia.
  apply Z.max_lub_lt; [|lia]. apply Z.log2_lt_pow2; lia.
Qed.

Lemma quiet_uint a : is_uint W a -> is_uint W (a .| quietBit).
Proof.
  intros R. pose proof exponentBits_bounds as B. unfold is_uint in *. rewrite quietBit_val. assert (0 < 2 ^ (sb - 1)) by (apply pow2_pos; lia). split; [apply Z.lor_nonneg; lia|].
  apply Z.log2_lt_cancel. rewrite Z.log2_pow2 by lia. rewrite Z.log2_lor by lia. rewrite Z.log2_pow2 by lia. apply Z.max_lub_lt; [|lia].
  destruct (Z.eq_dec a 0) as [->|]; [change (Z.log2 0) with 0; lia|]. apply Z.log2_lt_pow2; lia.
Qed.
End Classes.

Section Infinity.
Context `{FpOps} {M : FpWideMul}.
Notation sb := significandBits.
Notation W := typeWidth.
Notation ib := (2 ^ significandBits).

(** Products: NaNs stay, an infinite operand gives an infinity or a NaN. *)
Lemma mul_class a b : is_uint W a -> is_uint W b ->
  is_uint W (__mulXf3__ a b) /\ (is_nan a = true \/ is_nan b = true -> is_nan (__mulXf3__ a b) = true) /\
  (is_inf a = true \/ is_inf b = true -> is_nan (__mulXf3__ a b) = false -> is_inf (__mulXf3__ a b) = true) /\
  (is_inf a = true -> is_nan b = false -> fp_abs b <> 0 -> is_inf (__mulXf3__ a b) = true).
Proof.
  intros Ra Rb. destruct (mul_nonfinite_spec a b Ra Rb) as (N1 & N2 & I1 & I2). pose proof qnan_is_nan as QN.
  destruct (class_cases a) as [(Fa & Ia & Na)|[(Fa & Ia & Na)|(Fa & Ia & Na)]], (class_cases b) as [(Fb & Ib & Nb)|[(Fb & Ib & Nb)|(Fb & Ib & Nb)]].
  1: { destruct (mul_finite_spec a b Ra Rb Fa Fb) as (r & RT & ->). destruct (with_sign_rounded _ _ (product_sign a b) r RT) as (R & N & _).
       split; [exact R|]. rewrite Ia, Ib, Na, Nb. split; [intuition discriminate|]. split; intuition discriminate. }
  1: rewrite I2 by assumption. 3: rewrite I1 by assumption. 4: rewrite I1 by assumption.
  2: rewrite N2 by assumption. 5: rewrite N2 by assumption. 6-8: rewrite N1 by assumption.
  all: rewrite ?Ia, ?Ib, ?Na, ?Nb.
  all: try (split; [now apply quiet_uint|]; split; [intros _; now apply quiet_is_nan|]; split; [|intuition discriminate]; intros _ Hn; rewrite quiet_is_nan in Hn by assumption; discriminate).
  all: match goal with |- context [if ?z =? 0 then _ else _] => destruct (Z.eqb_spec z 0) end.
  all: try (split; [exact qnan_uint|]; split; [intros _; exact QN|]; split; [rewrite QN; intuition discriminate|]; intros; try discriminate; congruence).
  all: destruct (with_sign_inf (product_sign a b)) as [R I]; split; [exact R|]; split; [intuition discriminate|]; split; auto.
Qed.

Lemma add_class a b : is_uint W a -> is_uint W b ->
  is_uint W (addXf3 a b) /\ (is_nan a = true \/ is_nan b = true -> is_nan (addXf3 a b) = true) /\
  (is_inf a = true \/ is_inf b = true -> is_nan (addXf3 a b) = false -> is_inf (addXf3 a b) = true).
Proof.
  intros Ra Rb. unfold addXf3. destruct (add_nonfinite_spec __fe_getround a b Ra Rb) as (N1 & N2 & I1 & I2). pose proof qnan_is_nan as QN.
  destruct (class_cases a) as [(Fa & Ia & Na)|[(Fa & Ia & Na)|(Fa & Ia & Na)]], (class_cases b) as [(Fb & Ib & Nb)|[(Fb & Ib & Nb)|(Fb & Ib & Nb)]].
  1: { destruct (add_finite_spec a b Ra Rb Fa Fb) as (r & RT & ES). change __fe_getround with CRT_FE_TONEAREST. rewrite ES. destruct (with_sign_rounded _ _ (sum_sign a b) r RT) as (R & N & _).
       split; [exact R|]. rewrite Ia, Ib, Na, Nb. split; intuition discriminate. }
  1: rewrite I2 by assumption. 3: rewrite I1 by assumption. 4: rewrite I1 by assumption.
  2: rewrite N2 by assumption. 5: rewrite N2 by assumption. 6-8: rewrite N1 by assumption.
  all: rewrite ?Ia, ?Ib, ?Na, ?Nb.
  all: try (split; [now apply quiet_uint|]; split; [intros _; now apply quiet_is_nan|]; intros _ Hn; rewrite quiet_is_nan in Hn by assumption; discriminate).
  all: cbn [andb]; try match goal with |- context [if ?z then _ else _] => destruct z end.
  all: try (split; [exact qnan_uint|]; split; [intros _; exact QN|]; rewrite QN; intuition discriminate).
  all: split; [assumption|]; split; [intuition discriminate|]; auto.
Qed.

Lemma flip_class b : is_uint W b -> is_uint W (b .^ signBit) /\ is_nan (b .^ signBit) = is_nan b /\ is_inf (b .^ signBit) = is_inf b /\
  is_finite (b .^ signBit) = is_finite b /\ fp_value (b .^ signBit) = - fp_value b.
Proof.
  intros R. destruct (flip_sign b R) as (R' & N & A). unfold is_nan, is_inf, is_finite, fp_value. rewrite A, N. repeat split; try apply R'. destruct (fp_neg b); cbn [negb]; lia.
Qed.

Lemma sub_class a b : is_uint W a -> is_uint W b ->
  is_uint W (subXf3 a b) /\ (is_nan a = true \/ is_nan b = true -> is_nan (subXf3 a b) = true) /\
  (is_inf a = true \/ is_inf b = true -> is_nan (subXf3 a b) = false -> is_inf (subXf3 a b) = true).
Proof. intros Ra Rb. destruct (flip_class b Rb) as (R & N & I & _). rewrite <- N, <- I. exact (add_class a _ Ra R). Qed.

(** With an infinite operand, a part of the plain result is infinite or a NaN. *)
Lemma plain_part a b x y : is_uint W a -> is_uint W b -> is_uint W x -> is_uint W y -> is_inf a = true \/ is_inf b = true \/ is_inf x = true \/ is_inf y = true ->
  (is_nan (subXf3 (__mulXf3__ a x) (__mulXf3__ b y)) = false -> is_inf (subXf3 (__mulXf3__ a x) (__mulXf3__ b y)) = true) /\
  (is_nan (addXf3 (__mulXf3__ a x) (__mulXf3__ b y)) = false -> is_inf (addXf3 (__mulXf3__ a x) (__mulXf3__ b y)) = true).
Proof.
  intros Ra Rb Rx Ry Hi. destruct (mul_class a x Ra Rx) as (R1 & N1 & I1 & _), (mul_class b y Rb Ry) as (R2 & N2 & I2 & _).
  destruct (sub_class _ _ R1 R2) as (_ & S1 & S2), (add_class _ _ R1 R2) as (_ & A1 & A2).
  assert (G : is_nan (__mulXf3__ a x) = false -> is_nan (__mulXf3__ b y) = false -> is_inf (__mulXf3__ a x) = true \/ is_inf (__mulXf3__ b y) = true) by (intros; intuition auto).
  split; intros Hn; [apply S2|apply A2]; try exact Hn;
  (destruct (is_nan (__mulXf3__ a x)) eqn:E1; [try (rewrite S1 in Hn by auto); try (rewrite A1 in Hn by auto); discriminate|];
   destruct (is_nan (__mulXf3__ b y)) eqn:E2; [try (rewrite S1 in Hn by auto); try (rewrite A1 in Hn by auto); discriminate|]; auto).
Qed.

(** *** The recomputation *)

Lemma copysign_spec m x : is_uint W x -> 0 <= m < 2 ^ (W - 1) -> crt_copysign m x = with_sign (fp_neg x) m.
Proof.
  intros R Hm. unfold crt_copysign. destruct (rep_parts x R) as (_ & _ & _ & S). rewrite S. rewrite abs_of, Z.mod_small by lia. now apply with_sign_lor.
Qed.

(** A finite number worth -1, 0 or 1. *)
Definition unit_number (x alpha : Z) : Prop := is_uint W x /\ is_finite x = true /\ -1 <= alpha <= 1 /\ fp_value x = alpha * 2 ^ unitExp.

Lemma oneRep_val : oneRep = exponentBias * ib /\ 0 <= exponentBias * ib < infRep /\ fpval (exponentBias * ib) = 2 ^ unitExp.
Proof.
  pose proof bias_bounds as BB. pose proof exponentBits_bounds as B. pose proof sig_pow_pos as Hp.
  assert (HB : exponentBias < maxExponent) by (rewrite exponentBias_val, maxExponent_val, (pow2_S exponentBits) by lia; assert (0 < 2 ^ (exponentBits - 1)) by (apply pow2_pos; lia); lia).
  assert (HE : 0 <= exponentBias < maxExponent) by lia. assert (H0' : 0 <= 0 < ib) by lia. destruct (assemble false exponentBias 0 HE H0') as [EQ RG].
  rewrite Z.lor_0_l, Z.lor_0_r, Z.add_0_r in EQ. rewrite Z.add_0_r in RG. split; [exact EQ|]. split; [exact RG|].
  replace (exponentBias * ib) with ((exponentBias - 1) * ib + ib) by ring. rewrite fpval_parts by lia. rewrite <- pow2_split by lia. f_equal. unfold unitExp. lia.
Qed.

Lemma box_unit x : is_uint W x -> exists alpha, unit_number (box x) alpha /\ (is_inf x = true -> alpha <> 0).
Proof.
  intros R. destruct oneRep_val as (E1 & RG & V1). pose proof infRep_bounds as I. unfold box. rewrite isinf_spec by exact R. destruct (is_inf x) eqn:Ix.
  - rewrite E1, copysign_spec by (exact R || lia). destruct (with_sign_finite (fp_neg x) _ RG) as (R' & F & N & A). exists (if fp_neg x then -1 else 1).
    split; [|destruct (fp_neg x); discriminate]. split; [exact R'|]. split; [exact F|]. split; [destruct (fp_neg x); lia|]. unfold fp_value. rewrite N, A, V1. destruct (fp_neg x); lia.
  - rewrite copysign_spec by (exact R || lia). assert (H0' : 0 <= 0 < infRep) by lia. destruct (with_sign_finite (fp_neg x) 0 H0') as (R' & F & N & A). exists 0.
    split; [|discriminate]. split; [exact R'|]. split; [exact F|]. split; [lia|]. unfold fp_value. rewrite N, A, fpval_zero, Z.mul_0_l. destruct (fp_neg x); reflexivity.
Qed.

Lemma drop_nan_spec x : is_uint W x -> is_uint W (drop_nan x) /\ (is_inf x = false -> is_finite (drop_nan x) = true) /\ (is_nan x = false -> drop_nan x = x) /\ is_inf (drop_nan x) = is_inf x.
Proof.
  intros R. pose proof infRep_bounds as I. unfold drop_nan. rewrite isnan_spec by exact R. destruct (class_cases x) as [(Fx & Ix & Nx)|[(Fx & Ix & Nx)|(Fx & Ix & Nx)]]; rewrite Nx, Ix.
  - repeat split; auto; apply R.
  - repeat split; auto; [apply R|apply R|discriminate].
  - rewrite copysign_spec by (exact R || lia). assert (H0' : 0 <= 0 < infRep) by lia. destruct (with_sign_finite (fp_neg x) 0 H0') as (R' & F & _ & A).
    split; [exact R'|]. split; [auto|]. split; [discriminate|]. unfold is_inf. rewrite A. apply Z.eqb_neq. lia.
Qed.

(** Multiplying by -1, 0 or 1 is exact. *)
Lemma unit_product a alpha x : unit_number a alpha -> is_uint W x -> is_finite x = true -> forall p,
  (exists r, rounds_to (Z.abs (fp_value a * fp_value x)) (2 ^ unitExp) r /\ p = with_sign (product_sign a x) r) ->
  is_uint W p /\ is_finite p = true /\ fp_value p = alpha * fp_value x.
Proof.
  intros (Ra & Fa & Ha & Va) Rx Fx p (r & RT & ->). pose proof infRep_bounds as I. pose proof bias_bounds as BB. pose proof exponentBits_bounds as B.
  assert (PU : 0 < 2 ^ unitExp) by (apply pow2_pos; unfold unitExp; lia). destruct (rep_parts x Rx) as (_ & Ax & _ & _). apply Z.ltb_lt in Fx. destruct (rep_parts a Ra) as (_ & Aa & _ & _).
  set (y := if alpha =? 0 then 0 else fp_abs x). assert (Hy : 0 <= y < infRep) by (unfold y; destruct (alpha =? 0); lia).
  assert (EV : Z.abs (fp_value a * fp_value x) = 2 ^ unitExp * fpval y).
  { rewrite Va, !Z.abs_mul, fp_value_abs by exact Rx.
    rewrite (Z.abs_eq (2 ^ unitExp)) by lia. unfold y. destruct (Z.eqb_spec alpha 0) as [E0|]; [rewrite fpval_zero, E0; cbn [Z.abs]; ring|].
    assert (E1 : Z.abs alpha = 1) by lia. rewrite E1. ring. }
  rewrite EV in RT. assert (Hy' : 0 <= y <= infRep) by lia. rewrite (rounds_to_unique _ _ _ _ PU RT (rounds_to_exact _ y PU Hy')).
  destruct (with_sign_finite (product_sign a x) y Hy) as (R & F & N & A). split; [exact R|]. split; [exact F|]. unfold fp_value at 1. rewrite N, A. unfold y, product_sign.
  assert (Sa : 0 <= fpval (fp_abs a)) by (apply fpval_step; lia). unfold fp_value in Va |- *. destruct (Z.eqb_spec alpha 0) as [E0|Nz]; [rewrite fpval_zero, E0, Z.mul_0_l; destruct (xorb _ _); reflexivity|].
  assert (Ea : alpha = if fp_neg a then -1 else 1) by (destruct (fp_neg a); nia). rewrite Ea. destruct (fp_neg a), (fp_neg x); cbn [xorb]; lia.
Qed.

Lemma mul_unit_l a alpha x : unit_number a alpha -> is_uint W x -> is_finite x = true ->
  is_uint W (__mulXf3__ a x) /\ is_finite (__mulXf3__ a x) = true /\ fp_value (__mulXf3__ a x) = alpha * fp_value x.
Proof. intros U R F. apply (unit_product a); auto. destruct U as (Ra & Fa & _). now apply mul_finite_spec. Qed.
Lemma mul_unit_r a alpha x : unit_number a alpha -> is_uint W x -> is_finite x = true ->
  is_uint W (__mulXf3__ x a) /\ is_finite (__mulXf3__ x a) = true /\ fp_value (__mulXf3__ x a) = alpha * fp_value x.
Proof.
  intros U R F. apply (unit_product a); auto. destruct U as (Ra & Fa & _). destruct (mul_finite_spec x a R Ra F Fa) as (r & RT & E). exists r.
  rewrite (Z.mul_comm (fp_value a)). split; [exact RT|]. rewrite E. f_equal. apply xorb_comm.
Qed.

(** A sum is zero only when it is exactly zero, and then infinity times it is
    the only product with infinity that is not infinite. *)
Lemma infinite_sum p q : is_uint W p -> is_uint W q -> is_finite p = true -> is_finite q = true -> fp_value p + fp_value q <> 0 ->
  is_inf (__mulXf3__ CRT_INFINITY (addXf3 p q)) = true.
Proof.
  intros Rp Rq Fp Fq Hs. destruct (add_finite_spec p q Rp Rq Fp Fq) as (r & RT & E). unfold addXf3. change __fe_getround with CRT_FE_TONEAREST. rewrite E.
  destruct (with_sign_rounded _ _ (sum_sign p q) r RT) as (R & N & A). pose proof infRep_bounds as I. assert (Ri : is_uint W CRT_INFINITY /\ is_inf CRT_INFINITY = true) by exact (with_sign_inf false).
  destruct Ri as [Ri Ii]. apply (mul_class CRT_INFINITY _ Ri R); auto. rewrite A. intros ->.
  assert (Z0 : rounds_to (Z.abs (fp_value p + fp_value q)) 1 0) by exact RT. destruct Z0 as (_ & _ & [C|[C|[C _]]]); [lia| |];
  (assert (V0 : fpval 0 = 0) by apply fpval_zero; assert (V1 : fpval (0 + 1) <= 1); [|lia]).
  all: change (0 + 1) with 1; pose proof sig_pow_pos as Hp; pose proof exponentBits_bounds as B; assert (2 ^ 1 <= ib) by (apply Z.pow_le_mono_r; lia);
    replace 1 with ((1 - 1) * ib + 1) at 1 by lia; rewrite fpval_parts by lia; cbn; lia.
Qed.
Lemma infinite_difference p q : is_uint W p -> is_uint W q -> is_finite p = true -> is_finite q = true -> fp_value p - fp_value q <> 0 ->
  is_inf (__mulXf3__ CRT_INFINITY (subXf3 p q)) = true.
Proof. intros Rp Rq Fp Fq Hs. destruct (flip_class q Rq) as (R & _ & _ & F & V). apply infinite_sum; auto; [congruence|]. rewrite V. lia. Qed.

Lemma unit_rotation alpha beta x y : -1 <= alpha <= 1 -> -1 <= beta <= 1 -> alpha <> 0 \/ beta <> 0 -> x <> 0 \/ y <> 0 ->
  alpha * x - beta * y <> 0 \/ alpha * y + beta * x <> 0.
Proof.
  intros Ha Hb Hn Hv. assert (Ca : alpha = -1 \/ alpha = 0 \/ alpha = 1) by lia. assert (Cb : beta = -1 \/ beta = 0 \/ beta = 1) by lia.
  destruct Ca as [->|[->| ->]], Cb as [->|[->| ->]]; lia.
Qed.

Definition recomputed (A B C D : Z) : Z * Z :=
  (__mulXf3__ CRT_INFINITY (subXf3 (__mulXf3__ A C) (__mulXf3__ B D)), __mulXf3__ CRT_INFINITY (addXf3 (__mulXf3__ A D) (__mulXf3__ B C))).
Definition has_inf (z : Z * Z) : Prop := is_inf (fst z) = true \/ is_inf (snd z) = true.
(** Operands of the recomputation: finite, not zero, one of them boxed. *)
Definition operand_ok (x y : Z) : Prop := is_uint W x /\ is_uint W y /\ is_finite x = true /\ is_finite y = true /\ (fp_abs x <> 0 \/ fp_abs y <> 0).
Definition boxed (x y : Z) : Prop := exists alpha beta, unit_number x alpha /\ unit_number y beta /\ (alpha <> 0 \/ beta <> 0).

Lemma values_nonzero x y : operand_ok x y -> fp_value x <> 0 \/ fp_value y <> 0.
Proof. intros (Rx & Ry & _ & _ & Hz). rewrite (fp_value_zero x Rx), (fp_value_zero y Ry). exact Hz. Qed.

Lemma recompute_left A B C D : boxed A B -> operand_ok C D -> has_inf (recomputed A B C D).
Proof.
  intros (al & be & UA & UB & Hn) O. pose proof (values_nonzero C D O) as Hv. destruct O as (RC & RD & FC & FD & _).
  destruct (mul_unit_l A al C UA RC FC) as (R1 & F1 & V1), (mul_unit_l B be D UB RD FD) as (R2 & F2 & V2), (mul_unit_l A al D UA RD FD) as (R3 & F3 & V3), (mul_unit_l B be C UB RC FC) as (R4 & F4 & V4).
  destruct (unit_rotation al be (fp_value C) (fp_value D)) as [N|N]; [apply UA|apply UB|exact Hn|exact Hv|left|right].
  - apply infinite_difference; auto. now rewrite V1, V2.
  - apply infinite_sum; auto. now rewrite V3, V4.
Qed.
Lemma recompute_right A B C D : operand_ok A B -> boxed C D -> has_inf (recomputed A B C D).
Proof.
  intros O (al & be & UC & UD & Hn). pose proof (values_nonzero A B O) as Hv. destruct O as (RA & RB & FA & FB & _).
  destruct (mul_unit_r C al A UC RA FA) as (R1 & F1 & V1), (mul_unit_r D be B UD RB FB) as (R2 & F2 & V2), (mul_unit_r D be A UD RA FA) as (R3 & F3 & V3), (mul_unit_r C al B UC RB FB) as (R4 & F4 & V4).
  destruct (unit_rotation al be (fp_value A) (fp_value B)) as [N|N]; [apply UC|apply UD|exact Hn|exact Hv|left|right].
  - apply infinite_difference; auto. now rewrite V1, V2.
  - apply infinite_sum; auto. rewrite V3, V4. lia.
Qed.

Lemma unit_nonzero x alpha : unit_number x alpha -> alpha <> 0 -> fp_abs x <> 0.
Proof.
  intros (R & _ & _ & V) Hn E. apply (fp_value_zero x R) in E. pose proof bias_bounds as BB. pose proof exponentBits_bounds as B.
  assert (0 < 2 ^ unitExp) by (apply pow2_pos; unfold unitExp; lia). nia.
Qed.
Lemma boxed_ok x y : boxed x y -> operand_ok x y.
Proof.
  intros (al & be & Ux & Uy & Hn). pose proof (unit_nonzero x al Ux). pose proof (unit_nonzero y be Uy). destruct Ux as (Rx & Fx & _), Uy as (Ry & Fy & _).
  split; [exact Rx|]. split; [exact Ry|]. split; [exact Fx|]. split; [exact Fy|]. tauto.
Qed.
Lemma box_boxed x y : is_uint W x -> is_uint W y -> is_inf x = true \/ is_inf y = true -> boxed (box x) (box y).
Proof. intros Rx Ry Hi. destruct (box_unit x Rx) as (al & Ux & Hx), (box_unit y Ry) as (be & Uy & Hy). exists al, be. split; [exact Ux|]. split; [exact Uy|]. tauto. Qed.

Lemma finite_keep x : is_uint W x -> is_finite x = true -> drop_nan x = x /\ is_inf x = false.
Proof.
  intros R F. destruct (class_cases x) as [(_ & I & N)|[(F' & _)|(F' & _)]]; try congruence. split; [|exact I]. now apply drop_nan_spec.
Qed.
Lemma operand_keep x y : operand_ok x y -> drop_nan x = x /\ drop_nan y = y /\ is_inf x = false /\ is_inf y = false.
Proof. intros (Rx & Ry & Fx & Fy & _). destruct (finite_keep x Rx Fx), (finite_keep y Ry Fy). auto. Qed.

Definition infinite (x y : Z) : Prop := is_inf x = true \/ is_inf y = true.
Lemma infinite_test x y : is_uint W x -> is_uint W y -> infinite x y -> crt_isinf x || crt_isinf y = true.
Proof. intros Rx Ry Hi. rewrite !isinf_spec by assumption. now apply orb_true_iff. Qed.

(** What [recover] returns when an operand is infinite and the other infinite
    or finite and not zero. *)
Lemma recover_infinite ac bd ad bc a b c d : is_uint W a -> is_uint W b -> is_uint W c -> is_uint W d ->
  infinite a b /\ (infinite c d \/ operand_ok c d) \/ operand_ok a b /\ infinite c d ->
  exists A B C D, recover ac bd ad bc a b c d = (true, (A, B, C, D)) /\ has_inf (recomputed A B C D).
Proof.
  intros Ra Rb Rc Rd Hi. unfold recover. destruct Hi as [[Hab Hcd]|[Oab Hcd]].
  - rewrite (infinite_test a b Ra Rb Hab). pose proof (box_boxed a b Ra Rb Hab) as Bab. destruct (operand_keep _ _ (boxed_ok _ _ Bab)) as (Ka & Kb & _).
    destruct (drop_nan_spec c Rc) as (Rc' & _ & _ & Ic), (drop_nan_spec d Rd) as (Rd' & _ & _ & Id). destruct Hcd as [Hcd|Ocd].
    + assert (Hcd' : infinite (drop_nan c) (drop_nan d)) by (unfold infinite; rewrite Ic, Id; exact Hcd).
      rewrite (infinite_test _ _ Rc' Rd' Hcd'), Ka, Kb. cbn [negb andb]. do 4 eexists. split; [reflexivity|]. apply recompute_left; [exact Bab|]. now apply boxed_ok, box_boxed.
    + destruct (operand_keep c d Ocd) as (Kc & Kd & Ic' & Id'). rewrite Kc, Kd, !isinf_spec, Ic', Id' by assumption. cbn [orb negb andb].
      do 4 eexists. split; [reflexivity|]. now apply recompute_left.
  - destruct (operand_keep a b Oab) as (Ka & Kb & Ia & Ib). rewrite (isinf_spec a Ra), (isinf_spec b Rb), Ia, Ib. cbn [orb]. cbv beta iota.
    rewrite (infinite_test c d Rc Rd Hcd), Ka, Kb. cbn [negb andb]. do 4 eexists. split; [reflexivity|]. apply recompute_right; [exact Oab|]. now apply box_boxed.
Qed.
End Infinity.

(** C29: An infinity survives complex multiplication (C99, Annex G): if one
    operand has an infinite part - its other part may be a NaN - and the other
    operand is infinite, or finite and not zero, then a part of the product is
    infinite, whatever NaNs the four products produce. *)
Theorem complex_infinity (F : FpFormat) (O : FpOps) (M : FpWideMul) a b c d :
  is_uint typeWidth a -> is_uint typeWidth b -> is_uint typeWidth c -> is_uint typeWidth d ->
  infinite a b /\ (infinite c d \/ operand_ok c d) \/ operand_ok a b /\ infinite c d ->
  infinite (fst (mulXc3 a b c d)) (snd (mulXc3 a b c d)).
Proof.
  intros Ra Rb Rc Rd Hi. unfold mulXc3. assert (Hany : is_inf a = true \/ is_inf b = true \/ is_inf c = true \/ is_inf d = true) by (unfold infinite in Hi; tauto).
  destruct (plain_part a b c d Ra Rb Rc Rd Hany) as [P1 _]. assert (Hany' : is_inf a = true \/ is_inf b = true \/ is_inf d = true \/ is_inf c = true) by tauto.
  destruct (plain_part a b d c Ra Rb Rd Rc Hany') as [_ P2].
  destruct (mul_class a c Ra Rc) as (R1 & _), (mul_class b d Rb Rd) as (R2 & _), (mul_class a d Ra Rd) as (R3 & _), (mul_class b c Rb Rc) as (R4 & _).
  destruct (sub_class _ _ R1 R2) as (R5 & _), (add_class _ _ R3 R4) as (R6 & _). rewrite !isnan_spec by assumption.
  set (re := subXf3 _ _) in *. set (im := addXf3 _ _) in *. destruct (is_nan re), (is_nan im); cbn [andb]; [|right; now apply P2|left; now apply P1|left; now apply P1].
  destruct (recover_infinite (__mulXf3__ a c) (__mulXf3__ b d) (__mulXf3__ a d) (__mulXf3__ b c) a b c d Ra Rb Rc Rd Hi) as (A & B & C & D & -> & Hr). exact Hr.
Qed.

(** (inf + NaN i) * (2 + 3i): all four plain products but one are NaNs or
    cancel. *)
Lemma complex_infinity_witness : @infinite single_precision (fst (__mulsc3 0x7f800000 0x7fc00000 0x40000000 0x40400000)) (snd (__mulsc3 0x7f800000 0x7fc00000 0x40000000 0x40400000)).
Proof.
  refine (complex_infinity single_precision single_ops single_wide 0x7f800000 0x7fc00000 0x40000000 0x40400000 _ _ _ _ _); try (unfold is_uint; cbn; lia).
  left. split; [left; reflexivity|right]. repeat split; try (cbn; lia).
Defined.

(** Finite operands whose four products do not overflow take the plain
    formula: the parts are the rounded difference and the rounded sum of the
    rounded products. *)
Theorem complex_finite (F : FpFormat) (O : FpOps) (M : FpWideMul) a b c d :
  is_uint typeWidth a -> is_uint typeWidth b -> is_uint typeWidth c -> is_uint typeWidth d ->
  is_finite (__mulXf3__ a c) = true -> is_finite (__mulXf3__ b d) = true -> is_finite (__mulXf3__ a d) = true -> is_finite (__mulXf3__ b c) = true ->
  exists r i, rounds_to (Z.abs (fp_value (__mulXf3__ a c) - fp_value (__mulXf3__ b d))) 1 r /\
    rounds_to (Z.abs (fp_value (__mulXf3__ a d) + fp_value (__mulXf3__ b c))) 1 i /\ fp_abs (fst (mulXc3 a b c d)) = r /\ fp_abs (snd (mulXc3 a b c d)) = i.
Proof.
  intros Ra Rb Rc Rd F1 F2 F3 F4. destruct (mul_class a c Ra Rc) as (R1 & _), (mul_class b d Rb Rd) as (R2 & _), (mul_class a d Ra Rd) as (R3 & _), (mul_class b c Rb Rc) as (R4 & _).
  destruct (flip_class _ R2) as (R2' & _ & _ & F2' & V2). rewrite <- F2' in F2. destruct (add_finite_spec _ _ R1 R2' F1 F2) as (r & RT & E1), (add_finite_spec _ _ R3 R4 F3 F4) as (i & IT & E2).
  destruct (with_sign_rounded _ _ (sum_sign (__mulXf3__ a c) (__mulXf3__ b d .^ signBit)) r RT) as (Rr & Nr & Ar). rewrite V2, Z.add_opp_r in RT. destruct (with_sign_rounded _ _ (sum_sign (__mulXf3__ a d) (__mulXf3__ b c)) i IT) as (Ri & Ni & Ai).
  unfold mulXc3, subXf3, addXf3. change __fe_getround with CRT_FE_TONEAREST. rewrite E1, E2, !isnan_spec, Nr by assumption. cbn [andb fst snd]. exists r, i. auto.
Qed.
Lemma complex_finite_witness : exists r i, @rounds_to single_precision (Z.abs (@fp_value single_precision (__mulsf3 0x3f800001 0x40000000) - @fp_value single_precision (__mulsf3 0x40400000 0x40490fdb))) 1 r /\
  @rounds_to single_precision (Z.abs (@fp_value single_precision (__mulsf3 0x3f800001 0x40490fdb) + @fp_value single_precision (__mulsf3 0x40400000 0x40000000))) 1 i /\
  @fp_abs single_precision (fst (__mulsc3 0x3f800001 0x40400000 0x40000000 0x40490fdb)) = r /\ @fp_abs single_precision (snd (__mulsc3 0x3f800001 0x40400000 0x40000000 0x40490fdb)) = i.
Proof. refine (complex_finite single_precision single_ops single_wide 0x3f800001 0x40400000 0x40000000 0x40490fdb _ _ _ _ eq_refl eq_refl eq_refl eq_refl); unfold is_uint; cbn; lia. Defined.
