(* ===== verification/FpDiv.v ===== *)
(** * Soft float: division

    Models [fp_div_impl.inc] as [divsf3.c] and [divdf3.c] build it: the
    reciprocal of the divisor by Newton iteration in fixed point (three
    full-width steps for float; three half-width steps and an emulated
    full-width one for double), the quotient, its residual and the rounding.
    The error bounds that the comments of the file estimate are proved, and
    with them that division is correctly rounded.  (The quad version is not
    built on this platform.) *)

From S2P Require Import Prelude IntBits FpLib FpSpec FpAdd FpMul FpCompare FpInt FpMath.

(** ** The reciprocal *)

(** One step [x * (2 - x * b)] on words of [w] bits: [x] in UQ0.w, [b] in
    UQ1.(w-1); products are computed at twice the width. *)
Definition newton (w x b : Z) : Z :=
  let corr_UQ1 := uint w (0 -[2 * w] ((x *[2 * w] b) >>[2 * w] w)) in
  uint w ((x *[2 * w] corr_UQ1) >>[2 * w] (w - 1)).
(** [REPEAT_N_TIMES]. *)
Fixpoint repeat_n (n : nat) (w x b : Z) : Z :=
  match n with O => x | S n => repeat_n n w (newton w x b) b end.

Definition C32 : Z := 0x7504F333.

(** Float: [NUMBER_OF_HALF_ITERATIONS 0], [NUMBER_OF_FULL_ITERATIONS 3]. *)
Definition reciprocal_single (bSignificand : Z) : Z :=
  let b_UQ1 := bSignificand <<[32] 8 in
  let x_UQ0 := (C32 <<[32] 0) -[32] b_UQ1 in
  let x_UQ0 := repeat_n 3 32 x_UQ0 b_UQ1 in
  let x_UQ0 := x_UQ0 -[32] 2 in
  x_UQ0 -[32] 10.

(** Double: [NUMBER_OF_HALF_ITERATIONS 3], [NUMBER_OF_FULL_ITERATIONS 1]. *)
Definition half_iterations (b_UQ1_hw : Z) : Z :=
  let C_hw := C32 <<[32] 0 in
  let x_UQ0_hw := C_hw -[32] b_UQ1_hw in
  let x_UQ0_hw := repeat_n 3 32 x_UQ0_hw b_UQ1_hw in
  x_UQ0_hw -[32] 1.
Definition reciprocal_double (bSignificand : Z) : Z :=
  let loMask := 0xffffffff in
  let b_UQ1 := bSignificand <<[64] 11 in
  let b_UQ1_hw := uint 32 (bSignificand >>[64] 21) in
  let x_UQ0_hw := half_iterations b_UQ1_hw in
  let blo := b_UQ1 .& loMask in
  let corr_UQ1 := 0 -[64] (((x_UQ0_hw *[64] b_UQ1_hw) +[64] ((x_UQ0_hw *[64] blo) >>[64] 32)) -[64] 1) in
  let lo_corr := corr_UQ1 .& loMask in
  let hi_corr := corr_UQ1 >>[64] 32 in
  let x_UQ0 := (((x_UQ0_hw *[64] hi_corr) <<[64] 1) +[64] ((x_UQ0_hw *[64] lo_corr) >>[64] 31)) -[64] 2 in
  let x_UQ0 := x_UQ0 -[64] 1 in
  let x_UQ0 := x_UQ0 -[64] 2 in
  x_UQ0 -[64] 220.

(** What the division needs of the reciprocal of its format: an approximation
    from below of 2^(2w-1) / b, for the divisor aligned to the top of the word. *)
Class FpRecip `{FpOps} := {
  reciprocal : Z -> Z;
  recip_error : Z;
  recip_precise : recip_error * 2 ^ (significandBits + 3) <= 2 ^ typeWidth;
  recip_ok : forall b, 2 ^ significandBits <= b < 2 * 2 ^ significandBits ->
    let B := b * 2 ^ exponentBits in
    is_uint typeWidth (reciprocal b) /\ 0 < 2 ^ (2 * typeWidth - 1) - reciprocal b * B <= recip_error * B }.

(** ** Division *)

Section Div.
Context `{FpRecip}.

(** The block for an operand that is zero, denormal, infinite or NaN. *)
Definition div_unpack (a b : Z) : Z + (Z * Z * Z) :=
  let aExponent := (a >>[typeWidth] significandBits) .& maxExponent in
  let bExponent := (b >>[typeWidth] significandBits) .& maxExponent in
  let quotientSign := (a .^ b) .& signBit in
  let aSignificand := a .& significandMask in
  let bSignificand := b .& significandMask in
  if (aExponent -[32] 1 >=? maxExponent -[32] 1) || (bExponent -[32] 1 >=? maxExponent -[32] 1) then
    let aAbs := a .& absMask in
    let bAbs := b .& absMask in
    if aAbs >? infRep then inl (a .| quietBit)
    else if bAbs >? infRep then inl (b .| quietBit)
    else if aAbs =? infRep then
      if bAbs =? infRep then inl qnanRep else inl (aAbs .| quotientSign)
    else if bAbs =? infRep then inl quotientSign
    else if negb (nonzero aAbs) then
      if negb (nonzero bAbs) then inl qnanRep else inl quotientSign
    else if negb (nonzero bAbs) then inl (infRep .| quotientSign)
    else
      let scale := 0 in
      let '(aSignificand, scale) :=
        if aAbs <? implicitBit then let '(s, n) := normalize aSignificand in (s, scale + n)
        else (aSignificand, scale) in
      let '(bSignificand, scale) :=
        if bAbs <? implicitBit then let '(s, n) := normalize bSignificand in (s, scale - n)
        else (bSignificand, scale) in
      inr (aSignificand, bSignificand, scale)
  else inr (aSignificand, bSignificand, 0).

(** From the quotient, which may be one unit short, to the rounded result. *)
Definition div_round (quotientSign aSignificand bSignificand quotient_UQ1 residualLo writtenExponent : Z) : Z :=
  if writtenExponent >=? maxExponent then infRep .| quotientSign
  else if (writtenExponent <=? 0) && (significandBits + writtenExponent <? 0) then quotientSign
  else
    let '(absResult, residualLo) :=
      if writtenExponent >? 0 then
        ((quotient_UQ1 .& significandMask) .| (writtenExponent <<[typeWidth] significandBits), residualLo <<[typeWidth] 1)
      else
        let absResult := quotient_UQ1 >>[typeWidth] (- writtenExponent + 1) in
        (absResult, (aSignificand <<[typeWidth] (significandBits + writtenExponent)) -[typeWidth] ((absResult *[typeWidth] bSignificand) <<[typeWidth] 1)) in
    let residualLo := residualLo +[typeWidth] (absResult .& 1) in
    let absResult := absResult +[typeWidth] b2z (residualLo >? bSignificand) in
    absResult .| quotientSign.

Definition __divXf3__ (a b : Z) : Z :=
  let aExponent := (a >>[typeWidth] significandBits) .& maxExponent in
  let bExponent := (b >>[typeWidth] significandBits) .& maxExponent in
  let quotientSign := (a .^ b) .& signBit in
  match div_unpack a b with
  | inl result => result
  | inr (aSignificand, bSignificand, scale) =>
      let aSignificand := aSignificand .| implicitBit in
      let bSignificand := bSignificand .| implicitBit in
      let writtenExponent := sint 32 (((aExponent -[32] bExponent) +[32] scale) +[32] exponentBias) in
      let x_UQ0 := reciprocal bSignificand in
      let quotient_UQ1 := fst (wideMultiply x_UQ0 (aSignificand <<[typeWidth] 1)) in
      if quotient_UQ1 <? (implicitBit <<[typeWidth] 1) then
        let residualLo := (aSignificand <<[typeWidth] (significandBits + 1)) -[typeWidth] (quotient_UQ1 *[typeWidth] bSignificand) in
        div_round quotientSign (aSignificand <<[typeWidth] 1) bSignificand quotient_UQ1 residualLo (writtenExponent - 1)
      else
        let quotient_UQ1 := quotient_UQ1 >>[typeWidth] 1 in
        let residualLo := (aSignificand <<[typeWidth] significandBits) -[typeWidth] (quotient_UQ1 *[typeWidth] bSignificand) in
        div_round quotientSign aSignificand bSignificand quotient_UQ1 residualLo writtenExponent
  end.
End Div.

(** ** The error of the reciprocal

    For a word of value [2 * H] and a divisor [B], the error of [x] is
    [d = 2 * H * H - x * B], which is [B] times its distance from the
    reciprocal. *)

Section Newton.
Context (H B : Z).
Hypotheses (HH : 0 < H) (HB : H <= B <= 2 * H).
Notation N := (2 * H).

(** One step squares the error, up to what the two divisions drop; [k] more
    than the truncated product is added to the correction. *)
Lemma newton_error x k : let F := x * B / N in let x' := x * (N - F + k) / H in
  N * H * (N * H - x' * B) = (N * H - x * B) * (N * H - x * B) - x * B * ((x * B) mod N + k * N) + N * ((x * (N - F + k)) mod H) * B.
Proof.
  intros F x'. assert (E1 : x * B = N * F + (x * B) mod N) by (apply Z.div_mod; lia). assert (E2 : x * (N - F + k) = H * x' + (x * (N - F + k)) mod H) by (apply Z.div_mod; lia).
  set (f := (x * B) mod N) in *. set (g := (x * (N - F + k)) mod H) in *. clearbody F x' f g.
  assert (E3 : H * x' = x * (N - F + k) - g) by lia. replace (N * H * (N * H - x' * B)) with (N * (N * H * H - H * x' * B)) by ring. rewrite E3.
  replace (N * (N * H * H - (x * (N - F + k) - g) * B)) with (N * N * H * H - x * B * (N * N - N * F + k * N) + N * g * B) by ring.
  replace (N * F) with (x * B - f) by lia. ring.
Qed.

Lemma newton_bounds x k e e' : 0 <= x -> 0 <= k <= 1 -> 0 <= e < H -> e * e <= e' * H -> - (e * B) <= N * H - x * B <= e * B ->
  let x' := x * (N - x * B / N + k) / H in
  N * H - x' * B <= (e' + 1) * B /\ - ((k + 1) * (N * H + e * B)) <= H * (N * H - x' * B).
Proof.
  intros Hx Hk He He' Hd x'. pose proof (newton_error x k) as E. cbv zeta in E. fold x' in E.
  pose proof (Z.mod_pos_bound (x * B) N ltac:(lia)) as Hf. pose proof (Z.mod_pos_bound (x * (N - x * B / N + k)) H HH) as Hg.
  set (f := (x * B) mod N) in *. set (g := (x * (N - x * B / N + k)) mod H) in *. clearbody f g x'. set (d := N * H - x * B) in *.
  assert (Ex : x * B = N * H - d) by lia. assert (Hxb : 0 <= x * B) by (apply Z.mul_nonneg_nonneg; lia).
  assert (PH : 0 < N * H) by (apply Z.mul_pos_pos; lia). set (d' := N * H - x' * B) in *. clearbody d'. rewrite Ex in E, Hxb. clearbody d. clear Ex Hx x'. split.
  - assert (D2 : 0 <= (e * B - d) * (e * B + d)) by (apply Z.mul_nonneg_nonneg; lia). assert (D3 : d * d <= e * e * (B * B)) by (ring_simplify in D2; ring_simplify; lia).
    assert (U1 : 0 <= (N * H - d) * (f + k * N)) by (apply Z.mul_nonneg_nonneg; nia). assert (U2 : N * B * g <= N * B * H) by (apply Z.mul_le_mono_nonneg_l; nia).
    assert (U3 : e * e * (B * B) <= e' * H * (B * B)) by (apply Z.mul_le_mono_nonneg_r; nia). assert (0 <= e') by nia.
    assert (U4 : e' * H * B * B <= e' * H * B * N) by (apply Z.mul_le_mono_nonneg_l; [repeat apply Z.mul_nonneg_nonneg; lia|lia]).
    apply (Z.mul_le_mono_pos_l _ _ (N * H) PH). rewrite E. ring_simplify in U1. ring_simplify in U2. ring_simplify in U3. ring_simplify in U4. ring_simplify in D3. ring_simplify. lia.
  - assert (L1 : (N * H - d) * (f + k * N) <= (N * H + e * B) * ((k + 1) * N)) by (apply Z.mul_le_mono_nonneg; nia).
    assert (L2 : 0 <= N * g * B) by (repeat apply Z.mul_nonneg_nonneg; lia). assert (L3 : 0 <= d * d) by apply Z.square_nonneg.
    apply (Z.mul_le_mono_pos_l _ _ N ltac:(lia)). replace (N * (H * d')) with (N * H * d') by ring. rewrite E. ring_simplify in L1. ring_simplify in L2. ring_simplify in L3. ring_simplify. lia.
Qed.

(** Away from 1 the approximation stays below 2^w. *)
Lemma newton_no_overflow x e : H + 2 <= B -> 0 <= x -> 0 <= e < H -> - (e * B) <= N * H - x * B <= e * B ->
  x * (N - x * B / N + 0) / H < N.
Proof.
  intros HB2 Hx He Hd. assert (He' : e * e <= e * e * H) by nia. destruct (newton_bounds x 0 e (e * e) Hx ltac:(lia) He He' Hd) as [_ L].
  set (x' := x * (N - x * B / N + 0) / H) in *. clearbody x'. apply Z.lt_nge. intros G. assert (G1 : N * B <= x' * B) by (apply Z.mul_le_mono_nonneg_r; lia).
  assert (G2 : H * (N * (H + 2)) <= H * (x' * B)) by (apply Z.mul_le_mono_nonneg_l; nia). assert (G3 : e * B < H * B) by (apply Z.mul_lt_mono_pos_r; lia). nia.
Qed.
End Newton.

Lemma newton_val w x B : 0 < w -> is_uint w x -> is_uint w B -> 2 ^ w <= x * B -> newton w x B = uint w (x * (2 ^ w - x * B / 2 ^ w + 0) / 2 ^ (w - 1)).
Proof.
  intros Hw Hx Hb Hp. pose proof (pow2_pos w ltac:(lia)) as P. assert (P2 : 2 ^ (2 * w) = 2 ^ w * 2 ^ w) by (replace (2 * w) with (w + w) by lia; apply pow2_split; lia).
  unfold newton, umul, usub. unfold is_uint in *. rewrite (uint_small (2 * w) (x * B)) by (unfold is_uint; nia). rewrite !shr_spec by lia.
  assert (F0 : 0 < x * B / 2 ^ w < 2 ^ w) by (split; [apply Z.div_str_pos; lia|apply Z.div_lt_upper_bound; nia]).
  set (F := x * B / 2 ^ w) in *. assert (C : uint w (uint (2 * w) (0 - F)) = 2 ^ w - F).
  { apply uint_of_eqm; [unfold is_uint; lia|]. replace (uint (2 * w) (0 - F)) with (2 ^ (2 * w) - F).
    - rewrite P2. unfold eqm. replace (2 ^ w * 2 ^ w - F) with (2 ^ w - F + (2 ^ w - 1) * 2 ^ w) by ring. apply Z_mod_plus_full.
    - symmetry. apply uint_of_eqm; [unfold is_uint; nia|]. unfold eqm. replace (2 ^ (2 * w) - F) with (0 - F + 1 * 2 ^ (2 * w)) by ring. symmetry. apply Z_mod_plus_full. }
  rewrite C, Z.add_0_r. rewrite (uint_small (2 * w)) by (unfold is_uint; nia). reflexivity.
Qed.

(** The three steps on 32 bits: the starting error, and one step. *)
Lemma newton_start B : 2 ^ 31 <= B < 2 ^ 32 ->
  let x := usub 32 C32 B in
  is_uint 32 x /\ - (184224973 * B) <= 2 ^ 32 * 2 ^ 31 - x * B <= 184224973 * B.
Proof.
  intros HB x. assert (E : x = 2 ^ 32 + C32 - B).
  { apply uint_of_eqm; [unfold is_uint, C32; lia|]. unfold eqm. replace (2 ^ 32 + C32 - B) with (C32 - B + 1 * 2 ^ 32) by lia. symmetry. apply Z_mod_plus_full. }
  rewrite E. unfold is_uint, C32. split; [lia|]. assert (0 <= (B - 2 ^ 31) * (2 ^ 32 - B)) by (apply Z.mul_nonneg_nonneg; lia). split; [|nia].
  pose proof (Z.square_nonneg (2 * B - (2 * (2 ^ 32 + C32) - 3 * 2 ^ 31))). unfold C32 in *. nia.
Qed.

Lemma newton_step B x e e' : 2 ^ 31 + 2 <= B < 2 ^ 32 -> is_uint 32 x -> 0 <= 4 * e <= 2 ^ 31 -> e * e <= e' * 2 ^ 31 -> 2 <= e' ->
  - (e * B) <= 2 ^ 32 * 2 ^ 31 - x * B <= e * B ->
  is_uint 32 (newton 32 x B) /\ - (3 * B) <= 2 ^ 32 * 2 ^ 31 - newton 32 x B * B <= (e' + 1) * B.
Proof.
  intros HB Hx He He' H2 Hd. assert (HB' : 2 ^ 31 <= B <= 2 * 2 ^ 31) by lia. assert (X0 : 0 <= x) by (unfold is_uint in Hx; lia).
  destruct (newton_bounds (2 ^ 31) B ltac:(lia) HB' x 0 e e' X0 ltac:(lia) ltac:(lia) He' Hd) as [U L].
  pose proof (newton_no_overflow (2 ^ 31) B ltac:(lia) HB' x e ltac:(lia) X0 ltac:(lia) Hd) as O.
  rewrite newton_val by (try assumption; try (unfold is_uint; lia); nia). change (2 ^ (32 - 1)) with (2 ^ 31). change (2 * 2 ^ 31) with (2 ^ 32) in *.
  set (x' := x * (2 ^ 32 - x * B / 2 ^ 32 + 0) / 2 ^ 31) in *. assert (0 <= x').
  { apply Z.div_pos; [|lia]. apply Z.mul_nonneg_nonneg; [lia|]. assert (x * B / 2 ^ 32 < 2 ^ 32) by (apply Z.div_lt_upper_bound; unfold is_uint in Hx; nia). lia. }
  rewrite uint_small by (unfold is_uint; lia). split; [unfold is_uint; lia|]. clearbody x'. split; [nia|lia].
Qed.

(** What three steps give: the reciprocal with an error of at most 8 units,
    wrapped around to 0 for the divisor 1. *)
Lemma newton_three B : 2 ^ 31 <= B < 2 ^ 32 ->
  exists y, repeat_n 3 32 (usub 32 C32 B) B = uint 32 y /\ 2 ^ 31 - 8 <= y <= 2 ^ 32 /\ - (3 * B) <= 2 ^ 32 * 2 ^ 31 - y * B <= 8 * B.
Proof.
  intros HB. destruct (Z.eq_dec B (2 ^ 31)) as [->|N0]; [exists (2 ^ 32); repeat split; vm_compute; congruence|].
  destruct (Z.eq_dec B (2 ^ 31 + 1)) as [->|N1]; [exists (2 ^ 32 - 1); repeat split; vm_compute; congruence|].
  destruct (newton_start B HB) as [R0 D0]. set (x0 := usub 32 C32 B) in *. cbn [repeat_n].
  destruct (newton_step B x0 184224973 15804005) as [R1 D1]; try assumption; try lia. set (x1 := newton 32 x0 B) in *.
  destruct (newton_step B x1 15804006 116310) as [R2 D2]; try assumption; try lia. set (x2 := newton 32 x1 B) in *.
  destruct (newton_step B x2 116311 7) as [R3 D3]; try assumption; try lia. set (x3 := newton 32 x2 B) in *.
  exists x3. rewrite uint_small by assumption. unfold is_uint in R3. repeat split; try lia. nia.
Qed.

(** Float. *)
Lemma reciprocal_single_ok b : 2 ^ 23 <= b < 2 * 2 ^ 23 ->
  let B := b * 2 ^ 8 in
  is_uint 32 (reciprocal_single b) /\ 0 < 2 ^ 63 - reciprocal_single b * B <= 20 * B.
Proof.
  intros Hb B. unfold reciprocal_single. change (ushl 32 C32 0) with C32. rewrite ushl_spec by lia. rewrite (uint_small 32 (b * 2 ^ 8)) by (unfold is_uint; lia). fold B.
  assert (HB : 2 ^ 31 <= B < 2 ^ 32) by (unfold B; lia). destruct (newton_three B HB) as (y & -> & Hy & Hd).
  assert (E : usub 32 (usub 32 (uint 32 y) 2) 10 = y - 12).
  { apply uint_of_eqm; [unfold is_uint; lia|]. unfold usub. rewrite !uint_eqm. now replace (y - 2 - 10) with (y - 12) by lia. }
  rewrite E. split; [unfold is_uint; lia|]. lia.
Qed.

(** Double: half-width steps on the upper half of the divisor. *)
Lemma half_iterations_ok Bh : 2 ^ 31 <= Bh < 2 ^ 32 ->
  let X := half_iterations Bh in
  2 ^ 31 - 9 <= X < 2 ^ 32 /\ - (2 * Bh) <= 2 ^ 63 - X * Bh <= 9 * Bh.
Proof.
  intros HB X. unfold X, half_iterations. change (ushl 32 C32 0) with C32. destruct (newton_three Bh HB) as (y & -> & Hy & Hd).
  assert (E : usub 32 (uint 32 y) 1 = y - 1).
  { apply uint_of_eqm; [unfold is_uint; lia|]. unfold usub. now rewrite uint_eqm. }
  rewrite E. lia.
Qed.

(** The emulated full-width step is the full-width step from [X * 2^32] with
    one added to the correction. *)
Lemma emulated_step X B : let blo := B mod 2 ^ 32 in let Bh := B / 2 ^ 32 in
  is_uint 32 X -> is_uint 64 B -> 2 ^ 33 <= X * Bh ->
  let corr_UQ1 := usub 64 0 (usub 64 (uadd 64 (umul 64 X Bh) (shr 64 (umul 64 X blo) 32)) 1) in
  let lo_corr := Z.land corr_UQ1 0xffffffff in
  let hi_corr := shr 64 corr_UQ1 32 in
  let x := X * 2 ^ 32 in
  eqm 64 (uadd 64 (ushl 64 (umul 64 X hi_corr) 1) (shr 64 (umul 64 X lo_corr) 31))
    (x * (2 ^ 64 - x * B / 2 ^ 64 + 1) / 2 ^ 63).
Proof.
  intros blo Bh HX HB Hp corr lo hi x. unfold is_uint in *. assert (Hlo : 0 <= blo < 2 ^ 32) by (apply Z.mod_pos_bound; lia).
  assert (HBe : B = 2 ^ 32 * Bh + blo) by (apply Z.div_mod; lia). assert (HBh : 0 <= Bh < 2 ^ 32) by lia.
  assert (F : x * B / 2 ^ 64 = X * Bh + X * blo / 2 ^ 32).
  { unfold x. rewrite HBe. replace (X * 2 ^ 32 * (2 ^ 32 * Bh + blo)) with ((X * blo + X * Bh * 2 ^ 32) * 2 ^ 32) by ring. change (2 ^ 64) with (2 ^ 32 * 2 ^ 32).
    rewrite Z.div_mul_cancel_r, Z.div_add by lia. lia. }
  rewrite F. set (f := X * Bh + X * blo / 2 ^ 32) in *. assert (Hf : 2 <= f < 2 ^ 64).
  { assert (0 <= X * blo / 2 ^ 32 < 2 ^ 32) by (split; [apply Z.div_pos; nia|apply Z.div_lt_upper_bound; nia]). unfold f. nia. }
  assert (C : corr = 2 ^ 64 - f + 1).
  { apply uint_of_eqm; [unfold is_uint; lia|]. unfold usub, uadd, umul. rewrite !(uint_small 64 (X * _)) by (unfold is_uint; nia). rewrite shr_spec by lia. rewrite !uint_eqm.
    fold f. unfold eqm. replace (2 ^ 64 - f + 1) with (0 - (f - 1) + 1 * 2 ^ 64) by lia. symmetry. apply Z_mod_plus_full. }
  rewrite <- C. assert (HC : 0 <= corr < 2 ^ 64) by lia. clearbody corr. assert (Ehi : hi = corr / 2 ^ 32) by (unfold hi; apply shr_spec; lia).
  assert (Elo : lo = corr mod 2 ^ 32) by (unfold lo; change 0xffffffff with (2 ^ 32 - 1); apply land_ones_mod; lia).
  assert (Hl : 0 <= lo < 2 ^ 32) by (rewrite Elo; apply Z.mod_pos_bound; lia). assert (Ec : corr = 2 ^ 32 * hi + lo) by (rewrite Ehi, Elo; apply Z.div_mod; lia).
  assert (Hh : 0 <= hi < 2 ^ 32) by lia.
  unfold uadd, umul. rewrite !(uint_small 64 (X * _)) by (unfold is_uint; nia). rewrite ushl_spec, shr_spec by lia. rewrite !uint_eqm.
  assert (V : x * corr / 2 ^ 63 = X * hi * 2 + X * lo / 2 ^ 31).
  { unfold x. rewrite Ec. replace (X * 2 ^ 32 * (2 ^ 32 * hi + lo)) with ((X * lo + X * hi * 2 * 2 ^ 31) * 2 ^ 32) by ring. change (2 ^ 63) with (2 ^ 31 * 2 ^ 32).
    rewrite Z.div_mul_cancel_r, Z.div_add by lia. lia. }
  rewrite V. reflexivity.
Qed.

Lemma reciprocal_double_ok b : 2 ^ 52 <= b < 2 * 2 ^ 52 ->
  let B := b * 2 ^ 11 in
  is_uint 64 (reciprocal_double b) /\ 0 < 2 ^ 127 - reciprocal_double b * B <= 388 * B.
Proof.
  intros Hb B. unfold reciprocal_double. rewrite (ushl_spec 64 b 11) by lia. rewrite (uint_small 64 (b * 2 ^ 11)) by (unfold is_uint; lia). fold B.
  rewrite (shr_spec 64 b 21) by lia. assert (EB : b / 2 ^ 21 = B / 2 ^ 32) by (unfold B; change (2 ^ 32) with (2 ^ 21 * 2 ^ 11); now rewrite Z.div_mul_cancel_r).
  assert (HB : 2 ^ 63 <= B < 2 ^ 64) by (unfold B; lia). pose proof (Z.div_mod B (2 ^ 32) ltac:(lia)) as HBe. pose proof (Z.mod_pos_bound B (2 ^ 32) ltac:(lia)) as Hlo.
  rewrite EB, uint_small by (unfold is_uint; lia). assert (EL : Z.land B 0xffffffff = B mod 2 ^ 32) by (change 0xffffffff with (2 ^ 32 - 1); apply land_ones_mod; lia). rewrite EL.
  set (Bh := B / 2 ^ 32) in *. set (blo := B mod 2 ^ 32) in *. destruct (half_iterations_ok Bh ltac:(lia)) as [RX DX]. set (X := half_iterations Bh) in *.
  pose proof (emulated_step X B ltac:(unfold is_uint; lia) ltac:(unfold is_uint; lia)) as S. cbv zeta in S. fold Bh blo in S. clearbody X Bh blo. specialize (S ltac:(nia)).
  match type of S with eqm _ ?u _ => set (s := u) in * end. clearbody s. set (x := X * 2 ^ 32) in *.
  assert (D : - (9 * 2 ^ 32 * B) <= 2 * 2 ^ 63 * 2 ^ 63 - x * B <= 9 * 2 ^ 32 * B) by (unfold x; nia).
  destruct (newton_bounds (2 ^ 63) B ltac:(lia) ltac:(lia) x 1 (9 * 2 ^ 32) 162 ltac:(lia) ltac:(lia) ltac:(lia) ltac:(lia) D) as [U L].
  change (2 * 2 ^ 63) with (2 ^ 64) in *. set (x' := x * (2 ^ 64 - x * B / 2 ^ 64 + 1) / 2 ^ 63) in *. clearbody x'.
  assert (L' : - (5 * B) <= 2 ^ 64 * 2 ^ 63 - x' * B) by nia. assert (Hx' : 225 <= x' <= 2 ^ 64 + 5) by nia.
  assert (E : usub 64 (usub 64 (usub 64 (usub 64 s 2) 1) 2) 220 = x' - 225).
  { apply uint_of_eqm; [unfold is_uint; lia|]. unfold usub. rewrite !uint_eqm, S. now replace (x' - 2 - 1 - 2 - 220) with (x' - 225) by lia. }
  rewrite E. split; [unfold is_uint; lia|]. lia.
Qed.

#[global] Instance single_recip : @FpRecip single_precision single_ops.
Proof. refine (@Build_FpRecip single_precision single_ops reciprocal_single 20 _ _); [vm_compute; congruence|exact reciprocal_single_ok]. Defined.
#[global] Instance double_recip : @FpRecip double_precision double_ops.
Proof. refine (@Build_FpRecip double_precision double_ops reciprocal_double 388 _ _); [vm_compute; congruence|exact reciprocal_double_ok]. Defined.

Definition __divsf3 (a b : Z) : Z := @__divXf3__ single_precision single_ops single_recip a b.
Definition __divdf3 (a b : Z) : Z := @__divXf3__ double_precision double_ops double_recip a b.

(** ** The quotient and its rounding *)

Section Quotient.
Context {F : FpFormat} {O : FpOps} {R : FpRecip} {M : FpWideMul}.

Notation sb := significandBits.
Notation W := typeWidth.
Notation ib := (2 ^ significandBits).

Lemma width_split : 2 ^ W = 2 * ib * 2 ^ exponentBits /\ 32 <= 2 ^ exponentBits /\ 16 <= ib.
Proof.
  pose proof exponentBits_bounds as B. split; [|split].
  - change 2 with (2 ^ 1) at 2. rewrite <- !pow2_split by lia. f_equal. lia.
  - change 32 with (2 ^ 5). apply Z.pow_le_mono_r; lia.
  - change 16 with (2 ^ 4). apply Z.pow_le_mono_r; lia.
Qed.

(** The upper word of [x * 2a] is the quotient [a * 2^(sb+1) / b] from below,
    by less than one and a half. *)
Lemma quotient_bounds a b : ib <= a < 2 * ib -> ib <= b < 2 * ib ->
  let q := fst (wideMultiply (reciprocal b) (a <<[W] 1)) in
  0 <= q /\ q * b < 2 * ib * a /\ 4 * ib * a < (2 * q + 3) * b.
Proof.
  intros Ha Hb. pose proof exponentBits_bounds as Bx. destruct width_split as (PW & Pe & Pi).
  destruct (recip_ok b Hb) as [Rx Dx]. set (B := b * 2 ^ exponentBits) in *. set (x := reciprocal b) in *. pose proof recip_precise as PR.
  rewrite ushl_spec by lia. change (2 ^ 1) with 2. rewrite (uint_small W) by (unfold is_uint; nia).
  pose proof (wideMultiply_ok x (a * 2) Rx) as WM. specialize (WM ltac:(unfold is_uint; nia)). destruct (wideMultiply x (a * 2)) as [q lo]. cbn [fst].
  destruct WM as (Rq & Rl & P). unfold is_uint in Rq, Rl. split; [lia|]. clearbody x.
  assert (P2 : 2 ^ (2 * W - 1) * 2 = 2 ^ W * 2 ^ W) by (rewrite Z.mul_comm, <- pow2_S, <- pow2_split by lia; f_equal; lia).
  assert (P3 : 2 ^ (sb + 3) = 8 * ib) by (rewrite Z.add_comm; apply (pow2_split 3 sb); lia). rewrite P3 in PR.
  assert (HB : 0 < B) by (unfold B; nia). set (w := 2 ^ W) in *. set (t := 2 ^ (2 * W - 1)) in *. set (err := recip_error) in *. clearbody t err.
  assert (D1 : q * w * B + lo * B = 2 * a * t - 2 * a * (t - x * B)) by (transitivity ((q * w + lo) * B); [ring|rewrite P; ring]).
  assert (D2 : 2 * a * t = a * w * w) by (transitivity (a * (t * 2)); [ring|rewrite P2; ring]). rewrite D2 in D1. assert (Hw : 0 < w) by lia. split.
  - assert (L : q * B * w < a * w * w) by (assert (0 < 2 * a * (t - x * B)) by (apply Z.mul_pos_pos; lia); assert (0 <= lo * B) by (apply Z.mul_nonneg_nonneg; lia); lia).
    apply Z.mul_lt_mono_pos_r in L; [|assumption]. rewrite PW in L. unfold B in L. apply (Z.mul_lt_mono_pos_r (2 ^ exponentBits)); lia.
  - assert (L0 : 2 * a * (t - x * B) <= 2 * a * (err * B)) by (apply Z.mul_le_mono_nonneg_l; lia). assert (Le : 0 < err) by nia.
    assert (L1 : 2 * a * err * B <= 4 * ib * err * B) by (apply Z.mul_le_mono_nonneg_r; nia). assert (L2 : err * (8 * ib) * B <= w * B) by (apply Z.mul_le_mono_nonneg_r; lia).
    assert (L3 : lo * B < w * B) by (apply Z.mul_lt_mono_pos_r; lia). assert (L : 2 * (a * w) * w < (2 * q + 3) * B * w) by lia.
    apply Z.mul_lt_mono_pos_r in L; [|assumption]. rewrite PW in L. unfold B in L. apply (Z.mul_lt_mono_pos_r (2 ^ exponentBits)); lia.
Qed.

(** A quotient [q] with the residual [t / 2D], up to one and a half units. *)
Lemma rounds_to_quotient num den E q t D : 1 <= E < maxExponent -> 0 <= q < 2 * ib -> E = 1 \/ ib <= q -> 0 < D -> 0 < den ->
  num * (2 * D) = den * 2 ^ (E - 1) * (2 * q * D + t) -> 0 <= t < 3 * D ->
  let r0 := (E - 1) * ib + q in
  rounds_to num den (r0 + b2z (t + r0 mod 2 >? D)).
Proof.
  intros HE Hq Hn HD Hden EX Ht r0. pose proof sig_pow_pos as Hs. pose proof (pow2_pos (E - 1) ltac:(lia)) as He. set (e := 2 ^ (E - 1)) in *.
  assert (V0 : fpval r0 = q * e) by (apply fpval_parts; lia).
  assert (V1 : fpval (r0 + 1) = (q + 1) * e) by (unfold r0; rewrite <- Z.add_assoc; apply fpval_parts; lia).
  assert (Hr0 : 0 <= r0 /\ r0 + 1 <= infRep) by (rewrite infRep_val; unfold r0; nia).
  assert (V2 : (q + 2) * e <= fpval (r0 + 1 + 1)).
  { destruct (Z.eq_dec (q + 1) (2 * ib)) as [Q|Q].
    - replace (r0 + 1 + 1) with ((E + 1 - 1) * ib + (ib + 1)) by (unfold r0; lia). rewrite fpval_parts by lia.
      replace (E + 1 - 1) with (1 + (E - 1)) by lia. rewrite pow2_split by lia. fold e. nia.
    - unfold r0. rewrite <- !Z.add_assoc, fpval_parts by lia. fold e. nia. }
  assert (Low : r0 = 0 \/ den * (fpval (r0 - 1) + fpval r0) < 2 * num).
  { destruct (Z.eq_dec r0 0); [now left|right]. pose proof (fpval_lt (r0 - 1) r0 ltac:(lia) ltac:(lia)) as L. apply (Z.mul_lt_mono_pos_r D); [lia|].
    replace (2 * num * D) with (den * (2 * (q * e)) * D + den * e * t) by lia. rewrite V0 in *. assert (0 <= den * e * t) by (repeat apply Z.mul_nonneg_nonneg; lia).
    assert (den * (fpval (r0 - 1) + q * e) * D < den * (2 * (q * e)) * D) by (apply Z.mul_lt_mono_pos_r; [lia|]; apply Z.mul_lt_mono_pos_l; lia). lia. }
  assert (De : 0 < den * e) by (apply Z.mul_pos_pos; lia).
  assert (High : 2 * num < den * (fpval (r0 + 1) + fpval (r0 + 1 + 1))).
  { apply (Z.mul_lt_mono_pos_r D); [lia|]. replace (2 * num * D) with (den * e * (2 * q * D + t)) by lia. rewrite V1.
    assert (den * e * (2 * q * D + t) < den * e * ((2 * q + 3) * D)) by (apply Z.mul_lt_mono_pos_l; lia).
    assert (den * ((q + 1) * e + (q + 2) * e) * D <= den * ((q + 1) * e + fpval (r0 + 1 + 1)) * D) by (apply Z.mul_le_mono_nonneg_r; [lia|]; apply Z.mul_le_mono_nonneg_l; lia). lia. }
  assert (Mid : (2 * num ?= den * (fpval r0 + fpval (r0 + 1))) = (t ?= D)).
  { rewrite V0, V1, <- (compare_scale _ _ D), <- (compare_scale t D (den * e)) by lia. replace (2 * num * D) with (den * e * (2 * q) * D + t * (den * e)) by lia.
    replace (den * (q * e + (q + 1) * e) * D) with (den * e * (2 * q) * D + D * (den * e)) by ring. apply Z.add_compare_mono_l. }
  pose proof (Z.mod_pos_bound r0 2 ltac:(lia)) as Mb. rewrite Z.gtb_ltb.
  assert (Ev : Z.even r0 = (r0 mod 2 =? 0)) by (rewrite Zmod_even; now destruct (Z.even r0)).
  destruct (Z.ltb_spec D (t + r0 mod 2)) as [G|G]; cbn [b2z].
  - split; [lia|]. replace (r0 + 1 - 1) with r0 by lia. split; [right|right; now left].
    destruct (Z.eq_dec t D) as [T|T]; [right|left].
    + rewrite T, Z.compare_refl in Mid. apply Z.compare_eq_iff in Mid. split; [lia|]. rewrite Z.even_add, Ev. replace (r0 mod 2) with 1 by lia. reflexivity.
    + rewrite (proj2 (Z.compare_gt_iff t D)) in Mid by lia. apply Z.compare_gt_iff in Mid. exact Mid.
  - rewrite Z.add_0_r. split; [lia|]. split; [tauto|]. right. destruct (Z.eq_dec t D) as [T|T]; [right|left].
    + rewrite T, Z.compare_refl in Mid. apply Z.compare_eq_iff in Mid. split; [lia|]. rewrite Ev. replace (r0 mod 2) with 0 by lia. reflexivity.
    + rewrite (proj2 (Z.compare_lt_iff t D)) in Mid by lia. now apply Z.compare_lt_iff in Mid.
Qed.

(** The value of the quotient: [A / D] with [sb] fraction bits, at exponent
    [E], which may be below 1. *)
Definition quotient_of (num den A D E : Z) : Prop :=
  forall K, 0 <= K -> 0 <= E - 1 + K -> num * D * 2 ^ K = den * A * ib * 2 ^ (E - 1 + K).

(** The last lines: add one when the residual is above one half, or is one
    half and the result is odd. *)
Lemma round_residual (n : bool) r0 t D : 0 <= r0 -> r0 + 1 <= infRep -> 0 < D < 2 * ib -> 0 <= t < 3 * D ->
  Z.lor (uadd W r0 (b2z (uadd W t (Z.land r0 1) >? D))) (if n then 2 ^ (W - 1) else 0)
  = with_sign n (r0 + b2z (t + r0 mod 2 >? D)).
Proof.
  intros H0 H1 HD Ht. pose proof infRep_bounds as Bi. destruct width_split as (PW & Pe & Pi). pose proof exponentBits_bounds as Bx.
  assert (PW2 : 2 ^ W = 2 * 2 ^ (W - 1)) by (apply pow2_S; lia). change 1 with (2 ^ 1 - 1) at 1. rewrite land_ones_mod by lia. change (2 ^ 1) with 2.
  pose proof (Z.mod_pos_bound r0 2 ltac:(lia)) as Mb. unfold uadd. rewrite (uint_small W (t + _)) by (unfold is_uint; nia).
  assert (Bz : 0 <= b2z (t + r0 mod 2 >? D) <= 1) by (destruct (t + r0 mod 2 >? D); cbn; lia).
  rewrite uint_small by (unfold is_uint; lia). apply with_sign_lor. lia.
Qed.

Section Round.
Context (n : bool) (num den A D q E : Z).
Hypotheses (HD : ib <= D < 2 * ib) (Hq : ib <= q < 2 * ib) (HR : 0 <= 2 * (A * ib - q * D) < 3 * D) (HA : A <= 2 * D)
  (Hnum : 0 <= num) (Hden : 0 < den) (EX : quotient_of num den A D E).

(** Exponents of at least [maxExponent] overflow. *)
Lemma quotient_overflow : maxExponent <= E -> rounds_to num den infRep.
Proof.
  intros G. pose proof maxExponent_bounds as ME. pose proof sig_pow_pos as Hs. apply rounds_to_inf; [assumption|]. rewrite fpval_inf.
  pose proof (EX 0 ltac:(lia) ltac:(lia)) as X. rewrite Z.add_0_r, Z.pow_0_r, Z.mul_1_r in X.
  assert (P1 : 2 ^ (maxExponent - 1) <= 2 ^ (E - 1)) by (apply Z.pow_le_mono_r; lia). assert (P0 : 0 < 2 ^ (maxExponent - 1)) by (apply pow2_pos; lia).
  apply (Z.mul_le_mono_pos_r _ _ D); [lia|]. rewrite X. assert (L : ib * D <= A * ib) by nia.
  replace (den * (ib * 2 ^ (maxExponent - 1)) * D) with (den * (ib * D * 2 ^ (maxExponent - 1))) by ring. replace (den * A * ib * 2 ^ (E - 1)) with (den * (A * ib * 2 ^ (E - 1))) by ring.
  apply Z.mul_le_mono_nonneg_l; [lia|]. apply Z.mul_le_mono_nonneg; nia.
Qed.

(** Half of the least positive number and everything below it round to zero. *)
Lemma quotient_underflow : sb + E < 0 -> rounds_to num den 0.
Proof.
  intros G. pose proof infRep_bounds as Bi. destruct width_split as (_ & _ & Pi). pose proof exponentBits_bounds as Bx. split; [lia|]. split; [now left|]. right.
  pose proof (EX (1 - E) ltac:(lia) ltac:(lia)) as X. replace (E - 1 + (1 - E)) with 0 in X by lia. rewrite Z.pow_0_r, Z.mul_1_r in X.
  assert (P4 : 4 * ib <= 2 ^ (1 - E)) by (change 4 with (2 ^ 2); rewrite <- pow2_split by lia; apply Z.pow_le_mono_r; lia).
  assert (V1 : fpval (0 + 1) = 1) by (unfold fpval; rewrite Z.div_small, Z.mod_small by lia; reflexivity). rewrite V1, fpval_zero.
  assert (L1 : num * D * (4 * ib) <= num * D * 2 ^ (1 - E)) by (apply Z.mul_le_mono_nonneg_l; [apply Z.mul_nonneg_nonneg|]; lia).
  assert (L2 : den * ib * A <= den * ib * (2 * D)) by (apply Z.mul_le_mono_nonneg_l; [apply Z.mul_nonneg_nonneg|]; lia).
  assert (L : 2 * num * (D * (2 * ib)) <= den * (D * (2 * ib))) by lia. apply Z.mul_le_mono_pos_r in L; [|apply Z.mul_pos_pos; lia].
  destruct (Z.eq_dec (2 * num) den); [right|left]; [split; [lia|reflexivity]|lia].
Qed.

Lemma quotient_normal : 1 <= E < maxExponent -> let r0 := (E - 1) * ib + q in
  rounds_to num den (r0 + b2z (2 * (A * ib - q * D) + r0 mod 2 >? D)).
Proof.
  intros HE r0. pose proof sig_pow_pos as Hs. apply rounds_to_quotient; try lia.
  pose proof (EX 0 ltac:(lia) ltac:(lia)) as X. rewrite Z.add_0_r, Z.pow_0_r, Z.mul_1_r in X. replace (num * (2 * D)) with (2 * (num * D)) by ring. rewrite X. ring.
Qed.

Lemma quotient_subnormal : - sb <= E <= 0 -> let y := q / 2 ^ (1 - E) in let t := A * 2 ^ (sb + E) - 2 * y * D in
  0 <= y < ib /\ 0 <= t < 3 * D /\ rounds_to num den (y + b2z (t + y mod 2 >? D)).
Proof.
  intros HE y t. pose proof sig_pow_pos as Hs. pose proof maxExponent_bounds as ME. pose proof (EX (1 - E) ltac:(lia) ltac:(lia)) as X. replace (E - 1 + (1 - E)) with 0 in X by lia. rewrite Z.pow_0_r, Z.mul_1_r in X.
  assert (Ps : 2 ^ (sb + E) * 2 ^ (1 - E) = 2 * ib) by (rewrite <- pow2_split by lia; replace (sb + E + (1 - E)) with (1 + sb) by lia; apply (pow2_split 1); lia).
  pose proof (Z.pow_le_mono_r 2 1 (1 - E) ltac:(lia) ltac:(lia)) as P1. change (2 ^ 1) with 2 in P1. set (c := 2 ^ (1 - E)) in *. set (p := 2 ^ (sb + E)) in *.
  pose proof (Z.div_mod q c ltac:(lia)) as Dm. pose proof (Z.mod_pos_bound q c ltac:(lia)) as Mb. fold y in Dm.
  assert (Hy : 0 <= y < ib) by (split; [apply Z.div_pos; lia|apply Z.div_lt_upper_bound; nia]).
  assert (Tc : t * c = 2 * (A * ib - q * D) + 2 * D * (q mod c)).
  { unfold t. replace ((A * p - 2 * y * D) * c) with (A * (p * c) - 2 * (c * y) * D) by ring. rewrite Ps. replace (c * y) with (q - q mod c) by lia. ring. }
  assert (M0 : 0 <= D * (q mod c)) by (apply Z.mul_nonneg_nonneg; lia). assert (M1 : D * (q mod c) <= D * (c - 1)) by (apply Z.mul_le_mono_nonneg_l; lia).
  assert (Ht : 0 <= t < 3 * D).
  { split; [apply (Z.mul_le_mono_pos_r _ _ c); lia|]. apply (Z.mul_lt_mono_pos_r c); [lia|]. rewrite Tc. nia. }
  split; [assumption|]. split; [assumption|]. pose proof (rounds_to_quotient num den 1 y t D) as RR. change (1 - 1) with 0 in RR. rewrite Z.mul_0_l, Z.add_0_l, Z.pow_0_r in RR.
  apply RR; try lia. unfold t. apply (Z.mul_cancel_r _ _ c); [lia|]. replace (num * (2 * D) * c) with (2 * (num * D * c)) by ring. rewrite X.
  replace (den * 1 * (2 * y * D + (A * p - 2 * y * D)) * c) with (den * A * (p * c)) by ring. rewrite Ps. ring.
Qed.

Lemma div_round_spec : exists r, rounds_to num den r /\
  div_round (if n then 2 ^ (W - 1) else 0) A D q (A * ib - q * D) E = with_sign n r.
Proof.
  pose proof infRep_bounds as Bi. destruct width_split as (PW & Pe & Pi). pose proof exponentBits_bounds as Bx. pose proof maxExponent_bounds as ME.
  unfold div_round. rewrite Z.geb_leb. destruct (Z.leb_spec maxExponent E) as [G|G].
  { exists infRep. split; [now apply quotient_overflow|apply with_sign_lor; lia]. }
  rewrite Z.gtb_ltb. destruct (Z.leb_spec E 0) as [L|L]; cbn [andb].
  - rewrite (proj2 (Z.ltb_ge 0 E)) by lia. destruct (Z.ltb_spec (sb + E) 0) as [G2|G2].
    { exists 0. split; [now apply quotient_underflow|]. destruct n; cbn [with_sign]; lia. }
    destruct (quotient_subnormal ltac:(lia)) as (Hy & Ht & RT). replace (- E + 1) with (1 - E) by lia. rewrite shr_spec by lia.
    set (y := q / 2 ^ (1 - E)) in *. set (t := A * 2 ^ (sb + E) - 2 * y * D) in *. exists (y + b2z (t + y mod 2 >? D)). split; [assumption|].
    replace (usub W _ _) with t; [apply round_residual; rewrite ?infRep_val; nia|]. symmetry. apply uint_of_eqm; [unfold is_uint; nia|].
    unfold umul. rewrite !ushl_spec by lia. change (2 ^ 1) with 2. rewrite !uint_eqm. unfold t. now replace (y * D * 2) with (2 * y * D) by ring.
  - rewrite (proj2 (Z.ltb_lt 0 E)) by lia. pose proof (quotient_normal ltac:(lia)) as RT. cbv zeta in RT. rewrite pack by lia.
    rewrite ushl_spec by lia. change (2 ^ 1) with 2. rewrite (uint_small W) by (unfold is_uint; nia). rewrite (Z.mul_comm _ 2).
    set (r0 := (E - 1) * ib + q) in *. exists (r0 + b2z (2 * (A * ib - q * D) + r0 mod 2 >? D)). split; [assumption|].
    apply round_residual; rewrite ?infRep_val; unfold r0; nia.
Qed.
End Round.

(** ** The whole routine *)

Lemma div_unpack_finite a b : is_uint W a -> is_uint W b -> 0 < fp_abs a < infRep -> 0 < fp_abs b < infRep ->
  exists scale, div_unpack a b = inr (fst (operand (fp_abs a)), fst (operand (fp_abs b)), scale) /\
    fp_abs a / ib - fp_abs b / ib + scale = snd (operand (fp_abs a)) - snd (operand (fp_abs b)).
Proof.
  intros Ra Rb Ha Hb. unfold div_unpack. destruct (fields_of a Ra) as [-> ->]. destruct (fields_of b Rb) as [-> ->].
  destruct (rep_parts a Ra) as (_ & Aa & La & _). destruct (rep_parts b Rb) as (_ & Ab & Lb & _).
  rewrite !field_special, La, Lb by assumption.
  rewrite (proj2 (Z.leb_gt infRep (fp_abs a))), (proj2 (Z.leb_gt infRep (fp_abs b))) by lia. rewrite !orb_false_r.
  rewrite !Z.gtb_ltb, (proj2 (Z.ltb_ge infRep (fp_abs a))), (proj2 (Z.ltb_ge infRep (fp_abs b))) by lia.
  rewrite (proj2 (Z.eqb_neq (fp_abs a) infRep)), (proj2 (Z.eqb_neq (fp_abs b) infRep)) by lia.
  unfold nonzero. rewrite (proj2 (Z.eqb_neq (fp_abs a) 0)), (proj2 (Z.eqb_neq (fp_abs b) 0)) by lia. cbn [negb].
  unfold operand. rewrite implicitBit_val. rewrite !field_zero by lia. assert (D0 : forall x, 0 < x -> x < ib -> x / ib = 0) by (intros; apply Z.div_small; lia).
  destruct (Z.ltb_spec (fp_abs a) ib) as [La'|La'], (Z.ltb_spec (fp_abs b) ib) as [Lb'|Lb']; cbn [orb];
    try (destruct (normalize (fp_abs a mod ib)) as [sa na]); try (destruct (normalize (fp_abs b mod ib)) as [sB nb]);
    eexists; (split; [reflexivity|]); cbn [snd]; rewrite ?(D0 (fp_abs a)), ?(D0 (fp_abs b)) by lia; lia.
Qed.

(** The quotient of two magnitudes, from their significands and exponents. *)
Lemma quotient_scaled xa ea sa xb eb sB : unpacked xa ea sa -> unpacked xb eb sB ->
  quotient_of (fpval xa * 2 ^ unitExp) (fpval xb) sa sB (ea - eb + exponentBias).
Proof.
  intros (_ & Ha & Ea) (_ & Hb & Eb) K HK HK'. pose proof exponentBits_bounds as B. pose proof bias_bounds as BB. pose proof sig_pow_pos as Hp. unfold unitExp.
  apply (Z.mul_cancel_r _ _ ib); [lia|].
  replace (fpval xa * 2 ^ (exponentBias + sb - 1) * sB * 2 ^ K * ib) with (fpval xa * ib * sB * (2 ^ (exponentBias + sb - 1) * 2 ^ K)) by ring.
  replace (fpval xb * sa * ib * 2 ^ (ea - eb + exponentBias - 1 + K) * ib) with (fpval xb * ib * sa * (ib * 2 ^ (ea - eb + exponentBias - 1 + K))) by ring.
  rewrite Ea, Eb, <- !pow2_split by lia.
  replace (sa * 2 ^ (ea - 1 + sb) * sB * 2 ^ (exponentBias + sb - 1 + K)) with (sa * sB * (2 ^ (ea - 1 + sb) * 2 ^ (exponentBias + sb - 1 + K))) by ring.
  replace (sB * 2 ^ (eb - 1 + sb) * sa * 2 ^ (sb + (ea - eb + exponentBias - 1 + K))) with (sa * sB * (2 ^ (eb - 1 + sb) * 2 ^ (sb + (ea - eb + exponentBias - 1 + K)))) by ring.
  rewrite <- !pow2_split by lia. do 2 f_equal. lia.
Qed.

(** From the normalized operands to the result, on either side of the test
    of the leading bit of the quotient. *)
Lemma div_significands (n : bool) num den a b E : ib <= a < 2 * ib -> ib <= b < 2 * ib -> 0 <= num -> 0 < den -> quotient_of num den a b E ->
  let q := fst (wideMultiply (reciprocal b) (a <<[W] 1)) in
  exists r, rounds_to num den r /\
  (if q <? (implicitBit <<[W] 1) then
     div_round (if n then 2 ^ (W - 1) else 0) (a <<[W] 1) b q ((a <<[W] (sb + 1)) -[W] (q *[W] b)) (E - 1)
   else
     div_round (if n then 2 ^ (W - 1) else 0) a b (q >>[W] 1) ((a <<[W] sb) -[W] ((q >>[W] 1) *[W] b)) E) = with_sign n r.
Proof.
  intros Ha Hb Hn Hd EX q. destruct (quotient_bounds a b Ha Hb) as (Q0 & Q1 & Q2). fold q in Q0, Q1, Q2. clearbody q.
  destruct width_split as (PW & Pe & Pi). pose proof exponentBits_bounds as Bx. rewrite implicitBit_val, !ushl_spec by lia. change (2 ^ 1) with 2.
  rewrite (uint_small W (ib * 2)), (uint_small W (a * 2)) by (unfold is_uint; nia). destruct (Z.ltb_spec q (ib * 2)) as [L|L].
  - assert (Hq : ib <= q) by nia. assert (Hab : a <= b) by nia.
    replace (usub W _ _) with (a * 2 * ib - q * b).
    + apply div_round_spec; try lia. intros K HK HK'. specialize (EX K HK ltac:(lia)). rewrite EX. replace (E - 1 + K) with (1 + (E - 1 - 1 + K)) by lia. rewrite (pow2_split 1) by lia. change (2 ^ 1) with 2. ring.
    + symmetry. unfold usub, umul. apply uint_of_eqm; [unfold is_uint; nia|]. rewrite !uint_eqm. replace (sb + 1) with (1 + sb) by lia. rewrite (pow2_split 1) by lia. change (2 ^ 1) with 2. now rewrite Z.mul_assoc.
  - rewrite shr_spec by lia. change (2 ^ 1) with 2. pose proof (Z.div_mod q 2 ltac:(lia)) as Dm. pose proof (Z.mod_pos_bound q 2 ltac:(lia)) as Mb. set (h := q / 2) in *. clearbody h.
    assert (Hh : ib <= h < 2 * ib) by nia. replace (usub W _ _) with (a * ib - h * b); [apply div_round_spec; try assumption; nia|].
    symmetry. unfold usub, umul. apply uint_of_eqm; [unfold is_uint; nia|]. now rewrite !uint_eqm.
Qed.

Lemma div_finite_spec a b : is_uint W a -> is_uint W b -> is_finite a = true -> is_finite b = true -> fp_abs b <> 0 ->
  exists r, rounds_to (Z.abs (fp_value a) * 2 ^ unitExp) (Z.abs (fp_value b)) r /\ __divXf3__ a b = with_sign (product_sign a b) r.
Proof.
  intros Ra Rb Fa Fb Nb. unfold is_finite in *. apply Z.ltb_lt in Fa, Fb.
  destruct (rep_parts a Ra) as (_ & Aa & La & _). destruct (rep_parts b Rb) as (_ & Ab & Lb & _).
  assert (Va : forall x, 0 <= fp_abs x -> Z.abs (fp_value x) = fpval (fp_abs x)) by (intros x Hx; pose proof (fpval_step _ Hx); unfold fp_value; destruct (fp_neg x); lia).
  rewrite !Va by lia. clear Va. assert (Pb : fpval 0 < fpval (fp_abs b)) by (apply fpval_lt; lia). rewrite fpval_zero in Pb.
  unfold __divXf3__. rewrite product_sign_bit by assumption. pose proof infRep_bounds as Bi. destruct (Z.eq_dec (fp_abs a) 0) as [Z0|NZ].
  { exists 0. split.
    - assert (Ez : fpval (fp_abs a) * 2 ^ unitExp = 0) by (rewrite Z0, fpval_zero; reflexivity). rewrite Ez. assert (R0 : rounds_to (fpval (fp_abs b) * fpval 0) (fpval (fp_abs b)) 0) by (apply rounds_to_exact; lia). rewrite fpval_zero, Z.mul_0_r in R0. exact R0.
    - unfold div_unpack. destruct (fields_of a Ra) as [-> ->]. destruct (fields_of b Rb) as [-> ->]. rewrite !field_special, La, Lb, Z0 by assumption.
      rewrite Zdiv_0_l, Z.eqb_refl, !Z.gtb_ltb, (proj2 (Z.ltb_ge infRep 0)), (proj2 (Z.ltb_ge infRep (fp_abs b))) by lia. cbn [orb].
      rewrite (proj2 (Z.eqb_neq 0 infRep)), (proj2 (Z.eqb_neq (fp_abs b) infRep)) by lia. unfold nonzero. rewrite (proj2 (Z.eqb_neq (fp_abs b) 0)) by lia. cbn [negb Z.eqb].
      rewrite product_sign_bit by assumption. destruct (product_sign a b); cbn [with_sign]; lia. }
  assert (Oa : 0 < fp_abs a < infRep) by lia. assert (Ob : 0 < fp_abs b < infRep) by lia.
  destruct (div_unpack_finite a b Ra Rb Oa Ob) as (scale & -> & Es). destruct (fields_of a Ra) as [-> _]. destruct (fields_of b Rb) as [-> _].
  pose proof (operand_spec (fp_abs a) Oa) as Ua. pose proof (operand_spec (fp_abs b) Ob) as Ub. pose proof (quotient_scaled _ _ _ _ _ _ Ua Ub) as EX.
  destruct (operand (fp_abs a)) as [ma ea]. destruct (operand (fp_abs b)) as [mb eb]. cbn [fst snd] in *.
  destruct Ua as (Ra' & Ha & _). destruct Ub as (Rb' & Hb & _). pose proof maxExponent_bounds. pose proof bias_bounds. pose proof exponentBits_bounds.
  assert (Ew : sint 32 (uadd 32 (uadd 32 (usub 32 (fp_abs a / ib) (fp_abs b / ib)) scale) exponentBias) = ea - eb + exponentBias).
  { apply sint_of_eqm; [lia|unfold is_sint; lia|]. unfold uadd, usub. rewrite !uint_eqm. now rewrite Es. }
  rewrite Ew. assert (Pa : 0 <= fpval (fp_abs a) * 2 ^ unitExp) by (apply Z.mul_nonneg_nonneg; [apply fpval_step; lia|apply Z.pow_nonneg; lia]).
  exact (div_significands (product_sign a b) _ _ _ _ _ Ra' Rb' Pa Pb EX).
Qed.

Lemma div_nonfinite_spec a b : is_uint W a -> is_uint W b ->
  let p := __divXf3__ a b in
  (is_nan a = true -> p = a .| quietBit) /\
  (is_nan a = false -> is_nan b = true -> p = b .| quietBit) /\
  (is_inf a = true -> is_nan b = false -> p = if is_inf b then qnanRep else with_sign (product_sign a b) infRep) /\
  (is_finite a = true -> is_inf b = true -> p = with_sign (product_sign a b) 0) /\
  (is_finite a = true -> fp_abs b = 0 -> p = if fp_abs a =? 0 then qnanRep else with_sign (product_sign a b) infRep).
Proof.
  intros Ra Rb. cbv zeta. unfold __divXf3__, div_unpack, is_nan, is_inf, is_finite.
  destruct (fields_of a Ra) as [-> ->]. destruct (fields_of b Rb) as [-> ->].
  destruct (rep_parts a Ra) as (_ & Aa & La & _). destruct (rep_parts b Rb) as (_ & Ab & Lb & _).
  rewrite La, Lb, !field_special, product_sign_bit by assumption. rewrite !Z.gtb_ltb. pose proof infRep_bounds as Bi.
  assert (S0 : (if product_sign a b then 2 ^ (W - 1) else 0) = with_sign (product_sign a b) 0) by (destruct (product_sign a b); cbn [with_sign]; lia).
  assert (S1 : Z.lor infRep (if product_sign a b then 2 ^ (W - 1) else 0) = with_sign (product_sign a b) infRep) by (apply with_sign_lor; lia).
  unfold nonzero. repeat split.
  - intros G. rewrite G. apply Z.ltb_lt in G. now rewrite (proj2 (Z.leb_le infRep (fp_abs a))), orb_true_r by lia.
  - intros G1 G. rewrite G1, G. apply Z.ltb_lt in G. now rewrite (proj2 (Z.leb_le infRep (fp_abs b))), !orb_true_r by lia.
  - intros G G1. rewrite G, G1. apply Z.eqb_eq in G. rewrite G, (proj2 (Z.leb_le infRep infRep)), (proj2 (Z.ltb_ge infRep infRep)), orb_true_r by lia. cbn [orb].
    now destruct (fp_abs b =? infRep).
  - intros G G1. rewrite G1. apply Z.ltb_lt in G. apply Z.eqb_eq in G1.
    rewrite (proj2 (Z.leb_le infRep (fp_abs b))), (proj2 (Z.ltb_ge infRep (fp_abs a))), (proj2 (Z.ltb_ge infRep (fp_abs b))), !orb_true_r by lia. now rewrite (proj2 (Z.eqb_neq (fp_abs a) infRep)) by lia.
  - intros G G1. apply Z.ltb_lt in G. rewrite G1, Zdiv_0_l, (proj2 (Z.ltb_ge infRep (fp_abs a))), (proj2 (Z.ltb_ge infRep 0)) by lia. change (0 =? 0) with true. cbn [orb]. rewrite orb_true_r.
    rewrite (proj2 (Z.eqb_neq (fp_abs a) infRep)), (proj2 (Z.eqb_neq 0 infRep)) by lia. now destruct (fp_abs a =? 0).
Qed.
End Quotient.

(** ** The properties of division *)

(** C13: division of two finite numbers by a non-zero divisor, in float and in
    double, is the exact quotient rounded to nearest, ties to even, through
    overflow and gradual underflow, with the exclusive or of the signs: the
    error of the Newton iteration is always within what one correction of the
    truncated quotient repairs. *)
Theorem div_correctly_rounded (F : FpFormat) (O : FpOps) (R : FpRecip) (M : FpWideMul) a b :
  is_uint typeWidth a -> is_uint typeWidth b -> is_finite a = true -> is_finite b = true -> fp_abs b <> 0 ->
  exists r, rounds_to (Z.abs (fp_value a) * 2 ^ unitExp) (Z.abs (fp_value b)) r /\
    __divXf3__ a b = with_sign (product_sign a b) r.
Proof. apply div_finite_spec. Qed.

Lemma div_correctly_rounded_witness :
  (exists r, @rounds_to single_precision
      (Z.abs (@fp_value single_precision 0x3f800000) * 2 ^ @unitExp single_precision) (Z.abs (@fp_value single_precision 0xc0400000)) r /\
    __divsf3 0x3f800000 0xc0400000 = @with_sign single_precision (@product_sign single_precision 0x3f800000 0xc0400000) r) /\
  (exists r, @rounds_to double_precision
      (Z.abs (@fp_value double_precision 0x3ff0000000000000) * 2 ^ @unitExp double_precision) (Z.abs (@fp_value double_precision 0x7fd0000000000001)) r /\
    __divdf3 0x3ff0000000000000 0x7fd0000000000001 = @with_sign double_precision (@product_sign double_precision 0x3ff0000000000000 0x7fd0000000000001) r) /\
  __divsf3 0x3f800000 0xc0400000 = 0xbeaaaaab /\ __divdf3 0x3ff0000000000000 0x7fd0000000000001 = 0x000fffffffffffff.
Proof.
  split; [|split; [|split]]; [| |vm_compute; reflexivity|vm_compute; reflexivity].
  - apply (div_correctly_rounded single_precision single_ops single_recip single_wide); vm_compute; (reflexivity || intuition discriminate).
  - apply (div_correctly_rounded double_precision double_ops double_recip double_wide); vm_compute; (reflexivity || intuition discriminate).
Defined.

(** Division with a NaN, an infinity or a zero divisor: a NaN operand is
    returned quiet, infinity over infinity and zero over zero are the default
    NaN, infinity over a finite number and a non-zero number over zero are an
    infinity, a finite number over infinity is a zero, signed as the quotient. *)
Theorem div_special_values (F : FpFormat) (O : FpOps) (R : FpRecip) a b : is_uint typeWidth a -> is_uint typeWidth b ->
  let p := __divXf3__ a b in
  (is_nan a = true -> p = a .| quietBit /\ is_nan p = true) /\
  (is_nan a = false -> is_nan b = true -> p = b .| quietBit /\ is_nan p = true) /\
  (is_inf a = true -> is_nan b = false -> p = if is_inf b then qnanRep else with_sign (product_sign a b) infRep) /\
  (is_finite a = true -> is_inf b = true -> p = with_sign (product_sign a b) 0) /\
  (is_finite a = true -> fp_abs b = 0 -> p = if fp_abs a =? 0 then qnanRep else with_sign (product_sign a b) infRep).
Proof.
  intros Ra Rb p. destruct (div_nonfinite_spec a b Ra Rb) as (N1 & N2 & I). fold p in N1, N2, I. split; [|split; [|assumption]].
  - intros N. rewrite N1 by assumption. split; [reflexivity|now apply quiet_is_nan].
  - intros N N'. rewrite N2 by assumption. split; [reflexivity|now apply quiet_is_nan].
Qed.

Lemma div_special_values_witness : __divsf3 0x3f800000 0x80000000 = 0xff800000 /\ __divdf3 0 0 = 0x7ff8000000000000.
Proof.
  split.
  - refine (_ (div_special_values single_precision single_ops single_recip 0x3f800000 0x80000000 _ _)); [|vm_compute; intuition discriminate..].
    intros (_ & _ & _ & _ & I). exact (I eq_refl eq_refl).
  - refine (_ (div_special_values double_precision double_ops double_recip 0 0 _ _)); [|vm_compute; intuition discriminate..].
    intros (_ & _ & _ & _ & I). exact (I eq_refl eq_refl).
Defined.
