(* ===== verification/Powi.v ===== *)
(** * Soft float: powers with an integer exponent

    Models [__powisf2] and [__powidf2] ([powisf2.c], [powidf2.c]): repeated
    squaring, and a division at the end for a negative exponent. *)

From S2P Require Import Prelude IntBits FpLib FpSpec FpAdd FpMul FpCompare FpInt FpMath ComplexMul FpDiv.

Section Functions.
Context `{FpRecip}.

(** The [while (1)] loop; [b] is an [int], so [b / 2] truncates toward zero. *)
Fixpoint powi_loop (fuel : nat) (a b r : Z) : option Z :=
  match fuel with
  | O => None
  | S fuel =>
      let r := if nonzero (b .& 1) then __mulXf3__ r a else r in
      let b := Z.quot b 2 in
      if b =? 0 then Some r
      else powi_loop fuel (__mulXf3__ a a) b r
  end.

(** 32 rounds are enough for every [int], see [powi_loop_result]. *)
Definition powiXf2 (a b : Z) : option Z :=
  let recip := b <? 0 in
  match powi_loop 32 a b oneRep with
  | None => None
  | Some r => Some (if recip then __divXf3__ oneRep r else r)
  end.

(** The same product by recursion on the binary digits of the exponent. *)
Fixpoint pow_digits (a r : Z) (p : positive) : Z :=
  match p with
  | xH => __mulXf3__ r a
  | xO p => pow_digits (__mulXf3__ a a) r p
  | xI p => pow_digits (__mulXf3__ a a) (__mulXf3__ r a) p
  end.
Definition pow_of (a r n : Z) : Z := match n with Zpos p => pow_digits a r p | _ => r end.
End Functions.

Definition __powisf2 (a b : Z) : option Z := @powiXf2 single_precision single_ops single_recip a b.
Definition __powidf2 (a b : Z) : option Z := @powiXf2 double_precision double_ops double_recip a b.

Section Loop.
Context `{FpRecip}.

Lemma pow_of_step a r n : 1 < n -> pow_of a r n = pow_of (__mulXf3__ a a) (if n mod 2 =? 0 then r else __mulXf3__ r a) (n / 2).
Proof.
  intros Hn. destruct n as [|[p|p|]|p]; try lia.
  - replace (Z.pos p~1 / 2) with (Z.pos p) by (apply Z.div_unique with 1; lia). replace (Z.pos p~1 mod 2) with 1 by (apply Z.mod_unique with (Z.pos p); lia). reflexivity.
  - replace (Z.pos p~0 / 2) with (Z.pos p) by (apply Z.div_unique with 0; lia). replace (Z.pos p~0 mod 2) with 0 by (apply Z.mod_unique with (Z.pos p); lia). reflexivity.
Qed.

Lemma odd_test b : nonzero (b .& 1) = negb (Z.abs b mod 2 =? 0).
Proof.
  unfold nonzero. change 1 with (2 ^ 1 - 1). rewrite land_ones_mod by lia. change (2 ^ 1) with 2. f_equal. destruct (Z.abs_spec b) as [[_ ->]|[_ ->]]; rewrite !Zmod_even, ?Z.even_opp; reflexivity.
Qed.

Lemma quot_abs b : Z.abs (Z.quot b 2) = Z.abs b / 2.
Proof. destruct (Z.le_gt_cases 0 b); [rewrite Z.quot_div_nonneg by lia|replace b with (- - b) by lia; rewrite Z.quot_opp_l, Z.abs_opp, Z.quot_div_nonneg by lia]; rewrite !Z.abs_eq by (try apply Z.div_pos; lia); f_equal; lia. Qed.

(** The loop ends after as many rounds as [|b|] has binary digits, and
    multiplies the squares those digits select. *)
Lemma powi_loop_result n a b r : Z.abs b < 2 ^ Z.of_nat (S n) -> powi_loop (S n) a b r = Some (pow_of a r (Z.abs b)).
Proof.
  revert a b r. induction n as [|n IH]; intros a b r Hb.
  - change (2 ^ Z.of_nat 1) with 2 in Hb. assert (C : b = 0 \/ b = 1 \/ b = -1) by lia. destruct C as [->|[->| ->]]; reflexivity.
  - remember (S n) as m eqn:Em. cbn [powi_loop]. rewrite odd_test. pose proof (quot_abs b) as Q. rewrite Nat2Z.inj_succ, Z.pow_succ_r in Hb by lia.
    destruct (Z.eqb_spec (Z.quot b 2) 0) as [E0|N0].
    + rewrite E0 in Q. cbn [Z.abs] in Q. pose proof (Z.div_mod (Z.abs b) 2 ltac:(lia)) as D. pose proof (Z.mod_pos_bound (Z.abs b) 2 ltac:(lia)) as Mb.
      assert (C : b = 0 \/ b = 1 \/ b = -1) by lia. destruct C as [->|[->| ->]]; reflexivity.
    + rewrite Em in *. rewrite IH by (rewrite Q; apply Z.div_lt_upper_bound; lia). rewrite Q. f_equal. symmetry.
      assert (1 < Z.abs b) by (pose proof (Z.abs_pos (Z.quot b 2)); assert (0 < Z.abs b / 2) by lia; destruct (Z.le_gt_cases (Z.abs b) 1); [rewrite Z.div_small in * by lia; lia|lia]).
      rewrite pow_of_step by assumption. now destruct (Z.abs b mod 2 =? 0).
Qed.
End Loop.

(** ** Exact powers *)

Section Whole.
Context {F : FpFormat} {O : FpOps} {D : FpMath} {M : FpWideMul}.
Notation sb := significandBits.
Notation W := typeWidth.
Notation ib := (2 ^ significandBits).

(** [x] is the number [A]. *)
Definition whole (x A : Z) : Prop := is_uint W x /\ is_finite x = true /\ fp_value x = A * 2 ^ unitExp.

Lemma whole_representable m : 0 <= m < 2 * ib -> exists y, 0 <= y < infRep /\ fpval y = m * 2 ^ unitExp.
Proof.
  intros Hm. pose proof infRep_bounds as I. destruct (Z.eq_dec m 0) as [->|Nz]; [exists 0; split; [lia|apply fpval_zero]|].
  pose proof wide_range as WR. pose proof exponentBits_bounds as B. assert (HL : Z.log2 m <= sb) by (apply Z.lt_succ_r, Z.log2_lt_pow2; [lia|]; rewrite Z.pow_succ_r by lia; lia).
  assert (M0 : 0 < m) by lia. assert (HLb : Z.log2 m <= exponentBias) by lia. destruct (exponent_field m M0 HLb) as (L0 & HE & LB). destruct (left_shift_exact m M0 HLb HL) as [Hq _].
  set (q := m * 2 ^ (sb - Z.log2 m)) in *. exists ((Z.log2 m + exponentBias - 1) * ib + q). split; [rewrite infRep_val; nia|].
  rewrite fpval_parts by lia. unfold q, unitExp. rewrite <- Z.mul_assoc, <- pow2_split by lia. do 2 f_equal. lia.
Qed.

(** Products of whole numbers with at most [sb + 1] bits are exact. *)
Lemma mul_whole x y A B : whole x A -> whole y B -> Z.abs (A * B) < 2 * ib -> whole (__mulXf3__ x y) (A * B).
Proof.
  intros (Rx & Fx & Vx) (Ry & Fy & Vy) Hb. destruct (mul_finite_spec x y Rx Ry Fx Fy) as (r & RT & E). assert (Hb' : 0 <= Z.abs (A * B) < 2 * ib) by lia. destruct (whole_representable _ Hb') as (z & Hz & Vz).
  pose proof unit_pos as PU. assert (EV : Z.abs (fp_value x * fp_value y) = 2 ^ unitExp * fpval z).
  { rewrite Vz, Vx, Vy. replace (A * 2 ^ unitExp * (B * 2 ^ unitExp)) with (A * B * (2 ^ unitExp * 2 ^ unitExp)) by ring. rewrite Z.abs_mul, (Z.abs_eq (2 ^ unitExp * 2 ^ unitExp)) by (apply Z.mul_nonneg_nonneg; lia). ring. }
  rewrite EV in RT. assert (Hz' : 0 <= z <= infRep) by lia. rewrite (rounds_to_unique _ _ _ _ PU RT (rounds_to_exact _ z PU Hz')) in E.
  rewrite E. destruct (with_sign_finite (product_sign x y) z Hz) as (R & Fr & N & Az). split; [exact R|]. split; [exact Fr|].
  unfold fp_value at 1. rewrite N, Az, Vz. unfold product_sign. unfold fp_value in Vx, Vy. destruct (rep_parts x Rx) as (_ & Ax & _ & _), (rep_parts y Ry) as (_ & Ay & _ & _).
  assert (0 <= fpval (fp_abs x)) by (apply fpval_step; lia). assert (0 <= fpval (fp_abs y)) by (apply fpval_step; lia).
  assert (SA : if fp_neg x then A <= 0 else 0 <= A) by (destruct (fp_neg x); nia). assert (SB : if fp_neg y then B <= 0 else 0 <= B) by (destruct (fp_neg y); nia).
  destruct (fp_neg x), (fp_neg y); cbn [xorb]; [rewrite Z.abs_eq by nia|rewrite Z.abs_neq by nia|rewrite Z.abs_neq by nia|rewrite Z.abs_eq by nia]; ring.
Qed.

Lemma pow_abs_le A k n : A <> 0 -> 0 <= k <= n -> Z.abs A ^ k <= Z.abs A ^ n.
Proof. intros HA Hk. apply Z.pow_le_mono_r; lia. Qed.

Lemma pow_digits_whole p : forall a r A R, whole a A -> whole r R -> (A = 0 \/ R <> 0) -> Z.abs (R * A ^ Z.pos p) < 2 * ib -> whole (pow_digits a r p) (R * A ^ Z.pos p).
Proof.
  assert (Pi : 0 < ib) by apply sig_pow_pos.
  assert (Small : forall A R n k, 0 <= k <= n -> 0 < k -> A = 0 \/ R <> 0 -> Z.abs (R * A ^ n) < 2 * ib -> Z.abs (R * A ^ k) < 2 * ib /\ Z.abs (A ^ k) < 2 * ib).
  { intros A R n k Hk Hk0 HR Hb. destruct (Z.eq_dec A 0) as [->|NA]; [rewrite !Z.pow_0_l by lia; lia|]. destruct HR as [|HR]; [contradiction|].
    rewrite Z.abs_mul, Z.abs_pow in *. pose proof (pow_abs_le A k n NA Hk). assert (0 < Z.abs A ^ k) by (apply Z.pow_pos_nonneg; lia). nia. }
  induction p as [p IH|p IH|]; intros a r A R Ha Hr HR Hb; cbn [pow_digits].
  - assert (E : R * A ^ Z.pos p~1 = R * A * (A * A) ^ Z.pos p).
    { replace (Z.pos p~1) with (1 + 2 * Z.pos p) by lia. rewrite Z.pow_add_r, Z.pow_mul_r, Z.pow_1_r, Z.pow_2_r by lia. ring. }
    destruct (Small A R (Z.pos p~1) 1 ltac:(lia) ltac:(lia) HR Hb) as [S1 _]. destruct (Small A R (Z.pos p~1) 2 ltac:(lia) ltac:(lia) HR Hb) as [_ S2]. rewrite Z.pow_1_r in S1. rewrite Z.pow_2_r in S2.
    rewrite E in *. apply IH; [now apply mul_whole|now apply mul_whole|nia|assumption].
  - assert (E : R * A ^ Z.pos p~0 = R * (A * A) ^ Z.pos p) by (replace (Z.pos p~0) with (2 * Z.pos p) by lia; rewrite Z.pow_mul_r, Z.pow_2_r by lia; reflexivity).
    destruct (Small A R (Z.pos p~0) 2 ltac:(lia) ltac:(lia) HR Hb) as [_ S2]. rewrite Z.pow_2_r in S2. rewrite E in *. apply IH; [now apply mul_whole|assumption|nia|assumption].
  - rewrite Z.pow_1_r in *. now apply mul_whole.
Qed.

Lemma one_whole : whole oneRep 1.
Proof.
  destruct oneRep_val as (E & RG & V). rewrite E. destruct (with_sign_finite false _ RG) as (R & Fr & N & A). cbn [with_sign] in *. split; [exact R|]. split; [exact Fr|].
  unfold fp_value. rewrite N, A, V. ring.
Qed.

Lemma pow_of_whole a A n : whole a A -> 0 <= n -> Z.abs A ^ n < 2 * ib -> whole (pow_of a oneRep n) (A ^ n).
Proof.
  intros Ha Hn Hb. destruct n as [|p|p]; [exact one_whole| |lia]. cbn [pow_of]. rewrite <- (Z.mul_1_l (A ^ _)). apply pow_digits_whole; [exact Ha|exact one_whole|right; lia|].
  rewrite Z.mul_1_l, Z.abs_pow. exact Hb.
Qed.
End Whole.

(** C30: [__powisf2] and [__powidf2] return for every [int] exponent, the least
    one included, after at most 32 rounds; the result is the product of the
    squares that the binary digits of the exponent's magnitude select, and
    one divided by it for a negative exponent. *)
Theorem powi_terminates (F : FpFormat) (O : FpOps) (R : FpRecip) a b : is_sint 32 b ->
  powiXf2 a b = Some (if b <? 0 then __divXf3__ oneRep (pow_of a oneRep (Z.abs b)) else pow_of a oneRep (Z.abs b)).
Proof. intros Hb. unfold is_sint in Hb. unfold powiXf2. now rewrite powi_loop_result by (change (2 ^ Z.of_nat 32) with (2 ^ 32); lia). Qed.

Lemma powi_terminates_witness : __powisf2 0x3f800000 (- 2 ^ 31) = Some 0x3f800000.
Proof.
  refine (eq_trans (powi_terminates single_precision single_ops single_recip 0x3f800000 (- 2 ^ 31) _) _); [unfold is_sint; lia|].
  vm_compute. reflexivity.
Defined.

(** A power of a whole number that fits the significand is exact, and with
    a negative exponent its correctly rounded reciprocal. *)
Theorem powi_exact (F : FpFormat) (O : FpOps) (R : FpRecip) (D : FpMath) (M : FpWideMul) a A b : is_sint 32 b -> whole a A -> Z.abs A ^ Z.abs b < 2 * 2 ^ significandBits ->
  exists r, powiXf2 a b = Some r /\
    (0 <= b -> whole r (A ^ b)) /\
    (b < 0 -> A <> 0 -> exists q, rounds_to (2 ^ unitExp) (Z.abs A ^ Z.abs b) q /\ fp_abs r = q /\ fp_neg r = (A ^ Z.abs b <? 0)).
Proof.
  intros Hb Ha Hs. pose proof (pow_of_whole a A (Z.abs b) Ha (Z.abs_nonneg b) Hs) as Wp. eexists. split; [unfold powiXf2; rewrite powi_loop_result by (unfold is_sint in Hb; change (2 ^ Z.of_nat 32) with (2 ^ 32); lia); reflexivity|].
  split; intros Hs'; [rewrite (proj2 (Z.ltb_ge b 0)) by lia; rewrite Z.abs_eq in * by lia; exact Wp|]. intros NA. rewrite (proj2 (Z.ltb_lt b 0)) by lia.
  destruct Wp as (Rp & Fp & Vp). destruct one_whole as (R1 & F1 & V1). set (p := pow_of a oneRep (Z.abs b)) in *. clearbody p. pose proof unit_pos as PU.
  assert (PA : A ^ Z.abs b <> 0) by (apply Z.pow_nonzero; lia). assert (Np : fp_abs p <> 0) by (rewrite <- (fp_value_zero p Rp), Vp; nia).
  destruct (div_finite_spec oneRep p R1 Rp F1 Fp Np) as (q & RT & E). exists q. rewrite E. destruct (proj1 RT) as [Q0 Q1]. pose proof infRep_bounds as I.
  assert (Hq : 0 <= q < 2 ^ (typeWidth - 1)) by lia. destruct (with_sign_parts (product_sign oneRep p) q Hq) as (_ & N & Aq). split; [|split; [exact Aq|]].
  - apply (rounds_to_ratio (Z.abs (fp_value oneRep) * 2 ^ unitExp) (Z.abs (fp_value p))); [rewrite Vp; nia|apply Z.pow_pos_nonneg; lia| |exact RT].
    rewrite V1, Vp, (Z.abs_eq (1 * 2 ^ unitExp)), Z.abs_mul, Z.abs_pow, (Z.abs_eq (2 ^ unitExp)) by lia. ring.
  - rewrite N. unfold product_sign. destruct oneRep_val as (E1 & RG & _). destruct (with_sign_finite false _ RG) as (_ & _ & N1 & _). cbn [with_sign] in N1. rewrite E1, N1. cbn [xorb].
    unfold fp_value in Vp. destruct (rep_parts p Rp) as (_ & Ap & _ & _). assert (0 < fpval (fp_abs p)) by (apply fpval_pos; lia). symmetry.
    destruct (fp_neg p); [apply Z.ltb_lt|apply Z.ltb_ge]; nia.
Qed.

Lemma powi_exact_witness : (exists r, __powisf2 0xc0400000 15 = Some r /\ @whole single_precision r (-14348907)) /\
  (exists r, __powidf2 0x4024000000000000 (-3) = Some r /\ @fp_abs double_precision r = 0x3f50624dd2f1a9fc).
Proof.
  split.
  - destruct (powi_exact single_precision single_ops single_recip single_math single_wide 0xc0400000 (-3) 15) as (r & E & Pos & _);
      [unfold is_sint; lia|repeat split; try reflexivity; vm_compute; congruence|reflexivity|].
    exists r. split; [exact E|]. apply Pos. lia.
  - destruct (powi_exact double_precision double_ops double_recip double_math double_wide 0x4024000000000000 10 (-3)) as (r & E & _ & Neg);
      [unfold is_sint; lia|repeat split; try reflexivity; vm_compute; congruence|reflexivity|].
    exists r. split; [exact E|]. vm_compute in E. injection E as <-. reflexivity.
Defined.
