(* ===== verification/ComplexDiv.v ===== *)
(** * Complex division

    Models [__divsc3] and [__divdc3] ([divsc3.c], [divdc3.c]): the divisor is
    scaled by its logarithm, the quotient computed from the scaled parts, and
    infinities and zeros recovered when both parts of the result are NaNs
    (C99, Annex G).  The arithmetic is that of the soft float routines: [/] is
    [__divXf3__], [>] is [__geXf2__] and the conversion to [int] [__fixint]. *)

From S2P Require Import Prelude IntBits FpLib FpSpec FpAdd FpMul FpCompare FpInt FpMath ComplexMul FpDiv Powi.

Section Functions.
Context {F : FpFormat} {O : FpOps} {D : FpMath} {R : FpRecip}.

(** [crt_fabs] and [crt_isfinite], compiler builtins. *)
Definition crt_fabs (x : Z) : Z := x .& absMask.
Definition crt_isfinite (x : Z) : bool := (x .& absMask) <? infRep.
Definition fp_greater (x y : Z) : bool := __geXf2__ x y >? 0.

(** The scaled divisor, with its logarithm as a number and as an [int]. *)
Definition div_scale (c d : Z) : Z * Z * Z * Z :=
  let ilogbw := 0 in
  let logbw := __compiler_rt_logbX (__compiler_rt_fmaxX (crt_fabs c) (crt_fabs d)) in
  if crt_isfinite logbw then
    let ilogbw := __fixint 32 logbw in
    (logbw, ilogbw, __compiler_rt_scalbnX c (sopp 32 ilogbw), __compiler_rt_scalbnX d (sopp 32 ilogbw))
  else (logbw, ilogbw, c, d).

(** The results when both parts are NaNs. *)
Definition div_recover (a b c d logbw denom re im : Z) : Z * Z :=
  if eq_zero denom && (negb (crt_isnan a) || negb (crt_isnan b)) then
    (__mulXf3__ (crt_copysign CRT_INFINITY c) a, __mulXf3__ (crt_copysign CRT_INFINITY c) b)
  else if (crt_isinf a || crt_isinf b) && crt_isfinite c && crt_isfinite d then
    let a := box a in
    let b := box b in
    (__mulXf3__ CRT_INFINITY (addXf3 (__mulXf3__ a c) (__mulXf3__ b d)),
     __mulXf3__ CRT_INFINITY (subXf3 (__mulXf3__ b c) (__mulXf3__ a d)))
  else if crt_isinf logbw && fp_greater logbw 0 && crt_isfinite a && crt_isfinite b then
    let c := box c in
    let d := box d in
    (__mulXf3__ 0 (addXf3 (__mulXf3__ a c) (__mulXf3__ b d)),
     __mulXf3__ 0 (subXf3 (__mulXf3__ b c) (__mulXf3__ a d)))
  else (re, im).

Definition divXc3 (a b c d : Z) : Z * Z :=
  let '(logbw, ilogbw, c, d) := div_scale c d in
  let denom := addXf3 (__mulXf3__ c c) (__mulXf3__ d d) in
  let re := __compiler_rt_scalbnX (__divXf3__ (addXf3 (__mulXf3__ a c) (__mulXf3__ b d)) denom) (sopp 32 ilogbw) in
  let im := __compiler_rt_scalbnX (__divXf3__ (subXf3 (__mulXf3__ b c) (__mulXf3__ a d)) denom) (sopp 32 ilogbw) in
  if crt_isnan re && crt_isnan im then div_recover a b c d logbw denom re im else (re, im).
End Functions.

Definition __divsc3 (a b c d : Z) : Z * Z := @divXc3 single_precision single_ops single_math single_recip a b c d.
Definition __divdc3 (a b c d : Z) : Z * Z := @divXc3 double_precision double_ops double_math double_recip a b c d.

(** ** Rounding is monotone *)

Lemma rounds_to_mono `{FpFormat} num num' den r r' : 0 < den -> num <= num' -> rounds_to num den r -> rounds_to num' den r' -> r <= r'.
Proof.
  intros Hd Hn (R0 & L & _) (R0' & _ & U'). apply Z.le_ngt. intros G. destruct L as [L|L]; [lia|]. destruct U' as [U'|U']; [lia|].
  pose proof (fpval_mono r' (r - 1) ltac:(lia) ltac:(lia)) as M1. pose proof (fpval_mono (r' + 1) r ltac:(lia) ltac:(lia)) as M2.
  assert (L1 : den * (fpval (r - 1) + fpval r) <= 2 * num) by lia. assert (U1 : 2 * num' <= den * (fpval r' + fpval (r' + 1))) by lia.
  assert (S : den * (fpval r' + fpval (r' + 1)) <= den * (fpval (r - 1) + fpval r)) by (apply Z.mul_le_mono_nonneg_l; lia).
  destruct L as [L|[L Ev]]; [lia|]. destruct U' as [U'|[U' Ev']]; [lia|]. assert (E : fpval r' + fpval (r' + 1) = fpval (r - 1) + fpval r) by nia.
  assert (r' = r - 1) by (apply fpval_inj; lia). subst r'. apply Z.even_spec in Ev as [i Hi], Ev' as [j Hj]. lia.
Qed.

(** What the logarithm of a number, an [int], must fit in. *)
Class FpComplex `{FpFormat} : Prop := int_exponents : 32 <= typeWidth /\ 31 <= exponentBias /\ 16 <= significandBits.
#[global] Instance single_complex : @FpComplex single_precision.
Proof. repeat split; vm_compute; discriminate. Qed.
#[global] Instance double_complex : @FpComplex double_precision.
Proof. repeat split; vm_compute; discriminate. Qed.

Section Scaling.
Context {F : FpFormat} {O : FpOps} {D : FpMath} {M : FpWideMul} {C : FpComplex}.
Notation sb := significandBits.
Notation W := typeWidth.
Notation ib := (2 ^ significandBits).

Lemma isfinite_spec x : is_uint W x -> crt_isfinite x = is_finite x.
Proof. intros R. destruct (rep_parts x R) as (_ & _ & L & _). unfold crt_isfinite. now rewrite L. Qed.

Lemma fabs_spec x : is_uint W x -> crt_fabs x = with_sign false (fp_abs x) /\ is_uint W (crt_fabs x) /\ fp_abs (crt_fabs x) = fp_abs x /\ fp_value (crt_fabs x) = fpval (fp_abs x).
Proof.
  intros R. destruct (rep_parts x R) as (_ & A & L & _). unfold crt_fabs. rewrite L. destruct (with_sign_parts false (fp_abs x) A) as (R' & _ & A'). cbn [with_sign] in *.
  split; [reflexivity|]. split; [exact R'|]. split; [exact A'|]. exact (fp_value_with_sign false (fp_abs x) A).
Qed.

(** Small integers survive the conversion to the format and back. *)
Lemma int_roundtrip k : is_sint 32 k -> Z.abs k < 2 ^ 16 -> is_uint W (from_int k) /\ is_finite (from_int k) = true /\ __fixint 32 (from_int k) = k.
Proof.
  intros Hk Ha. destruct int_exponents as (C1 & C2 & C3). destruct (from_int_ok k Hk) as (R & N & RT). pose proof unit_pos as PU. pose proof infRep_bounds as I.
  assert (Hm : 0 <= Z.abs k < 2 * ib) by (assert (2 ^ 16 <= ib) by (apply Z.pow_le_mono_r; lia); lia). destruct (whole_representable _ Hm) as (y & Hy & Vy).
  rewrite <- Vy, <- (Z.mul_1_l (fpval y)) in RT. assert (Hy' : 0 <= y <= infRep) by lia.
  assert (E : fp_abs (from_int k) = y) by (refine (rounds_to_unique _ 1 _ _ _ RT (rounds_to_exact 1 y _ Hy')); lia).
  split; [exact R|]. split; [unfold is_finite; rewrite E; apply Z.ltb_lt; lia|]. rewrite fixint_spec by (try exact R; lia). rewrite N, E. unfold int_part. rewrite Vy, Z.div_mul by lia.
  rewrite (proj2 (Z.ltb_lt (Z.abs k) (2 ^ 32))) by lia. rewrite sint_small by (try lia; destruct (k <? 0); unfold is_sint; lia). destruct (Z.ltb_spec k 0); lia.
Qed.

(** The number 2. *)
Lemma two_value : 0 <= (exponentBias + 1) * ib < infRep /\ fpval ((exponentBias + 1) * ib) = 2 * 2 ^ unitExp.
Proof.
  pose proof bias_bounds as BB. pose proof exponentBits_bounds as B. pose proof sig_pow_pos as Hp. pose proof bias_max as ME. split; [rewrite infRep_val; nia|].
  replace ((exponentBias + 1) * ib) with ((exponentBias + 1 - 1) * ib + ib) by ring. rewrite fpval_parts by lia. unfold unitExp. change 2 with (2 ^ 1) at 3. rewrite <- !pow2_split by lia. f_equal. lia.
Qed.

Lemma scaled_below x k : is_uint W x -> is_finite x = true -> is_sint 32 (- k) -> 0 <= unitExp + k -> fpval (fp_abs x) < 2 ^ (unitExp + k + 1) ->
  is_uint W (__compiler_rt_scalbnX x (- k)) /\ is_finite (__compiler_rt_scalbnX x (- k)) = true.
Proof.
  intros Rx Fx Hk Hu Hv. destruct (scalbn_spec x (- k) Rx Fx Hk) as (r & RT & ->). destruct two_value as (T & V). assert (T' : 0 <= (exponentBias + 1) * ib <= infRep) by lia. pose proof (scaled_den_pos (- k)) as PD.
  assert (Le : r <= (exponentBias + 1) * ib).
  { refine (rounds_to_mono _ _ _ _ _ PD _ RT (rounds_to_exact (scaled_den (- k)) _ PD T')). rewrite V. unfold scaled_num, scaled_den. rewrite Z.opp_involutive.
    pose proof bias_bounds as BB. pose proof exponentBits_bounds as B. assert (0 <= unitExp) by (unfold unitExp; lia). replace (2 * 2 ^ unitExp) with (2 ^ (1 + unitExp)) by (apply (pow2_split 1); lia). rewrite <- pow2_split by lia.
    apply Z.lt_le_incl. apply Z.lt_le_trans with (2 ^ (unitExp + k + 1) * 2 ^ Z.max (- k) 0); [apply Z.mul_lt_mono_pos_r; [apply pow2_pos; lia|exact Hv]|].
    rewrite <- pow2_split by lia. apply Z.pow_le_mono_r; lia. }
  destruct (proj1 RT) as [R0 _]. assert (Hr : 0 <= r < infRep) by lia. destruct (with_sign_finite (fp_neg x) r Hr) as (U & Fi & _). auto.
Qed.

(** A finite divisor stays finite. *)
Lemma div_scale_finite c d : is_uint W c -> is_uint W d -> is_finite c = true -> is_finite d = true ->
  let '(_, _, c', d') := div_scale c d in is_uint W c' /\ is_uint W d' /\ is_finite c' = true /\ is_finite d' = true.
Proof.
  intros Rc Rd Fc Fd. unfold div_scale. destruct (fabs_spec c Rc) as (_ & Rc' & Ac & Vc), (fabs_spec d Rd) as (_ & Rd' & Ad & Vd). set (m := __compiler_rt_fmaxX (crt_fabs c) (crt_fabs d)).
  pose proof (fmax_spec _ _ Rc' Rd') as FM. cbv zeta in FM. fold m in FM. destruct FM as (Hm & _ & _ & Hmax).
  assert (Nc : is_nan (crt_fabs c) = false) by (unfold is_nan; rewrite Ac; apply Z.ltb_lt in Fc; apply Z.ltb_ge; lia).
  assert (Nd : is_nan (crt_fabs d) = false) by (unfold is_nan; rewrite Ad; apply Z.ltb_lt in Fd; apply Z.ltb_ge; lia).
  assert (Rm : is_uint W m) by (destruct Hm as [-> | ->]; assumption). assert (Fm : is_finite m = true) by (unfold is_finite in *; destruct Hm as [-> | ->]; rewrite ?Ac, ?Ad; assumption).
  destruct (Hmax Nc Nd) as [M1 M2]. assert (Vm : fp_value m = fpval (fp_abs m)) by (destruct Hm as [-> | ->]; [rewrite Vc, Ac|rewrite Vd, Ad]; reflexivity). rewrite Vc, Vm in M1. rewrite Vd, Vm in M2.
  destruct (Z.eq_dec (fp_abs m) 0) as [Z0|Nz].
  - destruct (logb_special m Rm) as (L0 & _). rewrite L0 by exact Z0. destruct (with_sign_inf true) as [Ri Ii]. rewrite isfinite_spec by exact Ri.
    destruct (class_cases (with_sign true infRep)) as [(_ & I & _)|[(-> & _)|(-> & _)]]; [congruence| |]; auto.
  - destruct (logb_finite m Rm Fm Nz) as (k & V & P & E & I). fold m. rewrite E.
    assert (Hk : Z.abs k < 2 ^ 16).
    { pose proof bias_bounds as BB. pose proof exponentBits_bounds as B. pose proof maxExponent_bounds as ME. apply Z.ltb_lt in Fm. destruct (rep_parts m Rm) as (_ & Am & _ & _).
      assert (A0 : 0 <= fp_abs m) by lia. pose proof (fpval_lt (fp_abs m) infRep A0 Fm) as LI. rewrite fpval_inf in LI. rewrite <- pow2_split in LI by lia.
      assert (unitExp + k < sb + (maxExponent - 1)) by (apply (Z.pow_lt_mono_r_iff 2); lia). unfold unitExp in *. lia. }
    destruct (int_roundtrip k I Hk) as (Rl & Fl & El). rewrite isfinite_spec, Fl, El by exact Rl.
    assert (Hk' : is_sint 32 (- k)) by (unfold is_sint; lia). unfold sopp. rewrite sint_small by (try lia; exact Hk').
    destruct (scaled_below c k Rc Fc Hk' P) as [U1 F1]; [lia|]. destruct (scaled_below d k Rd Fd Hk' P) as [U2 F2]; [lia|]. auto.
Qed.
End Scaling.

(** ** Kinds of results *)

Section Kinds.
Context {F : FpFormat} {O : FpOps} {D : FpMath} {R : FpRecip} {M : FpWideMul} {C : FpComplex}.
Notation W := typeWidth.

(** An infinity or a NaN; a zero or a NaN. *)
Definition inf_or_nan (x : Z) : Prop := is_nan x = false -> is_inf x = true.
Definition zero_or_nan (x : Z) : Prop := is_nan x = true \/ fp_abs x = 0.

Lemma inf_or_nan_nonfinite x : inf_or_nan x -> is_finite x = false.
Proof. unfold inf_or_nan. destruct (class_cases x) as [(_ & I & N)|[(-> & _)|(-> & _)]]; intros K; [rewrite I, N in K; specialize (K eq_refl); discriminate|reflexivity|reflexivity]. Qed.

Lemma zero_finite x : fp_abs x = 0 -> is_finite x = true /\ is_nan x = false.
Proof. intros Z0. pose proof infRep_bounds as I. unfold is_finite, is_nan. rewrite Z0. split; [apply Z.ltb_lt|apply Z.ltb_ge]; lia. Qed.

Lemma div_class a b : is_uint W a -> is_uint W b ->
  is_uint W (__divXf3__ a b) /\ (inf_or_nan a -> inf_or_nan (__divXf3__ a b)) /\ (inf_or_nan a -> inf_or_nan b -> is_nan (__divXf3__ a b) = true) /\
  (zero_or_nan a -> fp_abs b = 0 -> is_nan (__divXf3__ a b) = true).
Proof.
  intros Ra Rb. destruct (div_nonfinite_spec a b Ra Rb) as (N1 & N2 & I1 & I2 & Z2). pose proof qnan_is_nan as QN. pose proof infRep_bounds as B.
  assert (Nan : forall x, is_uint W x -> is_nan x = true -> is_uint W x /\ (inf_or_nan a -> inf_or_nan x) /\ (inf_or_nan a -> inf_or_nan b -> is_nan x = true) /\ (zero_or_nan a -> fp_abs b = 0 -> is_nan x = true))
    by (intros x Rx Nx; split; [exact Rx|]; split; [unfold inf_or_nan; congruence|auto]).
  destruct (is_nan a) eqn:Na; [rewrite N1 by reflexivity; apply Nan; [now apply quiet_uint|now apply quiet_is_nan]|].
  destruct (is_nan b) eqn:Nb; [rewrite N2 by reflexivity; apply Nan; [now apply quiet_uint|now apply quiet_is_nan]|].
  destruct (class_cases a) as [(Fa & Ia & _)|[(Fa & Ia & _)|(_ & _ & Na')]]; [| |congruence].
  - assert (Ka : ~ inf_or_nan a) by (intros K; rewrite (inf_or_nan_nonfinite a K) in Fa; discriminate). destruct (is_inf b) eqn:Ib.
    + rewrite I2 by auto. assert (H0 : 0 <= 0 < infRep) by lia. destruct (with_sign_finite (product_sign a b) 0 H0) as (R' & _). split; [exact R'|]. split; [tauto|]. split; [tauto|].
      intros _ Z0. apply Z.eqb_eq in Ib. lia.
    + assert (Fb : is_finite b = true) by (destruct (class_cases b) as [(? & _)|[(_ & ? & _)|(_ & _ & ?)]]; congruence). destruct (Z.eq_dec (fp_abs b) 0) as [Z0|Nz].
      * rewrite Z2 by auto. destruct (Z.eqb_spec (fp_abs a) 0) as [Za|Za]; [apply Nan; [exact qnan_uint|exact QN]|].
        destruct (with_sign_inf (product_sign a b)) as [R' _]. split; [exact R'|]. split; [tauto|]. split; [tauto|]. intros [K|K]; congruence.
      * destruct (div_finite_spec a b Ra Rb Fa Fb Nz) as (r & RT & ->). destruct (with_sign_rounded _ _ (product_sign a b) r RT) as (R' & _). split; [exact R'|]. split; [tauto|]. split; [tauto|contradiction].
  - rewrite I1 by auto. destruct (is_inf b) eqn:Ib; [apply Nan; [exact qnan_uint|exact QN]|]. destruct (with_sign_inf (product_sign a b)) as [R' I']. split; [exact R'|]. split; [intros _ _; exact I'|].
    split; [intros _ K; specialize (K Nb); congruence|]. intros [K|K]; [congruence|]. apply Z.eqb_eq in Ia. lia.
Qed.

Lemma mul_finite_class a b : is_uint W a -> is_uint W b -> is_finite a = true -> is_finite b = true -> fp_abs a = 0 \/ fp_abs b = 0 -> fp_abs (__mulXf3__ a b) = 0.
Proof.
  intros Ra Rb Fa Fb Z0. destruct (mul_finite_spec a b Ra Rb Fa Fb) as (r & RT & ->). destruct (with_sign_rounded _ _ (product_sign a b) r RT) as (_ & _ & ->).
  assert (E : Z.abs (fp_value a * fp_value b) = 0) by (rewrite <- (fp_value_zero a Ra), <- (fp_value_zero b Rb) in Z0; nia). rewrite E in RT. pose proof unit_pos as PU.
  refine (rounds_to_unique 0 _ _ _ PU RT (rounds_to_tiny 0 _ _ _)); lia.
Qed.

Lemma mul_zero_class a b : is_uint W a -> is_uint W b -> fp_abs b = 0 -> zero_or_nan (__mulXf3__ a b).
Proof.
  intros Ra Rb Zb. destruct (zero_finite b Zb) as [Fb Nb]. destruct (mul_nonfinite_spec a b Ra Rb) as (N1 & _ & I1 & _).
  destruct (class_cases a) as [(Fa & _)|[(_ & Ia & _)|(_ & _ & Na)]].
  - right. apply mul_finite_class; auto.
  - left. rewrite I1, Zb by auto. exact qnan_is_nan.
  - left. rewrite N1 by auto. now apply quiet_is_nan.
Qed.

Lemma add_zeros p q : is_uint W p -> is_uint W q -> fp_abs p = 0 -> fp_abs q = 0 -> fp_abs (addXf3 p q) = 0.
Proof.
  intros Rp Rq Zp Zq. destruct (zero_finite p Zp) as [Fp _], (zero_finite q Zq) as [Fq _]. destruct (add_finite_spec p q Rp Rq Fp Fq) as (r & RT & E). unfold addXf3. change __fe_getround with CRT_FE_TONEAREST. rewrite E.
  destruct (with_sign_rounded _ _ (sum_sign p q) r RT) as (_ & _ & ->). rewrite (proj2 (fp_value_zero p Rp) Zp), (proj2 (fp_value_zero q Rq) Zq) in RT.
  refine (rounds_to_unique 0 1 _ _ _ RT (rounds_to_tiny 0 1 _ _)); lia.
Qed.

Lemma add_zero_class p q : is_uint W p -> is_uint W q -> zero_or_nan p -> zero_or_nan q -> zero_or_nan (addXf3 p q).
Proof.
  intros Rp Rq Kp Kq. destruct (add_class p q Rp Rq) as (_ & N & _). destruct Kp as [Np|Zp]; [left; apply N; now left|]. destruct Kq as [Nq|Zq]; [left; apply N; now right|right].
  now apply add_zeros.
Qed.

(** The squared magnitude of a zero divisor. *)
Lemma denom_zero c d : is_uint W c -> is_uint W d -> fp_abs c = 0 -> fp_abs d = 0 -> fp_abs (addXf3 (__mulXf3__ c c) (__mulXf3__ d d)) = 0.
Proof.
  intros Rc Rd Zc Zd. destruct (zero_finite c Zc) as [Fc _], (zero_finite d Zd) as [Fd _]. destruct (mul_class c c Rc Rc) as (R1 & _), (mul_class d d Rd Rd) as (R2 & _).
  apply add_zeros; auto; apply mul_finite_class; auto.
Qed.

Lemma number_test a b : is_uint W a -> is_uint W b -> is_nan a = false \/ is_nan b = false -> negb (crt_isnan a) || negb (crt_isnan b) = true.
Proof. intros Ra Rb Hn. rewrite !isnan_spec by assumption. destruct Hn as [-> | ->]; [reflexivity|apply orb_true_r]. Qed.

Lemma inf_not_nan x : is_inf x = true -> is_nan x = false /\ fp_abs x <> 0.
Proof. intros Hi. apply Z.eqb_eq in Hi. pose proof infRep_bounds as I. unfold is_nan. split; [apply Z.ltb_ge|]; lia. Qed.

Lemma sub_zero_class p q : is_uint W p -> is_uint W q -> zero_or_nan p -> zero_or_nan q -> zero_or_nan (subXf3 p q).
Proof. intros Rp Rq Kp Kq. destruct (flip_sign q Rq) as (Rf & _ & Af). apply (add_zero_class p (q .^ signBit)); auto. unfold zero_or_nan, is_nan in *. now rewrite Af. Qed.

Lemma eq_zero_class x : is_uint W x -> inf_or_nan x -> eq_zero x = false.
Proof.
  intros Rx K. destruct (is_nan x) eqn:Nx.
  - unfold eq_zero. rewrite (proj1 (le_spec x 0 Rx zero_uint)), Nx. reflexivity.
  - specialize (K Nx). apply Z.eqb_eq in K. rewrite eq_zero_spec by assumption. apply Z.eqb_neq. pose proof infRep_bounds. lia.
Qed.

(** The parts of the plain quotient, from the kinds of numerator and divisor. *)
Definition quotient_part (n denom y : Z) : Z := __compiler_rt_scalbnX (__divXf3__ n denom) y.

Lemma part_inf n denom y : is_uint W n -> is_uint W denom -> inf_or_nan n -> is_uint W (quotient_part n denom y) /\ inf_or_nan (quotient_part n denom y).
Proof.
  intros Rn Rd K. destruct (div_class n denom Rn Rd) as (Rq & Kq & _). specialize (Kq K). unfold quotient_part. rewrite scalbn_nonfinite by (auto using inf_or_nan_nonfinite). auto.
Qed.

Lemma part_nan n denom y : is_uint W n -> is_uint W denom -> (inf_or_nan n /\ inf_or_nan denom) \/ (zero_or_nan n /\ fp_abs denom = 0) -> crt_isnan (quotient_part n denom y) = true.
Proof.
  intros Rn Rd K. destruct (div_class n denom Rn Rd) as (Rq & _ & K1 & K2). assert (Nq : is_nan (__divXf3__ n denom) = true) by (destruct K as [[? ?]|[? ?]]; auto).
  unfold quotient_part. rewrite scalbn_nonfinite by (try exact Rq; apply inf_or_nan_nonfinite; unfold inf_or_nan; congruence). now rewrite isnan_spec.
Qed.

(** [copysign (INFINITY, c) * x]. *)
Lemma signed_infinity c x : is_uint W c -> is_uint W x -> is_nan x = false -> fp_abs x <> 0 -> is_inf (__mulXf3__ (crt_copysign CRT_INFINITY c) x) = true.
Proof.
  intros Rc Rx Nx Zx. pose proof infRep_bounds as I. unfold CRT_INFINITY. rewrite copysign_spec by (try exact Rc; lia). destruct (with_sign_inf (fp_neg c)) as [Ri Ii].
  destruct (mul_class _ x Ri Rx) as (_ & _ & _ & K). now apply K.
Qed.

(** The two recomputations. *)
Lemma recomputed_infinite A B c d : boxed A B -> operand_ok c d ->
  infinite (__mulXf3__ CRT_INFINITY (addXf3 (__mulXf3__ A c) (__mulXf3__ B d))) (__mulXf3__ CRT_INFINITY (subXf3 (__mulXf3__ B c) (__mulXf3__ A d))).
Proof.
  intros (al & be & UA & UB & Hn) Ok. pose proof (values_nonzero c d Ok) as Hv. destruct Ok as (Rc & Rd & Fc & Fd & _).
  destruct (mul_unit_l A al c UA Rc Fc) as (R1 & F1 & V1), (mul_unit_l B be d UB Rd Fd) as (R2 & F2 & V2), (mul_unit_l B be c UB Rc Fc) as (R3 & F3 & V3), (mul_unit_l A al d UA Rd Fd) as (R4 & F4 & V4).
  destruct (unit_rotation be al (fp_value c) (fp_value d)) as [N|N]; [apply UB|apply UA|tauto|exact Hv|right|left].
  - apply infinite_difference; auto. now rewrite V3, V4.
  - apply infinite_sum; auto. rewrite V1, V2. lia.
Qed.

(** Sums of [a] and [b] with factors of at most one stay below |a| + |b|. *)
Lemma sum_below a b p q : is_uint W a -> is_uint W b -> is_uint W p -> is_uint W q -> is_finite a = true -> is_finite b = true -> is_finite p = true -> is_finite q = true ->
  Z.abs (fp_value p) + Z.abs (fp_value q) <= Z.abs (fp_value a) + Z.abs (fp_value b) -> is_finite (addXf3 (crt_fabs a) (crt_fabs b)) = true ->
  is_uint W (addXf3 p q) /\ is_finite (addXf3 p q) = true.
Proof.
  intros Ra Rb Rp Rq Fa Fb Fp Fq Lpq Fs. destruct (fabs_spec a Ra) as (_ & Ra' & Aa & Va), (fabs_spec b Rb) as (_ & Rb' & Ab & Vb).
  assert (Fa' : is_finite (crt_fabs a) = true) by (unfold is_finite in *; now rewrite Aa). assert (Fb' : is_finite (crt_fabs b) = true) by (unfold is_finite in *; now rewrite Ab).
  destruct (add_finite_spec _ _ Ra' Rb' Fa' Fb') as (r0 & RT0 & E0), (add_finite_spec p q Rp Rq Fp Fq) as (r & RT & E). unfold addXf3 in *. change __fe_getround with CRT_FE_TONEAREST in *. rewrite E0 in Fs. rewrite E.
  destruct (with_sign_rounded _ _ (sum_sign (crt_fabs a) (crt_fabs b)) r0 RT0) as (_ & _ & A0). destruct (with_sign_rounded _ _ (sum_sign p q) r RT) as (Rr & _ & Ar). split; [exact Rr|].
  unfold is_finite in *. rewrite A0 in Fs. rewrite Ar. apply Z.ltb_lt in Fs. apply Z.ltb_lt. refine (Z.le_lt_trans _ _ _ (rounds_to_mono _ _ 1 _ _ _ _ RT RT0) Fs); [lia|].
  rewrite Va, Vb, <- !fp_value_abs by assumption. lia.
Qed.

Lemma zero_times x : is_uint W x -> is_finite x = true -> fp_abs (__mulXf3__ 0 x) = 0.
Proof.
  intros Rx Fx. assert (Z0 : fp_abs 0 = 0) by (unfold fp_abs; apply Zmod_0_l). destruct (zero_finite 0 Z0) as [F0 _]. apply mul_finite_class; auto. exact zero_uint.
Qed.

Lemma recomputed_zero a b c d : is_uint W a -> is_uint W b -> is_uint W c -> is_uint W d -> is_finite a = true -> is_finite b = true -> is_finite (addXf3 (crt_fabs a) (crt_fabs b)) = true ->
  fp_abs (__mulXf3__ 0 (addXf3 (__mulXf3__ a (box c)) (__mulXf3__ b (box d)))) = 0 /\
  fp_abs (__mulXf3__ 0 (subXf3 (__mulXf3__ b (box c)) (__mulXf3__ a (box d)))) = 0.
Proof.
  intros Ra Rb Rc Rd Fa Fb Fs. destruct (box_unit c Rc) as (ga & Uc & _), (box_unit d Rd) as (de & Ud & _).
  assert (Le : forall u x, -1 <= u <= 1 -> Z.abs (u * fp_value x) <= Z.abs (fp_value x)) by (intros u x Hu; rewrite Z.abs_mul; nia).
  destruct (mul_unit_r _ ga a Uc Ra Fa) as (R1 & F1 & V1), (mul_unit_r _ de b Ud Rb Fb) as (R2 & F2 & V2), (mul_unit_r _ ga b Uc Rb Fb) as (R3 & F3 & V3), (mul_unit_r _ de a Ud Ra Fa) as (R4 & F4 & V4).
  destruct Uc as (_ & _ & Hc & _), Ud as (_ & _ & Hd & _). split.
  - destruct (sum_below a b _ _ Ra Rb R1 R2 Fa Fb F1 F2) as [U X]; [|exact Fs|now apply zero_times]. rewrite V1, V2. pose proof (Le ga a Hc). pose proof (Le de b Hd). lia.
  - destruct (flip_class _ R4) as (R4' & _ & _ & F4' & V4'). rewrite <- F4' in F4. unfold subXf3 in *. fold (addXf3 (__mulXf3__ b (box c)) (__mulXf3__ a (box d) .^ signBit)).
    destruct (sum_below a b _ _ Ra Rb R3 R4' Fa Fb F3 F4) as [U X]; [|exact Fs|now apply zero_times]. rewrite V3, V4', V4, Z.abs_opp. pose proof (Le ga b Hc). pose proof (Le de a Hd). lia.
Qed.
End Kinds.

(** ** The divisors zero and infinity *)

Section Recovery.
Context {F : FpFormat} {O : FpOps} {D : FpMath} {R : FpRecip} {M : FpWideMul} {C : FpComplex}.
Notation W := typeWidth.

Lemma div_scale_zero c d : is_uint W c -> is_uint W d -> fp_abs c = 0 -> fp_abs d = 0 -> div_scale c d = (with_sign true infRep, 0, c, d).
Proof.
  intros Rc Rd Zc Zd. unfold div_scale. destruct (fabs_spec c Rc) as (_ & Rc' & Ac & _), (fabs_spec d Rd) as (_ & Rd' & Ad & _). pose proof (fmax_spec _ _ Rc' Rd') as FM. cbv zeta in FM. destruct FM as (Hm & _).
  set (m := __compiler_rt_fmaxX _ _) in *. assert (Rm : is_uint W m) by (destruct Hm as [-> | ->]; assumption). assert (Zm : fp_abs m = 0) by (destruct Hm as [-> | ->]; congruence).
  destruct (logb_special m Rm) as (L0 & _). rewrite L0 by exact Zm. destruct (with_sign_inf true) as [Ri Ii]. rewrite isfinite_spec by exact Ri. rewrite inf_or_nan_nonfinite by (intros _; exact Ii). reflexivity.
Qed.

Lemma div_scale_infinite c d : is_uint W c -> is_uint W d -> infinite c d -> div_scale c d = (infRep, 0, c, d).
Proof.
  intros Rc Rd Hi. unfold div_scale. destruct (fabs_spec c Rc) as (_ & Rc' & Ac & Vc), (fabs_spec d Rd) as (_ & Rd' & Ad & Vd). pose proof (fmax_spec _ _ Rc' Rd') as FM. cbv zeta in FM. destruct FM as (Hm & N1 & N2 & Hx).
  set (m := __compiler_rt_fmaxX _ _) in *. assert (Rm : is_uint W m) by (destruct Hm as [-> | ->]; assumption).
  assert (K : forall x, is_inf (crt_fabs x) = (fp_abs (crt_fabs x) =? infRep)) by reflexivity. assert (Ic : is_inf (crt_fabs c) = is_inf c) by (unfold is_inf; now rewrite Ac). assert (Id : is_inf (crt_fabs d) = is_inf d) by (unfold is_inf; now rewrite Ad).
  assert (Im : is_inf m = true).
  { unfold infinite in Hi. rewrite <- Ic, <- Id in Hi. destruct (is_nan (crt_fabs c)) eqn:Nc.
    - rewrite N1 by reflexivity. destruct Hi as [Hi|Hi]; [|exact Hi]. destruct (class_cases (crt_fabs c)) as [(_ & _ & ?)|[(_ & _ & ?)|(_ & ? & _)]]; congruence.
    - destruct (is_nan (crt_fabs d)) eqn:Nd.
      + rewrite N2 by reflexivity. destruct Hi as [Hi|Hi]; [exact Hi|]. destruct (class_cases (crt_fabs d)) as [(_ & _ & ?)|[(_ & _ & ?)|(_ & ? & _)]]; congruence.
      + destruct (Hx eq_refl eq_refl) as [X1 X2]. assert (Vm : fp_value m = fpval (fp_abs m)) by (destruct Hm as [-> | ->]; [rewrite Vc, Ac|rewrite Vd, Ad]; reflexivity).
        assert (Nm : is_nan m = false) by (destruct Hm as [-> | ->]; assumption). unfold is_nan in Nm. apply Z.ltb_ge in Nm. destruct (rep_parts m Rm) as (_ & Am & _ & _). pose proof infRep_bounds as I.
        apply Z.eqb_eq. destruct (Z.eq_dec (fp_abs m) infRep) as [E|E]; [exact E|]. assert (L : fp_abs m < infRep) by lia. assert (A0 : 0 <= fp_abs m) by lia. pose proof (fpval_lt _ _ A0 L) as V.
        destruct Hi as [Hi|Hi]; apply Z.eqb_eq in Hi; [rewrite Vc, <- Ac, Hi in X1|rewrite Vd, <- Ad, Hi in X2]; lia. }
  destruct (logb_special m Rm) as (_ & Li & _). rewrite Li by exact Im. destruct (with_sign_inf false) as [Ri Ii]. cbn [with_sign] in *. rewrite isfinite_spec by exact Ri. rewrite inf_or_nan_nonfinite by (intros _; exact Ii). reflexivity.
Qed.

Lemma products_uint a b c d : is_uint W a -> is_uint W b -> is_uint W c -> is_uint W d ->
  is_uint W (addXf3 (__mulXf3__ a c) (__mulXf3__ b d)) /\ is_uint W (subXf3 (__mulXf3__ b c) (__mulXf3__ a d)) /\ is_uint W (addXf3 (__mulXf3__ c c) (__mulXf3__ d d)).
Proof.
  intros Ra Rb Rc Rd. destruct (mul_class a c Ra Rc) as (R1 & _), (mul_class b d Rb Rd) as (R2 & _), (mul_class b c Rb Rc) as (R3 & _), (mul_class a d Ra Rd) as (R4 & _), (mul_class c c Rc Rc) as (R5 & _), (mul_class d d Rd Rd) as (R6 & _).
  split; [|split]; [apply add_class|apply sub_class|apply add_class]; assumption.
Qed.

(** A finite divisor: an infinite dividend stays infinite. *)
Lemma divide_infinite a b c d : is_uint W a -> is_uint W b -> is_uint W c -> is_uint W d -> infinite a b -> is_finite c = true -> is_finite d = true ->
  infinite (fst (divXc3 a b c d)) (snd (divXc3 a b c d)).
Proof.
  intros Ra Rb Rc Rd Hi Fc Fd. pose proof (div_scale_finite c d Rc Rd Fc Fd) as DS. unfold divXc3. destruct (div_scale c d) as [[[l i] c'] d']. clear c d Rc Rd Fc Fd. destruct DS as (Rc & Rd & Fc & Fd).
  destruct (products_uint a b c' d' Ra Rb Rc Rd) as (U1 & U2 & U3). assert (H1 : is_inf a = true \/ is_inf b = true \/ is_inf c' = true \/ is_inf d' = true) by (unfold infinite in Hi; tauto).
  assert (H2 : is_inf b = true \/ is_inf a = true \/ is_inf c' = true \/ is_inf d' = true) by (unfold infinite in Hi; tauto).
  pose proof (proj2 (plain_part a b c' d' Ra Rb Rc Rd H1)) as K1. pose proof (proj1 (plain_part b a c' d' Rb Ra Rc Rd H2)) as K2.
  set (n1 := addXf3 (__mulXf3__ a c') (__mulXf3__ b d')) in *. set (n2 := subXf3 (__mulXf3__ b c') (__mulXf3__ a d')) in *. set (dn := addXf3 (__mulXf3__ c' c') (__mulXf3__ d' d')) in *.
  destruct (part_inf n1 dn (sopp 32 i) U1 U3 K1) as [P1 Q1], (part_inf n2 dn (sopp 32 i) U2 U3 K2) as [P2 Q2]. unfold quotient_part in *. rewrite !isnan_spec by assumption.
  destruct (is_nan (__compiler_rt_scalbnX (__divXf3__ n1 dn) (sopp 32 i))) eqn:E1; [|left; now apply Q1]. destruct (is_nan (__compiler_rt_scalbnX (__divXf3__ n2 dn) (sopp 32 i))) eqn:E2; [|right; now apply Q2]. cbn [andb].
  unfold div_recover. destruct (eq_zero dn) eqn:EZ.
  - assert (NN : is_nan a = false \/ is_nan b = false) by (destruct Hi as [Hi|Hi]; [left|right]; now apply inf_not_nan).
    rewrite (number_test a b Ra Rb NN). cbn [andb fst snd]. destruct Hi as [Hi|Hi]; [left|right]; apply signed_infinity; auto; now apply inf_not_nan.
  - cbn [andb]. rewrite (infinite_test a b Ra Rb Hi), !isfinite_spec, Fc, Fd by assumption. cbn [andb fst snd]. apply recomputed_infinite; [now apply box_boxed|].
    repeat split; try assumption; try apply Rc; try apply Rd. destruct (Z.eq_dec (fp_abs c') 0) as [Zc|]; [|now left]. destruct (Z.eq_dec (fp_abs d') 0) as [Zd|]; [|now right]. exfalso.
    pose proof (denom_zero c' d' Rc Rd Zc Zd) as Zn. fold dn in Zn.
    destruct (zero_finite dn Zn) as [_ Nn]. rewrite eq_zero_spec, Zn in EZ by assumption. discriminate.
Qed.

(** The divisor zero. *)
Lemma divide_by_zero a b c d : is_uint W a -> is_uint W b -> is_uint W c -> is_uint W d -> fp_abs c = 0 -> fp_abs d = 0 ->
  is_nan a = false /\ fp_abs a <> 0 \/ is_nan b = false /\ fp_abs b <> 0 ->
  infinite (fst (divXc3 a b c d)) (snd (divXc3 a b c d)).
Proof.
  intros Ra Rb Rc Rd Zc Zd Hn. unfold divXc3. rewrite div_scale_zero by assumption. destruct (products_uint a b c d Ra Rb Rc Rd) as (U1 & U2 & U3). pose proof (denom_zero c d Rc Rd Zc Zd) as Zn.
  destruct (mul_class a c Ra Rc) as (R1 & _), (mul_class b d Rb Rd) as (R2 & _), (mul_class b c Rb Rc) as (R3 & _), (mul_class a d Ra Rd) as (R4 & _).
  pose proof (add_zero_class _ _ R1 R2 (mul_zero_class a c Ra Rc Zc) (mul_zero_class b d Rb Rd Zd)) as K1. pose proof (sub_zero_class _ _ R3 R4 (mul_zero_class b c Rb Rc Zc) (mul_zero_class a d Ra Rd Zd)) as K2.
  fold (quotient_part (addXf3 (__mulXf3__ a c) (__mulXf3__ b d)) (addXf3 (__mulXf3__ c c) (__mulXf3__ d d)) (sopp 32 0)).
  fold (quotient_part (subXf3 (__mulXf3__ b c) (__mulXf3__ a d)) (addXf3 (__mulXf3__ c c) (__mulXf3__ d d)) (sopp 32 0)).
  rewrite !part_nan by auto. cbn [andb]. unfold div_recover. rewrite eq_zero_spec, Zn by (try exact U3; now apply zero_finite). rewrite number_test by (try assumption; tauto). cbn [andb Z.eqb fst snd].
  destruct Hn as [[N Z]|[N Z]]; [left|right]; now apply signed_infinity.
Qed.

(** An infinite divisor. *)
Lemma divide_by_infinity a b c d : is_uint W a -> is_uint W b -> is_uint W c -> is_uint W d -> is_finite a = true -> is_finite b = true -> infinite c d ->
  is_finite (addXf3 (crt_fabs a) (crt_fabs b)) = true -> fp_abs (fst (divXc3 a b c d)) = 0 /\ fp_abs (snd (divXc3 a b c d)) = 0.
Proof.
  intros Ra Rb Rc Rd Fa Fb Hi Fs. unfold divXc3. rewrite div_scale_infinite by assumption. destruct (products_uint a b c d Ra Rb Rc Rd) as (U1 & U2 & U3).
  assert (H1 : forall x y, is_inf x = true \/ is_inf y = true \/ is_inf c = true \/ is_inf d = true) by (unfold infinite in Hi; tauto).
  pose proof (proj2 (plain_part a b c d Ra Rb Rc Rd (H1 a b))) as K1. pose proof (proj1 (plain_part b a c d Rb Ra Rc Rd (H1 b a))) as K2. pose proof (proj2 (plain_part c d c d Rc Rd Rc Rd (H1 c d))) as K3.
  fold (quotient_part (addXf3 (__mulXf3__ a c) (__mulXf3__ b d)) (addXf3 (__mulXf3__ c c) (__mulXf3__ d d)) (sopp 32 0)).
  fold (quotient_part (subXf3 (__mulXf3__ b c) (__mulXf3__ a d)) (addXf3 (__mulXf3__ c c) (__mulXf3__ d d)) (sopp 32 0)).
  rewrite !part_nan by auto. cbn [andb]. unfold div_recover. rewrite eq_zero_class by assumption. cbn [andb]. destruct (with_sign_inf false) as [Ri Ii]. cbn [with_sign] in Ri, Ii.
  rewrite !isinf_spec, !isfinite_spec, Fa, Fb, Ii by assumption. destruct (finite_keep a Ra Fa) as [_ ->], (finite_keep b Rb Fb) as [_ ->]. cbn [orb andb].
  assert (G : fp_greater infRep 0 = true).
  { unfold fp_greater. rewrite (proj1 (proj2 (le_spec infRep 0 Ri zero_uint))). destruct (inf_not_nan infRep Ii) as [-> Nz]. assert (Z0 : fp_abs 0 = 0) by (unfold fp_abs; apply Zmod_0_l). destruct (zero_finite 0 Z0) as [_ ->]. cbn [orb].
    rewrite zero_value. pose proof infRep_bounds as IB. assert (IB' : 0 <= infRep < 2 ^ (W - 1)) by lia. pose proof (fp_value_with_sign false infRep IB') as V. cbn [with_sign] in V. rewrite V. assert (P : 0 < fpval infRep) by (apply fpval_pos; lia).
    unfold order_sign. rewrite (proj2 (Z.compare_gt_iff (fpval infRep) 0) P). reflexivity. }
  rewrite G. cbn [andb fst snd]. now apply recomputed_zero.
Qed.
End Recovery.

(** Infinities in complex division (C99, Annex G): an infinite dividend
    over a finite divisor, zero included, is infinite, and so is a dividend
    with a non-zero part over zero, whatever NaNs the other parts are. *)
Theorem complex_quotient_infinite (F : FpFormat) (O : FpOps) (D : FpMath) (R : FpRecip) (M : FpWideMul) (C : FpComplex) a b c d :
  is_uint typeWidth a -> is_uint typeWidth b -> is_uint typeWidth c -> is_uint typeWidth d -> is_finite c = true -> is_finite d = true ->
  infinite a b \/ (fp_abs c = 0 /\ fp_abs d = 0 /\ (is_nan a = false /\ fp_abs a <> 0 \/ is_nan b = false /\ fp_abs b <> 0)) ->
  infinite (fst (divXc3 a b c d)) (snd (divXc3 a b c d)).
Proof. intros Ra Rb Rc Rd Fc Fd [Hi|(Zc & Zd & Hn)]; [now apply divide_infinite|now apply divide_by_zero]. Qed.

(** (inf + NaN i) / (3 - 4i) and (1 + NaN i) / (0 - 0i). *)
Lemma complex_quotient_infinite_witness :
  @infinite single_precision (fst (__divsc3 0x7f800000 0x7fc00000 0x40400000 0xc0800000)) (snd (__divsc3 0x7f800000 0x7fc00000 0x40400000 0xc0800000)) /\
  @infinite double_precision (fst (__divdc3 0x3ff0000000000000 0x7ff8000000000000 0 0x8000000000000000)) (snd (__divdc3 0x3ff0000000000000 0x7ff8000000000000 0 0x8000000000000000)).
Proof.
  split.
  - refine (complex_quotient_infinite single_precision single_ops single_math single_recip single_wide single_complex 0x7f800000 0x7fc00000 0x40400000 0xc0800000 _ _ _ _ eq_refl eq_refl _); [unfold is_uint; cbn; lia..|left; left; reflexivity].
  - refine (complex_quotient_infinite double_precision double_ops double_math double_recip double_wide double_complex 0x3ff0000000000000 0x7ff8000000000000 0 0x8000000000000000 _ _ _ _ eq_refl eq_refl _); [unfold is_uint; cbn; lia..|].
    right. split; [reflexivity|]. split; [reflexivity|]. left. split; [reflexivity|vm_compute; discriminate].
Defined.

(** A finite dividend over an infinite divisor is zero, if the sum of the
    magnitudes of its parts does not overflow. *)
Theorem complex_quotient_zero (F : FpFormat) (O : FpOps) (D : FpMath) (R : FpRecip) (M : FpWideMul) (C : FpComplex) a b c d :
  is_uint typeWidth a -> is_uint typeWidth b -> is_uint typeWidth c -> is_uint typeWidth d -> is_finite a = true -> is_finite b = true -> infinite c d ->
  is_finite (addXf3 (crt_fabs a) (crt_fabs b)) = true ->
  fp_abs (fst (divXc3 a b c d)) = 0 /\ fp_abs (snd (divXc3 a b c d)) = 0.
Proof. apply divide_by_infinity. Qed.

(** (1 + 2i) / (NaN - inf i). *)
Lemma complex_quotient_zero_witness : __divsc3 0x3f800000 0x40000000 0x7fc00000 0xff800000 = (0x80000000, 0) /\
  @fp_abs single_precision (fst (__divsc3 0x3f800000 0x40000000 0x7fc00000 0xff800000)) = 0 /\ @fp_abs single_precision (snd (__divsc3 0x3f800000 0x40000000 0x7fc00000 0xff800000)) = 0.
Proof.
  split; [vm_compute; reflexivity|].
  refine (complex_quotient_zero single_precision single_ops single_math single_recip single_wide single_complex 0x3f800000 0x40000000 0x7fc00000 0xff800000 _ _ _ _ eq_refl eq_refl _ eq_refl); [unfold is_uint; cbn; lia..|right; reflexivity].
Defined.

(** The sum of the parts of the dividend is rounded before it is multiplied by
    zero, so a finite dividend close to the largest number over an infinite
    divisor is not zero: (MAX + MAX i) / (inf + inf i) has a NaN part. *)
Theorem complex_quotient_overflow : __divsc3 0x7f7fffff 0x7f7fffff 0x7f800000 0x7f800000 = (0x7fc00000, 0) /\
  __divdc3 0x7fefffffffffffff 0x7fefffffffffffff 0x7ff0000000000000 0x7ff0000000000000 = (0x7ff8000000000000, 0).
Proof. split; vm_compute; reflexivity. Qed.
