(* ===== verification/X87.v ===== *)
(** * The 80-bit format of the x87

    Models the conversions between integers and [long double] of the x87
    format: [fixxfdi.c], [fixxfti.c], [fixunsxfsi.c], [fixunsxfdi.c],
    [fixunsxfti.c], [floatdixf.c], [floatundixf.c], [floattixf.c] and
    [floatuntixf.c].  A number is the two words of [long_double_bits] the code
    looks at: [ld_high] is [u.high.s.low] (sign and exponent in 16 bits; the
    bits above are padding) and [ld_low] is [u.low.all], a significand with
    an explicit leading bit. *)

From S2P Require Import Prelude IntBits FpLib FpSpec FpAdd FpInt.

Record long_double := mkLD { ld_high : Z; ld_low : Z }.

(** [(fb.u.high.s.low & 0x7FFF) - 16383] and the sign bit. *)
Definition ld_e (a : long_double) : Z := (ld_high a .& 0x00007FFF) - 16383.
Definition ld_signbit (a : long_double) : Z := ld_high a .& 0x00008000.
(** [a > 0] for a number whose leading bit is in place; false for a NaN. *)
Definition ld_positive (a : long_double) : bool :=
  (ld_signbit a =? 0) && negb (ld_low a =? 0) && negb ((ld_e a =? 16384) && negb (ld_low a =? 2 ^ 63)).

Definition __fixxfdi (a : long_double) : Z :=
  let di_max := 2 ^ 63 - 1 in
  let di_min := - di_max - 1 in
  let e := ld_e a in
  if e <? 0 then 0
  else if uint 32 e >=? 64 then if ld_positive a then di_max else di_min
  else
    let s := sopp 32 (ld_signbit a >>[32] 15) in
    let r := sint 64 (ld_low a) in
    let r := sint 64 (uint 64 r >>[64] (63 - e)) in
    ssub 64 (r .^ s) s.

Definition __fixxfti (a : long_double) : Z :=
  let ti_max := 2 ^ 127 - 1 in
  let ti_min := - ti_max - 1 in
  let e := ld_e a in
  if e <? 0 then 0
  else
    let s := sopp 32 (ld_signbit a >>[32] 15) in
    let r := ld_low a in
    if uint 32 e >=? 128 then if ld_positive a then ti_max else ti_min
    else
      let r := if e >? 63 then sshl 128 r (e - 63) else r >>[128] (63 - e) in
      ssub 128 (r .^ s) s.

Definition __fixunsxfsi (a : long_double) : Z :=
  let e := ld_e a in
  if (e <? 0) || nonzero (ld_signbit a) then 0
  else if uint 32 e >? 32 then 2 ^ 32 - 1
  else (ld_low a >>[64] 32) >>[32] (31 - e).

Definition __fixunsxfdi (a : long_double) : Z :=
  let e := ld_e a in
  if (e <? 0) || nonzero (ld_signbit a) then 0
  else if uint 32 e >? 64 then 2 ^ 64 - 1
  else ld_low a >>[64] (63 - e).

Definition __fixunsxfti (a : long_double) : Z :=
  let e := ld_e a in
  if (e <? 0) || nonzero (ld_signbit a) then 0
  else if uint 32 e >? 128 then 2 ^ 128 - 1
  else
    let r := ld_low a in
    if e >? 63 then r <<[128] (e - 63) else r >>[128] (63 - e).

Definition ld_zero : long_double := mkLD 0 0.

Definition __floatdixf (a : Z) : long_double :=
  if a =? 0 then ld_zero
  else
    let s := a >>[64] 63 in
    let a := ssub 64 (a .^ s) s in
    let clz := clz64 (uint 64 a) in
    let e := 63 - clz in
    mkLD ((uint 32 s .& 0x00008000) .| (e + 16383)) (uint 64 (sshl 64 a clz)).

Definition __floatundixf (a : Z) : long_double :=
  if a =? 0 then ld_zero
  else
    let clz := clz64 a in
    let e := 63 - clz in
    mkLD (e + 16383) (a <<[64] clz).

(** The two 128-bit conversions: the rounding of [FpInt] to 64 digits. *)
Definition float_xf (sg : bool) (a : Z) : long_double :=
  if a =? 0 then ld_zero
  else
    let '(s, a) := float_sign sg 128 a in
    let '(a, e) := float_round sg 128 clz128 64 a in
    mkLD ((uint 32 s .& 0x8000) .| (e + 16383)) (uint 64 a).
Definition __floattixf (a : Z) : long_double := float_xf true a.
Definition __floatuntixf (a : Z) : long_double := float_xf false a.

(** ** Values *)

Definition ld_neg (a : long_double) : bool := Z.odd (ld_high a / 2 ^ 15).
Definition ld_exp (a : long_double) : Z := ld_high a mod 2 ^ 15 - 16383.
(** The words of a number with its leading bit in place. *)
Definition ld_ok (a : long_double) : Prop := is_uint 32 (ld_high a) /\ 2 ^ 63 <= ld_low a < 2 ^ 64.
(** The integer part of its magnitude, with its sign. *)
Definition ld_trunc (a : long_double) : Z :=
  let m := if ld_exp a >? 63 then ld_low a * 2 ^ (ld_exp a - 63) else ld_low a / 2 ^ (63 - ld_exp a) in
  if ld_neg a then - m else m.

Lemma ld_e_exp a : ld_e a = ld_exp a.
Proof. unfold ld_e, ld_exp. change 0x00007FFF with (2 ^ 15 - 1). now rewrite land_ones_mod by lia. Qed.

Lemma ld_sign_neg a : ld_signbit a = if ld_neg a then 2 ^ 15 else 0.
Proof.
  unfold ld_signbit, ld_neg. change 0x00008000 with ((2 ^ 1 - 1) * 2 ^ 15). rewrite land_field by lia. rewrite Zmod_odd. now destruct (Z.odd _).
Qed.

Lemma ld_exp_range a : -16383 <= ld_exp a <= 16384.
Proof. unfold ld_exp. pose proof (Z.mod_pos_bound (ld_high a) (2 ^ 15)). lia. Qed.

(** The sign mask of the signed routines. *)
Lemma ld_mask a : sopp 32 (ld_signbit a >>[32] 15) = if ld_neg a then -1 else 0.
Proof. rewrite ld_sign_neg, shr_spec by lia. now destruct (ld_neg a). Qed.

Lemma negate_mask w r (b : bool) : ssub w (r .^ (if b then -1 else 0)) (if b then -1 else 0) = sint w (if b then - r else r).
Proof. unfold ssub. f_equal. destruct b; [rewrite lxor_m1; lia|rewrite Z.lxor_0_r; lia]. Qed.

(** ** From the format to integers *)

Lemma sint_opp_sint w q : sint w (- sint w q) = sint w (- q).
Proof.
  rewrite <- (sint_uint w (- sint w q)), <- (sint_uint w (- q)). f_equal. change (eqm w (- sint w q) (- q)). now rewrite sint_eqm.
Qed.
Lemma sint_sint w q : sint w (sint w q) = sint w q.
Proof. rewrite <- (sint_uint w (sint w q)), uint_sint. apply sint_uint. Qed.

Lemma small_exponent a : 0 <= ld_exp a -> uint 32 (ld_exp a) = ld_exp a.
Proof. intros. pose proof (ld_exp_range a). apply uint_small. unfold is_uint. lia. Qed.

Lemma fixxfdi_spec a : ld_ok a -> 0 <= ld_exp a < 64 -> __fixxfdi a = sint 64 (ld_trunc a).
Proof.
  intros [_ Hl] He. unfold __fixxfdi, ld_trunc. rewrite ld_e_exp, ld_mask, small_exponent by lia. rewrite Z.geb_leb, Z.gtb_ltb.
  destruct (Z.ltb_spec (ld_exp a) 0), (Z.leb_spec 64 (ld_exp a)), (Z.ltb_spec 63 (ld_exp a)); try lia.
  rewrite uint_sint, (uint_small 64 (ld_low a)) by (unfold is_uint; lia). rewrite shr_spec, negate_mask by lia. destruct (ld_neg a); [apply sint_opp_sint|apply sint_sint].
Qed.

Lemma fixxfti_spec a : ld_ok a -> 0 <= ld_exp a < 128 -> __fixxfti a = sint 128 (ld_trunc a).
Proof.
  intros [_ Hl] He. unfold __fixxfti, ld_trunc. rewrite ld_e_exp, ld_mask, small_exponent by lia. rewrite Z.geb_leb, Z.gtb_ltb.
  destruct (Z.ltb_spec (ld_exp a) 0), (Z.leb_spec 128 (ld_exp a)); try lia. rewrite negate_mask.
  destruct (Z.ltb_spec 63 (ld_exp a)); [rewrite sshl_spec by lia|rewrite shr_spec by lia; reflexivity]. destruct (ld_neg a); [apply sint_opp_sint|apply sint_sint].
Qed.

Lemma fix_saturates a : ld_ok a -> ~ (ld_exp a = 16384 /\ ld_low a <> 2 ^ 63) ->
  (64 <= ld_exp a -> __fixxfdi a = if ld_neg a then - 2 ^ 63 else 2 ^ 63 - 1) /\ (128 <= ld_exp a -> __fixxfti a = if ld_neg a then - 2 ^ 127 else 2 ^ 127 - 1).
Proof.
  intros [_ Hl] Hn. assert (P : ld_positive a = negb (ld_neg a)).
  { unfold ld_positive. rewrite ld_e_exp, ld_sign_neg. rewrite (proj2 (Z.eqb_neq (ld_low a) 0)) by lia. destruct (ld_neg a); [reflexivity|]. cbn [Z.eqb andb negb].
    destruct (Z.eqb_spec (ld_exp a) 16384), (Z.eqb_spec (ld_low a) (2 ^ 63)); cbn; reflexivity || tauto. }
  split; intros He; unfold __fixxfdi, __fixxfti; rewrite ld_e_exp, small_exponent, P, Z.geb_leb by lia; destruct (Z.ltb_spec (ld_exp a) 0); try lia;
  [destruct (Z.leb_spec 64 (ld_exp a)); try lia|destruct (Z.leb_spec 128 (ld_exp a)); try lia]; now destruct (ld_neg a).
Qed.

Lemma fix_small a : ld_exp a < 0 -> __fixxfdi a = 0 /\ __fixxfti a = 0 /\ __fixunsxfsi a = 0 /\ __fixunsxfdi a = 0 /\ __fixunsxfti a = 0.
Proof.
  intros He. unfold __fixxfdi, __fixxfti, __fixunsxfsi, __fixunsxfdi, __fixunsxfti. rewrite ld_e_exp. apply Z.ltb_lt in He. rewrite He. cbn [orb]. auto.
Qed.

Lemma fixuns_spec a : ld_ok a -> ld_neg a = false -> 0 <= ld_exp a ->
  (ld_exp a < 32 -> __fixunsxfsi a = ld_trunc a) /\ (ld_exp a < 64 -> __fixunsxfdi a = ld_trunc a) /\ (ld_exp a < 128 -> __fixunsxfti a = ld_trunc a).
Proof.
  intros [_ Hl] Hn He. unfold __fixunsxfsi, __fixunsxfdi, __fixunsxfti, ld_trunc. rewrite ld_e_exp, ld_sign_neg, small_exponent, Hn by lia. rewrite !Z.gtb_ltb.
  destruct (Z.ltb_spec (ld_exp a) 0); [lia|]. cbn [orb nonzero negb Z.eqb].
  split; [|split]; intros Hb; destruct (Z.ltb_spec 32 (ld_exp a)), (Z.ltb_spec 64 (ld_exp a)), (Z.ltb_spec 128 (ld_exp a)), (Z.ltb_spec 63 (ld_exp a)); try lia.
  1: rewrite !shr_spec by lia; rewrite Z.div_div by (try lia; apply Z.pow_nonzero || apply pow2_pos; lia); rewrite <- pow2_split by lia; do 2 f_equal; lia.
  all: try (now rewrite shr_spec by lia). all: rewrite ushl_spec by lia; apply uint_small; unfold is_uint; assert (P : 2 ^ (ld_exp a - 63) <= 2 ^ 64) by (apply Z.pow_le_mono_r; lia);
    assert (0 < 2 ^ (ld_exp a - 63)) by (apply pow2_pos; lia); nia.
Qed.

(** ** From integers to the format *)

Lemma pack_high (n : bool) E l : 0 <= E < 2 ^ 15 ->
  let r := mkLD ((uint 32 (if n then -1 else 0) .& 0x8000) .| E) l in
  is_uint 32 (ld_high r) /\ ld_neg r = n /\ ld_exp r = E - 16383 /\ ld_high r mod 2 ^ 15 = E.
Proof.
  intros HE. cbv zeta. assert (H : (uint 32 (if n then -1 else 0) .& 0x8000) .| E = b2z n * 2 ^ 15 + E).
  { replace (uint 32 (if n then -1 else 0) .& 0x8000) with (b2z n * 2 ^ 15) by now destruct n. apply lor_add_disjoint; lia. }
  unfold ld_neg, ld_exp. cbn [ld_high]. rewrite H. assert (D : (b2z n * 2 ^ 15 + E) / 2 ^ 15 = b2z n) by (rewrite Z.div_add_l by lia; rewrite Z.div_small by lia; lia).
  assert (M : (b2z n * 2 ^ 15 + E) mod 2 ^ 15 = E) by (rewrite Z.add_comm, Z_mod_plus_full; apply Z.mod_small; lia). rewrite D, M.
  split; [unfold is_uint; destruct n; cbn [b2z]; lia|]. split; [now destruct n|]. auto.
Qed.

(** The exact value of a 64-bit magnitude. *)
Lemma ld_exact (n : bool) m r : 0 < m < 2 ^ 64 -> is_uint 32 (ld_high r) -> ld_neg r = n -> ld_exp r = Z.log2 m -> ld_low r = m * 2 ^ (63 - Z.log2 m) ->
  ld_ok r /\ ld_trunc r = if n then - m else m.
Proof.
  intros Hm Hh Hn He Hl. pose proof (log2_lt_width 64 m Hm) as L. pose proof (log2_bounds m ltac:(lia)) as B. pose proof (pow2_pos (63 - Z.log2 m) ltac:(lia)) as P.
  assert (S : 2 ^ 63 = 2 ^ Z.log2 m * 2 ^ (63 - Z.log2 m)) by (rewrite <- pow2_split by lia; f_equal; lia).
  split; [split; [exact Hh|rewrite Hl; nia]|]. unfold ld_trunc. rewrite He, Hl, Hn, Z.gtb_ltb. destruct (Z.ltb_spec 63 (Z.log2 m)); [lia|]. now rewrite Z.div_mul by lia.
Qed.

Lemma floatdixf_spec a : is_sint 64 a -> a <> 0 -> ld_ok (__floatdixf a) /\ ld_trunc (__floatdixf a) = a /\ ld_exp (__floatdixf a) = Z.log2 (Z.abs a).
Proof.
  intros Ra Na. unfold __floatdixf. rewrite (proj2 (Z.eqb_neq a 0) Na). cbv zeta. replace (a >>[64] 63) with (if a <? 0 then -1 else 0) by (symmetry; change 63 with (64 - 1); apply (shr_sign 64 a ltac:(lia) Ra)). cbv zeta. unfold ssub. rewrite (cond_negate a (a <? 0)).
  replace (if a <? 0 then - a else a) with (Z.abs a) by (destruct (Z.ltb_spec a 0); lia). unfold is_sint in Ra. assert (Hm : 0 < Z.abs a < 2 ^ 64) by lia.
  rewrite uint_sint, (uint_small 64 (Z.abs a)) by (unfold is_uint; lia). pose proof (log2_lt_width 64 (Z.abs a) Hm) as L. unfold clz64, clz. set (k := Z.log2 (Z.abs a)) in *.
  replace (63 - (64 - 1 - k)) with k by lia. destruct (pack_high (a <? 0) (k + 16383) (uint 64 (sshl 64 (sint 64 (Z.abs a)) (64 - 1 - k))) ltac:(lia)) as (H1 & H2 & H3 & _).
  replace (k + 16383 - 16383) with k in H3 by lia. destruct (ld_exact (a <? 0) (Z.abs a) _ Hm H1 H2 H3) as [Ok T].
  { cbn [ld_low]. rewrite sshl_spec, uint_sint by lia. apply uint_of_eqm; [|rewrite sint_eqm; reflexivity].
    pose proof (log2_bounds (Z.abs a) ltac:(lia)) as B. fold k in B. pose proof (pow2_pos (63 - k) ltac:(lia)). fold k.
    assert (S : 2 ^ 63 = 2 ^ k * 2 ^ (63 - k)) by (rewrite <- pow2_split by lia; f_equal; lia). unfold is_uint. nia. }
  split; [exact Ok|]. split; [|exact H3]. rewrite T. destruct (Z.ltb_spec a 0); lia.
Qed.

Lemma floatundixf_spec a : is_uint 64 a -> a <> 0 -> ld_ok (__floatundixf a) /\ ld_trunc (__floatundixf a) = a /\ ld_exp (__floatundixf a) = Z.log2 a /\ ld_neg (__floatundixf a) = false.
Proof.
  intros Ra Na. unfold __floatundixf. rewrite (proj2 (Z.eqb_neq a 0) Na). unfold is_uint in Ra. assert (Hm : 0 < a < 2 ^ 64) by lia. pose proof (log2_lt_width 64 a Hm) as L.
  unfold clz64, clz. set (k := Z.log2 a) in *. replace (63 - (64 - 1 - k)) with k by lia.
  pose proof (pack_high false (k + 16383) (a <<[64] (64 - 1 - k)) ltac:(lia)) as PH. cbn [uint] in PH. change (uint 32 0 .& 0x8000) with 0 in PH. rewrite Z.lor_0_l in PH.
  destruct PH as (H1 & H2 & H3 & _). replace (k + 16383 - 16383) with k in H3 by lia. destruct (ld_exact false a _ Hm H1 H2 H3) as [Ok T]; [|auto].
  cbn [ld_low]. rewrite ushl_spec by lia. apply uint_small. pose proof (log2_bounds a ltac:(lia)) as B. fold k in B. fold k. pose proof (pow2_pos (63 - k) ltac:(lia)).
  assert (S : 2 ^ 63 = 2 ^ k * 2 ^ (63 - k)) by (rewrite <- pow2_split by lia; f_equal; lia). unfold is_uint. change (64 - 1 - k) with (63 - k). nia.
Qed.

(** The format with its leading bit left out, for what rounding means in it;
    [ld_magnitude] is the pattern of a number there. *)
Definition x87_format : FpFormat.
Proof. refine {| typeWidth := 79; significandBits := 63 |}. lia. Defined.
Definition ld_magnitude (a : long_double) : Z := (ld_high a mod 2 ^ 15) * 2 ^ 63 + (ld_low a - 2 ^ 63).

Lemma float_xf_spec (sg : bool) a : (if sg then is_sint 128 a else is_uint 128 a) -> a <> 0 ->
  ld_ok (float_xf sg a) /\ ld_neg (float_xf sg a) = (a <? 0) /\ @rounds_to x87_format (Z.abs a * 2 ^ @unitExp x87_format) 1 (ld_magnitude (float_xf sg a)).
Proof.
  intros Ra Na. unfold float_xf. rewrite (proj2 (Z.eqb_neq a 0) Na).
  assert (HN : @significandBits x87_format + 1 + 4 <= 128) by (change (@significandBits x87_format) with 63; lia).
  assert (HB : 128 <= @exponentBias x87_format + 1) by (change (@exponentBias x87_format) with 16383; lia).
  destruct (@float_sign_spec x87_format sg 128 HN a Ra Na) as (a0 & -> & E0 & E1).
  assert (Hp : 0 < Z.abs a) by lia.
  destruct (@float_round_spec x87_format sg 128 clz128 HN HB clz128_spec a0 (Z.abs a) (eq_sym E0) Hp E1) as (a' & e & Er & Ha & He & HR).
  change (@significandBits x87_format) with 63 in *. change (63 + 1) with 64 in *. change (@exponentBias x87_format) with 16383 in *. rewrite Er.
  assert (HE : 0 <= e + 16383 < 2 ^ 15) by lia. destruct (pack_high (a <? 0) (e + 16383) (uint 64 a') HE) as (H1 & H2 & _ & H4).
  assert (U : uint 64 a' = a') by (apply uint_small; unfold is_uint; lia).
  split; [split; [exact H1|cbn [ld_low]; rewrite U; lia]|]. split; [exact H2|]. unfold ld_magnitude. rewrite H4. cbn [ld_low]. rewrite U. exact HR.
Qed.

(** ** Theorems *)

(** C33: 64-bit integers pass through the x87 format unchanged: converting any
    [long long] or [unsigned long long] and converting back is the identity,
    INT_MIN included. *)
Theorem x87_roundtrip a :
  (is_sint 64 a -> __fixxfdi (__floatdixf a) = a) /\ (is_uint 64 a -> __fixunsxfdi (__floatundixf a) = a).
Proof.
  split; intros R.
  - destruct (Z.eq_dec a 0) as [->|Na]; [reflexivity|]. destruct (floatdixf_spec a R Na) as (Ok & T & E). unfold is_sint in R.
    assert (Hm : 0 < Z.abs a < 2 ^ 64) by lia. pose proof (log2_lt_width 64 (Z.abs a) Hm). rewrite fixxfdi_spec, T by (exact Ok || lia). apply sint_small; [lia|unfold is_sint; lia].
  - destruct (Z.eq_dec a 0) as [->|Na]; [reflexivity|]. destruct (floatundixf_spec a R Na) as (Ok & T & E & Hn). unfold is_uint in R. assert (Hm : 0 < a < 2 ^ 64) by lia.
    pose proof (log2_lt_width 64 a Hm). assert (He : 0 <= ld_exp (__floatundixf a)) by lia. destruct (fixuns_spec _ Ok Hn He) as (_ & D & _). rewrite D by lia. exact T.
Qed.
Lemma x87_roundtrip_witness : __fixxfdi (__floatdixf (- 2 ^ 63)) = - 2 ^ 63.
Proof. apply (proj1 (x87_roundtrip (- 2 ^ 63))). unfold is_sint. lia. Defined.

(** The 128-bit integers are rounded to the 64-bit significand to nearest
    even, with the sign of the integer; zero is zero. *)
Theorem x87_ti_rounded (sg : bool) a : (if sg then is_sint 128 a else is_uint 128 a) ->
  let r := if sg then __floattixf a else __floatuntixf a in
  (a = 0 -> r = ld_zero) /\
  (a <> 0 -> ld_ok r /\ ld_neg r = (a <? 0) /\ @rounds_to x87_format (Z.abs a * 2 ^ @unitExp x87_format) 1 (ld_magnitude r)).
Proof.
  intros R. assert (E : (if sg then __floattixf a else __floatuntixf a) = float_xf sg a) by now destruct sg. cbv zeta. rewrite E.
  split; [intros ->; reflexivity|intros Na; now apply float_xf_spec].
Qed.
Lemma x87_ti_rounded_witness : ld_ok (__floattixf (- 2 ^ 100 - 1)) /\ ld_neg (__floattixf (- 2 ^ 100 - 1)) = true.
Proof.
  assert (R : is_sint 128 (- 2 ^ 100 - 1)) by (unfold is_sint; lia). destruct (x87_ti_rounded true (- 2 ^ 100 - 1) R) as [_ H].
  destruct (H ltac:(discriminate)) as (H1 & H2 & _). split; [exact H1|exact H2].
Defined.

(** The conversions to integers truncate toward zero.  The signed ones
    return the integer part wherever it fits, wrap it below 2^w and saturate
    from there on (infinities included); the unsigned ones return it for
    every number below 2^w and zero for negative ones. *)
Theorem x87_fix_truncates a : ld_ok a -> ~ (ld_exp a = 16384 /\ ld_low a <> 2 ^ 63) ->
  (ld_exp a < 0 -> __fixxfdi a = 0 /\ __fixxfti a = 0 /\ __fixunsxfsi a = 0 /\ __fixunsxfdi a = 0 /\ __fixunsxfti a = 0) /\
  (0 <= ld_exp a ->
     __fixxfdi a = (if ld_exp a <? 64 then sint 64 (ld_trunc a) else if ld_neg a then - 2 ^ 63 else 2 ^ 63 - 1) /\
     __fixxfti a = (if ld_exp a <? 128 then sint 128 (ld_trunc a) else if ld_neg a then - 2 ^ 127 else 2 ^ 127 - 1) /\
     (ld_neg a = true -> __fixunsxfsi a = 0 /\ __fixunsxfdi a = 0 /\ __fixunsxfti a = 0) /\
     (ld_neg a = false -> (ld_exp a < 32 -> __fixunsxfsi a = ld_trunc a) /\ (ld_exp a < 64 -> __fixunsxfdi a = ld_trunc a) /\ (ld_exp a < 128 -> __fixunsxfti a = ld_trunc a))).
Proof.
  intros Ok Hn. destruct (fix_saturates a Ok Hn) as [S1 S2]. split; [apply fix_small|intros He]. split; [|split; [|split]].
  - destruct (Z.ltb_spec (ld_exp a) 64); [now apply fixxfdi_spec|now apply S1].
  - destruct (Z.ltb_spec (ld_exp a) 128); [now apply fixxfti_spec|now apply S2].
  - intros N. unfold __fixunsxfsi, __fixunsxfdi, __fixunsxfti. rewrite ld_sign_neg, N. rewrite orb_true_r. auto.
  - intros N. now apply fixuns_spec.
Qed.
(** -5.75 is truncated to -5. *)
Lemma x87_fix_truncates_witness : __fixxfdi (mkLD 0xc001 0xb800000000000000) = -5.
Proof.
  assert (Ok : ld_ok (mkLD 0xc001 0xb800000000000000)) by (split; [unfold is_uint; cbn; lia|cbn; lia]).
  assert (Hn : ~ (ld_exp (mkLD 0xc001 0xb800000000000000) = 16384 /\ ld_low (mkLD 0xc001 0xb800000000000000) <> 2 ^ 63)) by (intros [E _]; vm_compute in E; discriminate).
  destruct (x87_fix_truncates (mkLD 0xc001 0xb800000000000000) Ok Hn) as [_ H]. destruct H as (E & _); [vm_compute; discriminate|]. rewrite E. vm_compute. reflexivity.
Defined.

(** The range check of the unsigned conversions lets the first power of
    two that does not fit through ([>] where [>=] is meant): 2^32, 2^64 and
    2^128 give 1, 1 and 0 instead of the largest value, while twice as much
    saturates. *)
Theorem x87_unsigned_range_check :
  __fixunsxfsi (mkLD (16383 + 32) (2 ^ 63)) = 1 /\ __fixunsxfsi (mkLD (16383 + 33) (2 ^ 63)) = 2 ^ 32 - 1 /\
  __fixunsxfdi (mkLD (16383 + 64) (2 ^ 63)) = 1 /\ __fixunsxfdi (mkLD (16383 + 65) (2 ^ 63)) = 2 ^ 64 - 1 /\
  __fixunsxfti (mkLD (16383 + 128) (2 ^ 63)) = 0 /\ __fixunsxfti (mkLD (16383 + 129) (2 ^ 63)) = 2 ^ 128 - 1.
Proof. vm_compute. auto 7. Qed.
