(* ===== verification/ItemTree.v ===== *)
(** * tsort: the balanced tree of items

    Models the items of [tsort.c] and [search_item], Knuth's Algorithm A:
    search in a binary tree with balance factors and, where the string is not
    found, insertion with one rebalancing at the last unbalanced node of the
    path.  The heap maps addresses to items; [None] is the null pointer; an
    operation is [None] where the code would fail an [assert] or read through
    a null pointer.  The theorem of this file shows that the pointer code
    refines a functional balanced tree. *)

From Stdlib Require Import Sorted.
From S2P Require Import Prelude.
From stdpp Require Import gmap list.
#[local] Open Scope Z_scope.

(** ** Items and the heap *)

Record item := mk_item {
  str : option (list Z);
  left : option nat;
  right : option nat;
  balance : Z;
  count : Z;
  qlink : option nat;
  top : option nat }.
Record successor := mk_successor { suc : nat; next : option nat }.

(** [brk] is the next address [xmalloc] returns. *)
Record heap := mk_heap { items : gmap nat item; succs : gmap nat successor; brk : nat }.

Definition with_items (h : heap) (m : gmap nat item) : heap := mk_heap m (succs h) (brk h).

(** [p->left = q] and the other assignments to members. *)
Definition put_left (q : option nat) (i : item) : item := mk_item (str i) q (right i) (balance i) (count i) (qlink i) (top i).
Definition put_right (q : option nat) (i : item) : item := mk_item (str i) (left i) q (balance i) (count i) (qlink i) (top i).
Definition put_balance (b : Z) (i : item) : item := mk_item (str i) (left i) (right i) b (count i) (qlink i) (top i).
Definition update (m : gmap nat item) (p : nat) (f : item -> item) : option (gmap nat item) :=
  match m !! p with Some i => Some (<[p := f i]> m) | None => None end.

(** [strcmp], of which the code uses the sign; a string holds no 0. *)
Fixpoint strcmp (s1 s2 : list Z) : Z :=
  match s1, s2 with
  | [], [] => 0
  | [], d :: _ => 0 - d
  | c :: _, [] => c
  | c :: s1, d :: s2 => if c =? d then strcmp s1 s2 else c - d
  end.

Definition fresh_item (s : option (list Z)) : item := mk_item s None None 0 0 None None.
Definition new_item (h : heap) (s : option (list Z)) : nat * heap :=
  (brk h, mk_heap (<[brk h := fresh_item s]> (items h)) (succs h) (S (brk h))).

(** A6: the loop that sets the balance factors from [p] down to [q]. *)
Fixpoint adjust (fuel : nat) (m : gmap nat item) (x : list Z) (p : option nat) (q : nat) : option (gmap nat item) :=
  match fuel with
  | O => None
  | S fuel =>
      if decide (p = Some q) then Some m
      else
        let? a := p in
        let? i := m !! a in
        let? k := str i in
        if strcmp x k =? 0 then None
        else if strcmp x k <? 0 then adjust fuel (<[a := put_balance (-1) i]> m) x (left i) q
        else adjust fuel (<[a := put_balance 1 i]> m) x (right i) q
  end.

(** A8: the new root of the subtree, and the heap. *)
Definition single_rotation (m : gmap nat item) (s r : nat) (a : Z) : option (nat * gmap nat item) :=
  let? i := m !! r in
  let? m := if a <? 0 then update m s (put_left (right i)) else update m s (put_right (left i)) in
  let? m := if a <? 0 then update m r (put_right (Some s)) else update m r (put_left (Some s)) in
  let? m := update m r (put_balance 0) in
  let? m := update m s (put_balance 0) in
  Some (r, m).

(** A9. *)
Definition double_rotation (m : gmap nat item) (s r : nat) (a : Z) : option (nat * gmap nat item) :=
  let? i := m !! r in
  let? p := if a <? 0 then right i else left i in
  let? j := m !! p in
  let? m := if a <? 0 then update m r (put_right (left j)) else update m r (put_left (right j)) in
  let? m := if a <? 0 then update m p (put_left (Some r)) else update m p (put_right (Some r)) in
  let? m := if a <? 0 then update m s (put_left (right j)) else update m s (put_right (left j)) in
  let? m := if a <? 0 then update m p (put_right (Some s)) else update m p (put_left (Some s)) in
  let? m := update m s (put_balance 0) in
  let? m := update m r (put_balance 0) in
  let? m :=
    if balance j =? a then update m s (put_balance (- a))
    else if balance j =? - a then update m r (put_balance a)
    else Some m in
  let? m := update m p (put_balance 0) in
  Some (p, m).

(** A7 to A10. *)
Definition rebalance (m : gmap nat item) (t s : nat) (r : option nat) (a : Z) : option (gmap nat item) :=
  let? i := m !! s in
  if (balance i =? 0) || (balance i =? - a) then Some (<[s := put_balance (balance i + a) i]> m)
  else
    let? r := r in
    let? j := m !! r in
    let? (p, m) := if balance j =? a then single_rotation m s r a else double_rotation m s r a in
    let? i := m !! t in
    if decide (right i = Some s) then Some (<[t := put_right (Some p) i]> m)
    else Some (<[t := put_left (Some p) i]> m).

(** A5 to A10: the string was not found; [a] is the side of [p] it belongs to. *)
Definition insert_item (h : heap) (x : list Z) (t s p : nat) (a : Z) : option (nat * heap) :=
  let '(q, h) := new_item h (Some x) in
  let? m := if a <? 0 then update (items h) p (put_left (Some q)) else update (items h) p (put_right (Some q)) in
  let? i := m !! s in
  let? k := str i in
  if strcmp x k =? 0 then None
  else
    let '(r, a) := if strcmp x k <? 0 then (left i, -1) else (right i, 1) in
    let? m := adjust (brk h) m x r q in
    let? m := rebalance m t s r a in
    Some (q, with_items h m).

(** A1 to A4. *)
Fixpoint search_loop (fuel : nat) (h : heap) (x : list Z) (t s p : nat) : option (nat * heap) :=
  match fuel with
  | O => None
  | S fuel =>
      let? i := items h !! p in
      let? k := str i in
      let a := strcmp x k in
      if a =? 0 then Some (p, h)
      else
        match (if a <? 0 then left i else right i) with
        | None => insert_item h x t s p a
        | Some q =>
            let? j := items h !! q in
            let '(t, s) := if negb (balance j =? 0) then (p, q) else (t, s) in
            search_loop fuel h x t s q
        end
  end.

Definition search_item (h : heap) (root : nat) (x : list Z) : option (nat * heap) :=
  let? i := items h !! root in
  match right i with
  | None =>
      let '(q, h) := new_item h (Some x) in
      let? m := update (items h) root (put_right (Some q)) in
      Some (q, with_items h m)
  | Some p => search_loop (brk h) h x root p p
  end.


(** ** Strings *)

Definition is_str (s : list Z) : Prop := Forall (fun c => 0 < c) s.
Definition str_lt (x y : list Z) : Prop := strcmp x y < 0.

Lemma strcmp_opp x y : strcmp y x = - strcmp x y.
Proof. revert y. induction x as [|c x IH]; intros [|d y]; cbn; try lia. rewrite IH. destruct (Z.eqb_spec c d), (Z.eqb_spec d c); lia. Qed.

Lemma strcmp_refl x : strcmp x x = 0.
Proof. pose proof (strcmp_opp x x). lia. Qed.

Lemma strcmp_eq x y : is_str x -> is_str y -> strcmp x y = 0 -> x = y.
Proof.
  intros Hx. revert y. induction Hx as [|c x Hc Hx IH]; intros [|d y] Hy E; inversion Hy; cbn in E; subst; try lia; [done|].
  destruct (Z.eqb_spec c d); [subst; f_equal; auto|lia].
Qed.

Lemma str_lt_trans x y z : is_str x -> is_str y -> is_str z -> str_lt x y -> str_lt y z -> str_lt x z.
Proof.
  unfold str_lt. intros Hx. revert y z. induction Hx as [|c x Hc Hx IH]; intros [|d y] [|e z] Hy Hz L1 L2; inversion Hy; inversion Hz; cbn in *; subst; try lia.
  destruct (Z.eqb_spec c d), (Z.eqb_spec d e), (Z.eqb_spec c e); subst; try lia; try done; apply IH with y; auto.
Qed.

(** ** The functional tree *)

Inductive tree := Leaf | Node (l : tree) (a : nat) (k : list Z) (b : Z) (r : tree).

(** The strings and the addresses of their items, in order. *)
Fixpoint entries (t : tree) : list (list Z * nat) :=
  match t with Leaf => [] | Node l a k _ r => entries l ++ (k, a) :: entries r end.
Definition locs (t : tree) : list nat := (entries t).*2.
Definition keys (t : tree) : list (list Z) := (entries t).*1.

Fixpoint height (t : tree) : Z := match t with Leaf => 0 | Node l _ _ _ r => 1 + Z.max (height l) (height r) end.
Fixpoint avl (t : tree) : Prop :=
  match t with Leaf => True | Node l _ _ b r => avl l /\ avl r /\ b = height r - height l /\ -1 <= b <= 1 end.
Definition sorted (t : tree) : Prop := StronglySorted str_lt (keys t) /\ Forall is_str (keys t).

Lemma height_nonneg t : 0 <= height t.
Proof. induction t; cbn; lia. Qed.

(** A node seen from one side: [true] is the left one. *)
Definition node (d : bool) (near : tree) (a : nat) (k : list Z) (b : Z) (far : tree) : tree :=
  if d then Node near a k b far else Node far a k b near.
Definition sgn (d : bool) : Z := if d then -1 else 1.
Definition child (d : bool) (i : item) : option nat := if d then left i else right i.
Definition put_child (d : bool) (q : option nat) (i : item) : item := if d then put_left q i else put_right q i.

Lemma node_cases d t : t = Leaf \/ exists near a k b far, t = node d near a k b far.
Proof. destruct t as [|l a k b r]; [by left|right]. destruct d; [exists l, a, k, b, r|exists r, a, k, b, l]; done. Qed.

Lemma avl_node d near a k b far : avl (node d near a k b far) <-> avl near /\ avl far /\ b = - sgn d * (height far - height near) /\ -1 <= b <= 1.
Proof. destruct d; cbn; intuition lia. Qed.

Lemma height_node d near a k b far : height (node d near a k b far) = 1 + Z.max (height near) (height far).
Proof. destruct d; cbn; lia. Qed.

(** *** Contexts *)

Record frame := mk_frame { side : bool; loc : nat; key : list Z; bal : Z; sib : tree }.
Definition plug1 (f : frame) (t : tree) : tree := node (side f) t (loc f) (key f) (bal f) (sib f).
(** Innermost frame first. *)
Definition plug (C : list frame) (t : tree) : tree := fold_left (fun t f => plug1 f t) C t.

Fixpoint before (C : list frame) : list (list Z * nat) :=
  match C with [] => [] | f :: C => before C ++ (if side f then [] else entries (sib f) ++ [(key f, loc f)]) end.
Fixpoint after (C : list frame) : list (list Z * nat) :=
  match C with [] => [] | f :: C => (if side f then (key f, loc f) :: entries (sib f) else []) ++ after C end.

Lemma entries_plug C t : entries (plug C t) = before C ++ entries t ++ after C.
Proof.
  revert t. induction C as [|f C IH]; intros t; cbn [before after]; [cbn; by rewrite app_nil_r|].
  change (plug (f :: C) t) with (plug C (plug1 f t)). rewrite IH. unfold plug1, node. destruct (side f); cbn [entries]; by rewrite <- ?app_assoc, ?app_nil_r.
Qed.

Lemma plug_app C1 C2 t : plug (C1 ++ C2) t = plug C2 (plug C1 t).
Proof. apply fold_left_app. Qed.

Lemma avl_inner C t : avl (plug C t) -> avl t.
Proof. revert t. induction C as [|f C IH]; intros t; [done|]. intros A. pose proof (IH (plug1 f t) A) as A1. apply avl_node in A1. tauto. Qed.

(** Replacing a subtree by one of the same height. *)
Lemma avl_replace C t t' : avl (plug C t) -> avl t' -> height t' = height t -> avl (plug C t') /\ height (plug C t') = height (plug C t).
Proof.
  revert t t'. induction C as [|f C IH]; intros t t' A A' H; [done|]. apply (IH (plug1 f t) (plug1 f t')); [done| |].
  - apply (avl_inner C (plug1 f t)) in A. unfold plug1 in *. apply avl_node in A. apply avl_node. rewrite H. tauto.
  - unfold plug1. rewrite !height_node. lia.
Qed.

(** *** Growing along a path of balanced nodes *)

Definition lean (f : frame) : frame := mk_frame (side f) (loc f) (key f) (sgn (side f)) (sib f).

Lemma grow_path P t t' : Forall (fun f => bal f = 0) P -> avl (plug P t) -> avl t' -> height t' = height t + 1 ->
  avl (plug (lean <$> P) t') /\ height (plug (lean <$> P) t') = height (plug P t) + 1.
Proof.
  revert t t'. induction P as [|f P IH]; intros t t' HP A A' H; [done|]. inversion HP as [|? ? Hf HP']; subst. cbn [fmap list_fmap].
  assert (A1 : avl (plug1 f t)) by (by apply avl_inner with P). unfold plug1 in A1. apply avl_node in A1 as (_ & A2 & Eb & _). rewrite Hf in Eb.
  assert (E : height (sib f) = height t) by (destruct (side f); cbn in Eb; lia).
  apply (IH (plug1 f t) (plug1 (lean f) t')); [done|done| |].
  - apply avl_node. cbn. rewrite H, E. destruct (side f); cbn; repeat split; auto; lia.
  - unfold plug1. rewrite !height_node. cbn. lia.
Qed.

(** *** Rebalancing, A7 to A9, after [near] has grown *)

Definition settle (d : bool) (near : tree) (a : nat) (k : list Z) (b : Z) (far : tree) : tree :=
  if (b =? 0) || (b =? - sgn d) then node d near a k (b + sgn d) far
  else match near with
  | Leaf => Leaf
  | Node l r kr br t =>
      let '(x, y) := if d then (l, t) else (t, l) in
      if br =? sgn d then node d x r kr 0 (node d y a k 0 far)
      else match y with
      | Leaf => Leaf
      | Node l p kp bp t =>
          let '(y, z) := if d then (l, t) else (t, l) in
          node d (node d x r kr (if bp =? - sgn d then sgn d else 0) y) p kp 0 (node d z a k (if bp =? sgn d then - sgn d else 0) far)
      end
  end.

Lemma settle_plain d near a k b far : b = 0 \/ b = - sgn d -> settle d near a k b far = node d near a k (b + sgn d) far.
Proof. intros H. unfold settle. destruct (Z.eqb_spec b 0), (Z.eqb_spec b (- sgn d)); cbn [orb]; try done; lia. Qed.

Lemma sgn_cases d : sgn d <> 0 /\ sgn d <> - sgn d.
Proof. destruct d; cbn; lia. Qed.

Lemma settle_single d x r kr y a k far : settle d (node d x r kr (sgn d) y) a k (sgn d) far = node d x r kr 0 (node d y a k 0 far).
Proof. unfold settle. destruct d; cbn; reflexivity. Qed.

Lemma settle_double d x r kr y p kp bp z a k far : settle d (node d x r kr (- sgn d) (node d y p kp bp z)) a k (sgn d) far
  = node d (node d x r kr (if bp =? - sgn d then sgn d else 0) y) p kp 0 (node d z a k (if bp =? sgn d then - sgn d else 0) far).
Proof. unfold settle. destruct d; cbn; reflexivity. Qed.

(** The balance factor at the root. *)
Definition root_bal (t : tree) : Z := match t with Leaf => 0 | Node _ _ _ b _ => b end.

Lemma root_bal_node d near a k b far : root_bal (node d near a k b far) = b.
Proof. by destruct d. Qed.

Lemma settle_avl d near near' a k b far : avl (node d near a k b far) -> avl near' -> height near' = height near + 1 -> near = Leaf \/ root_bal near' <> 0 ->
  avl (settle d near' a k b far) /\ height (settle d near' a k b far) = height (node d near a k b far) + (if b =? 0 then 1 else 0).
Proof.
  intros A A' H Hr. apply avl_node in A as (An & Af & Eb & Rb). pose proof (height_nonneg near) as N0. pose proof (height_nonneg far) as F0. rewrite height_node.
  assert (Cb : b = 0 \/ b = - sgn d \/ b = sgn d) by (destruct d; cbn in *; lia). destruct Cb as [Cb|[Cb|Cb]].
  1,2: rewrite settle_plain by tauto; rewrite avl_node, height_node; destruct (Z.eqb_spec b 0), d; cbn in *; try lia; repeat split; auto; lia.
  assert (E : height near' = height far + 2) by (destruct d; cbn in *; lia). destruct Hr as [->|Hr]; [destruct d; cbn in *; lia|].
  destruct (node_cases d near') as [->|(x & r & kr & br & y & ->)]; [cbn in *; lia|]. rewrite root_bal_node in Hr. rewrite height_node in *. apply avl_node in A' as (Ax & Ay & Ebr & Rbr).
  destruct (Z.eqb_spec b 0) as [B0|_]; [pose proof (sgn_cases d); lia|]. rewrite Cb in Eb, Rb. subst b.
  assert (Cr : br = sgn d \/ br = - sgn d) by (destruct d; cbn in *; lia). destruct Cr as [-> | ->].
  - rewrite settle_single, !avl_node, !height_node. destruct d; cbn in *; repeat split; auto; lia.
  - destruct (node_cases d y) as [->|(m & p & kp & bp & z & ->)]; [destruct d; cbn in *; pose proof (height_nonneg x); lia|].
    rewrite settle_double, !avl_node, !height_node in *. destruct Ay as (Am & Az & Ebp & Rbp).
    destruct (Z.eqb_spec bp (- sgn d)), (Z.eqb_spec bp (sgn d)); destruct d; cbn in *; repeat split; auto; lia.
Qed.

Lemma settle_entries d near a k b far : (b = 0 \/ b = - sgn d) \/ (b = sgn d /\ exists x r kr br y, near = node d x r kr br y /\ (br = sgn d \/ br = - sgn d /\ y <> Leaf)) ->
  entries (settle d near a k b far) = entries (node d near a k b far).
Proof.
  intros [H|(-> & x & r & kr & br & y & -> & [-> | [-> Hy]])].
  - rewrite settle_plain by done. by destruct d.
  - rewrite settle_single. destruct d; cbn; by rewrite <- ?app_assoc.
  - destruct (node_cases d y) as [->|(m & p & kp & bp & z & ->)]; [done|]. rewrite settle_double. destruct d; cbn; rewrite <- ?app_assoc; cbn; by rewrite <- ?app_assoc.
Qed.

(** *** Sorted insertion *)

Definition directed (x : list Z) (f : frame) : Prop := if side f then strcmp x (key f) < 0 else 0 < strcmp x (key f).

Lemma sorted_app_inv (l1 l2 : list (list Z)) : StronglySorted str_lt (l1 ++ l2) ->
  StronglySorted str_lt l1 /\ StronglySorted str_lt l2 /\ (forall x y, x ∈ l1 -> y ∈ l2 -> str_lt x y).
Proof.
  induction l1 as [|a l1 IH]; cbn; intros S.
  - repeat split; [constructor|done|]. intros x y Hx. by apply not_elem_of_nil in Hx.
  - inversion S as [|? ? S' F]; subst. destruct (IH S') as (S1 & S2 & L). rewrite Forall_forall in F. repeat split; [|done|].
    + constructor; [done|]. apply Forall_forall. intros y Hy. apply F. apply elem_of_app. by left.
    + intros x y Hx Hy. apply elem_of_cons in Hx as [->|Hx]; [|by apply L]. apply F. apply elem_of_app. by right.
Qed.

Lemma sorted_app_intro (l1 l2 : list (list Z)) : StronglySorted str_lt l1 -> StronglySorted str_lt l2 -> (forall x y, x ∈ l1 -> y ∈ l2 -> str_lt x y) -> StronglySorted str_lt (l1 ++ l2).
Proof.
  intros S1 S2 L. induction S1 as [|a l1 S1 IH F]; [done|]. cbn. constructor.
  - apply IH. intros x y Hx. apply L. by apply elem_of_cons; right.
  - apply Forall_forall. intros y Hy. apply elem_of_app in Hy as [Hy|Hy]; [rewrite Forall_forall in F; auto|]. apply L; [|done]. by apply elem_of_cons; left.
Qed.

(** The path splits the other strings around [x]. *)
Lemma directed_split x C t : is_str x -> sorted (plug C t) -> Forall (directed x) C ->
  Forall (fun y => str_lt y x) (before C).*1 /\ Forall (fun y => str_lt x y) (after C).*1.
Proof.
  intros Hx. revert t. induction C as [|f C IH]; intros t S D; [by split; constructor|]. inversion D as [|? ? Df D']; subst. destruct (IH (plug1 f t) S D') as [B A].
  assert (Q : keys (plug (f :: C) t) = (before C).*1 ++ keys (plug1 f t) ++ (after C).*1) by (unfold keys; change (plug (f :: C) t) with (plug C (plug1 f t)); rewrite entries_plug, !fmap_app; done).
  destruct S as [S V]. rewrite Q in S, V. apply sorted_app_inv in S as (_ & S & _). apply sorted_app_inv in S as (S & _ & _). apply Forall_app in V as [_ V]. apply Forall_app in V as [V _].
  cbn [before after]. rewrite !fmap_app, !Forall_app. unfold plug1, node, keys, directed in *. destruct (side f); cbn [entries] in *; rewrite ?fmap_app, ?fmap_cons in *; cbn [fst] in *.
  - split; [split; [done|constructor]|]. split; [|done]. apply sorted_app_inv in S as (_ & S & _). inversion S as [|? ? _ F]; subst. apply Forall_app in V as [_ V]. inversion V as [|? ? Vk Vs]; subst.
    constructor; [done|]. rewrite Forall_forall in F, Vs |- *. intros y Hy. apply (str_lt_trans x (key f) y); auto.
  - split; [|split; [constructor|done]]. split; [done|]. apply sorted_app_inv in S as (_ & _ & L). apply Forall_app in V as [Vs V]. inversion V as [|? ? Vk _]; subst. apply Forall_app.
    assert (K : str_lt (key f) x) by (unfold str_lt; rewrite strcmp_opp; lia). split; [|by repeat constructor]. rewrite Forall_forall in Vs |- *. intros y Hy. apply (str_lt_trans y (key f) x); auto. apply L; [done|]. by apply elem_of_cons; left.
Qed.

Lemma sorted_insert x n C t T : is_str x -> sorted (plug C Leaf) -> Forall (directed x) C -> entries t = [(x, n)] -> entries T = entries (plug C t) -> sorted T.
Proof.
  intros Hx S D Et ET. destruct (directed_split x C Leaf Hx S D) as [B A]. destruct S as [S V]. unfold sorted, keys in *. rewrite ET. rewrite !entries_plug, Et in *. cbn [entries app] in *. rewrite !fmap_app in *. cbn [fmap list_fmap fst].
  apply sorted_app_inv in S as (S1 & S2 & L). apply Forall_app in V as [V1 V2]. split; [|apply Forall_app; split; [done|by constructor]]. apply sorted_app_intro; [done|by constructor|].
  intros y z Hy Hz. apply elem_of_cons in Hz as [->|Hz]; [|by apply L]. rewrite Forall_forall in B. by apply B.
Qed.

(** A string on the path is not elsewhere in the tree. *)
Lemma directed_not_elsewhere x C t : is_str x -> sorted (plug C t) -> Forall (directed x) C -> x ∈ keys (plug C t) -> x ∈ keys t.
Proof.
  intros Hx S D. destruct (directed_split x C t Hx S D) as [B A]. unfold keys. rewrite entries_plug, !fmap_app, !elem_of_app. rewrite Forall_forall in B, A. intros [E|[E|E]]; [|done|].
  - pose proof (B x E) as L. unfold str_lt in L. rewrite strcmp_refl in L. lia.
  - pose proof (A x E) as L. unfold str_lt in L. rewrite strcmp_refl in L. lia.
Qed.

(** ** Trees in the heap *)

Fixpoint repr (m : gmap nat item) (p : option nat) (t : tree) : Prop :=
  match t with
  | Leaf => p = None
  | Node l a k b r => exists i, p = Some a /\ m !! a = Some i /\ str i = Some k /\ balance i = b /\ repr m (left i) l /\ repr m (right i) r
  end.

Lemma repr_node m p d near a k b far : repr m p (node d near a k b far) <->
  exists i, p = Some a /\ m !! a = Some i /\ str i = Some k /\ balance i = b /\ repr m (child d i) near /\ repr m (child (negb d) i) far.
Proof. destruct d; cbn; split; intros (i & H); exists i; tauto. Qed.

(** The frames of a context, with the pointers to the whole and to the hole. *)
Fixpoint repr_ctx (m : gmap nat item) (p : option nat) (C : list frame) (q : option nat) : Prop :=
  match C with
  | [] => p = q
  | f :: C => exists i, m !! loc f = Some i /\ str i = Some (key f) /\ balance i = bal f /\ child (side f) i = q /\ repr m (child (negb (side f)) i) (sib f) /\ repr_ctx m p C (Some (loc f))
  end.

Lemma repr_plug m p C t : repr m p (plug C t) <-> exists q, repr_ctx m p C q /\ repr m q t.
Proof.
  revert t. induction C as [|f C IH]; intros t; cbn [repr_ctx]; [split; [intros H; by exists p|by intros (q & -> & H)]|].
  change (plug (f :: C) t) with (plug C (plug1 f t)). rewrite IH. unfold plug1. split.
  - intros (q & Hc & Ht). apply repr_node in Ht as (i & -> & Hi & Hs & Hb & Hn & Hf). exists (child (side f) i). split; [|done]. exists i. done.
  - intros (q & (i & Hi & Hs & Hb & Hq & Hf & Hc) & Ht). exists (Some (loc f)). split; [done|]. apply repr_node. exists i. rewrite Hq. done.
Qed.

Lemma repr_ctx_app m p C1 C2 q : repr_ctx m p (C1 ++ C2) q <-> exists p', repr_ctx m p' C1 q /\ repr_ctx m p C2 p'.
Proof.
  revert q. induction C1 as [|f C1 IH]; intros q; cbn; [split; [intros H; by exists q|by intros (p' & -> & H)]|]. split.
  - intros (i & Hi & Hs & Hb & Hq & Hf & Hc). apply IH in Hc as (p' & H1 & H2). exists p'. split; [|done]. exists i. done.
  - intros (p' & (i & Hi & Hs & Hb & Hq & Hf & Hc) & H2). exists i. repeat split; auto. apply IH. by exists p'.
Qed.

(** Only the items of a tree matter to it. *)
Lemma repr_frame m m' p t : repr m p t -> (forall a, a ∈ locs t -> m' !! a = m !! a) -> repr m' p t.
Proof.
  revert p. induction t as [|l IHl a k b r IHr]; intros p; cbn; [done|]. intros (i & -> & Hi & Hs & Hb & Hl & Hr) E. unfold locs in E. cbn in E. rewrite fmap_app in E. cbn in E.
  exists i. rewrite E by (apply elem_of_app; right; by apply elem_of_cons; left). repeat split; auto.
  - apply IHl; [done|]. intros c Hc. apply E, elem_of_app. by left.
  - apply IHr; [done|]. intros c Hc. apply E, elem_of_app. right. by apply elem_of_cons; right.
Qed.

Definition ctx_locs (C : list frame) : list nat := concat ((fun f => loc f :: locs (sib f)) <$> C).

Lemma repr_ctx_frame m m' p C q : repr_ctx m p C q -> (forall a, a ∈ ctx_locs C -> m' !! a = m !! a) -> repr_ctx m' p C q.
Proof.
  revert q. induction C as [|f C IH]; intros q; cbn; [done|]. intros (i & Hi & Hs & Hb & Hq & Hf & Hc) E. unfold ctx_locs in E. cbn in E.
  exists i. rewrite E by (by apply elem_of_cons; left). repeat split; auto.
  - apply repr_frame with m; [done|]. intros a Ha. apply E. apply elem_of_cons; right. apply elem_of_app. by left.
  - apply IH; [done|]. intros a Ha. apply E. apply elem_of_cons; right. apply elem_of_app. by right.
Qed.

Lemma locs_node d near a k b far : locs (node d near a k b far) ≡ₚ a :: locs near ++ locs far.
Proof. unfold locs. destruct d; cbn; rewrite fmap_app, fmap_cons; cbn; [by rewrite Permutation_middle|]. rewrite <- Permutation_middle. constructor. apply Permutation_app_comm. Qed.

Lemma locs_plug C t : locs (plug C t) ≡ₚ locs t ++ ctx_locs C.
Proof.
  revert t. induction C as [|f C IH]; intros t; [cbn; by rewrite app_nil_r|]. change (plug (f :: C) t) with (plug C (plug1 f t)). rewrite IH. unfold plug1. rewrite locs_node. unfold ctx_locs. cbn.
  rewrite <- app_assoc. apply Permutation_middle.
Qed.

(** What the tree operations leave alone. *)
Definition data (i : item) : option (list Z) * Z * option nat * option nat := (str i, count i, qlink i, top i).

Lemma data_insert (m : gmap nat item) a i j : m !! a = Some i -> data j = data i -> data <$> <[a := j]> m = data <$> m.
Proof. intros E D. rewrite fmap_insert, D. apply insert_id. by rewrite lookup_fmap, E. Qed.

Lemma ctx_locs_app C1 C2 : ctx_locs (C1 ++ C2) = ctx_locs C1 ++ ctx_locs C2.
Proof. unfold ctx_locs. by rewrite fmap_app, concat_app. Qed.

Lemma loc_in_ctx f C : f ∈ C -> loc f ∈ ctx_locs C.
Proof. induction C as [|g C IH]; [by rewrite elem_of_nil|]. unfold ctx_locs in *. cbn. rewrite !elem_of_cons, elem_of_app. intros [->|E]; [by left|right; right; by apply IH]. Qed.

Lemma repr_insert m p t a j : repr m p t -> a ∉ locs t -> repr (<[a := j]> m) p t.
Proof. intros H N. apply repr_frame with m; [done|]. intros c Hc. apply lookup_insert_ne. by intros ->. Qed.

Lemma repr_ctx_insert m p C q a j : repr_ctx m p C q -> a ∉ ctx_locs C -> repr_ctx (<[a := j]> m) p C q.
Proof. intros H N. apply repr_ctx_frame with m; [done|]. intros c Hc. apply lookup_insert_ne. by intros ->. Qed.

Lemma child_put_child d q i : child d (put_child d q i) = q /\ child (negb d) (put_child d q i) = child (negb d) i /\ str (put_child d q i) = str i /\ balance (put_child d q i) = balance i /\ data (put_child d q i) = data i.
Proof. by destruct d. Qed.

Lemma child_put_balance d b i : child d (put_balance b i) = child d i /\ str (put_balance b i) = str i /\ balance (put_balance b i) = b /\ data (put_balance b i) = data i.
Proof. by destruct d. Qed.

(** Assigning to the pointer that leads to the hole. *)
Lemma relink m p f C q q' i : m !! loc f = Some i -> NoDup (ctx_locs (f :: C)) -> repr_ctx m p (f :: C) q -> repr_ctx (<[loc f := put_child (side f) q' i]> m) p (f :: C) q'.
Proof.
  intros Hi ND (i' & Hi' & Hs & Hb & Hq & Hf & Hc). rewrite Hi in Hi'. injection Hi' as <-. unfold ctx_locs in ND. cbn in ND. apply NoDup_cons in ND as [N ND]. rewrite elem_of_app in N.
  destruct (child_put_child (side f) q' i) as (E1 & E2 & E3 & E4 & _). exists (put_child (side f) q' i). rewrite lookup_insert_eq, E1, E2, E3, E4. repeat split; auto.
  - apply repr_insert; [done|]. tauto.
  - apply repr_ctx_insert; [done|]. tauto.
Qed.

(** A6. *)
Lemma adjust_spec P : forall fuel m x r n, repr_ctx m r P (Some n) -> Forall (directed x) P -> NoDup (ctx_locs P) -> n ∉ ctx_locs P -> (length P < fuel)%nat ->
  exists m', adjust fuel m x r n = Some m' /\ repr_ctx m' r (lean <$> P) (Some n) /\ (forall a, a ∉ loc <$> P -> m' !! a = m !! a) /\ data <$> m' = data <$> m.
Proof.
  induction P as [|f P IH] using rev_ind; intros fuel m x r n H Dx ND Nn Hf; (destruct fuel as [|fuel]; [lia|]); cbn [adjust].
  - rewrite decide_True by done. by exists m.
  - apply repr_ctx_app in H as (r' & H1 & (i & Hi & Hs & Hb & Hq & Hsib & Hr)). cbn in Hr. subst r. rewrite ctx_locs_app in ND, Nn. apply NoDup_app in ND as (ND1 & Dis & ND2). unfold ctx_locs in ND2, Nn, Dis. cbn in ND2, Nn, Dis. rewrite app_nil_r in *. fold (ctx_locs P) in *.
    apply NoDup_cons in ND2 as [Nf _]. rewrite elem_of_app, elem_of_cons in Nn. apply Forall_app in Dx as [DP Df]. inversion Df as [|? ? Df' _]; subst. rewrite length_app in Hf. cbn in Hf.
    assert (NfP : loc f ∉ ctx_locs P) by (intros E; apply (Dis _ E); by apply elem_of_cons; left).
    rewrite decide_False by (intros [= E]; subst n; tauto). cbn [obind]. rewrite Hi. cbn [obind]. rewrite Hs. cbn [obind].
    set (j := put_balance (sgn (side f)) i). destruct (child_put_balance (side f) (sgn (side f)) i) as (E1 & E2 & E3 & E4). destruct (child_put_balance (negb (side f)) (sgn (side f)) i) as (E5 & _). fold j in E1, E2, E3, E4, E5.
    destruct (IH fuel (<[loc f := j]> m) x (child (side f) i) n) as (m' & A & C' & Fr & Da); [by apply repr_ctx_insert|done|done|tauto|lia|].
    exists m'. split.
    { rewrite <- A. unfold directed in Df'. unfold j, child, sgn in *. destruct (side f); destruct (Z.eqb_spec (strcmp x (key f)) 0), (Z.ltb_spec (strcmp x (key f)) 0); try lia; done. }
    clearbody j. assert (Lf : m' !! loc f = Some j). { rewrite Fr, lookup_insert_eq; [done|]. intros E. apply NfP. apply list_elem_of_fmap in E as (g & Eg & Hg). rewrite Eg. by apply loc_in_ctx. }
    split; [|split].
    + rewrite fmap_app. apply repr_ctx_app. exists (child (side f) i). split; [done|]. exists j. cbn. rewrite E2, E3, E1, E5. repeat split; auto. apply repr_frame with m; [done|]. intros a Ha.
      rewrite Fr; [apply lookup_insert_ne; by intros <-|]. intros E. apply list_elem_of_fmap in E as (g & Eg & Hg). rewrite Eg in Ha. apply (Dis _ (loc_in_ctx g P Hg)). by apply elem_of_cons; right.
    + intros a Ha. rewrite fmap_app, elem_of_app in Ha. cbn in Ha. rewrite Fr by tauto. apply lookup_insert_ne. intros <-. apply Ha. right. by apply elem_of_cons; left.
    + rewrite Da. by apply data_insert with i.
Qed.

(** A8 and A9. *)
Lemma update_some m p i (f : item -> item) : m !! p = Some i -> update m p f = Some (<[p := f i]> m).
Proof. intros E. unfold update. by rewrite E. Qed.

Ltac lookups := repeat first [rewrite lookup_insert_eq|rewrite lookup_insert_ne by congruence].
Ltac run_updates := repeat (erewrite update_some by (lookups; first [eassumption|reflexivity]); cbn [obind]).
(** A subtree that the updates do not touch. *)
Ltac untouched := eapply repr_frame; [eassumption|]; let a := fresh in let Ha := fresh in intros a Ha; rewrite ?lookup_insert_ne by (intros <-; contradiction); reflexivity.

Lemma single_rotation_spec m d s r x kr y k far i j : m !! s = Some i -> str i = Some k -> m !! r = Some j -> str j = Some kr ->
  s <> r -> s ∉ locs x -> s ∉ locs y -> s ∉ locs far -> r ∉ locs x -> r ∉ locs y -> r ∉ locs far ->
  repr m (child (negb d) i) far -> repr m (child d j) x -> repr m (child (negb d) j) y ->
  exists m', single_rotation m s r (sgn d) = Some (r, m') /\ repr m' (Some r) (node d x r kr 0 (node d y s k 0 far)) /\
    (forall a, a <> s -> a <> r -> m' !! a = m !! a) /\ data <$> m' = data <$> m.
Proof.
  intros Hs Ks Hr Kr Nsr. intros. unfold single_rotation. rewrite Hr. cbn [obind].
  destruct d; cbn [sgn Z.ltb Z.compare] in *; run_updates; eexists; (split; [reflexivity|]); (split; [|split; [intros a N1 N2; by lookups|]]).
  1,3: apply repr_node; eexists; (split; [reflexivity|]); (split; [by lookups|]); (split; [done|]); (split; [done|]); (split; [cbn [child negb left right put_left put_right put_balance] in *; untouched|]);
    apply repr_node; eexists; (split; [reflexivity|]); (split; [by lookups|]); (split; [done|]); (split; [done|]); split; cbn [child negb left right put_left put_right put_balance] in *; untouched.
  all: repeat (erewrite data_insert; [|by lookups|done]); done.
Qed.

Lemma double_rotation_spec m d s r p x kr y kp bp z k far i j l : m !! s = Some i -> str i = Some k -> m !! r = Some j -> str j = Some kr -> m !! p = Some l -> str l = Some kp -> balance l = bp ->
  s <> r -> s <> p -> r <> p ->
  (forall a, a = s \/ a = r \/ a = p -> a ∉ locs x /\ a ∉ locs y /\ a ∉ locs z /\ a ∉ locs far) ->
  repr m (child (negb d) i) far -> repr m (child d j) x -> child (negb d) j = Some p -> repr m (child d l) y -> repr m (child (negb d) l) z ->
  exists m', double_rotation m s r (sgn d) = Some (p, m') /\
    repr m' (Some p) (node d (node d x r kr (if bp =? - sgn d then sgn d else 0) y) p kp 0 (node d z s k (if bp =? sgn d then - sgn d else 0) far)) /\
    (forall a, a <> s -> a <> r -> a <> p -> m' !! a = m !! a) /\ data <$> m' = data <$> m.
Proof.
  intros Hs Ks Hr Kr Hp Kp Ebp Nsr Nsp Nrp Dis Rf Rx Ep Ry Rz. destruct (Dis s) as (? & ? & ? & ?); [tauto|]. destruct (Dis r) as (? & ? & ? & ?); [tauto|]. destruct (Dis p) as (? & ? & ? & ?); [tauto|]. clear Dis.
  unfold double_rotation. rewrite Hr. cbn [obind].
  destruct d; cbn [sgn Z.ltb Z.compare Z.opp child negb] in *; rewrite Ep; cbn [obind]; rewrite Hp; cbn [obind]; rewrite Ebp; run_updates;
    change (- (-1)) with 1; change (Z.opp 1) with (-1); destruct (Z.eqb_spec bp (-1)), (Z.eqb_spec bp 1); try lia; cbn [obind]; run_updates; eexists; (split; [reflexivity|]); (split; [|split; [intros a N1 N2 N3; by lookups|repeat (erewrite data_insert; [|by lookups|done]); done]]).
  all: apply repr_node; eexists; (split; [reflexivity|]); (split; [by lookups|]); (split; [done|]); (split; [done|]); split; apply repr_node; eexists; (split; [reflexivity|]); (split; [by lookups|]); (split; [done|]); (split; [done|]); split;
    cbn [child negb left right put_left put_right put_balance] in *; untouched.
Qed.

Lemma repr_root_in m s t : repr m (Some s) t -> s ∈ locs t.
Proof. destruct t as [|l a k b r]; cbn; [done|]. intros (i & [= ->] & _). unfold locs. cbn. rewrite fmap_app, elem_of_app. right. by apply elem_of_cons; left. Qed.

(** [t], the pointer [t->right] or [t->left], and the context above it. *)
Definition parent_of (root : nat) (C : list frame) : nat := match C with [] => root | f :: _ => loc f end.
Definition holds (m : gmap nat item) (root : nat) (C : list frame) (q : option nat) : Prop :=
  exists i, m !! root = Some i /\ repr_ctx m (right i) C q.

Lemma holds_frame m m' root C q : holds m root C q -> (forall a, a ∈ root :: ctx_locs C -> m' !! a = m !! a) -> holds m' root C q.
Proof.
  intros (i & Hi & Hc) E. exists i. split; [rewrite E; [done|by apply elem_of_cons; left]|]. apply repr_ctx_frame with m; [done|]. intros a Ha. apply E. by apply elem_of_cons; right.
Qed.

(** A10. *)
Lemma relink_parent m root C s p : holds m root C (Some s) -> NoDup (root :: ctx_locs C) -> s ∉ ctx_locs C ->
  exists i, m !! parent_of root C = Some i /\
    let j := if decide (right i = Some s) then put_right (Some p) i else put_left (Some p) i in
    holds (<[parent_of root C := j]> m) root C (Some p) /\ data j = data i.
Proof.
  intros (ri & Hri & Hc) ND Ns. apply NoDup_cons in ND as [Nr ND]. destruct C as [|f C]; cbn [parent_of].
  - exists ri. split; [done|]. cbn in Hc. cbv zeta. rewrite decide_True by done. split; [|done]. exists (put_right (Some p) ri). by rewrite lookup_insert_eq.
  - pose proof Hc as (i & Hi & Hs & Hb & Hq & Hsib & _). exists i. split; [done|]. cbv zeta.
    assert (E : (if decide (right i = Some s) then put_right (Some p) i else put_left (Some p) i) = put_child (side f) (Some p) i).
    { unfold put_child, child in *. destruct (side f); [rewrite decide_False; [done|]|by rewrite decide_True]. intros E. cbn in Hsib. rewrite E in Hsib. apply repr_root_in in Hsib.
      apply Ns. unfold ctx_locs. cbn. rewrite elem_of_cons, elem_of_app. tauto. }
    rewrite E. split; [|apply child_put_child]. exists ri. split; [rewrite lookup_insert_ne; [done|]; intros Er; apply Nr; rewrite <- Er; apply loc_in_ctx; by apply elem_of_cons; left|]. by apply relink with (Some s).
Qed.

Definition needs_rotation (d : bool) (b : Z) (near : tree) : Prop :=
  b = sgn d /\ exists x r kr br y, near = node d x r kr br y /\ (br = sgn d \/ br = - sgn d /\ y <> Leaf).

(** A8 or A9, whichever applies. *)
Lemma rotation_spec m d s i k near far : m !! s = Some i -> str i = Some k -> repr m (child d i) near -> repr m (child (negb d) i) far ->
  NoDup (s :: locs near ++ locs far) -> needs_rotation d (balance i) near ->
  exists r j p m1, child d i = Some r /\ m !! r = Some j /\
    (if balance j =? sgn d then single_rotation m s r (sgn d) else double_rotation m s r (sgn d)) = Some (p, m1) /\
    repr m1 (Some p) (settle d near s k (balance i) far) /\ (forall a, a ∉ s :: locs near -> m1 !! a = m !! a) /\ data <$> m1 = data <$> m.
Proof.
  intros Hi Hk Rn Rf ND (Hb & x & r & kr & br & y & -> & Hbr). rewrite Hb. apply repr_node in Rn as (j & Er & Hj & Hkj & Hbj & Rx & Ry). exists r, j. rewrite Hbj. rewrite locs_node in ND. cbn in ND.
  rewrite !NoDup_cons, !elem_of_cons, !elem_of_app in ND. destruct ND as (Ns & Nr & ND). rewrite !NoDup_app in ND. destruct ND as ((_ & Dxy & NDy) & Dxf & _). destruct Hbr as [-> | [-> Hy]].
  - rewrite Z.eqb_refl. destruct (single_rotation_spec m d s r x kr y k far i j) as (m1 & E & R1 & Fr & Da); auto; try tauto; try (intros ->; tauto).
    exists r, m1. rewrite settle_single. repeat split; auto. intros a Ha. rewrite elem_of_cons, locs_node, elem_of_cons in Ha. apply Fr; tauto.
  - destruct (Z.eqb_spec (- sgn d) (sgn d)) as [E0|_]; [pose proof (sgn_cases d); lia|]. destruct (node_cases d y) as [->|(u & p & kp & bp & v & ->)]; [done|]. apply repr_node in Ry as (l & Ep & Hl & Hkl & Hbl & Ru & Rv).
    rewrite locs_node in *. setoid_rewrite locs_node in Dxy. setoid_rewrite elem_of_app in Dxf. setoid_rewrite locs_node in Dxf. setoid_rewrite elem_of_cons in Dxy. setoid_rewrite elem_of_app in Dxy. setoid_rewrite elem_of_cons in Dxf. setoid_rewrite elem_of_app in Dxf.
    apply NoDup_cons in NDy as [Np _]. rewrite !elem_of_cons, !elem_of_app in *.
    destruct (double_rotation_spec m d s r p x kr u kp bp v k far i j l) as (m1 & E & R1 & Fr & Da); auto; try tauto; try (intros ->; tauto).
    { intros a [-> | [-> | ->]]; repeat split; intros Ha; try tauto; [apply (Dxy p Ha); tauto|apply (Dxf p); tauto]. }
    exists p, m1. rewrite settle_double. repeat split; auto. intros a Ha. rewrite elem_of_cons, locs_node, elem_of_cons, elem_of_app, locs_node, elem_of_cons in Ha. apply Fr; tauto.
Qed.

(** A7 to A10. *)
Lemma rebalance_spec m root C d s i k near far : holds m root C (Some s) -> m !! s = Some i -> str i = Some k -> repr m (child d i) near -> repr m (child (negb d) i) far ->
  NoDup (root :: s :: locs near ++ locs far ++ ctx_locs C) -> (balance i = 0 \/ balance i = - sgn d) \/ needs_rotation d (balance i) near ->
  exists m', rebalance m (parent_of root C) s (child d i) (sgn d) = Some m' /\
    (exists ri, m' !! root = Some ri /\ repr m' (right ri) (plug C (settle d near s k (balance i) far))) /\ data <$> m' = data <$> m.
Proof.
  intros Hh Hi Hk Rn Rf ND Hc. rewrite app_assoc in ND. apply NoDup_cons in ND as [Nr ND]. rewrite elem_of_cons, elem_of_app in Nr. pose proof ND as ND0. apply NoDup_cons in ND as [Ns ND]. rewrite elem_of_app in Ns.
  apply NoDup_app in ND as (NDs & Dis & NDC). unfold rebalance. rewrite Hi. cbn [obind]. destruct Hc as [Hc|Hc].
  - replace ((balance i =? 0) || (balance i =? - sgn d)) with true by (symmetry; apply orb_true_iff; rewrite !Z.eqb_eq; tauto). eexists. split; [reflexivity|]. destruct (child_put_balance d (balance i + sgn d) i) as (E1 & E2 & E3 & E4). destruct (child_put_balance (negb d) (balance i + sgn d) i) as (E5 & _).
    split; [|by apply data_insert with i]. destruct Hh as (ri & Hri & Hctx). exists ri. split; [rewrite lookup_insert_ne; [done|intros ->; tauto]|]. apply repr_plug. exists (Some s). split; [apply repr_ctx_insert; tauto|].
    rewrite settle_plain by done. apply repr_node. eexists. split; [done|]. split; [apply lookup_insert_eq|]. rewrite E1, E2, E3, E5, elem_of_app in *. repeat split; auto; apply repr_insert; tauto.
  - destruct (rotation_spec m d s i k near far Hi Hk Rn Rf) as (r & j & p & m1 & Er & Hj & Hrot & R1 & Fr & Da); [by apply NoDup_cons; tauto|done|].
    assert (E : (balance i =? 0) || (balance i =? - sgn d) = false) by (destruct Hc as (-> & _); apply orb_false_iff; rewrite !Z.eqb_neq; pose proof (sgn_cases d); lia). rewrite E, Er. cbn [obind]. rewrite Hj. cbn [obind]. rewrite Hrot. cbn [obind].
    assert (Hh1 : holds m1 root C (Some s)).
    { apply holds_frame with m; [done|]. intros a Ha. apply Fr. rewrite elem_of_cons in Ha |- *. intros Hs. destruct Ha as [->|Ha], Hs as [->|Hs]; try tauto; [rewrite elem_of_app in Nr; tauto|]. apply (Dis a); [by apply elem_of_app; left|done]. }
    destruct (relink_parent m1 root C s p Hh1) as (it & Hit & Hh2 & Dj); [by apply NoDup_cons; tauto|tauto|]. rewrite Hit. cbn [obind]. cbv zeta in Hh2, Dj.
    exists (<[parent_of root C := if decide (right it = Some s) then put_right (Some p) it else put_left (Some p) it]> m1). split; [by destruct (decide (right it = Some s))|].
    split; [|rewrite data_insert with (i := it); done]. destruct Hh2 as (ri & Hri & Hctx). exists ri. split; [done|]. apply repr_plug. exists (Some p). split; [done|]. apply repr_insert; [done|].
    assert (Pl : locs (settle d near s k (balance i) far) ≡ₚ s :: locs near ++ locs far).
    { destruct Hc as (Hb & Hx). unfold locs at 1. rewrite settle_entries by (right; done). by rewrite <- locs_node with (d := d) (k := k) (b := balance i). }
    rewrite Pl, elem_of_cons. intros Hp. destruct C as [|f C]; cbn [parent_of] in Hp; [rewrite elem_of_app in *; intuition congruence|].
    assert (Hf : loc f ∈ ctx_locs (f :: C)) by (apply loc_in_ctx; by apply elem_of_cons; left). destruct Hp as [E1|Hp]; [rewrite E1 in Hf; tauto|by apply (Dis (loc f))].
Qed.

(** ** Insertion *)

Lemma below_length (l : list nat) n : NoDup l -> (forall a, a ∈ l -> (a < n)%nat) -> (length l <= n)%nat.
Proof.
  intros ND H. rewrite <- (length_seq n 0). apply submseteq_length, NoDup_submseteq; [done|]. intros a Ha. apply elem_of_seq. specialize (H a Ha). lia.
Qed.

Lemma frames_length P : (length P <= length (ctx_locs P))%nat.
Proof. unfold ctx_locs. induction P as [|f P IH]; cbn; [lia|]. rewrite length_app. lia. Qed.

Lemma lean_around P C : before ((lean <$> P) ++ C) = before (P ++ C) /\ after ((lean <$> P) ++ C) = after (P ++ C).
Proof. induction P as [|f P [IH1 IH2]]; cbn; [done|]. by rewrite IH1, IH2. Qed.

(** Either no rotation is needed or the grown side has the shape for one. *)
Lemma grown_shape d near near' a k b far : avl (node d near a k b far) -> avl near' -> height near' = height near + 1 -> near = Leaf \/ root_bal near' <> 0 ->
  (b = 0 \/ b = - sgn d) \/ needs_rotation d b near'.
Proof.
  intros A A' H Hr. apply avl_node in A as (An & Af & Eb & Rb). pose proof (height_nonneg near). pose proof (height_nonneg far). assert (Cb : b = 0 \/ b = - sgn d \/ b = sgn d) by (destruct d; cbn in *; lia).
  destruct Cb as [|[|Cb]]; [tauto|tauto|right]. split; [done|]. destruct Hr as [->|Hr]; [destruct d; cbn in *; lia|].
  destruct (node_cases d near') as [->|(x & r & kr & br & y & ->)]; [cbn in *; lia|]. exists x, r, kr, br, y. split; [done|]. rewrite root_bal_node in Hr. apply avl_node in A' as (Ax & Ay & Ebr & Rbr).
  assert (Cr : br = sgn d \/ br = - sgn d) by (destruct d; cbn in *; lia). destruct Cr as [|Cr]; [by left|right]. split; [done|]. intros ->. pose proof (height_nonneg x). destruct d; cbn in *; lia.
Qed.

Section Insert.
Context (h : heap) (x : list Z) (root : nat) (P : list frame) (f : frame) (C : list frame) (ri : item).
Notation m := (items h).
Notation n := (brk h).
Hypotheses (Hri : m !! root = Some ri) (Hctx : repr_ctx m (right ri) (P ++ f :: C) None)
  (ND : NoDup (root :: ctx_locs (P ++ f :: C))) (Below : forall a, a ∈ root :: ctx_locs (P ++ f :: C) -> (a < n)%nat)
  (Dx : Forall (directed x) (P ++ f :: C)) (HP : Forall (fun g => bal g = 0) P)
  (Avl : avl (plug (P ++ f :: C) Leaf)) (Hbal : C = [] \/ bal f <> 0).
Definition new_node : tree := Node Leaf n x 0 Leaf.
Definition grown : tree := plug (lean <$> P) new_node.
Definition inserted : tree := plug C (settle (side f) grown (loc f) (key f) (bal f) (sib f)).

Lemma avl_split : avl (plug C (plug1 f (plug P Leaf))).
Proof. rewrite plug_app in Avl. exact Avl. Qed.

Lemma grown_facts : avl grown /\ height grown = height (plug P Leaf) + 1 /\ (plug P Leaf = Leaf \/ root_bal grown <> 0).
Proof.
  assert (A : avl (plug P Leaf)) by (pose proof (avl_inner _ _ avl_split) as A; apply avl_node in A; tauto).
  destruct (grow_path P Leaf new_node HP A) as [A1 H1]; [repeat split; auto; cbn; lia|done|]. split; [done|]. split; [done|]. unfold grown. destruct P as [|g P' _] using rev_ind; [by left|right].
  rewrite fmap_app, plug_app. change (plug (lean <$> [g]) ?t) with (plug1 (lean g) t). unfold plug1. rewrite root_bal_node. cbn. apply sgn_cases.
Qed.

Lemma inserted_avl : avl inserted.
Proof.
  destruct grown_facts as (A1 & H1 & R1). pose proof (avl_inner _ _ avl_split) as A. unfold plug1 in A. destruct (settle_avl _ _ _ _ _ _ _ A A1 H1 R1) as [A2 H2]. unfold inserted.
  destruct Hbal as [->|Hb]; [done|]. destruct (Z.eqb_spec (bal f) 0); [done|]. rewrite Z.add_0_r in H2. apply (avl_replace C _ _ avl_split A2 H2).
Qed.

Lemma inserted_shape : (bal f = 0 \/ bal f = - sgn (side f)) \/ needs_rotation (side f) (bal f) grown.
Proof. destruct grown_facts as (A1 & H1 & R1). pose proof (avl_inner _ _ avl_split) as A. exact (grown_shape _ _ _ _ _ _ _ A A1 H1 R1). Qed.

Lemma inserted_entries : entries inserted = before (P ++ f :: C) ++ (x, n) :: after (P ++ f :: C).
Proof.
  unfold inserted. rewrite entries_plug, settle_entries by (pose proof inserted_shape as S; unfold needs_rotation in S; tauto). change (node (side f) grown (loc f) (key f) (bal f) (sib f)) with (plug1 f grown).
  rewrite <- entries_plug. change (plug C (plug1 f grown)) with (plug (f :: C) grown). unfold grown. rewrite <- plug_app, entries_plug. destruct (lean_around P (f :: C)) as [-> ->]. done.
Qed.

Lemma fresh_address : n ∉ root :: ctx_locs (P ++ f :: C).
Proof. intros E. specialize (Below n E). lia. Qed.

(** A5: the new item linked below the last item of the path. *)
Lemma linked g rest : P ++ f :: C = g :: rest -> exists i m2,
  <[n := fresh_item (Some x)]> m !! loc g = Some i /\ m2 = <[loc g := put_child (side g) (Some n) i]> (<[n := fresh_item (Some x)]> m) /\
  m2 !! root = Some ri /\ repr_ctx m2 (right ri) (P ++ f :: C) (Some n) /\ m2 !! n = Some (fresh_item (Some x)) /\ data <$> m2 = <[n := data (fresh_item (Some x))]> (data <$> m).
Proof.
  intros E. pose proof fresh_address as Nn. rewrite elem_of_cons in Nn. pose proof ND as ND0. apply NoDup_cons in ND0 as [Nr ND']. assert (Hc : repr_ctx (<[n := fresh_item (Some x)]> m) (right ri) (P ++ f :: C) None) by (apply repr_ctx_insert; tauto).
  rewrite E in *. assert (Hg : loc g ∈ ctx_locs (g :: rest)) by (apply loc_in_ctx; by apply elem_of_cons; left). pose proof Hc as (i & Hi & _). exists i. eexists. split; [done|]. split; [done|].
  split; [rewrite !lookup_insert_ne; [done|intros Er; tauto|intros Er; congruence]|]. split; [by apply relink with None|]. split; [rewrite lookup_insert_ne, lookup_insert_eq; [done|intros Er; rewrite Er in Hg; tauto]|].
  rewrite data_insert with (i := i); [apply fmap_insert|done|apply child_put_child].
Qed.

Lemma insert_item_spec p a g rest : P ++ f :: C = g :: rest -> loc g = p -> (a <? 0) = side g ->
  exists m', insert_item h x (parent_of root C) (loc f) p a = Some (n, mk_heap m' (succs h) (S n)) /\
    (exists ri', m' !! root = Some ri' /\ repr m' (right ri') inserted) /\ data <$> m' = <[n := data (fresh_item (Some x))]> (data <$> m).
Proof.
  intros E <- Ea. destruct (linked g rest E) as (i & m2 & Hi & Em2 & Hri2 & Hc2 & Hn2 & Da2). pose proof fresh_address as Nn. rewrite elem_of_cons, ctx_locs_app, elem_of_app in Nn.
  pose proof ND as ND'. rewrite ctx_locs_app in ND'. unfold ctx_locs at 2 in ND'. cbn in ND'. fold (ctx_locs C) in ND'. unfold ctx_locs at 2 in Nn. cbn in Nn. fold (ctx_locs C) in Nn. rewrite elem_of_cons, elem_of_app in Nn.
  apply NoDup_cons in ND' as [Nr ND']. apply NoDup_app in ND' as (NDP & DisP & NDf). apply NoDup_cons in NDf as [Nf NDf]. apply NoDup_app in NDf as (NDs & DisS & NDC). rewrite elem_of_app, elem_of_cons, elem_of_app in Nr. rewrite elem_of_app in Nf.
  assert (LP : forall c, c ∈ loc <$> P -> c ∈ ctx_locs P) by (intros c Hc; apply list_elem_of_fmap in Hc as (g' & -> & Hg'); by apply loc_in_ctx).
  apply repr_ctx_app in Hc2 as (r & Hc1 & (j & Hj & Hkj & Hbj & Hr & Hsib & HC)). pose proof Dx as Dx'. apply Forall_app in Dx' as [DP DfC]. apply Forall_cons in DfC as [Df _].
  destruct (adjust_spec P (S n) m2 x r n Hc1 DP NDP) as (m3 & Ha & Hc3 & Fr & Da3).
  { intros K. apply Nn. tauto. }
  { pose proof (frames_length P). assert (length (ctx_locs P) <= n)%nat by (apply below_length; [done|]; intros c Hc; apply Below, elem_of_cons; right; rewrite ctx_locs_app; by apply elem_of_app; left). lia. }
  assert (Fs : forall c, c ∈ loc f :: locs (sib f) ++ ctx_locs C -> m3 !! c = m2 !! c) by (intros c Hc; apply Fr; intros K; apply (DisP c); [by apply LP|done]).
  assert (Hj3 : m3 !! loc f = Some j) by (rewrite Fs; [done|by apply elem_of_cons; left]).
  assert (Hri3 : m3 !! root = Some ri) by (rewrite Fr; [done|intros K; apply LP in K; tauto]).
  assert (Rn : repr m3 (child (side f) j) grown).
  { rewrite Hr. apply repr_plug. exists (Some n). split; [done|]. exists (fresh_item (Some x)). rewrite Fr by (intros K; apply LP in K; tauto). repeat split; auto. }
  assert (Rf : repr m3 (child (negb (side f)) j) (sib f)) by (apply repr_frame with m2; [done|]; intros c Hc; apply Fs, elem_of_cons; right; by apply elem_of_app; left).
  assert (Hh : holds m3 root C (Some (loc f))) by (exists ri; split; [done|]; apply repr_ctx_frame with m2; [done|]; intros c Hc; apply Fs, elem_of_cons; right; by apply elem_of_app; right).
  destruct (rebalance_spec m3 root C (side f) (loc f) j (key f) grown (sib f) Hh Hj3 Hkj Rn Rf) as (m' & Hreb & Hrepr & Da').
  { unfold grown. rewrite locs_plug. change (locs new_node) with [n]. assert (El : ctx_locs (lean <$> P) = ctx_locs P) by (unfold ctx_locs; by rewrite <- list_fmap_compose). rewrite El.
    assert (Pm : root :: loc f :: ([n] ++ ctx_locs P) ++ locs (sib f) ++ ctx_locs C ≡ₚ n :: root :: ctx_locs (P ++ f :: C)).
    { rewrite ctx_locs_app. unfold ctx_locs at 4. cbn. fold (ctx_locs C). rewrite <- Permutation_middle. etrans; [apply perm_skip, perm_swap|apply perm_swap]. }
    rewrite Pm. apply NoDup_cons. split; [exact fresh_address|exact ND]. }
  { rewrite Hbj. exact inserted_shape. }
  exists m'. split; [|split; [|by rewrite Da', Da3]].
  - unfold insert_item, new_item. cbn [items succs brk].
    assert (Eu : (if a <? 0 then update (<[n:=fresh_item (Some x)]> m) (loc g) (put_left (Some n)) else update (<[n:=fresh_item (Some x)]> m) (loc g) (put_right (Some n))) = Some m2)
      by (rewrite Ea, Em2; unfold update; rewrite Hi; by destruct (side g)).
    assert (Es : (if strcmp x (key f) <? 0 then (left j, -1) else (right j, 1)) = (child (side f) j, sgn (side f)) /\ (strcmp x (key f) =? 0) = false).
    { unfold directed in Df. destruct (side f), (Z.ltb_spec (strcmp x (key f)) 0), (Z.eqb_spec (strcmp x (key f)) 0); try lia; done. }
    destruct Es as [Es1 Es2]. rewrite Eu. cbn [obind]. rewrite Hj. cbn [obind]. rewrite Hkj. cbn [obind]. rewrite Es2, Es1, Hr, Ha. cbn [obind]. rewrite Hr in Hreb. rewrite Hreb. done.
  - unfold inserted. rewrite <- Hbj. exact Hrepr.
Qed.
End Insert.

(** ** Search *)

(** The tree below the header at [root], and the addresses in use. *)
Record wf (h : heap) (root : nat) (T : tree) : Prop := {
  wf_repr : exists ri, items h !! root = Some ri /\ repr (items h) (right ri) T;
  wf_nodup : NoDup (root :: locs T);
  wf_below : forall a, is_Some (items h !! a) -> (a < brk h)%nat;
  wf_sorted : sorted T;
  wf_avl : avl T }.

(** What [search_item] promises: the address of the string's item, which is
    new exactly when the string was not in the tree. *)
Inductive search_result (h : heap) (root : nat) (T : tree) (x : list Z) : nat -> heap -> tree -> Prop :=
  | search_found a : (x, a) ∈ entries T -> search_result h root T x a h T
  | search_inserted m' T' l1 l2 :
      entries T = l1 ++ l2 -> entries T' = l1 ++ (x, brk h) :: l2 -> x ∉ keys T ->
      wf (mk_heap m' (succs h) (S (brk h))) root T' ->
      data <$> m' = <[brk h := data (fresh_item (Some x))]> (data <$> items h) ->
      search_result h root T x (brk h) (mk_heap m' (succs h) (S (brk h))) T'.

Lemma repr_dom m p t a : repr m p t -> a ∈ locs t -> is_Some (m !! a).
Proof.
  revert p. induction t as [|l IHl b k bal r IHr]; intros p; cbn; [by rewrite elem_of_nil|]. intros (i & -> & Hi & _ & _ & Hl & Hr) E. unfold locs in E. cbn in E. rewrite fmap_app, elem_of_app in E. cbn in E. rewrite elem_of_cons in E.
  destruct E as [E|[->|E]]; [by apply IHl with (left i)|by eexists|by apply IHr with (right i)].
Qed.

Lemma wf_addresses h root T a : wf h root T -> a ∈ root :: locs T -> (a < brk h)%nat.
Proof.
  intros [(ri & Hri & Hr) _ B _ _]. rewrite elem_of_cons. intros [->|E]; apply B; [by eexists|]. by apply repr_dom with (right ri) T.
Qed.

Lemma data_dom (m m' : gmap nat item) k d : data <$> m' = <[k := d]> (data <$> m) -> forall a, is_Some (m' !! a) -> a = k \/ is_Some (m !! a).
Proof.
  intros E a [i Hi]. destruct (decide (a = k)) as [->|N]; [by left|right]. assert (F : (data <$> m') !! a = Some (data i)) by (by rewrite lookup_fmap, Hi).
  rewrite E, lookup_insert_ne, lookup_fmap in F by done. destruct (m !! a); [done|discriminate].
Qed.

Lemma directed_absent x C : is_str x -> sorted (plug C Leaf) -> Forall (directed x) C -> x ∉ keys (plug C Leaf).
Proof. intros Hx S D E. apply (directed_not_elsewhere x C Leaf) in E; [|done..]. by apply not_elem_of_nil in E. Qed.

(** The variables of the loop: [C] is the path to [s] (its innermost frame is
    the item [t]) and [Z] the path from [s] to [p]; the items of [Z] below
    [s], and [p] itself, are balanced. *)
Definition scanned (root : nat) (Z C : list frame) (tp : tree) (t s p : nat) : Prop :=
  t = parent_of root C /\
  (Z = [] /\ s = p /\ (C = [] \/ root_bal tp <> 0) \/
   exists P f, Z = P ++ [f] /\ s = loc f /\ Forall (fun g => bal g = 0) P /\ root_bal tp = 0 /\ (C = [] \/ bal f <> 0)).

(** One more item on the path to [s]'s frame. *)
Lemma scanned_frame root Z C tp t s g : scanned root Z C tp t s (loc g) -> root_bal tp = bal g ->
  exists P f, g :: Z = P ++ [f] /\ s = loc f /\ Forall (fun g => bal g = 0) P /\ (C = [] \/ bal f <> 0).
Proof.
  intros [_ [(-> & -> & H)|(P & f & -> & -> & HP & H0 & H)]] E; [exists [], g; rewrite <- E; by repeat split|].
  exists (g :: P), f. repeat split; auto. by rewrite Forall_cons, <- E.
Qed.

Section Search.
Context (h : heap) (root : nat) (T : tree) (x : list Z).
Hypotheses (W : wf h root T) (Hx : is_str x).

Lemma insert_step Z C tp t s g a : scanned root Z C tp t s (loc g) -> root_bal tp = bal g -> T = plug (g :: Z ++ C) Leaf -> Forall (directed x) (g :: Z ++ C) -> (a <? 0) = side g ->
  exists h' T', insert_item h x t s (loc g) a = Some (brk h, h') /\ search_result h root T x (brk h) h' T'.
Proof.
  intros Sc Hb ET D Ha. destruct (scanned_frame _ _ _ _ _ _ _ Sc Hb) as (P & f & EZ & -> & HP & HC). destruct Sc as [-> _]. destruct W as [(ri & Hri & Hr) ND B S A].
  assert (EP : g :: Z ++ C = P ++ f :: C) by (by rewrite app_comm_cons, EZ, <- app_assoc). rewrite EP in ET, D. assert (EL : locs T ≡ₚ ctx_locs (P ++ f :: C)) by (by rewrite ET, locs_plug).
  assert (Hc : repr_ctx (items h) (right ri) (P ++ f :: C) None) by (rewrite ET in Hr; apply repr_plug in Hr as (q & Hq & Hn); cbn in Hn; by subst q).
  assert (ND' : NoDup (root :: ctx_locs (P ++ f :: C))) by (by rewrite <- EL). assert (Bel : forall a, a ∈ root :: ctx_locs (P ++ f :: C) -> (a < brk h)%nat) by (intros b; rewrite <- EL; by apply wf_addresses).
  pose proof A as A'. pose proof S as S'. rewrite ET in A', S'. destruct (insert_item_spec h x root P f C ri Hri Hc ND' Bel D HP A' HC (loc g) a g (Z ++ C)) as (m' & E & R & Da); [done|done|done|].
  assert (EI : entries (inserted h x P f C) = before (P ++ f :: C) ++ (x, brk h) :: after (P ++ f :: C)) by (by eapply inserted_entries).
  exists (mk_heap m' (succs h) (Datatypes.S (brk h))), (inserted h x P f C). split; [done|]. apply search_inserted with (before (P ++ f :: C)) (after (P ++ f :: C)); [by rewrite ET, entries_plug|done|rewrite ET; by apply directed_absent| |done].
  assert (Pm : locs (inserted h x P f C) ≡ₚ brk h :: locs T).
  { unfold locs. rewrite EI, ET, entries_plug. cbn [entries app]. rewrite !fmap_app, fmap_cons. cbn. by rewrite Permutation_middle. }
  constructor; cbn [items brk]; [done| | | |by eapply inserted_avl].
  - rewrite Pm, Permutation_swap. apply NoDup_cons. split; [|done]. intros E1. apply (wf_addresses h root T _ W) in E1. lia.
  - intros b Hb'. destruct (data_dom _ _ _ _ Da b Hb') as [->|Hb'']; [lia|]. specialize (B b Hb''). lia.
  - apply (sorted_insert x (brk h) (P ++ f :: C) (new_node h x) _ Hx S' D); [done|]. by rewrite EI, entries_plug.
Qed.

Lemma search_loop_spec fuel : forall Z C tp t s p ri, T = plug (Z ++ C) tp -> items h !! root = Some ri -> repr_ctx (items h) (right ri) (Z ++ C) (Some p) -> repr (items h) (Some p) tp ->
  Forall (directed x) (Z ++ C) -> scanned root Z C tp t s p -> (length (locs tp) <= fuel)%nat ->
  exists a h' T', search_loop fuel h x t s p = Some (a, h') /\ search_result h root T x a h' T'.
Proof.
  induction fuel as [|fuel IH]; intros Z C tp t s p ri ET Hri Hc Hp D Sc Hf; (destruct tp as [|l p' k b r]; [done|]).
  { exfalso. unfold locs in Hf. cbn in Hf. rewrite fmap_app, length_app in Hf. cbn in Hf. lia. }
  cbn in Hp. destruct Hp as (i & [= <-] & Hi & Hk & Hb & Hl & Hr). cbn [search_loop]. rewrite Hi. cbn [obind]. rewrite Hk. cbn [obind].
  assert (V : is_str k) by (pose proof (wf_sorted _ _ _ W) as [_ V]; rewrite ET in V; unfold keys in V; rewrite entries_plug, !fmap_app, !Forall_app in V; cbn in V; rewrite fmap_app, Forall_app, fmap_cons, Forall_cons in V; tauto).
  destruct (Z.eqb_spec (strcmp x k) 0) as [E0|N0].
  - apply strcmp_eq in E0; [subst k|done..]. exists p, h, T. split; [done|]. apply search_found. rewrite ET, entries_plug, !elem_of_app. cbn. rewrite elem_of_app, elem_of_cons. tauto.
  - set (d := strcmp x k <? 0). set (near := if d then l else r). set (g := mk_frame d p k b (if d then r else l)).
    assert (Dg : directed x g) by (unfold directed, g, d; cbn; destruct (Z.ltb_spec (strcmp x k) 0); lia).
    assert (EN : T = plug (g :: Z ++ C) near) by (change (plug (g :: Z ++ C) near) with (plug (Z ++ C) (plug1 g near)); rewrite ET; unfold plug1, near, g; cbn; by destruct d).
    assert (Rn : repr (items h) (child d i) near) by (unfold near; by destruct d). assert (Rc : repr_ctx (items h) (right ri) (g :: Z ++ C) (child d i)).
    { exists i. cbn. repeat split; auto. unfold child. by destruct d. }
    assert (DD : Forall (directed x) (g :: Z ++ C)) by (by constructor). change (if d then left i else right i) with (child d i).
    assert (Ln : (length (locs near) <= fuel)%nat) by (unfold locs in Hf |- *; cbn in Hf; rewrite fmap_app, length_app in Hf; cbn in Hf; unfold near; destruct d; lia).
    destruct near as [|nl q kq bq nr].
    { cbn in Rn. rewrite Rn. destruct (insert_step Z C _ t s g (strcmp x k) Sc eq_refl EN DD eq_refl) as (h' & T' & E & Q). exists (brk h), h', T'. done. }
    pose proof Rn as (j & Ej & Hj & _ & Hbj & _). rewrite Ej in *. rewrite Hj. cbn [obind]. rewrite Hbj. destruct (Z.eqb_spec bq 0) as [B0|B0]; cbn [negb].
    + apply (IH (g :: Z) C (Node nl q kq bq nr) t s q ri); try done. destruct (scanned_frame root Z C (Node l p k b r) t s g Sc eq_refl) as (P & f & EZ & Es & HP & HC). destruct Sc as [Et _]. split; [done|right]. exists P, f. done.
    + apply (IH [] (g :: Z ++ C) (Node nl q kq bq nr) p q q ri); try done. split; [done|left]. repeat split. by right.
Qed.

(** [search_item] always returns, and refines insertion into the sorted sequence. *)
Lemma search_item_spec : exists a h' T', search_item h root x = Some (a, h') /\ search_result h root T x a h' T'.
Proof.
  pose proof W as [(ri & Hri & Hr) ND B S A]. unfold search_item. rewrite Hri. cbn [obind]. destruct (node_cases true T) as [ET|(l & p & k & b & r & ET)].
  - rewrite ET in Hr. cbn in Hr. rewrite Hr. cbn [new_item items succs brk]. assert (Nr : root <> brk h) by (assert (root < brk h)%nat by (apply B; by eexists); lia).
    unfold update. rewrite lookup_insert_ne, Hri by done. cbn [obind]. eexists _, _, (Node Leaf (brk h) x 0 Leaf). split; [reflexivity|].
    assert (Da : data <$> <[root := put_right (Some (brk h)) ri]> (<[brk h := fresh_item (Some x)]> (items h)) = <[brk h := data (fresh_item (Some x))]> (data <$> items h)).
    { rewrite data_insert with (i := ri); [apply fmap_insert|by rewrite lookup_insert_ne|done]. }
    unfold with_items. cbn [items succs brk]. apply search_inserted with [] []; rewrite ?ET; try done; [apply not_elem_of_nil|]. constructor; cbn [items brk].
    + eexists. rewrite lookup_insert_eq. split; [done|]. cbn. eexists. split; [done|]. rewrite lookup_insert_ne, lookup_insert_eq by done. done.
    + apply NoDup_cons. change (locs (Node Leaf (brk h) x 0 Leaf)) with [brk h]. split; [by rewrite elem_of_cons, elem_of_nil; intuition|apply NoDup_singleton].
    + intros a Ha. destruct (data_dom _ _ _ _ Da a Ha) as [->|Ha']; [lia|]. specialize (B a Ha'). lia.
    + split; cbn; [by repeat constructor|by repeat constructor].
    + cbn. repeat split; auto; lia.
  - pose proof Hr as Hr0. rewrite ET in Hr0. destruct Hr0 as (i & Ep & _). rewrite Ep in *. apply (search_loop_spec (brk h) [] [] T root p p ri); try done.
    + split; [done|left]. repeat split. by left.
    + apply below_length; [by apply NoDup_cons in ND as [_ ND]|]. intros a Ha. apply (wf_addresses h root T _ W). by apply elem_of_cons; right.
Qed.
End Search.

(** ** Any sequence of searches *)

(** The calls of the reading loop, for the strings of a list in turn. *)
Fixpoint search_all (h : heap) (root : nat) (xs : list (list Z)) : option heap :=
  match xs with [] => Some h | x :: xs => let? (_, h) := search_item h root x in search_all h root xs end.

(** A balanced tree is shallow. *)
Lemma avl_height t : avl t -> 2 ^ height t <= (Z.of_nat (length (entries t)) + 1) ^ 2.
Proof.
  induction t as [|l IHl a k b r IHr]; cbn [avl height entries]; [cbn; lia|]. intros (Al & Ar & Eb & Rb). specialize (IHl Al). specialize (IHr Ar). rewrite length_app. cbn [length]. rewrite Nat2Z.inj_add, Nat2Z.inj_succ.
  pose proof (height_nonneg l). pose proof (height_nonneg r). set (x := Z.of_nat (length (entries l)) + 1) in *. set (y := Z.of_nat (length (entries r)) + 1) in *. assert (0 < x /\ 0 < y) as [Hx Hy] by lia. replace (_ + _ + 1) with (x + y) by lia. clearbody x y.
  assert (G : forall u v m, 0 < u -> 0 < v -> 0 <= m -> 2 * 2 ^ m <= u ^ 2 -> 2 ^ m <= v ^ 2 -> 4 * 2 ^ m <= (u + v) ^ 2).
  { intros u v m Hu Hv Hm U V. assert (2 ^ m <= u * v) by (apply Z.square_le_simpl_nonneg; [lia|]; pose proof (Z.pow_pos_nonneg 2 m); nia). nia. }
  destruct (Z.eq_dec (height l) (height r)) as [E|N].
  - rewrite Z.max_l by lia. replace (1 + height l) with (Z.succ (height l)) by lia. rewrite Z.pow_succ_r by lia. rewrite <- E in IHr. nia.
  - assert (C : height l = height r + 1 \/ height r = height l + 1) by lia. destruct C as [C|C].
    + rewrite C in *. rewrite Z.max_l by lia. replace (1 + (height r + 1)) with (Z.succ (Z.succ (height r))) by lia. rewrite !Z.pow_succ_r by lia. rewrite Z.add_1_r, Z.pow_succ_r in IHl by lia. pose proof (G x y (height r)). lia.
    + rewrite C in *. rewrite Z.max_r by lia. replace (1 + (height l + 1)) with (Z.succ (Z.succ (height l))) by lia. rewrite !Z.pow_succ_r by lia. rewrite Z.add_1_r, Z.pow_succ_r in IHr by lia. pose proof (G y x (height l)). rewrite (Z.add_comm x y). lia.
Qed.

Lemma search_all_spec root xs : forall h T, wf h root T -> Forall is_str xs -> exists h' T', search_all h root xs = Some h' /\ wf h' root T' /\ forall y, y ∈ keys T' <-> y ∈ keys T \/ y ∈ xs.
Proof.
  induction xs as [|x xs IH]; intros h T W F; cbn [search_all].
  - exists h, T. split; [done|]. split; [done|]. intros y. rewrite elem_of_nil. tauto.
  - apply Forall_cons in F as [Hx F]. destruct (search_item_spec h root T x W Hx) as (a & h1 & T1 & -> & R). cbn [obind].
    assert (W1 : wf h1 root T1 /\ forall y, y ∈ keys T1 <-> y ∈ keys T \/ y = x).
    { destruct R as [b Hb|m' T1 l1 l2 E1 E2 N W1 _]; (split; [done|]); intros y; unfold keys in *.
      - split; [by left|]. intros [H| ->]; [done|]. apply list_elem_of_fmap. by exists (x, b).
      - rewrite E1, E2, !fmap_app, fmap_cons, !elem_of_app, elem_of_cons. cbn. tauto. }
    destruct W1 as [W1 K1]. destruct (IH h1 T1 W1 F) as (h' & T' & E & W' & K'). exists h', T'. split; [done|]. split; [done|]. intros y. rewrite K', K1, elem_of_cons. tauto.
Qed.

Lemma wf_header : wf (mk_heap {[0%nat := fresh_item None]} ∅ 1) 0 Leaf.
Proof.
  constructor; cbn [items brk].
  - eexists. by rewrite lookup_singleton_eq.
  - apply NoDup_singleton.
  - intros a [i Hi]. apply lookup_singleton_Some in Hi as [<- _]. lia.
  - by split; constructor.
  - done.
Qed.

(** C8: from the empty tree, searching any strings in any order never fails
    an assertion and always ends; the tree then represented in the heap is a
    search tree with exactly these strings, with correct balance factors, and
    its height is at most twice the logarithm of their number plus one. *)
Theorem search_all_balanced (xs : list (list Z)) : Forall is_str xs ->
  exists h T ri, search_all (mk_heap {[0%nat := fresh_item None]} ∅ 1) 0 xs = Some h /\ items h !! 0%nat = Some ri /\ repr (items h) (right ri) T /\
    sorted T /\ avl T /\ (forall y, y ∈ keys T <-> y ∈ xs) /\ 2 ^ height T <= (Z.of_nat (length (keys T)) + 1) ^ 2.
Proof.
  intros F. destruct (search_all_spec 0 xs _ Leaf wf_header F) as (h & T & E & W & K). pose proof W as [(ri & Hri & Hr) _ _ S A]. exists h, T, ri. do 5 (split; [done|]). split.
  - intros y. rewrite K. split; [intros [H|H]; [by apply not_elem_of_nil in H|done]|by right].
  - unfold keys. rewrite length_fmap. by apply avl_height.
Qed.

(** Four strings, the last of which rotates the tree. *)
Lemma search_all_balanced_witness : exists h T, search_all (mk_heap {[0%nat := fresh_item None]} ∅ 1) 0 [[97]; [98]; [99]; [98]] = Some h /\ avl T /\ (forall y, y ∈ keys T <-> y ∈ [[97]; [98]; [99]; [98]]).
Proof. destruct (search_all_balanced [[97]; [98]; [99]; [98]]) as (h & T & ri & E & _ & _ & _ & A & K & _); [repeat constructor; lia|]. exists h, T. done. Defined.
