(* ===== verification/ReadTokens.v ===== *)
(** * readtokens.c: tokens of an input stream

    Models [readtoken] with its set of delimiters, one bit for each byte, and
    the buffer it grows with [x2nrealloc].  A stream is the list of the bytes
    that [getc] has still to return.  A block of memory is a list of bytes,
    [None] where nothing was stored yet; an operation is [None] where the code
    would access a block out of its bounds or call [xalloc_die]. *)

From S2P Require Import Prelude.
From stdpp Require Import list.
#[local] Open Scope Z_scope.

(** ** The set of delimiters *)

Definition bits_per_word : Z := 64.
Definition SIZE_MAX : Z := 2 ^ 64 - 1.
Definition PTRDIFF_MAX : Z := 2 ^ 63 - 1.

Definition get_nth_bit (n : Z) (bitset : list Z) : option bool :=
  let? w := bitset !! Z.to_nat (n / bits_per_word) in
  Some (nonzero (Z.land (Z.shiftr w (n mod bits_per_word)) 1)).

Definition set_nth_bit (n : Z) (bitset : list Z) : option (list Z) :=
  let? w := bitset !! Z.to_nat (n / bits_per_word) in
  Some (<[Z.to_nat (n / bits_per_word) := Z.lor w (uint 64 (Z.shiftl 1 (n mod bits_per_word)))]> bitset).

(** [memset] and the loop over [delim]. *)
Fixpoint set_delims (delim : list Z) (isdelim : list Z) : option (list Z) :=
  match delim with
  | [] => Some isdelim
  | ch :: delim => let? isdelim := set_nth_bit (uint 8 ch) isdelim in set_delims delim isdelim
  end.
Definition delim_bits (delim : list Z) : option (list Z) := set_delims delim (replicate (Z.to_nat ((255 + bits_per_word) / bits_per_word)) 0).

(** ** The token buffer *)

Notation block := (list (option Z)).
Record token_buffer := mk_token_buffer { size : Z; buffer : option block }.
Definition init_tokenbuffer : token_buffer := mk_token_buffer 0 None.

Definition xalloc_oversized (n s : Z) : bool := PTRDIFF_MAX <? n * s.
Definition xrealloc (p : option block) (n : Z) : block := resize (Z.to_nat n) None (default [] p).

Definition x2nrealloc (p : option block) (n s : Z) : option (block * Z) :=
  match p with
  | None =>
      let n := if n =? 0 then let n := (64 * 8 / 4) / s in if n =? 0 then n + 1 else n else n in
      if xalloc_oversized n s then None else Some (xrealloc p (n * s), n)
  | Some _ =>
      if (if PTRDIFF_MAX <? SIZE_MAX then PTRDIFF_MAX else SIZE_MAX) / 3 * 2 / s <=? n then None
      else let n := uint 64 (n + (n / 2 + 1)) in Some (xrealloc p (uint 64 (n * s)), n)
  end.

(** [p[i] = c]. *)
Definition store_byte (p : option block) (i c : Z) : option block :=
  let? b := p in if (0 <=? i) && (i <? Z.of_nat (length b)) then Some (<[Z.to_nat i := Some c]> b) else None.

(** ** readtoken *)

Fixpoint skip_delims (isdelim : list Z) (stream : list Z) : option (list Z) :=
  match stream with
  | [] => Some []
  | c :: rest => let? d := get_nth_bit c isdelim in if d then skip_delims isdelim rest else Some stream
  end.

Definition make_room (p : option block) (n i : Z) : option (option block * Z) :=
  if i =? n then let? (p, n) := x2nrealloc p n 1 in Some (Some p, n) else Some (p, n).

(** The loop; the head of [stream] is [c], and [c] is negative when it is empty. *)
Fixpoint token_loop (isdelim stream : list Z) (tb : token_buffer) (p : option block) (n i : Z) : option (Z * token_buffer * list Z) :=
  match stream with
  | [] =>
      if i =? 0 then Some (SIZE_MAX, tb, [])
      else
        let? (p, n) := make_room p n i in
        let? p := store_byte p i 0 in
        Some (i, mk_token_buffer n (Some p), [])
  | c :: stream =>
      let? (p, n) := make_room p n i in
      let? d := get_nth_bit c isdelim in
      if d then let? p := store_byte p i 0 in Some (i, mk_token_buffer n (Some p), stream)
      else let? p := store_byte p i c in token_loop isdelim stream tb (Some p) n (i + 1)
  end.

Definition readtoken (stream delim : list Z) (tb : token_buffer) : option (Z * token_buffer * list Z) :=
  let? isdelim := delim_bits delim in
  let? stream := skip_delims isdelim stream in
  token_loop isdelim stream tb (buffer tb) (size tb) 0.

(** The string in a buffer, up to its first zero. *)
Fixpoint c_string (b : block) : option (list Z) :=
  match b with
  | Some c :: b => if c =? 0 then Some [] else let? s := c_string b in Some (c :: s)
  | _ => None
  end.

(** ** The reference definition *)

Definition is_delim (delim : list Z) (c : Z) : bool := existsb (Z.eqb c) delim.
Definition is_byte (c : Z) : Prop := 0 <= c < 256.

(** The maximal runs of bytes that are not delimiters; [cur] is the run being read. *)
Fixpoint runs (delim cur s : list Z) : list (list Z) :=
  match s with
  | [] => match cur with [] => [] | _ => [cur] end
  | c :: s =>
      if is_delim delim c then match cur with [] => runs delim [] s | _ => cur :: runs delim [] s end
      else runs delim (cur ++ [c]) s
  end.
(** What a C string keeps of a run. *)
Fixpoint c_prefix (w : list Z) : list Z :=
  match w with [] => [] | c :: w => if c =? 0 then [] else c :: c_prefix w end.

Fixpoint skip (delim s : list Z) : list Z :=
  match s with [] => [] | c :: r => if is_delim delim c then skip delim r else s end.
(** The run at the start, and what follows the delimiter that ends it. *)
Fixpoint run (delim s : list Z) : list Z * list Z :=
  match s with
  | [] => ([], [])
  | c :: s => if is_delim delim c then ([], s) else let '(w, r) := run delim s in (c :: w, r)
  end.

Lemma words_run delim s : forall cur, cur <> [] -> runs delim cur s = (cur ++ fst (run delim s)) :: runs delim [] (snd (run delim s)).
Proof.
  induction s as [|c s IH]; intros cur N; cbn; [destruct cur; [done|by rewrite app_nil_r]|]. destruct (is_delim delim c); cbn.
  - destruct cur; [done|by rewrite app_nil_r].
  - rewrite IH by (by destruct cur). destruct (run delim s). cbn. by rewrite <- app_assoc.
Qed.

Lemma words_skip delim s : runs delim [] s = match skip delim s with [] => [] | s' => fst (run delim s') :: runs delim [] (snd (run delim s')) end.
Proof.
  induction s as [|c s IH]; cbn; [done|]. destruct (is_delim delim c) eqn:E; [done|]. rewrite words_run by done. cbn. rewrite E. by destruct (run delim s).
Qed.

(** ** Proofs *)

Lemma uint_id w x : 0 <= x < 2 ^ w -> uint w x = x.
Proof. intros H. unfold uint. by apply Z.mod_small. Qed.

Section Delims.
Context (delim : list Z) (Hd : Forall is_byte delim).

Lemma set_nth_bit_spec n bs : is_byte n -> length bs = 4%nat -> exists bs', set_nth_bit n bs = Some bs' /\ length bs' = 4%nat /\
  forall c, is_byte c -> get_nth_bit c bs' = (let? b := get_nth_bit c bs in Some ((c =? n) || b)).
Proof.
  intros Hn Hl. unfold set_nth_bit, is_byte, bits_per_word in *. assert (R : 0 <= n / 64 < 4) by (split; [apply Z.div_pos; lia|apply Z.div_lt_upper_bound; lia]).
  destruct (lookup_lt_is_Some_2 bs (Z.to_nat (n / 64))) as [w Hw]; [lia|]. rewrite Hw. cbn [obind]. eexists. split; [reflexivity|]. rewrite length_insert. split; [done|].
  intros c Hc. unfold get_nth_bit, bits_per_word. pose proof (Z.mod_pos_bound n 64). pose proof (Z.mod_pos_bound c 64). assert (Rc : 0 <= c / 64) by (apply Z.div_pos; lia).
  destruct (decide (c / 64 = n / 64)) as [E|N].
  - rewrite E, list_lookup_insert_eq, Hw by lia. cbn [obind]. f_equal.
    assert (B : forall v k, 0 <= k -> nonzero (Z.land (Z.shiftr v k) 1) = Z.testbit v k).
    { intros v k Hk. unfold nonzero. rewrite (Z.land_ones _ 1) by lia. change (2 ^ 1) with 2. rewrite <- Z.bit0_mod, Z.shiftr_spec by lia. by destruct (Z.testbit v (0 + k)) eqn:Eb; rewrite Z.add_0_l in Eb; rewrite Eb. }
    assert (Pw : uint 64 (Z.shiftl 1 (n mod 64)) = 2 ^ (n mod 64)) by (rewrite Z.shiftl_1_l; apply uint_id; split; [apply Z.pow_nonneg; lia|apply Z.pow_lt_mono_r; lia]).
    rewrite !B, Z.lor_spec, Pw, Z.pow2_bits_eqb by lia.
    rewrite orb_comm. f_equal. pose proof (Z.div_mod c 64). pose proof (Z.div_mod n 64). destruct (Z.eqb_spec c n), (Z.eqb_spec (n mod 64) (c mod 64)); try done; [subst; lia|lia].
  - rewrite list_lookup_insert_ne by lia. destruct (Z.eqb_spec c n) as [->|_]; [done|]. destruct (bs !! Z.to_nat (c / 64)); done.
Qed.

Lemma delim_bits_spec : exists bs, delim_bits delim = Some bs /\ forall c, is_byte c -> get_nth_bit c bs = Some (is_delim delim c).
Proof.
  assert (G : forall l bs, Forall is_byte l -> length bs = 4%nat -> (forall c, is_byte c -> is_Some (get_nth_bit c bs)) -> exists bs', set_delims l bs = Some bs' /\ forall c, is_byte c -> get_nth_bit c bs' = (let? b := get_nth_bit c bs in Some (is_delim l c || b))).
  { induction l as [|d l IH]; intros bs F Hl Hs; cbn [set_delims].
    - exists bs. split; [done|]. intros c Hc. destruct (Hs c Hc) as [b ->]. done.
    - inversion F as [|? ? Hb F']; subst. rewrite uint_id by (unfold is_byte in Hb; lia). destruct (set_nth_bit_spec d bs Hb Hl) as (bs1 & -> & Hl1 & E1). cbn [obind].
      destruct (IH bs1 F' Hl1) as (bs2 & -> & E2). { intros c Hc. rewrite E1 by done. destruct (Hs c Hc) as [b ->]. by eexists. }
      exists bs2. split; [done|]. intros c Hc. rewrite E2, E1 by done. destruct (Hs c Hc) as [b ->]. cbn. by rewrite orb_assoc, (orb_comm (is_delim l c)). }
  destruct (G delim (replicate 4 0) Hd eq_refl) as (bs & E & Q).
  { intros c Hc. unfold get_nth_bit, bits_per_word. destruct (lookup_lt_is_Some_2 (replicate 4 0) (Z.to_nat (c / 64))) as [w ->]; [|by eexists]. cbn. unfold is_byte in Hc. assert (c / 64 < 4) by (apply Z.div_lt_upper_bound; lia). lia. }
  exists bs. split; [done|]. intros c Hc. rewrite Q by done. unfold get_nth_bit. destruct (replicate 4 0 !! Z.to_nat (c / bits_per_word)) as [w|] eqn:Ew; cbn [obind].
  - apply lookup_replicate in Ew as [-> _]. rewrite Z.shiftr_0_l. cbn. by rewrite orb_false_r.
  - apply lookup_replicate_None in Ew. unfold is_byte, bits_per_word in *. assert (c / 64 < 4) by (apply Z.div_lt_upper_bound; lia). lia.
Qed.
End Delims.

Definition room (p : option block) (n : Z) : Prop := match p with None => n = 0 | Some b => n = Z.of_nat (length b) end.
Definition tb_ok (tb : token_buffer) : Prop := room (buffer tb) (size tb).
Definition contents (p : option block) : block := default [] p.

Lemma make_room_spec p n i : room p n -> 0 <= i <= n -> i < 2 ^ 62 ->
  exists b n', make_room p n i = Some (Some b, n') /\ room (Some b) n' /\ i < n' /\ take (Z.to_nat i) b = take (Z.to_nat i) (contents p).
Proof.
  intros R Hi Hb. unfold make_room. destruct (Z.eqb_spec i n) as [->|N]; cbn [obind].
  - destruct p as [b|]; cbn [room] in R; unfold x2nrealloc.
    + change (_ / 3 * 2 / 1) with 6148914691236517204. destruct (Z.leb_spec 6148914691236517204 n); [lia|]. cbn [obind]. assert (Hd : 0 <= n / 2 <= n) by (split; [apply Z.div_pos; lia|apply Z.div_le_upper_bound; lia]).
      assert (E : uint 64 (n + (n / 2 + 1)) = n + (n / 2 + 1)) by (apply uint_id; lia). rewrite E, Z.mul_1_r, E. eexists _, _. split; [reflexivity|]. unfold xrealloc. cbn [default room contents]. rewrite length_resize. repeat split; [lia|lia|].
      unfold id. rewrite take_resize_le, resize_le by lia. done.
    + subst n. eexists _, _. split; [reflexivity|]. done.
  - destruct p as [b|]; cbn [room] in R; [|lia]. exists b, n. repeat split; [done|lia].
Qed.

Lemma store_byte_spec (b : block) i c : 0 <= i < Z.of_nat (length b) -> exists b', store_byte (Some b) i c = Some b' /\ length b' = length b /\ take (Z.to_nat (i + 1)) b' = take (Z.to_nat i) b ++ [Some c].
Proof.
  intros Hi. unfold store_byte. cbn [obind]. destruct (Z.leb_spec 0 i), (Z.ltb_spec i (Z.of_nat (length b))); try lia. cbn [andb]. exists (<[Z.to_nat i := Some c]> b). split; [done|]. split; [apply length_insert|].
  replace (Z.to_nat (i + 1)) with (S (Z.to_nat i)) by lia. rewrite take_S_r with (x := Some c) by (apply list_lookup_insert_eq; lia). by rewrite take_insert_ge by lia.
Qed.

(** The string that ends a successful call. *)
Definition holds_token (tb : token_buffer) (w : list Z) : Prop :=
  tb_ok tb /\ exists b, buffer tb = Some b /\ take (S (length w)) b = (Some <$> w) ++ [Some 0].

Lemma token_loop_spec delim bs tb : (forall c, is_byte c -> get_nth_bit c bs = Some (is_delim delim c)) ->
  forall s p n w, Forall is_byte s -> Z.of_nat (length w + length s) < 2 ^ 62 -> room p n -> Z.of_nat (length w) <= n -> take (length w) (contents p) = Some <$> w -> w <> [] \/ s <> [] ->
  exists tb', token_loop bs s tb p n (Z.of_nat (length w)) = Some (Z.of_nat (length (w ++ fst (run delim s))), tb', snd (run delim s)) /\ holds_token tb' (w ++ fst (run delim s)).
Proof.
  intros Hbs. assert (End : forall (b : block) n w, room (Some b) n -> Z.of_nat (length w) < n -> take (length w) b = Some <$> w -> exists b', store_byte (Some b) (Z.of_nat (length w)) 0 = Some b' /\ holds_token (mk_token_buffer n (Some b')) w).
  { intros b n w R L T. cbn in R. destruct (store_byte_spec b (Z.of_nat (length w)) 0) as (b' & E & L' & T'); [lia|]. exists b'. split; [done|]. split; [unfold tb_ok; cbn; lia|]. exists b'. split; [done|].
    rewrite Nat2Z.id, T in T'. by replace (Z.to_nat (Z.of_nat (length w) + 1)) with (S (length w)) in T' by lia. }
  induction s as [|c s IH]; intros p n w F Hl R Hn T Ne; cbn [token_loop run].
  - cbn [fst snd]. rewrite app_nil_r. destruct (Z.eqb_spec (Z.of_nat (length w)) 0) as [E0|_]; [destruct w; [by destruct Ne|cbn in E0; lia]|].
    destruct (make_room_spec p n (Z.of_nat (length w)) R) as (b & n' & -> & R' & L' & T'); [lia|cbn in Hl; lia|]. cbn [obind]. rewrite Nat2Z.id, T in T'. destruct (End b n' w R' L' T') as (b' & -> & Q). cbn [obind]. eexists. split; [reflexivity|done].
  - apply Forall_cons in F as [Hc F]. cbn in Hl. destruct (make_room_spec p n (Z.of_nat (length w)) R) as (b & n' & -> & R' & L' & T'); [lia|lia|]. cbn [obind]. rewrite Nat2Z.id, T in T'. rewrite Hbs by done. cbn [obind]. destruct (is_delim delim c) eqn:Ed.
    + cbn [fst snd]. rewrite app_nil_r. destruct (End b n' w R' L' T') as (b' & -> & Q). cbn [obind]. eexists. split; [reflexivity|done].
    + cbn in R'. destruct (store_byte_spec b (Z.of_nat (length w)) c) as (b' & -> & Lb & Tb); [lia|]. cbn [obind]. rewrite Nat2Z.id, T' in Tb. replace (Z.to_nat (Z.of_nat (length w) + 1)) with (length (w ++ [c])) in Tb by (rewrite length_app; cbn; lia).
      replace (Z.of_nat (length w) + 1) with (Z.of_nat (length (w ++ [c]))) by (rewrite length_app; cbn; lia).
      destruct (IH (Some b') n' (w ++ [c])) as (tb' & E & Q); [done|rewrite length_app; cbn; lia|cbn; lia|rewrite length_app; cbn; lia|cbn; by rewrite Tb, fmap_app|left; by destruct w|].
      exists tb'. destruct (run delim s) as [w' r]. cbn [fst snd] in *. rewrite <- app_assoc in E, Q. done.
Qed.

(** [readtoken] returns, stays within its buffer, and gives the next run of
    bytes that are not delimiters, or [(size_t) -1] when there is none. *)
Lemma readtoken_spec delim s tb : Forall is_byte delim -> Forall is_byte s -> Z.of_nat (length s) < 2 ^ 62 -> tb_ok tb ->
  match runs delim [] s with
  | [] => readtoken s delim tb = Some (SIZE_MAX, tb, [])
  | w :: ws => exists tb' rest, readtoken s delim tb = Some (Z.of_nat (length w), tb', rest) /\ holds_token tb' w /\
      runs delim [] rest = ws /\ Forall is_byte rest /\ (length rest < length s)%nat /\ w <> [] /\ (length w <= length s)%nat /\ Forall is_byte w
  end.
Proof.
  intros Hd Hs Hl Ht. destruct (delim_bits_spec delim Hd) as (bs & Eb & Hbs). unfold readtoken. rewrite Eb. cbn [obind].
  assert (Sk : skip_delims bs s = Some (skip delim s) /\ Forall is_byte (skip delim s) /\ (length (skip delim s) <= length s)%nat).
  { clear Hl. induction Hs as [|c s Hc Hs IH]; cbn [skip_delims skip]; [done|]. rewrite Hbs by done. cbn [obind]. destruct (is_delim delim c); [destruct IH as (? & ? & ?); cbn; repeat split; auto; lia|]. split; [done|]. split; [by constructor|done]. }
  destruct Sk as (-> & Fs & Ls). cbn [obind]. rewrite words_skip. destruct (skip delim s) as [|c s'] eqn:Es; [done|].
  assert (Nd : is_delim delim c = false). { clear - Es. revert Es. induction s as [|d s IH]; cbn; [done|]. destruct (is_delim delim d) eqn:E; [done|]. by intros [= -> _]. }
  destruct (token_loop_spec delim bs tb Hbs (c :: s') (buffer tb) (size tb) []) as (tb' & E & Q); [done|cbn in *; lia|done| |done|by right|].
  { unfold tb_ok, room in Ht. destruct (buffer tb); cbn; lia. }
  exists tb', (snd (run delim (c :: s'))). split; [done|]. split; [done|]. split; [done|].
  assert (G : forall l, Forall is_byte l -> Forall is_byte (snd (run delim l)) /\ (length (snd (run delim l)) <= length l)%nat /\ (length (fst (run delim l)) <= length l)%nat /\ Forall is_byte (fst (run delim l))).
  { induction 1 as [|d l Hb Hl' IH]; cbn; [done|]. destruct (is_delim delim d); cbn; [repeat split; auto; lia|]. destruct (run delim l). cbn in *. destruct IH as (? & ? & ? & ?). repeat split; auto; lia. }
  apply Forall_cons in Fs as [Hc Fs]. destruct (G s' Fs) as (? & ? & ? & ?). cbn [run] in *. rewrite Nd. destruct (run delim s'). cbn in *. repeat split; auto; lia.
Qed.

Lemma c_string_token tb w : holds_token tb w -> (let? b := buffer tb in c_string b) = Some (c_prefix w).
Proof.
  intros (_ & b & -> & T). cbn [obind]. revert w T. induction b as [|o b IH]; intros [|c w] T; cbn in T; try discriminate.
  - injection T as ->. done.
  - injection T as -> T. cbn. rewrite (IH w T). cbn. by destruct (c =? 0).
Qed.

(** C9: every call of readtoken returns, never writes outside its buffer and
    never calls [xalloc_die]: it gives the next maximal run of bytes that are
    not delimiters, terminated in the buffer, and leaves the rest of the
    stream, or gives [(size_t) -1] when there is no such run. *)
Theorem readtoken_next delim s tb : Forall is_byte delim -> Forall is_byte s -> Z.of_nat (length s) < 2 ^ 62 -> tb_ok tb ->
  match runs delim [] s with
  | [] => readtoken s delim tb = Some (SIZE_MAX, tb, [])
  | w :: ws => exists tb' rest b, readtoken s delim tb = Some (Z.of_nat (length w), tb', rest) /\ tb_ok tb' /\ runs delim [] rest = ws /\
      buffer tb' = Some b /\ take (S (length w)) b = (Some <$> w) ++ [Some 0] /\ c_string b = Some (c_prefix w)
  end.
Proof.
  intros Hd Hs Hl Ht. pose proof (readtoken_spec delim s tb Hd Hs Hl Ht) as R. destruct (runs delim [] s) as [|w ws]; [done|]. destruct R as (tb' & rest & E & Hh & Er & _). pose proof (c_string_token tb' w Hh) as C. destruct Hh as (Hok & b & Eb & T).
  exists tb', rest, b. rewrite Eb in C. done.
Qed.

Lemma readtoken_next_witness : exists tb' rest, readtoken [32; 97; 98; 10; 99] [32; 9; 10] init_tokenbuffer = Some (2, tb', rest) /\ runs [32; 9; 10] [] rest = [[99]].
Proof. destruct (readtoken_next [32; 9; 10] [32; 97; 98; 10; 99] init_tokenbuffer) as (tb' & rest & b & E & _ & R & _); [repeat constructor; lia|repeat constructor; lia|cbn; lia|reflexivity|]. exists tb', rest. done. Defined.
