(* ===== verification/Tsort.v ===== *)
(** * tsort: topological sort, Knuth's Algorithm T

    Models [tsort] of [tsort.c] on the items of [ItemTree] and the tokens of
    [ReadTokens]: the loop that reads the relations, the walks of the tree, the
    queue of strings without predecessors and the output.  In this program
    [error] and [die] print a line and exit, so an input with a loop ends the
    program after the strings that could be sorted.  An operation is [None]
    where the code would fail an [assert], read through a null pointer, leave
    a buffer or call [xalloc_die].  The theorems show that an input without
    loops is always sorted, and what is printed for the other inputs. *)

From S2P Require Import Prelude.
From Stdlib Require Import Sorted.
From stdpp Require Import gmap list relations.
From S2P Require Import ItemTree ReadTokens.
#[local] Open Scope Z_scope.

(** ** State *)

Inductive event := Puts (s : list Z) | Printf_died (status : Z) | Printf_error (status errnum : Z).
Inductive outcome := Returned (ok : bool) | Exit (status : Z).

(** The heap, the static variables [head], [zeros] and [n_strings], and what was printed. *)
Record state := mk_state { hp : heap; head : option nat; zeros : option nat; n_strings : Z; out : list event }.
Definition with_hp (st : state) (h : heap) : state := mk_state h (head st) (zeros st) (n_strings st) (out st).

Definition put_count (c : Z) (i : item) : item := mk_item (str i) (left i) (right i) (balance i) c (qlink i) (top i).
Definition put_qlink (q : option nat) (i : item) : item := mk_item (str i) (left i) (right i) (balance i) (count i) q (top i).
Definition put_top (p : option nat) (i : item) : item := mk_item (str i) (left i) (right i) (balance i) (count i) (qlink i) p.
Definition clear_str (i : item) : item := mk_item None (left i) (right i) (balance i) (count i) (qlink i) (top i).

Definition update_item (st : state) (p : nat) (f : item -> item) : option state :=
  let? m := update (items (hp st)) p f in Some (with_hp st (with_items (hp st) m)).

(** ** Relations *)

Definition record_relation (h : heap) (j k : nat) : option heap :=
  let? ij := items h !! j in
  let? ik := items h !! k in
  let? sj := str ij in
  let? sk := str ik in
  if strcmp sj sk =? 0 then Some h
  else
    let? m := update (items h) k (put_count (uint 64 (count ik + 1))) in
    let? ij := m !! j in
    let? m := update m j (put_top (Some (brk h))) in
    Some (mk_heap m (<[brk h := mk_successor k (top ij)]> (succs h)) (S (brk h))).

Definition DELIM : list Z := [32; 9; 10].

(** T2 and T3. *)
Fixpoint read_loop (fuel : nat) (h : heap) (root : nat) (tb : token_buffer) (stream : list Z) (j k : option nat) : option (heap * option nat) :=
  match fuel with
  | O => None
  | S fuel =>
      let? (len, tb, stream) := readtoken stream DELIM tb in
      if len =? SIZE_MAX then Some (h, k)
      else if len =? 0 then None
      else
        let? x := let? b := buffer tb in c_string b in
        let? (a, h) := search_item h root x in
        match j with
        | Some j => let? h := record_relation h j a in read_loop fuel h root tb stream None None
        | None => read_loop fuel h root tb stream (Some a) (Some a)
        end
  end.

(** ** Walks of the tree *)

Definition action : Type := nat -> state -> option (bool * state).

Fixpoint recurse_tree (fuel : nat) (act : action) (root : nat) (st : state) : option (bool * state) :=
  match fuel with
  | O => None
  | S fuel =>
      let? i := items (hp st) !! root in
      match left i, right i with
      | None, None => act root st
      | l, _ =>
          let? (b, st) := match l with Some l => recurse_tree fuel act l st | None => Some (false, st) end in
          if b then Some (true, st)
          else
            let? (b, st) := act root st in
            if b then Some (true, st)
            else
              let? i := items (hp st) !! root in
              match right i with Some r => recurse_tree fuel act r st | None => Some (false, st) end
      end
  end.

Definition walk_tree (act : action) (root : nat) (st : state) : option state :=
  let? i := items (hp st) !! root in
  match right i with
  | Some r => let? (_, st) := recurse_tree (brk (hp st)) act r st in Some st
  | None => Some st
  end.

Definition count_items : action := fun _ st => Some (false, mk_state (hp st) (head st) (zeros st) (uint 64 (n_strings st + 1)) (out st)).

(** The queue grows at its tail. *)
Definition append_queue (st : state) (k : nat) : option state :=
  let? z := zeros st in
  let? st := update_item st z (put_qlink (Some k)) in
  Some (mk_state (hp st) (head st) (Some k) (n_strings st) (out st)).

Definition scan_zeros : action := fun k st =>
  let? i := items (hp st) !! k in
  if (count i =? 0) && bool_decide (is_Some (str i)) then
    match head st with
    | None => Some (false, mk_state (hp st) (Some k) (Some k) (n_strings st) (out st))
    | Some _ => let? st := append_queue st k in Some (false, st)
    end
  else Some (false, st).

(** ** The main loop *)

(** One successor: its count goes down and, at zero, it joins the queue. *)
Definition erase_one (st : state) (v : nat) (c : Z) : option state :=
  let? st := update_item st v (put_count c) in if c =? 0 then append_queue st v else Some st.

(** T6: the loop over the successors. *)
Fixpoint erase_relations (fuel : nat) (st : state) (p : option nat) : option state :=
  match p with
  | None => Some st
  | Some a =>
      match fuel with
      | O => None
      | S fuel =>
          let? s := succs (hp st) !! a in
          let? i := items (hp st) !! suc s in
          let? st := erase_one st (suc s) (uint 64 (count i - 1)) in
          erase_relations fuel st (next s)
      end
  end.

(** T5 to T7: the loop over the queue. *)
Fixpoint drain (fuel : nat) (st : state) : option state :=
  match head st with
  | None => Some st
  | Some a =>
      match fuel with
      | O => None
      | S fuel =>
          let? i := items (hp st) !! a in
          let p := top i in
          let? s := str i in
          let st := mk_state (hp st) (head st) (zeros st) (n_strings st) (out st ++ [Puts s]) in
          let? st := update_item st a clear_str in
          let st := mk_state (hp st) (head st) (zeros st) (uint 64 (n_strings st - 1)) (out st) in
          let? st := erase_relations (brk (hp st)) st p in
          let? i := items (hp st) !! a in
          drain fuel (mk_state (hp st) (qlink i) (zeros st) (n_strings st) (out st))
      end
  end.

(** T4 to T8; a loop in the input is reported by [error], which exits. *)
Fixpoint sort_loop (fuel : nat) (root : nat) (st : state) : option (outcome * state) :=
  match fuel with
  | O => None
  | S fuel =>
      if n_strings st =? 0 then Some (Returned true, st)
      else
        let? st := walk_tree scan_zeros root st in
        let? st := drain (S (brk (hp st))) st in
        if 0 <? n_strings st then Some (Exit (-1), mk_state (hp st) (head st) (zeros st) (n_strings st) (out st ++ [Printf_error 0 0]))
        else sort_loop fuel root st
  end.

(** [stdin] is the standard input, [freopen] what the call with this file
    leaves there and [fclose] whether it succeeds. *)
Definition tsort (stdin : list Z) (freopen : list Z -> option (list Z)) (fclose : bool) (file : list Z) : option (outcome * list event) :=
  let '(root, h) := new_item (mk_heap ∅ ∅ 0) None in
  match (if strcmp file [45] =? 0 then Some stdin else freopen file) with
  | None => Some (Exit (-1), [Printf_died 1])
  | Some stream =>
      let? (h, k) := read_loop (S (length stream)) h root init_tokenbuffer stream None None in
      match k with
      | Some _ => Some (Exit (-1), [Printf_died 1])
      | None =>
          let? st := walk_tree count_items root (mk_state h None None 0 []) in
          let? (r, st) := sort_loop 2 root st in
          match r with
          | Exit _ => Some (r, out st)
          | Returned ok => if fclose then Some (Returned ok, out st) else Some (Exit (-1), out st ++ [Printf_died 1])
          end
      end
  end.

(** ** The graph in the heap *)

(** The successors of an item, newest first; the cells get older along the list. *)
Fixpoint chain (S : gmap nat successor) (b : nat) (p : option nat) (l : list nat) : Prop :=
  match l with
  | [] => p = None
  | v :: l => exists a s, p = Some a /\ (a < b)%nat /\ S !! a = Some s /\ suc s = v /\ chain S a (next s) l
  end.

Lemma chain_length S b p l : chain S b p l -> (length l <= b)%nat.
Proof. revert b p. induction l as [|v l IH]; intros b p; cbn; [lia|]. intros (a & s & _ & L & _ & _ & H). apply IH in H. lia. Qed.

Lemma chain_mono S S' b b' p l : chain S b p l -> (b <= b')%nat -> (forall a, (a < b)%nat -> S' !! a = S !! a) -> chain S' b' p l.
Proof.
  revert b b' p. induction l as [|v l IH]; intros b b' p; cbn; [done|]. intros (a & s & -> & L & Hs & E & H) Lb F. exists a, s. rewrite F by done. repeat split; auto; [lia|].
  apply IH with a; [done|lia|]. intros c Hc. apply F. lia.
Qed.

Definition occ (v : nat) (l : list nat) : nat := length (filter (eq v) l).
(** All the successors of the items of [l]. *)
Definition flat (adj : nat -> list nat) (l : list nat) : list nat := concat (adj <$> l).

#[global] Instance occ_proper v : Proper ((≡ₚ) ==> eq) (occ v).
Proof. intros l l' E. unfold occ. by rewrite E. Qed.
#[global] Instance flat_proper adj : Proper ((≡ₚ) ==> (≡ₚ)) (flat adj).
Proof. intros l l' E. unfold flat. rewrite <- !flat_map_concat_map. by apply Permutation_flat_map. Qed.

Lemma occ_cons v a l : occ v (a :: l) = ((if decide (v = a) then 1 else 0) + occ v l)%nat.
Proof. unfold occ. rewrite filter_cons. destruct (decide (v = a)); done. Qed.
Lemma occ_app v l l' : occ v (l ++ l') = (occ v l + occ v l')%nat.
Proof. unfold occ. by rewrite filter_app, length_app. Qed.
Lemma occ_pos v l : (0 < occ v l)%nat <-> v ∈ l.
Proof. induction l as [|a l IH]; [cbn; rewrite elem_of_nil; lia|]. rewrite occ_cons, elem_of_cons, <- IH. destruct (decide (v = a)); intuition lia. Qed.
Lemma occ_le v l : (occ v l <= length l)%nat.
Proof. apply length_filter. Qed.
Lemma elem_of_flat v adj l : v ∈ flat adj l <-> exists u, u ∈ l /\ v ∈ adj u.
Proof. induction l as [|a l IH]; unfold flat in *; cbn; [split; [by rewrite elem_of_nil|intros (u & E & _); by apply not_elem_of_nil in E]|]. rewrite elem_of_app, IH. setoid_rewrite elem_of_cons. split; [intros [H|(u & Hu & Hv)]; [by exists a; auto|by exists u; auto]|intros (u & [->|Hu] & Hv); [by left|right; by exists u]]. Qed.

(** The relation of an input: the pairs with two different strings. *)
Definition precedes (ps : list (list Z * list Z)) (x y : list Z) : Prop := (x, y) ∈ ps /\ x <> y.

Record graph (h : heap) (T : tree) (adj : nat -> list nat) (ps : list (list Z * list Z)) : Prop := {
  g_items : forall x a, (x, a) ∈ entries T -> exists i, items h !! a = Some i /\ str i = Some x /\ qlink i = None /\
    count i = Z.of_nat (occ a (flat adj (locs T))) /\ chain (succs h) (brk h) (top i) (adj a);
  g_edges : forall x a v, (x, a) ∈ entries T -> v ∈ adj a <-> exists y, (y, v) ∈ entries T /\ precedes ps x y;
  g_known : forall x y, (x, y) ∈ ps -> x ∈ keys T /\ y ∈ keys T;
  g_out : forall a, a ∉ locs T -> adj a = [];
  g_total : (length (flat adj (locs T)) <= length ps)%nat }.

Lemma entries_key T x a : (x, a) ∈ entries T -> x ∈ keys T.
Proof. intros E. unfold keys. apply list_elem_of_fmap. by exists (x, a). Qed.
Lemma entries_loc T x a : (x, a) ∈ entries T -> a ∈ locs T.
Proof. intros E. unfold locs. apply list_elem_of_fmap. by exists (x, a). Qed.
Lemma loc_entry T a : a ∈ locs T -> exists x, (x, a) ∈ entries T.
Proof. intros E. apply list_elem_of_fmap in E as ([x a'] & -> & E). by exists x. Qed.
Lemma key_entry T x : x ∈ keys T -> exists a, (x, a) ∈ entries T.
Proof. intros E. apply list_elem_of_fmap in E as ([x' a] & -> & E). by exists a. Qed.

(** What [repr] reads of an item. *)
Definition shape (i : item) : option (list Z) * option nat * option nat * Z := (str i, left i, right i, balance i).

Lemma shape_insert (m : gmap nat item) a i j : m !! a = Some i -> shape j = shape i -> shape <$> <[a := j]> m = shape <$> m.
Proof. intros E D. rewrite fmap_insert, D. apply insert_id. by rewrite lookup_fmap, E. Qed.

Lemma shape_lookup (m m' : gmap nat item) a i : shape <$> m' = shape <$> m -> m !! a = Some i -> exists i', m' !! a = Some i' /\ shape i' = shape i.
Proof. intros E H. assert (F : (shape <$> m') !! a = Some (shape i)) by (by rewrite E, lookup_fmap, H). rewrite lookup_fmap in F. destruct (m' !! a) as [i'|]; [|done]. injection F as F1 F2 F3 F4. exists i'. split; [done|]. unfold shape. congruence. Qed.

Lemma repr_shape m m' p t : shape <$> m' = shape <$> m -> repr m p t -> repr m' p t.
Proof.
  intros E. revert p. induction t as [|l IHl a k b r IHr]; intros p; cbn; [done|]. intros (i & -> & Hi & Hs & Hb & Hl & Hr). destruct (shape_lookup _ _ _ _ E Hi) as (i' & Hi' & S'). unfold shape in S'. injection S' as E1 E2 E3 E4.
  exists i'. rewrite E1, E2, E3, E4. repeat split; auto.
Qed.

Lemma wf_shape h h' root T : wf h root T -> shape <$> items h' = shape <$> items h -> (brk h <= brk h')%nat -> wf h' root T.
Proof.
  intros [(ri & Hri & Hr) ND B S A] E L. constructor; auto.
  - destruct (shape_lookup _ _ _ _ E Hri) as (ri' & Hri' & S'). exists ri'. split; [done|]. unfold shape in S'. injection S' as _ _ -> _. by apply repr_shape with (items h).
  - intros a [i Hi]. destruct (shape_lookup _ _ _ _ (eq_sym E) Hi) as (i' & Hi' & _). assert (a < brk h)%nat by (apply B; by eexists). lia.
Qed.

(** ** Reading the relations *)

Lemma sorted_nodup (l : list (list Z)) : StronglySorted str_lt l -> NoDup l.
Proof. induction 1 as [|k l S IH F]; constructor; [|done]. intros E. rewrite Forall_forall in F. pose proof (F k E) as L. unfold str_lt in L. rewrite strcmp_refl in L. lia. Qed.

Lemma wf_unique h root T : wf h root T -> (forall x a b, (x, a) ∈ entries T -> (x, b) ∈ entries T -> a = b) /\ (forall x y a, (x, a) ∈ entries T -> (y, a) ∈ entries T -> x = y).
Proof.
  intros [_ ND _ [S _] _]. apply NoDup_cons in ND as [_ ND]. unfold locs, keys in *. assert (NK : NoDup (entries T).*1).
  { by apply sorted_nodup. }
  split.
  - intros x a b Ea Eb. apply list_elem_of_lookup in Ea as [n Ea]. apply list_elem_of_lookup in Eb as [m Eb]. assert (n = m) as -> by (apply (NoDup_lookup _ n m x NK); by rewrite list_lookup_fmap, ?Ea, ?Eb). congruence.
  - intros x y a Ea Eb. apply list_elem_of_lookup in Ea as [n Ea]. apply list_elem_of_lookup in Eb as [m Eb]. assert (n = m) as -> by (apply (NoDup_lookup _ n m a ND); by rewrite list_lookup_fmap, ?Ea, ?Eb). congruence.
Qed.

Lemma data_lookup (m m' : gmap nat item) k d a i : data <$> m' = <[k := d]> (data <$> m) -> a <> k -> m !! a = Some i -> exists i', m' !! a = Some i' /\ data i' = data i.
Proof.
  intros E N H. assert (F : (data <$> m') !! a = Some (data i)) by (by rewrite E, lookup_insert_ne, lookup_fmap, H by done). rewrite lookup_fmap in F. destruct (m' !! a) as [i'|]; [|done]. injection F as F1 F2 F3 F4. exists i'. split; [done|]. unfold data. congruence.
Qed.

Lemma search_graph h root T adj ps x a h' T' : wf h root T -> graph h T adj ps -> search_result h root T x a h' T' ->
  wf h' root T' /\ graph h' T' adj ps /\ (x, a) ∈ entries T' /\ (forall e, e ∈ entries T -> e ∈ entries T') /\ (forall y, y ∈ keys T' <-> y = x \/ y ∈ keys T).
Proof.
  intros W G [b Hb|m' T'' l1 l2 E1 E2 Nx W' Da].
  - do 4 (split; [done|]). intros y. split; [by right|]. intros [->|H]; [|done]. by apply entries_key in Hb.
  - assert (Pe : entries T'' ≡ₚ (x, brk h) :: entries T) by (rewrite E1, E2; by rewrite Permutation_middle).
    assert (Nn : brk h ∉ locs T) by (intros E; assert (brk h < brk h)%nat by (apply (wf_addresses h root T _ W); by apply elem_of_cons; right); lia).
    assert (Pl : locs T'' ≡ₚ brk h :: locs T) by (unfold locs; by rewrite Pe). assert (Pk : keys T'' ≡ₚ x :: keys T) by (unfold keys; by rewrite Pe).
    assert (Pf : flat adj (locs T'') ≡ₚ flat adj (locs T)) by (rewrite Pl; unfold flat; cbn; by rewrite (g_out _ _ _ _ G _ Nn)).
    split; [done|]. split; [|split; [rewrite Pe; by apply elem_of_cons; left|split; [intros e He; rewrite Pe; by apply elem_of_cons; right|intros y; by rewrite Pk, elem_of_cons]]].
    constructor; cbn [items succs brk].
    + intros y c Hc. rewrite Pe, elem_of_cons in Hc. setoid_rewrite Pf. destruct Hc as [[= -> ->]|Hc].
      * assert (F : (data <$> m') !! brk h = Some (data (fresh_item (Some x)))) by (by rewrite Da, lookup_insert_eq). rewrite lookup_fmap in F. destruct (m' !! brk h) as [i|]; [|done]. injection F as F1 F2 F3 F4. exists i. rewrite F1, F2, F3, F4, (g_out _ _ _ _ G _ Nn). cbn. repeat split.
        assert (~ (0 < occ (brk h) (flat adj (locs T)))%nat); [|lia]. rewrite occ_pos, elem_of_flat. intros (u & Hu & Hv). apply loc_entry in Hu as (z & Hz). apply (g_edges _ _ _ _ G _ _ _ Hz) in Hv as (w & Hw & _). apply Nn. by apply entries_loc in Hw.
      * destruct (g_items _ _ _ _ G _ _ Hc) as (i & Hi & Hs & Hq & Hn & Ht). assert (Nc : c <> brk h) by (intros ->; apply Nn; by apply entries_loc in Hc). destruct (data_lookup _ _ _ _ _ _ Da Nc Hi) as (i' & Hi' & Di). injection Di as D1 D2 D3 D4.
        exists i'. rewrite D1, D2, D3, D4. repeat split; auto. apply chain_mono with (succs h) (brk h); [done|lia|done].
    + intros y c v Hc. rewrite Pe, elem_of_cons in Hc. assert (Q : forall z, precedes ps y z -> z <> x /\ y <> x) by (intros z [Hz _]; apply (g_known _ _ _ _ G) in Hz as [K1 K2]; split; by intros ->).
      setoid_rewrite Pe. setoid_rewrite elem_of_cons. destruct Hc as [[= -> ->]|Hc].
      * rewrite (g_out _ _ _ _ G _ Nn). split; [by rewrite elem_of_nil|]. intros (z & _ & Hz). apply Q in Hz. tauto.
      * rewrite (g_edges _ _ _ _ G _ _ _ Hc). split; [intros (z & Hz & R); exists z; auto|]. intros (z & [[= -> ->]|Hz] & R); [apply Q in R; tauto|by exists z].
    + intros y z Hyz. rewrite Pk, !elem_of_cons. apply (g_known _ _ _ _ G) in Hyz. tauto.
    + intros c Hc. apply (g_out _ _ _ _ G). intros E. apply Hc. rewrite Pl. by apply elem_of_cons; right.
    + rewrite Pf. apply G.
Qed.

Definition link (adj : nat -> list nat) (j k : nat) : nat -> list nat := fun u => if decide (u = j) then k :: adj j else adj u.

Lemma flat_ext adj adj' l : (forall u, u ∈ l -> adj' u = adj u) -> flat adj' l = flat adj l.
Proof. intros E. unfold flat. f_equal. apply list_fmap_ext. intros i u Hu. apply E. by apply list_elem_of_lookup_2 with i. Qed.

Lemma flat_link adj j k l : NoDup l -> j ∈ l -> flat (link adj j k) l ≡ₚ k :: flat adj l.
Proof.
  intros ND Hj. apply elem_of_Permutation in Hj as [l' E]. rewrite E in ND |- *. apply NoDup_cons in ND as [N _]. unfold flat. cbn. fold (flat adj l') (flat (link adj j k) l').
  rewrite (flat_ext adj) by (intros u Hu; unfold link; rewrite decide_False; [done|by intros ->]). unfold link. by rewrite decide_True by done.
Qed.

Lemma precedes_snoc ps x y u v : precedes (ps ++ [(x, y)]) u v <-> precedes ps u v \/ (u = x /\ v = y /\ x <> y).
Proof. unfold precedes. rewrite elem_of_app, elem_of_cons, elem_of_nil. split; [intros [[H|[[= -> ->]|[]]] N]; auto|]. intros [[H N]|(-> & -> & N)]; auto. Qed.

Lemma wf_is_str h root T x : wf h root T -> x ∈ keys T -> is_str x.
Proof. intros W H. destruct (wf_sorted _ _ _ W) as [_ V]. rewrite Forall_forall in V. by apply V. Qed.

Lemma record_relation_spec h root T adj ps x j y k : wf h root T -> graph h T adj ps -> (x, j) ∈ entries T -> (y, k) ∈ entries T -> Z.of_nat (length ps) < 2 ^ 62 ->
  exists h' adj', record_relation h j k = Some h' /\ wf h' root T /\ graph h' T adj' (ps ++ [(x, y)]).
Proof.
  intros W G Hj Hk Hb. destruct (wf_unique h root T W) as [U1 U2]. pose proof (wf_nodup _ _ _ W) as ND. apply NoDup_cons in ND as [_ ND]. destruct (g_items _ _ _ _ G _ _ Hj) as (ij & Eij & Sj & Qj & Cj & Tj). destruct (g_items _ _ _ _ G _ _ Hk) as (ik & Eik & Sk & Qk & Ck & Tk).
  assert (Kn : forall u v, (u, v) ∈ ps ++ [(x, y)] -> u ∈ keys T /\ v ∈ keys T).
  { intros u v. rewrite elem_of_app, elem_of_cons, elem_of_nil. intros [H|[[= -> ->]|[]]]; [by apply (g_known _ _ _ _ G)|]. by split; eapply entries_key. }
  unfold record_relation. rewrite Eij, Eik. cbn [obind]. rewrite Sj, Sk. cbn [obind]. destruct (Z.eqb_spec (strcmp x y) 0) as [E0|N0].
  - apply strcmp_eq in E0; [subst y|by eapply wf_is_str, entries_key..]. exists h, adj. split; [done|]. split; [done|]. destruct G as [G1 G2 G3 G4 G5]. constructor; auto; [|rewrite length_app; lia].
    intros u a v Ha. rewrite (G2 u a v Ha). setoid_rewrite precedes_snoc. split; intros (z & Hz & R); exists z; intuition.
  - assert (Nxy : x <> y) by (intros ->; by rewrite strcmp_refl in N0). assert (Njk : j <> k) by (intros ->; apply Nxy; by apply (U2 x y k)).
    unfold update. rewrite Eik. cbn [obind]. rewrite lookup_insert_ne, Eij by done. cbn [obind]. eexists _, (link adj j k). split; [reflexivity|].
    assert (Pf : flat (link adj j k) (locs T) ≡ₚ k :: flat adj (locs T)) by (apply flat_link; [done|by apply entries_loc in Hj]). pose proof (g_total _ _ _ _ G) as Tot.
    assert (Ec : uint 64 (count ik + 1) = Z.of_nat (S (occ k (flat adj (locs T))))) by (rewrite Ck; pose proof (occ_le k (flat adj (locs T))); rewrite uint_id; lia). split.
    + apply wf_shape with h; [done| |cbn; lia]. cbn [items]. rewrite (shape_insert _ _ ij); [by apply shape_insert with ik|by rewrite lookup_insert_ne|done].
    + constructor; cbn [items succs brk]; [| |done|intros a Ha; unfold link; rewrite decide_False; [by apply (g_out _ _ _ _ G)|intros ->; apply Ha; by apply entries_loc in Hj]|rewrite Pf, length_app; cbn; lia].
      * intros z a Ha. setoid_rewrite Pf. setoid_rewrite occ_cons. unfold link. destruct (decide (a = j)) as [->|Na].
        { rewrite lookup_insert_eq. eexists. split; [reflexivity|]. cbn. rewrite decide_False by done. replace z with x by (by apply (U2 x z j)). repeat split; auto. exists (brk h), (mk_successor k (top ij)). rewrite lookup_insert_eq. repeat split; [lia|]. cbn. apply chain_mono with (succs h) (brk h); [done|lia|]. intros c Hc. rewrite lookup_insert_ne; [done|lia]. }
        assert (Mono : forall p l, chain (succs h) (brk h) p l -> chain (<[brk h := mk_successor k (top ij)]> (succs h)) (S (brk h)) p l) by (intros p l H; apply chain_mono with (succs h) (brk h); [done|lia|]; intros c Hc; rewrite lookup_insert_ne; [done|lia]).
        rewrite lookup_insert_ne by done. destruct (decide (a = k)) as [->|Nk].
        { rewrite lookup_insert_eq. eexists. split; [reflexivity|]. cbn. replace z with y by (by apply (U2 y z k)). repeat split; auto. }
        rewrite lookup_insert_ne by done. destruct (g_items _ _ _ _ G _ _ Ha) as (i & H1 & H2 & H3 & H4 & H5). exists i. repeat split; auto.
      * intros u a v Ha. setoid_rewrite precedes_snoc. unfold link. destruct (decide (a = j)) as [->|Na].
        { assert (u = x) as -> by (by apply (U2 u x j)). rewrite elem_of_cons, (g_edges _ _ _ _ G _ _ _ Hj). split; [intros [->|(z & Hz & R)]; [exists y|exists z]; auto|]. intros (z & Hz & [R|(_ & -> & _)]); [right; by exists z|left; by apply (U1 y)]. }
        rewrite (g_edges _ _ _ _ G _ _ _ Ha). split; intros (z & Hz & R); exists z; [auto|]. destruct R as [R|(-> & _)]; [done|]. exfalso. apply Na. by apply (U1 x).
Qed.

(** The tokens of an input, and the pairs they form. *)
Definition tokens (stream : list Z) : list (list Z) := c_prefix <$> runs DELIM [] stream.
Fixpoint pairs (l : list (list Z)) : list (list Z * list Z) :=
  match l with x :: y :: l => (x, y) :: pairs l | _ => [] end.

Lemma c_prefix_is_str w : Forall is_byte w -> is_str (c_prefix w).
Proof. induction 1 as [|c w Hc Hw IH]; cbn; [constructor|]. unfold is_byte in Hc. destruct (Z.eqb_spec c 0); [constructor|]. constructor; [lia|done]. Qed.

Lemma DELIM_bytes : Forall is_byte DELIM.
Proof. unfold DELIM, is_byte. repeat constructor; lia. Qed.

(** T2 and T3: the graph of the pairs; an item is left over when their number is odd. *)
Lemma read_relations_spec root : forall fuel h T adj ps tb stream (pend : option (list Z * nat)),
  wf h root T -> graph h T adj ps -> tb_ok tb -> Forall is_byte stream -> (length stream < fuel)%nat -> Z.of_nat (length ps + length stream) < 2 ^ 62 -> (forall e, pend = Some e -> e ∈ entries T) ->
  exists h' k T' adj', read_loop fuel h root tb stream (snd <$> pend) (snd <$> pend) = Some (h', k) /\
    wf h' root T' /\ graph h' T' adj' (ps ++ pairs (option_list (fst <$> pend) ++ tokens stream)) /\
    (forall x, x ∈ keys T' <-> x ∈ keys T \/ x ∈ tokens stream) /\ (k = None <-> Nat.even (length (option_list (fst <$> pend) ++ tokens stream)) = true).
Proof.
  induction fuel as [|fuel IH]; intros h T adj ps tb stream pend W G Ht Hs Hf Hb Hp; [lia|]. cbn [read_loop]. pose proof (readtoken_spec DELIM stream tb DELIM_bytes Hs) as RT. unfold tokens at 1 2 3. destruct (runs DELIM [] stream) as [|w ws] eqn:Ew.
  - rewrite RT by (done || lia). cbn [obind]. rewrite Z.eqb_refl. exists h, (snd <$> pend), T, adj. split; [done|]. split; [done|]. cbn [fmap list_fmap]. rewrite app_nil_r. destruct pend as [[x j]|]; cbn; rewrite app_nil_r; repeat (split; [done|]); (split; [intros x'; rewrite elem_of_nil; tauto|done]).
  - destruct RT as (tb' & rest & -> & Hh & Er & Fr & Lr & Nw & Lw & Fw); [lia|done|]. cbn [obind]. destruct (Z.eqb_spec (Z.of_nat (length w)) SIZE_MAX) as [E|_]; [unfold SIZE_MAX in E; lia|]. destruct (Z.eqb_spec (Z.of_nat (length w)) 0) as [E|_]; [destruct w; [done|cbn in E; lia]|].
    rewrite (c_string_token tb' w Hh). cbn [obind]. set (x := c_prefix w). destruct (search_item_spec h root T x W (c_prefix_is_str w Fw)) as (a & h1 & T1 & -> & R1). cbn [obind].
    destruct (search_graph h root T adj ps x a h1 T1 W G R1) as (W1 & G1 & Hx & Sub & K1). assert (Et : c_prefix <$> ws = tokens rest) by (by rewrite <- Er). cbn [fmap list_fmap]. fold x. change (list_fmap (list Z) (list Z) c_prefix ws) with (c_prefix <$> ws). rewrite Et.
    assert (KK : forall z, z ∈ keys T1 \/ z ∈ tokens rest <-> z ∈ keys T \/ z ∈ x :: tokens rest) by (intros z; rewrite K1, elem_of_cons; tauto).
    destruct pend as [[y j]|]; cbn [snd fst fmap option_fmap option_map option_list app].
    + destruct (record_relation_spec h1 root T1 adj ps y j x a W1 G1 (Sub _ (Hp _ eq_refl)) Hx) as (h2 & adj2 & -> & W2 & G2); [lia|]. cbn [obind].
      destruct (IH h2 T1 adj2 (ps ++ [(y, x)]) tb' rest None W2 G2) as (h' & k & T' & adj' & E & W' & G' & K' & Ek); [apply Hh|done|lia|rewrite length_app; cbn; lia|done|].
      exists h', k, T', adj'. split; [done|]. split; [done|]. cbn in G', Ek |- *. split; [by rewrite <- app_assoc in G'|]. split; [intros z; by rewrite K', KK|done].
    + destruct (IH h1 T1 adj ps tb' rest (Some (x, a)) W1 G1) as (h' & k & T' & adj' & E & W' & G' & K' & Ek); [apply Hh|done|lia|lia|by intros e [= <-]|].
      exists h', k, T', adj'. split; [done|]. split; [done|]. split; [done|]. split; [intros z; by rewrite K', KK|done].
Qed.

(** ** Walks *)

Fixpoint visit (act : action) (l : list nat) (st : state) : option state :=
  match l with [] => Some st | a :: l => let? (_, st) := act a st in visit act l st end.

Lemma visit_app act l1 l2 st : visit act (l1 ++ l2) st = let? st := visit act l1 st in visit act l2 st.
Proof. revert st. induction l1 as [|a l1 IH]; intros st; cbn; [done|]. destruct (act a st) as [[b st']|]; cbn; [apply IH|done]. Qed.

(** An action that never stops the walk and keeps the tree. *)
Class Steady (act : action) : Prop := steady a st b st' : act a st = Some (b, st') -> b = false /\ shape <$> items (hp st') = shape <$> items (hp st) /\ brk (hp st') = brk (hp st).

Lemma visit_shape act `{Steady act} l : forall st st', visit act l st = Some st' -> shape <$> items (hp st') = shape <$> items (hp st).
Proof.
  induction l as [|a l IH]; intros st st' E; cbn in E; [by injection E as <-|]. destruct (act a st) as [[b st1]|] eqn:Ea; cbn in E; [|done]. apply steady in Ea as (_ & E1 & _). by rewrite (IH _ _ E).
Qed.

(** The walk visits the items in the order of their strings. *)
Lemma recurse_tree_spec act `{Steady act} T : forall fuel p st st', repr (items (hp st)) (Some p) T -> (length (locs T) <= fuel)%nat -> visit act (locs T) st = Some st' -> recurse_tree fuel act p st = Some (false, st').
Proof.
  induction T as [|l IHl a k b r IHr]; intros fuel p st st' R Hf V; [done|]. cbn in R. destruct R as (i & [= ->] & Hi & Hs & Hb & Hl & Hr). unfold locs in Hf, V. cbn in Hf, V. rewrite fmap_app in Hf, V. rewrite length_app in Hf. cbn in Hf, V. fold (locs l) (locs r) in Hf, V.
  rewrite visit_app in V. destruct (visit act (locs l) st) as [st1|] eqn:E1; cbn in V; [|done]. destruct (act a st1) as [[b2 st2]|] eqn:E2; cbn in V; [|done]. destruct fuel as [|fuel]; [lia|].
  pose proof (visit_shape act _ _ _ E1) as S1. pose proof (steady _ _ _ _ E2) as (-> & S2 & _).
  assert (Full : (let? (b, st) := match left i with Some l => recurse_tree fuel act l st | None => Some (false, st) end in
          if b then Some (true, st)
          else
            let? (b, st) := act a st in
            if b then Some (true, st)
            else
              let? i := items (hp st) !! a in
              match right i with Some r => recurse_tree fuel act r st | None => Some (false, st) end) = Some (false, st')).
  { replace (match left i with Some l => recurse_tree fuel act l st | None => Some (false, st) end) with (Some (false, st1)).
    2:{ destruct l as [|ll la lk lb lr]; [cbn in Hl, E1; rewrite Hl; congruence|]. pose proof Hl as (j & Ej & _). rewrite Ej in *. symmetry. apply IHl; [done|lia|done]. }
    cbn [obind]. rewrite E2. cbn [obind]. destruct (shape_lookup _ (items (hp st2)) _ _ (eq_trans S2 S1) Hi) as (i2 & Hi2 & Si). rewrite Hi2. cbn [obind]. injection Si as _ _ Er _. rewrite Er.
    destruct r as [|rl ra rk rb rr]; [cbn in Hr, V; rewrite Hr; congruence|]. pose proof Hr as (j & Ej & _). rewrite Ej in *. apply IHr; [|lia|done]. apply repr_shape with (items (hp st)); [by rewrite S2, S1|done]. }
  cbn [recurse_tree]. rewrite Hi. cbn [obind]. destruct (left i) as [pl|] eqn:El; [done|]. destruct (right i) as [pr|] eqn:Er; [done|].
  destruct l; [|by destruct Hl as (? & ? & _)]. destruct r; [|by destruct Hr as (? & ? & _)]. cbn in E1, V. injection E1 as <-. injection V as <-. done.
Qed.

Lemma walk_tree_spec act `{Steady act} root T st st' : wf (hp st) root T -> visit act (locs T) st = Some st' -> walk_tree act root st = Some st'.
Proof.
  intros W V. pose proof W as [(ri & Hri & Hr) ND _ _ _]. unfold walk_tree. rewrite Hri. cbn [obind]. destruct T as [|l a k b r]; [cbn in Hr, V; rewrite Hr; congruence|]. pose proof Hr as (i & Ei & _). rewrite Ei in *.
  rewrite (recurse_tree_spec act _ (brk (hp st)) a st st' Hr); [done| |done]. apply below_length; [by apply NoDup_cons in ND as [_ ND]|]. intros c Hc. apply (wf_addresses _ _ _ _ W). by apply elem_of_cons; right.
Qed.

#[global] Instance count_items_steady : Steady count_items.
Proof. intros a st b st' [= <- <-]. done. Qed.

Lemma visit_count l : forall st, 0 <= n_strings st -> n_strings st + Z.of_nat (length l) < 2 ^ 64 -> visit count_items l st = Some (mk_state (hp st) (head st) (zeros st) (n_strings st + Z.of_nat (length l)) (out st)).
Proof.
  induction l as [|a l IH]; intros st H0 H; cbn; [rewrite Z.add_0_r; by destruct st|]. cbn in H. rewrite IH; cbn; rewrite uint_id; try lia. do 2 f_equal. lia.
Qed.

(** ** The queue *)

Definition qat (m : gmap nat item) (a : nat) (q : option nat) : Prop := exists i, m !! a = Some i /\ qlink i = q.
Fixpoint queue (m : gmap nat item) (l : list nat) : Prop :=
  match l with [] => True | a :: l => qat m a (l !! 0%nat) /\ queue m l end.

(** The members that matter after the reading, [qlink] apart. *)
Definition core (i : item) : option (list Z) * Z * option nat := (str i, count i, top i).

Lemma queue_frame m m' l : queue m l -> (forall a q, a ∈ l -> qat m a q -> qat m' a q) -> queue m' l.
Proof. induction l as [|a l IH]; cbn; [done|]. intros [H Hq] F. split; [apply F; [by apply elem_of_cons; left|done]|]. apply IH; [done|]. intros c q Hc. apply F. by apply elem_of_cons; right. Qed.

Lemma queue_append m l z v i : NoDup (l ++ [z]) -> queue m (l ++ [z]) -> v ∉ l ++ [z] -> qat m v None -> m !! z = Some i -> queue (<[z := put_qlink (Some v) i]> m) ((l ++ [z]) ++ [v]).
Proof.
  intros ND Q Nv Hv Hz. induction l as [|a l IH]; cbn in *.
  - split; [eexists; rewrite lookup_insert_eq; done|]. split; [|done]. destruct Hv as (j & Hj & E). exists j. rewrite lookup_insert_ne; [done|]. intros <-. apply Nv. by apply elem_of_cons; left.
  - apply NoDup_cons in ND as [Na ND]. destruct Q as [(j & Hj & E) Q]. rewrite elem_of_cons in Nv. split; [|apply IH; tauto]. exists j. rewrite lookup_insert_ne; [|intros <-; apply Na, elem_of_app; right; by apply elem_of_cons; left]. split; [done|]. rewrite E. by destruct l.
Qed.

Lemma append_queue_spec st Q v : NoDup Q -> queue (items (hp st)) Q -> Q <> [] -> last Q = zeros st -> v ∉ Q -> qat (items (hp st)) v None ->
  exists st', append_queue st v = Some st' /\ queue (items (hp st')) (Q ++ [v]) /\ core <$> items (hp st') = core <$> items (hp st) /\ (forall a q, a ∉ Q -> qat (items (hp st)) a q -> qat (items (hp st')) a q) /\
    shape <$> items (hp st') = shape <$> items (hp st) /\ succs (hp st') = succs (hp st) /\ brk (hp st') = brk (hp st) /\ zeros st' = Some v /\ head st' = head st /\ n_strings st' = n_strings st /\ out st' = out st.
Proof.
  intros ND HQ Ne El Nv Hv. destruct Q as [|z Q _] using rev_ind; [done|]. rewrite last_snoc in El. assert (Hz : exists i, items (hp st) !! z = Some i).
  { clear - HQ. induction Q as [|a Q IH]; cbn in HQ; [destruct HQ as [(i & Hi & _) _]; by exists i|tauto]. }
  destruct Hz as (i & Hi). unfold append_queue, update_item, update. rewrite <- El. cbn [obind]. rewrite Hi. cbn [obind]. eexists. split; [reflexivity|]. cbn [hp items with_hp with_items succs brk zeros head n_strings out].
  split; [by apply queue_append|]. split; [rewrite fmap_insert; apply insert_id; by rewrite lookup_fmap, Hi|]. split; [|split; [by apply shape_insert with i|done]].
  intros a q Na (j & Hj & E). exists j. rewrite lookup_insert_ne; [done|]. intros <-. apply Na, elem_of_app. right. by apply elem_of_cons; left.
Qed.

(** ** Sorting *)

#[global] Instance scan_zeros_steady : Steady scan_zeros.
Proof.
  intros a st b st' E. unfold scan_zeros in E. destruct (items (hp st) !! a) as [i|]; cbn in E; [|done]. destruct (_ && _); [|by injection E as <- <-]. destruct (head st); [|by injection E as <- <-].
  unfold append_queue, update_item, update in E. destruct (zeros st) as [z|]; cbn in E; [|done]. destruct (items (hp st) !! z) as [iz|] eqn:Ez; cbn in E; [|done]. injection E as <- <-. cbn. split; [done|]. split; [by apply shape_insert with iz|done].
Qed.

Section Sort.
Context (L : list nat) (name : nat -> list Z) (adj : nat -> list nat) (tp : nat -> option nat) (S0 : gmap nat successor) (B : nat).
Hypotheses (NDL : NoDup L) (Closed : forall u v, u ∈ L -> v ∈ adj u -> v ∈ L) (Chains : forall u, u ∈ L -> chain S0 B (tp u) (adj u)) (Bound : Z.of_nat (length (flat adj L)) < 2 ^ 62) (BoundL : Z.of_nat (length L) < 2 ^ 62).

(** The relations that are still to be erased: those left of the item being
    removed, and those of the queue [Q] and of the items [W] that wait. *)
Definition pending (rest Q W : list nat) : list nat := rest ++ flat adj (Q ++ W).

(** [D] was printed; [pre] is the item being removed, still the head of the queue. *)
Record inv (st : state) (D pre Q W rest : list nat) : Prop := {
  v_succs : succs (hp st) = S0;
  v_brk : brk (hp st) = B;
  v_items : forall v, v ∈ L -> (core <$> items (hp st)) !! v = Some (if decide (v ∈ D) then None else Some (name v), Z.of_nat (occ v (pending rest Q W)), tp v);
  v_perm : D ++ Q ++ W ≡ₚ L;
  v_queue : queue (items (hp st)) (pre ++ Q);
  v_tail : pre ++ Q <> [] -> last (pre ++ Q) = zeros st;
  v_wait : forall v, v ∈ W -> qat (items (hp st)) v None /\ v ∈ pending rest Q W;
  v_zero : forall v, v ∈ D ++ Q -> v ∉ pending rest Q W;
  v_order : forall l1 v l2, D ++ Q = l1 ++ v :: l2 -> forall u, u ∈ L -> v ∈ adj u -> u ∈ l1;
  v_bound : Z.of_nat (length (pending rest Q W)) < 2 ^ 62;
  v_n : n_strings st = Z.of_nat (length Q + length W);
  v_out : out st = (fun v => Puts (name v)) <$> D }.

Lemma core_lookup (m : gmap nat item) v c : (core <$> m) !! v = Some c -> exists i, m !! v = Some i /\ core i = c.
Proof. rewrite lookup_fmap. destruct (m !! v) as [i|]; [|done]. intros [= <-]. by exists i. Qed.

Lemma pending_cons v rest Q W : pending (v :: rest) Q W = v :: pending rest Q W.
Proof. done. Qed.

Lemma pending_swap rest Q W v W' : W ≡ₚ v :: W' -> pending rest (Q ++ [v]) W' ≡ₚ pending rest Q W.
Proof. intros E. unfold pending. by rewrite E, <- app_assoc. Qed.

Lemma inv_nodup st D pre Q W rest : inv st D pre Q W rest -> NoDup (D ++ Q ++ W).
Proof. intros I. rewrite (v_perm _ _ _ _ _ _ I). done. Qed.

(** The count written back. *)
Lemma erase_count st D u Q W v rest : inv st D [u] Q W (v :: rest) -> v ∈ L ->
  exists i m, items (hp st) !! v = Some i /\ uint 64 (count i - 1) = Z.of_nat (occ v (pending rest Q W)) /\ m = <[v := put_count (uint 64 (count i - 1)) i]> (items (hp st)) /\ v ∈ W /\
    (forall w, w ∈ L -> (core <$> m) !! w = Some (if decide (w ∈ D) then None else Some (name w), Z.of_nat (occ w (pending rest Q W)), tp w)) /\ (forall a q, qat (items (hp st)) a q -> qat m a q).
Proof.
  intros I Hv. destruct (core_lookup _ _ _ (v_items _ _ _ _ _ _ I v Hv)) as (i & Hi & Ci). injection Ci as C1 C2 C3. rewrite pending_cons, occ_cons, decide_True in C2 by done.
  assert (Ec : uint 64 (count i - 1) = Z.of_nat (occ v (pending rest Q W))).
  { rewrite C2. pose proof (v_bound _ _ _ _ _ _ I) as Bd. rewrite pending_cons in Bd. cbn in Bd. pose proof (occ_le v (pending rest Q W)). rewrite uint_id; lia. }
  exists i. eexists. split; [done|]. split; [done|]. split; [reflexivity|]. split; [|split].
  - assert (Hm : v ∈ D ++ Q ++ W) by (by rewrite (v_perm _ _ _ _ _ _ I)). rewrite app_assoc, elem_of_app in Hm. destruct Hm as [Hm|Hm]; [|done]. exfalso. apply (v_zero _ _ _ _ _ _ I v Hm). rewrite pending_cons. by apply elem_of_cons; left.
  - intros w Hw. rewrite Ec, fmap_insert. destruct (decide (w = v)) as [->|N]; [rewrite lookup_insert_eq; unfold core; cbn; by rewrite C1, C3|]. rewrite lookup_insert_ne by done. rewrite (v_items _ _ _ _ _ _ I w Hw). do 3 f_equal. by rewrite pending_cons, occ_cons, decide_False.
  - intros a q (j & Hj & E). destruct (decide (a = v)) as [->|N]; [rewrite Hi in Hj; injection Hj as <-; eexists; rewrite lookup_insert_eq; done|]. exists j. by rewrite lookup_insert_ne.
Qed.

Lemma erase_one_spec st D u Q W v rest : inv st D [u] Q W (v :: rest) -> u ∈ D -> v ∈ L ->
  exists i st' Q' W', items (hp st) !! v = Some i /\ erase_one st v (uint 64 (count i - 1)) = Some st' /\ inv st' D [u] Q' W' rest /\ Q' ++ W' ≡ₚ Q ++ W /\ head st' = head st.
Proof.
  intros I Hu Hv. destruct (erase_count st D u Q W v rest I Hv) as (i & m & Hi & Ec & Em & HvW & Hit & Hq). exists i. pose proof (inv_nodup _ _ _ _ _ _ I) as ND. pose proof (v_bound _ _ _ _ _ _ I) as Bd. rewrite pending_cons in Bd. cbn in Bd.
  unfold erase_one, update_item, update. rewrite Hi. cbn [obind]. rewrite <- Em, Ec. set (st1 := with_hp st (with_items (hp st) m)).
  assert (Sub : forall w, w ∈ pending rest Q W -> w ∈ pending (v :: rest) Q W) by (intros w Hw; rewrite pending_cons; by apply elem_of_cons; right).
  destruct (Z.eqb_spec (Z.of_nat (occ v (pending rest Q W))) 0) as [E0|N0].
  - assert (Nv : v ∉ pending rest Q W) by (rewrite <- occ_pos; lia). apply elem_of_Permutation in HvW as [W' EW]. pose proof (pending_swap rest Q W v W' EW) as Pp.
    assert (NQ : NoDup ([u] ++ Q) /\ v ∉ [u] ++ Q /\ v ∉ W' /\ forall w, w ∈ W' -> w ∉ [u] ++ Q).
    { rewrite EW in ND. apply NoDup_app in ND as (_ & Dis & ND). apply NoDup_app in ND as (NQ & DisQ & NW). apply NoDup_cons in NW as [NvW _]. cbn. split; [apply NoDup_cons; split; [intros E; apply (Dis u Hu), elem_of_app; by left|done]|].
      setoid_rewrite elem_of_cons. split; [|split; [done|]].
      - intros [->|E]; [apply (Dis u Hu), elem_of_app; right; by apply elem_of_cons; left|]. apply (DisQ v E). by apply elem_of_cons; left.
      - intros w Hw [->|E]; [apply (Dis u Hu), elem_of_app; right; by apply elem_of_cons; right|]. apply (DisQ w E). by apply elem_of_cons; right. }
    destruct NQ as (NQ & NvQ & NvW & NWQ). destruct (v_wait _ _ _ _ _ _ I v) as [Hqv _]; [rewrite EW; by apply elem_of_cons; left|].
    destruct (append_queue_spec st1 ([u] ++ Q) v NQ) as (st' & E & Q1 & Q2 & Q3 & _ & Q5 & Q6 & Q7 & Q8 & Q9 & Q10); [apply queue_frame with (items (hp st)); [apply I|]; intros a q _; apply Hq|done|by apply (v_tail _ _ _ _ _ _ I)|done|by apply Hq|].
    exists st', (Q ++ [v]), W'. split; [done|]. split; [done|]. split; [|split; [by rewrite EW, <- app_assoc|done]]. constructor.
    + rewrite Q5. apply I.
    + rewrite Q6. apply I.
    + intros w Hw. rewrite Q2, Pp. by apply Hit.
    + rewrite <- (v_perm _ _ _ _ _ _ I), EW. by rewrite <- app_assoc.
    + by rewrite app_assoc.
    + intros _. by rewrite app_assoc, last_snoc.
    + intros w Hw. rewrite Pp. destruct (v_wait _ _ _ _ _ _ I w) as [W1 W2]; [rewrite EW; by apply elem_of_cons; right|]. split; [apply Q3; [by apply NWQ|by apply Hq]|]. rewrite pending_cons in W2. apply elem_of_cons in W2 as [->|W2]; [done|exact W2].
    + intros w. rewrite Pp, app_assoc, elem_of_app. intros [Hw|Hw]; [intros E1; by apply (v_zero _ _ _ _ _ _ I w Hw), Sub|]. apply elem_of_cons in Hw as [->|Hw]; [done|by apply not_elem_of_nil in Hw].
    + intros l1 w l2. rewrite app_assoc. intros Eq x Hx Hwx. destruct l2 as [|z l2 _] using rev_ind.
      * apply app_inj_tail in Eq as [<- <-]. apply elem_of_app. assert (Hm : x ∈ D ++ Q ++ W) by (by rewrite (v_perm _ _ _ _ _ _ I)). rewrite elem_of_app in Hm. destruct Hm as [Hm|Hm]; [by left|]. exfalso. apply Nv. unfold pending. apply elem_of_app. right. apply elem_of_flat. by exists x.
      * rewrite app_comm_cons, app_assoc in Eq. apply app_inj_tail in Eq as [Eq _]. by apply (v_order _ _ _ _ _ _ I l1 w l2).
    + rewrite Pp. lia.
    + rewrite Q9. cbn. rewrite (v_n _ _ _ _ _ _ I), EW, length_app. cbn. lia.
    + rewrite Q10. apply I.
  - exists st1, Q, W. split; [done|]. split; [done|]. split; [|done]. constructor; try (by apply I); try done.
    + apply queue_frame with (items (hp st)); [apply I|]. intros a q _. apply Hq.
    + intros w Hw. destruct (v_wait _ _ _ _ _ _ I w Hw) as [W1 W2]. split; [by apply Hq|]. rewrite pending_cons in W2. apply elem_of_cons in W2 as [->|W2]; [apply occ_pos; lia|exact W2].
    + intros w Hw E1. by apply (v_zero _ _ _ _ _ _ I w Hw), Sub.
    + lia.
Qed.

Lemma erase_relations_spec rest : forall fuel st D u Q W b p, inv st D [u] Q W rest -> u ∈ D -> (forall v, v ∈ rest -> v ∈ L) -> chain S0 b p rest -> (length rest <= fuel)%nat ->
  exists st' Q' W', erase_relations fuel st p = Some st' /\ inv st' D [u] Q' W' [] /\ Q' ++ W' ≡ₚ Q ++ W /\ head st' = head st.
Proof.
  induction rest as [|v rest IH]; intros fuel st D u Q W b p I Hu HL Hc Hf; cbn in Hc.
  - subst p. exists st, Q, W. split; [by destruct fuel|done].
  - destruct Hc as (a & s & -> & La & Hs & <- & Hc). destruct fuel as [|fuel]; [cbn in Hf; lia|]. cbn [erase_relations]. rewrite (v_succs _ _ _ _ _ _ I), Hs. cbn [obind].
    destruct (erase_one_spec st D u Q W (suc s) rest I Hu) as (i & st1 & Q1 & W1 & -> & E & I1 & P1 & H1); [apply HL; by apply elem_of_cons; left|]. cbn [obind]. rewrite E. cbn [obind].
    destruct (IH fuel st1 D u Q1 W1 a (next s) I1 Hu) as (st' & Q' & W' & E' & I' & P' & H'); [intros w Hw; apply HL; by apply elem_of_cons; right|done|cbn in Hf; lia|].
    exists st', Q', W'. split; [done|]. split; [done|]. split; [by rewrite P'|congruence].
Qed.

(** T5 and the first half of T6: the head of the queue is printed. *)
Lemma print_head st D u Q W i s : inv st D [] (u :: Q) W [] -> items (hp st) !! u = Some i -> str i = Some s ->
  inv (mk_state (with_items (hp st) (<[u := clear_str i]> (items (hp st)))) (head st) (zeros st) (uint 64 (n_strings st - 1)) (out st ++ [Puts s])) (D ++ [u]) [u] Q W (adj u).
Proof.
  intros I Hi Hs. pose proof (inv_nodup _ _ _ _ _ _ I) as ND. apply NoDup_app in ND as (_ & Dis & ND). assert (Nu : u ∉ D) by (intros E; apply (Dis u E); cbn; by apply elem_of_cons; left). cbn in ND. apply NoDup_cons in ND as [NuQ ND].
  assert (Ep : pending (adj u) Q W = pending [] (u :: Q) W) by done. assert (HuL : u ∈ L) by (rewrite <- (v_perm _ _ _ _ _ _ I), !elem_of_app; right; left; by apply elem_of_cons; left).
  assert (Es : s = name u). { destruct (core_lookup _ _ _ (v_items _ _ _ _ _ _ I u HuL)) as (i' & Hi' & Ci). rewrite Hi in Hi'. injection Hi' as <-. rewrite decide_False in Ci by done. injection Ci as C1 _ _. congruence. }
  assert (Hq : forall a q, qat (items (hp st)) a q -> qat (<[u := clear_str i]> (items (hp st))) a q).
  { intros a q (j & Hj & E). destruct (decide (a = u)) as [->|N]; [rewrite Hi in Hj; injection Hj as <-; eexists; rewrite lookup_insert_eq; done|]. exists j. by rewrite lookup_insert_ne. }
  constructor; cbn [hp head zeros n_strings out with_items items succs brk]; rewrite ?Ep; try (by apply I).
  - intros v Hv. rewrite fmap_insert. destruct (decide (v = u)) as [->|N].
    + rewrite lookup_insert_eq, decide_True by (apply elem_of_app; right; by apply elem_of_cons; left). destruct (core_lookup _ _ _ (v_items _ _ _ _ _ _ I u HuL)) as (i' & Hi' & Ci). rewrite Hi in Hi'. injection Hi' as <-. injection Ci as _ C2 C3. unfold core. cbn. by rewrite C2, C3.
    + rewrite lookup_insert_ne, (v_items _ _ _ _ _ _ I v Hv) by done. do 3 f_equal. apply decide_ext. rewrite elem_of_app, elem_of_cons, elem_of_nil. tauto.
  - rewrite <- app_assoc. apply (v_perm _ _ _ _ _ _ I).
  - apply queue_frame with (items (hp st)); [apply (v_queue _ _ _ _ _ _ I)|]. intros a q _. apply Hq.
  - intros v Hv. destruct (v_wait _ _ _ _ _ _ I v Hv) as [W1 W2]. split; [by apply Hq|done].
  - intros v Hv. apply (v_zero _ _ _ _ _ _ I v). by rewrite <- app_assoc in Hv.
  - intros l1 v l2. rewrite <- app_assoc. apply (v_order _ _ _ _ _ _ I).
  - assert (LL : (length (u :: Q) + length W <= length L)%nat) by (rewrite <- (v_perm _ _ _ _ _ _ I), !length_app; lia). rewrite (v_n _ _ _ _ _ _ I). cbn [length] in *. rewrite uint_id; lia.
  - rewrite (v_out _ _ _ _ _ _ I), Es. by rewrite fmap_app.
Qed.

Lemma drain_spec : forall fuel st D Q W, inv st D [] Q W [] -> head st = Q !! 0%nat -> (length Q + length W < fuel)%nat ->
  exists st' D' W', drain fuel st = Some st' /\ inv st' D' [] [] W' [].
Proof.
  induction fuel as [|fuel IH]; intros st D Q W I Hh Hf; [lia|]. cbn [drain]. rewrite Hh. destruct Q as [|u Q]; [exists st, D, W; done|]. cbn [lookup list_lookup].
  assert (HuL : u ∈ L) by (rewrite <- (v_perm _ _ _ _ _ _ I), !elem_of_app; right; left; by apply elem_of_cons; left). pose proof (inv_nodup _ _ _ _ _ _ I) as ND. apply NoDup_app in ND as (_ & Dis & _).
  assert (Nu : u ∉ D) by (intros E; apply (Dis u E); cbn; by apply elem_of_cons; left). destruct (core_lookup _ _ _ (v_items _ _ _ _ _ _ I u HuL)) as (i & Hi & Ci). rewrite decide_False in Ci by done. injection Ci as C1 _ C3.
  rewrite Hi. cbn [obind]. rewrite C1. cbn [obind]. unfold update_item, update. cbn [hp items]. rewrite Hi. cbn [obind hp with_hp head zeros n_strings out with_items brk items succs]. pose proof (print_head st D u Q W i (name u) I Hi C1) as I1.
  pose proof (Chains u HuL) as Hc. rewrite <- C3 in Hc. pose proof (v_brk _ _ _ _ _ _ I) as EB. rewrite EB.
  destruct (erase_relations_spec (adj u) B _ _ u Q W B (top i) I1) as (st2 & Q2 & W2 & E2 & I2 & P2 & H2); [apply elem_of_app; right; by apply elem_of_cons; left|by intros v; apply Closed|done|by apply chain_length in Hc|].
  cbn [lookup list_lookup] in Hh. rewrite Hh in E2. rewrite E2. cbn [obind]. destruct (v_queue _ _ _ _ _ _ I2) as [(i2 & Hi2 & Eq2) Q2']. cbn [app] in Hi2, Eq2. rewrite Hi2. cbn [obind]. rewrite Eq2.
  apply (IH _ (D ++ [u]) Q2 W2); [|done|].
  - constructor; try (by apply I2); cbn [hp zeros app]. intros Ne. rewrite <- (v_tail _ _ _ _ _ _ I2) by done. cbn. by destruct Q2.
  - apply Permutation_length in P2. rewrite !length_app in P2. cbn in Hf. lia.
Qed.

(** T4: the items without predecessors, in the order of the walk. *)
Definition free (v : nat) : bool := bool_decide (v ∉ flat adj L).

Lemma visit_scan l : forall st Q, (forall v, v ∈ L -> (core <$> items (hp st)) !! v = Some (Some (name v), Z.of_nat (occ v (flat adj L)), tp v)) ->
  NoDup (Q ++ l) -> (forall v, v ∈ l -> v ∈ L) -> (forall v, v ∈ L -> v ∉ Q -> qat (items (hp st)) v None) -> queue (items (hp st)) Q -> (Q <> [] -> last Q = zeros st) -> head st = Q !! 0%nat ->
  exists st', visit scan_zeros l st = Some st' /\ core <$> items (hp st') = core <$> items (hp st) /\ (forall v, v ∈ L -> v ∉ Q ++ filter (fun v => free v) l -> qat (items (hp st')) v None) /\
    queue (items (hp st')) (Q ++ filter (fun v => free v) l) /\ (Q ++ filter (fun v => free v) l <> [] -> last (Q ++ filter (fun v => free v) l) = zeros st') /\ head st' = (Q ++ filter (fun v => free v) l) !! 0%nat /\
    succs (hp st') = succs (hp st) /\ brk (hp st') = brk (hp st) /\ n_strings st' = n_strings st /\ out st' = out st.
Proof.
  induction l as [|a l IH]; intros st Q Hc ND HL Hw HQ Hl Hh; cbn [visit].
  - exists st. cbn. rewrite app_nil_r. done.
  - assert (Ha : a ∈ L) by (apply HL; by apply elem_of_cons; left). assert (HL' : forall v, v ∈ l -> v ∈ L) by (intros v Hv; apply HL; by apply elem_of_cons; right). assert (NaQ : a ∉ Q) by (apply NoDup_app in ND as (_ & Dis & _); intros E; apply (Dis a E); by apply elem_of_cons; left).
    destruct (core_lookup _ _ _ (Hc a Ha)) as (i & Hi & Ci). injection Ci as C1 C2 C3. unfold scan_zeros at 1. rewrite Hi. cbn [obind]. rewrite C1, C2, bool_decide_true, andb_true_r by done. rewrite filter_cons.
    assert (Ez : (Z.of_nat (occ a (flat adj L)) =? 0) = free a) by (unfold free; pose proof (occ_pos a (flat adj L)); destruct (Z.eqb_spec (Z.of_nat (occ a (flat adj L))) 0); symmetry; [apply bool_decide_true|apply bool_decide_false]; [intros E|intros E; apply E]; [apply H in E|apply H]; lia).
    rewrite Ez. destruct (free a) eqn:Ef; [rewrite decide_True by exact I|rewrite decide_False by (intros [])].
    2:{ cbn [obind]. apply IH; auto. apply NoDup_app in ND as (N1 & N2 & N3). apply NoDup_cons in N3 as [_ N3]. apply NoDup_app. repeat split; auto. intros x Hx E. apply (N2 x Hx). by apply elem_of_cons; right. }
    replace (Q ++ a :: filter (fun v => free v) l) with ((Q ++ [a]) ++ filter (fun v => free v) l) by (by rewrite <- app_assoc). assert (ND' : NoDup ((Q ++ [a]) ++ l)) by (by rewrite <- app_assoc).
    rewrite Hh. destruct Q as [|q Q].
    + cbn [lookup list_lookup obind]. set (st1 := mk_state _ _ _ _ _). destruct (IH st1 [a]) as (st' & E & R); auto.
      { intros v Hv _. apply Hw; [done|]. apply not_elem_of_nil. }
      { cbn. split; [by apply Hw|done]. }
      exists st'. done.
    + cbn [lookup list_lookup]. assert (NQ : NoDup (q :: Q)) by (by apply NoDup_app in ND as (? & _ & _)). destruct (append_queue_spec st (q :: Q) a NQ) as (st1 & -> & R1 & R2 & R3 & _ & R5 & R6 & R7 & R8 & R9 & R10); auto. cbn [obind].
      destruct (IH st1 ((q :: Q) ++ [a])) as (st' & E & T1 & T2 & T3 & T4 & T5 & T6 & T7 & T8 & T9); [by rewrite R2|done|done| |done|intros _; by rewrite last_snoc|by rewrite R8, Hh|].
      { intros v Hv Nv. rewrite elem_of_app in Nv. apply R3; [tauto|]. apply Hw; tauto. }
      exists st'. rewrite E, T1, T6, T7, T8, T9, R2, R5, R6, R9, R10. done.
Qed.

Lemma scan_inv st : (forall v, v ∈ L -> exists i, items (hp st) !! v = Some i /\ core i = (Some (name v), Z.of_nat (occ v (flat adj L)), tp v) /\ qlink i = None) ->
  succs (hp st) = S0 -> brk (hp st) = B -> head st = None -> n_strings st = Z.of_nat (length L) -> out st = [] ->
  exists st' Q W, visit scan_zeros L st = Some st' /\ inv st' [] [] Q W [] /\ head st' = Q !! 0%nat.
Proof.
  intros Hi Hs Hb Hh Hn Ho. destruct (visit_scan L st []) as (st' & E & T1 & T2 & T3 & T4 & T5 & T6 & T7 & T8 & T9); [|done|done| |done|done|done|].
  { intros v Hv. rewrite lookup_fmap. destruct (Hi v Hv) as (i & -> & <- & _). done. }
  { intros v Hv _. destruct (Hi v Hv) as (i & Ei & _ & Eq). by exists i. }
  cbn [app] in *. set (Q := filter (fun v => free v) L) in *. set (W := filter (fun v => negb (free v)) L). exists st', Q, W. split; [done|]. split; [|done].
  assert (Pm : Q ++ W ≡ₚ L).
  { unfold Q, W. clear. induction L as [|a l IH]; [done|]. rewrite !filter_cons. destruct (free a); cbn [negb]; [rewrite decide_True, decide_False by (exact I || (intros []))|rewrite decide_False, decide_True by (exact I || (intros []))]; [cbn; by rewrite IH|]. rewrite <- Permutation_middle. by rewrite IH. }
  assert (Pe : pending [] Q W ≡ₚ flat adj L) by (unfold pending; cbn; by rewrite Pm).
  assert (HQ : forall v, v ∈ Q -> v ∉ flat adj L) by (intros v Hv; apply list_elem_of_filter in Hv as [Hv _]; unfold free in Hv; by apply bool_decide_unpack in Hv).
  constructor; try done; [by rewrite T6|by rewrite T7| | | | | | |].
  - intros v Hv. rewrite T1, Pe, decide_False by (apply not_elem_of_nil). destruct (Hi v Hv) as (i & Ei & <- & _). by rewrite lookup_fmap, Ei.
  - intros v Hv. apply list_elem_of_filter in Hv as [Hf Hv]. split; [apply T2; [done|]; intros E1; apply list_elem_of_filter in E1 as [E1 _]; by destruct (free v)|]. rewrite Pe. unfold free in Hf. apply negb_True in Hf. destruct (decide (v ∈ flat adj L)); [done|]. by rewrite bool_decide_true in Hf.
  - intros v Hv. rewrite Pe. by apply HQ.
  - intros l1 v l2 Eq u Hu Hv. exfalso. apply (HQ v); [cbn in Eq; rewrite Eq; apply elem_of_app; right; by apply elem_of_cons; left|]. apply elem_of_flat. by exists u.
  - by rewrite Pe.
  - rewrite T8, Hn, <- Pm, length_app. done.
  - by rewrite T9, Ho.
Qed.
End Sort.

(** ** Loops *)

(** Every item that waits has a predecessor that waits: then some of them form a loop. *)
Lemma loop_exists {A} (Pr : A -> Prop) (W : list A) : forall (R : relation A) y, NoDup W -> y ∈ W -> Pr y -> (forall v, v ∈ W -> Pr v -> exists u, u ∈ W /\ Pr u /\ R u v) -> exists x, x ∈ W /\ Pr x /\ tc R x x.
Proof.
  remember (length W) as n eqn:En. revert W En. induction n as [|n IH]; intros W En R y ND Hy Py Hp; [destruct W; [by apply not_elem_of_nil in Hy|done]|].
  apply elem_of_Permutation in Hy as [W' EW]. rewrite EW in ND, En. apply NoDup_cons in ND as [Ny ND]. setoid_rewrite EW in Hp. setoid_rewrite EW.
  destruct (Hp y) as (w & Hw & Pw & Rw); [by apply elem_of_cons; left|done|]. apply elem_of_cons in Hw as [->|Hw]; [exists y; split; [by apply elem_of_cons; left|split; [done|by apply tc_once]]|].
  destruct (IH W' ltac:(cbn in En; lia) (fun u v => R u v \/ (R u y /\ R y v)) w ND Hw Pw) as (x & Hx & Px & C).
  - intros v Hv Pv. destruct (Hp v) as (u & Hu & Pu & Ru); [by apply elem_of_cons; right|done|]. apply elem_of_cons in Hu as [->|Hu]; [exists w; auto|exists u; auto].
  - exists x. split; [by apply elem_of_cons; right|]. split; [done|]. assert (G : forall u v, tc (fun u v => R u v \/ (R u y /\ R y v)) u v -> tc R u v); [|by apply G].
    induction 1 as [u v [H|[H1 H2]]|u v z [H|[H1 H2]] _ IHt]; [by apply tc_once|by apply tc_l with y; [|apply tc_once]|by apply tc_l with v|]. apply tc_l with y; [done|]. by apply tc_l with v.
Qed.

(** Every string comes after those it must follow. *)
Definition ordered (ps : list (list Z * list Z)) (ds : list (list Z)) : Prop :=
  forall l1 y l2, ds = l1 ++ y :: l2 -> forall x, precedes ps x y -> x ∈ l1.

Lemma ordered_tc ps ds x y l1 l2 : ordered ps ds -> tc (precedes ps) x y -> ds = l1 ++ y :: l2 -> x ∈ l1.
Proof.
  intros O H. revert l1 l2. induction H as [x y H|x y z H _ IH]; intros l1 l2 E; [by apply (O l1 y l2)|]. pose proof (IH l1 l2 E) as Hy. apply list_elem_of_split in Hy as (a & b & ->).
  apply elem_of_app. left. apply (O a y (b ++ z :: l2)); [by rewrite E, <- app_assoc|done].
Qed.

(** A string of a sorted output is on no loop and after none. *)
Lemma ordered_no_loop ps ds c x : ordered ps ds -> NoDup ds -> x ∈ ds -> rtc (precedes ps) c x -> ~ tc (precedes ps) c c.
Proof.
  intros O ND Hx Hr Hc. assert (Hd : c ∈ ds).
  { apply rtc_tc in Hr as [->|Hr]; [done|]. apply list_elem_of_split in Hx as (a & b & E). apply (ordered_tc ps ds c x a b O Hr) in E as Hin. rewrite E. apply elem_of_app. by left. }
  apply list_elem_of_split in Hd as (a & b & E). pose proof (ordered_tc ps ds c c a b O Hc E) as Hin. rewrite E in ND. apply NoDup_app in ND as (_ & Dis & _). apply (Dis c Hin). by apply elem_of_cons; left.
Qed.

(** ** The sort of a graph *)

Definition name_of (T : tree) (a : nat) : list Z := match list_find (fun e => e.2 = a) (entries T) with Some (_, (x, _)) => x | None => [] end.

Lemma name_of_entry h root T x a : wf h root T -> (x, a) ∈ entries T -> name_of T a = x.
Proof.
  intros W E. destruct (wf_unique h root T W) as [_ U]. unfold name_of. destruct (list_find _ _) as [[n [y b]]|] eqn:F.
  - apply list_find_Some in F as (F & Eb & _). cbn in Eb. subst b. apply list_elem_of_lookup_2 in F. by apply (U y x a).
  - apply list_find_None in F. rewrite Forall_forall in F. by apply F in E.
Qed.

Lemma names_keys h root T : wf h root T -> name_of T <$> locs T = keys T.
Proof. intros W. unfold locs, keys. rewrite <- list_fmap_compose. apply list_fmap_ext. intros i [x a] E. cbn. apply list_elem_of_lookup_2 in E. by apply (name_of_entry h root T). Qed.

Lemma sort_loop_spec h root T adj ps : wf h root T -> graph h T adj ps -> Z.of_nat (length ps) < 2 ^ 62 -> Z.of_nat (length (locs T)) < 2 ^ 62 ->
  exists r st' ds ws, sort_loop 2 root (mk_state h None None (Z.of_nat (length (locs T))) []) = Some (r, st') /\
    ds ++ ws ≡ₚ keys T /\ ordered ps ds /\ (forall y, y ∈ ws -> exists x, x ∈ ws /\ precedes ps x y) /\
    (ws = [] /\ r = Returned true /\ out st' = Puts <$> ds \/ ws <> [] /\ r = Exit (-1) /\ out st' = (Puts <$> ds) ++ [Printf_error 0 0]).
Proof.
  intros W G Hb Hl. set (L := locs T). pose proof (wf_nodup _ _ _ W) as ND. apply NoDup_cons in ND as [_ ND]. cbn [sort_loop n_strings]. destruct (Z.eqb_spec (Z.of_nat (length L)) 0) as [E0|N0].
  - assert (EL : L = []) by (destruct L; [done|cbn in E0; lia]). exists (Returned true). eexists _, [], []. split; [reflexivity|]. rewrite <- (names_keys h root T W). fold L. rewrite EL. split; [done|]. split; [intros [|? ?] ? ? [=]|]. split; [intros y Hy; by apply not_elem_of_nil in Hy|by left].
  - set (tp := fun v => match items h !! v with Some i => top i | None => None end).
    assert (Hi : forall v, v ∈ L -> exists i, items h !! v = Some i /\ core i = (Some (name_of T v), Z.of_nat (occ v (flat adj L)), tp v) /\ qlink i = None /\ chain (succs h) (brk h) (tp v) (adj v)).
    { intros v Hv. apply loc_entry in Hv as (x & Hx). destruct (g_items _ _ _ _ G x v Hx) as (i & Ei & E1 & E2 & E3 & E4). exists i. split; [done|]. unfold core, tp. rewrite Ei, E1, E3, (name_of_entry h root T x v W Hx). done. }
    assert (Closed : forall u v, u ∈ L -> v ∈ adj u -> v ∈ L). { intros u v Hu Hv. apply loc_entry in Hu as (x & Hx). apply (g_edges _ _ _ _ G x u v Hx) in Hv as (y & Hy & _). by apply entries_loc in Hy. }
    assert (Edge : forall u v, u ∈ L -> v ∈ L -> v ∈ adj u <-> precedes ps (name_of T u) (name_of T v)).
    { intros u v Hu Hv. apply loc_entry in Hu as (x & Hx). apply loc_entry in Hv as (y & Hy). rewrite (g_edges _ _ _ _ G x u v Hx), (name_of_entry h root T x u W Hx), (name_of_entry h root T y v W Hy).
      split; [intros (z & Hz & R); destruct (wf_unique h root T W) as [_ U]; by rewrite (U y z v)|intros R; by exists y]. }
    assert (BF : Z.of_nat (length (flat adj L)) < 2 ^ 62) by (pose proof (g_total _ _ _ _ G); fold L in H; lia).
    destruct (scan_inv L (name_of T) adj tp (succs h) (brk h) ND BF (mk_state h None None (Z.of_nat (length L)) [])) as (st1 & Q & W1 & E1 & I1 & H1); try done. { intros v Hv. destruct (Hi v Hv) as (i & ? & ? & ? & _). by exists i. }
    rewrite (walk_tree_spec scan_zeros root T (mk_state h None None (Z.of_nat (length L)) []) st1 W E1). cbn [obind]. assert (LQ : (length Q + length W1 <= brk (hp st1))%nat).
    { pose proof (v_perm _ _ _ _ _ _ _ _ _ _ _ _ I1) as P. apply Permutation_length in P. rewrite !length_app in P. cbn in P. rewrite (v_brk _ _ _ _ _ _ _ _ _ _ _ _ I1), P. apply below_length; [done|]. intros a Ha. apply (wf_addresses h root T a W). by apply elem_of_cons; right. }
    destruct (drain_spec L (name_of T) adj tp (succs h) (brk h) ND Closed ltac:(intros u Hu; by destruct (Hi u Hu) as (? & _ & _ & _ & ?)) Hl (S (brk (hp st1))) st1 [] Q W1 I1 H1 ltac:(lia)) as (st2 & D & W2 & -> & I2). cbn [obind].
    assert (Pm : D ++ W2 ≡ₚ L) by (pose proof (v_perm _ _ _ _ _ _ _ _ _ _ _ _ I2) as P; exact P). assert (Nn : n_strings st2 = Z.of_nat (length W2)) by (by rewrite (v_n _ _ _ _ _ _ _ _ _ _ _ _ I2)).
    assert (Eo : out st2 = Puts <$> (name_of T <$> D)) by (rewrite (v_out _ _ _ _ _ _ _ _ _ _ _ _ I2); by rewrite <- list_fmap_compose).
    assert (Pk : (name_of T <$> D) ++ (name_of T <$> W2) ≡ₚ keys T) by (rewrite <- (names_keys h root T W), <- fmap_app; by rewrite Pm).
    assert (Or : ordered ps (name_of T <$> D)).
    { intros l1 y l2 E x R. apply fmap_app_inv in E as (d1 & d2 & -> & E & ED). symmetry in E. apply fmap_cons_inv in E as (v & d3 & -> & -> & ->). assert (Hv : v ∈ L) by (rewrite <- Pm, ED, !elem_of_app; left; right; by apply elem_of_cons; left).
      pose proof R as [Kx _]. apply (g_known _ _ _ _ G) in Kx as [Kx _]. apply key_entry in Kx as (u & Hu). pose proof (entries_loc T x u Hu) as Lu. rewrite <- (name_of_entry h root T x u W Hu) in R |- *. apply (Edge u v Lu Hv) in R.
      apply list_elem_of_fmap_2, (v_order _ _ _ _ _ _ _ _ _ _ _ _ I2 d1 v d3); [by rewrite app_nil_r|done|done]. }
    assert (Wt : forall y, y ∈ name_of T <$> W2 -> exists x, x ∈ name_of T <$> W2 /\ precedes ps x y).
    { intros y Hy. apply list_elem_of_fmap in Hy as (v & -> & Hv). destruct (v_wait _ _ _ _ _ _ _ _ _ _ _ _ I2 v Hv) as [_ Hp]. unfold pending in Hp. cbn in Hp. apply elem_of_flat in Hp as (u & Hu & Huv). exists (name_of T u). split; [by apply list_elem_of_fmap_2|]. apply Edge; [rewrite <- Pm; apply elem_of_app; by right..|done]. }
    rewrite Nn. destruct W2 as [|w W2].
    + exists (Returned true), st2, (name_of T <$> D), []. destruct (Z.ltb_spec 0 (Z.of_nat (length (@nil nat)))) as [C|_]; [cbn in C; lia|]. cbn. split; [done|]. split; [exact Pk|]. split; [done|]. split; [done|by left].
    + destruct (Z.ltb_spec 0 (Z.of_nat (length (w :: W2)))) as [_|C]; [|cbn in C; lia]. exists (Exit (-1)). eexists _, (name_of T <$> D), (name_of T <$> w :: W2). split; [reflexivity|]. split; [done|]. split; [done|]. split; [done|right]. cbn [out]. by rewrite Eo.
Qed.

(** ** The program *)

Definition acyclic (ps : list (list Z * list Z)) : Prop := forall x, ~ tc (precedes ps) x x.

Lemma words_length delim s : forall cur, (length (runs delim cur s) <= length s + match cur with [] => 0 | _ => 1 end)%nat.
Proof.
  induction s as [|c s IH]; intros cur; cbn; [destruct cur; cbn; lia|]. destruct (is_delim delim c).
  - specialize (IH []). destruct cur; cbn in *; lia.
  - specialize (IH (cur ++ [c])). destruct cur; cbn in *; lia.
Qed.

Lemma pairs_length l : (length (pairs l) <= length l)%nat.
Proof. revert l. fix IH 1. intros [|x [|y l]]; cbn; [lia..|]. specialize (IH l). lia. Qed.

Lemma initial_graph : let '(root, h) := new_item (mk_heap ∅ ∅ 0) None in wf h root Leaf /\ graph h Leaf (fun _ => []) [].
Proof.
  cbn. split; [exact wf_header|].
  constructor; cbn; try done; intros x y; [|intros v|]; intros H; by apply not_elem_of_nil in H.
Qed.

Section Program.
Context (stdin : list Z) (freopen : list Z -> option (list Z)) (fclose : bool) (file stream : list Z).
Hypotheses (Hin : (if strcmp file [45] =? 0 then Some stdin else freopen file) = Some stream) (Hbytes : Forall is_byte stream) (Hlen : Z.of_nat (length stream) < 2 ^ 62).

Definition finish (r : outcome) (evs : list event) : outcome * list event :=
  match r with Exit _ => (r, evs) | Returned ok => if fclose then (Returned ok, evs) else (Exit (-1), evs ++ [Printf_died 1]) end.

Lemma tsort_run :
  if Nat.even (length (tokens stream)) then
    exists ds ws, NoDup (ds ++ ws) /\ (forall x, x ∈ ds ++ ws <-> x ∈ tokens stream) /\ ordered (pairs (tokens stream)) ds /\
      (forall y, y ∈ ws -> exists x, x ∈ ws /\ precedes (pairs (tokens stream)) x y) /\
      tsort stdin freopen fclose file = Some (match ws with [] => finish (Returned true) (Puts <$> ds) | _ => (Exit (-1), (Puts <$> ds) ++ [Printf_error 0 0]) end)
  else tsort stdin freopen fclose file = Some (Exit (-1), [Printf_died 1]).
Proof.
  pose proof initial_graph as IG. unfold tsort. destruct (new_item (mk_heap ∅ ∅ 0) None) as [root h]. destruct IG as [W G]. rewrite Hin.
  destruct (read_relations_spec root (S (length stream)) h Leaf (fun _ => []) [] init_tokenbuffer stream None W G) as (h' & k & T & adj & E & W' & G' & K & Ek); [done|done|lia|cbn; lia|done|]. change (option_list (fst <$> None) ++ tokens stream) with (tokens stream) in G', Ek. cbn [app] in G'. cbn [fmap option_fmap option_map] in E. rewrite E. cbn [obind].
  destruct (Nat.even (length (tokens stream))) eqn:Ev; [|destruct k; [done|destruct Ek as [Ek _]; specialize (Ek eq_refl); congruence]]. assert (k = None) as -> by (by apply Ek).
  assert (NK : NoDup (keys T)) by (apply sorted_nodup, (wf_sorted _ _ _ W')).
  assert (KT : forall x, x ∈ keys T <-> x ∈ tokens stream) by (intros x; rewrite K; cbn; split; [intros [H|H]; [by apply not_elem_of_nil in H|done]|by right]).
  assert (LT : (length (tokens stream) <= length stream)%nat) by (unfold tokens; rewrite length_fmap; pose proof (words_length DELIM stream []) as Hw; by rewrite Nat.add_0_r in Hw).
  assert (LK : (length (locs T) <= length stream)%nat).
  { etrans; [|exact LT]. replace (length (locs T)) with (length (keys T)) by (unfold keys, locs; by rewrite !length_fmap). apply submseteq_length, NoDup_submseteq; [done|]. intros x Hx. by apply KT. }
  rewrite (walk_tree_spec count_items root T (mk_state h' None None 0 []) (mk_state h' None None (Z.of_nat (length (locs T))) []) W'); [|rewrite visit_count; cbn; [done|lia|lia]]. cbn [obind].
  destruct (sort_loop_spec h' root T adj (pairs (tokens stream)) W' G') as (r & st' & ds & ws & -> & P & O & Wt & R); [pose proof (pairs_length (tokens stream)); lia|lia|]. cbn [obind].
  exists ds, ws. rewrite P. split; [done|]. split; [intros x; by rewrite P|]. split; [done|]. split; [done|]. destruct R as [(-> & -> & ->)|(N & -> & ->)]; [unfold finish; by destruct fclose|]. by destruct ws.
Qed.
End Program.

Lemma pairs_elem l : forall x y, (x, y) ∈ pairs l -> x ∈ l /\ y ∈ l.
Proof.
  revert l. fix IH 1. intros [|a [|b l]] x y; cbn; [by rewrite elem_of_nil..|]. rewrite !elem_of_cons. intros [[= -> ->]|H]; [tauto|]. apply IH in H. tauto.
Qed.

Lemma loop_token l x y : tc (precedes (pairs l)) x y -> x ∈ l.
Proof. by destruct 1 as [x y [H _]|x y z [H _]]; apply pairs_elem in H as [H _]. Qed.

(** A rank that grows along the relation excludes loops. *)
Lemma acyclic_rank (f : list Z -> Z) ps : (forall x y, precedes ps x y -> f x < f y) -> acyclic ps.
Proof. intros F x C. assert (G : forall u v, tc (precedes ps) u v -> f u < f v) by (induction 1 as [u v H|u v w H _ IH]; [by apply F|apply F in H; lia]). specialize (G x x C). lia. Qed.

(** What waits at the end is on a loop or after one. *)
Lemma waits_after_loop ps ws x : NoDup ws -> (forall y, y ∈ ws -> exists x, x ∈ ws /\ precedes ps x y) -> x ∈ ws -> exists c, tc (precedes ps) c c /\ rtc (precedes ps) c x.
Proof.
  intros ND W Hx. destruct (loop_exists (fun u => rtc (precedes ps) u x) ws (precedes ps) x ND Hx) as (c & _ & R & C); [done| |by exists c].
  intros v Hv Rv. destruct (W v Hv) as (u & Hu & E). exists u. split; [done|]. split; [by apply rtc_l with v|done].
Qed.

Section Claims.
Context (stdin : list Z) (freopen : list Z -> option (list Z)) (file stream : list Z).
Hypotheses (Hin : (if strcmp file [45] =? 0 then Some stdin else freopen file) = Some stream) (Hbytes : Forall is_byte stream) (Hlen : Z.of_nat (length stream) < 2 ^ 62).

(** C6: on an input with an even number of tokens and no loop, tsort never
    fails an assertion, returns true, and prints every token exactly once,
    each after all those that must precede it. *)
Theorem tsort_sorts : Nat.even (length (tokens stream)) = true -> acyclic (pairs (tokens stream)) ->
  exists ds, tsort stdin freopen true file = Some (Returned true, Puts <$> ds) /\ NoDup ds /\ (forall x, x ∈ ds <-> x ∈ tokens stream) /\ ordered (pairs (tokens stream)) ds.
Proof.
  intros Ev Ac. pose proof (tsort_run stdin freopen true file stream Hin Hbytes Hlen) as R. rewrite Ev in R. destruct R as (ds & ws & ND & Hx & O & W & ->). destruct ws as [|y ws].
  - rewrite app_nil_r in ND, Hx. by exists ds.
  - exfalso. apply NoDup_app in ND as (_ & _ & ND). destruct (waits_after_loop _ _ y ND W) as (c & C & _); [by apply elem_of_cons; left|]. by apply (Ac c).
Qed.

(** C7: on an input with a loop, tsort prints, in a correct order and once
    each, exactly the tokens that are neither on a loop nor after one, and
    then the error line, and exits. *)
Theorem tsort_reports_loop x : Nat.even (length (tokens stream)) = true -> tc (precedes (pairs (tokens stream))) x x ->
  exists ds, tsort stdin freopen true file = Some (Exit (-1), (Puts <$> ds) ++ [Printf_error 0 0]) /\ NoDup ds /\ ordered (pairs (tokens stream)) ds /\
    forall y, y ∈ tokens stream -> y ∈ ds <-> ~ exists c, tc (precedes (pairs (tokens stream))) c c /\ rtc (precedes (pairs (tokens stream))) c y.
Proof.
  intros Ev C. pose proof (tsort_run stdin freopen true file stream Hin Hbytes Hlen) as R. rewrite Ev in R. destruct R as (ds & ws & ND & Hx & O & W & ->). apply NoDup_app in ND as (NDd & Dis & NDw). exists ds. split.
  - destruct ws as [|y ws]; [|done]. exfalso. assert (Hd : x ∈ ds) by (rewrite app_nil_r in Hx; apply Hx; by apply loop_token with x). by apply (ordered_no_loop _ ds x x O NDd Hd).
  - split; [done|]. split; [done|]. intros y Hy. split; [intros Hd (c & Hc & R); by apply (ordered_no_loop _ ds c y O NDd Hd R)|].
    intros N. apply Hx, elem_of_app in Hy as [Hy|Hy]; [done|]. exfalso. apply N. by apply waits_after_loop with ws.
Qed.

(** An odd number of tokens ends the program with the message of [die],
    and nothing is sorted. *)
Lemma tsort_odd fclose : Nat.even (length (tokens stream)) = false -> tsort stdin freopen fclose file = Some (Exit (-1), [Printf_died 1]).
Proof. intros Ev. pose proof (tsort_run stdin freopen fclose file stream Hin Hbytes Hlen) as R. by rewrite Ev in R. Qed.
End Claims.

(** The input [b c a b] and the order [a b c]. *)
Lemma tsort_sorts_witness : exists ds, tsort [98; 32; 99; 10; 97; 32; 98; 10] (fun _ => None) true [45] = Some (Returned true, Puts <$> ds) /\ ordered [([98], [99]); ([97], [98])] ds.
Proof.
  destruct (tsort_sorts [98; 32; 99; 10; 97; 32; 98; 10] (fun _ => None) [45] [98; 32; 99; 10; 97; 32; 98; 10]) as (ds & E & _ & _ & O).
  - reflexivity.
  - repeat constructor; lia.
  - cbn. lia.
  - reflexivity.
  - apply (acyclic_rank (fun x => List.hd 0 x)). intros x y [H _]. change (pairs (tokens _)) with [([98], [99]); ([97], [98])] in H. rewrite !elem_of_cons, elem_of_nil in H. destruct H as [[= -> ->]|[[= -> ->]|[]]]; cbn; lia.
  - exists ds. split; [exact E|exact O].
Defined.

(** The input [d a a b b a]: [d] is printed, [a] and [b] are on a loop. *)
Lemma tsort_reports_loop_witness : exists ds, tsort [100; 32; 97; 32; 97; 32; 98; 32; 98; 32; 97] (fun _ => None) true [45] = Some (Exit (-1), (Puts <$> ds) ++ [Printf_error 0 0]) /\ NoDup ds.
Proof.
  destruct (tsort_reports_loop [100; 32; 97; 32; 97; 32; 98; 32; 98; 32; 97] (fun _ => None) [45] [100; 32; 97; 32; 97; 32; 98; 32; 98; 32; 97]) with (x := [97]) as (ds & E & ND & _).
  - reflexivity.
  - repeat constructor; lia.
  - cbn. lia.
  - reflexivity.
  - change (pairs (tokens _)) with [([100], [97]); ([97], [98]); ([98], [97])]. apply tc_l with [98]; [|apply tc_once]; (split; [rewrite !elem_of_cons; tauto|done]).
  - exists ds. split; [exact E|exact ND].
Defined.

Lemma tsort_odd_witness : tsort [97; 32; 98; 32; 99] (fun _ => None) true [45] = Some (Exit (-1), [Printf_died 1]).
Proof. apply (tsort_odd [97; 32; 98; 32; 99] (fun _ => None) [45] [97; 32; 98; 32; 99]); [reflexivity|repeat constructor; lia|cbn; lia|reflexivity]. Defined.
