(* ===== verification/FpMode.v ===== *)
(** * Rounding modes

    Models [fp_mode.h], its default implementation [fp_mode.c] and those of
    ARM, AArch64 and i386, which read the rounding mode from a control
    register and, the first two, record an inexact result in a status
    register.  The theorems state what addition does in the mode that is set:
    how it rounds, what it does to the register, and where all modes agree. *)

From S2P Require Import Prelude FpLib FpSpec FpAdd.

(** ** The environments *)

Definition ARM_TONEAREST : Z := 0x0.
Definition ARM_UPWARD : Z := 0x1.
Definition ARM_DOWNWARD : Z := 0x2.
Definition ARM_TOWARDZERO : Z := 0x3.
Definition ARM_RMODE_MASK : Z := ARM_TONEAREST .| ARM_UPWARD .| ARM_DOWNWARD .| ARM_TOWARDZERO.
Definition ARM_RMODE_SHIFT : Z := 22.
Definition ARM_INEXACT : Z := 0x10.

(** [arm/fp_mode.c] with hardware floating point; [fpscr] is 32 bits wide. *)
Definition arm_fe_getround (fpscr : Z) : CRT_FE_ROUND_MODE :=
  let fpscr := (fpscr >>[32] ARM_RMODE_SHIFT) .& ARM_RMODE_MASK in
  if fpscr =? ARM_UPWARD then CRT_FE_UPWARD
  else if fpscr =? ARM_DOWNWARD then CRT_FE_DOWNWARD
  else if fpscr =? ARM_TOWARDZERO then CRT_FE_TOWARDZERO
  else CRT_FE_TONEAREST.
Definition arm_fe_raise_inexact (fpscr : Z) : Z := fpscr .| ARM_INEXACT.

Definition AARCH64_TONEAREST : Z := 0x0.
Definition AARCH64_UPWARD : Z := 0x1.
Definition AARCH64_DOWNWARD : Z := 0x2.
Definition AARCH64_TOWARDZERO : Z := 0x3.
Definition AARCH64_RMODE_MASK : Z := AARCH64_TONEAREST .| AARCH64_UPWARD .| AARCH64_DOWNWARD .| AARCH64_TOWARDZERO.
Definition AARCH64_RMODE_SHIFT : Z := 22.
Definition AARCH64_INEXACT : Z := 0x10.

(** [aarch64/fp_mode.c]: a control and a status register. *)
Definition aarch64_fe_getround (fpcr : Z) : CRT_FE_ROUND_MODE :=
  let fpcr := (fpcr >>[64] AARCH64_RMODE_SHIFT) .& AARCH64_RMODE_MASK in
  if fpcr =? AARCH64_UPWARD then CRT_FE_UPWARD
  else if fpcr =? AARCH64_DOWNWARD then CRT_FE_DOWNWARD
  else if fpcr =? AARCH64_TOWARDZERO then CRT_FE_TOWARDZERO
  else CRT_FE_TONEAREST.
Definition aarch64_fe_raise_inexact (fpsr : Z) : Z := fpsr .| AARCH64_INEXACT.

Definition X87_TONEAREST : Z := 0x0000.
Definition X87_DOWNWARD : Z := 0x0400.
Definition X87_UPWARD : Z := 0x0800.
Definition X87_TOWARDZERO : Z := 0x0c00.
Definition X87_RMODE_MASK : Z := X87_TONEAREST .| X87_UPWARD .| X87_DOWNWARD .| X87_TOWARDZERO.

(** [i386/fp_mode.c]: the x87 control word. *)
Definition i386_fe_getround (cw : Z) : CRT_FE_ROUND_MODE :=
  let m := cw .& X87_RMODE_MASK in
  if m =? X87_TONEAREST then CRT_FE_TONEAREST
  else if m =? X87_DOWNWARD then CRT_FE_DOWNWARD
  else if m =? X87_UPWARD then CRT_FE_UPWARD
  else if m =? X87_TOWARDZERO then CRT_FE_TOWARDZERO
  else CRT_FE_TONEAREST.

(** What addition uses of an environment, and what it may rely on. *)
Class FpEnv (env : Type) := {
  fe_getround : env -> CRT_FE_ROUND_MODE;
  fe_raise_inexact : env -> env;
  fe_inexact : env -> bool;
  raise_keeps_mode e : fe_getround (fe_raise_inexact e) = fe_getround e;
  raise_sets_flag e : fe_inexact (fe_raise_inexact e) = true }.

Definition flag_of (status : Z) : bool := Z.testbit status 4.

Lemma flag_raised status : flag_of (status .| 0x10) = true.
Proof. unfold flag_of. now rewrite Z.lor_spec, orb_true_r. Qed.

(** Bits 22 and 23 are not the flag. *)
Lemma mode_kept x : Z.land (Z.shiftr (x .| 0x10) 22) 3 = Z.land (Z.shiftr x 22) 3.
Proof.
  apply Z.bits_inj'. intros i Hi. rewrite !Z.land_spec, !Z.shiftr_spec, Z.lor_spec by lia. change 0x10 with (2 ^ 4). rewrite Z.pow2_bits_eqb by lia.
  destruct (Z.eqb_spec 4 (i + 22)); [lia|]. now rewrite orb_false_r.
Qed.

Lemma arm_keeps_mode e : arm_fe_getround (arm_fe_raise_inexact e) = arm_fe_getround e.
Proof.
  unfold arm_fe_getround, arm_fe_raise_inexact, shr. change (ARM_RMODE_SHIFT mod 32) with 22. change ARM_RMODE_MASK with 3. change ARM_INEXACT with 0x10. now rewrite mode_kept.
Qed.

#[export] Instance arm_env : FpEnv Z := {
  fe_getround := arm_fe_getround; fe_raise_inexact := arm_fe_raise_inexact; fe_inexact := flag_of;
  raise_keeps_mode := arm_keeps_mode; raise_sets_flag := flag_raised }.

#[export] Instance aarch64_env : FpEnv (Z * Z) := {
  fe_getround e := aarch64_fe_getround (fst e); fe_raise_inexact e := (fst e, aarch64_fe_raise_inexact (snd e)); fe_inexact e := flag_of (snd e);
  raise_keeps_mode e := eq_refl; raise_sets_flag e := flag_raised (snd e) }.

(** The modes are the ones the architectures define: two bits of the register. *)
Lemma getround_fields x : 0 <= x ->
  arm_fe_getround x = nth (Z.to_nat (x / 2 ^ 22 mod 4)) [CRT_FE_TONEAREST; CRT_FE_UPWARD; CRT_FE_DOWNWARD; CRT_FE_TOWARDZERO] CRT_FE_TONEAREST /\
  aarch64_fe_getround x = arm_fe_getround x /\
  i386_fe_getround x = nth (Z.to_nat (x / 2 ^ 10 mod 4)) [CRT_FE_TONEAREST; CRT_FE_DOWNWARD; CRT_FE_UPWARD; CRT_FE_TOWARDZERO] CRT_FE_TONEAREST.
Proof.
  intros Hx. split; [|split; [reflexivity|]].
  - unfold arm_fe_getround, shr. change (ARM_RMODE_SHIFT mod 32) with 22. change ARM_RMODE_MASK with (2 ^ 2 - 1). rewrite land_ones_mod, Z.shiftr_div_pow2 by lia. change (2 ^ 2) with 4.
    pose proof (Z.mod_pos_bound (x / 2 ^ 22) 4 ltac:(lia)) as R. set (m := x / 2 ^ 22 mod 4) in *. assert (C : m = 0 \/ m = 1 \/ m = 2 \/ m = 3) by lia. destruct C as [-> | [-> | [-> | ->]]]; reflexivity.
  - unfold i386_fe_getround. assert (E : x .& X87_RMODE_MASK = (x / 2 ^ 10 mod 4) * 2 ^ 10).
    { rewrite <- Z.shiftl_mul_pow2, <- Z.shiftr_div_pow2 by lia. change 4 with (2 ^ 2). rewrite <- Z.land_ones by lia. apply Z.bits_inj'. intros i Hi. rewrite Z.shiftl_spec by lia. change X87_RMODE_MASK with (Z.shiftl (Z.ones 2) 10).
      rewrite Z.land_spec, Z.shiftl_spec by lia. destruct (Z.ltb_spec i 10); [rewrite !(Z.testbit_neg_r _ (i - 10)) by lia; now rewrite andb_false_r|]. rewrite Z.land_spec, Z.shiftr_spec by lia. now replace (i - 10 + 10) with i by lia. }
    rewrite E. pose proof (Z.mod_pos_bound (x / 2 ^ 10) 4 ltac:(lia)) as R. set (m := x / 2 ^ 10 mod 4) in *. assert (C : m = 0 \/ m = 1 \/ m = 2 \/ m = 3) by lia. destruct C as [-> | [-> | [-> | ->]]]; reflexivity.
Qed.

(** ** Addition in an environment *)

Section Env.
Context `{FpOps} {env : Type} `{FpEnv env}.

(** [__addXf3__] with the calls of [__fe_getround] and [__fe_raise_inexact]. *)
Definition add_env (e : env) (a b : Z) : Z * env :=
  (__addXf3__ (fe_getround e) a b, if add_inexact a b then fe_raise_inexact e else e).

(** A magnitude beyond the format is infinity in every mode. *)
Lemma rounds_mode_large mode n x r : fpval infRep <= x -> rounds_mode mode n x 1 r -> r = infRep.
Proof.
  intros Hx R. pose proof infRep_bounds as Bi. assert (Cut : forall s, 0 <= s < infRep -> fpval s < fpval infRep /\ fpval (s + 1) <= fpval infRep) by (intros s Hs; split; [apply fpval_lt|apply fpval_mono]; lia).
  assert (Ch : chops x 1 r -> r = infRep).
  { intros (Rr & _ & [E|E]); [exact E|]. destruct (Z.eq_dec r infRep); [assumption|]. destruct (Cut r); lia. }
  assert (Sw : swells x 1 r -> r = infRep).
  { intros (Rr & _ & [E|E]); [exact E|]. destruct (Z.eq_dec r infRep); [assumption|]. destruct (Cut r); lia. }
  destruct mode; cbn [rounds_mode] in R; [|destruct n; auto..|auto].
  apply (rounds_to_unique x 1); [lia|exact R|]. apply rounds_to_inf; lia.
Qed.
End Env.

(** C11: with the rounding mode and the inexact flag in a register, as on ARM
    and AArch64, addition of finite numbers rounds the exact sum in the mode
    that is set, keeps the mode, and sets the flag exactly when the sum is
    below the overflow threshold and not representable; a sum at or above it
    is infinity in every mode. *)
Theorem add_in_environment (F : FpFormat) (O : FpOps) (env : Type) (V : FpEnv env) (e : env) a b :
  is_uint typeWidth a -> is_uint typeWidth b -> is_finite a = true -> is_finite b = true ->
  let x := fp_value a + fp_value b in
  let '(s, e') := add_env e a b in
  exists r, s = with_sign (sum_sign a b) r /\ rounds_mode (fe_getround e) (sum_sign a b) (Z.abs x) 1 r /\
    fe_getround e' = fe_getround e /\
    (fe_inexact e' = true <-> fe_inexact e = true \/ (Z.abs x < fpval infRep /\ Z.abs x <> fpval r)) /\
    (fpval infRep <= Z.abs x -> r = infRep).
Proof.
  intros Ra Rb Fa Fb x. unfold add_env. destruct (add_mode_spec (fe_getround e) a b Ra Rb Fa Fb) as (r & R & E & I). fold x in R, I. exists r.
  split; [exact E|]. split; [exact R|]. split; [destruct (add_inexact a b); [apply raise_keeps_mode|reflexivity]|]. split; [|intros L; exact (rounds_mode_large _ _ _ _ L R)].
  rewrite <- I. destruct (add_inexact a b); [rewrite raise_sets_flag; tauto|]. split; [tauto|]. intros [C|C]; [exact C|discriminate].
Qed.

(** Upward on ARM: 1 + 2^-24 is rounded up and the flag is set. *)
Lemma add_in_environment_witness : @add_env single_precision single_ops Z arm_env 0x400000 0x3f800000 0x33800000 = (0x3f800001, 0x400010) /\
  exists r, 0x3f800001 = @with_sign single_precision (@sum_sign single_precision 0x3f800000 0x33800000) r.
Proof.
  split; [reflexivity|].
  refine (_ (add_in_environment single_precision single_ops Z arm_env 0x400000 0x3f800000 0x33800000 _ _ eq_refl eq_refl));
    [|unfold is_uint; cbn [typeWidth single_precision]; lia..].
  change (add_env 0x400000 0x3f800000 0x33800000) with (0x3f800001, 0x400010). intros (r & E & _). exists r. exact E.
Defined.

(** ** Directed sums enclose the exact sum *)

(** The sums of two finite numbers rounded down and up enclose the exact sum,
    and the one rounded towards zero is not larger in magnitude. *)
Lemma directed_sums_enclose (F : FpFormat) (O : FpOps) a b :
  is_uint typeWidth a -> is_uint typeWidth b -> is_finite a = true -> is_finite b = true ->
  let x := fp_value a + fp_value b in Z.abs x < fpval infRep ->
  fp_value (__addXf3__ CRT_FE_DOWNWARD a b) <= x <= fp_value (__addXf3__ CRT_FE_UPWARD a b) /\
  Z.abs (fp_value (__addXf3__ CRT_FE_TOWARDZERO a b)) <= Z.abs x.
Proof.
  intros Ra Rb Fa Fb x L. pose proof infRep_bounds as Bi.
  assert (Sg : if sum_sign a b then x <= 0 else 0 <= x) by (unfold sum_sign; fold x; destruct (Z.eqb_spec x 0), (Z.ltb_spec x 0), (fp_neg a && fp_neg b); lia).
  assert (Ch : forall r, chops (Z.abs x) 1 r -> 0 <= r <= infRep /\ 0 <= fpval r <= Z.abs x) by (intros r (R1 & R2 & _); pose proof (fpval_step r ltac:(lia)); lia).
  assert (Sw : forall r, swells (Z.abs x) 1 r -> 0 <= r <= infRep /\ Z.abs x <= fpval r) by (intros r (R1 & _ & [-> | R2]); lia).
  destruct (add_mode_spec CRT_FE_DOWNWARD a b Ra Rb Fa Fb) as (r1 & R1 & -> & _), (add_mode_spec CRT_FE_UPWARD a b Ra Rb Fa Fb) as (r2 & R2 & -> & _), (add_mode_spec CRT_FE_TOWARDZERO a b Ra Rb Fa Fb) as (r3 & R3 & -> & _).
  cbn [rounds_mode] in R1, R2, R3. fold x in R1, R2, R3. apply Ch in R3. destruct (sum_sign a b); [apply Sw in R1; apply Ch in R2|apply Ch in R1; apply Sw in R2]; rewrite !fp_value_with_sign by lia; lia.
Qed.

(** [FLT_MAX + FLT_MAX] towards zero is infinity, and the flag stays clear. *)
Lemma overflow_ignores_mode : @add_env single_precision single_ops Z arm_env 0xc00000 0x7f7fffff 0x7f7fffff = (0x7f800000, 0xc00000).
Proof. reflexivity. Qed.

(** A zero sum of opposite numbers is positive also when rounding down. *)
Lemma zero_sum_ignores_mode : @add_env single_precision single_ops Z arm_env 0x800000 0x3f800000 0xbf800000 = (0, 0x800000).
Proof. reflexivity. Qed.
