(* ===== verification/Platform.v ===== *)
(** * Platform support: caches, executable stacks, trampolines

    Models [clear_cache.c] for the processors whose caches are maintained
    line by line (AArch64, PowerPC64, SPARC), [enable_execute_stack.c] and the
    PowerPC trampoline of [trampoline_setup.c].  The instructions that the C
    code issues act on a small model of the machine: the caches and the
    pipeline between a store and an executed instruction, where operations are
    performed late unless a barrier waits for them, and the PowerPC
    instructions of the trampoline.  The theorems show that after
    [__clear_cache] every instruction executed from the range is the stored one, that the protected pages cover the
    trampoline, and that running a trampoline enters the nested function with
    its frame and the caller's return address. *)

From S2P Require Import Prelude.

(** ** The caches *)

Module Caches.

(** The maintenance operations on the line of an address, and the barriers. *)
Inductive op := Clean (line addr : Z) | Invalidate (line addr : Z) | Flush (line addr : Z) | DataSync | InstrSync | Isync.

(** What a load sees, what is at the point of unification, what the
    instruction cache holds, the instruction bytes the pipeline has fetched
    ahead, and the maintenance operations that are issued but not performed. *)
Record caches := mk_caches {
  stored : Z -> Z; unified : Z -> Z; held : Z -> option Z; fetched : Z -> option Z; pending : list op }.

Definition same_line (line a x : Z) : bool := a / line =? x / line.
Definition fupd {A} (f : Z -> A) (x : Z) (v : A) : Z -> A := fun y => if y =? x then v else f y.

Section Processor.
(** What the cache type register says of the processor: loads and the point of
    unification, or that point and the instruction cache, agree by themselves. *)
Context (idc dic : bool).

Definition pou (c : caches) (x : Z) : Z := if idc then stored c x else unified c x.
Definition icache (c : caches) (x : Z) : Z :=
  if dic then pou c x else match held c x with Some v => v | None => pou c x end.
(** The byte at [x] of the instructions that execute next. *)
Definition fetch (c : caches) (x : Z) : Z := match fetched c x with Some v => v | None => icache c x end.

(** A maintenance operation takes effect; [rest] is what stays pending. *)
Definition perform (o : op) (rest : list op) (c : caches) : caches :=
  match o with
  | Clean line a => mk_caches (stored c) (fun x => if same_line line a x then stored c x else unified c x) (held c) (fetched c) rest
  | Invalidate line a => mk_caches (stored c) (unified c) (fun x => if same_line line a x then None else held c x) (fetched c) rest
  | _ => mk_caches (stored c) (unified c) (held c) (fetched c) rest
  end.

(** What the processor may do at any moment: perform pending operations in any
    order, write data back, fill or evict the instruction cache, fetch
    instructions ahead or drop them. *)
Inductive background : caches -> caches -> Prop :=
| bg_perform c o p1 p2 : pending c = p1 ++ o :: p2 -> background c (perform o (p1 ++ p2) c)
| bg_write_back c x : background c (mk_caches (stored c) (fupd (unified c) x (stored c x)) (held c) (fetched c) (pending c))
| bg_fill c x : background c (mk_caches (stored c) (unified c) (fupd (held c) x (Some (pou c x))) (fetched c) (pending c))
| bg_evict c x : background c (mk_caches (stored c) (unified c) (fupd (held c) x None) (fetched c) (pending c))
| bg_prefetch c x : background c (mk_caches (stored c) (unified c) (held c) (fupd (fetched c) x (Some (icache c x))) (pending c))
| bg_drop c x : background c (mk_caches (stored c) (unified c) (held c) (fupd (fetched c) x None) (pending c)).

Definition issue (o : op) (c : caches) : caches := mk_caches (stored c) (unified c) (held c) (fetched c) (pending c ++ [o]).
Definition refetch (c : caches) : caches := mk_caches (stored c) (unified c) (held c) (fun _ => None) (pending c).
Definition is_invalidate (o : op) : bool := match o with Invalidate _ _ => true | _ => false end.

(** The instructions.  [dc cvau] and [dcbf] (Clean), [ic ivau] and [icbi]
    (Invalidate) are only issued.  [dsb ish] and [sync] (DataSync) wait until
    nothing is pending; [isb] (InstrSync) drops the instructions fetched ahead
    and waits for nothing; [isync] of PowerPC waits for the invalidations of
    the processor before it drops them; [flush] of SPARC acts on its line at
    once for the processor that runs it. *)
Inductive exec : op -> caches -> caches -> Prop :=
| ex_clean line a c : exec (Clean line a) c (issue (Clean line a) c)
| ex_invalidate line a c : exec (Invalidate line a) c (issue (Invalidate line a) c)
| ex_flush line a c : exec (Flush line a) c
    (mk_caches (stored c) (fun x => if same_line line a x then stored c x else unified c x)
       (fun x => if same_line line a x then None else held c x) (fun x => if same_line line a x then None else fetched c x) (pending c))
| ex_data_sync c : pending c = [] -> exec DataSync c c
| ex_instr_sync c : exec InstrSync c (refetch c)
| ex_isync c : forallb (fun o => negb (is_invalidate o)) (pending c) = true -> exec Isync c (refetch c).

(** A run of a sequence of instructions, with the background steps between. *)
Inductive run : list op -> caches -> caches -> Prop :=
| run_done c : run [] c c
| run_background os c c1 c' : background c c1 -> run os c1 c' -> run os c c'
| run_op o os c c1 c' : exec o c c1 -> run os c1 c' -> run (o :: os) c c'.
End Processor.

(** [for (addr = first; addr < end; addr += line)], on [w]-bit addresses. *)
Fixpoint line_loop (fuel : nat) (w line addr end_ : Z) : option (list Z) :=
  match fuel with
  | O => None
  | S fuel => if addr <? end_ then let? l := line_loop fuel w line (addr +[w] line) end_ in Some (addr :: l) else Some []
  end.

(** The AArch64 branch; [ctr_el0] is the cache type register. *)
Definition clear_cache_aarch64 (fuel : nat) (ctr_el0 xstart xend : Z) : option (list op) :=
  let? dc :=
    if ((ctr_el0 >>[64] 28) .& 0x1) =? 0x0 then
      let dcache_line_size := 4 <<[32] ((ctr_el0 >>[64] 16) .& 15) in
      let? l := line_loop fuel 64 dcache_line_size (xstart .& unot 64 (dcache_line_size -[64] 1)) xend in
      Some (map (Clean dcache_line_size) l)
    else Some [] in
  let? ic :=
    if ((ctr_el0 >>[64] 29) .& 0x1) =? 0x0 then
      let icache_line_size := 4 <<[32] ((ctr_el0 >>[64] 0) .& 15) in
      let? l := line_loop fuel 64 icache_line_size (xstart .& unot 64 (icache_line_size -[64] 1)) xend in
      Some (map (Invalidate icache_line_size) l ++ [DataSync])
    else Some [] in
  Some (dc ++ [DataSync] ++ ic ++ [InstrSync]).

(** The PowerPC64 branch: [dcbf] and [icbi] on lines of 32 bytes. *)
Definition clear_cache_powerpc64 (fuel : nat) (start end_ : Z) : option (list op) :=
  let line_size := 32 in
  let len := end_ -[64] start in
  let mask := unot 64 (line_size -[64] 1) in
  let start_line := start .& mask in
  let end_line := (start +[64] len +[64] line_size -[64] 1) .& mask in
  let? l := line_loop fuel 64 line_size start_line end_line in
  Some (map (Clean line_size) l ++ [DataSync] ++ map (Invalidate line_size) l ++ [Isync]).

(** The SPARC branch: [flush] on doublewords. *)
Definition clear_cache_sparc (fuel : nat) (start end_ : Z) : option (list op) :=
  let dword_size := 8 in
  let len := end_ -[64] start in
  let mask := unot 64 (dword_size -[64] 1) in
  let start_dword := start .& mask in
  let end_dword := (start +[64] len +[64] dword_size -[64] 1) .& mask in
  let? l := line_loop fuel 64 dword_size start_dword end_dword in
  Some (map (Flush dword_size) l).

(** ** Lines *)

(** [a & ~(2^k - 1)]. *)
Lemma align_line w k a : 0 <= k < w -> 0 <= a < 2 ^ w -> Z.land a (unot w (usub w (2 ^ k) 1)) = 2 ^ k * (a / 2 ^ k).
Proof.
  intros Hk Ha. assert (P : 0 < 2 ^ k < 2 ^ w) by (split; [apply pow2_pos|apply Z.pow_lt_mono_r]; lia). unfold usub. rewrite (uint_small w (2 ^ k - 1)) by (unfold is_uint; lia).
  unfold unot, uint. rewrite <- !Z.land_ones, <- Z.shiftr_div_pow2, Z.mul_comm, <- Z.shiftl_mul_pow2 by lia. apply Z.bits_inj'. intros i Hi.
  rewrite Z.shiftl_spec, !Z.land_spec, Z.lnot_spec by lia. replace (2 ^ k - 1) with (Z.ones k) by (rewrite Z.ones_equiv; lia).
  destruct (Z.ltb_spec i k).
  - rewrite Z.ones_spec_low by lia. rewrite (Z.testbit_neg_r _ (i - k)) by lia. now rewrite andb_false_r.
  - rewrite Z.ones_spec_high, Z.shiftr_spec by lia. replace (i - k + k) with i by lia. cbn [negb andb]. destruct (Z.ltb_spec i w).
    + now rewrite Z.ones_spec_low, andb_true_r by lia.
    + rewrite Z.ones_spec_high, andb_false_r by lia. symmetry. rewrite <- (Z.mod_small a (2 ^ w)) by lia. now rewrite Z.mod_pow2_bits_high by lia.
Qed.

Definition covered (line : Z) (l : list Z) (x : Z) : bool := existsb (fun a => same_line line a x) l.

(** The loop ends, and reaches the line of every address of the range. *)
Lemma line_loop_spec w line end_ : 0 < line -> end_ + line <= 2 ^ w -> forall fuel addr, 0 <= addr -> addr mod line = 0 -> end_ - addr <= (Z.of_nat fuel - 1) * line -> (0 < fuel)%nat ->
  exists l, line_loop fuel w line addr end_ = Some l /\ forall x, addr <= x < end_ -> covered line l x = true.
Proof.
  intros Hl He. induction fuel as [|fuel IH]; intros addr Ha Hm Hf H0; [lia|]. cbn [line_loop]. destruct (Z.ltb_spec addr end_) as [L|L].
  - unfold uadd. rewrite uint_small by (unfold is_uint; lia). destruct fuel as [|fuel]; [cbn in Hf; nia|].
    destruct (IH (addr + line)) as (l & -> & C); [lia|rewrite <- Zplus_mod_idemp_l, Hm, Z.add_0_l; apply Z.mod_same; lia|nia|lia|].
    cbn [obind]. exists (addr :: l). split; [reflexivity|]. intros x Hx. cbn [covered existsb]. destruct (Z.ltb_spec x (addr + line)).
    + apply orb_true_iff. left. unfold same_line. apply Z.eqb_eq. pose proof (Z.div_mod addr line ltac:(lia)) as D. rewrite Hm, Z.add_0_r in D. set (q := addr / line) in *. apply Z.div_unique with (x - addr); [lia|]. rewrite <- D. lia.
    + apply orb_true_iff. right. apply C. lia.
  - exists []. split; [reflexivity|]. lia.
Qed.

(** At the very top of the address space the address wraps and the loop never ends. *)
Lemma line_loop_top fuel : forall addr, 0 <= addr < 2 ^ 64 -> addr mod 64 = 0 -> line_loop fuel 64 64 addr (2 ^ 64 - 1) = None.
Proof.
  induction fuel as [|fuel IH]; intros addr Ha Hm; [reflexivity|]. cbn [line_loop]. pose proof (Z.div_mod addr 64 ltac:(lia)) as D. rewrite Hm in D.
  destruct (Z.ltb_spec addr (2 ^ 64 - 1)); [|lia]. rewrite IH; [reflexivity|unfold uadd; apply uint_range; lia|]. unfold uadd, uint. change (2 ^ 64) with (64 * 2 ^ 58). rewrite <- Znumtheory.Zmod_div_mod; [|lia..|now exists (2 ^ 58)].
  now rewrite <- Zplus_mod_idemp_l, Hm.
Qed.

(** The loop from the aligned start. *)
Lemma aligned_loop k end_ fuel start : 0 <= k < 64 -> 0 <= start -> start < 2 ^ 64 -> end_ + 2 ^ k <= 2 ^ 64 -> (Z.to_nat (end_ - start) + 2 < fuel)%nat ->
  exists l, line_loop fuel 64 (2 ^ k) (start .& unot 64 (2 ^ k -[64] 1)) end_ = Some l /\ forall x, start <= x < end_ -> covered (2 ^ k) l x = true.
Proof.
  intros Hk H0 Hs He Hf. assert (P : 0 < 2 ^ k) by (apply pow2_pos; lia). rewrite align_line by lia. pose proof (Z.div_mod start (2 ^ k) ltac:(lia)) as D. pose proof (Z.mod_pos_bound start (2 ^ k) P).
  destruct (line_loop_spec 64 (2 ^ k) end_ P He fuel (2 ^ k * (start / 2 ^ k))) as (l & E & C).
  - pose proof (Z.div_pos start (2 ^ k) H0 P). nia.
  - rewrite Z.mul_comm. apply Z.mod_mul. lia.
  - assert (end_ - start <= Z.of_nat fuel - 3) by lia. nia.
  - lia.
  - exists l. split; [exact E|]. intros x Hx. apply C. lia.
Qed.

(** The lines a byte range needs, rounded up at its end. *)
Lemma round_up k start end_ : 0 <= k < 64 -> 0 <= start -> start <= end_ -> end_ + 2 ^ k <= 2 ^ 64 ->
  let e := (start +[64] (end_ -[64] start) +[64] 2 ^ k -[64] 1) .& unot 64 (2 ^ k -[64] 1) in end_ <= e < end_ + 2 ^ k.
Proof.
  intros Hk H0 H1 H2. assert (P : 0 < 2 ^ k) by (apply pow2_pos; lia). cbv zeta. assert (E : start +[64] (end_ -[64] start) +[64] 2 ^ k -[64] 1 = end_ + (2 ^ k - 1)).
  { unfold uadd, usub. apply uint_of_eqm; [unfold is_uint; lia|]. rewrite !uint_eqm. unfold eqm. f_equal. ring. }
  rewrite E, align_line by lia. pose proof (Z.div_mod (end_ + (2 ^ k - 1)) (2 ^ k) ltac:(lia)). pose proof (Z.mod_pos_bound (end_ + (2 ^ k - 1)) (2 ^ k) P). lia.
Qed.

Lemma line_size_pow v : 0 <= v -> exists k, 2 <= k <= 17 /\ 4 <<[32] (v .& 15) = 2 ^ k.
Proof.
  intros Hv. change 15 with (2 ^ 4 - 1). rewrite land_ones_mod by lia. pose proof (Z.mod_pos_bound v (2 ^ 4) ltac:(lia)) as R. exists (2 + v mod 2 ^ 4). split; [lia|].
  unfold ushl. rewrite (Z.mod_small (v mod 2 ^ 4) 32) by lia. rewrite Z.shiftl_mul_pow2, pow2_split by lia. change (2 ^ 2) with 4. apply uint_small. unfold is_uint.
  assert (2 ^ (v mod 2 ^ 4) <= 2 ^ 15) by (apply Z.pow_le_mono_r; lia). pose proof (pow2_pos (v mod 2 ^ 4) ltac:(lia)). change (2 ^ 32) with 4294967296. change (2 ^ 15) with 32768 in *. lia.
Qed.

(** ** Runs

    What the instructions establish for one address [x], where [v] is stored:
    each fact, once true, stays true whatever runs next. *)

Section Address.
Context (idc dic : bool) (x v : Z).

Definition is_stored (c : caches) : Prop := stored c x = v.
Definition cleaned (c : caches) : Prop :=
  is_stored c /\ (pou idc c x = v \/ exists line a, In (Clean line a) (pending c) /\ same_line line a x = true).
Definition is_unified (c : caches) : Prop := is_stored c /\ pou idc c x = v.
Definition invalidated (c : caches) : Prop :=
  is_unified c /\ (icache idc dic c x = v \/ exists line a, In (Invalidate line a) (pending c) /\ same_line line a x = true).
Definition coherent (c : caches) : Prop := is_unified c /\ icache idc dic c x = v.
Definition fresh (c : caches) : Prop := coherent c /\ (fetched c x = None \/ fetched c x = Some v).

Definition stable (P : caches -> Prop) : Prop :=
  (forall c c', background idc dic c c' -> P c -> P c') /\ (forall o c c', exec o c c' -> P c -> P c').

Lemma fupd_cases {A} (f : Z -> A) y z : fupd f y z x = if x =? y then z else f x.
Proof. reflexivity. Qed.

Lemma stable_stored : stable is_stored.
Proof. split; [intros c c' H; destruct H; try destruct o; exact (fun E => E)|intros o c c' H; destruct H; exact (fun E => E)]. Qed.

Lemma stable_unified : stable is_unified.
Proof.
  unfold stable, is_unified, is_stored, pou. split.
  - intros c c' H [E1 E2]. destruct H as [c o p1 p2 Hp|c y|c y|c y|c y|c y]; [destruct o|..]; cbn; try (split; assumption);
      (split; [exact E1|]); destruct idc; try exact E1; [destruct (same_line line addr x); assumption|].
    rewrite fupd_cases. destruct (Z.eqb_spec x y) as [->|]; assumption.
  - intros o c c' H [E1 E2]. destruct H; cbn; try (split; assumption). split; [exact E1|]. destruct idc; [exact E1|]. destruct (same_line line a x); assumption.
Qed.

Lemma stable_coherent : stable coherent.
Proof.
  destruct stable_unified as [SB SE]. unfold coherent. split.
  - intros c c' H [U E]. split; [exact (SB c c' H U)|]. pose proof (SB c c' H U) as [_ U']. destruct U as [_ U]. unfold icache in *. destruct dic; [exact U'|].
    destruct H as [c o p1 p2 Hp|c y|c y|c y|c y|c y]; [destruct o|..]; cbn in *; try exact E;
      try (destruct (held c x); [exact E|exact U']); [destruct (same_line line addr x); [exact U'|exact E]| |];
      rewrite fupd_cases; destruct (x =? y) eqn:Q; try exact E; try exact U'. apply Z.eqb_eq in Q. now subst.
  - intros o c c' H [U E]. split; [exact (SE o c c' H U)|]. pose proof (SE o c c' H U) as [_ U']. unfold icache in *. destruct dic; [exact U'|].
    destruct H; cbn in *; try exact E. destruct (same_line line a x); [exact U'|]. destruct (held c x); [exact E|exact U'].
Qed.

(** A pending operation is performed or stays pending. *)
Lemma pending_split (o1 o : op) p p1 p2 : p = p1 ++ o :: p2 -> In o1 p -> o1 = o \/ In o1 (p1 ++ p2).
Proof. intros -> H. apply in_app_or in H as [H|[H|H]]; [right; apply in_or_app; now left|now left|right; apply in_or_app; now right]. Qed.

(** A pending maintenance operation that covers [x] stays until it is performed. *)
Lemma pending_background c c' o : background idc dic c c' -> In o (pending c) ->
  In o (pending c') \/ exists rest, c' = perform o rest c.
Proof.
  intros H I. destruct H as [c o' p1 p2 Hp|c y|c y|c y|c y|c y]; [|left; exact I..].
  destruct (pending_split o o' _ p1 p2 Hp I) as [->|I']; [right; now exists (p1 ++ p2)|left]. now destruct o'.
Qed.

Lemma pending_exec c c' o o' : exec o' c c' -> In o (pending c) -> In o (pending c').
Proof. intros H I. destruct H; cbn; try exact I; apply in_or_app; now left. Qed.

Lemma stable_cleaned : stable cleaned.
Proof.
  destruct stable_unified as [UB UE]. destruct stable_stored as [SB SE]. unfold cleaned. split.
  - intros c c' H [E [U|(line & a & I & S)]]; [destruct (UB c c' H (conj E U)); auto|]. split; [exact (SB c c' H E)|].
    destruct (pending_background c c' _ H I) as [I'|(rest & ->)]; [right; eauto|left]. unfold pou, is_stored in *. cbn. destruct idc; [exact E|now rewrite S].
  - intros o c c' H [E [U|(line & a & I & S)]]; [destruct (UE o c c' H (conj E U)); auto|]. split; [exact (SE o c c' H E)|].
    right. exists line, a. split; [exact (pending_exec c c' _ o H I)|exact S].
Qed.

Lemma stable_invalidated : stable invalidated.
Proof.
  destruct stable_unified as [UB UE]. destruct stable_coherent as [CB CE]. unfold invalidated. split.
  - intros c c' H [U [E|(line & a & I & S)]]; [destruct (CB c c' H (conj U E)); auto|]. split; [exact (UB c c' H U)|].
    destruct (pending_background c c' _ H I) as [I'|(rest & ->)]; [right; eauto|left]. destruct U as [_ U]. unfold icache, pou in *. cbn. rewrite S. now destruct dic.
  - intros o c c' H [U [E|(line & a & I & S)]]; [destruct (CE o c c' H (conj U E)); auto|]. split; [exact (UE o c c' H U)|].
    right. exists line, a. split; [exact (pending_exec c c' _ o H I)|exact S].
Qed.

Lemma stable_fresh : stable fresh.
Proof.
  destruct stable_coherent as [CB CE]. unfold fresh. split.
  - intros c c' H [C F]. split; [exact (CB c c' H C)|]. destruct C as [_ C]. destruct H as [c o p1 p2 Hp|c y|c y|c y|c y|c y]; [destruct o|..]; cbn; try exact F;
      rewrite fupd_cases; destruct (Z.eqb_spec x y) as [<-|]; try exact F; [right; now rewrite C|now left].
  - intros o c c' H [C F]. split; [exact (CE o c c' H C)|]. destruct H; cbn; try exact F; try (now left). destruct (same_line line a x); [now left|exact F].
Qed.

(** *** What each instruction establishes *)

Lemma clean_establishes line a c c' : same_line line a x = true -> exec (Clean line a) c c' -> is_stored c -> cleaned c'.
Proof. intros S H E. inversion H; subst. split; [exact E|]. right. exists line, a. split; [cbn; apply in_or_app; right; now left|exact S]. Qed.

Lemma sync_unifies c c' : exec DataSync c c' -> cleaned c -> is_unified c'.
Proof. intros H [E [U|(line & a & I & _)]]; inversion H as [| | |? Hp| |]; subst; [now split|]. now rewrite Hp in I. Qed.

Lemma invalidate_establishes line a c c' : same_line line a x = true -> exec (Invalidate line a) c c' -> is_unified c -> invalidated c'.
Proof. intros S H U. inversion H; subst. split; [exact U|]. right. exists line, a. split; [cbn; apply in_or_app; right; now left|exact S]. Qed.

Lemma sync_coherent c c' : exec DataSync c c' -> invalidated c -> coherent c'.
Proof. intros H [U [E|(line & a & I & _)]]; inversion H as [| | |? Hp| |]; subst; [now split|]. now rewrite Hp in I. Qed.

Lemma instr_sync_fresh c c' : exec InstrSync c c' -> coherent c -> fresh c'.
Proof. intros H C. inversion H; subst. split; [exact C|now left]. Qed.

Lemma isync_fresh c c' : exec Isync c c' -> invalidated c -> fresh c'.
Proof.
  intros H [U [E|(line & a & I & _)]]; inversion H as [| | | | |? Hp]; subst; [split; [now split|now left]|].
  rewrite forallb_forall in Hp. now specialize (Hp _ I).
Qed.

Lemma flush_fresh line a c c' : same_line line a x = true -> exec (Flush line a) c c' -> is_stored c -> fresh c'.
Proof.
  intros S H E. inversion H; subst. assert (U : pou idc (mk_caches (stored c) (fun x => if same_line line a x then stored c x else unified c x)
    (fun x => if same_line line a x then None else held c x) (fun x => if same_line line a x then None else fetched c x) (pending c)) x = v)
    by (unfold pou; cbn; rewrite S; now destruct idc).
  split; [split; [now split|]|cbn; rewrite S; now left]. unfold icache. destruct dic; [exact U|]. cbn [held]. rewrite S. exact U.
Qed.

Lemma fresh_fetch c : fresh c -> fetch idc dic c x = v.
Proof. intros [[_ C] [F|F]]; unfold fetch; rewrite F; [exact C|reflexivity]. Qed.

(** *** Sequences *)

Lemma run_stable P os c c' : stable P -> run idc dic os c c' -> P c -> P c'.
Proof. intros [B E] H. induction H as [|os c c1 c' H _ IH|o os c c1 c' H _ IH]; eauto. Qed.

Lemma run_app os1 os2 c c' : run idc dic (os1 ++ os2) c c' -> exists m, run idc dic os1 c m /\ run idc dic os2 m c'.
Proof.
  intros H. remember (os1 ++ os2) as os eqn:Q. revert os1 Q. induction H as [c|os c c1 c' H _ IH|o os c c1 c' H HR IH]; intros os1 Q.
  - destruct os1; [|discriminate]. cbn in Q. subst. exists c. split; constructor.
  - destruct (IH os1 Q) as (m & R1 & R2). exists m. split; [now apply run_background with c1|exact R2].
  - destruct os1 as [|o1 os1]; [cbn in Q; subst; exists c; split; [constructor|now apply run_op with c1]|]. injection Q as <- Q.
    destruct (IH os1 Q) as (m & R1 & R2). exists m. split; [now apply run_op with c1|exact R2].
Qed.

(** An instruction of the sequence turns one stable fact into another. *)
Lemma run_establishes P R o os c c' : stable P -> stable R -> (forall c c', exec o c c' -> P c -> R c') -> In o os -> run idc dic os c c' -> P c -> R c'.
Proof.
  intros SP SR Ho I H. induction H as [c|os c c1 c' H _ IH|o' os c c1 c' H HR IH]; intros Pc; [destruct I|apply IH; [exact I|now apply (proj1 SP c)]|].
  destruct I as [->|I]; [apply (run_stable R os c1 c' SR HR); now apply (Ho c)|apply IH; [exact I|now apply (proj2 SP o' c)]].
Qed.

Lemma covered_in (f : Z -> op) line l : covered line l x = true -> exists a, In (f a) (map f l) /\ same_line line a x = true.
Proof. intros H. apply existsb_exists in H as (a & I & S). exists a. split; [now apply in_map|exact S]. Qed.

Lemma run_clean line l c c' : covered line l x = true -> run idc dic (map (Clean line) l) c c' -> is_stored c -> cleaned c'.
Proof.
  intros H R. destruct (covered_in (Clean line) line l H) as (a & I & S).
  apply (run_establishes is_stored cleaned _ _ c c' stable_stored stable_cleaned (fun c c' => clean_establishes line a c c' S) I R).
Qed.

Lemma run_invalidate line l c c' : covered line l x = true -> run idc dic (map (Invalidate line) l) c c' -> is_unified c -> invalidated c'.
Proof.
  intros H R. destruct (covered_in (Invalidate line) line l H) as (a & I & S).
  apply (run_establishes is_unified invalidated _ _ c c' stable_unified stable_invalidated (fun c c' => invalidate_establishes line a c c' S) I R).
Qed.

Lemma run_one P R o c c' : stable P -> stable R -> (forall c c', exec o c c' -> P c -> R c') -> run idc dic [o] c c' -> P c -> R c'.
Proof. intros SP SR Ho H. apply (run_establishes P R o [o] c c' SP SR Ho); [now left|exact H]. Qed.
End Address.

(** The processor never has to stop: every sequence has a run. *)
Lemma drain idc dic c : exists c1, pending c1 = [] /\ forall os r, run idc dic os c1 r -> run idc dic os c r.
Proof.
  remember (length (pending c)) as n eqn:E. revert c E. induction n as [|n IH]; intros c E.
  - exists c. split; [now destruct (pending c)|auto].
  - destruct (pending c) as [|o p] eqn:Q; [discriminate|]. injection E as E.
    assert (B : background idc dic c (perform o ([] ++ p) c)) by (apply (bg_perform idc dic c o [] p); exact Q).
    destruct (IH (perform o ([] ++ p) c)) as (c1 & P1 & R1); [now destruct o|]. exists c1. split; [exact P1|].
    intros os r Hr. apply run_background with (perform o ([] ++ p) c); [exact B|now apply R1].
Qed.

Lemma run_exists idc dic os : forall c, exists c', run idc dic os c c'.
Proof.
  induction os as [|o os IH]; intros c; [exists c; constructor|]. destruct (drain idc dic c) as (c1 & P & R).
  assert (X : exists c2, exec o c1 c2) by (destruct o; eexists; constructor; now rewrite ?P).
  destruct X as (c2 & X). destruct (IH c2) as (c' & H). exists c'. apply R. now apply run_op with c2.
Qed.

Section Coherence.
Context (start end_ : Z) (fuel : nat).
Hypotheses (H0 : 0 <= start) (Hle : start <= end_) (Hend : end_ + 2 ^ 18 <= 2 ^ 64) (Hfuel : (Z.to_nat (end_ - start) + 34 < fuel)%nat).

Lemma aarch64_lines v : 0 <= v -> exists k l, 4 <<[32] (v .& 15) = 2 ^ k /\ line_loop fuel 64 (2 ^ k) (start .& unot 64 (2 ^ k -[64] 1)) end_ = Some l /\ forall x, start <= x < end_ -> covered (2 ^ k) l x = true.
Proof.
  intros Hv. destruct (line_size_pow v Hv) as (k & Hk & E). assert (2 ^ k <= 2 ^ 17) by (apply Z.pow_le_mono_r; lia). destruct (aligned_loop k end_ fuel start) as (l & E' & C); [lia|lia|lia|lia|lia|]. exists k, l. auto.
Qed.

(** The bits IDC and DIC of the cache type register. *)
Definition IDC (ctr_el0 : Z) : bool := Z.testbit ctr_el0 28.
Definition DIC (ctr_el0 : Z) : bool := Z.testbit ctr_el0 29.

Lemma ctr_bit ctr k : 0 <= k < 64 -> (((ctr >>[64] k) .& 0x1) =? 0x0) = negb (Z.testbit ctr k).
Proof.
  intros Hk. unfold shr. rewrite Z.mod_small by lia. change 1 with (2 ^ 1 - 1). rewrite land_ones_mod by lia. change (2 ^ 1) with 2. rewrite <- Z.bit0_mod, Z.shiftr_spec, Z.add_0_l by lia. now destruct (Z.testbit ctr k).
Qed.

(** Every run of [os] leaves the bytes of the range as they are stored. *)
Definition makes_coherent (idc dic : bool) (os : list op) : Prop :=
  forall c c' x, start <= x < end_ -> run idc dic os c c' -> fetch idc dic c' x = stored c x /\ stored c' x = stored c x.

Lemma fresh_coherent idc dic os : (forall c c' x, start <= x < end_ -> run idc dic os c c' -> fresh idc dic x (stored c x) c') -> makes_coherent idc dic os.
Proof. intros H c c' x Hx R. specialize (H c c' x Hx R). split; [now apply fresh_fetch|apply H]. Qed.

(** Clean, wait, invalidate and wait, synchronise the pipeline. *)
Lemma sequence_coherent idc dic o1 o2 :
  (forall c c' x v, start <= x < end_ -> run idc dic o1 c c' -> is_stored x v c -> cleaned idc x v c') ->
  (forall c c' x v, start <= x < end_ -> run idc dic o2 c c' -> is_unified idc x v c -> coherent idc dic x v c') ->
  makes_coherent idc dic (o1 ++ [DataSync] ++ o2 ++ [InstrSync]).
Proof.
  intros H1 H2. apply fresh_coherent. intros c c' x Hx R. set (v := stored c x).
  apply run_app in R as (c1 & R1 & R). apply run_app in R as (c2 & R2 & R). apply run_app in R as (c3 & R3 & R4).
  pose proof (H1 c c1 x v Hx R1 eq_refl) as F1.
  pose proof (run_one idc dic _ _ DataSync c1 c2 (stable_cleaned idc dic x v) (stable_unified idc dic x v) (sync_unifies idc x v) R2 F1) as F2.
  pose proof (H2 c2 c3 x v Hx R3 F2) as F3.
  exact (run_one idc dic _ _ InstrSync c3 c' (stable_coherent idc dic x v) (stable_fresh idc dic x v) (instr_sync_fresh idc dic x v) R4 F3).
Qed.

Lemma aarch64_coherent ctr_el0 : 0 <= ctr_el0 ->
  exists ops, clear_cache_aarch64 fuel ctr_el0 start end_ = Some ops /\ makes_coherent (IDC ctr_el0) (DIC ctr_el0) ops.
Proof.
  intros Hc. unfold clear_cache_aarch64. rewrite !ctr_bit by lia.
  assert (N : forall s, 0 <= s < 64 -> 0 <= ctr_el0 >>[64] s) by (intros s Hs; unfold shr; apply Z.shiftr_nonneg; lia).
  destruct (aarch64_lines (ctr_el0 >>[64] 16) (N 16 ltac:(lia))) as (k1 & l1 & -> & -> & C1). destruct (aarch64_lines (ctr_el0 >>[64] 0) (N 0 ltac:(lia))) as (k2 & l2 & -> & -> & C2).
  fold (IDC ctr_el0) (DIC ctr_el0).
  assert (H1 : forall dic c c' x v, start <= x < end_ -> run (IDC ctr_el0) dic (if IDC ctr_el0 then [] else map (Clean (2 ^ k1)) l1) c c' ->
    is_stored x v c -> cleaned (IDC ctr_el0) x v c').
  { intros dic c c' x v Hx R F. destruct (IDC ctr_el0); [|exact (run_clean _ _ x v _ _ _ _ (C1 x Hx) R F)].
    pose proof (run_stable _ _ _ _ c c' (stable_stored true dic x v) R F) as E. split; [exact E|left; exact E]. }
  assert (H2 : forall idc c c' x v, start <= x < end_ -> run idc (DIC ctr_el0) (if DIC ctr_el0 then [] else map (Invalidate (2 ^ k2)) l2 ++ [DataSync]) c c' ->
    is_unified idc x v c -> coherent idc (DIC ctr_el0) x v c').
  { intros idc c c' x v Hx R F. destruct (DIC ctr_el0).
    - pose proof (run_stable _ _ _ _ c c' (stable_unified idc true x v) R F) as E. split; [exact E|exact (proj2 E)].
    - apply run_app in R as (m & R1 & R2). pose proof (run_invalidate _ _ x v _ _ _ _ (C2 x Hx) R1 F) as F1.
      exact (run_one _ _ _ _ DataSync m c' (stable_invalidated _ _ x v) (stable_coherent _ _ x v) (sync_coherent _ _ x v) R2 F1). }
  pose proof (sequence_coherent (IDC ctr_el0) (DIC ctr_el0) _ _ (H1 _) (H2 _)) as S.
  destruct (IDC ctr_el0), (DIC ctr_el0); cbn [negb obind]; eexists; (split; [reflexivity|exact S]).
Qed.

Lemma powerpc64_coherent : exists ops, clear_cache_powerpc64 fuel start end_ = Some ops /\ makes_coherent false false ops.
Proof.
  unfold clear_cache_powerpc64. pose proof (round_up 5 start end_ ltac:(lia) H0 Hle ltac:(lia)) as R. cbv zeta in R. change (2 ^ 5) with 32 in *. set (e := Z.land _ _) in *.
  destruct (aligned_loop 5 e fuel start) as (l & E & C); [lia|lia|lia|change (2 ^ 5) with 32; lia|lia|]. change (2 ^ 5) with 32 in *. rewrite E. cbn [obind]. eexists. split; [reflexivity|].
  apply fresh_coherent. intros c c' x Hx Rn. set (v := stored c x). specialize (C x ltac:(lia)).
  apply run_app in Rn as (c1 & R1 & Rn). apply run_app in Rn as (c2 & R2 & Rn). apply run_app in Rn as (c3 & R3 & R4).
  pose proof (run_clean _ _ x v _ _ _ _ C R1 eq_refl) as F1.
  pose proof (run_one _ _ _ _ DataSync c1 c2 (stable_cleaned _ _ x v) (stable_unified _ _ x v) (sync_unifies _ x v) R2 F1) as F2.
  pose proof (run_invalidate _ _ x v _ _ _ _ C R3 F2) as F3.
  exact (run_one _ _ _ _ Isync c3 c' (stable_invalidated _ _ x v) (stable_fresh _ _ x v) (isync_fresh _ _ x v) R4 F3).
Qed.

Lemma sparc_coherent : exists ops, clear_cache_sparc fuel start end_ = Some ops /\ makes_coherent false false ops.
Proof.
  unfold clear_cache_sparc. pose proof (round_up 3 start end_ ltac:(lia) H0 Hle ltac:(lia)) as R. cbv zeta in R. change (2 ^ 3) with 8 in *. set (e := Z.land _ _) in *.
  destruct (aligned_loop 3 e fuel start) as (l & E & C); [lia|lia|lia|change (2 ^ 3) with 8; lia|lia|]. change (2 ^ 3) with 8 in *. rewrite E. cbn [obind]. eexists. split; [reflexivity|].
  apply fresh_coherent. intros c c' x Hx Rn. destruct (covered_in x (Flush 8) 8 l (C x ltac:(lia))) as (a & I & S).
  exact (run_establishes _ _ _ _ _ _ c c' (stable_stored _ _ x _) (stable_fresh _ _ x (stored c x)) (fun c c' => flush_fresh _ _ x _ 8 a c c' S) I Rn eq_refl).
Qed.
End Coherence.

(** C24: [__clear_cache] ends, and after it the instructions executed from any
    address of the range are the bytes stored there: on AArch64 for every
    line size and both shortcuts the cache type register allows, on PowerPC64
    and on SPARC.  This holds of every run, in which maintenance operations
    are performed late and in any order unless a barrier waits for them, and
    the caches and the pipeline fill at any moment; and a run always exists.
    (The range stays 2^18 bytes below the top of the address space.) *)
Theorem clear_cache_coherent start end_ fuel ctr_el0 :
  0 <= start -> start <= end_ -> end_ + 2 ^ 18 <= 2 ^ 64 -> (Z.to_nat (end_ - start) + 34 < fuel)%nat -> 0 <= ctr_el0 ->
  exists o1 o2 o3, clear_cache_aarch64 fuel ctr_el0 start end_ = Some o1 /\ clear_cache_powerpc64 fuel start end_ = Some o2 /\ clear_cache_sparc fuel start end_ = Some o3 /\
    (forall idc dic os, In (idc, dic, os) [(IDC ctr_el0, DIC ctr_el0, o1); (false, false, o2); (false, false, o3)] ->
       (forall c, exists c', run idc dic os c c') /\
       forall c c' x, start <= x < end_ -> run idc dic os c c' -> fetch idc dic c' x = stored c x /\ stored c' x = stored c x).
Proof.
  intros H0 Hle He Hf Hc. destruct (aarch64_coherent start end_ fuel H0 Hle He Hf ctr_el0 Hc) as (o1 & E1 & F1).
  destruct (powerpc64_coherent start end_ fuel H0 Hle He Hf) as (o2 & E2 & F2). destruct (sparc_coherent start end_ fuel H0 Hle He Hf) as (o3 & E3 & F3).
  exists o1, o2, o3. repeat (split; [assumption|]). intros idc dic os I. split; [apply run_exists|].
  cbn [In] in I. destruct I as [I|[I|[I|[]]]]; injection I as <- <- <-; assumption.
Qed.

(** Forty bytes at 100, with stale bytes everywhere. *)
Definition stale : caches := mk_caches (fun x => x) (fun _ => 0) (fun _ => Some 1) (fun _ => Some 2) [].
Lemma clear_cache_coherent_witness : exists o1 c', clear_cache_aarch64 100 0x84448004 100 140 = Some o1 /\
  run false false o1 stale c' /\ fetch false false stale 117 = 2 /\ fetch false false c' 117 = 117.
Proof.
  destruct (clear_cache_coherent 100 140 100 0x84448004) as (o1 & o2 & o3 & E & _ & _ & F); [lia|lia|lia|cbn; lia|lia|].
  destruct (F false false o1 (or_introl eq_refl)) as [X C]. destruct (X stale) as (c' & R). exists o1, c'.
  split; [exact E|]. split; [exact R|]. split; [reflexivity|]. apply (C stale c' 117); [lia|exact R].
Defined.

(** The barriers and their order are needed: a sequence like the one of
    AArch64 that lacks one of them, or that invalidates first, has a run after
    which stale bytes are executed. *)
Lemma barriers_needed : forall os, In os
    [[Clean 64 0; Invalidate 64 0; DataSync; InstrSync]; [Clean 64 0; DataSync; Invalidate 64 0; InstrSync];
     [Clean 64 0; DataSync; Invalidate 64 0; DataSync]; [Invalidate 64 0; DataSync; Clean 64 0; DataSync; InstrSync]] ->
  exists c', run false false os stale c' /\ fetch false false c' 5 <> stored stale 5.
Proof.
  assert (B : forall c c1 os, background false false c c1 -> (exists c', run false false os c1 c' /\ fetch false false c' 5 <> 5) ->
    exists c', run false false os c c' /\ fetch false false c' 5 <> 5) by (intros c c1 os Hb (c' & R & N); exists c'; split; [now apply run_background with c1|exact N]).
  assert (X : forall o c c1 os, exec o c c1 -> (exists c', run false false os c1 c' /\ fetch false false c' 5 <> 5) ->
    exists c', run false false (o :: os) c c' /\ fetch false false c' 5 <> 5) by (intros o c c1 os Ho (c' & R & N); exists c'; split; [now apply run_op with c1|exact N]).
  assert (D : forall c, fetch false false c 5 <> 5 -> exists c', run false false [] c c' /\ fetch false false c' 5 <> 5) by (intros c N; exists c; split; [constructor|exact N]).
  intros os I. cbn [In] in I. change (stored stale 5) with 5. destruct I as [<-|[<-|[<-|[<-|[]]]]].
  - (* the invalidation overtakes the clean *)
    eapply X; [constructor|]. eapply X; [constructor|]. eapply B; [apply (bg_perform false false _ (Invalidate 64 0) [Clean 64 0] []); reflexivity|].
    eapply B; [apply (bg_fill false false _ 5)|]. eapply B; [apply (bg_perform false false _ (Clean 64 0) [] []); reflexivity|].
    eapply X; [now constructor|]. eapply X; [constructor|]. apply D. discriminate.
  - (* the invalidation is still pending *)
    eapply X; [constructor|]. eapply B; [apply (bg_perform false false _ (Clean 64 0) [] []); reflexivity|]. eapply X; [now constructor|].
    eapply X; [constructor|]. eapply X; [constructor|]. apply D. discriminate.
  - (* the instructions fetched ahead stay *)
    eapply X; [constructor|]. eapply B; [apply (bg_perform false false _ (Clean 64 0) [] []); reflexivity|]. eapply X; [now constructor|].
    eapply X; [constructor|]. eapply B; [apply (bg_perform false false _ (Invalidate 64 0) [] []); reflexivity|]. eapply X; [now constructor|]. apply D. discriminate.
  - (* the cache is filled again before the clean *)
    eapply X; [constructor|]. eapply B; [apply (bg_perform false false _ (Invalidate 64 0) [] []); reflexivity|]. eapply X; [now constructor|].
    eapply B; [apply (bg_fill false false _ 5)|]. eapply X; [constructor|]. eapply B; [apply (bg_perform false false _ (Clean 64 0) [] []); reflexivity|].
    eapply X; [now constructor|]. eapply X; [constructor|]. apply D. discriminate.
Qed.

End Caches.

(** ** Executable stacks *)

Module Stack.

Definition TRAMPOLINE_SIZE : Z := 48.

(** The arguments of [mprotect]. *)
Definition __enable_execute_stack (pageSize addr : Z) : Z * Z :=
  let pageAlignMask := unot 64 (pageSize -[64] 1) in
  let p := addr in
  let startPage := p .& pageAlignMask in
  let endPage := (p +[64] TRAMPOLINE_SIZE +[64] pageSize) .& pageAlignMask in
  (startPage, endPage -[64] startPage).

(** The pages are whole, they cover the trampoline, and at most one page more. *)
Lemma execute_stack_covers k addr : 0 <= k < 64 -> 0 <= addr -> addr + TRAMPOLINE_SIZE + 2 ^ k < 2 ^ 64 ->
  let '(startPage, length) := __enable_execute_stack (2 ^ k) addr in
  startPage mod 2 ^ k = 0 /\ length mod 2 ^ k = 0 /\ startPage <= addr /\ addr + TRAMPOLINE_SIZE < startPage + length <= addr + TRAMPOLINE_SIZE + 2 ^ k.
Proof.
  intros Hk Ha Hl. assert (P : 0 < 2 ^ k) by (apply pow2_pos; lia). unfold __enable_execute_stack, TRAMPOLINE_SIZE in *. unfold uadd. rewrite !(uint_small 64) by (rewrite ?(uint_small 64); unfold is_uint; lia).
  rewrite !Caches.align_line by lia. pose proof (Z.div_mod addr (2 ^ k) ltac:(lia)). pose proof (Z.mod_pos_bound addr (2 ^ k) P). pose proof (Z.div_mod (addr + 48 + 2 ^ k) (2 ^ k) ltac:(lia)). pose proof (Z.mod_pos_bound (addr + 48 + 2 ^ k) (2 ^ k) P).
  assert (0 <= addr / 2 ^ k) by (apply Z.div_pos; lia). set (a := addr / 2 ^ k) in *. set (b := (addr + 48 + 2 ^ k) / 2 ^ k) in *. assert (E : usub 64 (2 ^ k * b) (2 ^ k * a) = 2 ^ k * (b - a)) by (unfold usub; rewrite uint_small by (unfold is_uint; nia); ring).
  rewrite E, (Z.mul_comm (2 ^ k) a), (Z.mul_comm (2 ^ k) (b - a)), !Z.mod_mul by lia. repeat split; nia.
Qed.
End Stack.

(** ** Trampolines *)

Module Trampoline.

(** [__trampoline_setup] of PowerPC: the words it stores; [None] is [compilerrt_abort]. *)
Definition __trampoline_setup (trampSizeAllocated realFunc localsPtr : Z) : option (list Z) :=
  if trampSizeAllocated <? 40 then None
  else Some [0x7c0802a6; 0x4800000d; uint 32 realFunc; uint 32 localsPtr; 0x7d6802a6; 0x818b0000; 0x7c0803a6; 0x7d8903a6; 0x816b0004; 0x4e800420].

(** The processor, as far as these instructions need it. *)
Record cpu := mk_cpu { pc : Z; lr : Z; ctr : Z; gpr : Z -> Z }.
Definition set_gpr (c : cpu) (r v : Z) : cpu := mk_cpu (pc c) (lr c) (ctr c) (fun i => if i =? r then v else gpr c i).
Definition next (c : cpu) : cpu := mk_cpu (pc c +[32] 4) (lr c) (ctr c) (gpr c).

(** [mflr], [mtlr], [mtctr], [bl], [lwz] and [bctr]. *)
Definition step (mem : Z -> Z) (c : cpu) : option cpu :=
  let w := mem (pc c) in
  let rD := w / 2 ^ 21 mod 32 in
  let rA := w / 2 ^ 16 mod 32 in
  if w =? 0x4e800420 then Some (mk_cpu (ctr c / 4 * 4) (lr c) (ctr c) (gpr c))
  else if w / 2 ^ 26 =? 31 then
    if w mod 2 ^ 21 =? 0x0802a6 then Some (next (set_gpr c rD (lr c)))
    else if w mod 2 ^ 21 =? 0x0803a6 then Some (next (mk_cpu (pc c) (gpr c rD) (ctr c) (gpr c)))
    else if w mod 2 ^ 21 =? 0x0903a6 then Some (next (mk_cpu (pc c) (lr c) (gpr c rD) (gpr c)))
    else None
  else if (w / 2 ^ 26 =? 18) && (w mod 4 =? 1) then Some (mk_cpu (pc c +[32] sint 26 (w mod 2 ^ 26 - 1)) (pc c +[32] 4) (ctr c) (gpr c))
  else if w / 2 ^ 26 =? 32 then Some (next (set_gpr c rD (mem ((if rA =? 0 then 0 else gpr c rA) +[32] uint 32 (sint 16 (w mod 2 ^ 16))))))
  else None.

Fixpoint run (mem : Z -> Z) (n : nat) (c : cpu) : option cpu :=
  match n with O => Some c | S n => let? c := step mem c in run mem n c end.

Definition loaded (mem : Z -> Z) (base : Z) (code : list Z) : Prop := forall i w, nth_error code i = Some w -> mem (base + 4 * Z.of_nat i) = w.

(** One instruction, from the word that is fetched. *)
Ltac step_with M := unfold step at 1; cbn [pc]; rewrite M; cbn; unfold next, set_gpr; cbn [pc lr ctr gpr].

(** A trampoline of at least 40 bytes is always written, and running it
    enters the nested function with the pointer to its frame in r11, the
    caller's return address in the link register, and every other register
    but r0 and r12 unchanged. *)
Theorem trampoline_enters mem base size realFunc localsPtr code c : 40 <= size -> 0 <= base -> base + 40 <= 2 ^ 32 -> realFunc mod 4 = 0 -> is_uint 32 realFunc -> is_uint 32 localsPtr ->
  __trampoline_setup size realFunc localsPtr = Some code -> loaded mem base code -> pc c = base ->
  exists c', run mem 8 c = Some c' /\ pc c' = realFunc /\ gpr c' 11 = localsPtr /\ lr c' = lr c /\ forall i, i <> 0 -> i <> 11 -> i <> 12 -> gpr c' i = gpr c i.
Proof.
  intros Hs Hb Hb' Hr Rr Rl E Ld Hp. unfold __trampoline_setup in E. destruct (Z.ltb_spec size 40); [lia|]. injection E as <-. rewrite !uint_small in Ld by assumption.
  pose proof (Ld 0%nat _ eq_refl) as M0. pose proof (Ld 1%nat _ eq_refl) as M1. pose proof (Ld 2%nat _ eq_refl) as M2. pose proof (Ld 3%nat _ eq_refl) as M3. pose proof (Ld 4%nat _ eq_refl) as M4.
  pose proof (Ld 5%nat _ eq_refl) as M5. pose proof (Ld 6%nat _ eq_refl) as M6. pose proof (Ld 7%nat _ eq_refl) as M7. pose proof (Ld 8%nat _ eq_refl) as M8. pose proof (Ld 9%nat _ eq_refl) as M9. clear Ld. cbn [Z.of_nat Pos.of_succ_nat Z.mul Pos.mul Pos.add Pos.succ] in *.
  assert (A : forall x y, 0 <= x -> 0 <= y -> x + y <= 2 ^ 32 - 1 -> x +[32] y = x + y) by (intros x y X Y L; unfold uadd; apply uint_small; unfold is_uint; lia).
  destruct c as [p l k g]. cbn [pc lr gpr] in *. subst p. rewrite Z.add_0_r in M0.
  cbn [run]. step_with M0. rewrite (A base 4) by lia.
  step_with M1. rewrite (A (base + 4) 12), (A (base + 4) 4) by lia. replace (base + 4 + 12) with (base + 16) by lia. replace (base + 4 + 4) with (base + 8) by lia.
  step_with M4. rewrite (A (base + 16) 4) by lia. replace (base + 16 + 4) with (base + 20) by lia.
  step_with M5. rewrite (A (base + 8) 0), (A (base + 20) 4) by lia. rewrite Z.add_0_r, M2. replace (base + 20 + 4) with (base + 24) by lia.
  step_with M6. rewrite (A (base + 24) 4) by lia. replace (base + 24 + 4) with (base + 28) by lia.
  step_with M7. rewrite (A (base + 28) 4) by lia. replace (base + 28 + 4) with (base + 32) by lia.
  step_with M8. rewrite (A (base + 8) 4), (A (base + 32) 4) by lia. replace (base + 8 + 4) with (base + 12) by lia. rewrite M3. replace (base + 32 + 4) with (base + 36) by lia.
  step_with M9. eexists. split; [reflexivity|]. cbn. pose proof (Z.div_mod realFunc 4 ltac:(lia)). repeat split; try lia.
  intros i N0 N11 N12. rewrite !(proj2 (Z.eqb_neq i _)) by assumption. reflexivity.
Qed.

Definition sample_code : list Z := [0x7c0802a6; 0x4800000d; 0x8000; 0x9000; 0x7d6802a6; 0x818b0000; 0x7c0803a6; 0x7d8903a6; 0x816b0004; 0x4e800420].
Lemma trampoline_enters_witness : exists c', run (fun a => nth (Z.to_nat ((a - 0x1000) / 4)) sample_code 0) 8 (mk_cpu 0x1000 0x77 0 (fun i => i)) = Some c' /\ pc c' = 0x8000 /\ gpr c' 11 = 0x9000.
Proof.
  destruct (trampoline_enters (fun a => nth (Z.to_nat ((a - 0x1000) / 4)) sample_code 0) 0x1000 40 0x8000 0x9000 sample_code (mk_cpu 0x1000 0x77 0 (fun i => i))) as (c' & E & P & G & _); try (unfold is_uint; lia); try reflexivity.
  - intros i w H. do 10 (destruct i as [|i]; [injection H as <-; reflexivity|]). destruct i; discriminate.
  - exists c'. auto.
Defined.
End Trampoline.
