(* ===== verification/OsVersion.v ===== *)
(** * Checking the version of the operating system

    Models [os_version_check.c]: on Darwin the search for the new interface
    or, failing that, the reading of the version out of a property list with
    functions looked up at run time, every failure of which leads to one
    clean-up; on Android the two system properties.  What the system answers
    is a record, an argument of the model.  A run gives the new static
    variables and the trace of what is acquired, used and released.  The
    theorems show that every path releases exactly what it acquired, that a
    version is read as it is written, and that the comparisons are the
    lexicographic order. *)

From S2P Require Import Prelude.

(** ** Darwin *)

Module Darwin.

(** *** The system *)

Inductive symbol :=
  | _availability_version_check | kCFAllocatorNull | CFDataCreateWithBytesNoCopy | CFPropertyListCreateWithData
  | CFPropertyListCreateFromXMLData | CFStringCreateWithCStringNoCopy | CFDictionaryGetValue | CFGetTypeID
  | CFStringGetTypeID | CFStringGetCString | CFRelease.

(** The file: [ftell], whether [malloc] succeeds, and the bytes [fread] gives. *)
Record plist_file := mk_plist_file { file_size : Z; malloc_ok : bool; file_bytes : list Z }.
(** What the dictionary holds for "ProductVersion". *)
Inductive value := Not_a_string | A_string (chars : option (list Z)).

Record system := mk_system {
  dlsym : symbol -> bool;
  version_check : Z -> Z -> bool;                (* what the new interface answers: a platform and a packed version *)
  fopen : option plist_file;
  data_create : list Z -> bool;
  plist_create : list Z -> bool;
  string_create : bool;
  get_value : list Z -> option value }.

(** What is acquired and released. *)
Inductive resource := File | Buffer | Data | Plist | Name.
Inductive event := Acquire (r : resource) | Use (r : resource) | Release (r : resource).

(** The static variables. *)
Record globals := mk_globals {
  GlobalMajor : Z; GlobalMinor : Z; GlobalSubminor : Z;
  AvailabilityVersionCheck : bool; DispatchOnceCounter : bool; CompatibilityDispatchOnceCounter : bool }.
Definition initial_globals : globals := mk_globals 0 0 0 false false false.
Definition set_version (g : globals) (v : Z * Z * Z) : globals :=
  let '(a, b, c) := v in mk_globals a b c (AvailabilityVersionCheck g) (DispatchOnceCounter g) (CompatibilityDispatchOnceCounter g).
Definition set_check (g : globals) (b : bool) : globals :=
  mk_globals (GlobalMajor g) (GlobalMinor g) (GlobalSubminor g) b (DispatchOnceCounter g) (CompatibilityDispatchOnceCounter g).

(** *** sscanf *)

Definition is_digit (c : Z) : bool := (48 <=? c) && (c <=? 57).
Definition is_space (c : Z) : bool := (c =? 32) || ((9 <=? c) && (c <=? 13)).

(** The digits at the start, added to [acc]; [seen] tells whether there was one. *)
Fixpoint scan_digits (acc : Z) (seen : bool) (s : list Z) : option (Z * list Z) :=
  match s with
  | c :: r => if is_digit c then scan_digits (acc * 10 + (c - 48)) true r else if seen then Some (acc, s) else None
  | [] => if seen then Some (acc, []) else None
  end.
Fixpoint skip_space (s : list Z) : list Z := match s with c :: r => if is_space c then skip_space r else s | [] => [] end.

(** [%d]. *)
Definition scan_int (s : list Z) : option (Z * list Z) :=
  match skip_space s with
  | 45 :: r => let? (n, r) := scan_digits 0 false r in Some (- n, r)
  | 43 :: r => scan_digits 0 false r
  | r => scan_digits 0 false r
  end.
(** [.]. *)
Definition scan_dot (s : list Z) : option (list Z) := match s with 46 :: r => Some r | _ => None end.

(** [sscanf (s, "%d.%d.%d", &a, &b, &c)]: what is not matched keeps its value. *)
Definition sscanf_version (s : list Z) (v : Z * Z * Z) : Z * Z * Z :=
  let '(a, b, c) := v in
  match scan_int s with
  | None => (a, b, c)
  | Some (a, r) =>
      match (let? r := scan_dot r in scan_int r) with
      | None => (a, b, c)
      | Some (b, r) => match (let? r := scan_dot r in scan_int r) with None => (a, b, c) | Some (c, _) => (a, b, c) end
      end
  end.

(** *** The initialisation *)

(** The clean-up at [Fail]. *)
Definition cleanup (plist data buf : bool) : list event :=
  (if plist then [Release Plist] else []) ++ (if data then [Release Data] else []) ++ (if buf then [Release Buffer] else []) ++ [Release File].

(** From [fopen] to the end; [None] leaves the version alone. *)
Definition read_version (sys : system) (f : plist_file) : option (list Z) * list event :=
  if file_size f <? 0 then (None, [Acquire File; Use File] ++ cleanup false false false)
  else if negb (malloc_ok f) then (None, [Acquire File; Use File] ++ cleanup false false false)
  else
    let tr := [Acquire File; Use File; Acquire Buffer; Use File; Use Buffer] in
    if negb (Z.of_nat (List.length (file_bytes f)) =? file_size f) then (None, tr ++ cleanup false false true)
    else if negb (data_create sys (file_bytes f)) then (None, tr ++ [Use Buffer] ++ cleanup false false true)
    else
      let tr := tr ++ [Use Buffer; Acquire Data; Use Data] in
      if negb (plist_create sys (file_bytes f)) then (None, tr ++ cleanup false true true)
      else
        let tr := tr ++ [Acquire Plist] in
        if negb (string_create sys) then (None, tr ++ cleanup true true true)
        else
          let tr := tr ++ [Acquire Name; Use Plist; Use Name; Release Name] in
          match get_value sys (file_bytes f) with
          | None => (None, tr ++ cleanup true true true)
          | Some Not_a_string => (None, tr ++ [Use Plist] ++ cleanup true true true)
          | Some (A_string None) => (None, tr ++ [Use Plist] ++ cleanup true true true)
          | Some (A_string (Some s)) => (Some s, tr ++ [Use Plist] ++ cleanup true true true)
          end.

(** The functions of Core Foundation, in the order they are looked up. *)
Definition core_foundation (sys : system) : bool :=
  dlsym sys kCFAllocatorNull && dlsym sys CFDataCreateWithBytesNoCopy &&
  (dlsym sys CFPropertyListCreateWithData || dlsym sys CFPropertyListCreateFromXMLData) &&
  dlsym sys CFStringCreateWithCStringNoCopy && dlsym sys CFDictionaryGetValue && dlsym sys CFGetTypeID &&
  dlsym sys CFStringGetTypeID && dlsym sys CFStringGetCString && dlsym sys CFRelease.

(** From the look-up of Core Foundation on. *)
Definition load_plist (sys : system) (g : globals) : globals * list event :=
  if negb (core_foundation sys) then (g, [])
  else
    match fopen sys with
    | None => (g, [])
    | Some f =>
        let '(s, tr) := read_version sys f in
        match s with
        | None => (g, tr)
        | Some s => (set_version g (sscanf_version s (GlobalMajor g, GlobalMinor g, GlobalSubminor g)), tr)
        end
    end.

Definition _initializeAvailabilityCheck (sys : system) (LoadPlist : bool) (g : globals) : globals * list event :=
  if AvailabilityVersionCheck g && negb LoadPlist then (g, [])
  else
    let g := set_check g (dlsym sys _availability_version_check) in
    if AvailabilityVersionCheck g && negb LoadPlist then (g, [])
    else load_plist sys g.

Definition compatibilityInitializeAvailabilityCheck (sys : system) : globals -> globals * list event := _initializeAvailabilityCheck sys true.
Definition initializeAvailabilityCheck (sys : system) : globals -> globals * list event := _initializeAvailabilityCheck sys false.

(** [dispatch_once_f] on each of the two counters. *)
Definition once_compatibility (sys : system) (g : globals) : globals * list event :=
  if CompatibilityDispatchOnceCounter g then (g, [])
  else
    let '(g, tr) := compatibilityInitializeAvailabilityCheck sys g in
    (mk_globals (GlobalMajor g) (GlobalMinor g) (GlobalSubminor g) (AvailabilityVersionCheck g) (DispatchOnceCounter g) true, tr).
Definition once_check (sys : system) (g : globals) : globals * list event :=
  if DispatchOnceCounter g then (g, [])
  else
    let '(g, tr) := initializeAvailabilityCheck sys g in
    (mk_globals (GlobalMajor g) (GlobalMinor g) (GlobalSubminor g) (AvailabilityVersionCheck g) true (CompatibilityDispatchOnceCounter g), tr).

(** *** The entry points *)

(** The comparison with the static variables. *)
Definition version_at_least (g : globals) (Major Minor Subminor : Z) : Z :=
  if Major <? GlobalMajor g then 1
  else if Major >? GlobalMajor g then 0
  else if Minor <? GlobalMinor g then 1
  else if Minor >? GlobalMinor g then 0
  else b2z (Subminor <=? GlobalSubminor g).

Definition __isOSVersionAtLeast (sys : system) (g : globals) (Major Minor Subminor : Z) : Z * globals * list event :=
  let '(g, tr) := once_compatibility sys g in (version_at_least g Major Minor Subminor, g, tr).

Definition ConstructVersion (Major Minor Subminor : Z) : Z :=
  ((Major .& 0xffff) <<[32] 16) .| ((Minor .& 0xff) <<[32] 8) .| (Subminor .& 0xff).

Definition __isPlatformVersionAtLeast (sys : system) (g : globals) (Platform Major Minor Subminor : Z) : Z * globals * list event :=
  let '(g, tr) := once_check sys g in
  if negb (AvailabilityVersionCheck g) then
    let '(r, g, tr') := __isOSVersionAtLeast sys g (sint 32 Major) (sint 32 Minor) (sint 32 Subminor) in (r, g, tr ++ tr')
  else (b2z (version_check sys Platform (ConstructVersion Major Minor Subminor)), g, tr).

(** *** Resources *)

Definition same (a b : resource) : bool :=
  match a, b with File, File | Buffer, Buffer | Data, Data | Plist, Plist | Name, Name => true | _, _ => false end.
Definition live (r : resource) (l : list resource) : bool := existsb (same r) l.

(** What is used is held, what is acquired is not held already, what is
    released is held, the buffer outlives the data made from it without a
    copy, and at the end nothing is held. *)
Fixpoint balanced (l : list resource) (tr : list event) : bool :=
  match tr with
  | [] => match l with [] => true | _ => false end
  | Acquire r :: tr => negb (live r l) && balanced (r :: l) tr
  | Use r :: tr => live r l && balanced l tr
  | Release r :: tr => live r l && negb (same r Buffer && live Data l) && balanced (filter (fun x => negb (same r x)) l) tr
  end.

Lemma read_version_balanced sys f : balanced [] (snd (read_version sys f)) = true.
Proof.
  unfold read_version. destruct (file_size f <? 0); [reflexivity|]. destruct (malloc_ok f); [|reflexivity]. destruct (_ =? _); [|reflexivity]. cbn [negb].
  destruct (data_create sys (file_bytes f)); [|reflexivity]. destruct (plist_create sys (file_bytes f)); [|reflexivity]. destruct (string_create sys); [|reflexivity]. destruct (get_value sys (file_bytes f)) as [[|[s|]]|]; reflexivity.
Qed.

Lemma initialize_balanced sys load g : balanced [] (snd (_initializeAvailabilityCheck sys load g)) = true.
Proof.
  unfold _initializeAvailabilityCheck. destruct (_ && _); [reflexivity|]. destruct (_ && _); [reflexivity|]. unfold load_plist. destruct (core_foundation sys); [|reflexivity]. destruct (fopen sys) as [f|]; [|reflexivity]. cbn [negb].
  pose proof (read_version_balanced sys f) as B. destruct (read_version sys f) as [[s|] tr]; exact B.
Qed.

Lemma once_balanced sys g : balanced [] (snd (once_compatibility sys g)) = true /\ balanced [] (snd (once_check sys g)) = true.
Proof.
  unfold once_compatibility, once_check. split.
  - destruct (CompatibilityDispatchOnceCounter g); [reflexivity|]. pose proof (initialize_balanced sys true g) as B. unfold compatibilityInitializeAvailabilityCheck. now destruct (_initializeAvailabilityCheck sys true g).
  - destruct (DispatchOnceCounter g); [reflexivity|]. pose proof (initialize_balanced sys false g) as B. unfold initializeAvailabilityCheck. now destruct (_initializeAvailabilityCheck sys false g).
Qed.

Lemma balanced_app l tr1 tr2 : balanced l tr1 = true -> balanced [] tr2 = true -> balanced l (tr1 ++ tr2) = true.
Proof.
  revert l. induction tr1 as [|[r|r|r] tr1 IH]; intros l; cbn.
  - destruct l; [auto|discriminate].
  - rewrite !andb_true_iff. intuition.
  - rewrite !andb_true_iff. intuition.
  - rewrite !andb_true_iff. intuition.
Qed.

(** *** Versions *)

(** The order of versions. *)
Definition le_lex (v w : Z * Z * Z) : bool :=
  let '(a, b, c) := v in let '(a', b', c') := w in
  (a <? a') || ((a =? a') && ((b <? b') || ((b =? b') && (c <=? c')))).

Definition version (g : globals) : Z * Z * Z := (GlobalMajor g, GlobalMinor g, GlobalSubminor g).

Lemma version_at_least_lex g a b c : version_at_least g a b c = b2z (le_lex (a, b, c) (version g)).
Proof.
  unfold version_at_least, le_lex, version. rewrite !Z.gtb_ltb.
  destruct (Z.ltb_spec a (GlobalMajor g)); [reflexivity|]. destruct (Z.ltb_spec (GlobalMajor g) a), (Z.eqb_spec a (GlobalMajor g)); try lia; [reflexivity|].
  destruct (Z.ltb_spec b (GlobalMinor g)); [reflexivity|]. destruct (Z.ltb_spec (GlobalMinor g) b), (Z.eqb_spec b (GlobalMinor g)); try lia; reflexivity.
Qed.

(** Digits and the number they write. *)
Definition digits (ds : list Z) : Prop := ds <> [] /\ Forall (fun c => is_digit c = true) ds.
Definition number (ds : list Z) : Z := fold_left (fun n c => n * 10 + (c - 48)) ds 0.
(** What follows a number does not continue it. *)
Definition stops (r : list Z) : Prop := match r with c :: _ => is_digit c = false | [] => True end.

Lemma scan_digits_spec ds r : Forall (fun c => is_digit c = true) ds -> stops r -> forall acc seen, ds <> [] \/ seen = true ->
  scan_digits acc seen (ds ++ r) = Some (fold_left (fun n c => n * 10 + (c - 48)) ds acc, r).
Proof.
  intros Hd Hr. induction Hd as [|c ds Hc Hd IH]; intros acc seen Hs; cbn.
  - destruct Hs as [C| ->]; [congruence|]. destruct r as [|c r]; [reflexivity|]. cbn in *. now rewrite Hr.
  - rewrite Hc. apply IH. now right.
Qed.

Lemma scan_int_digits ds r : digits ds -> stops r -> scan_int (ds ++ r) = Some (number ds, r).
Proof.
  intros [Hn Hd] Hr. destruct ds as [|c ds]; [congruence|]. unfold scan_int. assert (Hc : 48 <= c <= 57) by (apply Forall_inv in Hd; unfold is_digit in Hd; apply andb_true_iff in Hd; lia).
  assert (E : skip_space ((c :: ds) ++ r) = (c :: ds) ++ r).
  { cbn. unfold is_space. destruct (Z.eqb_spec c 32), (Z.leb_spec 9 c), (Z.leb_spec c 13); try lia; reflexivity. }
  rewrite E. assert (G : scan_digits 0 false ((c :: ds) ++ r) = Some (number (c :: ds), r)) by (apply scan_digits_spec; auto; left; discriminate).
  cbn [app] in *. destruct c as [|p|p]; try lia. do 6 (destruct p as [p|p|]; try lia; try exact G).
Qed.

Lemma sscanf_full a b c v r : digits a -> digits b -> digits c -> stops r -> sscanf_version (a ++ 46 :: b ++ 46 :: c ++ r) v = (number a, number b, number c).
Proof.
  intros Ha Hb Hc Hr. unfold sscanf_version. destruct v as [[x y] z]. rewrite scan_int_digits by (assumption || reflexivity). cbn [scan_dot obind]. rewrite scan_int_digits by (assumption || reflexivity). cbn [scan_dot obind]. now rewrite scan_int_digits.
Qed.

Lemma sscanf_short a b v : digits a -> digits b -> sscanf_version (a ++ 46 :: b) v = (number a, number b, snd v).
Proof.
  intros Ha Hb. unfold sscanf_version. destruct v as [[x y] z]. rewrite scan_int_digits by (assumption || reflexivity). cbn [scan_dot obind]. pose proof (scan_int_digits b [] Hb I) as E. rewrite app_nil_r in E. now rewrite E.
Qed.

Lemma sscanf_idem s v : sscanf_version s (sscanf_version s v) = sscanf_version s v.
Proof.
  unfold sscanf_version. destruct v as [[x y] z]. destruct (scan_int s) as [[a r]|]; [|reflexivity]. destruct (let? r := scan_dot r in scan_int r) as [[b r']|]; [|reflexivity]. now destruct (let? r := scan_dot r' in scan_int r) as [[c r'']|].
Qed.

(** *** Reachable static variables *)

(** The version in the property list, as far as it can be read. *)
Definition target (sys : system) : Z * Z * Z :=
  if core_foundation sys then
    match fopen sys with
    | None => (0, 0, 0)
    | Some f => match fst (read_version sys f) with None => (0, 0, 0) | Some s => sscanf_version s (0, 0, 0) end
    end
  else (0, 0, 0).

Inductive reachable (sys : system) : globals -> Prop :=
  | reach_start : reachable sys initial_globals
  | reach_os g a b c : reachable sys g -> reachable sys (snd (fst (__isOSVersionAtLeast sys g a b c)))
  | reach_platform g p a b c : reachable sys g -> reachable sys (snd (fst (__isPlatformVersionAtLeast sys g p a b c))).

Record good (sys : system) (g : globals) : Prop := {
  good_version : version g = (0, 0, 0) \/ version g = target sys;
  good_loaded : CompatibilityDispatchOnceCounter g = true -> version g = target sys;
  good_check : AvailabilityVersionCheck g = true -> dlsym sys _availability_version_check = true;
  good_once : DispatchOnceCounter g = true -> AvailabilityVersionCheck g = dlsym sys _availability_version_check }.

Lemma load_plist_good sys g : version g = (0, 0, 0) \/ version g = target sys -> let g' := fst (load_plist sys g) in
  version g' = target sys /\ AvailabilityVersionCheck g' = AvailabilityVersionCheck g /\
  DispatchOnceCounter g' = DispatchOnceCounter g /\ CompatibilityDispatchOnceCounter g' = CompatibilityDispatchOnceCounter g.
Proof.
  unfold load_plist, target. destruct (core_foundation sys); [|cbn; tauto]. destruct (fopen sys) as [f|]; [|cbn; tauto]. destruct (read_version sys f) as [[s|] tr]; [|cbn; tauto]. cbn [negb fst].
  intros V. fold (version g). assert (E : sscanf_version s (version g) = sscanf_version s (0, 0, 0)) by (destruct V as [-> | ->]; [reflexivity|apply sscanf_idem]). rewrite E. now destruct (sscanf_version s (0, 0, 0)) as [[a b] c].
Qed.

(** One run of the initialisation. *)
Lemma initialize_good sys load g : good sys g -> let g' := fst (_initializeAvailabilityCheck sys load g) in
  (version g' = version g \/ version g' = target sys) /\ (load = true -> version g' = target sys) /\ AvailabilityVersionCheck g' = dlsym sys _availability_version_check /\
  DispatchOnceCounter g' = DispatchOnceCounter g /\ CompatibilityDispatchOnceCounter g' = CompatibilityDispatchOnceCounter g.
Proof.
  intros [V _ C _]. unfold _initializeAvailabilityCheck. pose proof (load_plist_good sys (set_check g (dlsym sys _availability_version_check)) V) as (L1 & L2 & L3 & L4).
  destruct (AvailabilityVersionCheck g && negb load) eqn:A; [|destruct (AvailabilityVersionCheck (set_check g _) && negb load) eqn:A']; cbn [fst].
  - apply andb_true_iff in A as [A1 A2]. apply negb_true_iff in A2. subst load. rewrite A1, (C A1). repeat split; auto; discriminate.
  - apply andb_true_iff in A' as [_ A2]. apply negb_true_iff in A2. subst load. repeat split; auto; discriminate.
  - cbn in L2, L3, L4. rewrite L2, L3, L4. repeat split; auto.
Qed.

Lemma once_compatibility_good sys g : good sys g -> let g' := fst (once_compatibility sys g) in good sys g' /\ CompatibilityDispatchOnceCounter g' = true /\ AvailabilityVersionCheck g' = (if CompatibilityDispatchOnceCounter g then AvailabilityVersionCheck g else dlsym sys _availability_version_check).
Proof.
  intros G. unfold once_compatibility. destruct (CompatibilityDispatchOnceCounter g) eqn:E; [auto|]. unfold compatibilityInitializeAvailabilityCheck.
  pose proof (initialize_good sys true g G) as (V & L & A & O & _). destruct (_initializeAvailabilityCheck sys true g) as [g' tr]. cbn in *. split; [|auto]. specialize (L eq_refl). constructor; cbn; auto. now rewrite A.
Qed.

Lemma once_check_good sys g : good sys g -> let g' := fst (once_check sys g) in good sys g' /\ AvailabilityVersionCheck g' = dlsym sys _availability_version_check.
Proof.
  intros G. unfold once_check. destruct (DispatchOnceCounter g) eqn:E; [split; [exact G|exact (good_once _ _ G E)]|]. unfold initializeAvailabilityCheck.
  pose proof (initialize_good sys false g G) as (V & _ & A & O & Cp). destruct G as [G1 G2 G3 G4]. destruct (_initializeAvailabilityCheck sys false g) as [g' tr]. cbn in *. split; [|exact A]. constructor.
  - change (version g' = (0, 0, 0) \/ version g' = target sys). destruct V as [-> | ->]; auto.
  - cbn. rewrite Cp. intros H. change (version g' = target sys). destruct V as [-> | ->]; auto.
  - cbn. now rewrite A.
  - auto.
Qed.

Lemma reachable_good sys g : reachable sys g -> good sys g.
Proof.
  induction 1 as [|g a b c _ IH|g p a b c _ IH].
  - constructor; cbn; auto; discriminate.
  - unfold __isOSVersionAtLeast. pose proof (once_compatibility_good sys g IH) as (G & _). now destruct (once_compatibility sys g).
  - unfold __isPlatformVersionAtLeast. pose proof (once_check_good sys g IH) as (G & _). destruct (once_check sys g) as [g1 tr]. cbn in G. destruct (negb _); [|exact G].
    unfold __isOSVersionAtLeast. pose proof (once_compatibility_good sys g1 G) as (G' & _). now destruct (once_compatibility sys g1).
Qed.

(** *** The packed version *)

Lemma construct_value a b c : 0 <= a < 2 ^ 16 -> 0 <= b < 2 ^ 8 -> 0 <= c < 2 ^ 8 -> ConstructVersion a b c = (a * 2 ^ 8 + b) * 2 ^ 8 + c.
Proof.
  intros Ha Hb Hc. unfold ConstructVersion. change 0xffff with (2 ^ 16 - 1). change 0xff with (2 ^ 8 - 1). rewrite !land_ones_mod, !Z.mod_small by lia. rewrite !ushl_spec by lia. rewrite !uint_small by (unfold is_uint; lia).
  rewrite lor_add_disjoint by lia. replace (a * 2 ^ 16 + b * 2 ^ 8) with ((a * 2 ^ 8 + b) * 2 ^ 8) by lia. apply lor_add_disjoint; lia.
Qed.

(** Packed versions are ordered as versions are. *)
Lemma construct_order a b c a' b' c' : 0 <= a < 2 ^ 16 -> 0 <= b < 2 ^ 8 -> 0 <= c < 2 ^ 8 -> 0 <= a' < 2 ^ 16 -> 0 <= b' < 2 ^ 8 -> 0 <= c' < 2 ^ 8 ->
  (ConstructVersion a b c <=? ConstructVersion a' b' c') = le_lex (a, b, c) (a', b', c').
Proof.
  intros. rewrite !construct_value by assumption. unfold le_lex. change (2 ^ 8) with 256 in *.
  destruct (Z.leb_spec ((a * 256 + b) * 256 + c) ((a' * 256 + b') * 256 + c')), (Z.ltb_spec a a'), (Z.eqb_spec a a'), (Z.ltb_spec b b'), (Z.eqb_spec b b'), (Z.leb_spec c c'); cbn; try reflexivity; lia.
Qed.

(** What a packed version keeps of a version: 16, 8 and 8 bits. *)
Definition kept (v : Z * Z * Z) : Z * Z * Z := let '(a, b, c) := v in (a mod 2 ^ 16, b mod 2 ^ 8, c mod 2 ^ 8).
Definition pack (v : Z * Z * Z) : Z := let '(a, b, c) := v in ConstructVersion a b c.

Lemma construct_kept a b c : ConstructVersion a b c = pack (kept (a, b, c)).
Proof.
  unfold pack, kept, ConstructVersion. change 0xffff with (2 ^ 16 - 1). change 0xff with (2 ^ 8 - 1). rewrite !land_ones_mod by lia. now rewrite !Zmod_mod.
Qed.

(** Whatever the arguments, their packed form compares as what it keeps of them. *)
Lemma pack_order v w : (pack v <=? pack w) = le_lex (kept v) (kept w).
Proof.
  destruct v as [[a b] c], w as [[a' b'] c']. unfold pack at 1 2. rewrite !construct_kept. unfold pack, kept. apply construct_order; apply Z.mod_pos_bound; lia.
Qed.

(** C25: whatever calls came before, the old entry point answers by the
    lexicographic order of versions, on all of its arguments, compared with
    the version in the property list (or 0.0.0 where it cannot be read).  The
    new entry point answers the same, on its arguments as signed numbers,
    where the system has no availability interface; where it has one the
    answer is the system's own for that platform and the packed version, and
    packed versions compare lexicographically by what is kept of them, the low
    16 bits of the major and the low 8 bits of the minor and subminor numbers
    (so a system that compares with the packed version of what it runs is
    asked the right question only below 256).  Every call releases exactly the
    resources it acquired, on every failure path. *)
Theorem version_checks_lexicographic (sys : system) g (Platform Major Minor Subminor : Z) :
  reachable sys g ->
  let '(r1, _, tr1) := __isOSVersionAtLeast sys g Major Minor Subminor in
  let '(r2, _, tr2) := __isPlatformVersionAtLeast sys g Platform Major Minor Subminor in
  r1 = b2z (le_lex (Major, Minor, Subminor) (target sys)) /\
  r2 = b2z (if dlsym sys _availability_version_check then version_check sys Platform (pack (Major, Minor, Subminor))
            else le_lex (sint 32 Major, sint 32 Minor, sint 32 Subminor) (target sys)) /\
  (forall w, (pack (Major, Minor, Subminor) <=? pack w) = le_lex (kept (Major, Minor, Subminor)) (kept w)) /\
  balanced [] tr1 = true /\ balanced [] tr2 = true.
Proof.
  intros R. apply reachable_good in R. unfold __isPlatformVersionAtLeast, __isOSVersionAtLeast.
  pose proof (once_compatibility_good sys g R) as (G1 & C1 & _). pose proof (once_check_good sys g R) as (G2 & A2). pose proof (once_balanced sys g) as [B1 B2].
  pose proof (pack_order (Major, Minor, Subminor)) as PO.
  destruct (once_compatibility sys g) as [g1 tr1], (once_check sys g) as [g2 tr2]. cbn [fst snd] in *. rewrite version_at_least_lex, (good_loaded _ _ G1 C1).
  rewrite A2. destruct (dlsym sys _availability_version_check); cbn [negb]; [repeat split; assumption|].
  pose proof (once_compatibility_good sys g2 G2) as (G3 & C3 & _). pose proof (once_balanced sys g2) as [B3 _]. destruct (once_compatibility sys g2) as [g3 tr3]. cbn [fst snd] in *.
  rewrite version_at_least_lex, (good_loaded _ _ G3 C3). repeat split; try assumption. now apply balanced_app.
Qed.

(** A system without the new interface, at version 10.15.7. *)
Definition sample_system : system :=
  mk_system (fun s => match s with _availability_version_check => false | _ => true end) (fun _ v => v <=? ConstructVersion 10 15 7)
    (Some (mk_plist_file 3 true [1; 2; 3])) (fun _ => true) (fun _ => true) true (fun _ => Some (A_string (Some [49; 48; 46; 49; 53; 46; 55]))).
Lemma version_checks_lexicographic_witness : fst (fst (__isPlatformVersionAtLeast sample_system initial_globals 1 10 9 200)) = 1.
Proof.
  assert (W := version_checks_lexicographic sample_system initial_globals 1 10 9 200 (reach_start _)).
  destruct (__isOSVersionAtLeast sample_system initial_globals 10 9 200) as [[r1 g1] tr1].
  destruct (__isPlatformVersionAtLeast sample_system initial_globals 1 10 9 200) as [[r2 g2] tr2].
  destruct W as (_ & W & _). cbn [fst]. rewrite W. reflexivity.
Defined.

(** Beyond its fields a packed version is cut, so the two entry points differ. *)
Lemma construct_truncates : ConstructVersion 10 256 0 = ConstructVersion 10 0 0 /\ le_lex (10, 256, 0) (10, 15, 7) = false /\ (ConstructVersion 10 256 0 <=? ConstructVersion 10 15 7) = true.
Proof. auto. Qed.
End Darwin.

(** ** Android *)

Module Android.

Definition __ANDROID_API_FUTURE__ : Z := 10000.
Record android_globals := mk_android_globals { SdkVersion : Z; IsPreRelease : bool }.

(** [atoi]: 0 where there is no number. *)
Definition atoi (s : list Z) : Z := match Darwin.scan_int s with Some (n, _) => n | None => 0 end.

(** "REL". *)
Definition REL : list Z := [82; 69; 76].

(** The properties "ro.build.version.sdk" and "ro.build.version.codename"; a
    property that does not exist has length 0. *)
Definition readSystemProperties (sdk codename : list Z) : android_globals :=
  mk_android_globals (match sdk with [] => __ANDROID_API_FUTURE__ | _ => atoi sdk end)
    (match codename with [] => true | _ => negb (if list_eq_dec Z.eq_dec codename REL then true else false) end).

(** [pthread_once] runs the reading once; its result is an argument here. *)
Definition __isOSVersionAtLeast_android (g : android_globals) (Major Minor Subminor : Z) : bool :=
  (SdkVersion g >=? Major) || (IsPreRelease g && (Major =? __ANDROID_API_FUTURE__)).

(** A version is enough if the level of the system reaches it, or if the
    system is not a release and the version is a future one. *)
Lemma android_at_least sdk codename Major Minor Subminor : Darwin.digits sdk ->
  __isOSVersionAtLeast_android (readSystemProperties sdk codename) Major Minor Subminor = true <-> Major <= Darwin.number sdk \/ (codename <> REL /\ Major = __ANDROID_API_FUTURE__).
Proof.
  intros Hd. unfold __isOSVersionAtLeast_android, readSystemProperties. pose proof (Darwin.scan_int_digits sdk [] Hd I) as E. rewrite app_nil_r in E. destruct sdk as [|d ds]; [now destruct Hd as [[]]|].
  cbn [SdkVersion IsPreRelease]. unfold atoi. rewrite E, orb_true_iff, andb_true_iff, Z.geb_le, Z.eqb_eq. destruct codename as [|x codename].
  - intuition discriminate.
  - destruct (list_eq_dec Z.eq_dec (x :: codename) REL) as [Q|Q]; cbn [negb]; [rewrite Q; intuition congruence|tauto].
Qed.
End Android.
