(* ===== verification/FpExact.v ===== *)
(** * Soft float: exact operations

    A layer over the rounding theorems for code that is built from floating
    point operations: [denotes r v] says that the pattern [r] is a finite
    number worth [v], [representable v] that some pattern is.  An operation
    whose exact result is representable returns it; any other sum or difference
    in range is the representable number nearest to the exact result.  The
    last part is the exactness of the fast two-term sum, on which compensated
    arithmetic rests. *)

From S2P Require Import Prelude IntBits FpLib FpSpec FpAdd FpMul FpDiv.

Section Exact.
Context `{FpFormat}.

Notation sb := significandBits.
Notation W := typeWidth.

Definition denotes (r v : Z) : Prop := is_uint W r /\ is_finite r = true /\ fp_value r = v.

Definition representable (v : Z) : Prop := exists x, 0 <= x < infRep /\ fpval x = Z.abs v.

Lemma fp_value_signed r : is_uint W r -> Z.abs (fp_value r) = fpval (fp_abs r) /\ (fp_neg r = true -> fp_value r <= 0) /\ (fp_neg r = false -> 0 <= fp_value r).
Proof.
  intros U. destruct (rep_parts r U) as (_ & A & _). assert (0 <= fpval (fp_abs r)) by (apply fpval_step; lia).
  unfold fp_value. destruct (fp_neg r); repeat split; intros; (discriminate || lia).
Qed.

Lemma denotes_representable r v : denotes r v -> representable v.
Proof.
  intros (U & F & <-). destruct (rep_parts r U) as (_ & A & _). exists (fp_abs r). unfold is_finite in F. apply Z.ltb_lt in F.
  split; [lia|]. symmetry. now apply fp_value_signed.
Qed.

Lemma representable_opp v : representable v -> representable (- v).
Proof. intros (x & Hx & E). exists x. rewrite Z.abs_opp. auto. Qed.

Lemma representable_zero : representable 0.
Proof. exists 0. pose proof infRep_bounds. split; [lia|]. now rewrite fpval_zero. Qed.

Lemma denotes_with_sign (n : bool) x v : 0 <= x < infRep -> fpval x = Z.abs v -> (v <> 0 -> n = (v <? 0)) ->
  denotes (with_sign n x) v.
Proof.
  intros Hx E S. assert (Hw : 0 <= x < 2 ^ (W - 1)) by (pose proof infRep_bounds; lia). destruct (with_sign_parts n x Hw) as (U & N & A).
  split; [exact U|]. split; [unfold is_finite; rewrite A; apply Z.ltb_lt; lia|].
  rewrite fp_value_with_sign, E by assumption. destruct (Z.eq_dec v 0) as [->|Nv]; [destruct n; reflexivity|].
  rewrite (S Nv). case_cmp; lia.
Qed.

(** Numbers with at most [sb + 1] significant bits are representable. *)
Lemma representable_parts v q k : 0 <= k -> 0 <= q <= 2 * 2 ^ sb -> Z.abs v = q * 2 ^ k -> Z.abs v < fpval infRep -> representable v.
Proof.
  intros Hk Hq E L. pose proof sig_pow_pos as Hp. pose proof exponentBits_bounds as B. pose proof infRep_bounds as I.
  assert (G : exists x, 0 <= x /\ fpval x = Z.abs v).
  { rewrite E. clear E L v. destruct (Z.lt_ge_cases q (2 ^ sb)) as [Lq|Lq].
    2:{ exists ((k + 1 - 1) * 2 ^ sb + q). rewrite fpval_parts by lia. split; [nia|]. do 2 f_equal. lia. }
    assert (Hd : exists d, 0 <= d <= k /\ (d = k \/ 2 ^ sb <= q * 2 ^ d) /\ q * 2 ^ d < 2 * 2 ^ sb).
    { clear Hq. revert k Hk. apply (natlike_ind (fun k => exists d, 0 <= d <= k /\ (d = k \/ 2 ^ sb <= q * 2 ^ d) /\ q * 2 ^ d < 2 * 2 ^ sb)).
      - exists 0. rewrite Z.mul_1_r. lia.
      - intros k Hk (d & Hd & C & U). destruct (Z.lt_ge_cases (q * 2 ^ d) (2 ^ sb)) as [L|L].
        + exists (d + 1). assert (P : 2 ^ (d + 1) = 2 * 2 ^ d) by (rewrite (pow2_S (d + 1)) by lia; do 2 f_equal; lia).
          rewrite P. lia.
        + exists d. lia. }
    destruct Hd as (d & Hd & C & U). exists ((k - d + 1 - 1) * 2 ^ sb + q * 2 ^ d). pose proof (pow2_pos d ltac:(lia)).
    destruct (Z.lt_ge_cases q 0) as [Nq|Nq]; [lia|]. rewrite fpval_parts by nia. split; [nia|].
    rewrite <- Z.mul_assoc, <- Z.pow_add_r by lia. do 2 f_equal. lia. }
  destruct G as (x & Hx & V). exists x. split; [|exact V]. split; [exact Hx|]. apply fpval_lt_iff; lia.
Qed.

(** What rounding does to a representable result. *)
Lemma round_exact v d r : 0 < d -> representable v -> rounds_to (d * Z.abs v) d r -> 0 <= r < infRep /\ fpval r = Z.abs v.
Proof.
  intros Hd (x & Hx & E) R. rewrite <- E in R.
  assert (r = x) as -> by (eapply rounds_to_unique; [exact Hd|exact R|apply rounds_to_exact; lia]). auto.
Qed.

(** Rounding does not cross a representable number. *)
Lemma rounds_to_le num den r t : 0 < den -> rounds_to num den r -> 0 <= t -> num <= den * fpval t -> r <= t.
Proof.
  intros Hd (Hr & L & _) Ht Hn. apply Z.le_ngt. intros G. assert (fpval t <= fpval (r - 1)) by (apply fpval_mono; lia).
  assert (fpval t < fpval r) by (apply fpval_lt; lia). destruct L as [L|[L|[L _]]]; nia.
Qed.

Lemma rounds_to_ge num den r t : 0 < den -> rounds_to num den r -> 0 <= t <= infRep -> den * fpval t <= num -> t <= r.
Proof.
  intros Hd (Hr & _ & U) Ht Hn. apply Z.le_ngt. intros G. assert (fpval (r + 1) <= fpval t) by (apply fpval_mono; lia).
  assert (fpval r < fpval t) by (apply fpval_lt; lia). destruct U as [U|[U|[U _]]]; nia.
Qed.

(** The error of rounding is at most half a unit in the last place. *)
Lemma rounds_to_half num r : rounds_to num 1 r -> r < infRep ->
  0 <= num -> 2 * Z.abs (num - fpval r) <= 2 ^ (Z.max 1 (r / 2 ^ sb) - 1).
Proof.
  intros (Hr & L & U) Hi Hn. pose proof sig_pow_pos as Hp. destruct (parts_of r (proj1 Hr)) as (E & q & Er & HE & Hq & Hc).
  assert (D : r / 2 ^ sb = if q <? 2 ^ sb then E - 1 else E).
  { rewrite Er, Z.div_add_l by lia. case_cmp; [rewrite Z.div_small by lia; lia|].
    replace (q / 2 ^ sb) with 1 by (apply Z.div_unique with (q - 2 ^ sb); lia). lia. }
  assert (M : Z.max 1 (r / 2 ^ sb) = E) by (rewrite D; case_cmp; lia). rewrite M. clear D M.
  assert (P : 0 < 2 ^ (E - 1)) by (apply pow2_pos; lia).
  assert (V : fpval r = q * 2 ^ (E - 1)) by (rewrite Er; apply fpval_parts; lia).
  assert (V1 : fpval (r + 1) = (q + 1) * 2 ^ (E - 1)) by (rewrite Er, <- Z.add_assoc; apply fpval_parts; lia).
  assert (G : r = 0 \/ fpval r - fpval (r - 1) <= 2 ^ (E - 1)).
  { destruct (Z.eq_dec r 0) as [->|N]; [now left|right]. destruct (Z.lt_ge_cases (2 ^ sb) q) as [G|G]; [|destruct (Z.eq_dec E 1) as [->|NE]].
    - assert (fpval (r - 1) = (q - 1) * 2 ^ (E - 1)) as ->; [|lia]. replace (r - 1) with ((E - 1) * 2 ^ sb + (q - 1)) by lia. apply fpval_parts; lia.
    - assert (fpval (r - 1) = (q - 1) * 2 ^ (1 - 1)) as ->; [|lia]. replace (r - 1) with ((1 - 1) * 2 ^ sb + (q - 1)) by lia. apply fpval_parts; lia.
    - assert (q = 2 ^ sb) by lia. subst q. assert (Q : 2 ^ (E - 1) = 2 * 2 ^ (E - 1 - 1)) by (apply pow2_S; lia).
      assert (fpval (r - 1) = (2 * 2 ^ sb - 1) * 2 ^ (E - 1 - 1)) as ->; [|nia].
      replace (r - 1) with ((E - 1 - 1) * 2 ^ sb + (2 * 2 ^ sb - 1)) by lia. apply fpval_parts; lia. }
  pose proof fpval_zero. destruct (Z.eq_dec r 0) as [R0|R0].
  - rewrite R0 in *. destruct U as [U|[U|[U _]]]; lia.
  - destruct G as [G|G]; [contradiction|]. destruct L as [L|L]; [contradiction|]. destruct U as [U|U]; [lia|].
    assert (2 * num <= fpval r + fpval (r + 1)) by lia. assert (fpval (r - 1) + fpval r <= 2 * num) by lia. lia.
Qed.

(** ** Sums that are rounded *)

(** [s] is the number nearest to the integer [z], ties to even, and finite. *)
Definition rounds (z s : Z) : Prop :=
  exists r, r < infRep /\ rounds_to (Z.abs z) 1 r /\ s = if z <? 0 then - fpval r else fpval r.

Lemma rounds_abs z s : rounds z s -> exists r, 0 <= r < infRep /\ rounds_to (Z.abs z) 1 r /\ fpval r = Z.abs s /\ Z.abs (z - s) = Z.abs (Z.abs z - Z.abs s) /\ 0 <= z * s.
Proof.
  intros (r & Hr & R & ->). assert (H0 : 0 <= r) by apply R. assert (0 <= fpval r) by now apply fpval_step. exists r.
  split; [lia|]. split; [exact R|]. destruct (Z.ltb_spec z 0); (split; [lia|split; [lia|nia]]).
Qed.

Lemma rounds_representable z s : rounds z s -> representable s.
Proof. intros R. destruct (rounds_abs z s R) as (r & Hr & _ & V & _). exists r. auto. Qed.

Lemma rounds_exact z s : rounds z s -> representable z -> s = z.
Proof.
  intros R Rep. destruct (rounds_abs z s R) as (r & Hr & Rr & V & D & S). destruct (round_exact z 1 r ltac:(lia) Rep) as [_ E]; [now rewrite Z.mul_1_l|]. lia.
Qed.

Lemma rounds_self z : representable z -> rounds z z.
Proof.
  intros (x & Hx & V). exists x. split; [lia|]. split; [|destruct (Z.ltb_spec z 0); lia].
  rewrite <- (Z.mul_1_l (Z.abs z)), <- V. apply rounds_to_exact; lia.
Qed.

(** No representable number is nearer. *)
Lemma rounds_best z s t : rounds z s -> representable t -> Z.abs (z - s) <= Z.abs (z - t).
Proof.
  intros R (x & Hx & Vt). destruct (rounds_abs z s R) as (r & Hr & (_ & L & U) & V & D & _). rewrite D, <- V.
  enough (Z.abs (Z.abs z - fpval r) <= Z.abs (Z.abs z - fpval x)) by lia. destruct (Z.lt_trichotomy x r) as [C|[->|C]]; [|lia|].
  - assert (fpval x <= fpval (r - 1)) by (apply fpval_mono; lia). assert (fpval (r - 1) < fpval r) by (apply fpval_lt; lia).
    destruct L as [L|L]; [lia|]. assert (fpval (r - 1) + fpval r <= 2 * Z.abs z) by lia. lia.
  - assert (fpval (r + 1) <= fpval x) by (apply fpval_mono; lia). assert (fpval r < fpval (r + 1)) by (apply fpval_lt; lia).
    destruct U as [U|U]; [lia|]. assert (2 * Z.abs z <= fpval r + fpval (r + 1)) by lia. lia.
Qed.

(** A representable number with its unit in the last place. *)
Lemma representable_ulp v : representable v -> exists q k, 0 <= q < 2 * 2 ^ sb /\ 0 <= k /\ Z.abs v = q * 2 ^ k /\ (k = 0 \/ 2 ^ sb <= q).
Proof.
  intros (x & Hx & V). destruct (parts_of x (proj1 Hx)) as (E & q & -> & HE & Hq & Hn). rewrite fpval_parts in V by lia.
  exists q, (E - 1). repeat split; lia.
Qed.

(** Rounding is off by at most half of that unit, so by at most one part in
    [2^(sb+1)]. *)
Lemma rounds_ulp z s : rounds z s -> exists q k, 0 <= q < 2 * 2 ^ sb /\ 0 <= k /\ Z.abs s = q * 2 ^ k /\ (k = 0 \/ 2 ^ sb <= q) /\ 2 * Z.abs (z - s) <= 2 ^ k.
Proof.
  intros R. destruct (rounds_abs z s R) as (r & Hr & Rr & V & D & _). pose proof sig_pow_pos as Hp.
  assert (C : 2 * Z.abs (Z.abs z - fpval r) <= 2 ^ (Z.max 1 (r / 2 ^ sb) - 1)) by (apply rounds_to_half; [exact Rr|lia|lia]).
  rewrite V, <- D in C. destruct (parts_of r (proj1 Hr)) as (E & q & Er & HE & Hq & Hn).
  assert (Z.max 1 (r / 2 ^ sb) <= E) as M.
  { rewrite Er, Z.div_add_l by lia. destruct (Z.lt_ge_cases q (2 ^ sb)); [rewrite Z.div_small by lia; lia|].
    replace (q / 2 ^ sb) with 1 by (apply Z.div_unique with (q - 2 ^ sb); lia). lia. }
  exists q, (E - 1). split; [exact Hq|]. split; [lia|]. split; [rewrite <- V, Er; apply fpval_parts; lia|]. split; [lia|].
  apply Z.le_trans with (1 := C). apply Z.pow_le_mono_r; lia.
Qed.

Lemma rounds_relative z s : rounds z s -> Z.abs (z - s) * (2 * 2 ^ sb - 1) <= Z.abs z.
Proof.
  intros R. destruct (rounds_ulp z s R) as (q & k & Hq & Hk & V & N & D). pose proof sig_pow_pos as Hp.
  assert (P : 0 < 2 ^ k) by (apply pow2_pos; lia). destruct N as [->|N].
  - change (2 ^ 0) with 1 in D. assert (Z.abs (z - s) = 0) as -> by lia. lia.
  - set (p := 2 ^ sb) in *. set (y := 2 ^ k) in *. clearbody p y.
    assert (p * (2 * Z.abs (z - s)) <= p * y) by nia. assert (p * y <= Z.abs s) by nia. lia.
Qed.

(** ** The fast two-term sum

    When the larger operand comes first, the part of a sum that rounding loses
    is representable, and so is the difference it is computed from. *)
Lemma divides_ulp k v q kv : 0 <= k <= kv -> Z.abs v = q * 2 ^ kv -> (2 ^ k | v).
Proof.
  intros Hk V. apply Z.divide_abs_r. rewrite V. apply Z.divide_mul_r. exists (2 ^ (kv - k)). rewrite <- Z.pow_add_r by lia. f_equal. lia.
Qed.

Lemma representable_multiple v k : 0 <= k -> (2 ^ k | v) -> Z.abs v <= 2 * 2 ^ sb * 2 ^ k -> Z.abs v < fpval infRep -> representable v.
Proof.
  intros Hk (c & E) B I. assert (P : 0 < 2 ^ k) by (apply pow2_pos; lia).
  assert (V : Z.abs v = Z.abs c * 2 ^ k) by (rewrite E, Z.abs_mul, (Z.abs_eq (2 ^ k)); lia).
  apply (representable_parts v (Z.abs c) k); [lia|rewrite V in B; nia|exact V|exact I].
Qed.

(** Rounding keeps the order with representable numbers. *)
Lemma rounds_order z s t : rounds z s -> representable t -> (Z.abs t <= Z.abs z -> Z.abs t <= Z.abs s) /\ (Z.abs z <= Z.abs t -> Z.abs s <= Z.abs t).
Proof.
  intros R (x & Hx & V). destruct (rounds_abs z s R) as (r & Hr & Rr & Vs & _). rewrite <- Vs, <- V.
  split; intros C; apply fpval_mono; try lia; [apply (rounds_to_ge (Z.abs z) 1 r x)|apply (rounds_to_le (Z.abs z) 1 r x)]; try assumption; lia.
Qed.

Section TwoSum.
Context (x y s : Z).
Hypotheses (Hx : representable x) (Hy : representable y) (Hs : rounds (x + y) s) (Hxy : Z.abs y <= Z.abs x) (Hinf : 2 * Z.abs x < fpval infRep).

Lemma two_sum_error : representable (x + y - s) /\ representable (x - s).
Proof.
  pose proof sig_pow_pos as Hp. pose proof (rounds_best _ _ x Hs Hx) as B. replace (x + y - x) with y in B by lia.
  destruct (representable_ulp x Hx) as (qx & kx & Qx & Kx & Vx & Nx). destruct (representable_ulp y Hy) as (qy & ky & Qy & Ky & Vy & Ny).
  assert (Px : 0 < 2 ^ kx) by (apply pow2_pos; lia). assert (Py : 0 < 2 ^ ky) by (apply pow2_pos; lia).
  assert (LE : ky <= kx).
  { apply Z.nlt_ge. intros G. assert (2 * 2 ^ kx <= 2 ^ ky) by (rewrite <- (Z.pow_succ_r 2 kx) by lia; apply Z.pow_le_mono_r; lia). destruct Ny; [lia|nia]. }
  assert (Mx : (2 ^ ky | x)) by (apply (divides_ulp ky x qx kx); auto).
  assert (Mz : (2 ^ ky | x + y)) by (apply Z.divide_add_r; [exact Mx|apply (divides_ulp ky y qy ky); auto; lia]).
  destruct (Z.le_gt_cases (Z.abs (x + y)) (2 * 2 ^ sb * 2 ^ ky)) as [L|L].
  { rewrite (rounds_exact _ _ Hs) by (apply (representable_multiple _ ky); auto; lia).
    replace (x - (x + y)) with (- y) by lia. rewrite Z.sub_diag. split; [apply representable_zero|now apply representable_opp]. }
  destruct (rounds_ulp _ _ Hs) as (qs & ks & Qs & Ks & Vs & Ns & D). assert (Ps : 0 < 2 ^ ks) by (apply pow2_pos; lia).
  assert (KS : ky + 1 <= ks).
  { apply Z.nlt_ge. intros G. assert (2 ^ ks <= 2 ^ ky) by (apply Z.pow_le_mono_r; lia).
    assert (Rt : representable (2 * 2 ^ sb * 2 ^ ky)) by (apply (representable_multiple _ ky); [lia|apply Z.divide_factor_r|lia|lia]).
    pose proof (proj1 (rounds_order _ _ _ Hs Rt) ltac:(lia)). nia. }
  assert (KS2 : 2 ^ ks = 2 * 2 ^ (ks - 1)) by (apply pow2_S; lia). assert (Pk : 2 ^ ky <= 2 ^ (ks - 1)) by (apply Z.pow_le_mono_r; lia).
  split; [apply (representable_multiple _ ky); [lia| |nia|lia]; apply Z.divide_sub_r; [exact Mz|apply (divides_ulp ky s qs ks); auto; lia]|].
  assert (T : Z.abs (x - s) <= Z.abs y + Z.abs (x + y - s)) by lia. destruct (Z.le_gt_cases kx ks) as [C|C].
  - assert (KX : ks <= kx + 1).
    { apply Z.nlt_ge. intros G. assert (4 * 2 ^ kx <= 2 ^ ks) by (change 4 with (2 ^ 2); rewrite <- Z.pow_add_r by lia; apply Z.pow_le_mono_r; lia).
      assert (Rt : representable (2 * Z.abs x)) by (apply (representable_parts _ qx (kx + 1)); [lia|lia|rewrite Z.pow_add_r by lia; lia|lia]).
      pose proof (proj2 (rounds_order _ _ _ Hs Rt) ltac:(lia)). destruct Ns; [lia|nia]. }
    assert (2 ^ ks <= 2 ^ (kx + 1)) by (apply Z.pow_le_mono_r; lia). rewrite Z.pow_add_r in * by lia.
    apply (representable_multiple _ kx); [lia| |nia|lia]. apply Z.divide_sub_r; [apply (divides_ulp kx x qx kx)|apply (divides_ulp kx s qs ks)]; auto; lia.
  - apply (representable_multiple _ ks); [lia| |nia|lia]. apply Z.divide_sub_r; [apply (divides_ulp ks x qx kx)|apply (divides_ulp ks s qs ks)]; auto; lia.
Qed.
End TwoSum.

Context {O : FpOps}.

Lemma add_exact a b x y : denotes a x -> denotes b y -> representable (x + y) ->
  denotes (__addXf3__ CRT_FE_TONEAREST a b) (x + y).
Proof.
  intros (Ua & Fa & Va) (Ub & Fb & Vb) Rep. destruct (add_finite_spec a b Ua Ub Fa Fb) as (r & R & ->).
  rewrite Va, Vb in R. destruct (round_exact (x + y) 1 r ltac:(lia) Rep) as [Hr E]; [now rewrite Z.mul_1_l|].
  apply denotes_with_sign; [exact Hr|exact E|]. intros N. unfold sum_sign. rewrite Va, Vb.
  now rewrite (proj2 (Z.eqb_neq _ _) N).
Qed.

Lemma neg_denotes b y : denotes b y -> denotes (negXf2 b) (- y).
Proof.
  intros (U & F & V). unfold negXf2. destruct (flip_sign b U) as (F0 & F1 & F2).
  split; [exact F0|]. unfold is_finite, fp_value in *. rewrite F1, F2. split; [exact F|]. destruct (fp_neg b); cbn [negb]; lia.
Qed.

Lemma sub_exact a b x y : denotes a x -> denotes b y -> representable (x - y) -> denotes (subXf3 a b) (x - y).
Proof. intros Ha Hb R. unfold subXf3. rewrite <- Z.add_opp_r in *. apply add_exact; auto. now apply neg_denotes. Qed.

(** A sum in range is rounded. *)
Lemma add_rounds a b x y : denotes a x -> denotes b y -> 2 * Z.abs (x + y) <= fpval infRep ->
  exists s, denotes (__addXf3__ CRT_FE_TONEAREST a b) s /\ rounds (x + y) s.
Proof.
  intros (Ua & Fa & Va) (Ub & Fb & Vb) B. destruct (add_finite_spec a b Ua Ub Fa Fb) as (r & R & ->). rewrite Va, Vb in R.
  pose proof infRep_bounds as I. assert (Hr : r < infRep).
  { apply Z.le_lt_trans with (infRep - 1); [|lia]. apply (rounds_to_le (Z.abs (x + y)) 1 r (infRep - 1) ltac:(lia) R); [lia|].
    pose proof maxExponent_bounds as Mx. pose proof sig_pow_pos as Hp. pose proof fpval_inf as VI. rewrite (pow2_S (maxExponent - 1)) in VI by lia.
    assert (V1 : fpval (infRep - 1) = (2 * 2 ^ sb - 1) * 2 ^ (maxExponent - 1 - 1)).
    { replace (infRep - 1) with ((maxExponent - 1 - 1) * 2 ^ sb + (2 * 2 ^ sb - 1)) by (rewrite infRep_val; ring). apply fpval_parts; lia. }
    assert (0 < 2 ^ (maxExponent - 1 - 1)) by (apply pow2_pos; lia). rewrite V1. nia. }
  assert (0 <= fpval r) by (apply fpval_step, R). exists (if x + y <? 0 then - fpval r else fpval r). split; [|exists r; auto].
  apply denotes_with_sign; [split; [apply R|exact Hr]|destruct (x + y <? 0); lia|]. intros N. unfold sum_sign. rewrite Va, Vb.
  destruct (Z.eqb_spec (x + y) 0) as [Z0|Z0]; [|destruct (Z.ltb_spec (x + y) 0); symmetry; [apply Z.ltb_lt|apply Z.ltb_ge]; lia].
  exfalso. apply N. rewrite Z0. cbn [Z.ltb]. rewrite Z0 in R.
  destruct (round_exact 0 1 r ltac:(lia) representable_zero R) as [_ E]. rewrite E. reflexivity.
Qed.

Lemma fpval_inf_pos : 0 < fpval infRep.
Proof. pose proof infRep_bounds. rewrite <- fpval_zero. apply fpval_lt; lia. Qed.

(** The fast two-term sum: with the larger operand first, [b + (a - s)] is
    what the sum [s] loses. *)
Lemma fast_two_sum a b s x y v : denotes a x -> denotes b y -> denotes s v -> rounds (x + y) v ->
  Z.abs y <= Z.abs x -> 4 * Z.abs x <= fpval infRep ->
  denotes (__addXf3__ CRT_FE_TONEAREST b (subXf3 a s)) (x + y - v) /\ denotes (__addXf3__ CRT_FE_TONEAREST (subXf3 a s) b) (x + y - v).
Proof.
  intros Da Db Dv R L B. pose proof fpval_inf_pos.
  destruct (two_sum_error x y v (denotes_representable _ _ Da) (denotes_representable _ _ Db) R L ltac:(lia)) as [R1 R2].
  pose proof (sub_exact a s x v Da Dv R2) as D. split.
  - replace (x + y - v) with (y + (x - v)) in * by lia. now apply add_exact.
  - replace (x + y - v) with (x - v + y) in * by lia. now apply add_exact.
Qed.

Lemma product_sign_value a b x y : denotes a x -> denotes b y -> x * y <> 0 -> product_sign a b = (x * y <? 0).
Proof.
  intros (Ua & _ & <-) (Ub & _ & <-) N. unfold product_sign.
  destruct (fp_value_signed a Ua) as (_ & Na & Pa). destruct (fp_value_signed b Ub) as (_ & Nb & Pb).
  destruct (fp_neg a), (fp_neg b); cbn [xorb]; symmetry; first [apply Z.ltb_lt|apply Z.ltb_ge]; nia.
Qed.

Context {M : FpWideMul}.

Lemma mul_exact a b x y z : denotes a x -> denotes b y -> x * y = z * 2 ^ unitExp -> representable z ->
  denotes (__mulXf3__ a b) z.
Proof.
  intros Da Db E Rep. pose proof Da as (Ua & Fa & Va). pose proof Db as (Ub & Fb & Vb). pose proof unit_pos as Hu.
  destruct (mul_finite_spec a b Ua Ub Fa Fb) as (r & R & ->). rewrite Va, Vb, E, Z.abs_mul, (Z.abs_eq (2 ^ unitExp)), Z.mul_comm in R by lia.
  destruct (round_exact z _ r Hu Rep R) as [Hr V]. apply denotes_with_sign; [exact Hr|exact V|]. intros N.
  rewrite (product_sign_value a b x y) by (try assumption; nia). rewrite E. apply Bool.eq_iff_eq_true. rewrite !Z.ltb_lt. nia.
Qed.

Context {R : FpRecip}.

Lemma div_exact a b x y z : denotes a x -> denotes b y -> y <> 0 -> x * 2 ^ unitExp = z * y -> representable z ->
  denotes (__divXf3__ a b) z.
Proof.
  intros Da Db Ny E Rep. pose proof Da as (Ua & Fa & Va). pose proof Db as (Ub & Fb & Vb). pose proof unit_pos as Hu.
  assert (Nb : fp_abs b <> 0) by (intros Z0; apply Ny; rewrite <- Vb; unfold fp_value; rewrite Z0, fpval_zero; now destruct (fp_neg b)).
  destruct (div_finite_spec a b Ua Ub Fa Fb Nb) as (r & Rr & ->). rewrite Va, Vb in Rr.
  replace (Z.abs x * 2 ^ unitExp) with (Z.abs y * Z.abs z) in Rr
    by (rewrite <- (Z.abs_eq (2 ^ unitExp)), <- !Z.abs_mul by lia; f_equal; lia).
  assert (Hy : 0 < Z.abs y) by lia. destruct (round_exact z _ r Hy Rep Rr) as [Hr V]. apply denotes_with_sign; [exact Hr|exact V|]. intros N.
  assert (E2 : x * y * 2 ^ unitExp = z * (y * y)) by (rewrite Z.mul_assoc, <- E; ring). assert (0 < y * y) by nia.
  rewrite (product_sign_value a b x y) by (try assumption; nia). apply Bool.eq_iff_eq_true. rewrite !Z.ltb_lt. nia.
Qed.
End Exact.
