(* ===== verification/HardFloat.v ===== *)
(** * Conversions for builds with hardware floating point

    [floatdidf.c], [floatundidf.c], [fixdfdi.c], [fixunsdfdi.c], [fixsfdi.c]
    and [fixunssfdi.c] have two bodies each.  [FpInt] models the ones for
    [__SOFTFP__]; here are the others, which this platform builds: they work
    with [double] operations, and the instrumented code has no others than the
    routines of this library, so each operator is the routine the compiler
    calls for it.  Both bodies are proved to give the same results. *)

From S2P Require Import Prelude IntBits FpLib FpSpec FpAdd FpMul FpCompare FpConv FpInt FpDiv FpExact.

(** ** The routines *)

(** The constants as patterns: [0x1.0p52], [0x1.0p32], [0x1.0p84] and
    [0x1.00000001p84]. *)
Definition twop52 : Z := 0x4330000000000000.
Definition twop32 : Z := 0x41f0000000000000.
Definition twop84 : Z := 0x4530000000000000.
Definition twop84_plus_twop52 : Z := 0x4530000000100000.

Definition __floatdidf_hw (a : Z) : Z :=
  let high := __muldf3 (__floatsidf (sint 32 (a >>[64] 32))) twop32 in
  let low := twop52 .| (a .& 0x00000000ffffffff) in
  __adddf3 (__subdf3 high twop52) low.

Definition __floatundidf_hw (a : Z) : Z :=
  let high := twop84 .| (a >>[64] 32) in
  let low := twop52 .| (a .& 0x00000000ffffffff) in
  __adddf3 (__subdf3 high twop84_plus_twop52) low.

Definition __fixunsdfdi_hw (a : Z) : Z :=
  if __ledf2 a 0 <=? 0 then 0
  else
    let high := __fixunsdfsi (__divdf3 a twop32) in
    let low := __fixunsdfsi (__subdf3 a (__muldf3 (__floatunsidf high) twop32)) in
    (high <<[64] 32) .| low.

Definition __fixdfdi_hw (a : Z) : Z :=
  if __ltdf2 a 0 <? 0 then sint 64 (uopp 64 (__fixunsdfdi_hw (__negdf2 a)))
  else sint 64 (__fixunsdfdi_hw a).

Definition __fixunssfdi_hw (a : Z) : Z :=
  if __lesf2 a 0 <=? 0 then 0
  else
    let da := __extendsfdf2 a in
    let high := __fixunsdfsi (__divdf3 da twop32) in
    let low := __fixunsdfsi (__subdf3 da (__muldf3 (__floatunsidf high) twop32)) in
    (high <<[64] 32) .| low.

Definition __fixsfdi_hw (a : Z) : Z :=
  if __ltsf2 a 0 <? 0 then sint 64 (uopp 64 (__fixunssfdi_hw (__negsf2 a)))
  else sint 64 (__fixunssfdi_hw a).

(** ** Doubles that are integers *)

Notation U := (2 ^ @unitExp double_precision).

(** The pattern [r] is the double [n]. *)
Definition dbl (r n : Z) : Prop := @denotes double_precision r (n * U).

(** Integers of at most 53 significant bits. *)
Definition fits53 (n : Z) : Prop := exists q k, 0 <= k <= 900 /\ 0 <= q <= 2 ^ 53 /\ Z.abs n = q * 2 ^ k.

Lemma fits53_small n : Z.abs n <= 2 ^ 53 -> fits53 n.
Proof. intros L. exists (Z.abs n), 0. rewrite Z.mul_1_r. lia. Qed.

Lemma fits53_mul q k : 0 <= k <= 900 -> Z.abs q <= 2 ^ 53 -> fits53 (q * 2 ^ k).
Proof. intros Hk L. exists (Z.abs q), k. pose proof (pow2_pos k ltac:(lia)). rewrite Z.abs_mul, (Z.abs_eq (2 ^ k)) by lia. lia. Qed.

Lemma U_val : U = 2 ^ 1074.
Proof. reflexivity. Qed.

Lemma fits53_representable n : fits53 n -> @representable double_precision (n * U).
Proof.
  intros (q & k & Hk & Hq & E). assert (V : Z.abs (n * U) = q * 2 ^ (k + 1074)).
  { rewrite Z.abs_mul, E, U_val, (Z.abs_eq (2 ^ 1074)), Z.pow_add_r, Z.mul_assoc by lia. reflexivity. }
  apply (@representable_parts double_precision _ q (k + 1074)); [lia|exact Hq|exact V|]. rewrite V.
  apply Z.le_lt_trans with (2 ^ 53 * 2 ^ 1974); [|reflexivity].
  apply Z.mul_le_mono_nonneg; [lia|lia|apply Z.pow_nonneg; lia|apply Z.pow_le_mono_r; lia].
Qed.

Lemma dbl_add a b x y : dbl a x -> dbl b y -> fits53 (x + y) -> dbl (__adddf3 a b) (x + y).
Proof. intros Ha Hb F. unfold dbl. rewrite Z.mul_add_distr_r. apply add_exact; auto. rewrite <- Z.mul_add_distr_r. now apply fits53_representable. Qed.

Lemma dbl_sub a b x y : dbl a x -> dbl b y -> fits53 (x - y) -> dbl (__subdf3 a b) (x - y).
Proof. intros Ha Hb F. unfold dbl. rewrite Z.mul_sub_distr_r. apply sub_exact; auto. rewrite <- Z.mul_sub_distr_r. now apply fits53_representable. Qed.

Lemma dbl_mul a b x y : dbl a x -> dbl b y -> fits53 (x * y) -> dbl (__muldf3 a b) (x * y).
Proof.
  intros Ha Hb F. apply (@mul_exact double_precision double_ops double_wide a b _ _ _ Ha Hb); [ring|]. now apply fits53_representable.
Qed.

(** A conversion of an integer that the format has is exact. *)
Lemma converts_denotes (F : FpFormat) n r : converts n r -> representable (n * 2 ^ unitExp) -> denotes r (n * 2 ^ unitExp).
Proof.
  intros (Ur & S & R) F'. destruct (rep_parts r Ur) as (-> & _). rewrite S. pose proof unit_pos as HU.
  destruct (round_exact (n * 2 ^ unitExp) 1 (fp_abs r)) as [Hr V]; [lia|exact F'| |].
  - rewrite Z.mul_1_l, Z.abs_mul, (Z.abs_eq (2 ^ unitExp)) by lia. exact R.
  - apply denotes_with_sign; [exact Hr|exact V|]. intros _. apply Bool.eq_iff_eq_true. rewrite !Z.ltb_lt. nia.
Qed.

Lemma converts_dbl n r : @converts double_precision n r -> fits53 n -> dbl r n.
Proof. intros C H. exact (converts_denotes double_precision n r C (fits53_representable n H)). Qed.

(** Two conversions of one integer agree. *)
Lemma converts_unique (F : FpFormat) n r r' : converts n r -> converts n r' -> r = r'.
Proof.
  intros (U1 & S1 & R1) (U2 & S2 & R2). destruct (rep_parts r U1) as (E1 & _). destruct (rep_parts r' U2) as (E2 & _).
  rewrite E1, E2, S1, S2. f_equal. eapply rounds_to_unique; [|eassumption|eassumption]. lia.
Qed.

(** A pattern with the significand bits [m] under the leading bit. *)
Lemma dbl_bits e m n : 1 <= e < 2047 -> 0 <= m < 2 ^ 52 -> (2 ^ 52 + m) * 2 ^ (e - 1) = n * U -> dbl (e * 2 ^ 52 + m) n.
Proof.
  intros He Hm E. assert (P : 0 < 2 ^ (e - 1)) by (apply pow2_pos; lia). assert (Hn : 0 < n) by (pose proof (@unit_pos double_precision); nia).
  change (e * 2 ^ 52 + m) with (@with_sign double_precision false (e * 2 ^ 52 + m)).
  apply (@denotes_with_sign double_precision); [change (@infRep double_precision) with (2047 * 2 ^ 52); lia| |].
  - replace (e * 2 ^ 52 + m) with ((e - 1) * 2 ^ 52 + (2 ^ 52 + m)) by ring.
    pose proof (@fpval_parts double_precision e (2 ^ 52 + m)) as V. change (@significandBits double_precision) with 52 in V. rewrite V, E by lia. pose proof (@unit_pos double_precision). nia.
  - intros _. symmetry. apply Z.ltb_ge. pose proof (@unit_pos double_precision). nia.
Qed.

(** ** Integers to doubles *)

Lemma low_dbl a : dbl (twop52 .| (a .& 0x00000000ffffffff)) (2 ^ 52 + a mod 2 ^ 32).
Proof.
  pose proof (Z.mod_pos_bound a (2 ^ 32) ltac:(lia)) as M. change 0x00000000ffffffff with (Z.ones 32). rewrite Z.land_ones by lia.
  change twop52 with (0x433 * 2 ^ 52). rewrite lor_add_disjoint by lia. apply dbl_bits; [lia|lia|reflexivity].
Qed.

Lemma high_dbl a : is_uint 64 a -> dbl (twop84 .| (a >>[64] 32)) (2 ^ 84 + a / 2 ^ 32 * 2 ^ 32).
Proof.
  intros R. rewrite shr_spec by lia. unfold is_uint in R. pose proof (Z.div_pos a (2 ^ 32) ltac:(lia) ltac:(lia)).
  assert (a / 2 ^ 32 < 2 ^ 32) by (apply Z.div_lt_upper_bound; lia).
  change twop84 with (0x453 * 2 ^ 52). rewrite lor_add_disjoint by lia. apply dbl_bits; [lia|lia|].
  change (0x453 - 1) with (32 + 1074). rewrite U_val, Z.pow_add_r by lia. ring.
Qed.

Lemma twop32_dbl : dbl twop32 (2 ^ 32).
Proof. repeat split; vm_compute; congruence. Qed.

(** The last operation of both routines adds the halves and rounds. *)
Lemma halves_convert a h r s : dbl h (a - (2 ^ 52 + a mod 2 ^ 32)) -> dbl r (2 ^ 52 + a mod 2 ^ 32) -> s = __adddf3 h r ->
  @converts double_precision a s.
Proof.
  intros Dh Dr ->. pose proof Dh as (Uh & Fh & Vh). pose proof Dr as (Ur & Fr & Vr). pose proof (@unit_pos double_precision) as HU.
  destruct (@add_finite_spec double_precision double_ops h r Uh Ur Fh Fr) as (x & R & E). unfold __adddf3. change __fe_getround with CRT_FE_TONEAREST. rewrite E.
  rewrite Vh, Vr in R. replace ((a - (2 ^ 52 + a mod 2 ^ 32)) * U + (2 ^ 52 + a mod 2 ^ 32) * U) with (a * U) in R by ring.
  apply converts_intro; [|rewrite Z.abs_mul, (Z.abs_eq U) in R by lia; exact R].
  unfold sum_sign. rewrite Vh, Vr. replace ((a - (2 ^ 52 + a mod 2 ^ 32)) * U + (2 ^ 52 + a mod 2 ^ 32) * U) with (a * U) by ring.
  destruct (Z.eqb_spec (a * U) 0) as [Z0|Z0]; [|apply Bool.eq_iff_eq_true; rewrite !Z.ltb_lt; nia].
  destruct (fp_value_signed r Ur) as (_ & Nr & _). pose proof (Z.mod_pos_bound a (2 ^ 32) ltac:(lia)).
  assert (a = 0) as -> by nia. destruct (@fp_neg double_precision r); [|apply andb_false_r].
  specialize (Nr eq_refl). rewrite Vr in Nr. nia.
Qed.

(** The first addend of the signed and of the unsigned routine. *)
Lemma high_addend_dbl a : is_sint 64 a ->
  dbl (__subdf3 (__muldf3 (__floatsidf (sint 32 (a >>[64] 32))) twop32) twop52) (a - (2 ^ 52 + a mod 2 ^ 32)).
Proof.
  intros R. unfold is_sint in R. change (2 ^ (64 - 1)) with (2 ^ 63) in R. pose proof (Z.div_mod a (2 ^ 32) ltac:(lia)) as D.
  pose proof (Z.mod_pos_bound a (2 ^ 32) ltac:(lia)) as M. rewrite shr_spec by lia.
  assert (Rh : - 2 ^ 31 <= a / 2 ^ 32 < 2 ^ 31) by lia. rewrite sint_small by (unfold is_sint; lia).
  assert (Dh : dbl (__floatsidf (a / 2 ^ 32)) (a / 2 ^ 32))
    by (apply converts_dbl; [apply signed_shift_converts; exact Rh|apply fits53_small; lia]).
  assert (D52 : dbl twop52 (2 ^ 52)) by (repeat split; vm_compute; congruence).
  replace (a - (2 ^ 52 + a mod 2 ^ 32)) with (a / 2 ^ 32 * 2 ^ 32 - 2 ^ 52) by lia.
  apply dbl_sub; [|exact D52|replace (a / 2 ^ 32 * 2 ^ 32 - 2 ^ 52) with ((a / 2 ^ 32 - 2 ^ 20) * 2 ^ 32) by ring; apply fits53_mul; lia].
  apply dbl_mul; [exact Dh|exact twop32_dbl|apply fits53_mul; lia].
Qed.

Lemma high_addend_udbl a : is_uint 64 a ->
  dbl (__subdf3 (twop84 .| (a >>[64] 32)) twop84_plus_twop52) (a - (2 ^ 52 + a mod 2 ^ 32)).
Proof.
  intros R. pose proof (high_dbl a R) as Dh. unfold is_uint in R. pose proof (Z.div_mod a (2 ^ 32) ltac:(lia)) as D.
  pose proof (Z.mod_pos_bound a (2 ^ 32) ltac:(lia)) as M.
  assert (D84 : dbl twop84_plus_twop52 (2 ^ 84 + 2 ^ 52)) by (repeat split; vm_compute; congruence).
  replace (a - (2 ^ 52 + a mod 2 ^ 32)) with (2 ^ 84 + a / 2 ^ 32 * 2 ^ 32 - (2 ^ 84 + 2 ^ 52)) by lia.
  apply dbl_sub; [exact Dh|exact D84|].
  replace (2 ^ 84 + a / 2 ^ 32 * 2 ^ 32 - (2 ^ 84 + 2 ^ 52)) with ((a / 2 ^ 32 - 2 ^ 20) * 2 ^ 32) by ring. apply fits53_mul; lia.
Qed.

Lemma floatdidf_hw_converts a : is_sint 64 a -> @converts double_precision a (__floatdidf_hw a).
Proof. intros R. eapply halves_convert; [now apply high_addend_dbl|apply low_dbl|reflexivity]. Qed.

Lemma floatundidf_hw_converts a : is_uint 64 a -> @converts double_precision a (__floatundidf_hw a).
Proof. intros R. eapply halves_convert; [now apply high_addend_udbl|apply low_dbl|reflexivity]. Qed.

(** The two bodies of [__floatdidf] and of [__floatundidf] return the same
    pattern for every argument: the integer, rounded once to nearest even. *)
Theorem float_bodies_agree a :
  (is_sint 64 a -> __floatdidf_hw a = __floatdidf a) /\ (is_uint 64 a -> __floatundidf_hw a = __floatundidf a).
Proof.
  assert (C64 : forall m, 0 < m < 2 ^ 64 -> clz64 m = clz 64 m) by reflexivity.
  split; intros R; apply (converts_unique double_precision a).
  - now apply floatdidf_hw_converts.
  - exact (float_df_spec true 64 clz64 C64 a ltac:(lia) R).
  - now apply floatundidf_hw_converts.
  - exact (float_df_spec false 64 clz64 C64 a ltac:(lia) R).
Qed.

(** ** Doubles to integers *)

Lemma bias_double : 32 <= @typeWidth double_precision /\ 1 < 32 <= @exponentBias double_precision + 1 /\ 1 < 64 <= @exponentBias double_precision + 1.
Proof. vm_compute. intuition congruence. Qed.

Lemma bias_single : 32 <= @typeWidth single_precision /\ 1 < 64 <= @exponentBias single_precision + 1.
Proof. vm_compute. intuition congruence. Qed.

(** The soft conversions and the comparison with zero, by value. *)
Section ByValue.
Context (F : FpFormat) (N : Z) (Hw : 32 <= typeWidth) (HN : 1 < N <= exponentBias + 1).

Lemma fixuns_denotes r v : denotes r v -> v < 2 ^ N * 2 ^ unitExp -> __fixuint N r = if v <? 0 then 0 else v / 2 ^ unitExp.
Proof.
  intros (Ur & Fr & V) Hv. rewrite (fixuint_spec N Hw HN r Ur).
  destruct (fp_value_signed r Ur) as (A & Nr & Pr). rewrite V in *. unfold int_part. rewrite <- A. pose proof unit_pos as HU.
  destruct (fp_neg r).
  - specialize (Nr eq_refl). case_cmp; [reflexivity|]. replace v with 0 by lia. reflexivity.
  - specialize (Pr eq_refl). rewrite Z.abs_eq by lia. rewrite (proj2 (Z.ltb_ge v 0)) by lia.
    rewrite (proj2 (Z.ltb_lt _ _)); [reflexivity|]. apply Z.div_lt_upper_bound; lia.
Qed.

Lemma fixint_denotes r v : denotes r v -> Z.abs v < 2 ^ N * 2 ^ unitExp -> __fixint N r = sint N (Z.quot v (2 ^ unitExp)).
Proof.
  intros (Ur & Fr & V) Hv. rewrite (fixint_spec N Hw HN r Ur). pose proof unit_pos as HU.
  assert (T : fp_trunc r = Z.quot v (2 ^ unitExp)) by (unfold fp_trunc; now rewrite V). rewrite <- T, (fp_trunc_int_part r Ur).
  rewrite (proj2 (Z.ltb_lt _ _)); [reflexivity|]. unfold int_part. rewrite <- (proj1 (fp_value_signed r Ur)), V. apply Z.div_lt_upper_bound; lia.
Qed.

End ByValue.

Lemma le_zero_denotes (F : FpFormat) r v : denotes r v -> __leXf2__ r 0 = order_sign v 0.
Proof.
  intros (Ur & Fr & V). pose proof exponentBits_bounds. assert (U0 : is_uint typeWidth 0) by (split; [lia|apply pow2_pos; lia]).
  rewrite (proj1 (le_spec r 0 Ur U0)), V. pose proof infRep_bounds as I.
  assert (A0 : fp_abs 0 = 0) by apply Zmod_0_l.
  assert (V0 : fp_value 0 = 0) by (unfold fp_value; rewrite A0; pose proof fpval_zero; destruct (fp_neg 0); lia).
  unfold is_nan, is_finite in *. apply Z.ltb_lt in Fr. rewrite A0, V0, (proj2 (Z.ltb_ge infRep (fp_abs r))), (proj2 (Z.ltb_ge infRep 0)) by lia. reflexivity.
Qed.

(** A representable number as a significand and an exponent. *)
Lemma denotes_parts r v : @denotes double_precision r v -> 0 <= v ->
  exists q k, 0 <= q < 2 ^ 53 /\ 0 <= k /\ v = q * 2 ^ k /\ v < @fpval double_precision (@infRep double_precision).
Proof.
  intros D Hv. destruct (denotes_representable r v D) as (x & Hx & E). rewrite Z.abs_eq in E by lia.
  destruct (@parts_of double_precision x ltac:(lia)) as (e & q & -> & He & Hq & Hn).
  rewrite (@fpval_parts double_precision e q) in E by lia. exists q, (e - 1).
  split; [exact Hq|]. split; [lia|]. split; [now symmetry|].
  rewrite <- E, <- (@fpval_parts double_precision e q) by lia. apply fpval_lt; lia.
Qed.

(** The quotient by [0x1p32] is exact from 1 on, and below 1 stays below. *)
Lemma quotient_denotes a v : @denotes double_precision a v -> 0 < v ->
  exists w, @denotes double_precision (__divdf3 a twop32) w /\ 0 <= w <= v /\ w / U = v / (2 ^ 32 * U).
Proof.
  intros D Hv. destruct (denotes_parts a v D ltac:(lia)) as (q & k & Hq & Hk & E & Hi). pose proof (@unit_pos double_precision) as HU.
  destruct twop32_dbl as (U2 & F2 & V2). pose proof D as (Ua & Fa & Va).
  destruct (Z.lt_ge_cases v U) as [L|L].
  - destruct (@div_finite_spec double_precision double_ops double_recip double_wide a twop32 Ua U2 Fa F2 ltac:(vm_compute; congruence)) as (r & R & Er).
    rewrite Va, V2, (Z.abs_eq v), (Z.abs_eq (2 ^ 32 * U)) in R by lia.
    assert (Lr : r <= 991 * 2 ^ 52).
    { apply (rounds_to_le (v * U) (2 ^ 32 * U) r _ ltac:(lia) R); [lia|].
      replace (2 ^ 32 * U * fpval (991 * 2 ^ 52)) with (U * U) by (vm_compute; reflexivity). nia. }
    assert (Vr : @fpval double_precision r <= 2 ^ 1042).
    { change (2 ^ 1042) with (@fpval double_precision (991 * 2 ^ 52)). apply fpval_mono; [apply R|exact Lr]. }
    exists (@fpval double_precision r). pose proof (@fpval_step double_precision r ltac:(apply R)) as N0.
    assert (Lv : @fpval double_precision r <= v).
    { destruct (denotes_representable a v D) as (x & Hx & Ex). rewrite Z.abs_eq in Ex by lia. rewrite <- Ex. apply fpval_mono; [apply R|].
      apply (rounds_to_le (v * U) (2 ^ 32 * U) r _ ltac:(lia) R); [lia|]. rewrite Ex. nia. }
    split; [|split; [lia|]].
    + unfold __divdf3. rewrite Er. apply denotes_with_sign; [split; [apply R|]; apply Z.le_lt_trans with (1 := Lr); reflexivity|lia|].
      intros _. assert (0 < v * (2 ^ 32 * U)) by (apply Z.mul_pos_pos; lia).
      rewrite (product_sign_value a twop32 v (2 ^ 32 * U) D twop32_dbl) by lia. transitivity false; [|symmetry]; apply Z.ltb_ge; lia.
    + rewrite !Z.div_small; [reflexivity|lia|]. split; [lia|]. apply Z.le_lt_trans with (1 := Vr). reflexivity.
  - assert (Hk32 : 32 <= k).
    { apply Z.nlt_ge. intros G. assert (2 ^ k <= 2 ^ 31) by (apply Z.pow_le_mono_r; lia).
      assert (v < 2 ^ 53 * 2 ^ 31) by nia. assert (2 ^ 53 * 2 ^ 31 < U) by reflexivity. lia. }
    assert (E' : v = q * 2 ^ (k - 32) * 2 ^ 32) by (rewrite <- Z.mul_assoc, <- Z.pow_add_r by lia; rewrite E; do 2 f_equal; lia).
    set (w := q * 2 ^ (k - 32)) in *. assert (0 <= w) by lia. exists w. split; [|split; [lia|]].
    + apply (@div_exact double_precision double_ops double_wide double_recip a twop32 v (2 ^ 32 * U) w D twop32_dbl); [lia|rewrite E'; ring|].
      apply (@representable_parts double_precision w q (k - 32)); [lia|split; [lia|apply Z.lt_le_incl, Hq]|rewrite Z.abs_eq by lia; reflexivity|lia].
    + rewrite E', (Z.mul_comm (2 ^ 32) U). symmetry. apply Z.div_mul_cancel_r; lia.
Qed.

(** What is left after taking out the high word is exact too. *)
Lemma remainder_denotes a v r h : @denotes double_precision a v -> 0 < v -> h = v / (2 ^ 32 * U) -> dbl r (h * 2 ^ 32) ->
  @denotes double_precision (__subdf3 a r) (v mod (2 ^ 32 * U)).
Proof.
  intros D Hv -> Dr. destruct (denotes_parts a v D ltac:(lia)) as (q & k & Hq & Hk & E & Hi). pose proof (@unit_pos double_precision) as HU.
  replace (v mod (2 ^ 32 * U)) with (v - v / (2 ^ 32 * U) * 2 ^ 32 * U) by (rewrite Z.mod_eq by lia; ring).
  apply sub_exact; [exact D|exact Dr|].
  replace (v - v / (2 ^ 32 * U) * 2 ^ 32 * U) with (v mod (2 ^ 32 * U)) by (rewrite Z.mod_eq by lia; ring).
  pose proof (Z.mod_pos_bound v (2 ^ 32 * U) ltac:(lia)) as M. pose proof (Z.mod_le v (2 ^ 32 * U) ltac:(lia) ltac:(lia)) as Ml.
  destruct (Z.lt_ge_cases k 1106) as [L|L].
  - assert (P : 2 ^ 32 * U = 2 ^ (1106 - k) * 2 ^ k) by (rewrite U_val, <- !Z.pow_add_r by lia; f_equal; lia).
    assert (0 < 2 ^ (1106 - k)) by (apply pow2_pos; lia). assert (0 < 2 ^ k) by (apply pow2_pos; lia).
    assert (V : v mod (2 ^ 32 * U) = q mod 2 ^ (1106 - k) * 2 ^ k) by (rewrite P, E; apply Z.mul_mod_distr_r; lia).
    pose proof (Z.mod_le q (2 ^ (1106 - k)) ltac:(lia) ltac:(lia)). pose proof (Z.mod_pos_bound q (2 ^ (1106 - k)) ltac:(lia)).
    apply (@representable_parts double_precision _ (q mod 2 ^ (1106 - k)) k);
      [lia|change (2 * 2 ^ @significandBits double_precision) with (2 ^ 53); lia|rewrite Z.abs_eq by lia; exact V|lia].
  - assert (V : v mod (2 ^ 32 * U) = 0).
    { replace v with (q * 2 ^ (k - 1106) * (2 ^ 32 * U)); [apply Z.mod_mul; lia|].
      rewrite E, U_val, <- Z.mul_assoc, <- !Z.pow_add_r by lia. do 2 f_equal. lia. }
    rewrite V. apply representable_zero.
Qed.

(** The two words together. *)
Lemma words_truncate a v : @denotes double_precision a v -> 0 < v < 2 ^ 64 * U ->
  let high := __fixunsdfsi (__divdf3 a twop32) in
  let low := __fixunsdfsi (__subdf3 a (__muldf3 (__floatunsidf high) twop32)) in
  (high <<[64] 32) .| low = v / U.
Proof.
  intros D Hv. pose proof (@unit_pos double_precision) as HU. destruct (quotient_denotes a v D ltac:(lia)) as (w & Dw & Hw & E).
  pose proof (Z.div_pos v (2 ^ 32 * U) ltac:(lia) ltac:(lia)) as H0.
  assert (H1 : v / (2 ^ 32 * U) < 2 ^ 32) by (apply Z.div_lt_upper_bound; lia).
  assert (Lw : w < 2 ^ 32 * U).
  { pose proof (Z.div_mod w U ltac:(lia)) as Dm. pose proof (Z.mod_pos_bound w U HU). nia. }
  cbv zeta. unfold __fixunsdfsi. rewrite (fixuns_denotes double_precision 32 ltac:(apply bias_double) ltac:(apply bias_double) _ w Dw ltac:(lia)), E.
  rewrite (proj2 (Z.ltb_ge w 0)) by lia.
  set (h := v / (2 ^ 32 * U)) in *.
  assert (Dh : dbl (__muldf3 (__floatunsidf h) twop32) (h * 2 ^ 32)).
  { apply dbl_mul; [|exact twop32_dbl|apply fits53_mul; lia]. apply converts_dbl; [|apply fits53_small; lia].
    apply unsigned_shift_converts. unfold is_uint. lia. }
  pose proof (remainder_denotes a v _ h D ltac:(lia) eq_refl Dh) as Dr. pose proof (Z.mod_pos_bound v (2 ^ 32 * U) ltac:(lia)) as M.
  rewrite (fixuns_denotes double_precision 32 ltac:(apply bias_double) ltac:(apply bias_double) _ _ Dr (proj2 M)).
  rewrite (proj2 (Z.ltb_ge _ 0)) by lia.
  pose proof (Z.div_pos (v mod (2 ^ 32 * U)) U ltac:(lia) HU) as L0.
  assert (L1 : v mod (2 ^ 32 * U) / U < 2 ^ 32) by (apply Z.div_lt_upper_bound; lia).
  rewrite ushl_spec, uint_small by (unfold is_uint; lia). rewrite lor_add_disjoint by lia.
  rewrite (Z.div_mod v (2 ^ 32 * U)) at 2 by lia. fold h. rewrite <- (Z.div_add_l (h * 2 ^ 32)) by lia. f_equal. ring.
Qed.

Lemma fixunsdfdi_hw_spec a v : @denotes double_precision a v -> v < 2 ^ 64 * U ->
  __fixunsdfdi_hw a = if v <? 0 then 0 else v / U.
Proof.
  intros D Hv. unfold __fixunsdfdi_hw, __ledf2. rewrite (le_zero_denotes double_precision a v D). unfold order_sign.
  destruct (Z.compare_spec v 0) as [->|L|L]; [reflexivity|now rewrite (proj2 (Z.ltb_lt _ _) L)|].
  rewrite (proj2 (Z.ltb_ge v 0)) by lia. apply words_truncate; auto.
Qed.

(** Widening a [float] changes the unit and not the value. *)
Lemma extend_denotes a v : @denotes single_precision a v -> @denotes double_precision (__extendsfdf2 a) (v * 2 ^ 925) /\ U = 2 ^ @unitExp single_precision * 2 ^ 925.
Proof.
  intros (Ua & Fa & <-). split; [|reflexivity]. destruct (extend_spec single_precision double_precision a Ua) as (r & E & Hr & Fin & _).
  destruct (Fin Fa) as [Lr V]. destruct (@fp_value_signed single_precision a Ua) as (A & Na & Pa).
  change (unit_gap double_precision single_precision) with 925 in V. assert (0 < 2 ^ 925) by reflexivity. unfold __extendsfdf2. rewrite E.
  apply denotes_with_sign; [lia|rewrite V, Z.abs_mul, A, (Z.abs_eq (2 ^ 925)); lia|]. intros Nz.
  destruct (@fp_neg single_precision a); symmetry; [apply Z.ltb_lt; specialize (Na eq_refl)|apply Z.ltb_ge; specialize (Pa eq_refl)]; nia.
Qed.

Lemma fixunssfdi_hw_spec a v : @denotes single_precision a v -> v < 2 ^ 64 * 2 ^ @unitExp single_precision ->
  __fixunssfdi_hw a = if v <? 0 then 0 else v / 2 ^ @unitExp single_precision.
Proof.
  intros D Hv. unfold __fixunssfdi_hw, __lesf2. rewrite (le_zero_denotes single_precision a v D). unfold order_sign.
  destruct (Z.compare_spec v 0) as [->|L|L]; [reflexivity|now rewrite (proj2 (Z.ltb_lt _ _) L)|].
  rewrite (proj2 (Z.ltb_ge v 0)) by lia. destruct (extend_denotes a v D) as [Dd EU]. assert (P : 0 < 2 ^ 925) by reflexivity.
  pose proof (@unit_pos single_precision).
  etransitivity; [apply (words_truncate _ _ Dd); rewrite EU; nia|]. rewrite EU. apply Z.div_mul_cancel_r; lia.
Qed.

(** The sign handling the two signed routines share. *)
Lemma signed_words u v : 0 < u -> - 2 ^ 63 <= Z.quot v u < 2 ^ 63 ->
  (if (match v ?= 0 with Lt => -1 | Eq => 0 | Gt => 1 end) <? 0 then sint 64 (uopp 64 (if - v <? 0 then 0 else - v / u))
   else sint 64 (if v <? 0 then 0 else v / u)) = sint 64 (Z.quot v u).
Proof.
  intros Hu Hq. destruct (Z.compare_spec v 0) as [->|L|L]; change (-1 <? 0) with true; change (0 <? 0) with false; change (1 <? 0) with false; cbn [Z.ltb].
  - now rewrite Z.quot_0_l, Z.div_0_l by lia.
  - rewrite (proj2 (Z.ltb_ge (- v) 0)) by lia. apply eqm_sint. unfold uopp. rewrite uint_eqm.
    rewrite <- Z.quot_div_nonneg by lia. now rewrite Z.quot_opp_l, Z.opp_involutive by lia.
  - rewrite (proj2 (Z.ltb_ge v 0)) by lia. now rewrite Z.quot_div_nonneg by lia.
Qed.

Lemma quot_range u v n : 0 < u -> 0 < n -> Z.quot v u < n -> v < n * u.
Proof.
  intros Hu Hn L. destruct (Z.lt_ge_cases v 0); [nia|]. rewrite Z.quot_div_nonneg in L by lia.
  pose proof (Z.div_mod v u ltac:(lia)). pose proof (Z.mod_pos_bound v u Hu). nia.
Qed.

(** What a hardware body of the signed conversion needs of the unsigned one. *)
Lemma signed_agrees (F : FpFormat) (fixuns : Z -> Z) a : 32 <= typeWidth -> 1 < 64 <= exponentBias + 1 ->
  (forall b w, denotes b w -> w < 2 ^ 64 * 2 ^ unitExp -> fixuns b = if w <? 0 then 0 else w / 2 ^ unitExp) ->
  is_uint typeWidth a -> is_finite a = true -> - 2 ^ 63 <= fp_trunc a < 2 ^ 63 ->
  (if __leXf2__ a 0 <? 0 then sint 64 (uopp 64 (fixuns (negXf2 a))) else sint 64 (fixuns a)) = __fixint 64 a.
Proof.
  intros Hw HN HF Ua Fa T. pose proof unit_pos as HU. unfold fp_trunc in T. set (v := fp_value a) in *.
  assert (D : denotes a v) by (repeat split; assumption || apply Ua).
  assert (L1 : v < 2 ^ 64 * 2 ^ unitExp) by (apply quot_range; lia).
  assert (L2 : - v < 2 ^ 64 * 2 ^ unitExp) by (apply quot_range; rewrite ?Z.quot_opp_l by lia; lia).
  rewrite (le_zero_denotes F a v D), (HF _ _ (neg_denotes a v D) L2), (HF _ _ D L1), (fixint_denotes F 64 Hw HN a v D) by lia.
  now apply signed_words.
Qed.

(** C18: The two bodies of the four conversions to 64-bit integers agree on every
    number whose truncation fits the result type; through the division by
    [0x1p32], the subtraction of the high word and the two narrow conversions
    nothing is lost, for subnormal arguments included. *)
Theorem fix_bodies_agree a :
  (is_uint 64 a -> @is_finite double_precision a = true ->
     (@fp_trunc double_precision a < 2 ^ 64 -> __fixunsdfdi_hw a = __fixunsdfdi a) /\
     (- 2 ^ 63 <= @fp_trunc double_precision a < 2 ^ 63 -> __fixdfdi_hw a = __fixdfdi a)) /\
  (is_uint 32 a -> @is_finite single_precision a = true ->
     (@fp_trunc single_precision a < 2 ^ 64 -> __fixunssfdi_hw a = __fixunssfdi a) /\
     (- 2 ^ 63 <= @fp_trunc single_precision a < 2 ^ 63 -> __fixsfdi_hw a = __fixsfdi a)).
Proof.
  split; intros Ua Fa; split; intros T.
  - assert (L := quot_range _ _ (2 ^ 64) (@unit_pos double_precision) eq_refl T).
    assert (D : @denotes double_precision a (@fp_value double_precision a)) by (repeat split; assumption || apply Ua).
    rewrite (fixunsdfdi_hw_spec a _ D L). symmetry. now apply (fixuns_denotes double_precision 64); try apply bias_double.
  - apply (signed_agrees double_precision __fixunsdfdi_hw a); try assumption; try apply bias_double. exact fixunsdfdi_hw_spec.
  - assert (L := quot_range _ _ (2 ^ 64) (@unit_pos single_precision) eq_refl T).
    assert (D : @denotes single_precision a (@fp_value single_precision a)) by (repeat split; assumption || apply Ua).
    rewrite (fixunssfdi_hw_spec a _ D L). symmetry. now apply (fixuns_denotes single_precision 64); try apply bias_single.
  - apply (signed_agrees single_precision __fixunssfdi_hw a); try assumption; try apply bias_single. exact fixunssfdi_hw_spec.
Qed.

Lemma fix_bodies_agree_witness :
  __fixdfdi_hw 0xc3dfffffffffffff = __fixdfdi 0xc3dfffffffffffff /\ __fixsfdi_hw 0x00000001 = __fixsfdi 0x00000001.
Proof.
  split.
  - destruct (fix_bodies_agree 0xc3dfffffffffffff) as [D _].
    apply D; [split; vm_compute; congruence|reflexivity|split; vm_compute; congruence].
  - destruct (fix_bodies_agree 0x00000001) as [_ S].
    apply S; [split; vm_compute; congruence|reflexivity|split; vm_compute; congruence].
Defined.

Lemma float_bodies_agree_witness : is_sint 64 (- 2 ^ 63 + 1) /\ __floatdidf_hw (- 2 ^ 63 + 1) = __floatdidf (- 2 ^ 63 + 1).
Proof.
  assert (R : is_sint 64 (- 2 ^ 63 + 1)) by (split; vm_compute; congruence). split; [exact R|].
  exact (proj1 (float_bodies_agree (- 2 ^ 63 + 1)) R).
Defined.
