(* ===== verification/Mingw.v ===== *)
(** * Conversion names of Windows on ARM

    Models [mingw_fixfloat.c], which gives the 64-bit conversions the names
    that this platform calls them by.  What its callers rely on is proved of
    the compositions: an integer that the format has survives the conversion
    to it and back. *)

From S2P Require Import Prelude IntBits FpLib FpSpec FpInt FpExact HardFloat.

Definition __dtoi64 (a : Z) : Z := __fixdfdi a.
Definition __stoi64 (a : Z) : Z := __fixsfdi a.
Definition __dtou64 (a : Z) : Z := __fixunsdfdi a.
Definition __stou64 (a : Z) : Z := __fixunssfdi a.
Definition __i64tod (a : Z) : Z := __floatdidf a.
Definition __i64tos (a : Z) : Z := __floatdisf a.
Definition __u64tod (a : Z) : Z := __floatundidf a.
Definition __u64tos (a : Z) : Z := __floatundisf a.

(** An integer of the format: a significand with the leading bit, at most,
    times a power of two. *)
Definition int_of_format {F : FpFormat} (a : Z) : Prop :=
  exists q k, 0 <= k /\ 0 <= q <= 2 * 2 ^ significandBits /\ Z.abs a = q * 2 ^ k.

Section Format.
Context (F : FpFormat) (Hw : 32 <= typeWidth) (HN : 1 < 64 <= exponentBias + 1) (Hu : 0 <= unitExp)
  (Room : 2 ^ 64 * 2 ^ unitExp < fpval infRep).

Lemma int_of_format_representable a : Z.abs a <= 2 ^ 64 -> int_of_format a -> representable (a * 2 ^ unitExp).
Proof.
  intros B (q & k & Hk & Hq & E). pose proof unit_pos as HU.
  assert (V : Z.abs (a * 2 ^ unitExp) = Z.abs a * 2 ^ unitExp) by (rewrite Z.abs_mul, (Z.abs_eq (2 ^ unitExp)) by lia; reflexivity).
  apply (representable_parts _ q (k + unitExp)); [lia|exact Hq| |rewrite V; nia].
  rewrite V, E, Z.pow_add_r, Z.mul_assoc by lia. reflexivity.
Qed.

Lemma signed_survives a r : is_sint 64 a -> int_of_format a -> converts a r -> __fixint 64 r = a.
Proof.
  intros R I C. unfold is_sint in R. pose proof unit_pos as HU.
  pose proof (converts_denotes F a r C (int_of_format_representable a ltac:(lia) I)) as D.
  rewrite (fixint_denotes F 64 Hw HN r _ D) by (rewrite Z.abs_mul, (Z.abs_eq (2 ^ unitExp)) by lia; nia).
  rewrite Z.quot_mul by lia. apply sint_small; unfold is_sint; lia.
Qed.

Lemma unsigned_survives a r : is_uint 64 a -> int_of_format a -> converts a r -> __fixuint 64 r = a.
Proof.
  intros R I C. unfold is_uint in R. pose proof unit_pos as HU.
  pose proof (converts_denotes F a r C (int_of_format_representable a ltac:(lia) I)) as D.
  rewrite (fixuns_denotes F 64 Hw HN r _ D) by nia.
  rewrite (proj2 (Z.ltb_ge _ 0)), Z.div_mul by nia. reflexivity.
Qed.
End Format.

(** Integers of at most 53 significant bits survive the way through double,
    those of at most 24 the way through float. *)
Theorem int_survives_float a :
  (@int_of_format double_precision a ->
     (is_sint 64 a -> __dtoi64 (__i64tod a) = a) /\ (is_uint 64 a -> __dtou64 (__u64tod a) = a)) /\
  (@int_of_format single_precision a ->
     (is_sint 64 a -> __stoi64 (__i64tos a) = a) /\ (is_uint 64 a -> __stou64 (__u64tos a) = a)).
Proof.
  assert (C64 : forall m, 0 < m < 2 ^ 64 -> clz64 m = clz 64 m) by reflexivity.
  assert (P1 : 0 <= @unitExp double_precision /\ 0 <= @unitExp single_precision) by (split; vm_compute; congruence).
  assert (P2 : 2 ^ 64 * 2 ^ @unitExp double_precision < @fpval double_precision (@infRep double_precision)) by reflexivity.
  assert (P3 : 2 ^ 64 * 2 ^ @unitExp single_precision < @fpval single_precision (@infRep single_precision)) by reflexivity.
  split; intros I; split; intros R.
  - apply (signed_survives double_precision); try apply bias_double; try apply P1; auto. exact (float_df_spec true 64 clz64 C64 a ltac:(lia) R).
  - apply (unsigned_survives double_precision); try apply bias_double; try apply P1; auto. exact (float_df_spec false 64 clz64 C64 a ltac:(lia) R).
  - apply (signed_survives single_precision); try apply bias_single; try apply P1; auto. exact (float_sf_spec true 64 clz64 C64 a ltac:(lia) R).
  - apply (unsigned_survives single_precision); try apply bias_single; try apply P1; auto. exact (float_sf_spec false 64 clz64 C64 a ltac:(lia) R).
Qed.

Lemma int_survives_float_witness : __dtoi64 (__i64tod (- 2 ^ 53 + 1)) = - 2 ^ 53 + 1 /\ __stou64 (__u64tos (2 ^ 63)) = 2 ^ 63.
Proof.
  split.
  - apply (int_survives_float (- 2 ^ 53 + 1)); [|split; vm_compute; congruence].
    exists (2 ^ 53 - 1), 0. split; [lia|]. split; [split; vm_compute; congruence|reflexivity].
  - apply (int_survives_float (2 ^ 63)); [|split; vm_compute; congruence].
    exists 1, 63. split; [lia|]. split; [split; vm_compute; congruence|reflexivity].
Defined.
