(* ===== verification/DoubleDouble.v ===== *)
(** * PowerPC long double: pairs of doubles

    Models [ppc/DD.h] and the conversions of the double-double format with
    64-bit integers ([ppc/floatditf.c], [ppc/floatunditf.c], [ppc/fixtfdi.c],
    [ppc/fixunstfdi.c]).  A long double is the unevaluated sum of two doubles,
    [hi] being the sum rounded.  The [double] operators are the routines of
    this library.  A shift by a variable count is the [srad] instruction: C
    leaves a count outside [[0, 63]] undefined, the instruction takes seven
    bits of it and fills with the sign from 64 on. *)

From S2P Require Import Prelude IntBits FpLib FpSpec FpAdd FpMul FpCompare FpConv FpInt FpDiv FpExact HardFloat.

(** ** The format *)

Record DD : Type := { hi : Z; lo : Z }.

Definition local_fabs (x : Z) : Z := x .& 0x7fffffffffffffff.
Definition high26bits (x : Z) : Z := x .& 0xfffffffff8000000.

Definition srad (x n : Z) : Z := shr 128 x n.

(** ** Conversions *)

Definition __floatditf_dd (a : Z) : DD :=
  let low := twop52 .| (a .& 0x00000000ffffffff) in
  let high_addend := __subdf3 (__muldf3 (__floatsidf (sint 32 (a >>[64] 32))) twop32) twop52 in
  let result_hi := __adddf3 high_addend low in
  {| hi := result_hi; lo := __adddf3 (__subdf3 high_addend result_hi) low |}.

Definition __floatunditf_dd (a : Z) : DD :=
  let high := twop84 .| (a >>[64] 32) in
  let low := twop52 .| (a .& 0x00000000ffffffff) in
  let high_addend := __subdf3 high twop84_plus_twop52 in
  let result_hi := __adddf3 high_addend low in
  {| hi := result_hi; lo := __adddf3 (__subdf3 high_addend result_hi) low |}.

(** The part of [__fixtfdi] that patches the tail into the aligned head. *)
Definition fixtfdi_tail (lobits hiNegationMask unbiasedHeadExponent : Z) : Z :=
  let tailMantissa := lobits .& 0x000fffffffffffff in
  let tailMantissa := tailMantissa .| 0x0010000000000000 in
  let loNegationMask := sint 64 lobits >>[64] 63 in
  let negationMask := loNegationMask .^ hiNegationMask in
  let tailMantissa := ssub 64 (tailMantissa .^ negationMask) negationMask in
  let biasedTailExponent := sint 32 (lobits >>[64] 52) .& 0x7ff in
  srad tailMantissa (unbiasedHeadExponent - (biasedTailExponent - (1023 - 10))).

(** [INT64_MIN] and a positive tail. *)
Definition fixtfdi_min (lobits : Z) : Z :=
  let tailMantissa := lobits .& 0x000fffffffffffff in
  let tailMantissa := tailMantissa .| 0x0010000000000000 in
  let tailMantissa := sadd 64 (tailMantissa .^ -1) 1 in
  let biasedTailExponent := sint 32 (lobits >>[64] 52) .& 0x7ff in
  let tailMantissa := srad tailMantissa (1075 - biasedTailExponent) in
  ssub 64 (- 2 ^ 63) tailMantissa.

Definition one_df : Z := 0x3ff0000000000000.
Definition minus_twop63 : Z := 0xc3e0000000000000.

Definition __fixtfdi_dd (x : DD) : Z :=
  let hibits := hi x in
  let absHighWord := uint 32 (hibits >>[64] 32) .& 0x7fffffff in
  let absHighWordMinusOne := absHighWord -[32] 0x3ff00000 in
  if 0x03f00000 >? absHighWordMinusOne then
    let unbiasedHeadExponent := absHighWordMinusOne >>[32] 20 in
    let result := hibits .& 0x000fffffffffffff in
    let result := result .| 0x0010000000000000 in
    let result := sshl 64 result 10 in
    let hiNegationMask := sint 64 hibits >>[64] 63 in
    let result :=
      if negb (__nedf2 0 (lo x) =? 0)
      then sadd 64 result (fixtfdi_tail (lo x) hiNegationMask unbiasedHeadExponent) else result in
    let result := result >>[64] (62 - unbiasedHeadExponent) in
    let result := ssub 64 (result .^ hiNegationMask) hiNegationMask in
    uint 64 result
  else if 0 <? __gtdf2 one_df (local_fabs (hi x)) then 0
  else if __eqdf2 (hi x) minus_twop63 =? 0 then
    uint 64 (if __ltdf2 0 (lo x) <? 0 then fixtfdi_min (lo x) else - 2 ^ 63)
  else if 0 <? __gtdf2 (hi x) 0 then uint 64 (2 ^ 63 - 1) else uint 64 (- 2 ^ 63).

Definition fixunstfdi_tail (lobits unbiasedHeadExponent : Z) : Z :=
  let tailMantissa := lobits .& 0x000fffffffffffff in
  let tailMantissa := tailMantissa .| 0x0010000000000000 in
  let negationMask := sint 64 lobits >>[64] 63 in
  let tailMantissa := ssub 64 (tailMantissa .^ negationMask) negationMask in
  let biasedTailExponent := sint 32 (lobits >>[64] 52) .& 0x7ff in
  srad tailMantissa (unbiasedHeadExponent - (biasedTailExponent - (1023 - 11))).

Definition __fixunstfdi_dd (x : DD) : Z :=
  let hibits := hi x in
  let highWordMinusOne := uint 32 (hibits >>[64] 32) -[32] 0x3ff00000 in
  if 0x04000000 >? highWordMinusOne then
    let unbiasedHeadExponent := highWordMinusOne >>[32] 20 in
    let result := hibits .& 0x000fffffffffffff in
    let result := result .| 0x0010000000000000 in
    let result := result <<[64] 11 in
    let result :=
      if negb (__nedf2 0 (lo x) =? 0)
      then result +[64] (fixunstfdi_tail (lo x) unbiasedHeadExponent) else result in
    result >>[64] (63 - unbiasedHeadExponent)
  else if 0 <? __gtdf2 one_df (hi x) then 0
  else 2 ^ 64 - 1.

(** ** Integers to pairs *)

(** A double nearest to an integer of at most 64 bits is an integer near it. *)
Lemma converts_near a r : @converts double_precision a r -> Z.abs a < 2 ^ 64 ->
  exists n, dbl r n /\ fits53 n /\ Z.abs (n - a) <= 2 ^ 11.
Proof.
  intros C La. destruct (Z.le_gt_cases (Z.abs a) (2 ^ 53)) as [S|S].
  { exists a. assert (F : fits53 a) by now apply fits53_small. split; [now apply converts_dbl|]. split; [exact F|]. rewrite Z.sub_diag. vm_compute. congruence. }
  destruct C as (Ur & Sr & R). pose proof (@unit_pos double_precision) as HU. set (x := @fp_abs double_precision r) in *.
  set (q := Z.abs a / 2 ^ 11). pose proof (Z.div_mod (Z.abs a) (2 ^ 11) ltac:(lia)) as Dm. pose proof (Z.mod_pos_bound (Z.abs a) (2 ^ 11) ltac:(lia)) as Mb. fold q in Dm.
  destruct (fits53_representable (q * 2 ^ 11)) as (t1 & H1 & V1); [apply fits53_mul; lia|].
  destruct (fits53_representable ((q + 1) * 2 ^ 11)) as (t2 & H2 & V2); [apply fits53_mul; lia|].
  destruct (fits53_representable (2 ^ 53)) as (t0 & H0 & V0); [apply fits53_small; lia|].
  rewrite Z.abs_eq in V0, V1, V2 by nia.
  assert (L1 : t1 <= x) by (apply (rounds_to_ge _ 1 x t1 ltac:(lia) R); [lia|rewrite V1; nia]).
  assert (L2 : x <= t2) by (apply (rounds_to_le _ 1 x t2 ltac:(lia) R); [lia|rewrite V2; nia]).
  assert (L0 : t0 <= x) by (apply (rounds_to_ge _ 1 x t0 ltac:(lia) R); [lia|rewrite V0; nia]).
  pose proof (@fpval_mono double_precision t1 x ltac:(lia) L1) as G1. pose proof (@fpval_mono double_precision x t2 ltac:(lia) L2) as G2.
  pose proof (@fpval_mono double_precision t0 x ltac:(lia) L0) as G0. rewrite V1 in G1. rewrite V2 in G2. rewrite V0 in G0.
  destruct (@parts_of double_precision x ltac:(lia)) as (e & m & Ex & He & Hm & Hn). change (@significandBits double_precision) with 52 in *.
  assert (Vx : @fpval double_precision x = m * 2 ^ (e - 1)).
  { rewrite Ex. apply (@fpval_parts double_precision e m); [lia|change (@significandBits double_precision) with 52; lia..]. }
  assert (He' : 1074 <= e - 1).
  { apply Z.nlt_ge. intros L. assert (2 ^ (e - 1) <= 2 ^ 1073) by (apply Z.pow_le_mono_r; lia).
    assert (m * 2 ^ (e - 1) < 2 ^ 53 * 2 ^ 1073) by nia. rewrite U_val in G0. lia. }
  assert (Vn : @fpval double_precision x = m * 2 ^ (e - 1 - 1074) * U) by (rewrite Vx, U_val, <- Z.mul_assoc, <- Z.pow_add_r by lia; do 2 f_equal; lia).
  set (n := m * 2 ^ (e - 1 - 1074)) in *. assert (Bn : q * 2 ^ 11 <= n <= (q + 1) * 2 ^ 11) by (rewrite Vn in G1, G2; nia).
  assert (Fn : fits53 n).
  { exists m, (e - 1 - 1074). split; [|split; [lia|apply Z.abs_eq; unfold n; lia]]. split; [lia|]. apply Z.le_ngt. intros G.
    assert (2 ^ 900 <= 2 ^ (e - 1 - 1074)) by (apply Z.pow_le_mono_r; lia). assert (2 ^ 900 <= n) by (unfold n; nia). lia. }
  assert (Dn : dbl r (if a <? 0 then - n else n)).
  { destruct (rep_parts r Ur) as (-> & _). rewrite Sr. fold x. apply denotes_with_sign; [lia|rewrite Vn|].
    - rewrite Z.abs_mul, (Z.abs_eq U) by lia. destruct (a <? 0); lia.
    - intros _. apply Bool.eq_iff_eq_true. rewrite !Z.ltb_lt. destruct (Z.ltb_spec a 0); nia. }
  exists (if a <? 0 then - n else n). split; [exact Dn|]. split.
  - destruct (a <? 0); [|exact Fn]. destruct Fn as (q' & k & F). exists q', k. now rewrite Z.abs_opp.
  - destruct (Z.ltb_spec a 0); lia.
Qed.

(** What a pair is worth when both parts are integers, and the invariant of the
    format: the first part is the sum rounded to nearest. *)
Definition dd_int (x : DD) (a : Z) : Prop :=
  exists n l, dbl (hi x) n /\ dbl (lo x) l /\ fits53 n /\ Z.abs l <= 2 ^ 11 /\ n + l = a /\ @converts double_precision a (hi x).

(** The fast two-term sum of an addend and [0x1.0p52] plus a word: the part
    that rounding loses is computed exactly. *)
Lemma two_sum_int a h l s : Z.abs a < 2 ^ 64 -> dbl h (a - (2 ^ 52 + a mod 2 ^ 32)) -> dbl l (2 ^ 52 + a mod 2 ^ 32) -> s = __adddf3 h l ->
  dd_int {| hi := s; lo := __adddf3 (__subdf3 h s) l |} a.
Proof.
  intros La Dh Dl E. pose proof (halves_convert a h l s Dh Dl E) as C. destruct (converts_near a s C La) as (n & Dn & Fn & Bn).
  pose proof (Z.mod_pos_bound a (2 ^ 32) ltac:(lia)) as M.
  exists n, (a - n). split; [exact Dn|]. split; [|split; [exact Fn|split; [lia|split; [lia|exact C]]]]. cbn [lo].
  replace (a - n) with (a - (2 ^ 52 + a mod 2 ^ 32) - n + (2 ^ 52 + a mod 2 ^ 32)) by lia.
  apply dbl_add; [|exact Dl|apply fits53_small; lia]. apply dbl_sub; [exact Dh|exact Dn|apply fits53_small; lia].
Qed.

Lemma floatditf_dd_spec a : is_sint 64 a -> dd_int (__floatditf_dd a) a.
Proof.
  intros R. unfold __floatditf_dd. cbv zeta. apply two_sum_int; [|now apply high_addend_dbl|apply low_dbl|reflexivity].
  unfold is_sint in R. lia.
Qed.

Lemma floatunditf_dd_spec a : is_uint 64 a -> dd_int (__floatunditf_dd a) a.
Proof.
  intros R. unfold __floatunditf_dd. cbv zeta. apply two_sum_int; [|now apply high_addend_udbl|apply low_dbl|reflexivity].
  unfold is_uint in R. lia.
Qed.

(** ** Pairs to integers: the fields *)

Notation exponent_of x := (@fp_abs double_precision x / 2 ^ 52).
Notation mantissa_of x := (2 ^ 52 + @fp_abs double_precision x mod 2 ^ 52).
Notation negative x := (@fp_neg double_precision x).

Lemma abs_mod b : @fp_abs double_precision b = b mod 2 ^ 63.
Proof. reflexivity. Qed.

Lemma head_word b : is_uint 64 b -> uint 32 (b >>[64] 32) = b / 2 ^ 32 /\ uint 32 (b >>[64] 32) .& 0x7fffffff = @fp_abs double_precision b / 2 ^ 32.
Proof.
  intros R. unfold is_uint in R. rewrite shr_spec, uint_small by (unfold is_uint; lia || (Z.div_mod_to_equations; lia)).
  split; [reflexivity|]. change 0x7fffffff with (Z.ones 31). rewrite Z.land_ones, abs_mod by lia. Z.div_mod_to_equations. lia.
Qed.

Lemma sign_mask b : is_uint 64 b -> sint 64 b >>[64] 63 = if negative b then -1 else 0.
Proof.
  intros R. rewrite shr_spec by lia. unfold fp_neg, is_uint in *. change (2 ^ (@typeWidth double_precision - 1)) with (2 ^ 63).
  unfold sint. change (2 ^ (64 - 1)) with (2 ^ 63). case_cmp; Z.div_mod_to_equations; lia.
Qed.

Lemma df_exponent_field b : is_uint 64 b -> sint 32 (b >>[64] 52) .& 0x7ff = exponent_of b /\ 0 <= exponent_of b <= 2047.
Proof.
  intros R. unfold is_uint in R. assert (B : 0 <= b / 2 ^ 52 < 4096) by (Z.div_mod_to_equations; lia).
  rewrite shr_spec, sint_small by (unfold is_sint; lia). change 0x7ff with (Z.ones 11). rewrite Z.land_ones, abs_mod by lia.
  change (2 ^ 63) with (2 ^ 52 * 2 ^ 11). rewrite Z.rem_mul_r by lia. pose proof (Z.mod_pos_bound b (2 ^ 52) ltac:(lia)).
  rewrite (Z.mul_comm (2 ^ 52) (_ mod _)), Z.div_add, (Z.div_small (b mod 2 ^ 52)) by lia.
  change (Z.ones 11) with 2047. split; [reflexivity|]. pose proof (Z.mod_pos_bound (b / 2 ^ 52) (2 ^ 11) ltac:(lia)). lia.
Qed.

Lemma mantissa_field b : is_uint 64 b -> (b .& 0x000fffffffffffff) .| 0x0010000000000000 = mantissa_of b /\ 2 ^ 52 <= mantissa_of b < 2 ^ 53.
Proof.
  intros R. pose proof (Z.mod_pos_bound (@fp_abs double_precision b) (2 ^ 52) ltac:(lia)) as M. split; [|lia].
  change 0x000fffffffffffff with (Z.ones 52). rewrite Z.land_ones by lia.
  replace (b mod 2 ^ 52) with (@fp_abs double_precision b mod 2 ^ 52) by (rewrite abs_mod; Z.div_mod_to_equations; lia).
  exact (@lor_implicit double_precision _ M).
Qed.

Lemma negate_by_mask (n : bool) t : Z.abs t < 2 ^ 63 -> ssub 64 (t .^ (if n then -1 else 0)) (if n then -1 else 0) = if n then - t else t.
Proof. intros H. destruct n; [rewrite lxor_m1|rewrite Z.lxor_0_r]; unfold ssub; rewrite sint_small by (unfold is_sint; lia); lia. Qed.

Lemma mask_xor (m n : bool) : (if m then -1 else 0) .^ (if n then -1 else 0) = if xorb m n then -1 else 0.
Proof. destruct m, n; reflexivity. Qed.

(** The range test on the high word selects the exponents it names. *)
Lemma exponent_test c w : 0 <= c -> c * 2 ^ 20 + 0x3ff00000 <= 2 ^ 32 -> 0 <= w < 2 ^ 32 ->
  let d := w -[32] 0x3ff00000 in
  (c * 2 ^ 20 >? d) = ((1023 <=? w / 2 ^ 20) && (w / 2 ^ 20 <? 1023 + c)) /\
  ((c * 2 ^ 20 >? d) = true -> d >>[32] 20 = w / 2 ^ 20 - 1023).
Proof.
  intros Hc Hb Hw d. rewrite Z.gtb_ltb. unfold d, usub, uint.
  assert (C : (w - 0x3ff00000) mod 2 ^ 32 = if w <? 0x3ff00000 then w - 0x3ff00000 + 2 ^ 32 else w - 0x3ff00000) by (case_cmp; Z.div_mod_to_equations; lia).
  rewrite C, shr_spec by lia. split.
  - apply Bool.eq_iff_eq_true. rewrite andb_true_iff, Z.leb_le, !Z.ltb_lt. case_cmp; Z.div_mod_to_equations; lia.
  - rewrite Z.ltb_lt. case_cmp; intros; Z.div_mod_to_equations; lia.
Qed.

(** ** Pairs to integers: the values *)

Lemma value_fields b v : @denotes double_precision b v -> 1 <= exponent_of b ->
  v = (if negative b then - (mantissa_of b * 2 ^ (exponent_of b - 1)) else mantissa_of b * 2 ^ (exponent_of b - 1)) /\ exponent_of b < 2047.
Proof.
  intros (Ub & Fb & <-) He. destruct (mantissa_field b Ub) as [_ M]. destruct (rep_parts b Ub) as (_ & A & _).
  assert (V : @fpval double_precision (@fp_abs double_precision b) = mantissa_of b * 2 ^ (exponent_of b - 1)).
  { transitivity (@fpval double_precision ((exponent_of b - 1) * 2 ^ 52 + mantissa_of b)); [f_equal; Z.div_mod_to_equations; lia|].
    apply (@fpval_parts double_precision); [exact He|change (@significandBits double_precision) with 52; lia..]. }
  split; [unfold fp_value; now rewrite V|]. unfold is_finite in Fb. apply Z.ltb_lt in Fb.
  change (@infRep double_precision) with (2047 * 2 ^ 52) in Fb. apply Z.div_lt_upper_bound; lia.
Qed.

Lemma below_one b v : @denotes double_precision b v -> exponent_of b < 1023 -> Z.abs v <= (2 ^ 53 - 1) * 2 ^ 1021.
Proof.
  intros (Ub & _ & <-) He. destruct (rep_parts b Ub) as (_ & A & _).
  rewrite (proj1 (fp_value_signed _ Ub)). change ((2 ^ 53 - 1) * 2 ^ 1021) with (@fpval double_precision (1023 * 2 ^ 52 - 1)).
  apply fpval_mono; [lia|]. pose proof (Z.div_mod (@fp_abs double_precision b) (2 ^ 52) ltac:(lia)).
  pose proof (Z.mod_pos_bound (@fp_abs double_precision b) (2 ^ 52) ltac:(lia)). lia.
Qed.

Lemma denotes_not_nan b v : @denotes double_precision b v -> @is_nan double_precision b = false.
Proof. intros (_ & F & _). unfold is_finite, is_nan in *. apply Z.ltb_lt in F. apply Z.ltb_ge. lia. Qed.

(** The comparisons of the source, on numbers. *)
Lemma compare_denotes a b x y : @denotes double_precision a x -> @denotes double_precision b y ->
  (__ltdf2 a b <? 0) = (x <? y) /\ (__eqdf2 a b =? 0) = (x =? y) /\ (__nedf2 a b =? 0) = (x =? y) /\ (0 <? __gtdf2 a b) = (y <? x).
Proof.
  intros Da Db. pose proof (denotes_not_nan a x Da) as Na. pose proof (denotes_not_nan b y Db) as Nb.
  destruct Da as (Ua & _ & <-). destruct Db as (Ub & _ & <-).
  destruct (@operators_spec double_precision a b Ua Ub) as (L & _ & E & G & _). rewrite Na, Nb in *. cbn [orb negb andb] in *. auto.
Qed.

Lemma zero_denotes : @denotes double_precision 0 0.
Proof. repeat split; vm_compute; congruence. Qed.

(** Aligning the head, adding the shifted tail and shifting the sum truncates
    the sum of the values. *)
Lemma aligned_sum g m t e b : 0 <= g -> 1 <= b -> g <= e - b -> e <= 1075 + g ->
  (m * 2 ^ g + t / 2 ^ (e - b - g)) / 2 ^ (1075 + g - e) = (m * 2 ^ (e - 1) + t * 2 ^ (b - 1)) / U.
Proof.
  intros Hg Hb Hc He. assert (0 < 2 ^ (e - b - g)) by (apply pow2_pos; lia). assert (0 < 2 ^ (1075 + g - e)) by (apply pow2_pos; lia).
  assert (0 < 2 ^ (b - 1)) by (apply pow2_pos; lia).
  rewrite <- Z.div_add_l, Z.div_div by lia.
  replace (m * 2 ^ (e - 1) + t * 2 ^ (b - 1)) with ((m * 2 ^ g * 2 ^ (e - b - g) + t) * 2 ^ (b - 1)).
  2:{ replace (e - 1) with (g + (e - b - g) + (b - 1)) by lia. rewrite !Z.pow_add_r by lia. ring. }
  replace U with (2 ^ (e - b - g) * 2 ^ (1075 + g - e) * 2 ^ (b - 1)) by (rewrite U_val, <- !Z.pow_add_r by lia; f_equal; lia).
  symmetry. apply Z.div_mul_cancel_r; lia.
Qed.

Lemma aligned_head g m e : 0 <= g -> 1 + g <= e -> e <= 1075 + g -> m * 2 ^ g / 2 ^ (1075 + g - e) = m * 2 ^ (e - 1) / U.
Proof.
  intros Hg Hb He. pose proof (aligned_sum g m 0 e 1 Hg ltac:(lia) ltac:(lia) He) as A.
  rewrite Z.div_0_l, Z.mul_0_l, !Z.add_0_r in A by (apply Z.pow_nonzero; lia). exact A.
Qed.

(** A tail below half a unit of the head is shifted by enough. *)
Lemma tail_range g e b m : 2 ^ 52 <= m -> 1 <= b -> 0 <= e -> 1 <= g <= 11 -> 2 * (m * 2 ^ (b - 1)) <= 2 ^ (e - 1) ->
  53 <= e - b /\ m <= 2 ^ (g - 1) * 2 ^ (e - b - g) /\ forall t, Z.abs t <= m -> Z.abs (t / 2 ^ (e - b - g)) <= 2 ^ (g - 1).
Proof.
  intros Hm Hb He Hg C. assert (P : 0 < 2 ^ (b - 1)) by (apply pow2_pos; lia).
  assert (He1 : 1 <= e) by (destruct (Z.eq_dec e 0) as [->|]; [change (2 ^ (0 - 1)) with 0 in C; nia|lia]).
  assert (Hd : 53 <= e - b).
  { assert (2 ^ (53 + (b - 1)) <= 2 ^ (e - 1)) as Q by (rewrite Z.pow_add_r by lia; nia).
    apply Z.pow_le_mono_r_iff in Q; lia. }
  assert (Hc : m <= 2 ^ (e - b - 1)).
  { replace (e - 1) with (1 + (e - b - 1) + (b - 1)) in C by lia. rewrite !Z.pow_add_r in C by lia. nia. }
  split; [exact Hd|].
  assert (Hq : m <= 2 ^ (g - 1) * 2 ^ (e - b - g)) by (rewrite <- Z.pow_add_r by lia; replace (g - 1 + (e - b - g)) with (e - b - 1) by lia; exact Hc).
  split; [exact Hq|]. intros t Ht. assert (0 < 2 ^ (e - b - g)) by (apply pow2_pos; lia). assert (0 < 2 ^ (g - 1)) by (apply pow2_pos; lia).
  apply Z.abs_le. split; [apply Z.div_le_lower_bound|apply Z.div_le_upper_bound]; nia.
Qed.

Section Fix.
Context (x : DD) (H L : Z).
Hypotheses (DH : @denotes double_precision (hi x) H) (DL : @denotes double_precision (lo x) L).
(** The tail is at most half a unit in the last place of the head, and not so
    small that the count of its shift passes seven bits. *)
Hypotheses (Canonical : 2 * Z.abs L <= 2 ^ (exponent_of (hi x) - 1))
  (Near : L = 0 \/ exponent_of (hi x) - exponent_of (lo x) < 138).

Notation E := (exponent_of (hi x)).
Notation b := (exponent_of (lo x)).
Notation m := (mantissa_of (hi x)).
Notation ml := (mantissa_of (lo x)).

Let tail (flip : bool) : Z := if xorb (negative (lo x)) flip then - ml else ml.

Lemma tail_facts : L <> 0 -> 1023 <= E -> 1 <= b /\ 53 <= E - b < 138 /\
  (forall flip : bool, (if flip then - L else L) = tail flip * 2 ^ (b - 1)) /\
  forall g (flip : bool), 1 <= g <= 11 -> Z.abs (tail flip / 2 ^ (E - b - g)) <= 2 ^ (g - 1).
Proof.
  intros NL HE. destruct Near as [N|N]; [contradiction|]. assert (Hb : 1 <= b) by lia.
  destruct (value_fields _ _ DL Hb) as [V _]. destruct (mantissa_field (lo x) (proj1 DL)) as [_ M]. pose proof Canonical as C.
  assert (P : 0 < 2 ^ (b - 1)) by (apply pow2_pos; lia).
  assert (A : Z.abs L = ml * 2 ^ (b - 1)) by (rewrite V; destruct (negative (lo x)); nia). rewrite A in C.
  split; [exact Hb|]. split; [|split].
  - destruct (tail_range 1 E b ml) as (Hd & _); lia.
  - intros flip. unfold tail. rewrite V. destruct (negative (lo x)), flip; cbn [xorb]; ring.
  - intros g flip Hg. apply (tail_range g E b ml); try lia. unfold tail. destruct (xorb _ flip); lia.
Qed.

(** The head with the tail patched in: the magnitude of the sum, aligned. *)
Lemma fixtfdi_tail_spec : L <> 0 -> 1023 <= E < 1086 ->
  fixtfdi_tail (lo x) (if negative (hi x) then -1 else 0) (E - 1023) = tail (negative (hi x)) / 2 ^ (E - b - 10).
Proof.
  intros NL HE. destruct (tail_facts NL ltac:(lia)) as (Hb & Hd & _ & _). destruct (mantissa_field (lo x) (proj1 DL)) as [Em M].
  unfold fixtfdi_tail. rewrite Em, (sign_mask _ (proj1 DL)), mask_xor, negate_by_mask, (proj1 (df_exponent_field _ (proj1 DL))) by lia.
  unfold srad. rewrite shr_spec by lia. unfold tail. do 2 f_equal. lia.
Qed.

Lemma fixunstfdi_tail_spec : L <> 0 -> 1023 <= E < 1087 -> fixunstfdi_tail (lo x) (E - 1023) = tail false / 2 ^ (E - b - 11).
Proof.
  intros NL HE. destruct (tail_facts NL ltac:(lia)) as (Hb & Hd & _ & _). destruct (mantissa_field (lo x) (proj1 DL)) as [Em M].
  unfold fixunstfdi_tail. rewrite Em, (sign_mask _ (proj1 DL)), negate_by_mask, (proj1 (df_exponent_field _ (proj1 DL))) by lia.
  unfold srad. rewrite shr_spec by lia. unfold tail. rewrite xorb_false_r. do 2 f_equal. lia.
Qed.

Lemma nonzero_test : negb (__nedf2 0 (lo x) =? 0) = negb (L =? 0).
Proof. destruct (compare_denotes 0 (lo x) 0 L zero_denotes DL) as (_ & _ & -> & _). destruct L; reflexivity. Qed.

(** The magnitude of the sum, seen from the sign of the head. *)
Lemma head_sum : 1023 <= E -> let N := if negative (hi x) then - (H + L) else H + L in
  N = m * 2 ^ (E - 1) + (if negative (hi x) then - L else L) /\ 0 <= N.
Proof.
  intros HE N. destruct (value_fields _ _ DH ltac:(lia)) as [V _]. destruct (mantissa_field (hi x) (proj1 DH)) as [_ M].
  assert (0 < 2 ^ (E - 1)) by (apply pow2_pos; lia). unfold N. rewrite V.
  split; [destruct (negative (hi x)); lia|]. pose proof Canonical. destruct (negative (hi x)); nia.
Qed.

Lemma fixtfdi_in_range : 1023 <= E < 1086 -> __fixtfdi_dd x = uint 64 (Z.quot (H + L) U).
Proof.
  intros HE. pose proof (proj1 DH) as UH. destruct (mantissa_field (hi x) UH) as [Em M]. destruct (head_word (hi x) UH) as [_ W].
  destruct (rep_parts (hi x) UH) as (_ & A & _). change (2 ^ (@typeWidth double_precision - 1)) with (2 ^ 63) in A.
  set (w := @fp_abs double_precision (hi x) / 2 ^ 32) in *.
  assert (Ew : w / 2 ^ 20 = E) by (unfold w; rewrite Z.div_div by lia; reflexivity). assert (Bw : 0 <= w < 2 ^ 31) by (unfold w; Z.div_mod_to_equations; lia).
  destruct (exponent_test 63 w ltac:(lia) ltac:(lia) ltac:(lia)) as [T S]. rewrite Ew in T, S.
  rewrite (proj2 (Z.leb_le 1023 E)), (proj2 (Z.ltb_lt E (1023 + 63))) in T by lia. change (63 * 2 ^ 20) with 0x03f00000 in *. cbn [andb] in T.
  unfold __fixtfdi_dd. rewrite W, T, (S T), Em, (sign_mask _ UH), nonzero_test.
  rewrite sshl_spec, sint_small by (unfold is_sint; lia). destruct (head_sum ltac:(lia)) as [HN N0]. cbv zeta in HN, N0.
  set (N := if negative (hi x) then - (H + L) else H + L) in *.
  assert (G : exists s, (if negb (L =? 0) then sadd 64 (m * 2 ^ 10) (fixtfdi_tail (lo x) (if negative (hi x) then -1 else 0) (E - 1023)) else m * 2 ^ 10) = s
    /\ 0 <= s < 2 ^ 63 /\ s / 2 ^ (1085 - E) = N / U).
  { destruct (Z.eqb_spec L 0) as [Z0|Z0]; cbn [negb].
    - exists (m * 2 ^ 10). split; [reflexivity|]. split; [lia|]. rewrite HN, Z0.
      replace (if negative (hi x) then - 0 else 0) with 0 by (now destruct (negative (hi x))). rewrite Z.add_0_r.
      exact (aligned_head 10 m E ltac:(lia) ltac:(lia) ltac:(lia)).
    - destruct (tail_facts Z0 ltac:(lia)) as (Hb & Hd & Ht & Hr). specialize (Hr 10 (negative (hi x)) ltac:(lia)).
      rewrite (fixtfdi_tail_spec Z0 HE). unfold sadd. rewrite sint_small by (unfold is_sint; lia). eexists. split; [reflexivity|]. split; [lia|].
      rewrite HN, Ht. exact (aligned_sum 10 m _ E b ltac:(lia) Hb ltac:(lia) ltac:(lia)). }
  destruct G as (s & -> & Bs & Vs). replace (62 - (E - 1023)) with (1085 - E) by lia. rewrite shr_spec, Vs by lia.
  pose proof (@unit_pos double_precision) as HU. assert (0 <= N / U) by (apply Z.div_pos; lia).
  assert (N / U < 2 ^ 63).
  { rewrite <- Vs. apply Z.le_lt_trans with s; [|lia]. apply Z.div_le_upper_bound; [apply pow2_pos; lia|].
    assert (1 <= 2 ^ (1085 - E)) by (apply (Z.pow_le_mono_r 2 0); lia). nia. }
  rewrite negate_by_mask by lia. f_equal. unfold N in *. destruct (negative (hi x)).
  - rewrite <- Z.quot_div_nonneg, Z.quot_opp_l by lia. lia.
  - rewrite <- Z.quot_div_nonneg by lia. reflexivity.
Qed.
(** Heads below 1. *)
Lemma small_head : E < 1023 -> Z.abs H < U /\ Z.abs (H + L) < U.
Proof.
  intros HE. pose proof (below_one _ _ DH HE) as B.
  assert (2 * Z.abs L <= 2 ^ 1021) by (apply Z.le_trans with (1 := Canonical); apply Z.pow_le_mono_r; lia).
  rewrite U_val. change (2 ^ 1074) with (2 ^ 53 * 2 ^ 1021). lia.
Qed.

(** Heads from [0x1.0p63] on: only the power itself can be near it. *)
Lemma large_head : 1086 <= E -> (E = 1086 /\ m = 2 ^ 52) \/ (2 ^ 63 + 2 ^ 10) * U <= Z.abs H - Z.abs L.
Proof.
  intros HE. destruct (value_fields _ _ DH ltac:(lia)) as [V _]. destruct (mantissa_field (hi x) (proj1 DH)) as [_ M].
  assert (P : 2 ^ (E - 1) = 2 ^ (E - 1086) * (2 ^ 11 * U)) by (rewrite U_val, <- !Z.pow_add_r by lia; f_equal; lia).
  assert (Q : 1 <= 2 ^ (E - 1086)) by (apply (Z.pow_le_mono_r 2 0); lia). pose proof (@unit_pos double_precision) as HU.
  assert (A : Z.abs H = m * (2 ^ (E - 1086) * (2 ^ 11 * U))) by (rewrite V, P; destruct (negative (hi x)); nia).
  pose proof Canonical as C. rewrite P in C. destruct (Z.eq_dec E 1086) as [E1|E1]; [destruct (Z.eq_dec m (2 ^ 52)) as [E2|E2]; [left; split; assumption|right]|right].
  - rewrite E1 in A, C. change (2 ^ (1086 - 1086)) with 1 in *. rewrite A. nia.
  - assert (2 <= 2 ^ (E - 1086)) by (apply (Z.pow_le_mono_r 2 1); lia). rewrite A. set (z := 2 ^ (E - 1086)) in *. clearbody z.
    clear V A P. set (y := z * (2 ^ 11 * U)) in *. assert (2 * (2 ^ 11 * U) <= y) by (unfold y; nia). clearbody y. nia.
Qed.

Lemma abs_denotes : @denotes double_precision (local_fabs (hi x)) (Z.abs H).
Proof.
  pose proof (proj1 DH) as UH. destruct (rep_parts (hi x) UH) as (_ & A & Lx & _). destruct (fp_value_signed _ UH) as (V & _). destruct DH as (_ & F & VH).
  unfold local_fabs. change 0x7fffffffffffffff with (@absMask double_precision). rewrite Lx. rewrite VH in V.
  unfold is_finite in F. apply Z.ltb_lt in F.
  apply (@denotes_with_sign double_precision false (@fp_abs double_precision (hi x)) (Z.abs H)).
  - exact (conj (proj1 A) F).
  - now rewrite <- V, Z.abs_involutive.
  - intros _. symmetry. apply Z.ltb_ge. apply Z.abs_nonneg.
Qed.

(** Outside the range test. *)
Lemma fixtfdi_outside : ~ 1023 <= E < 1086 -> __fixtfdi_dd x =
  if Z.abs H <? U then 0 else if H =? - 2 ^ 63 * U then uint 64 (if 0 <? L then fixtfdi_min (lo x) else - 2 ^ 63)
  else if 0 <? H then uint 64 (2 ^ 63 - 1) else uint 64 (- 2 ^ 63).
Proof using DH DL.
  clear Canonical Near. intros HE. pose proof (proj1 DH) as UH. destruct (head_word (hi x) UH) as [_ W].
  destruct (rep_parts (hi x) UH) as (_ & A & _). change (2 ^ (@typeWidth double_precision - 1)) with (2 ^ 63) in A.
  set (w := @fp_abs double_precision (hi x) / 2 ^ 32) in *.
  assert (Ew : w / 2 ^ 20 = E) by (unfold w; rewrite Z.div_div by lia; reflexivity). assert (Bw : 0 <= w < 2 ^ 31) by (unfold w; Z.div_mod_to_equations; lia).
  destruct (exponent_test 63 w ltac:(lia) ltac:(lia) ltac:(lia)) as [T _]. rewrite Ew in T. change (63 * 2 ^ 20) with 0x03f00000 in T.
  assert (T' : (1023 <=? E) && (E <? 1023 + 63) = false) by (apply andb_false_iff; rewrite Z.leb_gt, Z.ltb_ge; lia).
  unfold __fixtfdi_dd. rewrite W, T, T'.
  assert (D1 : @denotes double_precision one_df U) by (repeat split; vm_compute; congruence).
  assert (D63 : @denotes double_precision minus_twop63 (- 2 ^ 63 * U)) by (repeat split; vm_compute; congruence).
  destruct (compare_denotes _ _ _ _ D1 abs_denotes) as (_ & _ & _ & ->). destruct (compare_denotes _ _ _ _ DH D63) as (_ & -> & _ & _).
  destruct (compare_denotes _ _ _ _ zero_denotes DL) as (-> & _). destruct (compare_denotes _ _ _ _ DH zero_denotes) as (_ & _ & _ & ->). reflexivity.
Qed.

Lemma fixtfdi_min_spec : E = 1086 -> 0 < L -> fixtfdi_min (lo x) = - (2 ^ 63 + (- L) / U).
Proof.
  intros HE HL. destruct (tail_facts ltac:(lia) ltac:(lia)) as (Hb & Hd & _ & _). destruct (mantissa_field (lo x) (proj1 DL)) as [Em M].
  destruct (value_fields _ _ DL Hb) as [V _]. assert (P : 0 < 2 ^ (b - 1)) by (apply pow2_pos; lia).
  assert (VL : L = ml * 2 ^ (b - 1)) by (destruct (negative (lo x)); nia).
  unfold fixtfdi_min, sadd, ssub, srad. rewrite Em, (proj1 (df_exponent_field _ (proj1 DL))), lxor_m1, (sint_small 64 (- ml - 1 + 1)) by (unfold is_sint; lia).
  rewrite shr_spec by lia.
  assert (D : (- ml - 1 + 1) / 2 ^ (1075 - b) = - L / U).
  { rewrite VL. replace U with (2 ^ (1075 - b) * 2 ^ (b - 1)) by (rewrite U_val, <- Z.pow_add_r by lia; f_equal; lia).
    replace (- (ml * 2 ^ (b - 1))) with ((- ml - 1 + 1) * 2 ^ (b - 1)) by ring. symmetry. apply Z.div_mul_cancel_r; [apply Z.pow_nonzero|]; lia. }
  rewrite D. pose proof (@unit_pos double_precision) as HU. pose proof Canonical as C. rewrite HE in C.
  change (2 ^ (1086 - 1)) with (2 ^ 11 * U) in C. assert (- 2 ^ 10 <= - L / U) by (apply Z.div_le_lower_bound; lia).
  assert (- L / U < 0) by (apply Z.div_lt_upper_bound; lia). rewrite sint_small by (unfold is_sint; lia). lia.
Qed.

(** Truncation, for every pair in range whose head is below [0x1.0p63]. *)
Lemma fixtfdi_spec : H < 2 ^ 63 * U -> - 2 ^ 63 <= Z.quot (H + L) U -> __fixtfdi_dd x = uint 64 (Z.quot (H + L) U).
Proof.
  intros Hlt Hq. pose proof (@unit_pos double_precision) as HU.
  destruct (Z.lt_ge_cases E 1023) as [L1|L1]; [|destruct (Z.lt_ge_cases E 1086) as [L2|L2]; [now apply fixtfdi_in_range|]].
  - destruct (small_head L1) as [A B]. rewrite fixtfdi_outside, (proj2 (Z.ltb_lt _ _) A) by lia. rewrite (proj2 (Z.quot_small_iff (H + L) U ltac:(lia))) by lia. reflexivity.
  - rewrite fixtfdi_outside by lia.
    assert (Qn : H + L <= 0 -> Z.quot (H + L) U = - ((- (H + L)) / U)) by (intros; rewrite <- Z.quot_div_nonneg, Z.quot_opp_l by lia; lia).
    destruct (large_head L2) as [[E1 M1]|G].
    + destruct (value_fields _ _ DH ltac:(lia)) as [V _]. rewrite E1, M1 in V. change (2 ^ 52 * 2 ^ (1086 - 1)) with (2 ^ 63 * U) in V.
      assert (VH : H = - 2 ^ 63 * U) by (destruct (negative (hi x)); lia). pose proof Canonical as C. rewrite E1 in C. change (2 ^ (1086 - 1)) with (2 ^ 11 * U) in C.
      rewrite (proj2 (Z.ltb_ge _ _)), (proj2 (Z.eqb_eq _ _) VH), Qn by lia. f_equal. rewrite Qn in Hq by lia.
      replace (- (H + L)) with (2 ^ 63 * U + - L) in * by lia. rewrite Z.div_add_l in * by lia.
      case_cmp; [now apply fixtfdi_min_spec|]. assert (0 <= - L / U) by (apply Z.div_pos; lia). lia.
    + exfalso. rewrite Qn in Hq by lia. assert (2 ^ 63 + 2 ^ 10 <= - (H + L) / U) by (apply Z.div_le_lower_bound; lia). lia.
Qed.

(** From [0x1.0p63] on the conversion saturates, whatever the tail. *)
Lemma fixtfdi_saturates : 2 ^ 63 * U <= H -> __fixtfdi_dd x = 2 ^ 63 - 1.
Proof using DH DL.
  clear Canonical Near. intros G. pose proof (@unit_pos double_precision) as HU. rewrite fixtfdi_outside.
  - rewrite (proj2 (Z.ltb_ge _ _)), (proj2 (Z.eqb_neq _ _)), (proj2 (Z.ltb_lt 0 H)) by lia. reflexivity.
  - intros HE. destruct (value_fields _ _ DH ltac:(lia)) as [V _]. destruct (mantissa_field (hi x) (proj1 DH)) as [_ M].
    assert (2 ^ (E - 1) <= 2 ^ 1084) by (apply Z.pow_le_mono_r; lia). rewrite U_val in *. change (2 ^ 63 * 2 ^ 1074) with (2 ^ 53 * 2 ^ 1084) in G.
    assert (0 < 2 ^ (E - 1)) by (apply pow2_pos; lia). destruct (negative (hi x)); nia.
Qed.

(** The unsigned conversion reads the sign with the exponent. *)
Lemma unsigned_test : let d := uint 32 (hi x >>[64] 32) -[32] 0x3ff00000 in
  (0x04000000 >? d) = (negb (negative (hi x)) && (1023 <=? E) && (E <? 1087)) /\
  ((0x04000000 >? d) = true -> d >>[32] 20 = E - 1023).
Proof.
  pose proof (proj1 DH) as UH. destruct (head_word (hi x) UH) as [W _]. rewrite W. destruct (df_exponent_field (hi x) UH) as [_ HE].
  destruct (rep_parts (hi x) UH) as (EH & A & _). change (2 ^ (@typeWidth double_precision - 1)) with (2 ^ 63) in A.
  set (w := hi x / 2 ^ 32). unfold is_uint in UH.
  assert (Ew : w / 2 ^ 20 = if negative (hi x) then 2 ^ 11 + E else E).
  { unfold w. rewrite Z.div_div by lia. change (2 ^ 32 * 2 ^ 20) with (2 ^ 52). rewrite EH at 1. destruct (negative (hi x)); unfold with_sign; [|reflexivity].
    change (2 ^ (@typeWidth double_precision - 1)) with (2 ^ 11 * 2 ^ 52). rewrite Z.div_add_l by lia. reflexivity. }
  change (@typeWidth double_precision) with 64 in UH.
  assert (Bw : 0 <= w < 2 ^ 32) by (unfold w; Z.div_mod_to_equations; lia).
  destruct (exponent_test 64 w ltac:(lia) ltac:(lia) Bw) as [T S]. rewrite Ew in T, S. change (64 * 2 ^ 20) with 0x04000000 in *.
  assert (T' : (0x04000000 >? w -[32] 0x3ff00000) = negb (negative (hi x)) && (1023 <=? E) && (E <? 1087)).
  { rewrite T. destruct (negative (hi x)); cbn [negb andb]; [|reflexivity]. apply andb_false_iff. right. apply Z.ltb_ge. lia. }
  split; [exact T'|]. intros T1. rewrite (S T1). rewrite T' in T1. now destruct (negative (hi x)).
Qed.

Lemma fixunstfdi_in_range : negative (hi x) = false -> 1023 <= E < 1087 -> __fixunstfdi_dd x = (H + L) / U.
Proof.
  intros HN HE. pose proof (proj1 DH) as UH. destruct (mantissa_field (hi x) UH) as [Em M]. destruct unsigned_test as [T S].
  rewrite HN, (proj2 (Z.leb_le 1023 E)), (proj2 (Z.ltb_lt E 1087)) in T by lia. cbn [negb andb] in T.
  unfold __fixunstfdi_dd. rewrite T, (S T), Em, nonzero_test, ushl_spec, (uint_small 64 (m * 2 ^ 11)) by (unfold is_uint; lia).
  destruct (head_sum ltac:(lia)) as [HS N0]. cbv zeta in HS, N0. rewrite HN in HS, N0. rewrite HS.
  replace (63 - (E - 1023)) with (1075 + 11 - E) by lia. destruct (Z.eqb_spec L 0) as [Z0|Z0]; cbn [negb].
  - rewrite Z0, Z.add_0_r, shr_spec by lia. apply aligned_head; lia.
  - destruct (tail_facts Z0 ltac:(lia)) as (Hb & Hd & Ht & Hr). specialize (Hr 11 false ltac:(lia)). specialize (Ht false). cbn beta iota in Ht.
    rewrite (fixunstfdi_tail_spec Z0 HE), Ht, shr_spec by lia. unfold uadd. rewrite uint_small by (unfold is_uint; lia). apply aligned_sum; lia.
Qed.

Lemma fixunstfdi_spec :
  (H < 2 ^ 64 * U -> 0 <= H + L -> __fixunstfdi_dd x = (H + L) / U) /\ (2 ^ 64 * U <= H -> __fixunstfdi_dd x = 2 ^ 64 - 1).
Proof.
  pose proof (@unit_pos double_precision) as HU. pose proof (proj1 DH) as UH. destruct (fp_value_signed _ UH) as (_ & Nh & Ph).
  assert (D1 : @denotes double_precision one_df U) by (repeat split; vm_compute; congruence).
  assert (VH : @fp_value double_precision (hi x) = H) by apply DH. rewrite VH in *.
  assert (Out : negb (negative (hi x)) && (1023 <=? E) && (E <? 1087) = false -> __fixunstfdi_dd x = if H <? U then 0 else 2 ^ 64 - 1).
  { intros T. unfold __fixunstfdi_dd. rewrite (proj1 unsigned_test), T. destruct (compare_denotes _ _ _ _ D1 DH) as (_ & _ & _ & ->). reflexivity. }
  split; intros B.
  - intros HS. destruct (Z.lt_ge_cases E 1023) as [L1|L1].
    + destruct (small_head L1) as [A1 A2]. rewrite Out, (proj2 (Z.ltb_lt H U)) by (try lia; apply andb_false_iff; left; apply andb_false_iff; right; apply Z.leb_gt; lia).
      symmetry. apply Z.div_small. lia.
    + destruct (value_fields _ _ DH ltac:(lia)) as [V _]. destruct (mantissa_field (hi x) UH) as [_ M].
      assert (0 < 2 ^ (E - 1)) by (apply pow2_pos; lia). destruct (negative (hi x)) eqn:EN.
      * pose proof Canonical. nia.
      * apply fixunstfdi_in_range; [exact EN|]. split; [lia|]. apply Z.nle_gt. intros G.
        assert (2 ^ 1086 <= 2 ^ (E - 1)) by (apply Z.pow_le_mono_r; lia). change (2 ^ 1086) with (2 ^ 12 * U) in *. nia.
  - rewrite Out; [now rewrite (proj2 (Z.ltb_ge H U)) by lia|]. apply andb_false_iff. right. apply Z.ltb_ge. apply Z.nlt_ge. intros G.
    destruct (Z.lt_ge_cases E 1023) as [L1|L1]; [destruct (small_head L1); lia|].
    destruct (value_fields _ _ DH ltac:(lia)) as [V _]. destruct (mantissa_field (hi x) UH) as [_ M].
    assert (2 ^ (E - 1) <= 2 ^ 1085) by (apply Z.pow_le_mono_r; lia). change (2 ^ 1085) with (2 ^ 11 * U) in *.
    assert (0 < 2 ^ (E - 1)) by (apply pow2_pos; lia). destruct (negative (hi x)); nia.
Qed.
End Fix.

(** ** Round trips *)

Section RoundTrip.
Context (x : DD) (a n l : Z).
Hypotheses (Dn : dbl (hi x) n) (Dl : dbl (lo x) l) (Sum : n + l = a) (Conv : @converts double_precision a (hi x)) (La : Z.abs a < 2 ^ 64) (Ll : Z.abs l <= 2 ^ 11).

Lemma head_signs : (a < 0 -> n <= 0) /\ (0 <= a -> 0 <= n) /\ @fpval double_precision (@fp_abs double_precision (hi x)) = Z.abs n * U.
Proof using Dn Conv.
  clear l Dl Sum Ll La. destruct Conv as (Ur & S & _). destruct Dn as (_ & _ & V). destruct (fp_value_signed _ Ur) as (A & N & P). rewrite V in *.
  pose proof (@unit_pos double_precision) as HU. rewrite S in N, P. rewrite <- A, Z.abs_mul, (Z.abs_eq U) by lia.
  split; [|split; [|reflexivity]]; intros C; [specialize (N (proj2 (Z.ltb_lt _ _) C))|specialize (P (proj2 (Z.ltb_ge _ _) C))]; nia.
Qed.

Lemma int_canonical : 2 * Z.abs (l * U) <= 2 ^ (exponent_of (hi x) - 1) /\ (l * U = 0 \/ exponent_of (hi x) - exponent_of (lo x) < 138).
Proof using Dn Dl Sum Conv La Ll.
  destruct head_signs as (S1 & S2 & V). pose proof (@unit_pos double_precision) as HU. pose proof Conv as (Ur & _ & R). pose proof Dn as (_ & F & _).
  unfold is_finite in F. apply Z.ltb_lt in F. pose proof (rounds_to_half _ _ R F ltac:(nia)) as C. change (@significandBits double_precision) with 52 in C.
  rewrite V, <- Z.mul_sub_distr_r, Z.abs_mul, (Z.abs_eq U) in C by lia. replace (Z.abs (Z.abs a - Z.abs n)) with (Z.abs l) in C by lia.
  rewrite Z.abs_mul, (Z.abs_eq U) by lia. destruct (df_exponent_field _ Ur) as [_ HE]. destruct (Z.eq_dec (exponent_of (hi x)) 0) as [E0|E0].
  - rewrite E0 in *. change (2 ^ (Z.max 1 0 - 1)) with 1 in C. assert (1 <= U) by lia. assert (l = 0) as -> by nia. split; [vm_compute; congruence|now left].
  - rewrite Z.max_r in C by lia. split; [exact C|]. destruct (Z.eq_dec l 0) as [->|Nl]; [now left|right].
    assert (1023 <= exponent_of (lo x)).
    { apply Z.nlt_ge. intros G. pose proof (below_one _ _ Dl G) as B. rewrite Z.abs_mul, (Z.abs_eq U) in B by lia.
      change U with (2 ^ 53 * 2 ^ 1021) in B. nia. }
    destruct (value_fields _ _ Dn ltac:(lia)) as [Vn _]. destruct (mantissa_field _ Ur) as [_ M]. apply Z.nle_gt. intros G.
    assert (2 ^ 1160 <= 2 ^ (exponent_of (hi x) - 1)) by (apply Z.pow_le_mono_r; lia). change (2 ^ 1160) with (2 ^ 86 * U) in *.
    assert (Z.abs n <= 2 ^ 65) by lia. set (y := 2 ^ (exponent_of (hi x) - 1)) in *. clearbody y. destruct (negative (hi x)); nia.
Qed.

(** Which integers are rounded up to a power of two. *)
Lemma head_below k : k = 63 \/ k = 64 -> (n < 2 ^ k <-> a < 2 ^ k - 2 ^ (k - 54)).
Proof using Dn Conv.
  clear l Dl Sum Ll La. intros Hk. destruct head_signs as (S1 & S2 & V). pose proof (@unit_pos double_precision) as HU. pose proof Conv as (Ur & _ & Hr & Lo & Up).
  set (X := @fp_abs double_precision (hi x)) in *. set (t := (1023 + k) * 2 ^ 52).
  assert (Vt : @fpval double_precision t = 2 ^ k * U /\ @fpval double_precision (t - 1) = (2 ^ k - 2 ^ (k - 53)) * U /\ Z.even (t - 1) = false /\ 0 < t < @infRep double_precision)
    by (destruct Hk; subst k; vm_compute; intuition congruence). destruct Vt as (T0 & T1 & T2 & T3). pose proof Dn as (_ & Fin & _). unfold is_finite in Fin. fold X in Fin. apply Z.ltb_lt in Fin.
  assert (P : 2 ^ (k - 53) = 2 * 2 ^ (k - 54)) by (destruct Hk; subst k; reflexivity).
  assert (K : 2 ^ k = 2 ^ 10 * 2 ^ (k - 10)) by (destruct Hk; subst k; reflexivity). assert (0 < 2 ^ (k - 54)) by (apply pow2_pos; lia).
  destruct (Z.lt_ge_cases a 0) as [G|G]; [assert (2 ^ (k - 54) < 2 ^ k) by (apply Z.pow_lt_mono_r; lia); lia|]. rewrite (Z.abs_eq a) in * by lia. rewrite (Z.abs_eq n) in V by lia.
  split; intros C.
  - assert (X < t) by (apply (proj1 (@fpval_lt_iff double_precision X t ltac:(lia) ltac:(lia))); rewrite V, T0; nia).
    assert (@fpval double_precision X <= @fpval double_precision (t - 1)) by (apply fpval_mono; lia).
    assert (@fpval double_precision (X + 1) <= @fpval double_precision t) by (apply fpval_mono; lia).
    assert (X = t - 1 \/ @fpval double_precision X < @fpval double_precision (t - 1)) as [Q|Q]
      by (destruct (Z.eq_dec X (t - 1)); [now left|right; apply fpval_lt; lia]).
    + rewrite Q in Up. destruct Up as [Up|[Up|[_ Up]]]; [lia| |congruence]. rewrite Z.sub_add, T0, T1 in Up. nia.
    + destruct Up as [Up|Up]; [lia|]. nia.
  - apply Z.nle_gt. intros Q. assert (t <= X) by (apply Z.nlt_ge; intros Lt; apply (@fpval_lt double_precision) in Lt; [rewrite V, T0 in Lt; nia|lia]).
    assert (@fpval double_precision (t - 1) <= @fpval double_precision (X - 1)) by (apply fpval_mono; lia).
    assert (@fpval double_precision t <= @fpval double_precision X) by (apply fpval_mono; lia). destruct Lo as [Lo|Lo]; [lia|]. nia.
Qed.
End RoundTrip.

Lemma round_trip_signed x a : dd_int x a -> is_sint 64 a ->
  __fixtfdi_dd x = uint 64 (if a <? 2 ^ 63 - 2 ^ 9 then a else 2 ^ 63 - 1).
Proof.
  intros (n & l & Dn & Dl & _ & Bl & Sum & Conv) R. unfold is_sint in R. pose proof (@unit_pos double_precision) as HU.
  assert (La : Z.abs a < 2 ^ 64) by lia. destruct (int_canonical x a n l Dn Dl Sum Conv La Bl) as [C N].
  pose proof (head_below x a n Dn Conv 63 (or_introl eq_refl)) as T. change (63 - 54) with 9 in T.
  case_cmp.
  - assert (Q : Z.quot (n * U + l * U) U = a) by (rewrite <- Z.mul_add_distr_r, Sum; apply Z.quot_mul; lia).
    rewrite (fixtfdi_spec x (n * U) (l * U) Dn Dl C N), Q; [reflexivity|nia|lia].
  - rewrite (fixtfdi_saturates x (n * U) (l * U) Dn Dl); [reflexivity|nia].
Qed.

Lemma round_trip_unsigned x a : dd_int x a -> is_uint 64 a ->
  __fixunstfdi_dd x = if a <? 2 ^ 64 - 2 ^ 10 then a else 2 ^ 64 - 1.
Proof.
  intros (n & l & Dn & Dl & _ & Bl & Sum & Conv) R. unfold is_uint in R. pose proof (@unit_pos double_precision) as HU.
  assert (La : Z.abs a < 2 ^ 64) by lia. destruct (int_canonical x a n l Dn Dl Sum Conv La Bl) as [C N].
  pose proof (head_below x a n Dn Conv 64 (or_intror eq_refl)) as T. change (64 - 54) with 10 in T.
  destruct (fixunstfdi_spec x (n * U) (l * U) Dn Dl C N) as [F1 F2]. case_cmp.
  - rewrite F1 by nia. rewrite <- Z.mul_add_distr_r, Sum. apply Z.div_mul. lia.
  - apply F2. nia.
Qed.

(** ** What the conversions promise *)

(** Converting a 64-bit integer to a pair of doubles is exact: the two parts
    add up to it, and the first is the integer rounded to nearest even. *)
Theorem float_pair_exact a :
  (is_sint 64 a -> dd_int (__floatditf_dd a) a) /\ (is_uint 64 a -> dd_int (__floatunditf_dd a) a).
Proof. split; [apply floatditf_dd_spec|apply floatunditf_dd_spec]. Qed.

(** The conversions of a pair to a 64-bit integer truncate the sum of its parts
    towards zero, for every pair in range whose head is below the first power
    of two beyond the type; from there on they saturate. *)
Theorem fix_pair_truncates x H L :
  @denotes double_precision (hi x) H -> @denotes double_precision (lo x) L ->
  2 * Z.abs L <= 2 ^ (exponent_of (hi x) - 1) -> L = 0 \/ exponent_of (hi x) - exponent_of (lo x) < 138 ->
  (H < 2 ^ 63 * U -> - 2 ^ 63 <= Z.quot (H + L) U -> __fixtfdi_dd x = uint 64 (Z.quot (H + L) U)) /\
  (2 ^ 63 * U <= H -> __fixtfdi_dd x = 2 ^ 63 - 1) /\
  (H < 2 ^ 64 * U -> 0 <= H + L -> __fixunstfdi_dd x = (H + L) / U) /\
  (2 ^ 64 * U <= H -> __fixunstfdi_dd x = 2 ^ 64 - 1).
Proof.
  intros DH DL C N. split; [now apply fixtfdi_spec|]. split; [now apply (fixtfdi_saturates x H L)|now apply fixunstfdi_spec].
Qed.

(** C15: An integer converted to a pair and back is the same integer, except for
    the 512 largest signed and the 1024 largest unsigned ones, which come back
    as the largest: their pairs have the power of two beyond the type as head
    and a negative tail, and the code saturates on the head alone. *)
Theorem pair_round_trip a :
  (is_sint 64 a -> __fixtfdi_dd (__floatditf_dd a) = uint 64 (if a <? 2 ^ 63 - 2 ^ 9 then a else 2 ^ 63 - 1)) /\
  (is_uint 64 a -> __fixunstfdi_dd (__floatunditf_dd a) = if a <? 2 ^ 64 - 2 ^ 10 then a else 2 ^ 64 - 1).
Proof.
  split; intros R; [apply round_trip_signed|apply round_trip_unsigned]; try exact R; [now apply floatditf_dd_spec|now apply floatunditf_dd_spec].
Qed.

(** A tail 138 binary places below the head: the count of its shift is 128, of
    which the instruction uses 0, and the result is wrong by [2^52]. *)
Theorem far_tail_misread : let x := {| hi := 0x43d0000000000000; lo := 947 * 2 ^ 52 |} in
  dbl (hi x) (2 ^ 62) /\ @denotes double_precision (lo x) (2 ^ 998) /\ __fixtfdi_dd x = 2 ^ 62 + 2 ^ 52.
Proof. split; [|split]; vm_compute; intuition congruence. Qed.

Lemma pair_round_trip_witness : is_sint 64 (- 2 ^ 63 + 12345) /\
  __fixtfdi_dd (__floatditf_dd (- 2 ^ 63 + 12345)) = 2 ^ 63 + 12345 /\ __fixtfdi_dd (__floatditf_dd (2 ^ 63 - 5)) = 2 ^ 63 - 1.
Proof.
  assert (R : is_sint 64 (- 2 ^ 63 + 12345)) by (split; vm_compute; congruence). split; [exact R|]. split; [|vm_compute; reflexivity].
  exact (proj1 (pair_round_trip (- 2 ^ 63 + 12345)) R).
Defined.

Lemma float_pair_exact_witness : is_uint 64 (2 ^ 64 - 1) /\ dd_int (__floatunditf_dd (2 ^ 64 - 1)) (2 ^ 64 - 1).
Proof.
  assert (R : is_uint 64 (2 ^ 64 - 1)) by (split; vm_compute; congruence). split; [exact R|]. exact (proj2 (float_pair_exact (2 ^ 64 - 1)) R).
Defined.

Lemma fix_pair_truncates_witness :
  __fixtfdi_dd {| hi := 0xc3e0000000000000; lo := 0x3ff8000000000000 |} = 2 ^ 63 + 2.
Proof.
  destruct (fix_pair_truncates {| hi := 0xc3e0000000000000; lo := 0x3ff8000000000000 |} (- 2 ^ 63 * U) (3 * 2 ^ 1073)) as [F _].
  - repeat split; vm_compute; congruence.
  - repeat split; vm_compute; congruence.
  - vm_compute. congruence.
  - right. vm_compute. reflexivity.
  - rewrite F by (vm_compute; congruence). vm_compute. reflexivity.
Defined.
