(* ===== verification/DdAdd.v ===== *)
(** * PowerPC long double: addition and subtraction

    Models [ppc/gcc_qadd.c] and [ppc/gcc_qsub.c]: the sum of two pairs of
    doubles, compensated twice.  A pair is worth the sum of its parts, and its
    first part is that sum rounded; the theorem bounds the error of the result
    and shows that it is such a pair again. *)

From S2P Require Import Prelude IntBits FpLib FpSpec FpAdd FpMul FpCompare FpConv FpInt FpDiv FpExact HardFloat DoubleDouble.

(** The operators of C on [double]. *)
Notation "x [+] y" := (__adddf3 x y) (at level 50, left associativity).
Notation "x [-] y" := (__subdf3 x y) (at level 50, left associativity).

Definition infinityHi : Z := 0x7ff00000.

(** [((uint32_t)(bits >> 32) & infinityHi) == infinityHi] *)
Definition exponent_full (bits : Z) : bool := (uint 32 (bits >>[64] 32) .& infinityHi) =? infinityHi.

(** From [H = B + (A - (A + B))] on. *)
Definition qadd_compensated (A a B b : Z) : DD :=
  let H := B [+] (A [-] (A [+] B)) in
  let T := b [+] (a [-] (a [+] b)) in
  let h := A [+] (B [-] (A [+] B)) in
  let t := a [+] (b [-] (a [+] b)) in
  let w := if __ledf2 (local_fabs A) (local_fabs B) <=? 0 then (a [+] b) [+] h else (a [+] b) [+] H in
  let W := (A [+] B) [+] w in
  let Y := (A [+] B) [-] W in
  let Y := Y [+] w in
  let w := if __ledf2 (local_fabs a) (local_fabs b) <=? 0 then t [+] Y else T [+] Y in
  let Y := W [+] w in
  {| hi := Y; lo := (W [-] Y) [+] w |}.

Definition qadd_body (A a B b : Z) : DD :=
  if (__eqdf2 A 0 =? 0) && (__eqdf2 B 0 =? 0) then {| hi := A [+] B; lo := 0 |}
  else if exponent_full A || exponent_full B then {| hi := A [+] B; lo := 0 |}
  else
    let testForOverflow := A [+] (B [+] (a [+] b)) in
    if exponent_full testForOverflow then {| hi := testForOverflow; lo := 0 |}
    else qadd_compensated A a B b.

Definition __gcc_qadd (x y : DD) : DD := qadd_body (hi x) (lo x) (hi y) (lo y).

(** The same code, with the parts of the second operand negated. *)
Definition __gcc_qsub (x y : DD) : DD := qadd_body (hi x) (lo x) (__negdf2 (hi y)) (__negdf2 (lo y)).

(** ** Pairs *)

Notation den := (@denotes double_precision).
Notation rnd := (@rounds double_precision).
Notation top := (@fpval double_precision (@infRep double_precision)).

(** The pair [x] is worth [v]. *)
Definition pair (x : DD) (v : Z) : Prop := exists h l, den (hi x) h /\ den (lo x) l /\ rnd v h /\ h + l = v.

Lemma rounds_sign z s : rnd z s -> (0 <= z -> 0 <= s) /\ (z <= 0 -> s <= 0).
Proof.
  intros R. destruct (rounds_abs z s R) as (r & _ & _ & _ & D & S). pose proof (rounds_relative z s R) as E.
  change (2 * 2 ^ @significandBits double_precision - 1) with (2 ^ 53 - 1) in E. split; intros C; destruct (Z.eq_dec z 0) as [->|N]; try nia.
Qed.

(** One part in [2^53 - 1] is lost by a rounding. *)
Lemma rounds_error z s : rnd z s -> Z.abs (z - s) * (2 ^ 53 - 1) <= Z.abs z.
Proof. exact (@rounds_relative double_precision z s). Qed.

Lemma den_unique r v w : den r v -> den r w -> v = w.
Proof. intros (_ & _ & <-) (_ & _ & <-). reflexivity. Qed.

Lemma exponent_full_finite r v : den r v -> exponent_full r = false.
Proof.
  intros D. pose proof (proj1 D) as Ur. destruct (head_word r Ur) as [W _]. unfold exponent_full, infinityHi. rewrite W.
  change 0x7ff00000 with ((2 ^ 11 - 1) * 2 ^ 20) at 1. rewrite land_field by lia. rewrite Z.div_div by lia. change (2 ^ 32 * 2 ^ 20) with (2 ^ 52).
  replace (r / 2 ^ 52 mod 2 ^ 11) with (exponent_of r).
  2:{ rewrite <- (proj1 (df_exponent_field r Ur)), shr_spec by lia. unfold is_uint in Ur. change (@typeWidth double_precision) with 64 in Ur.
      assert (0 <= r / 2 ^ 52 < 4096) by (Z.div_mod_to_equations; lia).
      rewrite sint_small by (unfold is_sint; lia). change 0x7ff with (Z.ones 11). apply Z.land_ones. lia. }
  apply Z.eqb_neq. destruct (Z.lt_ge_cases (exponent_of r) 1); [lia|]. destruct (value_fields r v D) as [_ E]; lia.
Qed.

Lemma fabs_denotes r v : den r v -> den (local_fabs r) (Z.abs v).
Proof. intros D. exact (abs_denotes {| hi := r; lo := 0 |} v D). Qed.

Lemma abs_test r s v w : den r v -> den s w -> (__ledf2 (local_fabs r) (local_fabs s) <=? 0) = (Z.abs v <=? Z.abs w).
Proof.
  intros Dr Ds. pose proof (fabs_denotes r v Dr) as (U1 & F1 & V1). pose proof (fabs_denotes s w Ds) as (U2 & F2 & V2).
  destruct (@operators_spec double_precision _ _ U1 U2) as (_ & L & _). unfold __ledf2. rewrite L, V1, V2.
  rewrite (denotes_not_nan _ _ (fabs_denotes r v Dr)), (denotes_not_nan _ _ (fabs_denotes s w Ds)). reflexivity.
Qed.

(** ** The operations *)

Lemma add_op a b x y : den a x -> den b y -> 2 * Z.abs (x + y) <= top -> exists s, den (__adddf3 a b) s /\ rnd (x + y) s.
Proof. exact (@add_rounds double_precision double_ops a b x y). Qed.

(** The code computes the error of [a + b] both ways and takes the one in
    which the larger operand comes first. *)
Lemma branch_error a b x y s v : den a x -> den b y -> den s v -> rnd (x + y) v -> 4 * Z.abs x <= top -> 4 * Z.abs y <= top ->
  den (if __ledf2 (local_fabs a) (local_fabs b) <=? 0 then __adddf3 a (__subdf3 b s) else __adddf3 b (__subdf3 a s)) (x + y - v).
Proof.
  intros Da Db Ds R Bx By. rewrite (abs_test a b x y Da Db). case_cmp.
  - rewrite (Z.add_comm x y) in *. now apply (@fast_two_sum double_precision double_ops b a s y x v).
  - apply (@fast_two_sum double_precision double_ops a b s x y v); try assumption. lia.
Qed.

Lemma tail_error a b x y s v : den a x -> den b y -> den s v -> rnd (x + y) v -> Z.abs y <= Z.abs x -> 4 * Z.abs x <= top ->
  den (__adddf3 (__subdf3 a s) b) (x + y - v).
Proof. intros. now apply (@fast_two_sum double_precision double_ops a b s x y v). Qed.

Lemma if_add (c : bool) u v w : (if c then __adddf3 u v else __adddf3 u w) = __adddf3 u (if c then v else w).
Proof. now destruct c. Qed.

Lemma if_add_l (c : bool) u v w : (if c then __adddf3 v u else __adddf3 w u) = __adddf3 (if c then v else w) u.
Proof. now destruct c. Qed.

(** The errors of the roundings, bounded one after the other: [t] is the
    magnitude of the sum of the heads, [al] that of the tails, [e1] and [e2] are
    what their sums lose, [be] the corrections together, and [d1], [y] and [d2]
    the errors of the later sums. *)
Lemma first_bounds t al e1 e2 be d1 :
  0 <= t -> 0 <= e1 -> 0 <= e2 -> 0 <= d1 -> al * (2 ^ 53 - 2) <= t ->
  e1 * (2 ^ 53 - 1) <= t -> e2 * (2 ^ 53 - 1) <= al -> be <= al + e2 + e1 -> d1 * (2 ^ 53 - 1) <= be ->
  be <= t /\ be + d1 <= t - e1 /\ t + al + e2 + d1 <= 2 * t /\ e1 <= t /\ al <= t.
Proof. lia. Qed.

Lemma last_bounds t al e1 e2 be d1 y d2 :
  0 <= t -> 0 <= e1 -> 0 <= e2 -> 0 <= d1 -> 0 <= y -> 0 <= d2 -> al * (2 ^ 53 - 2) <= t ->
  e1 * (2 ^ 53 - 1) <= t -> e2 * (2 ^ 53 - 1) <= al -> be <= al + e2 + e1 -> d1 * (2 ^ 53 - 1) <= be ->
  y * (2 ^ 53 - 1) <= t + al + e2 + d1 -> d2 * (2 ^ 53 - 1) <= e2 + y ->
  e2 + y <= t /\ e2 + y + d2 <= t - al - e2 - d1 - y /\ t + al + e2 + d1 + y <= 2 * t /\ t + al + d1 + d2 <= 2 * t /\ (d1 + d2) * 2 ^ 104 <= t - al.
Proof. lia. Qed.

Section Core.
Context (A a B b : Z) (VA Va VB Vb : Z).
Hypotheses (DA : den A VA) (Da : den a Va) (DB : den B VB) (Db : den b Vb).
Hypotheses (Ha : Z.abs Va * (2 ^ 53 - 2) <= Z.abs VA) (Hb : Z.abs Vb * (2 ^ 53 - 2) <= Z.abs VB)
  (Same : Z.abs (VA + VB) = Z.abs VA + Z.abs VB) (Room : 8 * (Z.abs VA + Z.abs VB) <= top).

Lemma compensated_spec : exists h l, den (hi (qadd_compensated A a B b)) h /\ den (lo (qadd_compensated A a B b)) l /\ rnd (h + l) h /\
  Z.abs (h + l - (VA + Va + (VB + Vb))) * 2 ^ 104 <= Z.abs (VA + Va + (VB + Vb)).
Proof.
  set (t := Z.abs VA + Z.abs VB) in *. set (al := Z.abs Va + Z.abs Vb).
  assert (T0 : 0 <= t) by (unfold t; clear; lia). assert (Hal : al * (2 ^ 53 - 2) <= t) by (unfold al, t; clear - Ha Hb; lia).
  assert (R0 : 4 * t <= top) by (clear - Room T0; lia).
  assert (RA : 4 * Z.abs VA <= top /\ 4 * Z.abs VB <= top) by (unfold t in R0; clear - R0; lia).
  assert (Ra : 4 * Z.abs Va <= top /\ 4 * Z.abs Vb <= top /\ 2 * Z.abs (Va + Vb) <= top) by (unfold al in Hal; clear - R0 Hal T0; lia).
  destruct (add_op A B VA VB DA DB ltac:(rewrite Same; clear - R0 T0; lia)) as (S & DS & RS). pose proof (rounds_error _ _ RS) as E1.
  pose proof (branch_error A B VA VB _ S DA DB DS RS (proj1 RA) (proj2 RA)) as DE1. rewrite Same in E1.
  destruct (add_op a b Va Vb Da Db (proj2 (proj2 Ra))) as (C & DC & RC). pose proof (rounds_error _ _ RC) as E2.
  pose proof (branch_error a b Va Vb _ C Da Db DC RC (proj1 Ra) (proj1 (proj2 Ra))) as DE2.
  assert (SV : S = VA + VB - (VA + VB - S)) by (clear; lia). assert (CV : C = Va + Vb - (Va + Vb - C)) by (clear; lia).
  set (e1 := VA + VB - S) in *. set (e2 := Va + Vb - C) in *. clearbody e1 e2.
  assert (E2' : Z.abs e2 * (2 ^ 53 - 1) <= al) by (unfold al; clear - E2; lia). clear E2.
  assert (BE : Z.abs (C + e1) <= al + Z.abs e2 + Z.abs e1) by (unfold al; clear - CV; lia).
  assert (B0 : Z.abs (C + e1) <= t) by (clear - BE Hal E2' E1 T0; set (u := Z.abs (C + e1)) in *; set (v := Z.abs e1) in *; set (w := Z.abs e2) in *; assert (0 <= v) by apply Z.abs_nonneg; assert (0 <= w) by apply Z.abs_nonneg; clearbody u v w; lia).
  destruct (add_op _ _ C e1 DC DE1 ltac:(clear - R0 B0 T0; lia)) as (w1 & Dw1 & Rw1). pose proof (rounds_error _ _ Rw1) as E3.
  assert (W1V : w1 = C + e1 - (C + e1 - w1)) by (clear; lia). set (d1 := C + e1 - w1) in *. clearbody d1.
  destruct (first_bounds t al (Z.abs e1) (Z.abs e2) (Z.abs (C + e1)) (Z.abs d1)) as (_ & B1 & B2 & B3 & B4); try assumption; try apply Z.abs_nonneg.
  assert (SW : S + w1 = VA + VB + (Va + Vb) - e2 - d1) by (clear - SV CV W1V; lia).
  assert (H5 : Z.abs (S + w1) <= t + al + Z.abs e2 + Z.abs d1) by (rewrite SW; unfold al; clear - Same; lia).
  assert (L1 : Z.abs w1 <= Z.abs S) by (clear - W1V SV B1 Same; lia).
  assert (RS4 : 4 * Z.abs S <= top) by (clear - SV Same B3 R0 T0 Room; lia).
  destruct (add_op _ _ S w1 DS Dw1 ltac:(clear - H5 B2 R0; lia)) as (W & DW & RW). pose proof (rounds_error _ _ RW) as E4.
  pose proof (tail_error _ _ S w1 _ W DS Dw1 DW RW L1 RS4) as DY.
  assert (WV : W = S + w1 - (S + w1 - W)) by (clear; lia). set (y := S + w1 - W) in *. clearbody y.
  assert (H6 : Z.abs y * (2 ^ 53 - 1) <= t + al + Z.abs e2 + Z.abs d1) by (clear - E4 H5; lia).
  assert (Y0 : Z.abs (e2 + y) <= Z.abs e2 + Z.abs y) by (clear; lia).
  destruct (last_bounds t al (Z.abs e1) (Z.abs e2) (Z.abs (C + e1)) (Z.abs d1) (Z.abs y) 0) as (B5 & _); try assumption; try apply Z.abs_nonneg;
    [apply Z.le_refl|rewrite Z.mul_0_l; clear; lia|].
  destruct (add_op _ _ e2 y DE2 DY ltac:(clear - Y0 B5 R0 T0; lia)) as (w2 & Dw2 & Rw2). pose proof (rounds_error _ _ Rw2) as E5.
  assert (W2V : w2 = e2 + y - (e2 + y - w2)) by (clear; lia). set (d2 := e2 + y - w2) in *. clearbody d2.
  assert (H7 : Z.abs d2 * (2 ^ 53 - 1) <= Z.abs e2 + Z.abs y) by (clear - E5 Y0; lia).
  destruct (last_bounds t al (Z.abs e1) (Z.abs e2) (Z.abs (C + e1)) (Z.abs d1) (Z.abs y) (Z.abs d2)) as (_ & B6 & B7 & B8 & B9); try assumption; try apply Z.abs_nonneg.
  assert (L2 : Z.abs w2 <= Z.abs W) by (rewrite W2V, WV, SW; unfold al in B6; clear - B6 Same; lia).
  assert (RW4 : 4 * Z.abs W <= top) by (rewrite WV; clear - H5 B7 Room; lia).
  assert (HV : W + w2 = VA + Va + (VB + Vb) - d1 - d2) by (clear - WV W2V SW; lia).
  assert (RH : 2 * Z.abs (W + w2) <= top) by (rewrite HV; unfold al in B8; clear - B8 Room Same; lia).
  destruct (add_op _ _ W w2 DW Dw2 RH) as (h & Dh & Rh). pose proof (tail_error _ _ W w2 _ h DW Dw2 Dh Rh L2 RW4) as Dl.
  exists h, (W + w2 - h). unfold qadd_compensated. cbv zeta. rewrite !if_add, !if_add_l. cbn [hi lo].
  split; [exact Dh|]. split; [exact Dl|]. replace (h + (W + w2 - h)) with (W + w2) by (clear; lia). split; [exact Rh|].
  rewrite HV. unfold al in B9. clear - B9 Same. lia.
Qed.
End Core.

(** ** What the routines promise *)

Lemma pair_parts x v : pair x v -> exists h l, den (hi x) h /\ den (lo x) l /\ h + l = v /\
  Z.abs l * (2 ^ 53 - 2) <= Z.abs h /\ Z.abs h <= 2 * Z.abs v /\ (0 <= v -> 0 <= h) /\ (v <= 0 -> h <= 0).
Proof.
  intros (h & l & Dh & Dl & R & <-). pose proof (rounds_error _ _ R) as E. replace (h + l - h) with l in E by lia.
  destruct (rounds_sign _ _ R) as [S1 S2]. exists h, l. split; [exact Dh|]. split; [exact Dl|]. clear - E S1 S2. repeat split; auto; lia.
Qed.

(** A converted integer is such a pair. *)
Lemma dd_int_pair x a : dd_int x a -> pair x (a * U).
Proof.
  intros (n & l & Dn & Dl & _ & _ & Sum & Conv). pose proof (@unit_pos double_precision) as HU.
  exists (n * U), (l * U). split; [exact Dn|]. split; [exact Dl|]. split; [|rewrite <- Sum; ring].
  destruct (head_signs x a n Dn Conv) as (S1 & S2 & V). destruct Dn as (_ & F & _). unfold is_finite in F. apply Z.ltb_lt in F.
  destruct Conv as (_ & _ & R). exists (@fp_abs double_precision (hi x)). split; [exact F|].
  split; [rewrite Z.abs_mul, (Z.abs_eq U) by lia; exact R|]. rewrite V. destruct (Z.ltb_spec (a * U) 0); nia.
Qed.

Lemma not_both_zero A B VA VB : den A VA -> den B VB -> Z.abs VA + Z.abs VB <> 0 ->
  (__eqdf2 A 0 =? 0) && (__eqdf2 B 0 =? 0) = false.
Proof.
  intros DA DB N. destruct (compare_denotes A 0 VA 0 DA zero_denotes) as (_ & -> & _). destruct (compare_denotes B 0 VB 0 DB zero_denotes) as (_ & -> & _).
  destruct (Z.eqb_spec VA 0), (Z.eqb_spec VB 0); try reflexivity. lia.
Qed.

Lemma qadd_body_spec A a B b VA Va VB Vb : den A VA -> den a Va -> den B VB -> den b Vb ->
  Z.abs Va * (2 ^ 53 - 2) <= Z.abs VA -> Z.abs Vb * (2 ^ 53 - 2) <= Z.abs VB ->
  Z.abs (VA + VB) = Z.abs VA + Z.abs VB -> 8 * (Z.abs VA + Z.abs VB) <= top ->
  exists v, pair (qadd_body A a B b) v /\ Z.abs (v - (VA + Va + (VB + Vb))) * 2 ^ 104 <= Z.abs (VA + Va + (VB + Vb)).
Proof.
  intros DA Da DB Db Ha Hb Same Room. unfold qadd_body. destruct (Z.eq_dec (Z.abs VA + Z.abs VB) 0) as [Z0|NZ].
  - assert (VA = 0) as -> by lia. assert (VB = 0) as -> by lia. assert (Va = 0) as -> by lia. assert (Vb = 0) as -> by lia.
    destruct (compare_denotes A 0 0 0 DA zero_denotes) as (_ & -> & _). destruct (compare_denotes B 0 0 0 DB zero_denotes) as (_ & -> & _).
    pose proof (@representable_zero double_precision) as RZ. exists 0. split; [|vm_compute; congruence].
    exists 0, 0. split; [exact (@add_exact double_precision double_ops A B 0 0 DA DB RZ)|]. split; [exact zero_denotes|].
    split; [now apply rounds_self|reflexivity].
  - rewrite (not_both_zero A B VA VB DA DB NZ), (exponent_full_finite A VA DA), (exponent_full_finite B VB DB). cbn [orb].
    assert (Z.abs Va + Z.abs Vb <= Z.abs VA + Z.abs VB) as Small by lia.
    destruct (add_op a b Va Vb Da Db ltac:(lia)) as (C & DC & RC). pose proof (rounds_error _ _ RC) as EC.
    assert (BC : Z.abs C <= 2 * (Z.abs Va + Z.abs Vb)) by (clear - EC; lia).
    destruct (add_op B _ VB C DB DC ltac:(clear - BC Small Room; lia)) as (D & DD & RD). pose proof (rounds_error _ _ RD) as ED.
    assert (BD : Z.abs D <= Z.abs VB + 2 * (Z.abs Va + Z.abs Vb) + (Z.abs VA + Z.abs VB)) by (clear - ED BC Ha Hb; lia).
    assert (BT : 2 * Z.abs (VA + D) <= top) by (clear - BD Ha Hb Room; lia).
    destruct (add_op A _ VA D DA DD BT) as (T & DT & _). rewrite (exponent_full_finite _ T DT).
    destruct (compensated_spec A a B b VA Va VB Vb DA Da DB Db Ha Hb Same Room) as (h & l & Dh & Dl & R & E).
    exists (h + l). split; [exists h, l; auto|exact E].
Qed.

Lemma qadd_spec x y v w : pair x v -> pair y w -> 16 * (Z.abs v + Z.abs w) <= top ->
  ((0 <= v /\ 0 <= w) \/ (v <= 0 /\ w <= 0) ->
     exists s, pair (__gcc_qadd x y) s /\ Z.abs (s - (v + w)) * 2 ^ 104 <= Z.abs (v + w)) /\
  ((0 <= v /\ w <= 0) \/ (v <= 0 /\ 0 <= w) ->
     exists s, pair (__gcc_qsub x y) s /\ Z.abs (s - (v - w)) * 2 ^ 104 <= Z.abs (v - w)).
Proof.
  intros P Q Room. destruct (pair_parts x v P) as (A & a & DA & Da & <- & Ha & Ba & Sa1 & Sa2).
  destruct (pair_parts y w Q) as (B & b & DB & Db & <- & Hb & Bb & Sb1 & Sb2). split; intros S.
  - apply (qadd_body_spec _ _ _ _ A a B b); auto; [|lia]. clear - S Sa1 Sa2 Sb1 Sb2. lia.
  - replace (A + a - (B + b)) with (A + a + (- B + - b)) by lia.
    apply (qadd_body_spec _ _ _ _ A a (- B) (- b)); try assumption;
      [exact (@neg_denotes double_precision _ _ DB)|exact (@neg_denotes double_precision _ _ Db)|rewrite !Z.abs_opp; exact Hb| |].
    + clear - S Sa1 Sa2 Sb1 Sb2. lia.
    + rewrite Z.abs_opp. clear - Ba Bb Room. lia.
Qed.

(** C14: The sum of two pairs of the same sign, and the difference of two of
    opposite signs, is again a pair, worth the exact result to within one part
    in [2^104], as long as the operands are an eighth of the largest number or
    less. *)
Theorem qadd_accurate x y v w : pair x v -> pair y w -> 16 * (Z.abs v + Z.abs w) <= top ->
  ((0 <= v /\ 0 <= w) \/ (v <= 0 /\ w <= 0) ->
     exists s, pair (__gcc_qadd x y) s /\ Z.abs (s - (v + w)) * 2 ^ 104 <= Z.abs (v + w)) /\
  ((0 <= v /\ w <= 0) \/ (v <= 0 /\ 0 <= w) ->
     exists s, pair (__gcc_qsub x y) s /\ Z.abs (s - (v - w)) * 2 ^ 104 <= Z.abs (v - w)).
Proof. intros P Q Room. now apply qadd_spec. Qed.

Lemma exponent_full_spec r : is_uint 64 r -> @is_finite double_precision r = false -> exponent_full r = true.
Proof.
  intros Ur F. unfold exponent_full, infinityHi. rewrite (proj1 (head_word r Ur)).
  change 0x7ff00000 with ((2 ^ 11 - 1) * 2 ^ 20) at 1. rewrite land_field, Z.div_div by lia. change (2 ^ 32 * 2 ^ 20) with (2 ^ 52).
  destruct (df_exponent_field r Ur) as [E B]. unfold is_uint in Ur. assert (R : 0 <= r / 2 ^ 52 < 4096) by (Z.div_mod_to_equations; lia).
  rewrite shr_spec, sint_small in E by (unfold is_sint; lia). change 0x7ff with (Z.ones 11) in E. rewrite Z.land_ones in E by lia. rewrite E.
  unfold is_finite in F. apply Z.ltb_ge in F. change (@infRep double_precision) with (2047 * 2 ^ 52) in F.
  assert (2047 <= exponent_of r) by (apply Z.div_le_lower_bound; lia). apply Z.eqb_eq. change (Z.ones 11) with 2047 in B. lia.
Qed.

(** An infinite or NaN operand decides the result: it is the [double] sum of
    the heads, with an empty tail. *)
Theorem qadd_nonfinite x y : is_uint 64 (hi x) -> is_uint 64 (hi y) ->
  @is_finite double_precision (hi x) = false \/ @is_finite double_precision (hi y) = false ->
  __gcc_qadd x y = {| hi := hi x [+] hi y; lo := 0 |}.
Proof.
  intros Ux Uy F. unfold __gcc_qadd, qadd_body. destruct ((__eqdf2 (hi x) 0 =? 0) && (__eqdf2 (hi y) 0 =? 0)); [reflexivity|].
  destruct F as [F|F]; [rewrite (exponent_full_spec _ Ux F)|rewrite (exponent_full_spec _ Uy F), orb_true_r]; reflexivity.
Qed.

Lemma qadd_nonfinite_witness : __gcc_qadd {| hi := 0x7ff0000000000000; lo := 0 |} {| hi := 0x3ff0000000000000; lo := 0 |} = {| hi := 0x7ff0000000000000; lo := 0 |}.
Proof.
  rewrite (qadd_nonfinite {| hi := 0x7ff0000000000000; lo := 0 |} {| hi := 0x3ff0000000000000; lo := 0 |});
    [vm_compute; reflexivity|split; vm_compute; congruence|split; vm_compute; congruence|left; reflexivity].
Defined.

(** Witness: [(1 + 2^-60) + (2^-3 - 2^-70)], as two pairs. *)
Lemma qadd_accurate_witness : exists s, pair (__gcc_qadd {| hi := 0x3ff0000000000000; lo := 0x3c30000000000000 |} {| hi := 0x3fc0000000000000; lo := 0xbb90000000000000 |}) s /\
  Z.abs (s - (2 ^ 1074 + 2 ^ 1014 + (2 ^ 1071 - 2 ^ 1004))) * 2 ^ 104 <= Z.abs (2 ^ 1074 + 2 ^ 1014 + (2 ^ 1071 - 2 ^ 1004)).
Proof.
  assert (P : pair {| hi := 0x3ff0000000000000; lo := 0x3c30000000000000 |} (2 ^ 1074 + 2 ^ 1014)).
  { exists (2 ^ 1074), (2 ^ 1014). split; [repeat split; vm_compute; congruence|]. split; [repeat split; vm_compute; congruence|].
    split; [|reflexivity]. exists 0x3ff0000000000000. vm_compute. intuition congruence. }
  assert (Q : pair {| hi := 0x3fc0000000000000; lo := 0xbb90000000000000 |} (2 ^ 1071 - 2 ^ 1004)).
  { exists (2 ^ 1071), (- 2 ^ 1004). split; [repeat split; vm_compute; congruence|]. split; [repeat split; vm_compute; congruence|].
    split; [|reflexivity]. exists 0x3fc0000000000000. vm_compute. intuition congruence. }
  apply (proj1 (qadd_accurate _ _ _ _ P Q ltac:(vm_compute; congruence))). left. split; vm_compute; congruence.
Defined.
