(* ===== verification/DdWide.v ===== *)
(** * PowerPC long double: 128-bit integers

    Models [ppc/fixunstfti.c] and [ppc/fixtfti.c]: a pair of doubles to a
    128-bit integer.  The two halves are converted separately, through 64-bit
    integers and a shift, and the sum is corrected when a negative tail has a
    fraction.  A comparison of long doubles compares the heads and, when they
    are equal, the tails. *)

From S2P Require Import Prelude IntBits FpLib FpSpec FpAdd FpMul FpCompare FpConv FpInt FpDiv FpExact HardFloat DoubleDouble DdAdd.

Definition BIAS : Z := 1023.

(** [x < y] for a pair and a double. *)
Definition dd_lt (x : DD) (y : Z) : bool :=
  (__ltdf2 (hi x) y <? 0) || (__eqdf2 (hi x) y =? 0) && (__ltdf2 (lo x) 0 <? 0).

Definition dd_neg (x : DD) : DD := {| hi := __negdf2 (hi x); lo := __negdf2 (lo x) |}.

Definition dd_isnan (x : DD) : bool := nonzero (__unorddf2 (hi x) (hi x)).

(** [((bits & 0x7FF..) >> 52) - BIAS] *)
Definition unbiased (bits : Z) : Z := sint 32 (((bits .& 0x7FFFFFFFFFFFFFFF) >>[64] 52) -[64] BIAS).

(** The exponent replaced by the one of [0x1.0p54]. *)
Definition scaled (bits : Z) : Z := (bits .& 0x800FFFFFFFFFFFFF) .| 0x4350000000000000.

Definition fixunstfti_hi (d0 : Z) : option Z :=
  let hiExponent := unbiased d0 in
  if hiExponent <? 63 then Some (__fixunsdfdi d0)
  else if hiExponent <? 128 then
    let shift := hiExponent - 54 in
    Some (__fixunsdfdi (scaled d0) <<[128] shift)
  else None.

Definition fixunstfti_lo (d1 : Z) : Z :=
  let loExponent := unbiased d1 in
  if loExponent <? 63 then uint 128 (__fixdfdi d1)
  else
    let shift := loExponent - 54 in
    uint 128 (__fixdfdi (scaled d1)) <<[128] shift.

Definition __fixunstfti_dd (input : DD) : Z :=
  if dd_isnan input then (0x7FF8000000000000 <<[128] 64) .| 0
  else if dd_lt input one_df then 0
  else
    match fixunstfti_hi (hi input) with
    | None =>
        if 0 <? __gtdf2 (hi input) 0 then (0xFFFFFFFFFFFFFFFF <<[128] 64) .| 0xFFFFFFFFFFFFFFFF
        else (0 <<[128] 64) .| 1
    | Some hiResult =>
        let loResult := fixunstfti_lo (lo input) in
        let loResult :=
          if (__eqdf2 (hi input) (__floatuntidf hiResult) =? 0) && (__ltdf2 (lo input) (__floattidf (sint 128 loResult)) <? 0)
          then loResult -[128] 1 else loResult in
        loResult +[128] hiResult
    end.

Definition __fixtfti_dd (input : DD) : Z :=
  if dd_isnan input then sint 128 ((0x7FF8000000000000 <<[128] 64) .| 0)
  else if dd_lt input 0 then
    let result := __fixunstfti_dd (dd_neg input) in
    sopp 128 (sint 128 result)
  else
    let result := __fixunstfti_dd input in
    sint 128 result.

(** ** The halves *)

Lemma unbiased_spec r : is_uint 64 r -> unbiased r = exponent_of r - 1023.
Proof.
  intros R. destruct (df_exponent_field r R) as [_ B]. unfold unbiased, BIAS. change 0x7FFFFFFFFFFFFFFF with (Z.ones 63).
  rewrite Z.land_ones, shr_spec, <- abs_mod by lia. unfold usub, uint. apply sint_of_eqm; [lia|unfold is_sint; lia|].
  apply (eqm_lower 64); [lia|]. apply Z.mod_mod. lia.
Qed.

(** Scaling keeps the sign and the significand. *)
Lemma scaled_spec r v : den r v -> 1 <= exponent_of r ->
  dbl (scaled r) ((if negative r then - mantissa_of r else mantissa_of r) * 2 ^ 2).
Proof.
  intros D He. pose proof (proj1 D) as Ur. destruct (mantissa_field r Ur) as [_ M]. destruct (rep_parts r Ur) as (Er & A & _).
  change (2 ^ (@typeWidth double_precision - 1)) with (2 ^ 63) in A.
  set (f := @fp_abs double_precision r mod 2 ^ 52) in *. assert (F0 : 0 <= f < 2 ^ 52) by (apply Z.mod_pos_bound; lia).
  assert (S : scaled r = @with_sign double_precision (negative r) (0x435 * 2 ^ 52 + f)).
  { unfold scaled. replace 0x800FFFFFFFFFFFFF with (Z.lor (1 * 2 ^ 63) (Z.ones 52)) by reflexivity.
    rewrite Z.land_lor_distr_r, Z.land_ones by lia.
    assert (E1 : Z.land r (1 * 2 ^ 63) = if negative r then 2 ^ 63 else 0).
    { destruct (rep_parts r Ur) as (_ & _ & _ & Sg). exact Sg. }
    assert (E2 : r mod 2 ^ 52 = f) by (unfold f; rewrite abs_mod; Z.div_mod_to_equations; lia).
    rewrite E1, E2. change 0x4350000000000000 with (0x435 * 2 ^ 52). rewrite <- Z.lor_assoc, (Z.lor_comm f), lor_add_disjoint by lia.
    unfold with_sign. change (2 ^ (@typeWidth double_precision - 1)) with (1 * 2 ^ 63). change (2 ^ 63) with (1 * 2 ^ 63).
    destruct (negative r); [apply lor_add_disjoint; lia|apply Z.lor_0_l]. }
  rewrite S. apply (@denotes_with_sign double_precision); [change (@infRep double_precision) with (2047 * 2 ^ 52); lia| |].
  - replace (0x435 * 2 ^ 52 + f) with ((0x435 - 1) * 2 ^ 52 + (2 ^ 52 + f)) by ring.
    etransitivity; [apply (@fpval_parts double_precision 0x435 (2 ^ 52 + f)); change (@significandBits double_precision) with 52; lia|].
    change (2 ^ (0x435 - 1)) with (2 ^ 2 * U). destruct (negative r); rewrite Z.abs_mul, (Z.abs_eq U), Z.abs_mul by apply Z.pow_nonneg, Z.le_0_2; lia.
  - intros _. pose proof (@unit_pos double_precision). destruct (negative r); symmetry; [apply Z.ltb_lt|apply Z.ltb_ge]; nia.
Qed.

Lemma not_below_one r v : den r v -> U <= Z.abs v -> 1023 <= exponent_of r.
Proof.
  intros D L. apply Z.nlt_ge. intros G. pose proof (below_one r v D G) as B. change U with (2 ^ 53 * 2 ^ 1021) in L. lia.
Qed.

(** The integer part of a double has at most 53 significant bits. *)
Lemma quot_fits53 r v : den r v -> exponent_of r < 1200 -> fits53 (Z.quot v U).
Proof.
  intros D E. pose proof (@unit_pos double_precision) as HU. destruct (mantissa_field r (proj1 D)) as [_ M].
  destruct (Z.lt_ge_cases (exponent_of r) 1075) as [L|L].
  - apply fits53_small. assert (B : Z.abs v <= 2 ^ 53 * U).
    { destruct (Z.lt_ge_cases (exponent_of r) 1023) as [G|G]; [pose proof (below_one r v D G) as B; change U with (2 ^ 53 * 2 ^ 1021); lia|].
      destruct (value_fields r v D ltac:(lia)) as [V _]. assert (2 ^ (exponent_of r - 1) <= U) by (rewrite U_val; apply Z.pow_le_mono_r; lia).
      assert (0 < 2 ^ (exponent_of r - 1)) by (apply pow2_pos; lia). destruct (negative r); nia. }
    rewrite <- Z.quot_abs, (Z.abs_eq U) by lia. apply Z.quot_le_upper_bound; lia.
  - destruct (value_fields r v D ltac:(lia)) as [V _].
    assert (V' : v = (if negative r then - mantissa_of r else mantissa_of r) * 2 ^ (exponent_of r - 1075) * U)
      by (rewrite V, U_val, <- Z.mul_assoc, <- Z.pow_add_r by lia; replace (exponent_of r - 1075 + 1074) with (exponent_of r - 1) by lia; destruct (negative r); ring).
    rewrite V', Z.quot_mul by lia. apply fits53_mul; [lia|destruct (negative r); lia].
Qed.

Section Halves.
Context (d : Z) (v : Z) (D : den d v).
Let E := exponent_of d.

Lemma hi_spec : U <= v -> fixunstfti_hi d = (if v <? 2 ^ 128 * U then Some (v / U) else None) /\ (v < 2 ^ 128 * U -> E < 1151).
Proof using D.
  intros Hv. pose proof (@unit_pos double_precision) as HU. pose proof (proj1 D) as Ud. destruct (mantissa_field d Ud) as [_ M].
  assert (HE : 1023 <= E) by (apply (not_below_one d v D); lia). destruct (value_fields d v D ltac:(unfold E in HE; lia)) as [V _]. fold E in V.
  assert (P : 0 < 2 ^ (E - 1)) by (apply pow2_pos; lia). assert (Nn : negative d = false) by (destruct (negative d); [nia|reflexivity]). rewrite Nn in V.
  unfold fixunstfti_hi. rewrite (unbiased_spec d Ud). fold E.
  assert (T : v < 2 ^ 128 * U <-> E < 1151).
  { rewrite U_val, <- Z.pow_add_r by lia. split; intros G.
    - apply Z.nle_gt. intros Q. assert (2 ^ 1150 <= 2 ^ (E - 1)) by (apply Z.pow_le_mono_r; lia). change (2 ^ (128 + 1074)) with (2 ^ 52 * 2 ^ 1150) in G. nia.
    - assert (2 ^ (E - 1) <= 2 ^ 1149) by (apply Z.pow_le_mono_r; lia). change (2 ^ (128 + 1074)) with (2 ^ 53 * 2 ^ 1149). nia. }
  split; [|apply T]. destruct (Z.ltb_spec (E - 1023) 63) as [C|C].
  - assert (v < 2 ^ 64 * U).
    { rewrite U_val, <- Z.pow_add_r by lia. assert (2 ^ (E - 1) <= 2 ^ 1085) by (apply Z.pow_le_mono_r; lia). change (2 ^ (64 + 1074)) with (2 ^ 53 * 2 ^ 1085). nia. }
    rewrite (proj2 (Z.ltb_lt _ _) (proj2 T ltac:(lia))). unfold __fixunsdfdi.
    rewrite (fixuns_denotes double_precision 64 ltac:(apply bias_double) ltac:(apply bias_double) d v D) by assumption. now rewrite (proj2 (Z.ltb_ge v 0)) by lia.
  - destruct (Z.ltb_spec (E - 1023) 128) as [C'|C'].
    2:{ rewrite (proj2 (Z.ltb_ge _ _)); [reflexivity|]. apply Z.nlt_ge. intros G. apply T in G. lia. }
    rewrite (proj2 (Z.ltb_lt _ _) (proj2 T ltac:(lia))). f_equal. pose proof (scaled_spec d v D ltac:(unfold E in HE; lia)) as Ds. rewrite Nn in Ds.
    unfold __fixunsdfdi. rewrite (fixuns_denotes double_precision 64 ltac:(apply bias_double) ltac:(apply bias_double) _ _ Ds) by nia.
    rewrite (proj2 (Z.ltb_ge _ 0)), Z.div_mul, ushl_spec by nia.
    assert (V' : v = mantissa_of d * 2 ^ 2 * 2 ^ (E - 1023 - 54) * U) by (rewrite V, U_val, <- !Z.mul_assoc, <- !Z.pow_add_r by lia; do 2 f_equal; lia).
    assert (Q : v / U = mantissa_of d * 2 ^ 2 * 2 ^ (E - 1023 - 54)) by (rewrite V' at 1; apply Z.div_mul; lia). rewrite Q.
    apply uint_small. rewrite <- Q. split; [apply Z.div_pos; lia|]. apply Z.div_lt_upper_bound; [lia|]. pose proof (proj2 T ltac:(lia)). lia.
Qed.

Lemma lo_spec : Z.abs v <= 2 ^ 76 * U -> fixunstfti_lo d = uint 128 (Z.quot v U).
Proof using D.
  intros Hv. pose proof (@unit_pos double_precision) as HU. pose proof (proj1 D) as Ud. destruct (mantissa_field d Ud) as [_ M].
  unfold fixunstfti_lo. rewrite (unbiased_spec d Ud). fold E. destruct (Z.ltb_spec (E - 1023) 63) as [C|C].
  - f_equal. assert (B : Z.abs v < 2 ^ 63 * U).
    { destruct (Z.lt_ge_cases E 1023) as [G|G]; [pose proof (below_one d v D G) as B; change U with (2 ^ 53 * 2 ^ 1021); lia|].
      destruct (value_fields d v D ltac:(unfold E in G; lia)) as [V _]. fold E in V. rewrite U_val. change (2 ^ 63 * 2 ^ 1074) with (2 ^ 53 * 2 ^ 1084).
      assert (2 ^ (E - 1) <= 2 ^ 1084) by (apply Z.pow_le_mono_r; lia). assert (0 < 2 ^ (E - 1)) by (apply pow2_pos; lia). destruct (negative d); nia. }
    unfold __fixdfdi. rewrite (fixint_denotes double_precision 64 ltac:(apply bias_double) ltac:(apply bias_double) d v D) by lia.
    apply sint_small; [lia|]. assert (Z.abs (Z.quot v U) < 2 ^ 63); [|unfold is_sint; lia].
    rewrite <- Z.quot_abs, (Z.abs_eq U) by lia. apply Z.quot_lt_upper_bound; lia.
  - destruct (value_fields d v D ltac:(unfold E in C; lia)) as [V _]. fold E in V. assert (P : 0 < 2 ^ (E - 1)) by (apply pow2_pos; lia).
    assert (HE : E < 1150).
    { apply Z.nle_gt. intros G. assert (2 ^ 1149 <= 2 ^ (E - 1)) by (apply Z.pow_le_mono_r; lia). rewrite U_val in Hv. change (2 ^ 76 * 2 ^ 1074) with (2 * 2 ^ 1149) in Hv. destruct (negative d); nia. }
    pose proof (scaled_spec d v D ltac:(unfold E in C; lia)) as Ds. set (s := if negative d then - mantissa_of d else mantissa_of d) in *.
    assert (Bs : Z.abs s < 2 ^ 53) by (unfold s; destruct (negative d); lia).
    unfold __fixdfdi. rewrite (fixint_denotes double_precision 64 ltac:(apply bias_double) ltac:(apply bias_double) _ _ Ds) by (rewrite Z.abs_mul, (Z.abs_eq U) by lia; nia).
    rewrite Z.quot_mul, sint_small, ushl_spec by (unfold is_sint; lia).
    assert (V' : v = s * 2 ^ 2 * 2 ^ (E - 1023 - 54) * U)
      by (unfold s; rewrite V, U_val, <- !Z.mul_assoc, <- !Z.pow_add_r by lia; replace (2 + (E - 1023 - 54 + 1074)) with (E - 1) by lia; destruct (negative d); ring).
    rewrite V', Z.quot_mul by lia. apply uint_of_eqm; [apply Z.mod_pos_bound; lia|]. now rewrite !uint_eqm.
Qed.
End Halves.

(** ** Comparisons of pairs *)

Lemma rounds_le z s t : rnd z s -> @representable double_precision t -> (z <= t -> s <= t) /\ (t <= z -> t <= s).
Proof. intros R T. pose proof (rounds_best z s t R T). lia. Qed.

Lemma dd_lt_spec x v y w : pair x v -> den y w -> dd_lt x y = (v <? w).
Proof.
  intros (h & l & Dh & Dl & R & E) Dy. destruct (rounds_le v h w R (denotes_representable y w Dy)) as [R1 R2]. unfold dd_lt.
  destruct (compare_denotes _ _ _ _ Dh Dy) as (-> & -> & _). destruct (compare_denotes _ _ _ _ Dl zero_denotes) as (-> & _).
  apply Bool.eq_iff_eq_true. rewrite orb_true_iff, andb_true_iff, !Z.ltb_lt, Z.eqb_eq. lia.
Qed.

Lemma dd_isnan_spec x v : pair x v -> dd_isnan x = false.
Proof.
  intros (h & l & Dh & _). unfold dd_isnan, __unorddf2. destruct (@le_spec double_precision (hi x) (hi x) (proj1 Dh) (proj1 Dh)) as (_ & _ & ->).
  now rewrite (denotes_not_nan _ _ Dh).
Qed.

Lemma dd_neg_spec x v : pair x v -> pair (dd_neg x) (- v).
Proof.
  intros (h & l & Dh & Dl & R & E). exists (- h), (- l). split; [exact (@neg_denotes double_precision _ _ Dh)|].
  split; [exact (@neg_denotes double_precision _ _ Dl)|]. split; [|lia]. destruct R as (r & Hr & Rr & V). exists r. split; [exact Hr|].
  rewrite Z.abs_opp. split; [exact Rr|]. destruct (Z.eq_dec v 0) as [->|N].
  - destruct (@round_exact double_precision 0 1 r ltac:(lia) (@representable_zero double_precision)) as [_ F]; [exact Rr|]. rewrite F in *. destruct (0 <? 0), (- 0 <? 0); lia.
  - destruct (Z.ltb_spec v 0), (Z.ltb_spec (- v) 0); lia.
Qed.

(** ** The sum of the halves *)

(** A head with a fraction: the tail does not reach the next integer. *)
Lemma fraction_floor v h l : rnd v h -> h + l = v -> h <> h / U * U -> v / U = h / U /\ Z.abs l < U.
Proof.
  intros R E N. pose proof (@unit_pos double_precision) as HU. destruct (rounds_ulp v h R) as (q & k & Hq & Hk & V & _ & D).
  replace (v - h) with l in D by lia. assert (P : 0 < 2 ^ k) by (apply pow2_pos; lia).
  assert (K : k < 1074).
  { apply Z.nle_gt. intros G. apply N. destruct (divides_ulp 1074 h q k ltac:(lia) V) as (c & Ec). rewrite Ec, U_val, Z.div_mul by lia. reflexivity. }
  assert (Mh : (2 ^ k | h)) by (apply (divides_ulp k h q k); [lia|exact V]).
  assert (MU : (2 ^ k | U)) by (rewrite U_val; exists (2 ^ (1074 - k)); rewrite <- Z.pow_add_r by lia; f_equal; lia).
  assert (KU : 2 ^ k <= U) by (apply Z.divide_pos_le; assumption).
  pose proof (Z.div_mod h U ltac:(lia)) as Dm. pose proof (Z.mod_pos_bound h U HU) as M.
  assert (Mr : (2 ^ k | h mod U)) by (rewrite Z.mod_eq by lia; apply Z.divide_sub_r; [exact Mh|now apply Z.divide_mul_l]).
  assert (L1 : 2 ^ k <= h mod U) by (apply Z.divide_pos_le; [lia|exact Mr]).
  assert (L2 : 2 ^ k <= U - h mod U) by (apply Z.divide_pos_le; [lia|now apply Z.divide_sub_r]).
  split; [|lia]. symmetry. apply Z.div_unique with (h mod U + l); lia.
Qed.

Lemma quot_floor l : l / U = if l <? Z.quot l U * U then Z.quot l U - 1 else Z.quot l U.
Proof.
  pose proof (@unit_pos double_precision) as HU. symmetry. destruct (Z.lt_ge_cases l 0) as [G|G].
  - assert (Q : Z.quot l U = - (- l / U)) by (rewrite <- Z.quot_div_nonneg, Z.quot_opp_l by lia; lia). rewrite Q.
    pose proof (Z.div_mod (- l) U ltac:(lia)) as D. pose proof (Z.mod_pos_bound (- l) U HU) as M.
    case_cmp; [apply Z.div_unique with (U - - l mod U)|apply Z.div_unique with 0]; lia.
  - rewrite Z.quot_div_nonneg by lia. pose proof (Z.div_mod l U ltac:(lia)). pose proof (Z.mod_pos_bound l U HU). case_cmp; lia.
Qed.

Lemma float128_dbl n : fits53 n -> (is_uint 128 n -> dbl (__floatuntidf n) n) /\ (is_sint 128 n -> dbl (__floattidf n) n).
Proof.
  intros F. split; intros R; apply converts_dbl; try exact F.
  - exact (float_df_spec false 128 clz128 clz128_spec n ltac:(lia) R).
  - exact (float_df_spec true 128 clz128 clz128_spec n ltac:(lia) R).
Qed.

Lemma fixunstfti_value x v h l : den (hi x) h -> den (lo x) l -> rnd v h -> h + l = v -> U <= v ->
  __fixunstfti_dd x = if h <? 2 ^ 128 * U then v / U else 2 ^ 128 - 1.
Proof.
  intros Dh Dl R E Hv. pose proof (@unit_pos double_precision) as HU. assert (P : pair x v) by (exists h, l; auto).
  assert (D1 : den one_df U) by (repeat split; vm_compute; congruence).
  assert (Hh : U <= h) by (apply (rounds_le v h U R); [exact (denotes_representable _ _ D1)|exact Hv]).
  unfold __fixunstfti_dd. rewrite (dd_isnan_spec x v P), (dd_lt_spec x v _ U P D1), (proj2 (Z.ltb_ge v U) Hv).
  destruct (hi_spec (hi x) h Dh Hh) as [-> HE]. case_cmp.
  2:{ destruct (compare_denotes _ _ _ _ Dh zero_denotes) as (_ & _ & _ & ->). rewrite (proj2 (Z.ltb_lt 0 h)) by lia. reflexivity. }
  pose proof (rounds_error _ _ R) as ER. replace (v - h) with l in ER by lia. assert (Bl : Z.abs l <= 2 ^ 76 * U) by lia.
  rewrite (lo_spec (lo x) l Dl Bl). set (n := h / U). set (q := Z.quot l U).
  assert (Bn : 0 <= n < 2 ^ 128) by (split; [apply Z.div_pos; lia|apply Z.div_lt_upper_bound; lia]).
  assert (Bq : Z.abs q <= 2 ^ 76) by (unfold q; rewrite <- Z.quot_abs, (Z.abs_eq U) by lia; apply Z.quot_le_upper_bound; lia).
  assert (Fn : fits53 n) by (unfold n; rewrite <- Z.quot_div_nonneg by lia; apply (quot_fits53 (hi x)); [exact Dh|specialize (HE ltac:(lia)); lia]).
  assert (Fq : fits53 q).
  { apply (quot_fits53 (lo x)); [exact Dl|]. apply Z.nle_gt. intros G. destruct (value_fields _ _ Dl ltac:(lia)) as [V _]. destruct (mantissa_field _ (proj1 Dl)) as [_ M].
    assert (2 ^ 1199 <= 2 ^ (exponent_of (lo x) - 1)) by (apply Z.pow_le_mono_r; lia). change (2 ^ 1199) with (2 ^ 125 * U) in *.
    set (y := 2 ^ (exponent_of (lo x) - 1)) in *. clearbody y. destruct (negative (lo x)); nia. }
  rewrite sint_uint, sint_small by (unfold is_sint; lia).
  destruct (compare_denotes _ _ _ _ Dh (proj1 (float128_dbl n Fn) Bn)) as (_ & -> & _).
  destruct (compare_denotes _ _ _ _ Dl (proj2 (float128_dbl q Fq) ltac:(unfold is_sint; lia))) as (-> & _).
  assert (Rv : 0 <= v / U < 2 ^ 128).
  { split; [apply Z.div_pos; lia|]. apply Z.div_lt_upper_bound; [lia|]. apply Z.nle_gt. intros G.
    assert (RT : @representable double_precision (2 ^ 128 * U)) by (apply fits53_representable; exists 1, 128; vm_compute; intuition congruence).
    pose proof (proj2 (rounds_le v h _ R RT) ltac:(lia)). lia. }
  assert (Sum : v / U = (if (h =? n * U) && (l <? q * U) then q - 1 else q) + n).
  { destruct (Z.eqb_spec h (n * U)) as [I|I]; cbn [andb].
    - unfold q. rewrite <- quot_floor, <- E, I, Z.div_add_l by lia. lia.
    - destruct (fraction_floor v h l R E I) as [-> L]. assert (q = 0) as -> by (apply Z.quot_small_iff; lia). reflexivity. }
  rewrite Sum. rewrite Sum in Rv. clear - Rv. unfold uadd, usub. destruct ((h =? n * U) && (l <? q * U)); apply uint_of_eqm; try exact Rv; now rewrite ?uint_eqm.
Qed.

(** ** The conversions *)

Lemma fixunstfti_spec x v h : pair x v -> den (hi x) h ->
  __fixunstfti_dd x = if v <? U then 0 else if h <? 2 ^ 128 * U then v / U else 2 ^ 128 - 1.
Proof.
  intros P Dh. assert (D1 : den one_df U) by (repeat split; vm_compute; congruence). destruct (Z.ltb_spec v U) as [L|L].
  - unfold __fixunstfti_dd. now rewrite (dd_isnan_spec x v P), (dd_lt_spec x v _ U P D1), (proj2 (Z.ltb_lt v U) L).
  - destruct P as (h' & l & Dh' & Dl & R & E). rewrite (den_unique _ _ _ Dh Dh'). now apply (fixunstfti_value x v h' l).
Qed.

Lemma magnitude_bound x v h k : pair x v -> den (hi x) h -> 0 <= k <= 200 -> Z.abs h < 2 ^ k * U -> Z.abs v < 2 ^ k * U.
Proof.
  intros (h' & l & Dh' & _ & R & _) Dh Hk B. rewrite (den_unique _ _ _ Dh Dh') in B.
  assert (RT : @representable double_precision (2 ^ k * U)).
  { apply fits53_representable. exists 1, k. split; [lia|]. split; [lia|]. rewrite Z.mul_1_l. apply Z.abs_eq. apply Z.pow_nonneg. lia. }
  pose proof (rounds_le v h' _ R RT) as R1. pose proof (rounds_le v h' _ R (@representable_opp double_precision _ RT)) as R2. lia.
Qed.

Lemma fixtfti_spec x v h : pair x v -> den (hi x) h -> Z.abs h < 2 ^ 127 * U -> __fixtfti_dd x = Z.quot v U.
Proof.
  intros P Dh B. pose proof (@unit_pos double_precision) as HU.
  pose proof (magnitude_bound x v h 127 P Dh ltac:(lia) B) as Bv. unfold __fixtfti_dd.
  rewrite (dd_isnan_spec x v P), (dd_lt_spec x v 0 0 P zero_denotes). case_cmp.
  - rewrite (fixunstfti_spec (dd_neg x) (- v) (- h) (dd_neg_spec x v P) (@neg_denotes double_precision _ _ Dh)).
    assert (Q : Z.quot v U = - (- v / U)) by (rewrite <- Z.quot_div_nonneg, Z.quot_opp_l by lia; lia).
    assert (R : 0 <= - v / U < 2 ^ 127) by (split; [apply Z.div_pos; lia|apply Z.div_lt_upper_bound; lia]).
    rewrite (proj2 (Z.ltb_lt (- h) _)) by lia. destruct (Z.ltb_spec (- v) U) as [S|S]; [rewrite (Z.div_small (- v)) in * by lia|];
      unfold sopp; rewrite (sint_small 128 (- v / U)) || rewrite (sint_small 128 0); try (unfold is_sint; lia); rewrite ?sint_small by (unfold is_sint; lia); lia.
  - rewrite (fixunstfti_spec x v h P Dh), (proj2 (Z.ltb_lt h _)), Z.quot_div_nonneg by lia.
    assert (R : 0 <= v / U < 2 ^ 127) by (split; [apply Z.div_pos; lia|apply Z.div_lt_upper_bound; lia]).
    destruct (Z.ltb_spec v U) as [S|S]; [rewrite (Z.div_small v) in * by lia|]; apply sint_small; unfold is_sint; lia.
Qed.

(** C16: The conversions of a pair to 128-bit integers truncate its value towards
    zero.  The unsigned one gives 0 below 1 and, like the 64-bit ones, saturates
    as soon as the head has reached the power of two beyond the type. *)
Theorem pair_to_int128 x v h : pair x v -> den (hi x) h ->
  __fixunstfti_dd x = (if v <? U then 0 else if h <? 2 ^ 128 * U then v / U else 2 ^ 128 - 1) /\
  (Z.abs h < 2 ^ 127 * U -> __fixtfti_dd x = Z.quot v U).
Proof. intros P Dh. split; [now apply fixunstfti_spec|]. now apply fixtfti_spec. Qed.

Lemma pair_to_int128_witness : __fixunstfti_dd {| hi := 0x4630000000000000; lo := 0xbfe0000000000000 |} = 2 ^ 100 - 1.
Proof.
  rewrite (proj1 (pair_to_int128 {| hi := 0x4630000000000000; lo := 0xbfe0000000000000 |} (2 ^ 1174 - 2 ^ 1073) (2 ^ 1174)
    ltac:(exists (2 ^ 1174), (- 2 ^ 1073); split; [repeat split; vm_compute; congruence|]; split; [repeat split; vm_compute; congruence|];
      split; [exists 0x4630000000000000; vm_compute; intuition congruence|reflexivity]) ltac:(repeat split; vm_compute; congruence))).
  vm_compute. reflexivity.
Defined.

(** A 64-bit integer goes through a pair into a 128-bit integer unchanged,
    without the exceptions of the conversion back to 64 bits. *)
Theorem pair_widens a : (is_sint 64 a -> __fixtfti_dd (__floatditf_dd a) = a) /\ (is_uint 64 a -> __fixunstfti_dd (__floatunditf_dd a) = a).
Proof.
  pose proof (@unit_pos double_precision) as HU. split; intros R.
  - pose proof (floatditf_dd_spec a R) as I. pose proof (dd_int_pair _ _ I) as P. destruct I as (n & l & Dn & _ & _ & Bl & Sum & _). unfold is_sint in R.
    rewrite (fixtfti_spec _ _ (n * U) P Dn) by (rewrite Z.abs_mul, (Z.abs_eq U) by lia; apply Z.mul_lt_mono_pos_r; lia). apply Z.quot_mul. lia.
  - pose proof (floatunditf_dd_spec a R) as I. pose proof (dd_int_pair _ _ I) as P. destruct I as (n & l & Dn & _ & _ & Bl & Sum & _). unfold is_uint in R.
    rewrite (fixunstfti_spec _ _ (n * U) P Dn). rewrite (proj2 (Z.ltb_lt (n * U) _)) by nia. rewrite Z.div_mul by lia. case_cmp; nia.
Qed.

Lemma pair_widens_witness : is_sint 64 (2 ^ 63 - 5) /\ __fixtfti_dd (__floatditf_dd (2 ^ 63 - 5)) = 2 ^ 63 - 5.
Proof.
  assert (R : is_sint 64 (2 ^ 63 - 5)) by (split; vm_compute; congruence). split; [exact R|]. exact (proj1 (pair_widens (2 ^ 63 - 5)) R).
Defined.
