(* ===== verification/DdMul.v ===== *)
(** * PowerPC long double: multiplication, and from 128-bit integers

    Models [ppc/gcc_qmul.c] and [ppc/floattitf.c].  The product of two pairs
    splits the heads into halves to recover what their product loses; for the
    multiplication by a power of two, which is the one [__floattitf] does, it
    is proved exact, and with the addition of [DdAdd] the conversion is right
    to within one part in [2^104]. *)

From S2P Require Import Prelude IntBits FpLib FpSpec FpAdd FpMul FpCompare FpConv FpInt FpDiv FpExact HardFloat DoubleDouble DdAdd.

Notation "x [*] y" := (__muldf3 x y) (at level 40, left associativity).

Definition LOWORDER (xy xHi xLo yHi yLo : Z) : Z :=
  (((xHi [*] yHi [-] xy) [+] xHi [*] yLo) [+] xLo [*] yHi) [+] xLo [*] yLo.

Definition __gcc_qmul (x y : DD) : DD :=
  let A := hi x in let a := lo x in let B := hi y in let b := lo y in
  let ab := A [*] B in
  if __eqdf2 ab 0 =? 0 then {| hi := ab; lo := 0 |}
  else if exponent_full ab then {| hi := ab; lo := 0 |}
  else
    let aHi := high26bits A in
    let bHi := high26bits B in
    let aLo := A [-] aHi in
    let bLo := B [-] bHi in
    let tmp := LOWORDER ab aHi aLo bHi bLo in
    let tmp := tmp [+] (A [*] b [+] a [*] B) in
    let tau := ab [+] tmp in
    {| hi := tau; lo := (ab [-] tau) [+] tmp |}.

(** The long double constant [0x1.0p64]. *)
Definition dd_twop64 : DD := {| hi := 0x43f0000000000000; lo := 0 |}.

Definition __floattitf_dd (arg : Z) : DD :=
  let ArgHiPart := sint 64 (arg >>[128] 64) in
  let ArgLoPart := uint 64 arg in
  let ConvertedHiPart := __floatditf_dd ArgHiPart in
  let ConvertedLoPart := __floatunditf_dd ArgLoPart in
  __gcc_qadd (__gcc_qmul ConvertedHiPart dd_twop64) ConvertedLoPart.

(** ** Splitting a head *)

(** The upper half of the significand, and what is left of it. *)
Lemma high26_spec A v : den A v -> exists u, den (high26bits A) u /\ @representable double_precision (v - u) /\ Z.abs u <= Z.abs v /\ Z.abs (v - u) <= Z.abs v.
Proof.
  intros D. pose proof (proj1 D) as UA. destruct (rep_parts A UA) as (EA & BA & _ & Sg). change (2 ^ (@typeWidth double_precision - 1)) with (2 ^ 63) in *.
  set (x := @fp_abs double_precision A) in *. set (r := x mod 2 ^ 27). pose proof (Z.mod_pos_bound x (2 ^ 27) ltac:(lia)) as Br. fold r in Br.
  assert (Hr : r <= x) by (apply Z.mod_le; lia).
  assert (H26 : high26bits A = @with_sign double_precision (negative A) (x - r)).
  { unfold high26bits. change 0xfffffffff8000000 with ((2 ^ 37 - 1) * 2 ^ 27). rewrite land_field by lia.
    assert (Q : (x - r) = x / 2 ^ 27 * 2 ^ 27) by (unfold r; rewrite Z.mod_eq by lia; lia). rewrite Q.
    assert (Bq : 0 <= x / 2 ^ 27 < 2 ^ 36) by (split; [apply Z.div_pos|apply Z.div_lt_upper_bound]; lia).
    rewrite EA at 1. unfold with_sign. change (2 ^ (@typeWidth double_precision - 1)) with (2 ^ 36 * 2 ^ 27). destruct (negative A).
    - rewrite Z.div_add_l, Z.mod_small by lia. ring.
    - rewrite Z.mod_small by lia. reflexivity. }
  destruct D as (_ & F & V). unfold is_finite in F. fold x in F. apply Z.ltb_lt in F.
  assert (V0 : 0 <= @fpval double_precision (x - r)) by (apply fpval_step; lia). assert (V1 : @fpval double_precision (x - r) <= @fpval double_precision x) by (apply fpval_mono; lia).
  assert (VA : v = if negative A then - @fpval double_precision x else @fpval double_precision x) by (rewrite <- V; reflexivity).
  exists (if negative A then - @fpval double_precision (x - r) else @fpval double_precision (x - r)).
  split; [|split; [|destruct (negative A); lia]].
  - rewrite H26. apply (@denotes_with_sign double_precision); [lia|destruct (negative A); lia|].
    intros N. destruct (negative A); symmetry; [apply Z.ltb_lt|apply Z.ltb_ge]; lia.
  - replace (v - _) with (if negative A then - (@fpval double_precision x - @fpval double_precision (x - r)) else @fpval double_precision x - @fpval double_precision (x - r))
      by (rewrite VA; destruct (negative A); lia).
    assert (Rr : @representable double_precision (@fpval double_precision x - @fpval double_precision (x - r))); [|destruct (negative A); [now apply representable_opp|exact Rr]].
    destruct (@parts_of double_precision x ltac:(lia)) as (e & q & Ex & He & Hq & Hn). change (@significandBits double_precision) with 52 in *.
    assert (Hrq : r <= q - (if 2 ^ 52 <=? q then 2 ^ 52 else 0) /\ (e = 1 \/ 2 ^ 52 <= q - r)).
    { assert (Er : r = q mod 2 ^ 27) by (unfold r; rewrite Ex; replace ((e - 1) * 2 ^ 52) with ((e - 1) * 2 ^ 25 * 2 ^ 27) by ring; rewrite Z.add_comm; apply Z_mod_plus_full).
      destruct (Z.leb_spec (2 ^ 52) q) as [G|G].
      - assert (r = (q - 2 ^ 52) mod 2 ^ 27) by (rewrite Er; replace (q - 2 ^ 52) with (q + (- 2 ^ 25) * 2 ^ 27) by ring; symmetry; apply Z_mod_plus_full).
        assert ((q - 2 ^ 52) mod 2 ^ 27 <= q - 2 ^ 52) by (apply Z.mod_le; lia). lia.
      - assert (q mod 2 ^ 27 <= q) by (apply Z.mod_le; lia). lia. }
    assert (Vx : @fpval double_precision x = q * 2 ^ (e - 1)) by (rewrite Ex; apply (@fpval_parts double_precision e q); [lia|change (@significandBits double_precision) with 52; lia..]).
    assert (Vr : @fpval double_precision (x - r) = (q - r) * 2 ^ (e - 1)).
    { rewrite Ex. replace ((e - 1) * 2 ^ 52 + q - r) with ((e - 1) * 2 ^ 52 + (q - r)) by lia.
      apply (@fpval_parts double_precision e (q - r)); [lia|change (@significandBits double_precision) with 52; destruct (2 ^ 52 <=? q); lia|exact (proj2 Hrq)]. }
    rewrite Vx, Vr. assert (P : 0 < 2 ^ (e - 1)) by (apply pow2_pos; lia).
    apply (@representable_parts double_precision _ r (e - 1)); [lia|change (@significandBits double_precision) with 52; lia|rewrite Z.abs_eq; nia|].
    rewrite Z.abs_eq by nia. apply Z.le_lt_trans with (@fpval double_precision x); [rewrite Vx; nia|]. apply (@fpval_lt double_precision); lia.
Qed.

(** ** Multiplying by a power of two *)

Lemma representable_scale v k : 0 <= k -> @representable double_precision v -> Z.abs (v * 2 ^ k) < top -> @representable double_precision (v * 2 ^ k).
Proof.
  intros Hk R B. destruct (representable_ulp v R) as (q & j & Hq & Hj & V & _). assert (0 < 2 ^ k) by (apply pow2_pos; lia).
  apply (@representable_parts double_precision _ q (j + k)); [lia|lia| |exact B]. rewrite Z.abs_mul, V, (Z.abs_eq (2 ^ k)), Z.pow_add_r by lia. ring.
Qed.

Lemma mul_op a b x y z : den a x -> den b y -> x * y = z * U -> @representable double_precision z -> den (a [*] b) z.
Proof. exact (@mul_exact double_precision double_ops double_wide a b x y z). Qed.

Lemma mul_zero a b x : den a x -> den b 0 -> den (a [*] b) 0.
Proof. intros Da Db. apply (mul_op a b x 0 0 Da Db); [now rewrite Z.mul_0_r|apply representable_zero]. Qed.

Lemma add_op_exact a b x y z : den a x -> den b y -> x + y = z -> @representable double_precision z -> den (a [+] b) z.
Proof. intros Da Db <- R. exact (@add_exact double_precision double_ops a b x y Da Db R). Qed.

Lemma sub_op_exact a b x y z : den a x -> den b y -> x - y = z -> @representable double_precision z -> den (a [-] b) z.
Proof. intros Da Db <- R. exact (@sub_exact double_precision double_ops a b x y Da Db R). Qed.

Section Power.
Context (k : Z) (Hk : 0 <= k <= 900).
Let B := (1023 + k) * 2 ^ 52.

Lemma power_denotes : den B (2 ^ k * U) /\ high26bits B = B.
Proof.
  split.
  - unfold B. rewrite <- (Z.add_0_r ((1023 + k) * 2 ^ 52)). apply dbl_bits; [lia|lia|]. rewrite Z.add_0_r, U_val, <- !Z.pow_add_r by lia. f_equal. lia.
  - unfold high26bits, B. change 0xfffffffff8000000 with ((2 ^ 37 - 1) * 2 ^ 27). rewrite land_field by lia.
    replace ((1023 + k) * 2 ^ 52) with ((1023 + k) * 2 ^ 25 * 2 ^ 27) by ring. rewrite Z.div_mul, Z.mod_small by lia. reflexivity.
Qed.

(** The correction terms cancel: the product of the heads is exact. *)
Lemma loworder_zero A h u : den A h -> den (high26bits A) u -> @representable double_precision (h - u) ->
  Z.abs u <= Z.abs h -> Z.abs (h - u) <= Z.abs h -> Z.abs h * 2 ^ k < top ->
  den (A [*] B) (h * 2 ^ k) /\ den (LOWORDER (A [*] B) (high26bits A) (A [-] high26bits A) B (B [-] B)) 0.
Proof.
  intros DA Du Rd Bu Bd Room. destruct power_denotes as [DB _]. assert (P : 0 < 2 ^ k) by (apply pow2_pos; lia).
  assert (Sc : forall w, @representable double_precision w -> Z.abs w <= Z.abs h -> @representable double_precision (w * 2 ^ k)).
  { intros w Rw Bw. apply representable_scale; [lia|exact Rw|]. rewrite Z.abs_mul, (Z.abs_eq (2 ^ k)) by lia. nia. }
  assert (Mu : forall a w, den a w -> Z.abs w <= Z.abs h -> den (a [*] B) (w * 2 ^ k)).
  { intros a w Da Bw. apply (mul_op a B w (2 ^ k * U)); [exact Da|exact DB|ring|]. apply Sc; [exact (denotes_representable _ _ Da)|exact Bw]. }
  pose proof (Mu A h DA (Z.le_refl _)) as Dab. split; [exact Dab|].
  assert (DaL : den (A [-] high26bits A) (h - u)) by (apply (sub_op_exact _ _ h u); auto).
  assert (DbL : den (B [-] B) 0) by (apply (sub_op_exact _ _ (2 ^ k * U) (2 ^ k * U)); [exact DB|exact DB|lia|apply representable_zero]).
  assert (Rn : @representable double_precision (- ((h - u) * 2 ^ k))) by (apply representable_opp; apply Sc; assumption).
  assert (T1 : den (high26bits A [*] B [-] A [*] B) (- ((h - u) * 2 ^ k))) by (apply (sub_op_exact _ _ (u * 2 ^ k) (h * 2 ^ k)); [now apply Mu|exact Dab|ring|exact Rn]).
  assert (T2 : den ((high26bits A [*] B [-] A [*] B) [+] high26bits A [*] (B [-] B)) (- ((h - u) * 2 ^ k)))
    by (apply (add_op_exact _ _ (- ((h - u) * 2 ^ k)) 0); [exact T1|exact (mul_zero _ _ u Du DbL)|ring|exact Rn]).
  assert (T3 : den ((high26bits A [*] B [-] A [*] B) [+] high26bits A [*] (B [-] B) [+] (A [-] high26bits A) [*] B) 0)
    by (apply (add_op_exact _ _ (- ((h - u) * 2 ^ k)) ((h - u) * 2 ^ k)); [exact T2|now apply Mu|ring|apply representable_zero]).
  unfold LOWORDER. apply (add_op_exact _ _ 0 0); [exact T3|exact (mul_zero _ _ (h - u) DaL DbL)|reflexivity|apply representable_zero].
Qed.

Lemma qmul_power_spec x v : pair x v -> 8 * (Z.abs v * 2 ^ k) <= top -> pair (__gcc_qmul x {| hi := B; lo := 0 |}) (v * 2 ^ k).
Proof.
  intros P Room. destruct P as (h & l & Dh & Dl & R & E). pose proof (rounds_error _ _ R) as ER. replace (v - h) with l in ER by lia.
  assert (Pk : 0 < 2 ^ k) by (apply pow2_pos; lia). assert (Bh : Z.abs h <= 2 * Z.abs v /\ Z.abs l <= Z.abs h) by lia.
  destruct power_denotes as [DB HB]. destruct (high26_spec (hi x) h Dh) as (u & Du & Rd & Bu & Bd).
  assert (Rh : 4 * (Z.abs h * 2 ^ k) <= top) by nia. assert (Rl : Z.abs l * 2 ^ k <= Z.abs h * 2 ^ k) by (apply Z.mul_le_mono_nonneg_r; lia).
  assert (T0 : 0 < top) by exact (@fpval_inf_pos double_precision).
  destruct (loworder_zero (hi x) h u Dh Du Rd Bu Bd ltac:(lia)) as [Dab Dlow].
  unfold __gcc_qmul. cbn [hi lo]. rewrite HB. destruct (compare_denotes _ _ _ _ Dab zero_denotes) as (_ & -> & _). destruct (Z.eqb_spec (h * 2 ^ k) 0) as [Z0|NZ].
  - assert (h = 0) as -> by nia. assert (l = 0) as -> by lia. assert (v = 0) as -> by lia. exists 0, 0. rewrite !Z.mul_0_l in *.
    split; [exact Dab|]. split; [exact zero_denotes|]. split; [apply rounds_self, representable_zero|reflexivity].
  - rewrite (exponent_full_finite _ _ Dab).
    assert (Rlk : @representable double_precision (l * 2 ^ k)).
    { apply representable_scale; [lia|exact (denotes_representable _ _ Dl)|]. rewrite Z.abs_mul, (Z.abs_eq (2 ^ k)) by lia. lia. }
    assert (DlB : den (lo x [*] B) (l * 2 ^ k)) by (apply (mul_op _ _ l (2 ^ k * U)); [exact Dl|exact DB|ring|exact Rlk]).
    assert (Dt : den (LOWORDER (hi x [*] B) (high26bits (hi x)) (hi x [-] high26bits (hi x)) B (B [-] B) [+] (hi x [*] 0 [+] lo x [*] B)) (l * 2 ^ k)).
    { apply (add_op_exact _ _ 0 (l * 2 ^ k)); [exact Dlow| |reflexivity|exact Rlk].
      apply (add_op_exact _ _ 0 (l * 2 ^ k)); [exact (mul_zero _ _ h Dh zero_denotes)|exact DlB|reflexivity|exact Rlk]. }
    assert (AV : Z.abs (h * 2 ^ k + l * 2 ^ k) = Z.abs v * 2 ^ k) by (rewrite <- Z.mul_add_distr_r, E, Z.abs_mul, (Z.abs_eq (2 ^ k)) by lia; reflexivity).
    assert (Ah : Z.abs (h * 2 ^ k) = Z.abs h * 2 ^ k) by (rewrite Z.abs_mul, (Z.abs_eq (2 ^ k)) by lia; reflexivity).
    assert (Al : Z.abs (l * 2 ^ k) = Z.abs l * 2 ^ k) by (rewrite Z.abs_mul, (Z.abs_eq (2 ^ k)) by lia; reflexivity).
    assert (0 <= Z.abs v * 2 ^ k) by (apply Z.mul_nonneg_nonneg; lia).
    destruct (add_op _ _ _ _ Dab Dt ltac:(lia)) as (s & Ds & Rs).
    pose proof (tail_error _ _ _ _ _ s Dab Dt Ds Rs ltac:(lia) ltac:(lia)) as De.
    replace (v * 2 ^ k) with (h * 2 ^ k + l * 2 ^ k) by (rewrite <- E; ring).
    exists s, (h * 2 ^ k + l * 2 ^ k - s). split; [exact Ds|]. split; [exact De|]. split; [exact Rs|lia].
Qed.
End Power.

(** Multiplying a pair by a power of two is exact, and gives a pair. *)
Theorem qmul_power_exact k x v : 0 <= k <= 900 -> pair x v -> 8 * (Z.abs v * 2 ^ k) <= top ->
  pair (__gcc_qmul x {| hi := (1023 + k) * 2 ^ 52; lo := 0 |}) (v * 2 ^ k).
Proof. intros Hk P Room. exact (qmul_power_spec k Hk x v P Room). Qed.

(** C17: A nonnegative 128-bit integer becomes a pair within one part in [2^104] of
    it: the conversions of the two words and the product are exact, and one
    addition rounds. *)
Theorem floattitf_accurate arg : 0 <= arg < 2 ^ 127 ->
  exists s, pair (__floattitf_dd arg) s /\ Z.abs (s - arg * U) * 2 ^ 104 <= arg * U.
Proof.
  intros R. pose proof (@unit_pos double_precision) as HU. pose proof (Z.div_mod arg (2 ^ 64) ltac:(lia)) as D. pose proof (Z.mod_pos_bound arg (2 ^ 64) ltac:(lia)) as M.
  assert (Bh : 0 <= arg / 2 ^ 64 < 2 ^ 63) by (split; [apply Z.div_pos|apply Z.div_lt_upper_bound]; lia).
  set (h := arg / 2 ^ 64) in *. set (l := arg mod 2 ^ 64) in *.
  assert (Top : 2 ^ 140 * U <= top) by (vm_compute; congruence).
  pose proof (dd_int_pair _ _ (floatditf_dd_spec h ltac:(unfold is_sint; lia))) as Ph. pose proof (dd_int_pair _ _ (floatunditf_dd_spec l M)) as Pl.
  assert (BU : 0 <= h * U <= 2 ^ 63 * U /\ 0 <= l * U <= 2 ^ 64 * U) by nia.
  assert (Rm : 8 * (Z.abs (h * U) * 2 ^ 64) <= top) by (rewrite Z.abs_eq by lia; lia).
  pose proof (qmul_power_spec 64 ltac:(lia) _ _ Ph Rm) as Pm. change ((1023 + 64) * 2 ^ 52) with 0x43f0000000000000 in Pm.
  unfold __floattitf_dd. cbv zeta. rewrite shr_spec, sint_small by (unfold is_sint; fold h; lia). fold h. change (uint 64 arg) with l.
  replace (arg * U) with (h * U * 2 ^ 64 + l * U) by (rewrite D; ring).
  assert (Sg : 0 <= h * U * 2 ^ 64 /\ 0 <= l * U) by lia. destruct (qadd_spec _ _ _ _ Pm Pl) as [S _]; [rewrite !Z.abs_eq by lia; lia|].
  destruct (S (or_introl Sg)) as (s & Ps & Es). exists s. split; [exact Ps|]. rewrite (Z.abs_eq (_ + _)) in Es by lia. exact Es.
Qed.

Lemma floattitf_accurate_witness : 0 <= 2 ^ 126 + 2 ^ 70 + 12345 < 2 ^ 127 /\
  exists s, pair (__floattitf_dd (2 ^ 126 + 2 ^ 70 + 12345)) s /\ Z.abs (s - (2 ^ 126 + 2 ^ 70 + 12345) * U) * 2 ^ 104 <= (2 ^ 126 + 2 ^ 70 + 12345) * U.
Proof.
  assert (R : 0 <= 2 ^ 126 + 2 ^ 70 + 12345 < 2 ^ 127) by lia. split; [exact R|]. exact (floattitf_accurate _ R).
Defined.
