(* ===== verification/DdDiv.v ===== *)
(** * PowerPC long double: division

    Models [ppc/gcc_qdiv.c]: the quotient of the heads, corrected by what it
    leaves.  The division of a whole number by a power of two is proved exact,
    so that it undoes the multiplication of [DdMul]. *)

From S2P Require Import Prelude IntBits FpLib FpSpec FpAdd FpMul FpCompare FpConv FpInt FpDiv FpExact HardFloat DoubleDouble DdAdd DdMul.

Notation "x [/] y" := (__divdf3 x y) (at level 40, left associativity).

Definition __gcc_qdiv (a b : DD) : DD :=
  let x := hi a in let x1 := lo a in let y := hi b in let y1 := lo b in
  let q := x [/] y in
  if __eqdf2 q 0 =? 0 then {| hi := q; lo := 0 |}
  else if exponent_full q then {| hi := q; lo := 0 |}
  else
    let yHi := high26bits y in
    let qHi := high26bits q in
    let yq := y [*] q in
    let yLo := y [-] yHi in
    let qLo := q [-] qHi in
    let tmp := LOWORDER yq yHi yLo qHi qLo in
    let tmp := (x [-] yq) [-] tmp in
    let tmp := ((tmp [+] x1) [-] y1 [*] q) [/] y in
    let x := q [+] tmp in
    {| hi := x; lo := (q [-] x) [+] tmp |}.

Lemma div_op a b x y z : den a x -> den b y -> y <> 0 -> x * U = z * y -> @representable double_precision z -> den (a [/] b) z.
Proof. exact (@div_exact double_precision double_ops double_wide double_recip a b x y z). Qed.

Lemma mul_zero_l a b y : den a 0 -> den b y -> den (a [*] b) 0.
Proof. intros Da Db. apply (mul_op a b 0 y 0 Da Db); [reflexivity|apply representable_zero]. Qed.

(** A number that is representable times a power of two is representable. *)
Lemma representable_unscale v k : 0 <= k -> @representable double_precision (v * 2 ^ k) -> @representable double_precision v.
Proof.
  intros Hk R. destruct (representable_ulp _ R) as (q & j & Hq & Hj & V & _). destruct R as (x & Hx & Ex).
  assert (P : 0 < 2 ^ k) by (apply pow2_pos; lia). rewrite Z.abs_mul, (Z.abs_eq (2 ^ k)) in V, Ex by lia.
  assert (B : Z.abs v < top) by (apply Z.le_lt_trans with (@fpval double_precision x); [rewrite Ex; nia|apply (@fpval_lt double_precision); lia]).
  destruct (Z.le_gt_cases k j) as [L|L].
  - apply (@representable_parts double_precision v q (j - k)); [lia|lia| |exact B].
    apply (Z.mul_reg_r _ _ (2 ^ k)); [lia|]. rewrite V, <- Z.mul_assoc, <- Z.pow_add_r by lia. do 2 f_equal. lia.
  - apply (@representable_parts double_precision v (Z.abs v) 0); [lia| |rewrite Z.mul_1_r; reflexivity|exact B]. split; [lia|].
    assert (Pj : 0 < 2 ^ j) by (apply pow2_pos; lia). assert (2 ^ j <= 2 ^ k) by (apply Z.pow_le_mono_r; lia).
    assert (Z.abs v <= q) by nia. lia.
Qed.

Section Power.
Context (k : Z) (Hk : 0 <= k <= 900).
Let B := (1023 + k) * 2 ^ 52.

(** Multiplied back, the quotient leaves nothing. *)
Lemma loworder_quotient_zero q w u : den q w -> den (high26bits q) u -> @representable double_precision (w - u) ->
  Z.abs u <= Z.abs w -> Z.abs (w - u) <= Z.abs w -> Z.abs w * 2 ^ k < top ->
  den (B [*] q) (w * 2 ^ k) /\ den (LOWORDER (B [*] q) B (B [-] B) (high26bits q) (q [-] high26bits q)) 0.
Proof.
  intros Dq Du Rd Bu Bd Room. destruct (power_denotes k Hk) as [DB _]. fold B in DB. assert (P : 0 < 2 ^ k) by (apply pow2_pos; lia).
  assert (Sc : forall v, @representable double_precision v -> Z.abs v <= Z.abs w -> @representable double_precision (v * 2 ^ k)).
  { intros v Rv Bv. apply representable_scale; [lia|exact Rv|]. rewrite Z.abs_mul, (Z.abs_eq (2 ^ k)) by lia. nia. }
  assert (Mu : forall a v, den a v -> Z.abs v <= Z.abs w -> den (B [*] a) (v * 2 ^ k)).
  { intros a v Da Bv. apply (mul_op B a (2 ^ k * U) v); [exact DB|exact Da|ring|]. apply Sc; [exact (denotes_representable _ _ Da)|exact Bv]. }
  pose proof (Mu q w Dq (Z.le_refl _)) as Dyq. split; [exact Dyq|].
  assert (DqL : den (q [-] high26bits q) (w - u)) by (apply (sub_op_exact _ _ w u); auto).
  assert (DbL : den (B [-] B) 0) by (apply (sub_op_exact _ _ (2 ^ k * U) (2 ^ k * U)); [exact DB|exact DB|lia|apply representable_zero]).
  assert (T1 : den (B [*] high26bits q [-] B [*] q) (- ((w - u) * 2 ^ k)))
    by (apply (sub_op_exact _ _ (u * 2 ^ k) (w * 2 ^ k)); [now apply Mu|exact Dyq|ring|apply representable_opp; now apply Sc]).
  assert (T2 : den ((B [*] high26bits q [-] B [*] q) [+] B [*] (q [-] high26bits q)) 0)
    by (apply (add_op_exact _ _ (- ((w - u) * 2 ^ k)) ((w - u) * 2 ^ k)); [exact T1|now apply Mu|ring|apply representable_zero]).
  assert (T3 : den ((B [*] high26bits q [-] B [*] q) [+] B [*] (q [-] high26bits q) [+] (B [-] B) [*] high26bits q) 0)
    by (apply (add_op_exact _ _ 0 0); [exact T2|exact (mul_zero_l _ _ u DbL Du)|reflexivity|apply representable_zero]).
  unfold LOWORDER. apply (add_op_exact _ _ 0 0); [exact T3|exact (mul_zero_l _ _ (w - u) DbL DqL)|reflexivity|apply representable_zero].
Qed.

(** Both parts of the dividend are multiples of the divisor. *)
Lemma qdiv_power_spec x h l v : den (hi x) (h * 2 ^ k) -> den (lo x) (l * 2 ^ k) -> @representable double_precision h -> h + l = v ->
  @representable double_precision l -> Z.abs l <= Z.abs h -> Z.abs h <= 2 * Z.abs v -> 8 * (Z.abs v * 2 ^ k) <= top ->
  pair (__gcc_qdiv x {| hi := B; lo := 0 |}) v.
Proof.
  intros Dh Dl R E Rl Ll Bh Room.
  assert (Pk : 0 < 2 ^ k) by (apply pow2_pos; lia). assert (P1 : 1 <= 2 ^ k) by lia.
  assert (T0 : 0 < top) by exact (@fpval_inf_pos double_precision). pose proof (@unit_pos double_precision) as HU.
  destruct (power_denotes k Hk) as [DB HB]. fold B in DB, HB.
  assert (Dq : den (hi x [/] B) h) by (apply (div_op _ _ (h * 2 ^ k) (2 ^ k * U)); [exact Dh|exact DB|nia|ring|exact R]).
  destruct (high26_spec (hi x [/] B) h Dq) as (u & Du & Rd & Bu & Bd).
  assert (Rh : 4 * (Z.abs h * 2 ^ k) <= top) by nia. assert (Vk : 4 * Z.abs h <= top) by nia.
  destruct (loworder_quotient_zero (hi x [/] B) h u Dq Du Rd Bu Bd ltac:(lia)) as [Dyq Dlow].
  unfold __gcc_qdiv. cbn [hi lo]. rewrite HB. destruct (compare_denotes _ _ _ _ Dq zero_denotes) as (_ & -> & _). destruct (Z.eqb_spec h 0) as [Z0|NZ].
  - assert (l = 0) as -> by lia. subst h. assert (v = 0) as -> by lia. exists 0, 0.
    split; [exact Dq|]. split; [exact zero_denotes|]. split; [now apply rounds_self, representable_zero|reflexivity].
  - rewrite (exponent_full_finite _ _ Dq).
    set (low := LOWORDER _ _ _ _ _) in *. clearbody low.
    assert (D1 : den (hi x [-] B [*] (hi x [/] B) [-] low) 0).
    { apply (sub_op_exact _ _ 0 0); [|exact Dlow|reflexivity|apply representable_zero].
      apply (sub_op_exact _ _ (h * 2 ^ k) (h * 2 ^ k)); [exact Dh|exact Dyq|lia|apply representable_zero]. }
    assert (D2 : den ((hi x [-] B [*] (hi x [/] B) [-] low) [+] lo x [-] 0 [*] (hi x [/] B)) (l * 2 ^ k)).
    { apply (sub_op_exact _ _ (l * 2 ^ k) 0); [|exact (mul_zero_l _ _ h zero_denotes Dq)|lia|exact (denotes_representable _ _ Dl)].
      apply (add_op_exact _ _ 0 (l * 2 ^ k)); [exact D1|exact Dl|reflexivity|exact (denotes_representable _ _ Dl)]. }
    assert (Dt : den (((hi x [-] B [*] (hi x [/] B) [-] low) [+] lo x [-] 0 [*] (hi x [/] B)) [/] B) l)
      by (apply (div_op _ _ (l * 2 ^ k) (2 ^ k * U)); [exact D2|exact DB|nia|ring|exact Rl]).
    destruct (add_op _ _ _ _ Dq Dt ltac:(rewrite E; nia)) as (s & Ds & Rs).
    pose proof (tail_error _ _ _ _ _ s Dq Dt Ds Rs Ll Vk) as De.
    exists s, (h + l - s). split; [exact Ds|]. split; [exact De|]. rewrite <- E. split; [exact Rs|lia].
Qed.
End Power.

(** The quotient of a converted integer by a power of two is exact. *)
Theorem qdiv_power_exact k x a : 0 <= k <= 900 -> dd_int x a -> Z.abs a <= 2 ^ 64 ->
  pair (__gcc_qdiv x {| hi := (1023 + k) * 2 ^ 52; lo := 0 |}) (a * 2 ^ (1074 - k)).
Proof.
  intros Hk I Ba. pose proof (@unit_pos double_precision) as HU. destruct (pair_parts x (a * U) (dd_int_pair x a I)) as (h & l & Dh & Dl & E & L1 & L2 & _).
  destruct I as (n & m & Dn & Dm & _ & _ & Sum & _). rewrite (den_unique _ _ _ Dh Dn), (den_unique _ _ _ Dl Dm) in *.
  assert (P : 0 < 2 ^ (1074 - k)) by (apply pow2_pos; lia). assert (Pk : 0 < 2 ^ k) by (apply pow2_pos; lia).
  assert (S : forall c, c * U = c * 2 ^ (1074 - k) * 2 ^ k) by (intros c; rewrite U_val, <- Z.mul_assoc, <- Z.pow_add_r by lia; do 2 f_equal; lia).
  assert (A : forall c, Z.abs (c * 2 ^ (1074 - k)) = Z.abs c * 2 ^ (1074 - k)) by (intros c; rewrite Z.abs_mul, (Z.abs_eq (2 ^ _)); lia).
  assert (L1' : Z.abs m <= Z.abs n) by (rewrite !Z.abs_mul, (Z.abs_eq U) in L1 by lia; nia).
  assert (L2' : Z.abs n <= 2 * Z.abs a) by (rewrite !Z.abs_mul, (Z.abs_eq U) in L2 by lia; nia).
  assert (RS : forall c r, den r (c * U) -> @representable double_precision (c * 2 ^ (1074 - k))).
  { intros c r D. apply (representable_unscale _ k); [lia|rewrite <- S; exact (denotes_representable _ _ D)]. }
  apply (qdiv_power_spec k Hk x (n * 2 ^ (1074 - k)) (m * 2 ^ (1074 - k))); rewrite <- ?S; try assumption.
  - exact (RS n _ Dn).
  - rewrite <- Sum. ring.
  - exact (RS m _ Dm).
  - rewrite !A. nia.
  - rewrite !A. nia.
  - rewrite A, <- (Z.abs_eq (2 ^ k)), <- A, <- Z.abs_mul, <- S, Z.abs_mul, (Z.abs_eq U) by lia.
    apply Z.le_trans with (2 ^ 67 * U); [nia|vm_compute; congruence].
Qed.

Lemma qdiv_power_exact_witness : pair (__gcc_qdiv (__floatditf_dd (2 ^ 63 - 5)) {| hi := (1023 + 10) * 2 ^ 52; lo := 0 |}) ((2 ^ 63 - 5) * 2 ^ (1074 - 10)).
Proof.
  apply (qdiv_power_exact 10); [lia| |lia]. apply floatditf_dd_spec. unfold is_sint. lia.
Defined.
